(* ===== verification/_CoqProject ===== *)
-Q . S2P
Prelude.v
HashSet.v
Event.v
Backoff.v
TimeBackoff.v
LinkedList.v
LinkedListFacts.v
MultiQueue.v
WaitGroup.v
Semaphore.v
Trigger.v
Allocate.v
Lockfile.v
LockDebug.v
Objects.v
IPPool.v
MemServer.v
PoolFacts.v
SpiderPool.v
SpiderPoolFacts.v
Node.v
NodeFacts.v
NodeLocks.v
Namespace.v
Infra.v
Config.v
Openstack.v
Connect.v
Metadata.v
OpenstackFacts.v
Flight.v
Vpc.v
VpcFacts.v
Work.v
DeepCopy.v
DeepCopyFacts.v
Startup.v
Runtime.v
InfraOps.v
InfraQueue.v
InfraOpsFacts.v
System.v
SystemFacts.v
World.v
Daemon.v
Witness.v
ToolWitness.v
