(* ===== verification/Prelude.v ===== *)
(** * enipam: a verification library

    enipam is a Kubernetes controller that gives nodes and pods network
    interfaces of an IaaS (Openstack).  A cluster administrator declares subnets
    (the custom resource Subnat); the controller keeps, per node, a main interface
    and pools of secondary addresses between two watermarks, stores the pools as
    spiderpool objects, and creates, attaches and releases ports at the cloud.

    ** The parts of the program and the files that model them

    This file: Go errors, panics and blocking calls, the monad [go] of code that
    changes a state and returns, panics or blocks; loops with early exits; the
    order of [range] over a map as the parameter [RangeOrder]; [Lens] and
    [Disjoint] for the memories of components inside one state; 64-bit
    integers ([wrap64]); runs of labelled steps ([run_of]); what a computation
    preserves, and the tactics for it.

    Data and libraries
    - HashSet.v: the gods hash set, with nil sets and unhashable elements.
    - Event.v: the helpers of pkg/util/event.go.
    - Backoff.v: pkg/util/backoff.go and the retry loop of the backoff library;
      TimeBackoff.v: its policy with a clock, in rounded floating point.
    - LinkedList.v, LinkedListFacts.v: pkg/util/queue.go on a heap of elements;
      every method implements the function on sequences of its name.
    - MultiQueue.v: pkg/util/multiqueue.go over the lists.
    - Allocate.v: pkg/util/allocate.go.
    - Trigger.v: pkg/util/trigger.go.

    Locks (pkg/lock)
    - WaitGroup.v: stoppable_waitgroup.go, one atomic access per step.
    - Semaphore.v: semaphored_mutex.go over the weighted semaphore.
    - Lockfile.v: lockfile/lockfile_linux.go with its goroutines, over the files
      and locks of the kernel ([OfdLocks], [OfdLaws]).
    - LockDebug.v: lock_debug.go and the stacks that it prints, over the wrapped
      mutexes ([LockDebug.Environment]).

    Kubernetes and the controllers
    - Objects.v: object metadata, finalizers, and the API server as the class
      [KubeClient], its laws [KubeServer], and apart from them the laws of
      clients whose reads are current ([KubeCurrent], [KubeExact]) and whose
      writes do not fail ([KubeReliable]); MemServer.v: an in-memory server.
    - IPPool.v: pkg/ippool/config.go and its Manager as [PoolManager];
      PoolFacts.v: what clients of that interface share.
    - SpiderPool.v, SpiderPoolFacts.v: pkg/ippool/spiderpool/controller.go,
      which implements [PoolManager].
    - Node.v, NodeFacts.v: pkg/node; NodeLocks.v: the interleaving of its
      Reconcile with its callback goroutine on the mutex and the channel.
    - Namespace.v: pkg/namespace.
    - Vpc.v, VpcFacts.v: pkg/vpc/vpc.go and config.go, the subnet controller,
      a client of [PoolManager], [NodeManager] and [InfraClient], with the state
      of its lock (readers, and a writer that holds it or waits).
    - Work.v: [processWork] of vpc.go in time, with its tickers.
    - InfraOps.v, InfraOpsFacts.v: pkg/vpc/infraops.go, the handler that applies
      a subnet event; InfraQueue.v: the goroutines that call it, interleaved
      on their queue.
    - DeepCopy.v, DeepCopyFacts.v: the generated copies of subnets
      (pkg/k8s/apis/eni.io/v1alpha1/zz_generated.deepcopy.go) on a heap; the
      other files treat an API object as a value.

    The cloud
    - Infra.v: pkg/infra/interface.go, controller.go, config.go; the client
      interface as [InfraClient].
    - Openstack.v, OpenstackFacts.v: pkg/infra/openstack.go, over the requests
      to the services ([Neutron]) and two bounded pools of goroutines;
      Connect.v: its constructor, over gophercloud ([Gophercloud]).
    - Flight.v: the requests that overlap, through singleflight.Group.Do.
    - Metadata.v: pkg/infra/metadata, over HTTP ([Http]); nothing calls it.

    The process
    - Config.v: cmd/eni-controller/cmd/config.go, the environment; Startup.v:
      the order of flags, environment and file (config.go, command_daemon.go).
    - Runtime.v: the constructors of the four managers with their [probe], and
      crd_manager.go, over controller-runtime ([CtrlRuntime]); what they hand
      over is kept in a [registry].
    - Daemon.v: cmd/eni-controller/cmd/daemon.go and the commands
      (command_root.go, command_daemon.go, command_shutdown.go), from the
      command line to the loop of signals, on the memory of the process
      beside the world that answers the libraries' calls ([Boot]).
    - System.v, SystemFacts.v: all components in one state, wired as daemon.go
      does, beside any outside world whose services answer and fail as they
      like; every handler is one step of the system.
    - World.v: a concrete outside world; Witness.v, ToolWitness.v: the theorems
      at concrete inputs.

    ** How they interact

    The API server calls each controller's Reconcile; pool and node Reconcile
    put a name into a channel, whose receiver passes the cached pool or node to
    the registered functions; the only one is the subnet manager's [callback],
    which computes a [subnatEvent] for every subnet that is concerned and sends it
    to the worker, which calls [processSubnatWork]; that drives the cloud client,
    whose asynchronous updates run as tasks of its pools.  The memory that
    Daemon.v leaves behind is a start state of SystemFacts.v.  A handler is a
    Definition in [go] over the state of the whole system; it names its guards and
    early returns in the order of the code.  Callbacks are named by numbers,
    as functions are not data.

    ** What the theorems show

    - Safety of deletion: a pool object and its finalizer stay while it hands
      out addresses (SpiderPoolFacts.deletePool_safe), the finalizer of a
      node or a subnet goes only after its pools were deleted without an error
      (NodeFacts.Node_finalizer_safe, VpcFacts.Subnet_finalizer_safe), repeated
      deletions end once the client's cache catches up between them
      (deletePool_converges), the marks are monotone (the two
      lifecycle theorems); and what is not protected (deletion_unprotected).
    - Function: the watermarks (calPoolEvent_watermarks), the object that an
      update or a creation writes, what a reconcile of a subnet observes, events,
      listings, retries (retries_end), port names, where a setting comes from
      (startup_precedence), what an unlock prints (Unlock_reports).
    - Progress: which events a worker ever finishes
      (processSubnatWork_finishes), which it hands over and when
      (worker_coalesces, worker_timing), how a pool of workers serves its queue
      (events_served), the fate of callbacks (callback_stuck),
      the two ways in which the node controller blocks (node_deadlock), how the process
      ends, and that it serves when nothing fails (main_outcome).
    - The composition, on any services: the memory of every reachable state is
      well formed (SystemFacts.memory_well_formed), and no run of the wired
      system ever asks to write a pool (SystemFacts.pools_never_written); a process that serves has
      the four controllers registered and starts in such a state (main_outcome).
    - Bounds: the timeout of the cloud client (NewOpenstackClient_spec), the
      delays of the worker, the identifiers of the allocator.
    - Refinement: lists implement sequences, the named queues a map of them,
      the generated copies the copy of a value (deep_copy_promise).
    - Concurrency: the stoppable wait group (no lost wake-up, an early
      release), the semaphored mutex, the trigger, the file lock, and
      singleflight with the keys of the client (do_promise, client_flights).

    Theorems that state a failure are about the code as it is: each names inputs
    that the program can meet.

    ** Bounds and fuel

    Integers are Z; additions of [int] and [int64] wrap at 64 bits where they
    can (the watermarks, the lists' sizes, the counters), and theorems that need
    the absence of overflow say so.  The loops over lists are structural.  Fuel
    appears in LinkedList.v (walks bounded by the index or the size, shown never
    to run out by the refinement theorem), in the loop of Backoff.v (the policies
    bound it, retries_end) and in [trim_left] of Config.v (the length of
    the text).

    ** Not modelled

    What is left is code outside src/ or has no state of its own.  The run of
    controller-runtime (its caches, queues and leader election) is not followed:
    which handlers it calls and when is the step relation of SystemFacts.v, which
    lets its client answer anything, and their errors are only returned to it; the process can end at any time when it
    fails.  HTTP, gophercloud, client-go, gops, pyroscope, the kernel's file locks,
    the decoders of YAML and JSON texts and the parsing of cobra's command line
    are interfaces or parameters.
    Theorems about one call on a stored object that need its reads to be
    current, although the client may read a cache, say so by the class
    [KubeCurrent] or [KubeExact] (deletePool_converges by [caught_up]).  The
    pages of a listing are fetched before its function is called on the first
    of them; gophercloud fetches each one after the calls on the one before.
    The log lines have no effect.  The types of
    lock.go and lock_fast.go embed the mutexes of sync or of go-deadlock.
    A Close of a Lockfile while one of its calls is under way is not
    interleaved with it, as the number of its descriptor may be given to another
    file; lockfile_other.go, for other systems, answers errors.  Except in
    NodeLocks.v, WaitGroup.v, Semaphore.v, Trigger.v, Lockfile.v, Flight.v, Work.v
    and InfraQueue.v a handler runs to its end before the next one starts, as it
    holds its component's lock; a lock that is held for ever is a [Hang].  The
    float64 threshold of lock_debug.go is stated in nanoseconds. *)

From stdpp Require Export base strings gmap numbers.
From stdpp Require Export list.

(** ** Go errors, panics and outcomes *)

(** A Go [error] that is not nil; a nil error is [None : option error].
    [ENotFound] is what [apierrors.IsNotFound] recognises, [EMsg] a
    [fmt.Errorf] of the program, [EApi] an error of a remote service,
    [EJoin] the result of [errors.Join], [EPermanent] a
    [*backoff.PermanentError]. *)
Inductive error :=
  | ENotFound
  | EMsg (msg : string)
  | EApi (code : Z)
  | EJoin (l r : error)
  | EPermanent (e : error).

#[export] Instance error_eq_dec : EqDecision error.
Proof. solve_decision. Defined.

(** [errors.Join]; a join of one error is identified with it. *)
Definition join (a b : option error) : option error :=
  match a, b with
  | Some a, Some b => Some (EJoin a b)
  | Some a, None => Some a
  | None, b => b
  end.

(** The run-time panics that the modelled code can raise. *)
Inductive panic :=
  | NilDeref
  | NilMapWrite
  | IndexOutOfRange
  | UnhashableKey
  | BadTypeAssertion
  | CloseOfClosed
  | ReleasedTooMuch
  | NegativeWaitGroup
  | MustFailed.

#[export] Instance panic_eq_dec : EqDecision panic.
Proof. solve_decision. Defined.

(** The outcome of a Go call: it returns, it panics, or it blocks forever
    (a receive on a nil channel, a [Wait] that nobody completes). *)
Inductive outcome (A : Type) :=
  | Ret (a : A)
  | Panic (p : panic)
  | Hang.
Arguments Ret {A} a.
Arguments Panic {A} p.
Arguments Hang {A}.

(** ** The Go monad: state passing with outcomes

    A panic or a block keeps the state reached so far: the memory that the
    code has already changed stays changed. *)
Definition go (S A : Type) : Type := S → outcome A * S.

Definition go_ret {S A} (a : A) : go S A := λ s, (Ret a, s).

Definition go_bind {S A B} (m : go S A) (f : A → go S B) : go S B :=
  λ s, match m s with
       | (Ret a, s') => f a s'
       | (Panic p, s') => (Panic p, s')
       | (Hang, s') => (Hang, s')
       end.

Declare Scope go_scope.
Delimit Scope go_scope with go.
Bind Scope go_scope with go.

Notation "'let*' x ':=' m 'in' k" := (go_bind m (λ x, k))
  (at level 10, x binder, m at level 200, k at level 200) : go_scope.
Notation "m ';;;' k" := (go_bind m (λ _, k))
  (at level 199, right associativity) : go_scope.
Open Scope go_scope.

Definition go_get {S} : go S S := λ s, (Ret s, s).
Definition go_put {S} (s : S) : go S unit := λ _, (Ret tt, s).
Definition go_modify {S} (f : S → S) : go S unit := λ s, (Ret tt, f s).
Definition go_gets {S A} (f : S → A) : go S A := λ s, (Ret (f s), s).
Definition go_panic {S A} (p : panic) : go S A := λ s, (Panic p, s).
Definition go_hang {S A} : go S A := λ s, (Hang, s).

(** A computation that touches no state, inside any state. *)
Definition go_lift {S A} (o : outcome A) : go S A := λ s, (o, s).

(** A call of an external service, which always returns. *)
Definition go_call {S A} (f : S → A * S) : go S A :=
  λ s, let '(a, s') := f s in (Ret a, s').

(** [defer f()], then the body: the deferred call runs when the body returns
    or panics, and never when it blocks. *)
Definition go_defer {S A} (f : go S unit) (body : go S A) : go S A :=
  λ s, match body s with
       | (Hang, s') => (Hang, s')
       | (o, s') => match f s' with
                    | (Ret _, s'') => (o, s'')
                    | (Panic p, s'') => (Panic p, s'')
                    | (Hang, s'') => (Hang, s'')
                    end
       end.

#[global] Arguments go_ret {S A} a s /.
#[global] Arguments go_get {S} s /.
#[global] Arguments go_put {S} s _ /.
#[global] Arguments go_modify {S} f s /.
#[global] Arguments go_gets {S A} f s /.
#[global] Arguments go_panic {S A} p s /.
#[global] Arguments go_hang {S A} s /.
#[global] Arguments go_lift {S A} o s /.

(** Outcomes on their own form a monad too. *)
Definition out_bind {A B} (o : outcome A) (f : A → outcome B) : outcome B :=
  match o with
  | Ret a => f a
  | Panic p => Panic p
  | Hang => Hang
  end.

Lemma out_bind_ret {A B} (a : A) (f : A → outcome B) : out_bind (Ret a) f = f a.
Proof. done. Qed.

(** ** Loops *)

(** [for _, a := range l { acc = body(acc, a) }] *)
Fixpoint for_acc {S A B} (l : list A) (f : B → A → go S B) (b : B) : go S B :=
  match l with
  | [] => go_ret b
  | a :: l => let* b' := f b a in for_acc l f b'
  end.

(** The same loop, left at the first iteration whose body says [true]
    ([break] or an early return inside the loop). *)
Fixpoint for_break {S A B} (l : list A) (f : B → A → go S (B * bool)) (b : B) : go S B :=
  match l with
  | [] => go_ret b
  | a :: l =>
      let* '(b', stop) := f b a in
      if stop : bool then go_ret b' else for_break l f b'
  end.

(** The iteration of a callback that returns an error: stops at the first
    error.  The variables that the Go closure captures are the accumulator. *)
Definition for_until {S A B} (l : list A)
    (f : B → A → go S (B * option error)) (b : B) : go S B :=
  for_break l (λ b a, let* '(b', e) := f b a in go_ret (b', bool_decide (is_Some e))) b.

(** ** Map and set iteration order

    Go ranges over a map in an unspecified order.  The order is a parameter
    of the development; every theorem holds for every instance. *)
Class RangeOrder := {
  range_order : ∀ {A : Type}, list A → list A;
  range_order_perm : ∀ {A} (l : list A), range_order l ≡ₚ l
}.

(** The instance that the concrete witnesses use. *)
Definition natural_order : RangeOrder :=
  {| range_order := λ A l, l; range_order_perm := λ A l, Permutation_refl l |}.

(** ** Views of a component's memory inside the whole system's state *)
Class Lens (S C : Type) := {
  view : S → C;
  put : C → S → S;
  view_put : ∀ c s, view (put c s) = c;
  put_view : ∀ s, put (view s) s = s;
  put_put : ∀ c c' s, put c (put c' s) = put c s
}.

#[export] Instance lens_id {S} : Lens S S | 100.
Proof. refine {| view := λ s, s; put := λ c _, c |}; done. Defined.

(** Two components whose memories are apart. *)
Class Disjoint (S C D : Type) `{!Lens S C, !Lens S D} := {
  disjoint_l : ∀ (c : C) (s : S), view (C:=D) (put c s) = view s;
  disjoint_r : ∀ (d : D) (s : S), view (C:=C) (put d s) = view s
}.

Definition load {S C} `{Lens S C} : go S C := go_gets view.
Definition store {S C} `{Lens S C} (c : C) : go S unit := go_modify (put c).

(** ** Machine integers: Go's [int] and [int64] wrap at 64 bits *)
Definition wrap64 (z : Z) : Z := (z + 2 ^ 63) `mod` 2 ^ 64 - 2 ^ 63.

Definition int64_range (z : Z) : Prop := (- 2 ^ 63 ≤ z < 2 ^ 63)%Z.

Lemma wrap64_id z : int64_range z → wrap64 z = z.
Proof. unfold int64_range, wrap64. intros ?. rewrite Z.mod_small; lia. Qed.

Lemma wrap64_range z : int64_range (wrap64 z).
Proof.
  unfold int64_range, wrap64.
  pose proof (Z.mod_pos_bound (z + 2 ^ 63) (2 ^ 64)). lia.
Qed.

Lemma wrap64_wrap z : wrap64 (wrap64 z) = wrap64 z.
Proof. apply wrap64_id, wrap64_range. Qed.

(** [a + b - c] computed with intermediate wrapping is the wrapped result. *)
Lemma wrap64_add_l a b : wrap64 (wrap64 a + b) = wrap64 (a + b).
Proof.
  unfold wrap64. f_equal.
  replace ((a + 2 ^ 63) `mod` 2 ^ 64 - 2 ^ 63 + b + 2 ^ 63)%Z
    with ((a + 2 ^ 63) `mod` 2 ^ 64 + b)%Z by lia.
  rewrite Zplus_mod_idemp_l. f_equal. lia.
Qed.

(** ** Strings: the functions of Go's package strings that the code uses *)
Fixpoint strip_prefix (p s : string) : option string :=
  match p, s with
  | EmptyString, _ => Some s
  | String a p, String b s => if decide (a = b) then strip_prefix p s else None
  | String _ _, EmptyString => None
  end.

Definition HasPrefix (s p : string) : bool := bool_decide (is_Some (strip_prefix p s)).
Definition TrimPrefix (s p : string) : string := default s (strip_prefix p s).

Lemma strip_prefix_app p s : strip_prefix p (p +:+ s) = Some s.
Proof. induction p as [|a p IH]; simpl; [done|]. by rewrite decide_True. Qed.

Lemma strip_prefix_Some p s r : strip_prefix p s = Some r ↔ s = p +:+ r.
Proof.
  split; [|intros ->; apply strip_prefix_app].
  revert s. induction p as [|a p IH]; intros s; [by intros [= ->]|].
  destruct s as [|b s]; simpl; [done|].
  case_decide; [|done]. intros ?%IH. by subst.
Qed.

(** ** Lists *)
Section lists.
Context {A : Type}.
Implicit Types (l : list A).

Lemma filter_all (P : A → Prop) `{∀ x, Decision (P x)} l :
  Forall P l → filter P l = l.
Proof.
  induction 1 as [|x l Hx Hl IH]; [done|].
  by rewrite filter_cons, decide_True, IH.
Qed.

Lemma filter_none (P : A → Prop) `{∀ x, Decision (P x)} l :
  Forall (λ x, ¬ P x) l → filter P l = [].
Proof.
  induction 1 as [|x l Hx Hl IH]; [done|].
  by rewrite filter_cons, decide_False.
Qed.
End lists.

(** ** Reasoning about computations *)

Lemma go_bind_ret_l {S A B} (a : A) (f : A → go S B) s : go_bind (go_ret a) f s = f a s.
Proof. done. Qed.

Lemma go_bind_ret_r {S A} (m : go S A) s : go_bind m go_ret s = m s.
Proof. unfold go_bind. by destruct (m s) as [[] ?]. Qed.

Lemma go_bind_assoc {S A B C} (m : go S A) (f : A → go S B) (g : B → go S C) s :
  go_bind (go_bind m f) g s = go_bind m (λ a, go_bind (f a) g) s.
Proof. unfold go_bind. by destruct (m s) as [[] ?]. Qed.

(** The workhorse: a bind whose first part is known to return. *)
Lemma go_bind_run {S A B} (m : go S A) (f : A → go S B) s a s' :
  m s = (Ret a, s') → go_bind m f s = f a s'.
Proof. unfold go_bind. by intros ->. Qed.

Lemma go_bind_panic {S A B} (m : go S A) (f : A → go S B) s p s' :
  m s = (Panic p, s') → go_bind m f s = (Panic p, s').
Proof. unfold go_bind. by intros ->. Qed.

Lemma go_bind_hang {S A B} (m : go S A) (f : A → go S B) s s' :
  m s = (Hang, s') → go_bind m f s = (Hang, s').
Proof. unfold go_bind. by intros ->. Qed.

Lemma go_defer_ret {S A} (f : go S unit) (body : go S A) s a s1 s2 :
  body s = (Ret a, s1) → f s1 = (Ret tt, s2) → go_defer f body s = (Ret a, s2).
Proof. unfold go_defer. by intros -> ->. Qed.

(** A deferred call that always returns ends what the body did. *)
Lemma go_defer_inv {S A} (f : go S unit) (g : S → S) (body : go S A) s o s' :
  (∀ s, f s = (Ret tt, g s)) → go_defer f body s = (o, s') →
  ∃ s1, body s = (o, s1) ∧ s' = match o with Hang => s1 | _ => g s1 end.
Proof.
  intros Hf. unfold go_defer. destruct (body s) as [[a|p|] s1]; rewrite ?Hf;
    intros [= <- <-]; by exists s1.
Qed.

(** If a bind returns, so did its first part. *)
Lemma go_bind_inv {S A B} (m : go S A) (f : A → go S B) s b s' :
  go_bind m f s = (Ret b, s') → ∃ a s1, m s = (Ret a, s1) ∧ f a s1 = (Ret b, s').
Proof. unfold go_bind. destruct (m s) as [[a|p|] s1]; naive_solver. Qed.

Lemma go_bind_ext {S A B} (m m' : go S A) (f f' : A → go S B) s :
  m s = m' s → (∀ a s1, m' s = (Ret a, s1) → f a s1 = f' a s1) →
  go_bind m f s = go_bind m' f' s.
Proof.
  unfold go_bind. intros -> Hf. destruct (m' s) as [[a|p|] s1] eqn:?; [|done..].
  by apply Hf.
Qed.

(** Computations that always return. *)
Definition total {S A} (m : go S A) : Prop := ∀ s, ∃ a s', m s = (Ret a, s').

Lemma total_ret {S A} (a : A) : total (S:=S) (go_ret a).
Proof. intros s. by do 2 eexists. Qed.

Lemma total_call {S A} (f : S → A * S) : total (go_call f).
Proof. intros s. unfold go_call. destruct (f s). by do 2 eexists. Qed.

Lemma total_bind {S A B} (m : go S A) (f : A → go S B) :
  total m → (∀ a, total (f a)) → total (go_bind m f).
Proof.
  intros Hm Hf s. destruct (Hm s) as (a & s1 & Hs). destruct (Hf a s1) as (b & s2 & Hs').
  exists b, s2. by rewrite (go_bind_run _ _ _ _ _ Hs).
Qed.

(** ** Frames: what a computation leaves alone, however it ends *)
Definition preserves {S A X} (p : S → X) (m : go S A) : Prop := ∀ s, p (snd (m s)) = p s.

Section preserves.
Context {S X : Type} (p : S → X).

Lemma preserves_end {A} (m : go S A) s o s' : preserves p m → m s = (o, s') → p s' = p s.
Proof. intros Hm Hs. pose proof (Hm s) as H. by rewrite Hs in H. Qed.

Lemma preserves_ret {A} (a : A) : preserves p (go_ret a).
Proof. done. Qed.
Lemma preserves_panic {A} e : preserves p (go_panic (A:=A) e).
Proof. done. Qed.
Lemma preserves_hang {A} : preserves p (go_hang (A:=A)).
Proof. done. Qed.
Lemma preserves_lift {A} (o : outcome A) : preserves p (go_lift o).
Proof. done. Qed.
Lemma preserves_gets {A} (f : S → A) : preserves p (go_gets f).
Proof. done. Qed.

Lemma preserves_call {A} (f : S → A * S) :
  (∀ s, p (snd (f s)) = p s) → preserves p (go_call f).
Proof. intros Hf s. specialize (Hf s). unfold go_call. by destruct (f s). Qed.

Lemma preserves_bind {A B} (m : go S A) (f : A → go S B) :
  preserves p m → (∀ a, preserves p (f a)) → preserves p (go_bind m f).
Proof.
  intros Hm Hf s. unfold go_bind. specialize (Hm s).
  destruct (m s) as [[a|e|] s1]; simpl in *; [by rewrite Hf|done..].
Qed.

Lemma preserves_defer {A} (f : go S unit) (body : go S A) :
  preserves p f → preserves p body → preserves p (go_defer f body).
Proof.
  intros Hf Hb s. unfold go_defer. specialize (Hb s). destruct (body s) as [[a|e|] s1]; [..|done];
    simpl in *; specialize (Hf s1); destruct (f s1) as [[| |] s2]; simpl in *; congruence.
Qed.

Lemma preserves_acc {A B} (l : list A) (f : B → A → go S B) b :
  (∀ b a, preserves p (f b a)) → preserves p (for_acc l f b).
Proof.
  intros Hf. revert b. induction l as [|a l IH]; intros b; [done|].
  by apply preserves_bind.
Qed.

Lemma preserves_break {A B} (l : list A) (f : B → A → go S (B * bool)) b :
  (∀ b a, preserves p (f b a)) → preserves p (for_break l f b).
Proof.
  intros Hf. revert b. induction l as [|a l IH]; intros b; [done|].
  apply preserves_bind; [done|]. by intros [? []].
Qed.

Lemma preserves_until {A B} (l : list A) (f : B → A → go S (B * option error)) b :
  (∀ b a, preserves p (f b a)) → preserves p (for_until l f b).
Proof.
  intros Hf. apply preserves_break. intros b1 a. apply preserves_bind; [done|]. by intros [].
Qed.
End preserves.

(** ** Stable conditions: what holds before a computation and after it *)
Definition stable {S A} (I : S → Prop) (m : go S A) : Prop := ∀ s, I s → I (snd (m s)).

Section stable.
Context {S : Type} (I : S → Prop).

Lemma stable_end {A} (m : go S A) s o s' : stable I m → m s = (o, s') → I s → I s'.
Proof. intros Hm Hs HI. pose proof (Hm s HI) as H. by rewrite Hs in H. Qed.

Lemma stable_ret {A} (a : A) : stable I (go_ret a).
Proof. by intros s. Qed.
Lemma stable_panic {A} e : stable I (go_panic (A:=A) e).
Proof. by intros s. Qed.
Lemma stable_hang {A} : stable I (go_hang (A:=A)).
Proof. by intros s. Qed.
Lemma stable_lift {A} (o : outcome A) : stable I (go_lift o).
Proof. by intros s. Qed.
Lemma stable_gets {A} (f : S → A) : stable I (go_gets f).
Proof. by intros s. Qed.

Lemma stable_call {A} (f : S → A * S) : (∀ s, I s → I (snd (f s))) → stable I (go_call f).
Proof. intros Hf s HI. specialize (Hf s HI). unfold go_call. by destruct (f s). Qed.

Lemma stable_bind {A B} (m : go S A) (f : A → go S B) :
  stable I m → (∀ a, stable I (f a)) → stable I (go_bind m f).
Proof.
  intros Hm Hf s HI. unfold go_bind. specialize (Hm s HI).
  destruct (m s) as [[a|e|] s1]; simpl in *; [by apply Hf|done..].
Qed.

Lemma stable_defer {A} (f : go S unit) (body : go S A) :
  stable I f → stable I body → stable I (go_defer f body).
Proof.
  intros Hf Hb s HI. unfold go_defer. specialize (Hb s HI).
  destruct (body s) as [[a|e|] s1]; [..|done];
    simpl in *; specialize (Hf s1 Hb); by destruct (f s1) as [[| |] s2].
Qed.

Lemma stable_acc {A B} (l : list A) (f : B → A → go S B) b :
  (∀ b a, stable I (f b a)) → stable I (for_acc l f b).
Proof.
  intros Hf. revert b. induction l as [|a l IH]; intros b; [apply stable_ret|].
  by apply stable_bind.
Qed.

Lemma stable_until {A B} (l : list A) (f : B → A → go S (B * option error)) b :
  (∀ b a, stable I (f b a)) → stable I (for_until l f b).
Proof.
  intros Hf. unfold for_until. revert b. induction l as [|a l IH]; intros b; [apply stable_ret|].
  apply stable_bind.
  - apply stable_bind; [apply Hf|]. intros []. apply stable_ret.
  - intros [b' []]; [apply stable_ret|apply IH].
Qed.
End stable.

(** ** Potentials: how much a quantity grows when a computation returns *)
Section potential.
Context {S : Type} (φ : S → Z).
Open Scope Z_scope.

Definition grows {A} (n : Z) (m : go S A) : Prop :=
  ∀ s r s', m s = (Ret r, s') → φ s + n ≤ φ s'.

Lemma grows_weaken {A} n n' (m : go S A) : n' ≤ n → grows n m → grows n' m.
Proof. intros Hn Hm s r s' Hr. specialize (Hm _ _ _ Hr). lia. Qed.

Lemma grows_ret {A} (a : A) : grows 0 (go_ret a).
Proof. intros s r s' [= <- <-]. lia. Qed.
Lemma grows_lift {A} (o : outcome A) : grows 0 (go_lift o).
Proof. intros s r s' [= _ <-]. lia. Qed.

Lemma grows_preserves {A} (m : go S A) : preserves φ m → grows 0 m.
Proof. intros Hm s r s' Hr. rewrite (preserves_end φ m s (Ret r) s') by done. lia. Qed.

Lemma grows_bind {A B} n n' (m : go S A) (f : A → go S B) :
  grows n m → (∀ a, grows n' (f a)) → grows (n + n') (go_bind m f).
Proof.
  intros Hm Hf s r s' Hr. apply go_bind_inv in Hr as (a & s1 & H1 & H2).
  specialize (Hm _ _ _ H1). specialize (Hf _ _ _ _ H2). lia.
Qed.

Definition total_of {A} (n : A → Z) (l : list A) : Z := foldr (λ a z, n a + z) 0 l.

Lemma grows_acc {A B} (n : A → Z) (f : B → A → go S B) l b :
  (∀ b a, a ∈ l → grows (n a) (f b a)) → grows (total_of n l) (for_acc l f b).
Proof.
  revert b. induction l as [|a l IH]; intros b Hf; [apply grows_ret|].
  simpl. apply grows_bind; [apply Hf; set_solver|]. intros b'. apply IH. set_solver.
Qed.
End potential.

Lemma total_of_nonneg {A} (n : A → Z) l : (∀ a, (0 ≤ n a)%Z) → (0 ≤ total_of n l)%Z.
Proof. intros Hn. induction l as [|a l IH]; simpl; [lia|]. specialize (Hn a). lia. Qed.

Lemma total_of_zero {A} (n : A → Z) l :
  (∀ a, (0 ≤ n a)%Z) → (total_of n l ≤ 0)%Z → ∀ a, a ∈ l → n a = 0%Z.
Proof.
  intros Hn. induction l as [|x l IH]; intros Hl a Ha; [set_solver|]. simpl in Hl.
  pose proof (total_of_nonneg n l Hn). pose proof (Hn x).
  apply elem_of_cons in Ha as [->|Ha]; [lia|]. apply IH; [lia|done].
Qed.

Lemma total_of_length {A} (l : list A) : total_of (λ _, 1%Z) l = Z.of_nat (length l).
Proof. induction l as [|a l IH]; simpl; lia. Qed.

(** ** Loop rules *)
Section loops.
Context {S A B : Type}.
Implicit Types (l : list A) (b : B) (s : S).

(** One invariant for every iteration of a loop whose body returns. *)
Lemma for_acc_inv (I : B → S → Prop) (f : B → A → go S B) l b s :
  (∀ b a s, a ∈ l → I b s → ∃ b' s', f b a s = (Ret b', s') ∧ I b' s') →
  I b s → ∃ b' s', for_acc l f b s = (Ret b', s') ∧ I b' s'.
Proof.
  revert b s. induction l as [|a l IH]; intros b s Hf HI; [by exists b, s|].
  destruct (Hf b a s) as (b1 & s1 & Hs1 & HI1); [set_solver|done|].
  simpl. rewrite (go_bind_run _ _ _ _ _ Hs1). apply IH; [set_solver|done].
Qed.

Lemma for_break_inv (I : B → S → Prop) (f : B → A → go S (B * bool)) l b s :
  (∀ b a s, a ∈ l → I b s → ∃ b' st s', f b a s = (Ret (b', st), s') ∧ I b' s') →
  I b s → ∃ b' s', for_break l f b s = (Ret b', s') ∧ I b' s'.
Proof.
  revert b s. induction l as [|a l IH]; intros b s Hf HI; [by exists b, s|].
  destruct (Hf b a s) as (b1 & st & s1 & Hs1 & HI1); [set_solver|done|].
  simpl. rewrite (go_bind_run _ _ _ _ _ Hs1).
  destruct st; [by exists b1, s1|]. apply IH; [set_solver|done].
Qed.

Lemma for_until_inv (I : B → S → Prop) (f : B → A → go S (B * option error)) l b s :
  (∀ b a s, a ∈ l → I b s → ∃ b' e s', f b a s = (Ret (b', e), s') ∧ I b' s') →
  I b s → ∃ b' s', for_until l f b s = (Ret b', s') ∧ I b' s'.
Proof.
  intros Hf HI. apply for_break_inv; [|done]. intros b1 a s1 Ha HI1.
  destruct (Hf b1 a s1 Ha HI1) as (b2 & e & s2 & Hs & HI2).
  exists b2, (bool_decide (is_Some e)), s2. split; [|done].
  by rewrite (go_bind_run _ _ _ _ _ Hs).
Qed.

(** A loop whose body never breaks is the plain loop. *)
Lemma for_until_no_error (f : B → A → go S (B * option error)) (g : B → A → go S B) l b s :
  (∀ b a s, a ∈ l → f b a s = go_bind (g b a) (λ b', go_ret (b', None)) s) →
  for_until l f b s = for_acc l g b s.
Proof.
  unfold for_until. revert b s. induction l as [|a l IH]; intros b s Hf; [done|].
  simpl. rewrite go_bind_assoc. unfold go_bind at 1.
  rewrite Hf by set_solver. unfold go_bind.
  destruct (g b a s) as [[b'|p|] s']; simpl; [|done..].
  apply IH. set_solver.
Qed.

(** A loop whose body leaves the state alone. *)
Lemma for_acc_still l (f : B → A → go S B) b s :
  (∀ b a, a ∈ l → ∃ b', f b a s = (Ret b', s)) → ∃ b', for_acc l f b s = (Ret b', s).
Proof.
  intros Hf. destruct (for_acc_inv (λ _ s', s' = s) f l b s) as (b' & s' & Hr & ->);
    [|done|by exists b'].
  intros b1 a s1 Ha ->. destruct (Hf b1 a Ha) as [b' Hb]. by exists b', s.
Qed.

(** A loop that returns ran its body on every element. *)
Lemma for_acc_ran (f : B → A → go S B) l b s r s' :
  for_acc l f b s = (Ret r, s') →
  ∀ a, a ∈ l → ∃ b1 s1 b2 s2, f b1 a s1 = (Ret b2, s2).
Proof.
  revert b s. induction l as [|x l IH]; intros b s Hr a Ha; [set_solver|].
  simpl in Hr. apply go_bind_inv in Hr as (b1 & s1 & H1 & Hr).
  apply elem_of_cons in Ha as [->|Ha]; [by eauto|by eapply IH].
Qed.

Lemma for_acc_app (f : B → A → go S B) l1 l2 b s :
  for_acc (l1 ++ l2) f b s = go_bind (for_acc l1 f b) (λ b', for_acc l2 f b') s.
Proof.
  revert b s. induction l1 as [|a l1 IH]; intros b s; [done|].
  simpl. rewrite go_bind_assoc. unfold go_bind at 1 2.
  destruct (f b a s) as [[b'|p|] s']; [|done..]. apply IH.
Qed.
End loops.

(** Deciding the outcome of closed computations. *)
Ltac go_run := unfold go_bind, go_ret, go_get, go_put, go_modify, go_gets, go_panic,
  go_hang, go_lift, go_call, load, store; simpl.

(** Case analysis on every [match] of the goal or of a hypothesis. *)
Ltac go_cases := repeat (case_match; simplify_eq/=; try done).

(** ** Runs of labelled steps *)
Section runs.
Context {W A : Type} (step : W → A → W → Prop) (w0 : W).

Inductive run_of : list A → W → Prop :=
  | run_start : run_of [] w0
  | run_step l w a w' : run_of l w → step w a w' → run_of (l ++ [a]) w'.

(** The step that showed a label, and the run before it. *)
Lemma run_inv l1 a l2 w :
  run_of (l1 ++ a :: l2) w → ∃ w1 w2, run_of l1 w1 ∧ step w1 a w2.
Proof.
  revert w. induction l2 as [|b l2 IH] using rev_ind; intros w Hr.
  - inversion Hr as [Hnil|l' w' a' w2 Hr' Hs Heq]; subst; [by destruct l1|].
    apply app_inj_tail in Heq as [-> ->]. eauto.
  - inversion Hr as [Hnil|l' w' a' w2 Hr' Hs Heq]; subst; [by destruct l1|].
    change (l1 ++ a :: l2 ++ [b]) with (l1 ++ (a :: l2) ++ [b]) in Heq.
    rewrite app_assoc in Heq. apply app_inj_tail in Heq as [-> ->]. eauto.
Qed.
End runs.

Create HintDb go_db.
#[export] Hint Resolve total_ret total_call total_bind : go_db.

Create HintDb frame_db.
#[export] Hint Resolve preserves_ret preserves_panic preserves_hang preserves_lift
  preserves_gets preserves_bind preserves_acc preserves_break preserves_until : frame_db.

Create HintDb stable_db.
#[export] Hint Resolve stable_ret stable_panic stable_hang stable_lift stable_gets : stable_db.

(** The stability of a condition, by the structure of the computation. *)
Ltac stab := repeat first
  [ match goal with |- ∀ _, _ => intro end
  | solve [auto with stable_db]
  | match goal with
    | |- stable _ (go_bind _ _) => apply stable_bind
    | |- stable _ (go_defer _ _) => apply stable_defer
    | |- stable _ (for_acc _ _ _) => apply stable_acc
    | |- stable _ (for_until _ _ _) => apply stable_until
    | |- stable _ (if ?b then _ else _) => destruct b
    | |- stable _ (match ?x with _ => _ end) => destruct x
    end ].

(** A frame condition, by the structure of the computation. *)
Ltac frame := repeat first
  [ match goal with |- ∀ _, _ => intro end
  | solve [auto with frame_db]
  | match goal with
    | |- preserves _ (go_bind _ _) => apply preserves_bind
    | |- preserves _ (go_defer _ _) => apply preserves_defer
    | |- preserves _ (for_acc _ _ _) => apply preserves_acc
    | |- preserves _ (for_until _ _ _) => apply preserves_until
    | |- preserves _ (if ?b then _ else _) => destruct b
    | |- preserves _ (match ?x with _ => _ end) => destruct x
    end ].

