(* ===== verification/HashSet.v ===== *)
(** * HashSet: the gods hash set

    Models vendor/github.com/emirpasic/gods/sets/hashset/hashset.go, the set
    type of every component.  A [*hashset.Set] may be nil ([None]); its
    elements are [interface{}] values.  A Go map key of a slice type panics
    when it is hashed, which the code reaches by passing a [[]string] as one
    variadic element, so the values keep that case. *)
From S2P Require Import Prelude.

(** ** Dynamic values *)

(** The comparable values that the program stores in sets: strings, integers
    (the index of a [range] over a slice) and [infra.AddressPair] structs. *)
Inductive key :=
  | KString (s : string)
  | KInt (z : Z)
  | KPair (ip mac : string).

(** An [interface{}] value: a comparable one or a [[]string]. *)
Inductive value :=
  | VKey (k : key)
  | VStrings (l : list string).

#[export] Instance key_eq_dec : EqDecision key.
Proof. solve_decision. Defined.

#[export] Instance key_countable : Countable key.
Proof.
  refine (inj_countable'
    (λ k, match k with
          | KString s => inl s
          | KInt z => inr (inl z)
          | KPair i m => inr (inr (i, m))
          end)
    (λ x, match x with
          | inl s => KString s
          | inr (inl z) => KInt z
          | inr (inr (i, m)) => KPair i m
          end) _).
  by intros [].
Defined.

(** Hashing a value for a map access. *)
Definition hash_key (v : value) : outcome key :=
  match v with
  | VKey k => Ret k
  | VStrings _ => Panic UnhashableKey
  end.

(** [v.(string)] and [v.(infra.AddressPair)]. *)
Definition assert_string (k : key) : outcome string :=
  match k with KString s => Ret s | _ => Panic BadTypeAssertion end.
Definition assert_pair (k : key) : outcome (string * string) :=
  match k with KPair i m => Ret (i, m) | _ => Panic BadTypeAssertion end.

(** [for _, x := range l] with an outcome and no other state. *)
Fixpoint out_fold {A B} (l : list A) (f : B → A → outcome B) (b : B) : outcome B :=
  match l with
  | [] => Ret b
  | a :: l => out_bind (f b a) (out_fold l f)
  end.

Lemma out_fold_cons {A B} a l (f : B → A → outcome B) b :
  out_fold (a :: l) f b = out_bind (f b a) (out_fold l f).
Proof. done. Qed.

(** Type assertions on a whole list, as in [ips[i] = ip.(string)]. *)
Fixpoint assert_strings (l : list key) : outcome (list string) :=
  match l with
  | [] => Ret []
  | k :: l =>
      out_bind (assert_string k) (λ s,
      out_bind (assert_strings l) (λ r, Ret (s :: r)))
  end.

(** ** The set *)
Definition hset : Type := option (gset key).

Module HashSet.
Section ops.
Context `{!RangeOrder}.

(** [set.items] on a nil pointer. *)
Definition items (set : hset) : outcome (gset key) :=
  match set with Some i => Ret i | None => Panic NilDeref end.

Definition Add (set : hset) (vs : list value) : outcome hset :=
  out_fold vs (λ set v,
    out_bind (items set) (λ i,
    out_bind (hash_key v) (λ k, Ret (Some ({[k]} ∪ i))))) set.

Definition New (values : list value) : outcome hset :=
  match values with
  | [] => Ret (Some ∅)
  | _ => Add (Some ∅) values
  end.

Definition Remove (set : hset) (vs : list value) : outcome hset :=
  out_fold vs (λ set v,
    out_bind (items set) (λ i,
    out_bind (hash_key v) (λ k, Ret (Some (i ∖ {[k]}))))) set.

Fixpoint Contains (set : hset) (vs : list value) : outcome bool :=
  match vs with
  | [] => Ret true
  | v :: vs =>
      out_bind (items set) (λ i,
      out_bind (hash_key v) (λ k,
      if decide (k ∈ i) then Contains set vs else Ret false))
  end.

Definition Size (set : hset) : outcome Z :=
  out_bind (items set) (λ i, Ret (Z.of_nat (size i))).

Definition Empty (set : hset) : outcome bool :=
  out_bind (Size set) (λ n, Ret (bool_decide (n = 0%Z))).

Definition Clear (set : hset) : outcome hset :=
  out_bind (items set) (λ _, Ret (Some ∅)).

Definition Values (set : hset) : outcome (list key) :=
  out_bind (items set) (λ i, Ret (range_order (elements i))).

(** The loops shared by the three binary operations: the elements of the
    first set that pass a test on the second are added to the result. *)
Definition add_if (another : hset) (want : bool) (r : hset) (k : key) : outcome hset :=
  out_bind (items another) (λ j,
  if decide (bool_decide (k ∈ j) = want) then Add r [VKey k] else Ret r).

Definition Intersection (set another : hset) : outcome hset :=
  out_bind (Size set) (λ n,
  out_bind (Size another) (λ m,
  if decide (n ≤ m)%Z then
    out_bind (Values set) (λ l, out_fold l (add_if another true) (Some ∅))
  else
    out_bind (Values another) (λ l, out_fold l (add_if set true) (Some ∅)))).

Definition Union (set another : hset) : outcome hset :=
  out_bind (Values set) (λ l,
  out_bind (out_fold l (λ r k, Add r [VKey k]) (Some ∅)) (λ r,
  out_bind (Values another) (λ l',
  out_fold l' (λ r k, Add r [VKey k]) r))).

Definition Difference (set another : hset) : outcome hset :=
  out_bind (Values set) (λ l, out_fold l (add_if another false) (Some ∅)).

(** ** What the operations compute *)

Lemma Add_keys (ks : list key) (i : gset key) :
  Add (Some i) (VKey <$> ks) = Ret (Some (list_to_set ks ∪ i)).
Proof.
  unfold Add. revert i. induction ks as [|k ks IH]; intros i; simpl.
  - by rewrite (left_id_L ∅ (∪)).
  - rewrite IH. do 2 f_equal. set_solver.
Qed.

Lemma Add_key (k : key) (i : gset key) :
  Add (Some i) [VKey k] = Ret (Some ({[k]} ∪ i)).
Proof. done. Qed.

Lemma New_keys (ks : list key) : New (VKey <$> ks) = Ret (Some (list_to_set ks)).
Proof.
  destruct ks as [|k ks]; [done|].
  change (New (VKey <$> k :: ks)) with (Add (Some ∅) (VKey <$> k :: ks)).
  by rewrite Add_keys, (right_id_L ∅ (∪)).
Qed.

(** Copying a set through its values: [hashset.New(s.Values()...)]. *)
Lemma New_Values (i : gset key) :
  out_bind (Values (Some i)) (λ ks, New (VKey <$> ks)) = Ret (Some i).
Proof.
  simpl. rewrite New_keys. do 2 f_equal. apply set_eq. intros x.
  by rewrite elem_of_list_to_set, range_order_perm, elem_of_elements.
Qed.

Lemma Contains_key (k : key) (i : gset key) :
  Contains (Some i) [VKey k] = Ret (bool_decide (k ∈ i)).
Proof. simpl. case_decide; [by rewrite bool_decide_true|by rewrite bool_decide_false]. Qed.

Lemma Size_Some (i : gset key) : Size (Some i) = Ret (Z.of_nat (size i)).
Proof. done. Qed.

Lemma add_if_fold (j r : gset key) want l :
  out_fold l (add_if (Some j) want) (Some r) =
  Ret (Some (list_to_set (filter (λ k, bool_decide (k ∈ j) = want) l) ∪ r)).
Proof.
  revert r. induction l as [|k l IH]; intros r; simpl.
  - by rewrite (left_id_L ∅ (∪)).
  - rewrite filter_cons. unfold add_if at 1; simpl.
    case_decide; simpl; rewrite IH; do 2 f_equal; set_solver.
Qed.

Lemma Difference_spec (i j : gset key) :
  Difference (Some i) (Some j) = Ret (Some (i ∖ j)).
Proof.
  unfold Difference; simpl. rewrite add_if_fold. do 2 f_equal.
  apply set_eq. intros x.
  rewrite elem_of_union, elem_of_list_to_set, list_elem_of_filter, range_order_perm,
    elem_of_elements, elem_of_difference, bool_decide_eq_false. set_solver.
Qed.

Lemma Intersection_spec (i j : gset key) :
  Intersection (Some i) (Some j) = Ret (Some (i ∩ j)).
Proof.
  unfold Intersection; simpl.
  case_decide; simpl; rewrite add_if_fold; do 2 f_equal; apply set_eq; intros x;
    rewrite elem_of_union, elem_of_list_to_set, list_elem_of_filter, range_order_perm,
      elem_of_elements, elem_of_intersection, bool_decide_eq_true; set_solver.
Qed.

Lemma Union_spec (i j : gset key) : Union (Some i) (Some j) = Ret (Some (i ∪ j)).
Proof.
  assert (Hf : ∀ l r, out_fold l (λ r k, Add r [VKey k]) (Some r) =
                      Ret (Some (list_to_set l ∪ r))).
  { induction l as [|k l IH]; intros r; simpl; [by rewrite (left_id_L ∅ (∪))|].
    rewrite IH. do 2 f_equal. set_solver. }
  unfold Union; simpl. rewrite Hf; simpl. rewrite Hf. do 2 f_equal.
  apply set_eq. intros x.
  rewrite !elem_of_union, !elem_of_list_to_set, !range_order_perm, !elem_of_elements.
  set_solver.
Qed.

(** A slice passed as one element makes [New] and [Add] panic. *)
Lemma New_slice (l : list string) : New [VStrings l] = Panic UnhashableKey.
Proof. done. Qed.

End ops.
End HashSet.

(** ** Key sets of strings *)
Definition keys (X : gset string) : gset key := set_map KString X.

Section keys.
Context `{!RangeOrder}.

Lemma elements_keys X : elements (keys X) ≡ₚ KString <$> elements X.
Proof.
  apply NoDup_Permutation; [apply NoDup_elements| |].
  - apply NoDup_fmap; [by intros ?? [=]|apply NoDup_elements].
  - intros k. unfold keys. rewrite elem_of_elements, elem_of_map, list_elem_of_fmap.
    set_solver.
Qed.

(** The values of a set of strings are those strings, in some order. *)
Lemma Values_keys X :
  ∃ l, HashSet.Values (Some (keys X)) = Ret (KString <$> l) ∧ l ≡ₚ elements X.
Proof.
  assert (Hp : range_order (elements (keys X)) ≡ₚ KString <$> elements X)
    by (by rewrite range_order_perm, elements_keys).
  apply Permutation_map_inv in Hp as (l & Hl & Hp).
  exists l. unfold HashSet.Values, HashSet.items, out_bind. rewrite Hl. split; [done|]. by symmetry.
Qed.

Lemma assert_strings_keys l : assert_strings (KString <$> l) = Ret l.
Proof. induction l as [|x l IH]; csimpl; [done|]. by rewrite IH. Qed.

Lemma Contains_keys X x :
  HashSet.Contains (Some (keys X)) [VKey (KString x)] = Ret (bool_decide (x ∈ X)).
Proof.
  rewrite HashSet.Contains_key. f_equal. apply bool_decide_ext. unfold keys. set_solver.
Qed.

Lemma keys_inj X Y : keys X = keys Y → X = Y.
Proof.
  intros Hk. apply set_eq. intros x. unfold keys in Hk.
  assert (Hx : KString x ∈ set_map (D:=gset key) KString X ↔ KString x ∈ set_map (D:=gset key) KString Y)
    by (by rewrite Hk).
  revert Hx. rewrite !elem_of_map. naive_solver.
Qed.

Lemma size_keys X : size (keys X) = size X.
Proof.
  assert (Hl := elements_keys X). apply Permutation_length in Hl.
  rewrite length_fmap in Hl. done.
Qed.

Lemma keys_union X Y : keys (X ∪ Y) = keys X ∪ keys Y.
Proof. unfold keys. set_solver. Qed.

Lemma keys_difference X Y : keys (X ∖ Y) = keys X ∖ keys Y.
Proof.
  unfold keys. apply set_eq. intros k. rewrite elem_of_difference, !elem_of_map.
  split; [|set_solver]. intros (x & -> & Hx). split; [set_solver|].
  intros (y & [= <-] & Hy). set_solver.
Qed.

Lemma keys_singleton x : keys {[x]} = {[KString x]}.
Proof. unfold keys. set_solver. Qed.

Lemma list_to_set_keys (l : list string) :
  list_to_set (KString <$> l) = keys (list_to_set l).
Proof. induction l as [|x l IH]; csimpl; [done|]. rewrite IH. unfold keys. set_solver. Qed.
End keys.

Create HintDb hset.
#[export] Hint Rewrite @HashSet.Add_key @HashSet.Contains_key @HashSet.Size_Some
  @HashSet.Difference_spec @HashSet.New_keys : hset.
