(* ===== verification/Event.v ===== *)
(** * Event: the helpers of pkg/util/event.go

    The loops over maps and sets; the constants of the file are in IPPool.v and
    SpiderPool.v. *)
From stdpp Require Import pretty.
From S2P Require Import Prelude.
From S2P Require Import HashSet.

Module Event.
Section helpers.
Context `{!RangeOrder}.

(** [for k := range m { delete(m, k) }]; a nil map has no keys. *)
Definition ClearMap (m : gset string) : gset string :=
  foldl (λ m k, m ∖ {[k]}) m (range_order (elements m)).

Definition SetAddList (s : hset) (l : list string) : outcome hset :=
  match s, l with
  | None, _ | _, [] => Ret s
  | Some _, _ => out_fold l (λ s v, HashSet.Add s [VKey (KString v)]) s
  end.

(** The keys are taken before the first call of [fn], each value just before
    its own call: [fn] may change the map. *)
Definition IterMap {S V} (m : S → option (gmap string V))
    (fn : option (string → option V → go S (option error))) : go S unit :=
  let* s := go_get in
  match m s, fn with
  | None, _ | _, None => go_ret tt
  | Some keys, Some fn =>
      for_until (range_order (map_to_list keys).*1) (λ _ k,
        let* s := go_get in
        let* err := fn k (m s ≫= lookup k) in
        go_ret (tt, err)) tt
  end.

(** [fmt.Sprintf] of [time.Now().Unix()], whatever [n] is. *)
Definition Rand (n : Z) (unix : Z) : string := pretty unix.

Lemma ClearMap_empty m : ClearMap m = ∅.
Proof.
  unfold ClearMap.
  assert (∀ l m', foldl (λ (m : gset string) k, m ∖ {[k]}) m' l = m' ∖ list_to_set l) as Hl.
  { induction l as [|k l IH]; intros m'; simpl; [set_solver|]. rewrite IH. set_solver. }
  rewrite Hl. apply set_eq. intros k.
  rewrite elem_of_difference, elem_of_list_to_set, range_order_perm, elem_of_elements. set_solver.
Qed.

Lemma SetAddList_keys (i : gset key) l :
  SetAddList (Some i) l = Ret (Some (list_to_set (KString <$> l) ∪ i)).
Proof.
  unfold SetAddList. destruct l as [|x l]; [simpl; do 2 f_equal; set_solver|].
  revert i. generalize (x :: l). clear. induction l as [|x l IH]; intros i; csimpl.
  - do 2 f_equal. set_solver.
  - rewrite IH. do 2 f_equal. set_solver.
Qed.

Lemma SetAddList_nil l : SetAddList None l = Ret None.
Proof. done. Qed.

(** A function that never fails and leaves the map alone sees every key once,
    with its value. *)
Lemma IterMap_all {V} (m : gmap string V) :
  ∃ ks, ks ≡ₚ (map_to_list m).*1 ∧ ∀ log,
    IterMap (λ s : gmap string V * list (string * option V), Some s.1)
      (Some (λ k v, go_modify (λ s, (s.1, s.2 ++ [(k, v)])) ;;; go_ret None)) (m, log) =
    (Ret tt, (m, log ++ ((λ k, (k, m !! k)) <$> ks))).
Proof.
  exists (range_order (map_to_list m).*1). split; [apply range_order_perm|].
  intros log. unfold IterMap. rewrite (go_bind_run go_get _ _ _ _ eq_refl). simpl.
  generalize (range_order (map_to_list m).*1) as ks. intros ks. revert log.
  induction ks as [|k ks IH]; intros log; csimpl; [by rewrite app_nil_r|].
  rewrite (cons_middle (k, m !! k)), (assoc_L (++)). by rewrite <- IH.
Qed.
End helpers.
End Event.
