(* ===== verification/Backoff.v ===== *)
(** * Backoff: bounded retries

    Models pkg/util/backoff.go ([Backoff]) and the parts of
    vendor/github.com/cenkalti/backoff/v4 that it uses: [doRetryNotify]
    (retry.go), [WithMaxRetries] (tries.go) and [ConstantBackOff]
    (backoff.go).  A policy and the timer are interfaces; here the timer just
    fires, TimeBackoff.v has the clock.  The context of these policies is
    [context.Background()], never done. *)
From S2P Require Import Prelude.
Open Scope Z_scope.

Module Backoff.

(** [const Stop time.Duration = -1] *)
Definition Stop : Z := -1.

(** [backOffTries] over a [ConstantBackOff] of the given interval (ns). *)
Record backOffTries := { Interval : Z; maxTries : Z; numTries : Z }.

Definition WithMaxRetries (interval max : Z) : backOffTries :=
  {| Interval := interval; maxTries := max; numTries := 0 |}.

Definition Reset (b : backOffTries) : backOffTries :=
  {| Interval := Interval b; maxTries := maxTries b; numTries := 0 |}.

Definition NextBackOff (b : backOffTries) : Z * backOffTries :=
  if decide (maxTries b = 0) then (Stop, b)
  else if decide (maxTries b ≤ numTries b) then (Stop, b)
  else (Interval b,
        {| Interval := Interval b; maxTries := maxTries b; numTries := numTries b + 1 |}).

(** [errors.As(err, &permanent)]: the first [*PermanentError] of the tree. *)
Fixpoint as_permanent (e : error) : option error :=
  match e with
  | EPermanent e => Some e
  | EJoin l r => match as_permanent l with Some e => Some e | None => as_permanent r end
  | _ => None
  end.

(** The interface of a policy, and the timer between two attempts. *)
Class BackOff (S B : Type) := {
  next_backoff : B → go S (Z * B);
  reset : B → go S B
}.
Class Timer (S : Type) := { wait : Z → go S unit }.

Section loop.
Context {S B : Type} `{!BackOff S B, !Timer S}.
Implicit Types (op : go S (option error)).

(** The loop of [doRetryNotify]; [fuel] bounds its iterations and
    [Hang] stands for running out of it. *)
Fixpoint doRetry (fuel : nat) op (b : B) : go S (option error) :=
  match fuel with
  | O => go_hang
  | Datatypes.S fuel =>
      let* err := op in
      match err with
      | None => go_ret None
      | Some e =>
          match as_permanent e with
          | Some p => go_ret (Some p)
          | None =>
              let* '(next, b) := next_backoff b in
              if decide (next = Stop) then go_ret (Some e)
              else wait next ;;; doRetry fuel op b
          end
      end
  end.

Definition Retry (fuel : nat) op (b : B) : go S (option error) :=
  let* b := reset b in doRetry fuel op b.
End loop.

#[export] Instance tries_backoff {S} : BackOff S backOffTries :=
  {| next_backoff b := go_ret (NextBackOff b); reset b := go_ret (Reset b) |}.

(** The timer of [Backoff]: it fires. *)
Definition untimed {S} : Timer S := {| wait _ := go_ret tt |}.

Section retry.
Context {S : Type}.
Implicit Types (op : go S (option error)).

(** util.Backoff: a constant interval of 10 microseconds, 3 retries. *)
Definition Backoff op : go S (option error) :=
  Retry (Timer0 := untimed) 4 op (WithMaxRetries 10000 3).

(** ** The reference: up to [n] retries after the first attempt *)
Fixpoint attempts (n : nat) op : go S (option error) :=
  let* err := op in
  match err with
  | None => go_ret None
  | Some e =>
      match as_permanent e with
      | Some p => go_ret (Some p)
      | None => match n with O => go_ret (Some e) | Datatypes.S n => attempts n op end
      end
  end.

(** With a real interval, any fuel above the tries that are left gives the
    reference. *)
Lemma doRetry_attempts fuel op b n s :
  0 < maxTries b → Interval b ≠ Stop → maxTries b - numTries b = Z.of_nat n →
  (n < fuel)%nat →
  doRetry (Timer0 := untimed) fuel op b s = attempts n op s.
Proof.
  intros Hmax Hint. revert b n s Hmax Hint.
  induction fuel as [|fuel IH]; intros b n s Hmax Hint Hn Hf; [lia|].
  destruct n as [|n]; simpl; apply go_bind_ext; try done; intros [e|] s1 _; try done;
    destruct (as_permanent e); try done; unfold go_bind at 1; simpl; unfold NextBackOff.
  - rewrite decide_False by lia. rewrite decide_True by lia. by rewrite decide_True.
  - rewrite decide_False by lia. rewrite decide_False by lia. rewrite decide_False by done.
    apply IH; simpl; [lia|done|lia|lia].
Qed.

Lemma Backoff_attempts op s : Backoff op s = attempts 3 op s.
Proof. apply doRetry_attempts; simpl; lia || done. Qed.

Lemma Backoff_ok op s s' : op s = (Ret None, s') → Backoff op s = (Ret None, s').
Proof. intros H. rewrite Backoff_attempts. simpl. by rewrite (go_bind_run _ _ _ _ _ H). Qed.

Lemma attempts_total n op : total op → total (attempts n op).
Proof.
  intros Hop. induction n as [|n IH]; (apply total_bind; [done|]; intros [e|];
    [destruct (as_permanent e)|]; auto with go_db).
Qed.

Lemma Backoff_total op : total op → total (Backoff op).
Proof. intros Hop s. rewrite Backoff_attempts. by apply attempts_total. Qed.

(** Whatever one attempt preserves, the retries preserve. *)
Lemma attempts_inv (I : S → Prop) n op s r s' :
  (∀ s r s', I s → op s = (Ret r, s') → I s') →
  I s → attempts n op s = (Ret r, s') → I s'.
Proof.
  intros Hop. revert s r s'. induction n as [|n IH]; intros s r s' HI H; simpl in H;
    apply go_bind_inv in H as (err & s1 & H1 & H2);
    pose proof (Hop _ _ _ HI H1) as HI1; (destruct err as [e|]; [|by simplify_eq/=]);
    destruct (as_permanent e); simplify_eq/=; eauto.
Qed.

Lemma Backoff_inv (I : S → Prop) op s r s' :
  (∀ s r s', I s → op s = (Ret r, s') → I s') →
  I s → Backoff op s = (Ret r, s') → I s'.
Proof. rewrite Backoff_attempts. apply attempts_inv. Qed.

Lemma attempts_preserves {X} (p : S → X) n op : preserves p op → preserves p (attempts n op).
Proof.
  intros Hop. induction n as [|n IH]; simpl; (apply preserves_bind; [done|]; intros [e|];
    [destruct (as_permanent e)|]; auto with frame_db).
Qed.

Lemma Backoff_preserves {X} (p : S → X) op : preserves p op → preserves p (Backoff op).
Proof. intros Hop s. rewrite Backoff_attempts. by apply attempts_preserves. Qed.

(** A retried operation returns, keeps what every attempt keeps, and on
    success has what the successful attempt establishes. *)
Lemma attempts_post (I Q : S → Prop) n op s :
  total op →
  (∀ s r s', I s → op s = (Ret r, s') → I s' ∧ (r = None → Q s')) →
  I s → ∃ r s', attempts n op s = (Ret r, s') ∧ I s' ∧ (r = None → Q s').
Proof.
  intros Hop Hstep. revert s. induction n as [|n IH]; intros s HI;
    destruct (Hop s) as (r & s1 & Hr); destruct (Hstep _ _ _ HI Hr) as [HI1 HQ1]; simpl;
    rewrite (go_bind_run _ _ _ _ _ Hr); (destruct r as [e|]; [|by eauto]);
    (destruct (as_permanent e); [naive_solver|]); [naive_solver|by apply IH].
Qed.

Lemma Backoff_post (I Q : S → Prop) op s :
  total op →
  (∀ s r s', I s → op s = (Ret r, s') → I s' ∧ (r = None → Q s')) →
  I s → ∃ r s', Backoff op s = (Ret r, s') ∧ I s' ∧ (r = None → Q s').
Proof. rewrite Backoff_attempts. apply attempts_post. Qed.

End retry.

(** An operation that counts its runs. *)
Definition counted {S} (op : go S (option error)) : go (S * nat) (option error) :=
  λ '(s, n), let '(o, s') := op s in (o, (s', Datatypes.S n)).

Lemma counted_run {S} (op : go S (option error)) s n r s' n' :
  counted op (s, n) = (Ret r, (s', n')) ↔ op s = (Ret r, s') ∧ n' = Datatypes.S n.
Proof. unfold counted. destruct (op s) as [o s1]. naive_solver. Qed.

Lemma attempts_counted {S} (op : go S (option error)) m s n :
  total op →
  ∃ r s' k, attempts m (counted op) (s, n) = (Ret r, (s', (n + k)%nat)) ∧
    (1 ≤ k ≤ m + 1)%nat ∧ (r = None ∨ k = (m + 1)%nat ∨
       ∃ s1 e, op s1 = (Ret (Some e), s') ∧ as_permanent e = r).
Proof.
  intros Hop. revert s n. induction m as [|m IH]; intros s n;
    destruct (Hop s) as (e & s1 & He); simpl;
    rewrite (go_bind_run (counted op) _ _ e (s1, Datatypes.S n)) by (by apply counted_run).
  - destruct e as [e|]; [destruct (as_permanent e) as [p|] eqn:Hp|].
    + exists (Some p), s1, 1%nat. rewrite Nat.add_1_r. split; [done|]. split; [lia|]. eauto 10.
    + exists (Some e), s1, 1%nat. rewrite Nat.add_1_r. split; [done|]. split; [lia|]. eauto.
    + exists None, s1, 1%nat. rewrite Nat.add_1_r. split; [done|]. split; [lia|]. eauto.
  - destruct e as [e|]; [destruct (as_permanent e) as [p|] eqn:Hp|].
    + exists (Some p), s1, 1%nat. rewrite Nat.add_1_r. split; [done|]. split; [lia|]. eauto 10.
    + destruct (IH s1 (Datatypes.S n)) as (r & s2 & k & Hr & Hk & Hcase).
      exists r, s2, (Datatypes.S k). rewrite Hr. split; [by rewrite Nat.add_succ_r|].
      split; [lia|]. destruct Hcase as [->|[->|Hcase]]; eauto with lia.
    + exists None, s1, 1%nat. rewrite Nat.add_1_r. split; [done|]. split; [lia|]. eauto.
Qed.

(** For an operation that always returns, [Backoff] returns too, after at
    least one and at most four runs; it stops before the fourth only on
    success or on a permanent error, which it unwraps.  [attempts] is the
    same computation without the run counter. *)
Lemma Backoff_bounded {S} (op : go S (option error)) s :
  total op →
  ∃ r s' k, Backoff (counted op) (s, 0%nat) = (Ret r, (s', k)) ∧
    (1 ≤ k ≤ 4)%nat ∧ (r = None ∨ k = 4%nat ∨
       ∃ s1 e, op s1 = (Ret (Some e), s') ∧ as_permanent e = r).
Proof.
  intros Hop. destruct (attempts_counted op 3 s 0 Hop) as (r & s' & k & H & Hk & Hc).
  exists r, s', k. rewrite Backoff_attempts. eauto with lia.
Qed.

End Backoff.
