(* ===== verification/TimeBackoff.v ===== *)
(** * TimeBackoff: retries that end with time

    Models [TimeBackoff] of pkg/util/backoff.go and its policy, exponential.go
    of vendor/github.com/cenkalti/backoff/v4.  The clock, the timer and the
    random numbers are an interface.  Times are nanoseconds; the float64
    numbers that occur are multiples of 2^-53, kept as integers in that unit. *)
From S2P Require Import Prelude.
From S2P Require Import Backoff.
Open Scope Z_scope.

(** [time.Now()]; a sleep; the integer from which [rand.Float64] makes a number
    by a division by 2^53. *)
Class Clock (S : Type) := {
  now : S → Z;
  sleep : Z → S → S;
  random : S → Z * S
}.

(** An attempt or a pause may take longer than asked, up to a year more. *)
Definition year : Z := 31622400000000000.

Class ClockLaws (S : Type) `{!Clock S} := {
  sleep_time d s : 0 ≤ d → now s + d ≤ now (sleep d s) ≤ now s + d + year;
  random_range s : 0 ≤ fst (random s) < 2 ^ 53;
  random_time s : now (snd (random s)) = now s
}.

Module TimeBackoff.

(** ** Float64 numbers, in units of 2^-53 *)
Definition one : Z := 2 ^ 53.

(** The nearest number with 53 significant bits, the even one of two. *)
Definition round (x : Z) : Z :=
  let k := Z.log2 x - 52 in
  if decide (k ≤ 0) then x
  else
    let q := x / 2 ^ k in
    let r := x mod 2 ^ k in
    let half := 2 ^ (k - 1) in
    if decide (r < half ∨ (r = half ∧ Z.even q)) then q * 2 ^ k else (q + 1) * 2 ^ k.

(** [currentInterval * 0.5] and the difference and the sum with it are exact;
    [random * (maxInterval - minInterval + 1)] and the last sum are rounded,
    and a Duration is the integral part. *)
Definition getRandomValueFromInterval (random currentInterval : Z) : Z :=
  let delta := currentInterval * 2 ^ 52 in
  let minInterval := currentInterval * one - delta in
  let maxInterval := currentInterval * one + delta in
  round (minInterval + round (random * (maxInterval - minInterval + one) / one)) / one.

(** ** The policy *)
Record ExponentialBackOff := {
  InitialInterval : Z;
  MaxElapsedTime : Z;
  currentInterval : Z;
  startTime : Z
}.

Definition Second : Z := 1000000000.
Definition DefaultInitialInterval : Z := 500000000.
Definition DefaultMaxInterval : Z := 60 * Second.
Definition DefaultMaxElapsedTime : Z := 15 * 60 * Second.

(** [Sub] of two times saturates. *)
Definition Sub (t u : Z) : Z := Z.max (- 2 ^ 63) (Z.min (2 ^ 63 - 1) (t - u)).

(** The multiplier is 1.5: [DefaultMaxInterval/Multiplier] is 4e10, and the
    product of an interval below it is exact. *)
Definition incrementCurrentInterval (b : ExponentialBackOff) : ExponentialBackOff :=
  {| InitialInterval := InitialInterval b; MaxElapsedTime := MaxElapsedTime b;
     currentInterval :=
       if decide (DefaultMaxInterval * 2 / 3 ≤ currentInterval b) then DefaultMaxInterval
       else currentInterval b * 3 / 2;
     startTime := startTime b |}.

Section policy.
Context {S : Type} `{!Clock S}.
Implicit Types (op : go S (option error)) (s : S) (b : ExponentialBackOff).

Definition Reset b : go S ExponentialBackOff :=
  let* t := go_gets now in
  go_ret {| InitialInterval := InitialInterval b; MaxElapsedTime := MaxElapsedTime b;
            currentInterval := InitialInterval b; startTime := t |}.

Definition NewExponentialBackOff : go S ExponentialBackOff :=
  Reset {| InitialInterval := DefaultInitialInterval; MaxElapsedTime := DefaultMaxElapsedTime;
           currentInterval := 0; startTime := 0 |}.

Definition GetElapsedTime b : go S Z := let* t := go_gets now in go_ret (Sub t (startTime b)).

Definition NextBackOff b : go S (Z * ExponentialBackOff) :=
  let* elapsed := GetElapsedTime b in
  let* n := go_call random in
  let next := getRandomValueFromInterval n (currentInterval b) in
  let b := incrementCurrentInterval b in
  if decide (MaxElapsedTime b ≠ 0 ∧ MaxElapsedTime b < wrap64 (elapsed + next))
  then go_ret (Backoff.Stop, b) else go_ret (next, b).

#[export] Instance exponential : Backoff.BackOff S ExponentialBackOff :=
  {| Backoff.next_backoff := NextBackOff; Backoff.reset := Reset |}.
#[export] Instance timer : Backoff.Timer S := {| Backoff.wait d := go_modify (sleep d) |}.

(** Intervals from one second; the attempts end 30 s after the first one began.
    Nine rounds of the loop are enough. *)
Definition TimeBackoff op : go S (option error) :=
  let* expbf := NewExponentialBackOff in
  Backoff.Retry 9 op {| InitialInterval := Second; MaxElapsedTime := 30 * Second;
                        currentInterval := currentInterval expbf; startTime := startTime expbf |}.
End policy.

(** ** The next interval *)

Lemma round_bounds x : 0 ≤ x → x - x mod 2 ^ (Z.max 0 (Z.log2 x - 52)) ≤ round x ≤ 2 * x.
Proof.
  intros Hx. unfold round. case_decide as Hk.
  - rewrite Z.max_l by done. change (2 ^ 0) with 1. rewrite Z.mod_1_r. lia.
  - rewrite Z.max_r by lia. set (k := Z.log2 x - 52) in *.
    assert (Hpos : 0 < 2 ^ k) by (apply Z.pow_pos_nonneg; lia).
    assert (Hxpos : 0 < x) by (destruct (decide (x = 0)) as [->|]; [done|lia]).
    assert (H2k : 2 ^ k ≤ x).
    { etransitivity; [|apply Z.log2_spec; lia]. apply Z.pow_le_mono_r; lia. }
    pose proof (Z.div_mod x (2 ^ k) ltac:(lia)) as Hd.
    pose proof (Z.mod_pos_bound x (2 ^ k) Hpos). case_decide; nia.
Qed.

(** Rounding does not pass an integer below with few significant bits. *)
Lemma round_above y x j : 0 ≤ y < 2 ^ 53 → 0 ≤ j → y * 2 ^ j ≤ x → y * 2 ^ j ≤ round x.
Proof.
  intros Hy Hj Hle. assert (Hx : 0 ≤ x) by (assert (0 ≤ 2 ^ j) by (apply Z.pow_nonneg; lia); nia).
  pose proof (round_bounds x Hx) as [Hlow _]. set (k := Z.max 0 (Z.log2 x - 52)) in *.
  assert (Hpos : 0 < 2 ^ k) by (apply Z.pow_pos_nonneg; lia).
  pose proof (Z.div_mod x (2 ^ k) ltac:(lia)) as Hd.
  etransitivity; [|exact Hlow]. destruct (decide (k ≤ j)) as [Hkj|Hkj].
  - assert (Hpow : 2 ^ j = 2 ^ (j - k) * 2 ^ k) by (rewrite <-Z.pow_add_r by lia; f_equal; lia).
    rewrite Hpow in *. apply Z.div_le_mono with (c := 2 ^ k) in Hle; [|done].
    rewrite Z.mul_assoc, Z.div_mul in Hle by lia. nia.
  - destruct (decide (x = 0)) as [->|Hne]; [rewrite Zmod_0_l; lia|].
    assert (k = Z.log2 x - 52) as Hk by lia.
    assert (y * 2 ^ j ≤ 2 ^ Z.log2 x) as H1.
    { replace (Z.log2 x) with (53 + (k - 1)) by lia. rewrite Z.pow_add_r by lia.
      assert (2 ^ j ≤ 2 ^ (k - 1)) by (apply Z.pow_le_mono_r; lia).
      assert (0 < 2 ^ j) by (apply Z.pow_pos_nonneg; lia). nia. }
    etransitivity; [exact H1|].
    assert (2 ^ Z.log2 x = 2 ^ 52 * 2 ^ k) as H2 by (rewrite <-Z.pow_add_r by lia; f_equal; lia).
    assert (2 ^ 52 ≤ x / 2 ^ k) as H3.
    { apply Z.div_le_lower_bound; [done|]. rewrite Z.mul_comm, <-H2. apply Z.log2_spec. lia. }
    rewrite H2. nia.
Qed.

Lemma next_interval n c :
  0 ≤ n < 2 ^ 53 → 0 ≤ c < 2 ^ 40 → c / 2 ≤ getRandomValueFromInterval n c < 2 ^ 44.
Proof.
  intros Hn Hc. unfold getRandomValueFromInterval, one.
  replace (c * 2 ^ 53 - c * 2 ^ 52) with (c * 2 ^ 52) by lia.
  set (p := n * _ / _). assert (Hp : 0 ≤ p ≤ (c + 1) * 2 ^ 53).
  { unfold p. split; [apply Z.div_pos; [|done]; nia|]. apply Z.div_le_upper_bound; [done|]. nia. }
  pose proof (round_bounds p ltac:(lia)) as [Hl1 Hu1].
  assert (Hr : 0 ≤ round p).
  { pose proof (Z.mod_le p (2 ^ Z.max 0 (Z.log2 p - 52)) ltac:(lia)
      ltac:(apply Z.pow_pos_nonneg; lia)). lia. }
  split.
  - apply Z.div_le_lower_bound; [done|]. etransitivity;
      [|apply (round_above c (c * 2 ^ 52 + round p) 52); lia].
    pose proof (Z.mul_div_le c 2 ltac:(lia)). lia.
  - apply Z.div_lt_upper_bound; [done|].
    pose proof (round_bounds (c * 2 ^ 52 + round p) ltac:(lia)) as [_ Hu2]. lia.
Qed.

(** ** The attempts *)

(** A clock beside a counter of the attempts. *)
#[global] Instance clock_counted {S} `{!Clock S} : Clock (S * nat) := {|
  now s := now s.1;
  sleep d s := (sleep d s.1, s.2);
  random s := let '(n, s1) := random s.1 in (n, (s1, s.2))
|}.

(** An operation that returns in time. *)
Definition in_time {S} `{!Clock S} (op : go S (option error)) : Prop :=
  ∀ s, ∃ r s', op s = (Ret r, s') ∧ now s ≤ now s' ≤ now s + year.

(** The intervals without their limit. *)
Definition grow (c : Z) : Z := c + c / 2.

Section attempts.
Context {S : Type} `{!Clock S, !ClockLaws S}.
Context (op : go S (option error)) (Hop : in_time op).
Implicit Types (s : S) (b : ExponentialBackOff) (n k : nat).

(** A policy in use, [n] rounds from its end: the time since its start is at
    least what its interval has grown by. *)
Record in_use b n s : Prop := {
  use_start : InitialInterval b = Second ∧ MaxElapsedTime b = 30 * Second;
  use_interval : Second ≤ currentInterval b ≤ 31 * Second;
  use_end : 31 * Second < Nat.iter n grow (currentInterval b);
  use_rounds : (n ≤ 9)%nat;
  use_low : currentInterval b - Second ≤ now s - startTime b;
  use_high : now s - startTime b ≤ (9 - Z.of_nat n) * (3 * year)
}.

(** The next interval: none, as the end would be passed, or one after which the
    policy is still in use. *)
Lemma next_in_use b n s s1 :
  in_use b (Datatypes.S n) s → now s ≤ now s1 ≤ now s + year →
  ∃ d b' s2, NextBackOff b s1 = (Ret (d, b'), s2) ∧ now s2 = now s1 ∧
    (d = Backoff.Stop ∨
     d ≠ Backoff.Stop ∧ 0 ≤ d ∧ now s1 - startTime b + d ≤ 30 * Second ∧
     startTime b' = startTime b ∧ in_use b' n (sleep d s2)).
Proof.
  intros [[Hi Hm] [Hc1 Hc2] He Hn Hl Hh] Ht. unfold NextBackOff, GetElapsedTime, go_call.
  destruct (random s1) as [u s2] eqn:Hu. pose proof (random_range s1) as Hr.
  pose proof (random_time s1) as Hs2. rewrite Hu in Hr, Hs2. simpl in Hr, Hs2.
  destruct (next_interval u (currentInterval b) Hr) as [Hd1 Hd2]; [unfold Second in *; lia|].
  set (d := getRandomValueFromInterval u (currentInterval b)) in *.
  assert (Hsub : Sub (now s1) (startTime b) = now s1 - startTime b).
  { unfold Sub, year, Second in *. lia. }
  assert (Hhalf : 0 ≤ currentInterval b / 2) by (apply Z.div_pos; unfold Second in *; lia).
  assert (Hinc : currentInterval b / 2 + currentInterval b = currentInterval b * 3 / 2).
  { replace (currentInterval b * 3) with (currentInterval b + currentInterval b * 2) by lia.
    by rewrite Z.div_add. }
  unfold go_bind, go_gets. cbn [go_ret]. rewrite Hu, Hsub. fold d.
  change (MaxElapsedTime (incrementCurrentInterval b)) with (MaxElapsedTime b). rewrite Hm.
  rewrite wrap64_id by (unfold int64_range, year, Second in *; lia).
  case_decide as Hstop; do 3 eexists; (split; [done|]); (split; [done|]); [by left|right].
  assert (Hd : d ≤ 30 * Second - (now s1 - startTime b)) by (unfold Second in *; lia).
  assert (Hd0 : d ≠ Backoff.Stop) by (unfold Backoff.Stop; lia).
  pose proof (sleep_time d s2 ltac:(lia)) as Hsl.
  assert (Hb : currentInterval (incrementCurrentInterval b) = grow (currentInterval b)).
  { simpl. rewrite decide_False; [unfold grow; lia|].
    unfold DefaultMaxInterval, Second in *. change (60 * 1000000000 * 2 / 3) with 40000000000. lia. }
  split_and!; [done|lia|lia|done|]. split.
  - done.
  - rewrite Hb. unfold grow. unfold Second in *. lia.
  - rewrite Hb. by rewrite <-Nat.iter_succ_r.
  - lia.
  - rewrite Hb. unfold grow. simpl startTime. unfold Second in *. lia.
  - simpl startTime. unfold Second, year in *. lia.
Qed.

(** How the attempts end: the last of them, its error, and the time it began. *)
Definition ends (late start : Z) (r : option error) s' : Prop :=
  ∃ s1 e s2, op s1 = (Ret e, s2) ∧ now s1 - start ≤ 30 * Second + late ∧
    ((r = None ∧ e = None) ∨
     (∃ e', e = Some e' ∧ (Backoff.as_permanent e' = r ∧ is_Some r ∨ r = Some e'))) ∧
    now s' = now s2.

Lemma doRetry_ends late n fuel b s k :
  (∀ d s, 0 ≤ d → now (sleep d s) ≤ now s + d + late) →
  in_use b n s → (n ≤ fuel)%nat → now s - startTime b ≤ 30 * Second + late →
  ∃ r s' k', Backoff.doRetry fuel (Backoff.counted op) b (s, k) = (Ret r, (s', (k + k')%nat)) ∧
    (1 ≤ k' ≤ n)%nat ∧ ends late (startTime b) r s'.
Proof.
  intros Hlate. revert fuel b s k. induction n as [|n IH]; intros fuel b s k Huse Hfuel Hbegin.
  { destruct Huse as [_ [_ Hc] He _ _ _]. simpl in He. lia. }
  destruct fuel as [|fuel]; [lia|]. destruct (Hop s) as (e & s1 & He & Ht). cbn [Backoff.doRetry].
  rewrite (go_bind_run (Backoff.counted op) _ _ e (s1, Datatypes.S k)) by (by apply Backoff.counted_run).
  destruct e as [e|]; [destruct (Backoff.as_permanent e) as [p|] eqn:Hp|].
  - exists (Some p), s1, 1%nat. rewrite Nat.add_1_r. split; [done|]. split; [lia|].
    exists s, (Some e), s1. naive_solver.
  - destruct (next_in_use b n s s1 Huse Ht) as (d & b' & s2 & Hnext & Hs2 & Hcase).
    assert (Hrun : @Backoff.next_backoff _ _ (exponential (S:=S * nat)) b (s1, Datatypes.S k) =
      (Ret (d, b'), (s2, Datatypes.S k))).
    { revert Hnext. cbn. unfold NextBackOff, GetElapsedTime, go_bind, go_gets, go_call. simpl.
      destruct (random s1) as [u s3]. simpl. by case_decide; intros [= <- <- <-]. }
    rewrite (go_bind_run _ _ _ _ _ Hrun). destruct Hcase as [->|(Hd & Hd0 & Hle & Hst & Huse')].
    + rewrite decide_True by done. exists (Some e), s2, 1%nat. rewrite Nat.add_1_r.
      split; [done|]. split; [lia|]. exists s, (Some e), s1. naive_solver.
    + rewrite decide_False by done. unfold go_bind at 1. cbn.
      destruct (IH fuel b' (sleep d s2) (Datatypes.S k) Huse') as (r & s' & k' & Hr & Hk' & Hend);
        [lia|rewrite Hst; specialize (Hlate d s2 Hd0); lia|].
      exists r, s', (Datatypes.S k'). rewrite Nat.add_succ_r. split; [exact Hr|]. split; [lia|].
      by rewrite <-Hst.
  - exists None, s1, 1%nat. rewrite Nat.add_1_r. split; [done|]. split; [lia|].
    exists s, None, s1. naive_solver.
Qed.

Lemma TimeBackoff_ends late s :
  0 ≤ late → (∀ d s, 0 ≤ d → now (sleep d s) ≤ now s + d + late) →
  ∃ r s' k, TimeBackoff (Backoff.counted op) (s, 0%nat) = (Ret r, (s', k)) ∧
    (1 ≤ k ≤ 9)%nat ∧ ends late (now s) r s'.
Proof.
  intros H0 Hlate.
  set (b := {| InitialInterval := Second; MaxElapsedTime := 30 * Second;
               currentInterval := Second; startTime := now s |}).
  assert (Huse : in_use b 9 s).
  { split; simpl; [done|by vm_compute|by vm_compute|lia|lia|lia]. }
  destruct (doRetry_ends late 9 9 b s 0 Hlate Huse) as (r & s' & k & Hr & Hk & He);
    [lia|simpl; unfold Second; lia|].
  exists r, s', k. split; [exact Hr|]. by split.
Qed.

(** C23. An operation that always returns, within a year, is retried finitely often.
    [Backoff] makes at most four attempts, and stops before the fourth only on
    success or on a permanent error, which it unwraps.  [TimeBackoff] makes at
    most nine, whatever the random numbers are; the last of them begins at most
    30 s after the call, but for the delay of one timer, and the error is its
    error, unwrapped when it is permanent. *)
Theorem retries_end late s :
  0 ≤ late → (∀ d s, 0 ≤ d → now (sleep d s) ≤ now s + d + late) →
  (∃ r s' k, Backoff.Backoff (Backoff.counted op) (s, 0%nat) = (Ret r, (s', k)) ∧
     (1 ≤ k ≤ 4)%nat ∧ (r = None ∨ k = 4%nat ∨
        ∃ s1 e, op s1 = (Ret (Some e), s') ∧ Backoff.as_permanent e = r)) ∧
  (∃ r s' k, TimeBackoff (Backoff.counted op) (s, 0%nat) = (Ret r, (s', k)) ∧
     (1 ≤ k ≤ 9)%nat ∧ ends late (now s) r s').
Proof.
  intros H0 Hlate. split; [|by apply TimeBackoff_ends].
  apply Backoff.Backoff_bounded. intros s1. destruct (Hop s1) as (r & s' & Hr & _). eauto.
Qed.
End attempts.
End TimeBackoff.
