(* ===== verification/LinkedList.v ===== *)
(** * LinkedList: the singly linked list of pkg/util/queue.go

    The list is modelled on a heap of elements and list headers reached
    through pointers, so that sharing, dangling tails and nil dereferences
    are what they are in the code.  The operations follow the methods of
    [List] line by line; LinkedListFacts.v shows that they implement
    sequences. *)
From S2P Require Import Prelude.
Open Scope Z_scope.

(** Addresses of elements and of list headers. *)
Notation loc := nat (only parsing).

Record element (T : Type) := { value : T; next : option loc }.
Arguments value {T} _.
Arguments next {T} _.

(** The fields of a [List]. *)
Record list_header := { first : option loc; last : option loc; size : Z }.

(** The part of the Go heap that holds lists of [T]. *)
Record memory (T : Type) := {
  cells : gmap loc (element T);
  headers : gmap loc list_header
}.
Arguments cells {T} _.
Arguments headers {T} _.

Definition empty_memory {T} : memory T := {| cells := ∅; headers := ∅ |}.

Definition set_cells {T} (es : gmap loc (element T)) (m : memory T) : memory T :=
  {| cells := es; headers := headers m |}.
Definition set_header {T} (l : loc) (h : list_header) (m : memory T) : memory T :=
  {| cells := cells m; headers := <[l := h]> (headers m) |}.

Module LinkedList.
Section list.
(** [zero] is the zero value of [T], [show] what ["%v"] prints. *)
Context {T : Type} (zero : T) (show : T → string).
Implicit Types (l : loc) (m : memory T).

(** ** Pointers *)

(** The header behind the receiver. *)
Definition header l : go (memory T) list_header :=
  λ m, match headers m !! l with
       | Some h => (Ret h, m)
       | None => (Panic NilDeref, m)
       end.

Definition set_first l (p : option loc) : go (memory T) unit :=
  let* h := header l in
  go_modify (set_header l {| first := p; last := last h; size := size h |}).
Definition set_last l (p : option loc) : go (memory T) unit :=
  let* h := header l in
  go_modify (set_header l {| first := first h; last := p; size := size h |}).
Definition set_size l (n : Z) : go (memory T) unit :=
  let* h := header l in
  go_modify (set_header l {| first := first h; last := last h; size := n |}).

(** [*p], [p.next = q] and [p.value = v]. *)
Definition deref (p : option loc) : go (memory T) (element T) :=
  λ m, match p ≫= λ a, cells m !! a with
       | Some c => (Ret c, m)
       | None => (Panic NilDeref, m)
       end.
Definition set_next (p q : option loc) : go (memory T) unit :=
  let* c := deref p in
  go_modify (λ m, set_cells
    (<[default 0%nat p := {| value := value c; next := q |}]> (cells m)) m).
Definition set_value (p : option loc) (v : T) : go (memory T) unit :=
  let* c := deref p in
  go_modify (λ m, set_cells
    (<[default 0%nat p := {| value := v; next := next c |}]> (cells m)) m).

(** [&element[T]{value: v, next: q}] *)
Definition new_element (v : T) (q : option loc) : go (memory T) loc :=
  λ m, let a := fresh (dom (cells m) : gset nat) in
       (Ret a, set_cells (<[a := {| value := v; next := q |}]> (cells m)) m).

(** [&List[T]{}] *)
Definition new_header : go (memory T) loc :=
  λ m, let l := fresh (dom (headers m) : gset nat) in
       (Ret l, set_header l {| first := None; last := None; size := 0 |} m).

(** ** The methods *)

Definition withinRange l (index : Z) : go (memory T) bool :=
  let* h := header l in go_ret (bool_decide (0 ≤ index ∧ index < size h)).

Definition add_one l (value : T) : go (memory T) unit :=
  let* newElement := new_element value None in
  let* h := header l in
  (if decide (size h = 0) then
     set_first l (Some newElement) ;;; set_last l (Some newElement)
   else
     set_next (last h) (Some newElement) ;;; set_last l (Some newElement)) ;;;
  let* h := header l in set_size l (wrap64 (size h + 1)).

Definition Add l (values : list T) : go (memory T) unit :=
  for_acc values (λ _ value, add_one l value) tt.

Definition Append l (values : list T) : go (memory T) unit := Add l values.

Definition New (values : list T) : go (memory T) loc :=
  let* l := new_header in
  (if decide (values ≠ []) then Add l values else go_ret tt) ;;; go_ret l.

Definition prepend_one l (value : T) : go (memory T) unit :=
  let* h := header l in
  let* newElement := new_element value (first h) in
  set_first l (Some newElement) ;;;
  (if decide (size h = 0) then set_last l (Some newElement) else go_ret tt) ;;;
  set_size l (wrap64 (size h + 1)).

(** The loop runs from the last value to the first. *)
Definition Prepend l (values : list T) : go (memory T) unit :=
  for_acc (reverse values) (λ _ value, prepend_one l value) tt.

(** [for e := 0; e != index; e, element = e+1, element.next], with the
    element before the current one.  [fuel] bounds the iterations; [Hang]
    stands for running out of it. *)
Fixpoint walk (fuel : nat) (e index : Z) (before element : option loc)
    : go (memory T) (option loc * option loc) :=
  if decide (e = index) then go_ret (before, element)
  else
    match fuel with
    | O => go_hang
    | S fuel => let* c := deref element in walk fuel (wrap64 (e + 1)) index element (next c)
    end.

(** The walk from the first element to the position [index ≥ 0]. *)
Definition walk_to l (index : Z) : go (memory T) (option loc * option loc) :=
  let* h := header l in walk (Z.to_nat index) 0 index None (first h).

Definition Get l (index : Z) : go (memory T) (T * bool) :=
  let* ok := withinRange l index in
  if negb ok then go_ret (zero, false)
  else
    let* '(_, element) := walk_to l index in
    let* c := deref element in go_ret (value c, true).

Definition Clear l : go (memory T) unit :=
  set_size l 0 ;;; set_first l None ;;; set_last l None.

Definition Remove l (index : Z) : go (memory T) unit :=
  let* ok := withinRange l index in
  if negb ok then go_ret tt
  else
    let* h := header l in
    if decide (size h = 1) then Clear l
    else
      let* '(beforeElement, element) := walk_to l index in
      let* h := header l in
      (if decide (element = first h) then
         let* c := deref element in set_first l (next c)
       else go_ret tt) ;;;
      let* h := header l in
      (if decide (element = last h) then set_last l beforeElement else go_ret tt) ;;;
      (if decide (beforeElement ≠ None) then
         let* c := deref element in set_next beforeElement (next c)
       else go_ret tt) ;;;
      let* h := header l in set_size l (wrap64 (size h - 1)).

Definition Pop l : go (memory T) (T * bool) :=
  let* h := header l in
  if decide (size h = 0) then go_ret (zero, false)
  else
    let* h := header l in
    let element := first h in
    Remove l 0 ;;;
    let* c := deref element in go_ret (value c, true).

(** [make([]T, list.size)] filled along the chain; [values[e]] is out of
    range once [e] reaches the size, which bounds the loop. *)
Fixpoint fill (fuel : nat) (e : nat) (element : option loc) (values : list T)
    : go (memory T) (list T) :=
  match element with
  | None => go_ret values
  | Some _ =>
      match fuel with
      | O => go_panic IndexOutOfRange
      | S fuel => let* c := deref element in fill fuel (S e) (next c) (<[e := value c]> values)
      end
  end.

Definition Values l : go (memory T) (list T) :=
  let* h := header l in
  fill (Z.to_nat (size h)) 0 (first h) (replicate (Z.to_nat (size h)) zero).

Definition Empty l : go (memory T) bool :=
  let* h := header l in go_ret (bool_decide (size h = 0)).

Definition Size l : go (memory T) Z := let* h := header l in go_ret (size h).

(** The search loop of Swap; [fuel] as in [walk]. *)
Fixpoint find_two (fuel : nat) (e i j : Z) (current element1 element2 : option loc)
    : go (memory T) (option loc * option loc) :=
  if decide (element1 ≠ None ∧ element2 ≠ None) then go_ret (element1, element2)
  else
    match fuel with
    | O => go_hang
    | S fuel =>
        let element1' := if decide (e = i) then current else element1 in
        let element2' := if decide (e = i) then element2
                         else if decide (e = j) then current else element2 in
        let* c := deref current in
        find_two fuel (wrap64 (e + 1)) i j (next c) element1' element2'
    end.

Definition Swap l (i j : Z) : go (memory T) unit :=
  let* oki := withinRange l i in
  let* okj := if oki : bool then withinRange l j else go_ret false in
  if okj && bool_decide (i ≠ j) then
    let* h := header l in
    let* '(element1, element2) := find_two (Z.to_nat (size h)) 0 i j (first h) None None in
    let* c1 := deref element1 in
    let* c2 := deref element2 in
    set_value element1 (value c2) ;;; set_value element2 (value c1)
  else go_ret tt.

(** The loop over the values of the first branch of Insert. *)
Definition insert_front l (i : nat) (before : option loc) (value : T)
    : go (memory T) (option loc) :=
  let* newElement := new_element value None in
  (if decide (i = 0%nat) then set_first l (Some newElement)
   else set_next before (Some newElement)) ;;;
  go_ret (Some newElement).

Definition insert_after (before : option loc) (value : T) : go (memory T) (option loc) :=
  let* newElement := new_element value None in
  set_next before (Some newElement) ;;;
  go_ret (Some newElement).

Definition Insert l (index : Z) (values : list T) : go (memory T) unit :=
  let* ok := withinRange l index in
  let* h := header l in
  if negb ok then
    if decide (index = size h) then Add l values else go_ret tt
  else
    set_size l (wrap64 (size h + Z.of_nat (length values))) ;;;
    let* '(beforeElement, foundElement) := walk_to l index in
    let* h := header l in
    if decide (foundElement = first h) then
      let oldNextElement := first h in
      let* beforeElement := for_acc (imap pair values)
        (λ before '(i, value), insert_front l i before value) beforeElement in
      set_next beforeElement oldNextElement
    else
      let* c := deref beforeElement in
      let oldNextElement := next c in
      let* beforeElement := for_acc values insert_after beforeElement in
      set_next beforeElement oldNextElement.

Definition Set_ l (index : Z) (value : T) : go (memory T) unit :=
  let* ok := withinRange l index in
  let* h := header l in
  if negb ok then
    if decide (index = size h) then Add l [value] else go_ret tt
  else
    let* '(_, foundElement) := walk_to l index in set_value foundElement value.

(** The loop of String over the chain; [fuel] as in [walk]. *)
Fixpoint strings (fuel : nat) (element : option loc) : go (memory T) (list string) :=
  match element with
  | None => go_ret []
  | Some _ =>
      match fuel with
      | O => go_hang
      | S fuel =>
          let* c := deref element in
          let* rest := strings fuel (next c) in go_ret (show (value c) :: rest)
      end
  end.

(** [strings.Join] *)
Fixpoint Join (sep : string) (elems : list string) : string :=
  match elems with
  | [] => ""
  | [s] => s
  | s :: elems => s +:+ sep +:+ Join sep elems
  end.

(** A chain that does not end in a cycle has at most as many elements as the
    heap. *)
Definition String_ l : go (memory T) string :=
  let* h := header l in
  λ m, (let* values := strings (base.size (cells m)) (first h) in
        go_ret ("SinglyLinkedList" +:+ String (Ascii.ascii_of_nat 10) "" +:+
                Join ", " values)) m.
End list.
End LinkedList.
