(* ===== verification/LinkedListFacts.v ===== *)
(** * LinkedListFacts: the linked list implements sequences

    A header with its chain of elements represents a sequence; every method
    of LinkedList.v acts on it as the function on sequences of its name, and
    leaves every other list of the heap alone; but Insert(0) without values
    panics on a list with elements. *)
From S2P Require Import Prelude.
From S2P Require Import LinkedList.
Open Scope Z_scope.

Module LinkedListFacts.
Import LinkedList.
Section list.
Context {T : Type}.
Implicit Types (l a b : loc) (m : memory T) (ls k : list loc) (vs w : list T).

(** ** Segments of a chain *)

Definition head_or ls (q : option loc) : option loc :=
  match ls with [] => q | a :: _ => Some a end.

(** The elements [ls] hold [vs] and lead to [q]. *)
Fixpoint seg (h : gmap loc (element T)) ls vs (q : option loc) : Prop :=
  match ls, vs with
  | [], [] => True
  | a :: ls, v :: vs => h !! a = Some {| value := v; next := head_or ls q |} ∧ seg h ls vs q
  | _, _ => False
  end.

Lemma head_or_app k1 k2 q : head_or (k1 ++ k2) q = head_or k1 (head_or k2 q).
Proof. by destruct k1. Qed.

Lemma seg_length h ls vs q : seg h ls vs q → length ls = length vs.
Proof.
  revert vs. induction ls as [|a ls IH]; intros [|v vs]; simpl; try done.
  intros [_ H]. f_equal. eauto.
Qed.

Lemma seg_app h k1 k2 w1 w2 q :
  length k1 = length w1 →
  seg h (k1 ++ k2) (w1 ++ w2) q ↔ seg h k1 w1 (head_or k2 q) ∧ seg h k2 w2 q.
Proof.
  revert w1. induction k1 as [|a k1 IH]; intros [|v w1] Hl; simplify_eq/=; [tauto|].
  rewrite IH, head_or_app by done. tauto.
Qed.

Lemma seg_ext h h' ls vs q :
  (∀ a, a ∈ ls → h' !! a = h !! a) → seg h ls vs q → seg h' ls vs q.
Proof.
  revert vs. induction ls as [|a ls IH]; intros [|v vs] Ha; simpl; try done.
  intros [H1 H2]. rewrite Ha by set_solver. split; [done|]. apply IH; set_solver.
Qed.

Lemma seg_insert h ls vs q a c : a ∉ ls → seg h ls vs q → seg (<[a := c]> h) ls vs q.
Proof.
  intros Ha. apply seg_ext. intros b Hb. rewrite lookup_insert_ne; [done|]. set_solver.
Qed.

Lemma seg_dom h ls vs q a : seg h ls vs q → a ∈ ls → is_Some (h !! a).
Proof.
  revert vs. induction ls as [|b ls IH]; intros [|v vs]; simpl; try done; [set_solver|].
  intros [H1 H2] [->|H]%elem_of_cons; [by eexists|eauto].
Qed.

(** The last element of a segment can be relinked. *)
Lemma seg_relink h ls a vs v q q' :
  a ∉ ls → length ls = length vs → seg h (ls ++ [a]) (vs ++ [v]) q →
  seg (<[a := {| value := v; next := q' |}]> h) (ls ++ [a]) (vs ++ [v]) q'.
Proof.
  intros Ha Hl. rewrite !seg_app by done. simpl. intros [H1 _].
  rewrite lookup_insert_eq. split; [|done]. by apply seg_insert.
Qed.

(** ** Representation *)

Definition rep m l ls vs : Prop :=
  headers m !! l = Some {| first := head_or ls None; last := list.last ls;
                           size := Z.of_nat (length vs) |} ∧
  NoDup ls ∧ seg (cells m) ls vs None ∧ int64_range (Z.of_nat (length vs)).

(** Only the elements of the list, new elements and its header changed. *)
Definition apart l m ls m' ls' : Prop :=
  (∀ a, a ∉ ls → is_Some (cells m !! a) → cells m' !! a = cells m !! a) ∧
  (∀ a, a ∈ ls' → a ∈ ls ∨ cells m !! a = None) ∧
  (∀ l2, l2 ≠ l → headers m' !! l2 = headers m !! l2).

Lemma apart_refl l m ls : apart l m ls m ls.
Proof. split_and!; auto. Qed.

Lemma apart_trans l m ls m1 ls1 m2 ls2 :
  apart l m ls m1 ls1 → apart l m1 ls1 m2 ls2 → apart l m ls m2 ls2.
Proof.
  intros (A1 & B1 & C1) (A2 & B2 & C2). split_and!.
  - intros a Ha Hs. rewrite <- A1 by done. apply A2; [|by rewrite A1].
    intros [?|He]%B1; [done|]. rewrite He in Hs. by destruct Hs.
  - intros a [?|He]%B2; [by apply B1|].
    destruct (decide (a ∈ ls)); [by left|]. right.
    destruct (cells m !! a) eqn:Hm; [|done]. rewrite A1 in He by (done || by eexists).
    congruence.
  - intros l2 Hl. by rewrite C2, C1.
Qed.

(** Another list of the heap, with elements of its own, is untouched. *)
Lemma apart_rep l m ls m' ls' l2 ls2 vs2 :
  apart l m ls m' ls' → l2 ≠ l → ls2 ## ls → rep m l2 ls2 vs2 →
  rep m' l2 ls2 vs2 ∧ ls2 ## ls'.
Proof.
  intros (A & B & C) Hl Hd (H1 & H2 & H3 & H4). split.
  - split; [by rewrite C|]. split_and!; [done| |done].
    eapply seg_ext; [|done]. intros a Ha. apply A; [set_solver|]. by eapply seg_dom.
  - intros a Ha [?|He]%B; [set_solver|]. eapply seg_dom in Ha; [|done].
    rewrite He in Ha. by destruct Ha.
Qed.

(** The computation returns [r] and turns [vs] into [vs']. *)
Definition implements {A} l (op : go (memory T) A) vs (r : A) vs' : Prop :=
  ∀ m ls, rep m l ls vs →
  ∃ m' ls', op m = (Ret r, m') ∧ rep m' l ls' vs' ∧ apart l m ls m' ls'.

Lemma implements_ret {A} l (r : A) vs : implements l (go_ret r) vs r vs.
Proof. intros m ls H. exists m, ls. split_and!; [done|done|apply apart_refl]. Qed.

Lemma implements_bind {A B} l (op : go (memory T) A) (f : A → go (memory T) B) vs r vs1 r2 vs2 :
  implements l op vs r vs1 → implements l (f r) vs1 r2 vs2 →
  implements l (go_bind op f) vs r2 vs2.
Proof.
  intros H1 H2 m ls Hm. destruct (H1 m ls Hm) as (m1 & ls1 & E1 & Hm1 & Ha1).
  destruct (H2 m1 ls1 Hm1) as (m2 & ls2 & E2 & Hm2 & Ha2). exists m2, ls2.
  rewrite (go_bind_run _ _ _ _ _ E1). split_and!; [done..|by eapply apart_trans].
Qed.

(** ** Pointers *)

Lemma header_run m l h : headers m !! l = Some h → header l m = (Ret h, m).
Proof. unfold header. by intros ->. Qed.

Lemma deref_run m a c : cells m !! a = Some c → deref (Some a) m = (Ret c, m).
Proof. unfold deref. simpl. by intros ->. Qed.

Lemma set_next_run m a c q :
  cells m !! a = Some c →
  set_next (Some a) q m =
  (Ret tt, set_cells (<[a := {| value := value c; next := q |}]> (cells m)) m).
Proof. intros H. unfold set_next. by rewrite (go_bind_run _ _ _ _ _ (deref_run _ _ _ H)). Qed.

Lemma set_value_run m a c v :
  cells m !! a = Some c →
  set_value (Some a) v m =
  (Ret tt, set_cells (<[a := {| value := v; next := next c |}]> (cells m)) m).
Proof. intros H. unfold set_value. by rewrite (go_bind_run _ _ _ _ _ (deref_run _ _ _ H)). Qed.

Definition fresh_loc m : loc := fresh (dom (cells m) : gset nat).

Lemma new_element_run m v q :
  new_element v q m =
  (Ret (fresh_loc m), set_cells (<[fresh_loc m := {| value := v; next := q |}]> (cells m)) m).
Proof. done. Qed.

Lemma fresh_loc_None m : cells m !! fresh_loc m = None.
Proof. unfold fresh_loc. apply (not_elem_of_dom (D:=gset nat)), is_fresh. Qed.

Lemma fresh_loc_notin m ls vs q : seg (cells m) ls vs q → fresh_loc m ∉ ls.
Proof.
  intros Hs Ha. eapply seg_dom in Ha; [|done]. rewrite fresh_loc_None in Ha. by destruct Ha.
Qed.
End list.

(** Runs pointer operations whose addresses are known. *)
Ltac heap := repeat first
  [ rewrite lookup_insert_eq
  | rewrite lookup_insert_ne by (done || set_solver)
  | rewrite insert_insert_eq
  | rewrite go_bind_assoc
  | rewrite go_bind_ret_l
  | match goal with
    | |- context [go_bind (go_modify ?f) ?k ?m] =>
        rewrite (go_bind_run (go_modify f) k m tt (f m) eq_refl)
    | |- context [go_bind (header ?l) _ ?m] =>
        erewrite (go_bind_run (header l) _ m) by (apply header_run; simpl; heap; done)
    | |- context [go_bind (new_element ?v ?q) _ ?m] =>
        rewrite (go_bind_run _ _ _ _ _ (new_element_run m v q))
    | |- context [go_bind (deref (Some ?a)) _ ?m] =>
        erewrite (go_bind_run (deref (Some a)) _ m) by (apply deref_run; simpl; heap; done)
    | |- context [go_bind (set_next (Some ?a) ?q) _ ?m] =>
        erewrite (go_bind_run (set_next (Some a) q) _ m)
          by (apply set_next_run; simpl; heap; done)
    | |- context [go_bind (set_value (Some ?a) ?q) _ ?m] =>
        erewrite (go_bind_run (set_value (Some a) q) _ m)
          by (apply set_value_run; simpl; heap; done)
    | H : ?x = Some _ |- context [?x] => rewrite H
    end
  | rewrite decide_True by (done || rewrite ?length_app; simpl; lia)
  | rewrite decide_False by (done || rewrite ?length_app; simpl; lia)
  | progress simpl ].

(** What a run of pointer operations leaves apart. *)
Ltac apart := unfold apart; split_and!; simpl;
  [ intros ?x ?Hx [?c ?Hc];
    repeat (rewrite lookup_insert_ne by (intros ?; subst; (congruence || set_solver))); done
  | set_solver
  | intros ?l2 ?Hl2; repeat (rewrite lookup_insert_ne by done); done ].

Section methods.
Context {T : Type} (zero : T).
Implicit Types (l a b : loc) (m : memory T) (ls k : list loc) (vs w : list T).

(** ** Appending *)

Lemma seg_last_cell h k b w (x : T) q :
  length k = length w → seg h (k ++ [b]) (w ++ [x]) q → h !! b = Some {| value := x; next := q |}.
Proof. intros Hl. rewrite seg_app by done. simpl. tauto. Qed.

Lemma rep_intro m l ls vs n :
  headers m !! l = Some {| first := head_or ls None; last := list.last ls; size := n |} →
  n = Z.of_nat (length vs) → int64_range n → NoDup ls → seg (cells m) ls vs None →
  rep m l ls vs.
Proof. intros Hh -> Hr Hnd Hs. by split_and!. Qed.

(** A new last element, and a new first one. *)
Lemma seg_snoc h k a b w (x v : T) :
  length k = length w → a ∉ k ++ [b] → NoDup (k ++ [b]) → seg h (k ++ [b]) (w ++ [x]) None →
  seg (<[b := {| value := x; next := Some a |}]> (<[a := {| value := v; next := None |}]> h))
      ((k ++ [b]) ++ [a]) ((w ++ [x]) ++ [v]) None.
Proof.
  intros Hl Ha (_ & Hb & _)%NoDup_app Hs. rewrite seg_app by (rewrite !length_app; simpl; lia). split.
  - apply seg_relink with None; [set_solver|done|]. by apply seg_insert.
  - simpl. by rewrite lookup_insert_ne, lookup_insert_eq by set_solver.
Qed.

Lemma seg_cons h a ls (v : T) vs q :
  a ∉ ls → seg h ls vs q →
  seg (<[a := {| value := v; next := head_or ls q |}]> h) (a :: ls) (v :: vs) q.
Proof. intros Ha Hs. simpl. rewrite lookup_insert_eq. split; [done|]. by apply seg_insert. Qed.

Lemma last_cons_or a ls : list.last (a :: ls) = Some (default a (list.last ls)).
Proof. rewrite last_cons. by destruct (list.last ls). Qed.

Lemma add_one_spec l v vs :
  int64_range (Z.of_nat (length vs) + 1) → implements l (add_one l v) vs tt (vs ++ [v]).
Proof.
  intros Hn m ls (Hh & Hnd & Hs & Hr). pose proof (fresh_loc_None m) as Hf.
  pose proof (fresh_loc_notin _ _ _ _ Hs) as Hfl.
  pose proof (seg_length _ _ _ _ Hs) as Hl.
  destruct ls as [|b ls _] using rev_ind.
  - destruct vs; [|done]. unfold add_one, set_first, set_last, set_size.
    heap. eexists _, [fresh_loc m]. split; [done|]. split; [|apart].
    split_and!; simpl; heap; [done|apply NoDup_singleton|done|done].
  - destruct vs as [|x vs _] using rev_ind; [by rewrite length_app in Hl; simpl in Hl; lia|].
    rewrite !length_app in Hl; simpl in Hl. assert (length ls = length vs) as Hl1 by lia.
    pose proof (seg_last_cell _ _ _ _ _ _ Hl1 Hs) as Hb.
    rewrite last_snoc in Hh. unfold add_one, set_first, set_last, set_size.
    heap. eexists _, ((ls ++ [b]) ++ [fresh_loc m]). split; [done|]. split; [|apart].
    apply rep_intro with (wrap64 (Z.of_nat (length (vs ++ [x])) + 1)); simpl; heap.
    + rewrite last_snoc, (head_or_app (ls ++ [b])). by destruct ls.
    + rewrite wrap64_id by done. rewrite (length_app _ [v]). simpl. lia.
    + apply wrap64_range.
    + apply NoDup_app. split_and!; [done|set_solver|apply NoDup_singleton].
    + by apply seg_snoc.
Qed.

Lemma Add_spec l values vs :
  int64_range (Z.of_nat (length vs + length values)) →
  implements l (Add l values) vs tt (vs ++ values).
Proof.
  unfold Add. revert vs. induction values as [|v values IH]; intros vs Hn; simpl.
  - rewrite app_nil_r. apply implements_ret.
  - simpl in Hn. unfold int64_range in *. apply (implements_bind _ _ _ _ tt (vs ++ [v])).
    + apply add_one_spec. unfold int64_range. lia.
    + replace (vs ++ v :: values) with ((vs ++ [v]) ++ values) by (by rewrite <- app_assoc).
      apply IH. rewrite length_app. simpl. lia.
Qed.

(** ** Prepending *)

Lemma prepend_one_spec l v vs :
  int64_range (Z.of_nat (length vs) + 1) → implements l (prepend_one l v) vs tt (v :: vs).
Proof.
  intros Hn m ls (Hh & Hnd & Hs & Hr). pose proof (fresh_loc_None m) as Hf.
  pose proof (fresh_loc_notin _ _ _ _ Hs) as Hfl.
  pose proof (seg_length _ _ _ _ Hs) as Hl.
  unfold prepend_one, set_first, set_last, set_size.
  heap. destruct ls as [|b ls]; [destruct vs; [|done]|destruct vs as [|x vs]; [done|]].
  - heap. eexists _, [fresh_loc m]. split; [done|]. split; [|apart].
    split_and!; simpl; heap; [done|apply NoDup_singleton|done|done].
  - heap. eexists _, (fresh_loc m :: b :: ls). split; [done|]. split; [|apart].
    eapply rep_intro; simpl; heap.
    + by rewrite !last_cons_or.
    + simpl in Hn. rewrite wrap64_id by done. lia.
    + apply wrap64_range.
    + by constructor.
    + destruct Hs. split_and!; [done..|]. apply seg_insert; [set_solver|done].
Qed.

Lemma Prepend_spec l values vs :
  int64_range (Z.of_nat (length vs + length values)) →
  implements l (Prepend l values) vs tt (values ++ vs).
Proof.
  unfold Prepend. revert vs. induction values as [|v values IH] using rev_ind; intros vs Hn.
  - apply implements_ret.
  - rewrite reverse_snoc. rewrite length_app in Hn. simpl in Hn. unfold int64_range in *.
    simpl. apply (implements_bind _ _ _ _ tt (v :: vs)).
    + apply prepend_one_spec. unfold int64_range. lia.
    + rewrite <- app_assoc. apply IH. simpl. lia.
Qed.

(** ** Positions *)

(** The index is inside the list exactly when the list splits there. *)
Lemma split_at {A} (i : Z) (u : list A) :
  0 ≤ i < Z.of_nat (length u) → ∃ u1 x u2, u = u1 ++ x :: u2 ∧ i = Z.of_nat (length u1).
Proof.
  intros Hi. destruct (lookup_lt_is_Some_2 u (Z.to_nat i)) as [x Hx]; [lia|].
  exists (take (Z.to_nat i) u), x, (drop (S (Z.to_nat i)) u).
  rewrite take_drop_middle by done. rewrite length_take. split; [done|]. lia.
Qed.

(** The chain splits where its contents do. *)
Lemma rep_split m l ls w1 (x : T) w2 :
  rep m l ls (w1 ++ x :: w2) →
  ∃ k1 a k2, ls = k1 ++ a :: k2 ∧ length k1 = length w1 ∧ length k2 = length w2 ∧
    seg (cells m) k1 w1 (Some a) ∧
    cells m !! a = Some {| value := x; next := head_or k2 None |} ∧
    seg (cells m) k2 w2 None.
Proof.
  intros (_ & _ & Hs & _). pose proof (seg_length _ _ _ _ Hs) as Hl.
  rewrite length_app in Hl. simpl in Hl.
  destruct (split_at (Z.of_nat (length w1)) ls) as (k1 & a & k2 & -> & Hk); [lia|].
  rewrite length_app in Hl. simpl in Hl. rewrite seg_app in Hs by lia. simpl in Hs.
  exists k1, a, k2. naive_solver lia.
Qed.

Lemma withinRange_run m l ls vs i :
  rep m l ls vs →
  withinRange l i m = (Ret (bool_decide (0 ≤ i < Z.of_nat (length vs))), m).
Proof. intros (Hh & _). unfold withinRange. by heap. Qed.

Lemma walk_run m k w q e index before :
  0 ≤ e → index = e + Z.of_nat (length k) → int64_range index →
  seg (cells m) k w q →
  walk (length k) e index before (head_or k q) m =
  (Ret (match list.last k with Some b => Some b | None => before end, q), m).
Proof.
  revert w e before. induction k as [|a k IH]; intros w e before He -> Hr Hs; simpl.
  - by rewrite decide_True by lia.
  - destruct w as [|x w]; [done|]. destruct Hs as [Ha Hs]. unfold int64_range in *. simpl in *.
    rewrite decide_False by lia. rewrite (go_bind_run _ _ _ _ _ (deref_run _ _ _ Ha)). simpl.
    rewrite wrap64_id by (unfold int64_range; lia). rewrite (IH w) by (done || lia).
    rewrite last_cons. by destruct (list.last k).
Qed.

Lemma walk_to_seg m l h k1 k2 a w1 :
  headers m !! l = Some h → first h = head_or (k1 ++ a :: k2) None →
  seg (cells m) k1 w1 (Some a) → int64_range (Z.of_nat (length w1)) →
  walk_to l (Z.of_nat (length w1)) m = (Ret (list.last k1, Some a), m).
Proof.
  intros Hh Hf Hs Hr. pose proof (seg_length _ _ _ _ Hs) as Hl.
  unfold walk_to. rewrite (go_bind_run _ _ _ _ _ (header_run _ _ _ Hh)). simpl.
  rewrite Nat2Z.id, <- Hl, Hf, head_or_app.
  rewrite (walk_run _ _ w1) by (done || rewrite Hl; done || lia).
  by destruct (list.last k1).
Qed.

Lemma walk_to_run m l k1 a k2 w1 w2 :
  rep m l (k1 ++ a :: k2) (w1 ++ w2) → length k1 = length w1 →
  walk_to l (Z.of_nat (length w1)) m = (Ret (list.last k1, Some a), m).
Proof.
  intros (Hh & _ & Hs & Hr) Hl. rewrite seg_app in Hs by done. destruct Hs as [Hs _].
  eapply walk_to_seg; [done|done|done|].
  rewrite length_app in Hr. unfold int64_range in *. lia.
Qed.

Lemma Get_in l w1 x w2 :
  implements l (Get zero l (Z.of_nat (length w1))) (w1 ++ x :: w2) (x, true) (w1 ++ x :: w2).
Proof.
  intros m ls Hm. destruct (rep_split _ _ _ _ _ _ Hm) as (k1 & a & k2 & -> & Hl & _ & _ & Ha & _).
  exists m, (k1 ++ a :: k2). split_and!; [|done|apply apart_refl]. unfold Get.
  rewrite (go_bind_run _ _ _ _ _ (withinRange_run _ _ _ _ _ Hm)).
  rewrite bool_decide_true by (rewrite length_app; simpl; lia). simpl.
  rewrite (go_bind_run _ _ _ _ _ (walk_to_run _ _ _ _ _ _ _ Hm Hl)).
  by rewrite (go_bind_run _ _ _ _ _ (deref_run _ _ _ Ha)).
Qed.

Lemma Get_out l i vs :
  ¬ 0 ≤ i < Z.of_nat (length vs) → implements l (Get zero l i) vs (zero, false) vs.
Proof.
  intros Hi m ls Hm. exists m, ls. split_and!; [|done|apply apart_refl]. unfold Get.
  rewrite (go_bind_run _ _ _ _ _ (withinRange_run _ _ _ _ _ Hm)). by rewrite bool_decide_false.
Qed.

(** ** Clear, Set and Remove *)

Lemma Clear_run m l ls vs :
  rep m l ls vs →
  ∃ m', Clear l m = (Ret tt, m') ∧ rep m' l [] [] ∧ apart l m ls m' [] ∧ cells m' = cells m.
Proof.
  intros (Hh & Hnd & Hs & Hr). unfold Clear, set_size, set_first, set_last. heap.
  eexists. split; [done|]. split; [|split; [apart|done]].
  split_and!; simpl; heap; done || constructor.
Qed.

Lemma Clear_spec l vs : implements l (Clear l) vs tt [].
Proof.
  intros m ls Hm. destruct (Clear_run _ _ _ _ Hm) as (m' & E & H & Ha & _). by exists m', [].
Qed.

Lemma seg_set_value h k1 a k2 w1 (x y : T) w2 q :
  length k1 = length w1 → NoDup (k1 ++ a :: k2) → seg h (k1 ++ a :: k2) (w1 ++ x :: w2) q →
  seg (<[a := {| value := y; next := head_or k2 q |}]> h) (k1 ++ a :: k2) (w1 ++ y :: w2) q.
Proof.
  intros Hl (Hnd & Ha & Hnd2)%NoDup_app. rewrite !seg_app by done. simpl.
  inversion_clear Hnd2. rewrite lookup_insert_eq. intros (H1 & _ & H2).
  split_and!; [|done|]; (apply seg_insert; [set_solver|done]).
Qed.

Lemma Set_in l w1 x w2 v :
  implements l (Set_ l (Z.of_nat (length w1)) v) (w1 ++ x :: w2) tt (w1 ++ v :: w2).
Proof.
  intros m ls Hm. destruct (rep_split _ _ _ _ _ _ Hm) as (k1 & a & k2 & -> & Hl & _ & _ & Ha & _).
  eexists _, (k1 ++ a :: k2). unfold Set_.
  rewrite (go_bind_run _ _ _ _ _ (withinRange_run _ _ _ _ _ Hm)).
  rewrite bool_decide_true by (rewrite length_app; simpl; lia). simpl.
  destruct Hm as (Hh & Hnd & Hs & Hr). rewrite (go_bind_run _ _ _ _ _ (header_run _ _ _ Hh)).
  rewrite (go_bind_run _ _ _ _ _ (walk_to_run m l k1 a k2 w1 (x :: w2)
    ltac:(done) Hl)).
  rewrite (set_value_run _ _ _ _ Ha). split; [done|]. split; [|apart].
  apply rep_intro with (Z.of_nat (length (w1 ++ x :: w2))); simpl.
  - done.
  - by rewrite !length_app.
  - done.
  - done.
  - by eapply seg_set_value.
Qed.

Lemma Set_append l vs v :
  int64_range (Z.of_nat (length vs) + 1) →
  implements l (Set_ l (Z.of_nat (length vs)) v) vs tt (vs ++ [v]).
Proof.
  intros Hn m ls Hm. destruct (Add_spec l [v] vs) with (m := m) (ls := ls)
    as (m' & ls' & E & H); [simpl; by rewrite Nat2Z.inj_add|done|].
  exists m', ls'. split; [|done]. unfold Set_.
  rewrite (go_bind_run _ _ _ _ _ (withinRange_run _ _ _ _ _ Hm)).
  rewrite bool_decide_false by lia. destruct Hm as (Hh & _).
  rewrite (go_bind_run _ _ _ _ _ (header_run _ _ _ Hh)). simpl. by rewrite decide_True.
Qed.

Lemma Set_out l i vs v :
  ¬ 0 ≤ i ≤ Z.of_nat (length vs) → implements l (Set_ l i v) vs tt vs.
Proof.
  intros Hi m ls Hm. exists m, ls. split_and!; [|done|apply apart_refl]. unfold Set_.
  rewrite (go_bind_run _ _ _ _ _ (withinRange_run _ _ _ _ _ Hm)).
  rewrite bool_decide_false by lia. destruct Hm as (Hh & _).
  rewrite (go_bind_run _ _ _ _ _ (header_run _ _ _ Hh)). simpl. rewrite decide_False; [done|lia].
Qed.

Lemma head_or_ne k1 a q : k1 ≠ [] → a ∉ k1 → Some a ≠ head_or k1 q.
Proof. destruct k1; [done|]. simpl. set_solver. Qed.

Lemma last_ne a k : k ≠ [] → a ∉ k → list.last (a :: k) ≠ Some a.
Proof.
  destruct k as [|b k]; [done|]. intros _ Ha. rewrite last_cons_cons.
  intros ?%last_Some_elem_of. done.
Qed.

(** Removing an element from the middle of a chain. *)
Lemma seg_unlink h k b a k2 w (y x : T) w2 :
  length k = length w → NoDup ((k ++ [b]) ++ a :: k2) →
  seg h ((k ++ [b]) ++ a :: k2) ((w ++ [y]) ++ x :: w2) None →
  seg (<[b := {| value := y; next := head_or k2 None |}]> h)
      ((k ++ [b]) ++ k2) ((w ++ [y]) ++ w2) None.
Proof.
  intros Hl (Hnd1 & Hd & Hnd2)%NoDup_app. apply NoDup_app in Hnd1 as (_ & Hb & _).
  rewrite !(seg_app _ (k ++ [b])) by (rewrite !length_app; simpl; lia). simpl.
  intros (H1 & _ & H2). split.
  - eapply seg_relink; [set_solver|done|done].
  - apply seg_insert; [set_solver|done].
Qed.

Lemma Remove_first m l a k2 x w2 :
  rep m l (a :: k2) (x :: w2) → w2 ≠ [] →
  ∃ m', Remove l 0 m = (Ret tt, m') ∧ rep m' l k2 w2 ∧ apart l m (a :: k2) m' k2 ∧
    cells m' = cells m.
Proof.
  intros Hm Hw. unfold Remove.
  rewrite (go_bind_run _ _ _ _ _ (withinRange_run _ _ _ _ _ Hm)).
  rewrite bool_decide_true by (simpl; lia). simpl.
  pose proof (walk_to_run m l [] a k2 [] (x :: w2) Hm eq_refl) as Hwalk. simpl in Hwalk.
  destruct Hm as (Hh & Hnd & [Ha Hs] & Hr). inversion_clear Hnd.
  pose proof (seg_length _ _ _ _ Hs) as Hl. simpl in Hh, Hr.
  rewrite (go_bind_run _ _ _ _ _ (header_run _ _ _ Hh)). simpl.
  assert (k2 ≠ []) as Hk by (intros ->; destruct w2; done).
  assert (length w2 ≠ 0%nat) by (destruct w2; done).
  rewrite decide_False by lia. rewrite (go_bind_run _ _ _ _ _ Hwalk).
  unfold set_first, set_last, set_size. heap.
  rewrite decide_False by (apply not_eq_sym, last_ne; done). heap.
  eexists. split; [done|]. split; [|split; [apart|done]].
  apply rep_intro with (wrap64 (Z.of_nat (length w2))); simpl; heap.
  - destruct k2; [done|]. rewrite last_cons_cons. do 3 f_equal. lia.
  - apply wrap64_id. unfold int64_range in *. lia.
  - apply wrap64_range.
  - done.
  - done.
Qed.

Lemma Remove_later m l k b a k2 w y x w2 :
  rep m l ((k ++ [b]) ++ a :: k2) ((w ++ [y]) ++ x :: w2) → length k = length w →
  ∃ m', Remove l (Z.of_nat (length (w ++ [y]))) m = (Ret tt, m') ∧
    rep m' l ((k ++ [b]) ++ k2) ((w ++ [y]) ++ w2) ∧
    apart l m ((k ++ [b]) ++ a :: k2) m' ((k ++ [b]) ++ k2).
Proof.
  intros Hm Hkw. unfold Remove.
  rewrite (go_bind_run _ _ _ _ _ (withinRange_run _ _ _ _ _ Hm)).
  rewrite bool_decide_true by (rewrite !length_app; simpl; lia). simpl.
  assert (length (k ++ [b]) = length (w ++ [y])) as Hl1 by (rewrite !length_app; simpl; lia).
  pose proof (walk_to_run m l (k ++ [b]) a k2 (w ++ [y]) (x :: w2) Hm Hl1) as Hwalk.
  rewrite last_snoc in Hwalk. destruct Hm as (Hh & Hnd & Hs & Hr).
  pose proof (seg_unlink _ _ _ _ _ _ _ _ _ Hkw Hnd Hs) as Hs'.
  assert (cells m !! b = Some {| value := y; next := Some a |} ∧
          cells m !! a = Some {| value := x; next := head_or k2 None |}) as [Hb Ha].
  { rewrite seg_app in Hs by done. simpl in Hs. destruct Hs as (Hs & Ha & _).
    split; [|done]. by apply seg_last_cell in Hs. }
  pose proof Hnd as (_ & Hd & Hnd2)%NoDup_app. inversion_clear Hnd2.
  assert (NoDup ((k ++ [b]) ++ k2)) as Hnd' by (rewrite cons_middle in Hnd;
    apply NoDup_app in Hnd as (? & ? & (_ & _ & ?)%NoDup_app); apply NoDup_app; set_solver).
  rewrite (go_bind_run _ _ _ _ _ (header_run _ _ _ Hh)). simpl.
  rewrite decide_False by (rewrite !length_app; simpl; lia).
  rewrite (go_bind_run _ _ _ _ _ Hwalk), (go_bind_run _ _ _ _ _ (header_run _ _ _ Hh)). simpl.
  rewrite head_or_app, decide_False by (apply head_or_ne; [by destruct k|set_solver]).
  rewrite last_app_cons in Hh. unfold set_first, set_last, set_size.
  assert (∀ n, wrap64 (Z.of_nat (length ((w ++ [y]) ++ x :: w2)) - 1) = n ↔
               Z.of_nat (length ((w ++ [y]) ++ w2)) = n) as Hn.
  { intros n. unfold int64_range in Hr. rewrite !length_app in *. simpl in *.
    rewrite wrap64_id by (unfold int64_range; lia). lia. }
  destruct k2 as [|c k2].
  - destruct w2 as [|z w2]; [|by apply seg_length in Hs; rewrite !length_app in *; simpl in *; lia].
    heap. eexists. split; [done|]. split; [|apart].
    eapply rep_intro; simpl; heap; [|by symmetry; apply Hn|apply wrap64_range|done|done].
    rewrite !app_nil_r, last_snoc. by destruct k.
  - rewrite last_cons_cons in Hh. heap.
    rewrite decide_False by (apply not_eq_sym; rewrite <- (last_cons_cons a c k2); by apply last_ne).
    heap. eexists. split; [done|]. split; [|apart].
    eapply rep_intro; simpl; heap; [|by symmetry; apply Hn|apply wrap64_range|done|done].
    rewrite last_app_cons. by destruct k.
Qed.

Lemma Remove_head m l ls x w2 :
  rep m l ls (x :: w2) →
  ∃ m' ls', Remove l 0 m = (Ret tt, m') ∧ rep m' l ls' w2 ∧ apart l m ls m' ls' ∧
    cells m' = cells m.
Proof.
  intros Hm. pose proof Hm as (Hh & _ & Hs & _).
  destruct ls as [|a k2]; [done|]. destruct w2 as [|z w2].
  - destruct (Clear_run _ _ _ _ Hm) as (m' & E & H). exists m', []. split; [|done].
    unfold Remove. rewrite (go_bind_run _ _ _ _ _ (withinRange_run _ _ _ _ _ Hm)). simpl.
    by rewrite (go_bind_run _ _ _ _ _ (header_run _ _ _ Hh)).
  - destruct (Remove_first m l a k2 x (z :: w2)) as (m' & E & H); [done..|]. by exists m', k2.
Qed.

Lemma Remove_in l w1 x w2 :
  implements l (Remove l (Z.of_nat (length w1))) (w1 ++ x :: w2) tt (w1 ++ w2).
Proof.
  intros m ls Hm. destruct w1 as [|y w1 _] using rev_ind.
  - destruct (Remove_head _ _ _ _ _ Hm) as (m' & ls' & E & H & Ha & _). by exists m', ls'.
  - destruct (rep_split _ _ _ _ _ _ Hm) as (k1 & a & k2 & -> & Hl & _).
    rewrite length_app in Hl. simpl in Hl.
    destruct k1 as [|b k _] using rev_ind; [simpl in Hl; lia|].
    rewrite length_app in Hl. simpl in Hl.
    destruct (Remove_later m l k b a k2 w1 y x w2) as (m' & E & H); [done|lia|].
    by exists m', ((k ++ [b]) ++ k2).
Qed.

Lemma Remove_out l i vs :
  ¬ 0 ≤ i < Z.of_nat (length vs) → implements l (Remove l i) vs tt vs.
Proof.
  intros Hi m ls Hm. exists m, ls. split_and!; [|done|apply apart_refl]. unfold Remove.
  rewrite (go_bind_run _ _ _ _ _ (withinRange_run _ _ _ _ _ Hm)). by rewrite bool_decide_false.
Qed.

Lemma Pop_some l x w : implements l (Pop zero l) (x :: w) (x, true) w.
Proof.
  intros m ls Hm. destruct (Remove_head _ _ _ _ _ Hm) as (m' & ls' & E & H & Ha & Hc).
  exists m', ls'. split; [|done]. pose proof Hm as (Hh & _ & Hs & _).
  destruct ls as [|a ls]; [done|]. destruct Hs as [Hx _]. unfold Pop. heap.
  rewrite (go_bind_run _ _ _ _ _ E).
  rewrite <- Hc in Hx. by rewrite (go_bind_run _ _ _ _ _ (deref_run _ _ _ Hx)).
Qed.

Lemma Pop_none l : implements l (Pop zero l) [] (zero, false) [].
Proof.
  intros m ls Hm. exists m, ls. split_and!; [|done|apply apart_refl].
  destruct Hm as (Hh & _). unfold Pop. by heap.
Qed.

(** ** Reading the whole list *)

Lemma fill_run m k w u :
  seg (cells m) k w None →
  fill (length w) (length u) (head_or k None) (u ++ replicate (length w) zero) m =
  (Ret (u ++ w), m).
Proof.
  revert w u. induction k as [|a k IH]; intros [|x w] u Hs; try done.
  destruct Hs as [Ha Hs]. simpl. rewrite (go_bind_run _ _ _ _ _ (deref_run _ _ _ Ha)). simpl.
  rewrite insert_app_r_alt, Nat.sub_diag by done. simpl.
  specialize (IH w (u ++ [x]) Hs). rewrite length_app, Nat.add_1_r in IH.
  by rewrite <- !app_assoc in IH.
Qed.

Lemma Values_run m l ls vs : rep m l ls vs → Values zero l m = (Ret vs, m).
Proof.
  intros (Hh & _ & Hs & _). unfold Values. heap. rewrite Nat2Z.id.
  apply (fill_run _ _ _ [] Hs).
Qed.

Lemma Values_spec l vs : implements l (Values zero l) vs vs vs.
Proof.
  intros m ls Hm. exists m, ls. split_and!; [by eapply Values_run|done|apply apart_refl].
Qed.

Lemma Size_spec l vs : implements l (Size l) vs (Z.of_nat (length vs)) vs.
Proof.
  intros m ls Hm. exists m, ls. split_and!; [|done|apply apart_refl].
  destruct Hm as (Hh & _). unfold Size. by heap.
Qed.

Lemma Empty_spec l vs : implements l (Empty l) vs (bool_decide (vs = [])) vs.
Proof.
  intros m ls Hm. exists m, ls. split_and!; [|done|apply apart_refl].
  destruct Hm as (Hh & _). unfold Empty. heap. do 2 f_equal.
  apply bool_decide_ext. destruct vs; naive_solver lia.
Qed.

Lemma strings_run (show : T → string) m k w fuel :
  seg (cells m) k w None → (length k ≤ fuel)%nat →
  strings show fuel (head_or k None) m = (Ret (show <$> w), m).
Proof.
  revert w fuel. induction k as [|a k IH]; intros [|x w] fuel Hs Hf; try done; [by destruct fuel|].
  destruct Hs as [Ha Hs]. destruct fuel as [|fuel]; simpl in Hf; [lia|]. simpl.
  rewrite (go_bind_run _ _ _ _ _ (deref_run _ _ _ Ha)). simpl.
  by rewrite (go_bind_run _ _ _ _ _ (IH w fuel Hs ltac:(lia))).
Qed.

(** A chain without repetition is no longer than the heap. *)
Lemma chain_short h k w q : NoDup k → seg h k w q → (length k ≤ base.size h)%nat.
Proof.
  intros Hnd Hs. rewrite <- (size_list_to_set (C:=gset nat) k) by done.
  rewrite <- (size_dom (D:=gset nat)). apply subseteq_size. intros a Ha%elem_of_list_to_set.
  apply elem_of_dom. by eapply seg_dom.
Qed.

Lemma String_spec (show : T → string) l vs :
  implements l (String_ show l) vs
    ("SinglyLinkedList" +:+ String (Ascii.ascii_of_nat 10) "" +:+ Join ", " (show <$> vs)) vs.
Proof.
  intros m ls Hm. exists m, ls. split_and!; [|done|apply apart_refl].
  destruct Hm as (Hh & Hnd & Hs & _). unfold String_. heap.
  pose proof (strings_run show m ls vs _ Hs (chain_short _ _ _ _ Hnd Hs)) as Hr.
  by rewrite (go_bind_run _ _ _ _ _ Hr).
Qed.

(** ** Swap *)

Lemma head_or_drop n ls : head_or (drop n ls) None = ls !! n.
Proof. revert n. induction ls as [|a ls IH]; intros [|n]; simpl; auto. Qed.

Lemma seg_lookup h ls vs i a :
  seg h ls vs None → ls !! i = Some a →
  ∃ v, vs !! i = Some v ∧ h !! a = Some {| value := v; next := ls !! S i |}.
Proof.
  revert vs i. induction ls as [|b ls IH]; intros [|x vs] [|i] Hs Hi; simplify_eq/=;
    try done.
  - destruct Hs as [Ha _]. exists x. split; [done|].
    by rewrite <- (head_or_drop 0 ls), drop_0.
  - destruct Hs as [_ Hs]. by apply IH.
Qed.

Lemma seg_set h ls vs q i a v :
  NoDup ls → seg h ls vs q → ls !! i = Some a →
  seg (<[a := {| value := v; next := head_or (drop (S i) ls) q |}]> h) ls (<[i := v]> vs) q.
Proof.
  revert vs i. induction ls as [|b ls IH]; intros [|x vs] [|i] Hnd Hs Hi; simplify_eq/=;
    try done; apply NoDup_cons in Hnd as [Hb Hnd]; destruct Hs as [H1 H2].
  - rewrite lookup_insert_eq, drop_0. split; [done|]. by apply seg_insert.
  - pose proof (list_elem_of_lookup_2 _ _ _ Hi). rewrite lookup_insert_ne by set_solver.
    split; [done|]. by apply IH.
Qed.

(** What the search has found before position [e]. *)
Definition seen (e i : nat) ls : option loc := if decide (e ≤ i)%nat then None else ls !! i.

Lemma seen_next e i ls : i ≠ e → seen (S e) i ls = seen e i ls.
Proof. intros Hi. unfold seen. by destruct (decide (e ≤ i)%nat), (decide (S e ≤ i)%nat); lia || done. Qed.

Lemma seen_now e ls : seen (S e) e ls = ls !! e.
Proof. unfold seen. by rewrite decide_False by lia. Qed.

Lemma find_two_run m ls vs i j fuel e :
  seg (cells m) ls vs None → int64_range (Z.of_nat (length ls)) → i ≠ j →
  (i < length ls)%nat → (j < length ls)%nat → (length ls ≤ fuel + e)%nat → (e ≤ length ls)%nat →
  find_two fuel (Z.of_nat e) (Z.of_nat i) (Z.of_nat j) (ls !! e) (seen e i ls) (seen e j ls) m =
  (Ret (ls !! i, ls !! j), m).
Proof.
  intros Hs Hr Hij Hi Hj. revert e.
  destruct (lookup_lt_is_Some_2 _ _ Hi) as [ai Hai], (lookup_lt_is_Some_2 _ _ Hj) as [aj Haj].
  induction fuel as [|fuel IH]; intros e Hf He; simpl.
  - unfold seen. rewrite !(decide_False (P := e ≤ _)%nat) by lia. rewrite Hai, Haj.
    by rewrite decide_True.
  - case_decide as Hfound.
    { unfold seen in *. destruct (decide (e ≤ i)%nat), (decide (e ≤ j)%nat); naive_solver. }
    assert (e < length ls)%nat as Hlt.
    { apply Nat.nle_gt. intros Hle. apply Hfound. unfold seen.
      rewrite !(decide_False (P := e ≤ _)%nat) by lia. by rewrite Hai, Haj. }
    destruct (lookup_lt_is_Some_2 _ _ Hlt) as [a Ha].
    destruct (seg_lookup _ _ _ _ _ Hs Ha) as (v & _ & Hv).
    rewrite Ha, (go_bind_run _ _ _ _ _ (deref_run _ _ _ Hv)). simpl.
    rewrite wrap64_id by (unfold int64_range in *; lia).
    replace (Z.of_nat e + 1) with (Z.of_nat (S e)) by lia.
    rewrite <- (IH (S e)) by lia. f_equal.
    + destruct (decide (Z.of_nat e = Z.of_nat i)); [|by rewrite seen_next by lia].
      replace i with e by lia. by rewrite seen_now.
    + destruct (decide (Z.of_nat e = Z.of_nat i)); [by rewrite seen_next by lia|].
      destruct (decide (Z.of_nat e = Z.of_nat j)); [|by rewrite seen_next by lia].
      replace j with e by lia. by rewrite seen_now.
Qed.

Lemma Swap_in l i j x y vs :
  i ≠ j → vs !! i = Some x → vs !! j = Some y →
  implements l (Swap l (Z.of_nat i) (Z.of_nat j)) vs tt (<[j := x]> (<[i := y]> vs)).
Proof.
  intros Hij Hx Hy m ls Hm. pose proof Hm as (Hh & Hnd & Hs & Hr).
  pose proof (seg_length _ _ _ _ Hs) as Hl.
  pose proof (lookup_lt_Some _ _ _ Hx) as Hi. pose proof (lookup_lt_Some _ _ _ Hy) as Hj.
  rewrite <- Hl in Hi, Hj.
  destruct (lookup_lt_is_Some_2 _ _ Hi) as [a Ha], (lookup_lt_is_Some_2 _ _ Hj) as [b Hb].
  destruct (seg_lookup _ _ _ _ _ Hs Ha) as (x' & ? & Hca); simplify_eq.
  destruct (seg_lookup _ _ _ _ _ Hs Hb) as (y' & ? & Hcb); simplify_eq.
  assert (a ≠ b) as Hab by (intros ->; by eapply Hij, NoDup_lookup).
  pose proof (find_two_run m ls vs i j (length vs) 0 Hs) as Hfind. unfold seen in Hfind.
  rewrite !decide_True, <- (head_or_drop 0 ls), drop_0 in Hfind by lia.
  rewrite Hl in Hfind. specialize (Hfind Hr Hij ltac:(lia) ltac:(lia) ltac:(lia) ltac:(lia)).
  eexists _, ls. unfold Swap.
  rewrite !(go_bind_run _ _ _ _ _ (withinRange_run _ _ _ _ _ Hm)).
  rewrite bool_decide_true by lia. rewrite (go_bind_run _ _ _ _ _ (withinRange_run _ _ _ _ _ Hm)).
  rewrite !bool_decide_true by lia. simpl. rewrite (go_bind_run _ _ _ _ _ (header_run _ _ _ Hh)).
  simpl. rewrite Nat2Z.id, (go_bind_run _ _ _ _ _ Hfind), Ha, Hb. heap.
  erewrite set_value_run by (simpl; by rewrite lookup_insert_ne). split; [done|].
  pose proof (list_elem_of_lookup_2 _ _ _ Ha). pose proof (list_elem_of_lookup_2 _ _ _ Hb).
  split; [|apart].
  apply rep_intro with (Z.of_nat (length vs)); simpl; [done|by rewrite !length_insert|done|done|].
  rewrite <- !head_or_drop. apply seg_set; [done| |done]. by apply seg_set.
Qed.

Lemma Swap_out l i j vs :
  ¬ (0 ≤ i < Z.of_nat (length vs) ∧ 0 ≤ j < Z.of_nat (length vs) ∧ i ≠ j) →
  implements l (Swap l i j) vs tt vs.
Proof.
  intros Hout m ls Hm. exists m, ls. split_and!; [|done|apply apart_refl]. unfold Swap.
  rewrite (go_bind_run _ _ _ _ _ (withinRange_run _ _ _ _ _ Hm)).
  destruct (bool_decide_reflect (0 ≤ i < Z.of_nat (length vs))); [|done].
  rewrite (go_bind_run _ _ _ _ _ (withinRange_run _ _ _ _ _ Hm)).
  destruct (bool_decide_reflect (0 ≤ j < Z.of_nat (length vs))); [|done].
  rewrite bool_decide_false by tauto. done.
Qed.

(** ** Insert *)

(** The two loops of Insert: new elements behind a given one, the last
    linked to [q]. *)
Definition link_after (b : loc) (values : list T) (q : option loc) : go (memory T) unit :=
  let* before := for_acc values insert_after (Some b) in set_next before q.

Lemma link_after_run m b c values q :
  cells m !! b = Some c →
  ∃ ns m', link_after b values q m = (Ret tt, m') ∧ headers m' = headers m ∧ NoDup ns ∧
    (∀ a, a ∈ ns → cells m !! a = None) ∧
    (∀ a, a ≠ b → a ∉ ns → cells m' !! a = cells m !! a) ∧
    seg (cells m') (b :: ns) (value c :: values) q.
Proof.
  unfold link_after. revert m b c. induction values as [|v values IH]; intros m b c Hb; simpl.
  - rewrite go_bind_ret_l, (set_next_run _ _ _ _ Hb). eexists [], _. split; [done|]. simpl.
    rewrite lookup_insert_eq. split_and!; try done; [constructor|set_solver|].
    intros a Ha _. by rewrite lookup_insert_ne.
  - pose proof (fresh_loc_None m) as Hf. unfold insert_after at 1.
    assert (b ≠ fresh_loc m) by congruence. heap.
    match goal with |- context [go_bind (for_acc _ _ _) _ ?x] => set (m1 := x) end.
    destruct (IH m1 (fresh_loc m) {| value := v; next := None |}) as
      (ns & m' & E & Hh & Hnd & Hnew & Hold & Hs).
    { unfold m1. simpl. by rewrite lookup_insert_ne, lookup_insert_eq. }
    assert (∀ a, a ∈ ns → a ≠ b ∧ a ≠ fresh_loc m ∧ cells m !! a = None) as Hns.
    { intros a Ha%Hnew. unfold m1 in Ha. simpl in Ha.
      rewrite lookup_insert_None, lookup_insert_None in Ha. naive_solver. }
    exists (fresh_loc m :: ns), m'. rewrite E. do 2 (split; [done|]). split; [|split; [|split]].
    + constructor; [|done]. intros Ha%Hns. naive_solver.
    + intros a [->|Ha]%elem_of_cons; [done|]. by apply Hns.
    + intros a Ha1 Ha2. rewrite Hold by set_solver. unfold m1. simpl.
      by rewrite !lookup_insert_ne by set_solver.
    + split; [|done]. rewrite Hold by (done || intros Hb'%Hns; naive_solver).
      unfold m1. simpl. by rewrite lookup_insert_eq.
Qed.

(** Linking after [b], the last element of the first part of a list. *)
Lemma link_after_rep m l k b w y k2 w2 values :
  headers m !! l = Some {| first := head_or ((k ++ [b]) ++ k2) None;
                           last := list.last ((k ++ [b]) ++ k2);
                           size := Z.of_nat (length ((w ++ [y]) ++ values ++ w2)) |} →
  int64_range (Z.of_nat (length ((w ++ [y]) ++ values ++ w2))) →
  length k = length w → NoDup ((k ++ [b]) ++ k2) → k2 ≠ [] →
  seg (cells m) k w (Some b) → is_Some (cells m !! b) → y = default y (value <$> cells m !! b) →
  seg (cells m) k2 w2 None →
  ∃ m' ls', link_after b values (head_or k2 None) m = (Ret tt, m') ∧
    rep m' l ls' ((w ++ [y]) ++ values ++ w2) ∧ apart l m ((k ++ [b]) ++ k2) m' ls'.
Proof.
  intros Hh Hr Hl Hnd Hk2 Hs1 [c Hb] Hy Hs2. rewrite Hb in Hy. simpl in Hy. subst y.
  destruct (link_after_run m b c values (head_or k2 None) Hb)
    as (ns & m' & E & Hh' & Hndn & Hnew & Hold & Hs).
  assert (∀ a, a ∈ ns → a ∉ (k ++ [b]) ++ k2) as Hdis.
  { intros a Ha%Hnew Hin. assert (is_Some (cells m !! a)) as [? ?]; [|congruence].
    rewrite !elem_of_app, list_elem_of_singleton in Hin.
    destruct Hin as [[Hin| ->]|Hin];
      [exact (seg_dom _ _ _ _ _ Hs1 Hin)|by eexists|exact (seg_dom _ _ _ _ _ Hs2 Hin)]. }
  assert (∀ a, a ∈ k ++ k2 → cells m' !! a = cells m !! a) as Hkeep.
  { apply NoDup_app in Hnd as (Hnd & Hd & _). apply NoDup_app in Hnd as (_ & Hd' & _).
    intros a Ha. apply Hold; [intros ->; set_solver|]. intros Hin%Hdis. set_solver. }
  exists m', ((k ++ [b]) ++ ns ++ k2). split; [done|]. split.
  - eapply rep_intro; [rewrite Hh', Hh; f_equal; f_equal|done|done| |].
    + rewrite !head_or_app. by destruct k.
    + destruct k2 as [|a k2]; [done|]. rewrite (app_assoc _ ns). by rewrite !last_app_cons.
    + apply NoDup_app in Hnd as (? & ? & ?). apply NoDup_app. split_and!; [done|set_solver|].
      apply NoDup_app. split_and!; [done|set_solver|done].
    + rewrite <- !app_assoc. rewrite seg_app by done. split.
      { eapply seg_ext; [|exact Hs1]. intros a Ha. apply Hkeep. set_solver. }
      change (seg (cells m') ((b :: ns) ++ k2) ((value c :: values) ++ w2) None).
      rewrite seg_app by (by eapply seg_length). split; [done|].
      eapply seg_ext; [|exact Hs2]. intros a Ha. apply Hkeep. set_solver.
  - unfold apart. split_and!.
    + intros a Ha [? ?]. apply Hold; [set_solver|]. intros ?%Hnew. congruence.
    + intros a. rewrite !elem_of_app. intros [?|[?%Hnew|?]]; set_solver.
    + intros l2 _. by rewrite Hh'.
Qed.

Lemma insert_front_later l values (g : nat → nat) before m :
  (∀ i, g i ≠ 0%nat) →
  for_acc (imap (λ i v, (g i, v)) values) (λ before '(i, v), insert_front l i before v) before m =
  for_acc values insert_after before m.
Proof.
  revert g before m. induction values as [|v values IH]; intros g before m Hg; [done|]. simpl.
  apply go_bind_ext.
  - specialize (Hg 0%nat). unfold insert_front, insert_after. by destruct (decide (g 0%nat = 0%nat)).
  - intros before' m' _. apply (IH (λ i, g (S i))). auto.
Qed.

Lemma Insert_front l x w2 v values :
  int64_range (Z.of_nat (length (v :: values ++ x :: w2))) →
  implements l (Insert l 0 (v :: values)) (x :: w2) tt (v :: values ++ x :: w2).
Proof.
  intros Hn m ls Hm. destruct ls as [|a ls]; [by destruct Hm as (_ & _ & [] & _)|].
  unfold Insert. rewrite (go_bind_run _ _ _ _ _ (withinRange_run _ _ _ _ _ Hm)).
  rewrite bool_decide_true by (simpl; lia). simpl.
  pose proof Hm as (Hh & Hnd & Hs & Hr). pose proof (fresh_loc_notin _ _ _ _ Hs) as Hfl.
  pose proof (fresh_loc_None m) as Hf. unfold set_size, insert_front at 1, set_first.
  heap. erewrite (go_bind_run (walk_to l 0)).
  2: { eapply (walk_to_seg _ l _ [] ls a []); simpl; [by heap|done|done|done]. }
  heap. rewrite (go_bind_ext _ (for_acc values insert_after (Some (fresh_loc m))) _ _ _
    (insert_front_later l values S _ _ ltac:(done)) (λ _ _ _, eq_refl)).
  change (fresh_loc (set_header _ _ m)) with (fresh_loc m).
  match goal with |- context [go_bind _ _ ?x] => set (m1 := x) end.
  destruct (link_after_rep m1 l [] (fresh_loc m) [] v (a :: ls) (x :: w2) values)
    as (m' & ls' & E & Hm' & Ha).
  - unfold m1. simpl. heap. do 2 f_equal.
    unfold int64_range in Hn. simpl in *. rewrite length_app in *. simpl in *.
    rewrite wrap64_id; unfold int64_range; lia.
  - done.
  - done.
  - by constructor.
  - done.
  - done.
  - unfold m1. simpl. rewrite lookup_insert_eq. by eexists.
  - unfold m1. simpl. by rewrite lookup_insert_eq.
  - unfold m1. apply (seg_insert _ (a :: ls)); done.
  - exists m', ls'. split; [exact E|]. split; [done|].
    apply apart_trans with m1 ([fresh_loc m] ++ a :: ls); [|done]. unfold m1. apart.
Qed.

Lemma Insert_later l w y x w2 values :
  int64_range (Z.of_nat (length ((w ++ [y]) ++ values ++ x :: w2))) →
  implements l (Insert l (Z.of_nat (length (w ++ [y]))) values)
    ((w ++ [y]) ++ x :: w2) tt ((w ++ [y]) ++ values ++ x :: w2).
Proof.
  intros Hn m ls Hm. destruct (rep_split _ _ _ _ _ _ Hm) as (k1 & a & k2 & -> & Hl & _ & Hs1 & Ha & Hs2).
  destruct k1 as [|b k _] using rev_ind; [rewrite length_app in Hl; simpl in Hl; lia|].
  assert (length k = length w) as Hl' by (rewrite !length_app in Hl; simpl in Hl; lia).
  pose proof (seg_last_cell _ _ _ _ _ _ Hl' Hs1) as Hb.
  pose proof Hs1 as [Hsk _]%seg_app; [|done]. simpl in Hsk.
  unfold Insert. rewrite (go_bind_run _ _ _ _ _ (withinRange_run _ _ _ _ _ Hm)).
  rewrite bool_decide_true by (rewrite !length_app; simpl; lia). simpl.
  pose proof Hm as (Hh & Hnd & Hs & Hr). unfold set_size. heap.
  erewrite (go_bind_run (walk_to l _)).
  2: { eapply (walk_to_seg _ l _ (k ++ [b]) k2 a (w ++ [y])); simpl; [by heap|done|done|].
       unfold int64_range in *. rewrite !length_app in *. simpl in *. lia. }
  rewrite last_snoc. heap. pose proof Hnd as (Hnd1 & Hd & _)%NoDup_app.
  rewrite head_or_app, decide_False by (apply head_or_ne; [by destruct k|set_solver]).
  heap. match goal with |- context [go_bind _ _ ?m] => set (m1 := m) end.
  destruct (link_after_rep m1 l k b w y (a :: k2) (x :: w2) values)
    as (m' & ls' & E & Hm' & Ha').
  - unfold m1. simpl. heap. rewrite !head_or_app. do 2 f_equal.
    unfold int64_range in *. rewrite !length_app in *. simpl in *.
    rewrite wrap64_id; unfold int64_range; lia.
  - done.
  - done.
  - done.
  - done.
  - done.
  - by eexists.
  - unfold m1. simpl. by rewrite Hb.
  - done.
  - exists m', ls'. split; [exact E|]. split; [done|].
    apply apart_trans with m1 ((k ++ [b]) ++ a :: k2); [|done]. unfold m1. apart.
Qed.

Lemma Insert_append l vs values :
  int64_range (Z.of_nat (length vs + length values)) →
  implements l (Insert l (Z.of_nat (length vs)) values) vs tt (vs ++ values).
Proof.
  intros Hn m ls Hm. destruct (Add_spec l values vs Hn m ls Hm) as (m' & ls' & E & H).
  exists m', ls'. split; [|done]. unfold Insert.
  rewrite (go_bind_run _ _ _ _ _ (withinRange_run _ _ _ _ _ Hm)).
  rewrite bool_decide_false by lia. destruct Hm as (Hh & _).
  rewrite (go_bind_run _ _ _ _ _ (header_run _ _ _ Hh)). simpl. by rewrite decide_True.
Qed.

Lemma Insert_out l i vs values :
  ¬ 0 ≤ i ≤ Z.of_nat (length vs) → implements l (Insert l i values) vs tt vs.
Proof.
  intros Hi m ls Hm. exists m, ls. split_and!; [|done|apply apart_refl]. unfold Insert.
  rewrite (go_bind_run _ _ _ _ _ (withinRange_run _ _ _ _ _ Hm)).
  rewrite bool_decide_false by lia. destruct Hm as (Hh & _).
  rewrite (go_bind_run _ _ _ _ _ (header_run _ _ _ Hh)). simpl. rewrite decide_False; [done|lia].
Qed.

(** ** New *)

Lemma New_run m values :
  int64_range (Z.of_nat (length values)) →
  ∃ l m' ls, New values m = (Ret l, m') ∧ rep m' l ls values ∧
    ∀ l2 ls2 vs2, rep m l2 ls2 vs2 → l2 ≠ l ∧ rep m' l2 ls2 vs2 ∧ ls2 ## ls.
Proof.
  intros Hn. unfold New. set (l := fresh (dom (headers m) : gset nat)).
  assert (headers m !! l = None) as Hl
    by (apply (not_elem_of_dom (D:=gset nat)); unfold l; apply is_fresh).
  set (m1 := set_header l {| first := None; last := None; size := 0 |} m).
  assert (new_header m = (Ret l, m1)) as Hnew by done.
  assert (rep m1 l [] []) as Hm1.
  { split_and!; simpl; [by rewrite lookup_insert_eq|constructor|done|done]. }
  rewrite (go_bind_run _ _ _ _ _ Hnew).
  assert (∃ m' ls', (if decide (values ≠ []) then Add l values else go_ret tt) m1 = (Ret tt, m') ∧
    rep m' l ls' values ∧ apart l m1 [] m' ls') as (m' & ls' & E & Hm' & Ha).
  { case_decide as Hv.
    - by apply (Add_spec l values [] Hn).
    - subst values. exists m1, []. split_and!; [done..|apply apart_refl]. }
  exists l, m', ls'. rewrite (go_bind_run _ _ _ _ _ E). split_and!; [done..|].
  intros l2 ls2 vs2 Hrep. assert (l2 ≠ l) as Hl2 by (intros ->; destruct Hrep; congruence).
  split; [done|]. apply (apart_rep _ _ _ _ _ _ _ _ Ha); [done|set_solver|].
  destruct Hrep as (H1 & H2). split; [|done]. unfold m1. simpl. by rewrite lookup_insert_ne.
Qed.

(** ** Sequences of calls *)

Inductive op :=
  | OAdd (values : list T) | OPrepend (values : list T) | OInsert (i : Z) (values : list T)
  | OSet (i : Z) (v : T) | ORemove (i : Z) | OSwap (i j : Z) | OClear
  | OGet (i : Z) | OPop | OValues | OSize | OEmpty.

Inductive answer :=
  | Done | Element (v : T) (ok : bool) | Elements (vs : list T) | Number (n : Z) | Truth (b : bool).

(** The code of a call. *)
Definition exec l (o : op) : go (memory T) answer :=
  match o with
  | OAdd values => Add l values ;;; go_ret Done
  | OPrepend values => Prepend l values ;;; go_ret Done
  | OInsert i values => Insert l i values ;;; go_ret Done
  | OSet i v => Set_ l i v ;;; go_ret Done
  | ORemove i => Remove l i ;;; go_ret Done
  | OSwap i j => Swap l i j ;;; go_ret Done
  | OClear => Clear l ;;; go_ret Done
  | OGet i => let* '(v, ok) := Get zero l i in go_ret (Element v ok)
  | OPop => let* '(v, ok) := Pop zero l in go_ret (Element v ok)
  | OValues => let* vs := Values zero l in go_ret (Elements vs)
  | OSize => let* n := Size l in go_ret (Number n)
  | OEmpty => let* empty := Empty l in go_ret (Truth empty)
  end.

(** The reference: a call on a sequence. *)
Definition inside (i : Z) vs : bool := bool_decide (0 ≤ i < Z.of_nat (length vs)).

Definition insert_at (i : Z) (values vs : list T) : list T :=
  take (Z.to_nat i) vs ++ values ++ drop (Z.to_nat i) vs.

Definition model (o : op) vs : answer * list T :=
  match o with
  | OAdd values => (Done, vs ++ values)
  | OPrepend values => (Done, values ++ vs)
  | OInsert i values =>
      (Done, if inside i vs || bool_decide (i = Z.of_nat (length vs))
             then insert_at i values vs else vs)
  | OSet i v =>
      (Done, if inside i vs then <[Z.to_nat i := v]> vs
             else if bool_decide (i = Z.of_nat (length vs)) then vs ++ [v] else vs)
  | ORemove i => (Done, if inside i vs then delete (Z.to_nat i) vs else vs)
  | OSwap i j =>
      (Done, match inside i vs && inside j vs, vs !! Z.to_nat i, vs !! Z.to_nat j with
             | true, Some x, Some y => <[Z.to_nat j := x]> (<[Z.to_nat i := y]> vs)
             | _, _, _ => vs
             end)
  | OClear => (Done, [])
  | OGet i => (match inside i vs, vs !! Z.to_nat i with
               | true, Some v => Element v true
               | _, _ => Element zero false
               end, vs)
  | OPop => match vs with [] => (Element zero false, []) | v :: vs => (Element v true, vs) end
  | OValues => (Elements vs, vs)
  | OSize => (Number (Z.of_nat (length vs)), vs)
  | OEmpty => (Truth (bool_decide (vs = [])), vs)
  end.

(** The size stays a machine integer, and Insert at the front of a list that
    is not empty is given a value. *)
Definition fits (o : op) vs : Prop :=
  match o with
  | OAdd values | OPrepend values => int64_range (Z.of_nat (length vs + length values))
  | OInsert i values =>
      int64_range (Z.of_nat (length vs + length values)) ∧ ¬ (i = 0 ∧ values = [] ∧ vs ≠ [])
  | OSet _ _ => int64_range (Z.of_nat (length vs) + 1)
  | _ => True
  end.

Lemma implements_done l (c : go (memory T) unit) vs vs' :
  implements l c vs tt vs' → implements l (c ;;; go_ret Done) vs Done vs'.
Proof. intros H. eapply implements_bind; [done|]. apply implements_ret. Qed.

Lemma Insert_implements l i values vs :
  fits (OInsert i values) vs →
  implements l (Insert l i values) vs tt (model (OInsert i values) vs).2.
Proof.
  intros [Hn Hne]. simpl. unfold inside, insert_at.
  destruct (bool_decide_reflect (i = Z.of_nat (length vs))) as [->|Hi].
  { rewrite orb_true_r, Nat2Z.id, firstn_all, drop_all, app_nil_r. by apply Insert_append. }
  destruct (bool_decide_reflect (0 ≤ i < Z.of_nat (length vs))) as [Hin|Hout]; simpl;
    [|apply Insert_out; lia].
  destruct (split_at i vs Hin) as (w1 & x & w2 & -> & ->).
  rewrite Nat2Z.id, take_app_length, drop_app_length.
  destruct w1 as [|y w _] using rev_ind.
  - destruct values as [|v values]; [by destruct Hne|]. simpl. apply Insert_front.
    simpl in *. rewrite length_app. simpl. unfold int64_range in *. lia.
  - apply Insert_later. rewrite !length_app in *. simpl in *. unfold int64_range in *. lia.
Qed.

Lemma Swap_implements l i j vs : implements l (Swap l i j) vs tt (model (OSwap i j) vs).2.
Proof.
  simpl. unfold inside. destruct (decide (i = j)) as [->|Hij].
  - destruct (bool_decide_reflect (0 ≤ j < Z.of_nat (length vs))) as [Hj|Hj]; simpl;
      [|apply Swap_out; tauto].
    destruct (vs !! Z.to_nat j) as [x|] eqn:Hx; [|apply Swap_out; tauto].
    rewrite list_insert_insert_eq, list_insert_id by done. apply Swap_out. tauto.
  - destruct (bool_decide_reflect (0 ≤ i < Z.of_nat (length vs))) as [Hi|Hi];
      [|apply Swap_out; tauto].
    destruct (bool_decide_reflect (0 ≤ j < Z.of_nat (length vs))) as [Hj|Hj]; simpl;
      [|apply Swap_out; tauto].
    destruct (lookup_lt_is_Some_2 vs (Z.to_nat i)) as [x Hx]; [lia|].
    destruct (lookup_lt_is_Some_2 vs (Z.to_nat j)) as [y Hy]; [lia|]. rewrite Hx, Hy.
    pose proof (Swap_in l (Z.to_nat i) (Z.to_nat j) x y vs) as H.
    rewrite !Z2Nat.id in H by lia. apply H; [lia|done..].
Qed.

Lemma Get_implements l i vs :
  ∃ v ok, implements l (Get zero l i) vs (v, ok) vs ∧ (model (OGet i) vs).1 = Element v ok.
Proof.
  simpl. unfold inside. destruct (bool_decide_reflect (0 ≤ i < Z.of_nat (length vs))) as [Hi|Hi].
  - destruct (split_at i vs Hi) as (w1 & x & w2 & -> & ->). exists x, true.
    rewrite Nat2Z.id, list_lookup_middle by done. split; [apply Get_in|done].
  - exists zero, false. split; [by apply Get_out|done].
Qed.

Lemma exec_implements l o vs :
  fits o vs → implements l (exec l o) vs (model o vs).1 (model o vs).2.
Proof.
  intros Hfit. destruct o as [values|values|i values|i v|i|i j| |i| | | |]; simpl in *.
  - by apply implements_done, Add_spec.
  - by apply implements_done, Prepend_spec.
  - by apply implements_done, Insert_implements.
  - apply implements_done. unfold inside.
    destruct (bool_decide_reflect (0 ≤ i < Z.of_nat (length vs))) as [Hin|Hout].
    + destruct (split_at i vs Hin) as (w1 & x & w2 & -> & ->). rewrite Nat2Z.id.
      rewrite insert_app_r_alt, Nat.sub_diag by done. apply Set_in.
    + case_bool_decide; [subst; by apply Set_append|apply Set_out; lia].
  - apply implements_done. unfold inside.
    destruct (bool_decide_reflect (0 ≤ i < Z.of_nat (length vs))) as [Hin|Hout];
      [|by apply Remove_out].
    destruct (split_at i vs Hin) as (w1 & x & w2 & -> & ->).
    rewrite Nat2Z.id, delete_middle. apply Remove_in.
  - apply implements_done, Swap_implements.
  - apply implements_done, Clear_spec.
  - destruct (Get_implements l i vs) as (v & ok & H & Hm). simpl in Hm. rewrite Hm.
    eapply implements_bind; [done|]. apply implements_ret.
  - destruct vs as [|v vs]; (eapply implements_bind; [apply Pop_none || apply Pop_some|]);
      apply implements_ret.
  - eapply implements_bind; [apply Values_spec|apply implements_ret].
  - eapply implements_bind; [apply Size_spec|apply implements_ret].
  - eapply implements_bind; [apply Empty_spec|apply implements_ret].
Qed.

(** A sequence of calls, and the reference. *)
Fixpoint exec_all l (os : list op) : go (memory T) (list answer) :=
  match os with
  | [] => go_ret []
  | o :: os => let* r := exec l o in let* rs := exec_all l os in go_ret (r :: rs)
  end.

Fixpoint model_all (os : list op) vs : list answer * list T :=
  match os with
  | [] => ([], vs)
  | o :: os => let '(r, vs) := model o vs in let '(rs, vs) := model_all os vs in (r :: rs, vs)
  end.

Fixpoint fits_all (os : list op) vs : Prop :=
  match os with
  | [] => True
  | o :: os => fits o vs ∧ fits_all os (model o vs).2
  end.

Lemma exec_all_implements l os vs :
  fits_all os vs → implements l (exec_all l os) vs (model_all os vs).1 (model_all os vs).2.
Proof.
  revert vs. induction os as [|o os IH]; intros vs; [intros _; apply implements_ret|].
  intros [Ho Hos]. simpl. pose proof (exec_implements l o vs Ho) as H.
  specialize (IH _ Hos). destruct (model o vs) as [r vs1]. simpl in *.
  destruct (model_all os vs1) as [rs vs2]. simpl in *.
  eapply implements_bind; [exact H|]. eapply implements_bind; [exact IH|]. apply implements_ret.
Qed.

(** Insert at the front of a list that is not empty, without values, panics:
    the nil element before the first one is dereferenced. *)
Lemma Insert_nothing_panics l m ls vs :
  rep m l ls vs → vs ≠ [] → Insert l 0 [] m = (Panic NilDeref, m).
Proof.
  intros Hm Hv. destruct vs as [|x vs]; [done|].
  unfold Insert. rewrite (go_bind_run _ _ _ _ _ (withinRange_run _ _ _ _ _ Hm)).
  rewrite bool_decide_true by (simpl; lia). simpl.
  pose proof Hm as (Hh & Hnd & Hs & Hr). destruct ls as [|a ls]; [done|].
  destruct Hs as [Ha Hs]. unfold set_size. heap.
  erewrite (go_bind_run (walk_to l 0)).
  2: { eapply (walk_to_seg _ l _ [] ls a []); simpl; [by heap|done|done|done]. }
  simpl in Hr. rewrite Z.add_0_r, wrap64_id by done. unfold set_header. rewrite insert_id by done.
  destruct m. simpl in *. heap. done.
Qed.
Lemma exec_all_panics l os1 os2 vs m ls :
  fits_all os1 vs → rep m l ls vs → (model_all os1 vs).2 ≠ [] →
  ∃ m', exec_all l (os1 ++ OInsert 0 [] :: os2) m = (Panic NilDeref, m').
Proof.
  revert vs m ls. induction os1 as [|o os1 IH]; intros vs m ls Hfit Hm Hne.
  - exists m. simpl. by apply go_bind_panic, go_bind_panic, (Insert_nothing_panics l m ls vs).
  - destruct Hfit as [Ho Hos]. simpl in *.
    destruct (exec_implements l o vs Ho m ls Hm) as (m1 & ls1 & E & Hm1 & _).
    destruct (model o vs) as [r vs1]. simpl in *. rewrite (go_bind_run _ _ _ _ _ E).
    destruct (IH vs1 m1 ls1) as (m2 & E2); [done|done|by destruct (model_all os1 vs1)|].
    exists m2. by apply go_bind_panic.
Qed.

(** A list that is made by [New] and used. *)
Definition use (values : list T) (os : list op) : go (memory T) (nat * list answer) :=
  let* l := New values in let* rs := exec_all l os in go_ret (l, rs).

(** C27. The linked list implements sequences: a list made by [New] from some
    values and used by any calls that fit (its size stays within 64 bits, and no
    call inserts nothing at the front of a list that is not empty) answers as
    the reference does and ends with the reference's contents, which [Values]
    reads; no call panics or loops, and every other list of the heap keeps its
    contents.  And inserting nothing at the front of a list that is not empty
    panics, after any such calls. *)
Theorem list_refines_sequence m values :
  int64_range (Z.of_nat (length values)) →
  (∀ os, fits_all os values →
   ∃ m' l ls, use values os m = (Ret (l, (model_all os values).1), m') ∧
     rep m' l ls (model_all os values).2 ∧
     Values zero l m' = (Ret (model_all os values).2, m') ∧
     ∀ l2 ls2 vs2, rep m l2 ls2 vs2 → rep m' l2 ls2 vs2) ∧
  (∀ os1 os2, fits_all os1 values → (model_all os1 values).2 ≠ [] →
   ∃ m', use values (os1 ++ OInsert 0 [] :: os2) m = (Panic NilDeref, m')).
Proof.
  intros Hn. destruct (New_run m values Hn) as (l & m1 & ls & E & Hm1 & Hother). unfold use. split.
  - intros os Hfit.
    destruct (exec_all_implements l os values Hfit m1 ls Hm1) as (m2 & ls2 & E2 & Hm2 & Ha).
    exists m2, l, ls2. rewrite (go_bind_run _ _ _ _ _ E), (go_bind_run _ _ _ _ _ E2).
    do 2 (split; [done|]). split; [by eapply Values_run|].
    intros l' ls' vs' (Hne & Hrep & Hd)%Hother. by eapply apart_rep.
  - intros os1 os2 Hfit Hne.
    destruct (exec_all_panics l os1 os2 values m1 ls Hfit Hm1 Hne) as (m2 & E2).
    exists m2. rewrite (go_bind_run _ _ _ _ _ E). by apply go_bind_panic.
Qed.
End methods.
End LinkedListFacts.
