(* ===== verification/MultiQueue.v ===== *)
(** * MultiQueue: the named queues of pkg/util/multiqueue.go

    Each name has a linked list of its own; all lists live on the heap of
    LinkedList.v.  Every method holds the mutex for its whole body, so a
    method is one step.  The contents are a map from names to sequences. *)
From S2P Require Import Prelude.
From S2P Require Import LinkedList.
From S2P Require Import LinkedListFacts.
Open Scope Z_scope.

Record multi_queue (T : Type) := { mem : memory T; queues : gmap string nat }.
Arguments mem {T} _.
Arguments queues {T} _.

Module MultiQueue.
Section queue.
Context {T : Type} (zero : T) {RO : RangeOrder}.
Implicit Types (s : multi_queue T) (k : string).

(** A method of a list, on the heap of the queues. *)
Definition on_memory {A} (op : go (memory T) A) : go (multi_queue T) A :=
  λ s, let '(r, m) := op (mem s) in (r, {| mem := m; queues := queues s |}).

Definition NewMultiQueue (m : memory T) : multi_queue T := {| mem := m; queues := ∅ |}.

Definition Push k (value : T) : go (multi_queue T) unit :=
  let* p := go_get in
  match queues p !! k with
  | Some v => on_memory (LinkedList.Append v [value])
  | None =>
      let* v := on_memory (LinkedList.New [value]) in
      go_modify (λ p, {| mem := mem p; queues := <[k := v]> (queues p) |})
  end.

Definition Pop k : go (multi_queue T) (T * bool) :=
  let* p := go_get in
  match queues p !! k with
  | Some v => on_memory (LinkedList.Pop zero v)
  | None => go_ret (zero, false)
  end.

(** The callback sees a fresh slice; the variables it captures are [B]. *)
Definition Iter {B} (fn : B → string → list T → go (multi_queue T) (B * option error)) (b : B)
    : go (multi_queue T) B :=
  let* p := go_get in
  for_until (range_order (map_to_list (queues p))) (λ b '(q, l),
    let* vs := on_memory (LinkedList.Values zero l) in fn b q vs) b.

(** ** Representation *)

(** Each name owns its list: no two share a header or an element. *)
Record represents s (q : gmap string (list T)) (own : string → list nat) : Prop := {
  rep_names : dom (queues s) = (dom q : gset string);
  rep_lists : ∀ k l vs, queues s !! k = Some l → q !! k = Some vs →
    LinkedListFacts.rep (mem s) l (own k) vs;
  rep_apart : ∀ k1 k2 l1 l2, k1 ≠ k2 → queues s !! k1 = Some l1 → queues s !! k2 = Some l2 →
    l1 ≠ l2 ∧ own k1 ## own k2
}.

Definition holds s q : Prop := ∃ own, represents s q own.

Lemma names_Some s q own k l :
  represents s q own → queues s !! k = Some l → ∃ vs, q !! k = Some vs.
Proof.
  intros H Hl. apply elem_of_dom. rewrite <- (rep_names _ _ _ H). apply elem_of_dom. by eexists.
Qed.

Lemma names_None s q own k : represents s q own → queues s !! k = None → q !! k = None.
Proof.
  intros H Hl. apply not_elem_of_dom. rewrite <- (rep_names _ _ _ H). by apply not_elem_of_dom.
Qed.

(** The ownership of one name changes. *)
Definition reown (own : string → list nat) k (ls : list nat) : string → list nat :=
  λ k', if decide (k' = k) then ls else own k'.

Lemma reown_eq own k ls : reown own k ls k = ls.
Proof. unfold reown. by rewrite decide_True. Qed.
Lemma reown_ne own k ls k' : k' ≠ k → reown own k ls k' = own k'.
Proof. intros. unfold reown. by rewrite decide_False. Qed.

(** A method on the list of [k] keeps the lists of the other names. *)
Lemma update_list {A} (op : go (memory T) A) s q k l vs r vs' :
  holds s q → queues s !! k = Some l → q !! k = Some vs →
  LinkedListFacts.implements l op vs r vs' →
  ∃ s', on_memory op s = (Ret r, s') ∧ queues s' = queues s ∧ holds s' (<[k := vs']> q).
Proof.
  intros [own H] Hl Hvs Hop.
  destruct (Hop _ _ (rep_lists _ _ _ H _ _ _ Hl Hvs)) as (m' & ls' & E & Hm' & Ha).
  exists {| mem := m'; queues := queues s |}. unfold on_memory. rewrite E.
  do 2 (split; [done|]). exists (reown own k ls').
  assert (∀ k2 l2 vs2, k2 ≠ k → queues s !! k2 = Some l2 → q !! k2 = Some vs2 →
    LinkedListFacts.rep m' l2 (own k2) vs2 ∧ own k2 ## ls') as Hother.
  { intros k2 l2 vs2 Hk2 Hl2 Hvs2. destruct (rep_apart _ _ _ H k2 k l2 l) as [Hne Hd]; [done..|].
    eapply LinkedListFacts.apart_rep; [done..|]. by eapply rep_lists. }
  split; simpl.
  - rewrite dom_insert_L, (rep_names _ _ _ H). apply elem_of_dom_2 in Hvs. set_solver.
  - intros k2 l2 vs2 Hl2 Hvs2. destruct (decide (k2 = k)) as [->|Hk2].
    + rewrite lookup_insert_eq in Hvs2. rewrite reown_eq. by simplify_eq.
    + rewrite lookup_insert_ne in Hvs2 by done. rewrite reown_ne by done. by eapply Hother.
  - intros k1 k2 l1 l2 Hk Hl1 Hl2. destruct (rep_apart _ _ _ H k1 k2 l1 l2) as [Hne Hd]; [done..|].
    split; [done|].
    destruct (names_Some _ _ _ _ _ H Hl1) as [vs1 Hvs1], (names_Some _ _ _ _ _ H Hl2) as [vs2 Hvs2].
    destruct (decide (k1 = k)) as [->|Hk1], (decide (k2 = k)) as [->|Hk2];
      rewrite ?reown_eq, ?reown_ne by done; try done.
    + destruct (Hother k2 l2 vs2) as [_ Hd2]; [done..|set_solver].
    + by eapply Hother.
Qed.

(** ** The methods *)

Lemma Push_existing s q k vs v :
  holds s q → q !! k = Some vs → int64_range (Z.of_nat (length vs + 1)) →
  ∃ s', Push k v s = (Ret tt, s') ∧ holds s' (<[k := vs ++ [v]]> q).
Proof.
  intros H Hvs Hn. pose proof H as [own Hown]. destruct (queues s !! k) as [l|] eqn:Hl;
    [|eapply names_None in Hl; [|done]; congruence].
  unfold Push. rewrite (go_bind_run go_get _ s s s eq_refl), Hl.
  destruct (update_list (LinkedList.Append l [v]) s q k l vs tt (vs ++ [v])) as (s' & E & _ & H');
    [done..| |by exists s'].
  by apply LinkedListFacts.Add_spec.
Qed.

Lemma Push_new s q k v :
  holds s q → q !! k = None → ∃ s', Push k v s = (Ret tt, s') ∧ holds s' (<[k := [v]]> q).
Proof.
  intros [own H] Hq. destruct (queues s !! k) as [l|] eqn:Hl.
  { destruct (names_Some _ _ _ _ _ H Hl). congruence. }
  destruct (LinkedListFacts.New_run (mem s) [v] ltac:(done)) as (l & m & ls & E & Hm & Hother).
  unfold Push. rewrite (go_bind_run go_get _ s s s eq_refl), Hl.
  set (s1 := {| mem := m; queues := queues s |}).
  assert (on_memory (LinkedList.New [v]) s = (Ret l, s1)) as E1 by (unfold on_memory; by rewrite E).
  rewrite (go_bind_run _ _ _ _ _ E1). eexists. split; [done|]. exists (reown own k ls).
  assert (∀ k2 l2, queues s !! k2 = Some l2 → k2 ≠ k ∧ l2 ≠ l ∧ own k2 ## ls ∧
    ∀ vs2, q !! k2 = Some vs2 → LinkedListFacts.rep m l2 (own k2) vs2) as Hold.
  { intros k2 l2 Hl2. split; [congruence|]. destruct (names_Some _ _ _ _ _ H Hl2) as [vs2 Hvs2].
    destruct (Hother l2 (own k2) vs2) as (? & ? & ?); [by eapply rep_lists|].
    do 2 (split; [done|]). intros vs3 ?. by simplify_eq. }
  split; simpl.
  - rewrite !dom_insert_L, (rep_names _ _ _ H). done.
  - intros k2 l2 vs2 Hl2 Hvs2. destruct (decide (k2 = k)) as [->|Hk2].
    + rewrite lookup_insert_eq in Hl2. rewrite lookup_insert_eq in Hvs2. rewrite reown_eq. by simplify_eq.
    + rewrite lookup_insert_ne in Hl2 by done. rewrite lookup_insert_ne in Hvs2 by done.
      rewrite reown_ne by done.
      by apply (Hold k2 l2).
  - intros k1 k2 l1 l2 Hk Hl1 Hl2.
    destruct (decide (k1 = k)) as [->|Hk1], (decide (k2 = k)) as [->|Hk2]; [done| | |];
      rewrite ?lookup_insert_eq, ?lookup_insert_ne in Hl1 by done;
      rewrite ?lookup_insert_eq, ?lookup_insert_ne in Hl2 by done; simplify_eq;
      rewrite ?reown_eq, ?reown_ne by done.
    + destruct (Hold k2 l2 Hl2) as (_ & ? & ? & _). split; [done|set_solver].
    + destruct (Hold k1 l1 Hl1) as (_ & ? & ? & _). done.
    + by eapply rep_apart.
Qed.

Lemma Pop_run s q k :
  holds s q →
  ∃ s', Pop k s = (Ret (match q !! k with Some (v :: _) => (v, true) | _ => (zero, false) end), s') ∧
    holds s' (match q !! k with Some vs => <[k := tail vs]> q | None => q end).
Proof.
  intros H. pose proof H as [own Hown]. unfold Pop.
  rewrite (go_bind_run go_get _ s s s eq_refl).
  destruct (queues s !! k) as [l|] eqn:Hl; [|rewrite (names_None _ _ _ _ Hown Hl); by exists s].
  destruct (names_Some _ _ _ _ _ Hown Hl) as [[|v vs] Hvs]; rewrite Hvs.
  - destruct (update_list (LinkedList.Pop zero l) s q k l [] (zero, false) [])
      as (s' & E & _ & H'); [done..|apply LinkedListFacts.Pop_none|by exists s'].
  - destruct (update_list (LinkedList.Pop zero l) s q k l (v :: vs) (v, true) vs)
      as (s' & E & _ & H'); [done..|apply LinkedListFacts.Pop_some|by exists s'].
Qed.

(** ** Sequences of calls *)

Inductive call := CPush (k : string) (v : T) | CPop (k : string).

Definition exec (c : call) : go (multi_queue T) (option (T * bool)) :=
  match c with
  | CPush k v => Push k v ;;; go_ret None
  | CPop k => let* r := Pop k in go_ret (Some r)
  end.

Fixpoint exec_all (cs : list call) : go (multi_queue T) (list (option (T * bool))) :=
  match cs with
  | [] => go_ret []
  | c :: cs => let* r := exec c in let* rs := exec_all cs in go_ret (r :: rs)
  end.

(** The reference: queues as sequences, absent and empty alike to a Pop. *)
Definition model (c : call) (q : gmap string (list T))
    : option (T * bool) * gmap string (list T) :=
  match c with
  | CPush k v => (None, <[k := default [] (q !! k) ++ [v]]> q)
  | CPop k =>
      (Some (match q !! k with Some (v :: _) => (v, true) | _ => (zero, false) end),
       match q !! k with Some vs => <[k := tail vs]> q | None => q end)
  end.

Fixpoint model_all (cs : list call) (q : gmap string (list T))
    : list (option (T * bool)) * gmap string (list T) :=
  match cs with
  | [] => ([], q)
  | c :: cs => let '(r, q) := model c q in let '(rs, q) := model_all cs q in (r :: rs, q)
  end.

(** No queue is longer than [n]. *)
Definition short (n : nat) (q : gmap string (list T)) : Prop :=
  ∀ k vs, q !! k = Some vs → (length vs ≤ n)%nat.

Lemma exec_run c s q n :
  holds s q → short n q → int64_range (Z.of_nat n + 1) →
  ∃ s', exec c s = (Ret (model c q).1, s') ∧ holds s' (model c q).2 ∧ short (S n) (model c q).2.
Proof.
  intros H Hshort Hn. unfold int64_range in Hn. destruct c as [k v|k]; simpl.
  - assert (∃ s', Push k v s = (Ret tt, s') ∧ holds s' (<[k := default [] (q !! k) ++ [v]]> q))
      as (s' & E & H').
    { destruct (q !! k) as [vs|] eqn:Hk; [|by apply Push_new].
      apply Push_existing; [done..|]. apply Hshort in Hk. unfold int64_range. simpl. lia. }
    exists s'. rewrite (go_bind_run _ _ _ _ _ E). do 2 (split; [done|]).
    intros k2 vs2. rewrite lookup_insert_Some. intros [[<- <-]|[_ Hk2%Hshort]]; [|lia].
    rewrite length_app. destruct (q !! k) as [vs|] eqn:Hk; simpl; [|lia]. apply Hshort in Hk. lia.
  - destruct (Pop_run s q k H) as (s' & E & H'). exists s'. rewrite (go_bind_run _ _ _ _ _ E).
    do 2 (split; [done|]). destruct (q !! k) as [vs|] eqn:Hk.
    + intros k2 vs2. rewrite lookup_insert_Some. intros [[<- <-]|[_ Hk2%Hshort]]; [|lia].
      apply Hshort in Hk. destruct vs; simpl in *; lia.
    + intros k2 vs2 ?%Hshort. lia.
Qed.

Lemma exec_all_run cs s q n :
  holds s q → short n q → int64_range (Z.of_nat (n + length cs)) →
  ∃ s', exec_all cs s = (Ret (model_all cs q).1, s') ∧ holds s' (model_all cs q).2.
Proof.
  revert s q n. induction cs as [|c cs IH]; intros s q n H Hshort Hn; [by exists s|].
  simpl in Hn. unfold int64_range in *.
  destruct (exec_run c s q n H Hshort) as (s1 & E & H1 & Hs1); [unfold int64_range; lia|].
  simpl. rewrite (go_bind_run _ _ _ _ _ E). destruct (model c q) as [r q1]. simpl in *.
  destruct (IH s1 q1 (S n) H1 Hs1) as (s2 & E2 & H2); [lia|].
  destruct (model_all cs q1) as [rs q2]. simpl in *. exists s2.
  by rewrite (go_bind_run _ _ _ _ _ E2).
Qed.

(** C31. The queues implement a map of sequences: from new queues, any calls that
    fit a machine integer return what the reference returns, in the order of
    each queue, whatever happens to the others. *)
Theorem multiqueue_refines m cs :
  int64_range (Z.of_nat (length cs)) →
  ∃ s', exec_all cs (NewMultiQueue m) = (Ret (model_all cs ∅).1, s') ∧ holds s' (model_all cs ∅).2.
Proof.
  intros Hn. apply (exec_all_run cs _ _ 0).
  - exists (λ _, []). split; simpl; [by rewrite !dom_empty_L|intros *; by rewrite lookup_empty..].
  - intros k vs. by rewrite lookup_empty.
  - done.
Qed.
End queue.
End MultiQueue.
