(* ===== verification/WaitGroup.v ===== *)
(** * WaitGroup: the stoppable wait group of pkg/lock/stoppable_waitgroup.go

    The methods run concurrently without a lock, so each one is a program
    counter and one atomic access per step: a channel test, an atomic
    addition, a close.  A configuration is the group with the program counters of
    its goroutines; a schedule says who steps.  The zero group, whose counter
    is a nil pointer, is the one Openstack.v meets; here the group is made by
    [NewStoppableWaitGroup]. *)
From S2P Require Import Prelude.
Open Scope Z_scope.

(** A [sync.Once] whose function takes several steps. *)
Inductive once := NotRun | Running | Ran.

#[export] Instance once_eq_dec : EqDecision once.
Proof. solve_decision. Defined.

(** The channels are closed or open; nothing is ever sent on them. *)
Record wait_group := {
  noopDone : bool;
  noopAdd : bool;
  i : Z;
  doneOnce : bool;   (* whether it has run; its function is one close *)
  stopOnce : once
}.

Definition NewStoppableWaitGroup : wait_group :=
  {| noopDone := false; noopAdd := false; i := 0; doneOnce := false; stopOnce := NotRun |}.

Definition set_i (n : Z) (g : wait_group) : wait_group :=
  {| noopDone := noopDone g; noopAdd := noopAdd g; i := n; doneOnce := doneOnce g;
     stopOnce := stopOnce g |}.
Definition set_stop (o : once) (g : wait_group) : wait_group :=
  {| noopDone := noopDone g; noopAdd := noopAdd g; i := i g; doneOnce := doneOnce g;
     stopOnce := o |}.
Definition close_add (g : wait_group) : wait_group :=
  {| noopDone := noopDone g; noopAdd := true; i := i g; doneOnce := doneOnce g;
     stopOnce := stopOnce g |}.
(** [l.doneOnce.Do(func() { close(l.noopDone) })] *)
Definition close_done_once (g : wait_group) : wait_group :=
  if doneOnce g then g
  else {| noopDone := true; noopAdd := noopAdd g; i := i g; doneOnce := true;
          stopOnce := stopOnce g |}.

Module WaitGroup.

(** Where a goroutine is.  The flag says whether the Add or Done is the one
    inside Stop. *)
Inductive pc :=
  | Idle
  | AddCheck (stop : bool)            (* select on noopAdd *)
  | AddIncr (stop : bool)             (* atomic.AddInt64(l.i, 1) *)
  | DoneCheck (stop : bool)           (* select on noopDone *)
  | DoneCheckAdd (stop : bool)        (* select on noopAdd *)
  | DoneDecrStopped (stop : bool)     (* the addition after noopAdd was closed *)
  | DoneDecr (stop : bool)            (* the addition in the default case *)
  | DoneRecheck (stop : bool) (a : Z) (* second select on noopAdd *)
  | DoneClose (stop : bool)           (* doneOnce.Do *)
  | StopEnter                         (* stopOnce.Do *)
  | StopClose                         (* close(l.noopAdd) *)
  | StopEnd                           (* stopOnce.Do returns *)
  | WaitRecv.                         (* <-l.noopDone *)

#[export] Instance pc_eq_dec : EqDecision pc.
Proof. solve_decision. Defined.

Inductive call := CAdd | CDone | CStop | CWait.

#[export] Instance call_eq_dec : EqDecision call.
Proof. solve_decision. Defined.

Definition enter (c : call) : pc :=
  match c with
  | CAdd => AddCheck false
  | CDone => DoneCheck false
  | CStop => StopEnter
  | CWait => WaitRecv
  end.

(** Where Add and Done return to. *)
Definition after_add (stop : bool) : pc := if stop then StopClose else Idle.
Definition after_done (stop : bool) : pc := if stop then StopEnd else Idle.

(** One atomic step of a goroutine; [None] while it is blocked, or idle. *)
Definition advance (g : wait_group) (p : pc) : option (wait_group * pc) :=
  match p with
  | Idle => None
  | AddCheck stop => Some (g, if noopAdd g then after_add stop else AddIncr stop)
  | AddIncr stop => Some (set_i (wrap64 (i g + 1)) g, after_add stop)
  | DoneCheck stop => Some (g, if noopDone g then after_done stop else DoneCheckAdd stop)
  | DoneCheckAdd stop => Some (g, if noopAdd g then DoneDecrStopped stop else DoneDecr stop)
  | DoneDecrStopped stop =>
      let a := wrap64 (i g - 1) in
      Some (set_i a g, if decide (a ≤ 0) then DoneClose stop else after_done stop)
  | DoneDecr stop =>
      let a := wrap64 (i g - 1) in Some (set_i a g, DoneRecheck stop a)
  | DoneRecheck stop a =>
      Some (g, if noopAdd g then if decide (a ≤ 0) then DoneClose stop else after_done stop
               else after_done stop)
  | DoneClose stop => Some (close_done_once g, after_done stop)
  | StopEnter =>
      match stopOnce g with
      | NotRun => Some (set_stop Running g, AddCheck true)
      | Running => None
      | Ran => Some (g, Idle)
      end
  | StopClose => Some (close_add g, DoneCheck true)
  | StopEnd => Some (set_stop Ran g, Idle)
  | WaitRecv => if noopDone g then Some (g, Idle) else None
  end.

(** ** Schedules *)

Definition config : Type := wait_group * list pc.

Inductive label := Call (t : nat) (c : call) | Run (t : nat).

#[export] Instance label_eq_dec : EqDecision label.
Proof. solve_decision. Defined.

Definition step (l : label) (c : config) : option config :=
  let '(g, ts) := c in
  match l with
  | Call t cl => match ts !! t with Some Idle => Some (g, <[t := enter cl]> ts) | _ => None end
  | Run t =>
      match ts !! t with
      | Some p => match advance g p with Some (g', p') => Some (g', <[t := p']> ts) | None => None end
      | None => None
      end
  end.

Fixpoint exec (ls : list label) (c : config) : option config :=
  match ls with
  | [] => Some c
  | l :: ls => c ← step l c; exec ls c
  end.

(** [n] goroutines that have called nothing yet. *)
Definition start (n : nat) : config := (NewStoppableWaitGroup, replicate n Idle).

(** ** The invariant *)

(** The goroutine will still decrement the counter for Stop, or close. *)
Definition pending (p : pc) : Prop :=
  match p with
  | DoneCheck true | DoneCheckAdd true | DoneDecrStopped true | DoneDecr true => True
  | DoneRecheck _ a => a ≤ 0
  | DoneClose _ => True
  | _ => False
  end.

(** The goroutine runs only once the group is stopped. *)
Definition stopped_only (p : pc) : Prop :=
  match p with DoneDecrStopped _ | DoneClose _ => True | _ => False end.

(** [n] bounds the steps taken. *)
Record invariant (n : Z) (c : config) : Prop := {
  inv_once : doneOnce c.1 = noopDone c.1;
  inv_bound : - n ≤ i c.1 ≤ n;
  inv_pending : noopAdd c.1 = true → noopDone c.1 = false →
    0 < i c.1 ∨ ∃ t p, c.2 !! t = Some p ∧ pending p;
  inv_done : noopDone c.1 = true → noopAdd c.1 = true;
  inv_stopped : ∀ t p, c.2 !! t = Some p → stopped_only p → noopAdd c.1 = true
}.

Lemma wg_start_invariant k : invariant 0 (start k).
Proof.
  split; simpl; [done|lia|done|done|]. intros t p [-> _]%lookup_replicate. done.
Qed.

(** A step of one goroutine, seen by the invariant. *)
Lemma advance_step g p g' p' n :
  advance g p = Some (g', p') → doneOnce g = noopDone g →
  - n ≤ i g ≤ n → n + 1 < 2 ^ 63 →
  (noopDone g = true → noopAdd g = true) → (stopped_only p → noopAdd g = true) →
  doneOnce g' = noopDone g' ∧ - (n + 1) ≤ i g' ≤ n + 1 ∧
  (noopDone g' = true → noopAdd g' = true) ∧ (stopped_only p' → noopAdd g' = true) ∧
  (noopAdd g = true → noopAdd g' = true) ∧
  (noopAdd g' = true → noopDone g' = false →
     0 < i g' ∨ pending p' ∨
     (noopAdd g = true ∧ noopDone g = false ∧ ¬ pending p ∧ i g ≤ i g')).
Proof.
  intros Hadv Honce Hb Hn Hdone Hstop. destruct g as [nd na c dn so]; simpl in *. subst dn.
  assert (wrap64 (c - 1) = c - 1 ∧ wrap64 (c + 1) = c + 1) as [Hw Hw']
    by (split; apply wrap64_id; unfold int64_range; lia).
  destruct p as [|stop|stop|stop|stop|stop|stop|stop a|stop| | | |]; simpl in *;
    rewrite ?Hw, ?Hw' in *; unfold close_done_once, set_i, set_stop, close_add, after_add, after_done in *; simpl in *;
    repeat case_match; simplify_eq/=;
    split_and!; intros; auto; try lia; naive_solver lia.
Qed.

Lemma wg_step_invariant l c c' n :
  step l c = Some c' → n + 1 < 2 ^ 63 → invariant n c → invariant (n + 1) c'.
Proof.
  destruct c as [g ts]. intros Hstep Hn [Honce Hb Hpend Hdone Hstop]. simpl in *.
  assert (∀ t p, ts !! t = Some p → (t < length ts)%nat) as Hlen by (by intros; eapply lookup_lt_Some).
  destruct l as [t cl|t]; simpl in Hstep; destruct (ts !! t) as [p|] eqn:Ht; try done.
  - destruct p; simplify_eq/=. split; simpl; [done|lia| |done|].
    + intros H1 H2. destruct (Hpend H1 H2) as [?|(t' & p & Hp & Hpp)]; [by left|right].
      exists t', p. rewrite list_lookup_insert_ne; [done|]. intros ->. by simplify_eq.
    + intros t' p [(-> & <- & _)|[_ Hp]]%list_lookup_insert_Some Hs; [by destruct cl|by eapply Hstop].
  - destruct (advance g p) as [[g' p']|] eqn:Hadv; simplify_eq/=.
    destruct (advance_step _ _ _ _ n Hadv) as (A & B & C & D & E & F); [done..|by eapply Hstop|].
    split; simpl; [done|done| |done|].
    + intros H1 H2. destruct (F H1 H2) as [?|[?|(H3 & H4 & Hnp & Hi)]]; [by left| |].
      * right. exists t, p'. rewrite list_lookup_insert_eq; eauto.
      * destruct (Hpend H3 H4) as [?|(t' & q & Hq & Hqq)]; [left; lia|right].
        exists t', q. rewrite list_lookup_insert_ne; [done|]. intros ->. by simplify_eq.
    + intros t' q [(-> & <- & _)|[_ Hq]]%list_lookup_insert_Some Hs; [by apply D|].
      apply E. by eapply Hstop.
Qed.

Lemma exec_invariant ls c c' n :
  exec ls c = Some c' → n + Z.of_nat (length ls) < 2 ^ 63 → invariant n c →
  invariant (n + Z.of_nat (length ls)) c'.
Proof.
  revert c n. induction ls as [|l ls IH]; intros c n He Hn Hc; simpl in *.
  - simplify_eq. by rewrite Z.add_0_r.
  - destruct (step l c) as [c1|] eqn:Hl; [|done]. simpl in He.
    replace (n + Z.of_nat (S (length ls))) with ((n + 1) + Z.of_nat (length ls)) by lia.
    apply IH with c1; [done|lia|]. eapply wg_step_invariant; [done|lia|done].
Qed.

(** A goroutine between two calls, or waiting. *)
Definition resting (p : pc) : Prop := p = Idle ∨ p = WaitRecv.

(** ** A release that comes too early *)

(** Goroutine 0 adds, is done, and is overtaken before its last test; meanwhile
    goroutine 1 adds and goroutine 2 starts to stop the group. *)
Definition early_prefix : list label :=
  [Call 0 CAdd; Run 0; Run 0; Call 0 CDone; Run 0; Run 0; Run 0; Call 1 CAdd; Run 1; Run 1].
Definition early_rest : list label := [Run 2; Run 2; Run 2; Run 2; Run 0; Run 0].

Lemma early_run :
  ∃ c1 g2 ts2,
    exec early_prefix (start 3) = Some c1 ∧ c1.2 !! 1%nat = Some Idle ∧ i c1.1 = 1 ∧
    exec (Call 2 CStop :: early_rest) c1 = Some (g2, ts2) ∧
    noopDone g2 = true ∧ ts2 !! 1%nat = Some Idle ∧
    advance g2 WaitRecv = Some (g2, Idle) ∧
    Call 1 CDone ∉ early_prefix ++ Call 2 CStop :: early_rest.
Proof.
  do 3 eexists. split_and!; [vm_compute; reflexivity..|].
  apply (bool_decide_unpack _). by vm_compute.
Qed.

(** C28. No wakeup is lost: in every run shorter than the counter's range, once
    the group is stopped, every call other than Wait has returned and the
    counter is not positive, the group is released: a Wait returns.  The group
    is never released before it is stopped.  But it can be released too early:
    in the run above goroutine 1 has returned from Add before Stop is called and
    never calls Done, and Wait returns, as the test of goroutine 0 uses the
    counter it saw before that Add. *)
Theorem stopped_releases k ls g ts :
  exec ls (start k) = Some (g, ts) → Z.of_nat (length ls) < 2 ^ 63 →
  (noopDone g = true → noopAdd g = true) ∧
  (noopAdd g = true → Forall resting ts → i g ≤ 0 →
   noopDone g = true ∧ advance g WaitRecv = Some (g, Idle)) ∧
  ∃ c1 g2 ts2,
    exec early_prefix (start 3) = Some c1 ∧ c1.2 !! 1%nat = Some Idle ∧ i c1.1 = 1 ∧
    exec (Call 2 CStop :: early_rest) c1 = Some (g2, ts2) ∧
    noopDone g2 = true ∧ ts2 !! 1%nat = Some Idle ∧
    advance g2 WaitRecv = Some (g2, Idle) ∧
    Call 1 CDone ∉ early_prefix ++ Call 2 CStop :: early_rest.
Proof.
  intros He Hn. pose proof (exec_invariant _ _ _ 0 He ltac:(lia) (wg_start_invariant k)) as Hinv.
  split_and!; [exact (inv_done _ _ Hinv)| |exact early_run]. intros Hstop Hrest Hi.
  destruct (noopDone g) eqn:Hd; [by simpl; rewrite Hd|].
  destruct (inv_pending _ _ Hinv Hstop Hd) as [?|(t & p & Hp & Hpp)]; [simpl in *; lia|].
  eapply Forall_lookup_1 in Hrest; [|exact Hp]. destruct Hrest as [-> | ->]; done.
Qed.

(** ** Calls that do not overlap *)

#[local] Arguments wrap64 : simpl never.

(** A call run to its end; twelve steps are enough for any. *)
Fixpoint finish (fuel : nat) (g : wait_group) (p : pc) : option (wait_group * pc) :=
  if decide (p = Idle) then Some (g, Idle)
  else
    match fuel with
    | O => None
    | S fuel => '(g, p) ← advance g p; finish fuel g p
    end.

Fixpoint run_alone (cs : list call) (g : wait_group) : option wait_group :=
  match cs with
  | [] => Some g
  | c :: cs => '(g, _) ← finish 12 g (enter c); run_alone cs g
  end.

(** The reference: a counter, whether it was stopped, and whether it was
    released. *)
Record tally := { count : Z; stopped : bool; released : bool }.

Definition tally_call (c : call) (r : tally) : option tally :=
  match c with
  | CAdd => Some (if stopped r then r else
      {| count := count r + 1; stopped := false; released := released r |})
  | CDone => Some (if released r then r else
      {| count := count r - 1; stopped := stopped r;
         released := stopped r && bool_decide (count r - 1 ≤ 0) |})
  | CStop => Some (if stopped r then r else
      {| count := count r; stopped := true; released := bool_decide (count r ≤ 0) |})
  | CWait => if released r then Some r else None
  end.

Fixpoint tally_calls (cs : list call) (r : tally) : option tally :=
  match cs with [] => Some r | c :: cs => r ← tally_call c r; tally_calls cs r end.

Record agrees (n : Z) (g : wait_group) (r : tally) : Prop := {
  agrees_done : noopDone g = released r;
  agrees_add : noopAdd g = stopped r;
  agrees_count : i g = count r;
  agrees_doneOnce : doneOnce g = released r;
  agrees_stopOnce : stopOnce g = if stopped r then Ran else NotRun;
  agrees_bound : - n ≤ count r ≤ n;
  agrees_released : released r = true → stopped r = true ∧ count r ≤ 0
}.

Lemma finish_idle fuel g : finish fuel g Idle = Some (g, Idle).
Proof. by destruct fuel. Qed.

Lemma finish_step fuel g p g' p' :
  p ≠ Idle → advance g p = Some (g', p') → finish (S fuel) g p = finish fuel g' p'.
Proof. intros Hp Ha. simpl. by rewrite decide_False, Ha. Qed.

Lemma finish_blocked fuel g p : p ≠ Idle → advance g p = None → finish fuel g p = None.
Proof. intros Hp Ha. destruct fuel; simpl; by rewrite decide_False, ?Ha. Qed.

Lemma call_alone c g r n :
  agrees n g r → n + 2 < 2 ^ 63 →
  match tally_call c r with
  | Some r' => ∃ g', finish 12 g (enter c) = Some (g', Idle) ∧ agrees (n + 1) g' r'
  | None => finish 12 g (enter c) = None
  end.
Proof.
  intros [H1 H2 H3 H4 H5 H6 H7] Hn.
  destruct g as [nd na k dn so], r as [m st rl].
  cbn [noopDone noopAdd i doneOnce stopOnce count stopped released] in *. subst.
  assert (wrap64 (m - 1) = m - 1) as W1 by (apply wrap64_id; unfold int64_range; lia).
  assert (wrap64 (m + 1) = m + 1) as W2 by (apply wrap64_id; unfold int64_range; lia).
  assert (wrap64 (m + 1 - 1) = m) as W3
    by (rewrite Z.add_simpl_r; apply wrap64_id; unfold int64_range; lia).
  destruct c, st, rl;
    cbn [tally_call enter stopped released count andb];
    try (by destruct H7);
    repeat first
      [ rewrite finish_idle
      | rewrite finish_blocked by done
      | erewrite finish_step by (done || (cbn; reflexivity));
        unfold set_i, set_stop, close_add, close_done_once, after_add, after_done;
        cbn [noopDone noopAdd i doneOnce stopOnce]; rewrite ?W1, ?W2, ?W3
      | case_decide ]; try done;
    eexists; (split; [reflexivity|]); split; cbn; repeat case_bool_decide; try done; lia.
Qed.

Lemma run_alone_agrees cs n g r :
  agrees n g r → n + Z.of_nat (length cs) < 2 ^ 63 - 2 →
  match tally_calls cs r with
  | Some r' => ∃ g' n', run_alone cs g = Some g' ∧ agrees n' g' r'
  | None => run_alone cs g = None
  end.
Proof.
  revert n g r. induction cs as [|c cs IH]; intros n g r Hr Hn; [simpl; eauto|].
  simpl in Hn. pose proof (call_alone c g r n Hr ltac:(lia)) as Hc.
  cbn [tally_calls run_alone]. destruct (tally_call c r) as [r1|]; [|by rewrite Hc].
  destruct Hc as (g1 & Hc & Hr1). rewrite Hc. apply (IH (n + 1)); [done|lia].
Qed.

(** Used by one goroutine at a time the group is a counter: it returns from
    every call but a Wait before the release, and it is released exactly when
    the reference is, which is only after Stop and with no addition
    outstanding. *)
Theorem alone_equivalence cs :
  Z.of_nat (length cs) < 2 ^ 63 - 2 →
  match tally_calls cs {| count := 0; stopped := false; released := false |} with
  | Some r => ∃ g, run_alone cs NewStoppableWaitGroup = Some g ∧
      noopDone g = released r ∧ noopAdd g = stopped r ∧ i g = count r ∧
      (released r = true → stopped r = true ∧ count r ≤ 0)
  | None => run_alone cs NewStoppableWaitGroup = None
  end.
Proof.
  intros Hn. set (r0 := {| count := 0; stopped := false; released := false |}).
  assert (agrees 0 NewStoppableWaitGroup r0) as H0 by (split; simpl; done || lia).
  pose proof (run_alone_agrees cs 0 _ r0 H0 ltac:(lia)) as Hrun.
  destruct (tally_calls cs r0) as [r|]; [|done].
  destruct Hrun as (g & n & E & [H1 H2 H3 _ _ _ H7]). exists g. by split_and!.
Qed.
End WaitGroup.
