(* ===== verification/Semaphore.v ===== *)
(** * Semaphore: the semaphored read-write mutex

    Models pkg/lock/semaphored_mutex.go on the weighted semaphore of
    vendor/golang.org/x/sync/semaphore/semaphore.go.  Every method of the
    semaphore holds its mutex while it touches the state, so each is one step;
    a goroutine that is queued sleeps until a release grants its request.  The
    context is [context.Background()], never done. *)
From S2P Require Import Prelude.
Open Scope Z_scope.

(** ** The weighted semaphore *)

(** [Weighted]; a waiter is the goroutine and the weight that it wants. *)
Record weighted := { size : Z; cur : Z; waiters : list (nat * Z) }.

Definition NewWeighted (n : Z) : weighted := {| size := n; cur := 0; waiters := [] |}.

(** How Acquire ends for the caller: it returns, it sleeps in the queue, or it
    waits for the context, which is never done. *)
Inductive acquired := Granted (s : weighted) | Queued (s : weighted) | Doomed.

Definition Acquire (t : nat) (n : Z) (s : weighted) : acquired :=
  if decide (n ≤ wrap64 (size s - cur s) ∧ waiters s = []) then
    Granted {| size := size s; cur := wrap64 (cur s + n); waiters := waiters s |}
  else if decide (size s < n) then Doomed
  else Queued {| size := size s; cur := cur s; waiters := waiters s ++ [(t, n)] |}.

Definition TryAcquire (n : Z) (s : weighted) : bool * weighted :=
  if decide (n ≤ wrap64 (size s - cur s) ∧ waiters s = []) then
    (true, {| size := size s; cur := wrap64 (cur s + n); waiters := waiters s |})
  else (false, s).

(** The loop of [notifyWaiters]: the requests that are granted, from the
    front. *)
Fixpoint notify (size cur : Z) (ws : list (nat * Z)) : Z * list (nat * Z) * list (nat * Z) :=
  match ws with
  | [] => (cur, [], [])
  | (t, n) :: ws' =>
      if decide (wrap64 (size - cur) < n) then (cur, ws, [])
      else
        let '(cur, rest, granted) := notify size (wrap64 (cur + n)) ws' in
        (cur, rest, (t, n) :: granted)
  end.

Definition notifyWaiters (s : weighted) : weighted * list (nat * Z) :=
  let '(c, rest, granted) := notify (size s) (cur s) (waiters s) in
  ({| size := size s; cur := c; waiters := rest |}, granted).

(** [None] is the panic "released more than held". *)
Definition Release (n : Z) (s : weighted) : option (weighted * list (nat * Z)) :=
  let c := wrap64 (cur s - n) in
  if decide (c < 0) then None
  else Some (notifyWaiters {| size := size s; cur := c; waiters := waiters s |}).

(** ** The mutex *)
Definition maxReaders : Z := 2 ^ 30.

Definition NewSemaphoredMutex : weighted := NewWeighted maxReaders.

(** The calls, by what they ask of the semaphore. *)
Inductive call := Lock | RLock | Unlock | RUnlock | UnlockToRLock.

Inductive request := Take (n : Z) | Give (n : Z).

Definition request_of (c : call) : request :=
  match c with
  | Lock => Take maxReaders
  | UnlockToRLock => Give (maxReaders - 1)
  | Unlock => Give maxReaders
  | RLock => Take 1
  | RUnlock => Give 1
  end.

Module Semaphore.

(** What a goroutine holds, in tokens, or waits for. *)
Inductive status := Holds (n : Z) | Waits (n : Z).

#[export] Instance status_eq_dec : EqDecision status.
Proof. solve_decision. Defined.

Definition config : Type := weighted * list status.

(** A waiter that is granted holds its tokens. *)
Definition grant (ts : list status) (g : nat * Z) : list status := <[g.1 := Holds g.2]> ts.

(** A goroutine uses the mutex in turn: it takes only when it holds nothing
    and gives only what it holds. *)
Definition may (st : status) (c : call) : Prop :=
  match c with
  | Lock | RLock => st = Holds 0
  | Unlock | UnlockToRLock => st = Holds maxReaders
  | RUnlock => st = Holds 1
  end.

Definition held_after (c : call) : Z := match c with UnlockToRLock => 1 | _ => 0 end.

Inductive step : config → config → Prop :=
  | step_granted s ts t c n s' :
      ts !! t = Some (Holds 0) → request_of c = Take n → Acquire t n s = Granted s' →
      step (s, ts) (s', <[t := Holds n]> ts)
  | step_queued s ts t c n s' :
      ts !! t = Some (Holds 0) → request_of c = Take n → Acquire t n s = Queued s' →
      step (s, ts) (s', <[t := Waits n]> ts)
  | step_release s ts t c h n s' granted :
      ts !! t = Some h → may h c → request_of c = Give n →
      Release n s = Some (s', granted) →
      step (s, ts) (s', foldl grant (<[t := Holds (held_after c)]> ts) granted).

(** ** The invariant *)

Definition tokens (st : status) : Z := match st with Holds n => n | Waits _ => 0 end.

Definition total_held (ts : list status) : Z := foldr Z.add 0 (tokens <$> ts).

(** The weights of the mutex. *)
Definition weight (n : Z) : Prop := n = 1 ∨ n = maxReaders.

Record invariant (c : config) : Prop := {
  inv_size : size c.1 = maxReaders;
  inv_cur : cur c.1 = total_held c.2;
  inv_bound : 0 ≤ cur c.1 ≤ maxReaders;
  inv_tokens : ∀ t n, c.2 !! t = Some (Holds n) → n = 0 ∨ weight n;
  inv_queue : ∀ t n, (t, n) ∈ waiters c.1 ↔ c.2 !! t = Some (Waits n);
  inv_weights : ∀ t n, (t, n) ∈ waiters c.1 → weight n;
  inv_nodup : NoDup (waiters c.1).*1;
  inv_front : ∀ t n ws, waiters c.1 = (t, n) :: ws → size c.1 - cur c.1 < n
}.

(** ** Sums of tokens *)

Lemma total_held_cons st ts : total_held (st :: ts) = tokens st + total_held ts.
Proof. done. Qed.

Lemma total_held_insert ts t st st' :
  ts !! t = Some st → total_held (<[t := st']> ts) = total_held ts - tokens st + tokens st'.
Proof.
  revert t. induction ts as [|u ts IH]; intros [|t] Ht; simplify_eq/=;
    rewrite !total_held_cons; [lia|]. rewrite IH by done. lia.
Qed.

Lemma total_held_ge ts t st :
  (∀ t n, ts !! t = Some (Holds n) → 0 ≤ n) → ts !! t = Some st →
  0 ≤ tokens st ≤ total_held ts ∧
  ∀ u st', u ≠ t → ts !! u = Some st' → tokens st + tokens st' ≤ total_held ts.
Proof.
  intros Hpos Ht.
  assert (∀ us, (∀ u n, us !! u = Some (Holds n) → 0 ≤ n) → 0 ≤ total_held us) as Hnn.
  { clear. intros us. induction us as [|[n|n] us IH]; intros H; [done|..];
      rewrite total_held_cons; specialize (IH (λ u, H (S u))); simpl; [|lia].
    specialize (H 0%nat n eq_refl). lia. }
  assert (∀ us u st, (∀ u n, us !! u = Some (Holds n) → 0 ≤ n) → us !! u = Some st →
    0 ≤ tokens st ∧ 0 ≤ total_held (<[u := Waits 0]> us)) as Hless.
  { intros us u su Hus Hu. split; [destruct su; simpl; [by eapply Hus|done]|].
    apply Hnn. intros v n [(-> & [=] & _)|[_ Hv]]%list_lookup_insert_Some. by eapply Hus. }
  destruct (Hless ts t st Hpos Ht) as [H1 H2]. rewrite (total_held_insert _ _ _ _ Ht) in H2.
  simpl in H2. split; [lia|]. intros u st' Hu Hu'.
  destruct (Hless (<[t := Waits 0]> ts) u st') as [H3 H4].
  { intros v n [(-> & [=] & _)|[_ Hv]]%list_lookup_insert_Some. by eapply Hpos. }
  { by rewrite list_lookup_insert_ne. }
  rewrite (total_held_insert _ u st'), (total_held_insert _ _ _ _ Ht) in H4
    by (by rewrite list_lookup_insert_ne). simpl in H4. lia.
Qed.

(** ** Grants *)

Definition weights (gs : list (nat * Z)) : Z := foldr Z.add 0 gs.*2.

Lemma weights_cons t n gs : weights ((t, n) :: gs) = n + weights gs.
Proof. done. Qed.

Lemma grants ts gs :
  NoDup gs.*1 → (∀ t n, (t, n) ∈ gs → ts !! t = Some (Waits n)) →
  total_held (foldl grant ts gs) = total_held ts + weights gs ∧
  (∀ t n, (t, n) ∈ gs → foldl grant ts gs !! t = Some (Holds n)) ∧
  (∀ t, t ∉ gs.*1 → foldl grant ts gs !! t = ts !! t).
Proof.
  revert ts. induction gs as [|[t n] gs IH]; intros ts Hnd Hgs.
  { unfold weights. simpl. split_and!; [lia|set_solver|done]. }
  apply NoDup_cons in Hnd as [Ht Hnd]. simpl in *.
  assert (ts !! t = Some (Waits n)) as Hw by (apply Hgs; set_solver).
  assert (t < length ts)%nat as Hlen by (by eapply lookup_lt_Some).
  destruct (IH (grant ts (t, n))) as (H1 & H2 & H3); [done| |].
  { intros u m Hu. unfold grant. simpl. rewrite list_lookup_insert_ne; [apply Hgs; set_solver|].
    intros ->. apply Ht. apply list_elem_of_fmap. by exists (u, m). }
  assert (total_held (grant ts (t, n)) = total_held ts + n) as Hg
    by (unfold grant; simpl; rewrite (total_held_insert _ _ _ _ Hw); simpl; lia).
  split_and!.
  - rewrite weights_cons. simpl. lia.
  - intros u m [[= -> ->]|Hu]%elem_of_cons; [|by apply H2].
    rewrite H3 by done. unfold grant. by rewrite list_lookup_insert_eq.
  - intros u Hu. rewrite H3 by set_solver. unfold grant. simpl.
    rewrite list_lookup_insert_ne; [done|set_solver].
Qed.

Lemma notify_spec size cur ws c rest granted :
  0 ≤ cur ≤ size → size ≤ maxReaders → (∀ t n, (t, n) ∈ ws → weight n) →
  notify size cur ws = (c, rest, granted) →
  ws = granted ++ rest ∧ c = cur + weights granted ∧ cur ≤ c ≤ size ∧
  (∀ t n ws', rest = (t, n) :: ws' → size - c < n).
Proof.
  intros Hc Hs. unfold maxReaders in *. revert cur c rest granted Hc.
  induction ws as [|[t n] ws IH]; intros cur c rest granted Hc Hw Hn; simpl in Hn.
  { simplify_eq. unfold weights. simpl. split_and!; done || lia. }
  rewrite (wrap64_id (size - cur)) in Hn by (unfold int64_range; lia).
  assert (weight n) as Hwn by (apply (Hw t); set_solver).
  assert (0 < n ≤ 2 ^ 30) as Hpos by (destruct Hwn as [-> | ->]; unfold maxReaders; lia).
  case_decide.
  { simplify_eq. unfold weights. simpl. split_and!; [done|lia..|]. intros ???. by intros [= <- <- <-]. }
  rewrite (wrap64_id (cur + n)) in Hn by (unfold int64_range; lia).
  destruct (notify size (cur + n) ws) as [[c' rest'] granted'] eqn:Hrec. simplify_eq.
  destruct (IH (cur + n) c rest granted') as (-> & -> & H1 & H2);
    [lia|intros u m ?; apply (Hw u); set_solver|done|].
  rewrite weights_cons. split_and!; [done|lia..|done].
Qed.

(** ** Every step keeps the invariant *)

Lemma sem_start_invariant k : invariant (NewSemaphoredMutex, replicate k (Holds 0)).
Proof.
  assert (total_held (replicate k (Holds 0)) = 0) as H0
    by (induction k as [|k IH]; [done|]; simpl replicate; rewrite total_held_cons; simpl; lia).
  split; simpl.
  - done.
  - by rewrite H0.
  - unfold maxReaders. lia.
  - intros t n [[= ->] _]%lookup_replicate. by left.
  - intros t n. split; [set_solver|]. by intros [[=] _]%lookup_replicate.
  - set_solver.
  - constructor.
  - done.
Qed.

Lemma request_weight c n : request_of c = Take n → weight n.
Proof. destruct c; intros [= <-]; unfold weight; auto. Qed.

Lemma may_give st c n :
  may st c → request_of c = Give n →
  ∃ h, st = Holds h ∧ n = h - held_after c ∧ 0 < n ∧ weight h ∧ 0 ≤ held_after c.
Proof.
  unfold weight, maxReaders.
  destruct c; simpl; intros -> [= <-]; eexists; split_and!; try done; unfold maxReaders; lia || auto.
Qed.

Lemma Acquire_cases t n c :
  invariant c → weight n →
  (∃ s', Acquire t n c.1 = Granted s' ∧ waiters c.1 = [] ∧ waiters s' = [] ∧
     size s' = maxReaders ∧ cur s' = cur c.1 + n ∧ cur s' ≤ maxReaders) ∨
  (∃ s', Acquire t n c.1 = Queued s' ∧ waiters s' = waiters c.1 ++ [(t, n)] ∧
     size s' = maxReaders ∧ cur s' = cur c.1 ∧
     (waiters c.1 = [] → maxReaders - cur c.1 < n)).
Proof.
  intros [Hs _ Hb _ _ _ _ _] Hn. unfold Acquire. rewrite Hs.
  assert (0 < n ≤ maxReaders) as Hpos by (destruct Hn as [-> | ->]; unfold maxReaders; lia).
  unfold maxReaders in *. rewrite !wrap64_id by (unfold int64_range; lia).
  case_decide as Hg; [left|right].
  - destruct Hg as [H1 H2]. eexists. split_and!; done || (simpl; lia).
  - rewrite decide_False by lia. eexists. split_and!; try done. intros Hw.
    apply Z.nle_gt. naive_solver.
Qed.

Lemma step_granted_invariant s ts t n s' :
  invariant (s, ts) → ts !! t = Some (Holds 0) → weight n → Acquire t n s = Granted s' →
  invariant (s', <[t := Holds n]> ts).
Proof.
  intros Hinv Ht Hn Ha. destruct (Acquire_cases t n _ Hinv Hn) as [(s1 & E & H1 & H2 & H3 & H4 & H5)|(s1 & E & _)];
    simpl in *; [|congruence]. rewrite Ha in E. simplify_eq.
  destruct Hinv as [_ Hc Hb Htok Hq _ _ _]; simpl in *.
  assert (∀ u m, ts !! u ≠ Some (Waits m)) as Hno
    by (intros u m Hu; apply Hq in Hu; rewrite H1 in Hu; set_solver).
  split; simpl.
  - done.
  - rewrite H4, Hc, (total_held_insert _ _ _ _ Ht). simpl. lia.
  - destruct Hn as [-> | ->]; unfold maxReaders in *; lia.
  - intros u m [(-> & [= <-] & _)|[_ Hu]]%list_lookup_insert_Some; [by right|by eapply Htok].
  - intros u m. rewrite H2. split; [set_solver|].
    intros [(-> & [=] & _)|[_ Hu]]%list_lookup_insert_Some. by apply Hno in Hu.
  - rewrite H2. set_solver.
  - rewrite H2. constructor.
  - by rewrite H2.
Qed.

Lemma step_queued_invariant s ts t n s' :
  invariant (s, ts) → ts !! t = Some (Holds 0) → weight n → Acquire t n s = Queued s' →
  invariant (s', <[t := Waits n]> ts).
Proof.
  intros Hinv Ht Hn Ha. destruct (Acquire_cases t n _ Hinv Hn) as [(s1 & E & _)|(s1 & E & H1 & H2 & H3 & H4)];
    simpl in *; [congruence|]. rewrite Ha in E. simplify_eq.
  destruct Hinv as [Hs Hc Hb Htok Hq Hw Hnd Hf]; simpl in *.
  assert (t < length ts)%nat as Hlen by (by eapply lookup_lt_Some).
  split; simpl.
  - done.
  - rewrite H3, Hc, (total_held_insert _ _ _ _ Ht). simpl. lia.
  - by rewrite H3.
  - intros u m [(-> & [=] & _)|[_ Hu]]%list_lookup_insert_Some. by eapply Htok.
  - intros u m. rewrite H1, elem_of_app, list_elem_of_singleton, Hq. split.
    + intros [Hu|[= -> ->]]; [|by rewrite list_lookup_insert_eq].
      rewrite list_lookup_insert_ne; [done|]. intros ->. congruence.
    + intros [(-> & [= <-] & _)|[_ Hu]]%list_lookup_insert_Some; auto.
  - intros u m. rewrite H1, elem_of_app, list_elem_of_singleton.
    intros [Hu|[= -> ->]]; [by eapply Hw|done].
  - rewrite H1, fmap_app. apply NoDup_app. split_and!; [done| |apply NoDup_singleton].
    intros u ([u' m] & -> & Hu)%list_elem_of_fmap. simpl.
    intros ->%list_elem_of_singleton. apply Hq in Hu. congruence.
  - intros u m ws. rewrite H1, H2, H3. destruct (waiters s) as [|w ws'] eqn:Hws; simpl.
    + intros [= <- <- <-]. auto.
    + intros [= -> _]. rewrite <- Hs. by eapply Hf.
Qed.

(** A release of tokens that are held never panics; it grants a prefix of the
    queue. *)
Lemma Release_run s ts t st c n :
  invariant (s, ts) → ts !! t = Some st → may st c → request_of c = Give n →
  ∃ granted s', Release n s = Some (s', granted) ∧ waiters s = granted ++ waiters s' ∧
    size s' = maxReaders ∧ cur s' = cur s - n + weights granted ∧ 0 ≤ cur s' ≤ maxReaders ∧
    (∀ u m ws, waiters s' = (u, m) :: ws → size s' - cur s' < m).
Proof.
  intros [Hs Hc Hb Htok Hq Hw Hnd Hf] Ht Hmay Hn; simpl in *.
  destruct (may_give _ _ _ Hmay Hn) as (h & -> & -> & Hpos & Hh & Hr).
  assert (∀ u m, ts !! u = Some (Holds m) → 0 ≤ m) as Hnn.
  { intros u m [-> |[-> | ->]]%Htok; unfold maxReaders; lia. }
  destruct (total_held_ge ts t (Holds h) Hnn Ht) as [Hge _]. simpl in Hge.
  unfold Release. rewrite wrap64_id by (unfold int64_range, maxReaders in *; lia).
  rewrite decide_False by lia. unfold notifyWaiters; simpl.
  destruct (notify (size s) (cur s - (h - held_after c)) (waiters s)) as [[k rest] granted] eqn:Hnot.
  destruct (notify_spec (size s) (cur s - (h - held_after c)) _ _ _ _
    ltac:(lia) ltac:(lia) Hw Hnot) as (H1 & H2 & H3 & H4).
  exists granted, {| size := size s; cur := k; waiters := rest |}. simpl.
  split_and!; done || lia.
Qed.

Lemma step_release_invariant s ts t st c n s' granted :
  invariant (s, ts) → ts !! t = Some st → may st c → request_of c = Give n →
  Release n s = Some (s', granted) →
  invariant (s', foldl grant (<[t := Holds (held_after c)]> ts) granted).
Proof.
  intros Hinv Ht Hmay Hn Hrel.
  destruct (Release_run _ _ _ _ _ _ Hinv Ht Hmay Hn) as (g & s1 & E & H1 & H2 & H3 & H4 & H5).
  rewrite Hrel in E. simplify_eq.
  destruct (may_give _ _ _ Hmay Hn) as (h & -> & -> & Hpos & Hh & Hr).
  destruct Hinv as [Hs Hc Hb Htok Hq Hw Hnd Hf]; simpl in *. rewrite H1 in Hq, Hw, Hnd.
  rewrite fmap_app in Hnd. apply NoDup_app in Hnd as (Hnd1 & Hdis & Hnd2).
  assert (∀ u m, (u, m) ∈ g ++ waiters s1 → u ≠ t ∧ ts !! u = Some (Waits m)) as Hwait.
  { intros u m Hu%Hq. split; [congruence|done]. }
  destruct (grants (<[t := Holds (held_after c)]> ts) g Hnd1) as (G1 & G2 & G3).
  { intros u m Hu. destruct (Hwait u m) as [? ?]; [set_solver|]. by rewrite list_lookup_insert_ne. }
  assert (∀ u, u ∈ g.*1 → ∃ m, (u, m) ∈ g) as Hg.
  { intros u ([u' m] & -> & Hu)%list_elem_of_fmap. by exists m. }
  assert (∀ u m, (u, m) ∈ waiters s1 → u ∉ g.*1) as Hrest.
  { intros u m Hu Hug. apply (Hdis u Hug). apply list_elem_of_fmap. by exists (u, m). }
  split; simpl.
  - done.
  - rewrite G1, H3, (total_held_insert _ _ _ _ Ht). simpl. lia.
  - done.
  - intros u m Hu. destruct (decide (u ∈ g.*1)) as [Hug|Hug].
    + destruct (Hg u Hug) as [m' Hm']. rewrite (G2 _ _ Hm') in Hu. simplify_eq.
      right. apply (Hw u). set_solver.
    + rewrite G3 in Hu by done. apply list_lookup_insert_Some in Hu as [(-> & [= <-] & _)|[_ Hu]];
        [|by eapply Htok]. destruct c; simpl; unfold weight; auto.
  - intros u m. split.
    + intros Hu. rewrite G3 by (by eapply Hrest). destruct (Hwait u m) as [? ?]; [set_solver|].
      by rewrite list_lookup_insert_ne.
    + intros Hu. destruct (decide (u ∈ g.*1)) as [Hug|Hug].
      * destruct (Hg u Hug) as [m' Hm']. by rewrite (G2 _ _ Hm') in Hu.
      * rewrite G3 in Hu by done. apply list_lookup_insert_Some in Hu as [(-> & [=] & _)|[_ Hu]].
        apply Hq, elem_of_app in Hu as [Hu|Hu]; [|done]. exfalso. apply Hug.
        apply list_elem_of_fmap. by exists (u, m).
  - intros u m Hu. apply (Hw u). set_solver.
  - done.
  - done.
Qed.

Lemma reachable_invariant k c : rtc step (NewSemaphoredMutex, replicate k (Holds 0)) c → invariant c.
Proof.
  intros Hc. eapply (rtc_ind_r (λ c, invariant c)); [apply sem_start_invariant| |done].
  intros c1 c2 _ Hstep IH. destruct Hstep.
  - eapply step_granted_invariant; eauto using request_weight.
  - eapply step_queued_invariant; eauto using request_weight.
  - eapply step_release_invariant; eauto.
Qed.

(** C30. In every state that goroutines reach which take the mutex when they hold
    nothing and give back what they hold: a writer excludes every other
    holder; nobody waits while the mutex is free; no call is refused for ever
    and no release panics. *)
Theorem mutex_safe k s ts :
  rtc step (NewSemaphoredMutex, replicate k (Holds 0)) (s, ts) →
  (∀ t u n, ts !! t = Some (Holds maxReaders) → t ≠ u → ts !! u = Some (Holds n) → n = 0) ∧
  ((∀ t st, ts !! t = Some st → tokens st = 0) → ∀ t st, ts !! t = Some st → st = Holds 0) ∧
  (∀ t c n, ts !! t = Some (Holds 0) → request_of c = Take n → Acquire t n s ≠ Doomed) ∧
  (∀ t st c n, ts !! t = Some st → may st c → request_of c = Give n → is_Some (Release n s)).
Proof.
  intros Hinv%reachable_invariant. pose proof Hinv as [Hs Hc Hb Htok Hq Hw Hnd Hf]; simpl in *.
  assert (∀ u m, ts !! u = Some (Holds m) → 0 ≤ m) as Hnn.
  { intros u m [-> |[-> | ->]]%Htok; unfold maxReaders; lia. }
  split_and!.
  - intros t u n Ht Hu Hn. destruct (total_held_ge ts t _ Hnn Ht) as [_ Hle].
    specialize (Hle u (Holds n) ltac:(done) Hn). simpl in Hle. apply Hnn in Hn. lia.
  - intros Hfree t st Ht. assert (cur s = 0) as H0.
    { rewrite Hc. clear -Hfree. induction ts as [|st ts IH]; [done|]. rewrite total_held_cons.
      rewrite (Hfree 0%nat st eq_refl), IH; [done|]. intros t. apply (Hfree (S t)). }
    destruct st as [n|n]; [by rewrite <- (Hfree t _ Ht)|]. exfalso.
    destruct (waiters s) as [|[u m] ws] eqn:Hws; [apply Hq in Ht; set_solver|].
    specialize (Hf u m ws eq_refl). rewrite Hs, H0 in Hf.
    destruct (Hw u m) as [-> | ->]; [set_solver|unfold maxReaders in *; lia..].
  - intros t c n Ht Hn. destruct (Acquire_cases t n _ Hinv (request_weight _ _ Hn))
      as [(s' & E & _)|(s' & E & _)]; simpl in E; by rewrite E.
  - intros t st c n Ht Hmay Hn.
    destruct (Release_run _ _ _ _ _ _ Hinv Ht Hmay Hn) as (g & s' & E & _). by eexists.
Qed.
End Semaphore.
