(* ===== verification/Trigger.v ===== *)
(** * Trigger: the folded trigger of pkg/util/trigger.go

    [Trigger] sets a flag under the mutex and then offers a message on a
    channel of capacity one; the goroutine of [waiter] takes the flag, sleeps
    until the minimal interval has passed, notes the time under the mutex,
    calls the function and waits for a message.  The critical sections, the
    channel operations and the calls of the two functions are the steps; any
    time may pass between two steps, and the clock never goes back. *)
From S2P Require Import Prelude.
Open Scope Z_scope.

(** The parameters; of the two functions only whether they are there. *)
Record Parameters := {
  MinInterval : Z;
  TriggerFunc : bool;
  ShutdownFunc : bool
}.

(** Where the goroutine of waiter is. *)
Inductive waiter :=
  | WTest               (* takes the flag *)
  | WDelay              (* needsDelay *)
  | WSleep (until : Z)  (* time.Sleep *)
  | WStart              (* sets lastTrigger and numFolds *)
  | WCall               (* about to call params.TriggerFunc, without the mutex *)
  | WRun                (* in params.TriggerFunc *)
  | WSelect             (* waits for a message or the shutdown *)
  | WShutdown           (* about to call params.ShutdownFunc *)
  | WExit.

(** The fields of [Trigger], with the message of [wakeupChan], the closing of
    [closeChan], the calls of Trigger between their two halves, and the clock.
    [runs] has, of every call of TriggerFunc, the last one first, the
    time that was noted for it in [lastTrigger] and the time of the call;
    [shutdowns] counts the calls of ShutdownFunc. *)
Record trigger_state := {
  trigger : bool;
  lastTrigger : Z;
  wakeupChan : bool;
  closeChan : bool;
  numFolds : Z;
  pc : waiter;
  inflight : nat;
  now : Z;
  runs : list (Z * Z);
  shutdowns : nat
}.

Module Trigger.
Section trigger.
Context (params : Parameters).
Implicit Types (t : trigger_state).

(** [NewTrigger] at time [n]; the zero time is before every other. *)
Definition NewTrigger (n zero_time : Z) : error + trigger_state :=
  if TriggerFunc params then
    inr {| trigger := false;
           lastTrigger := if decide (0 < MinInterval params) then n - MinInterval params
                          else zero_time;
           wakeupChan := false; closeChan := false; numFolds := 0; pc := WTest; inflight := 0;
           now := n; runs := []; shutdowns := 0 |}
  else inl (EMsg "trigger function is nil").

(** Whether and how long to wait. *)
Definition needsDelay t : bool * Z :=
  if decide (MinInterval params = 0) then (false, 0)
  else
    let sleepTime := now t - (lastTrigger t + MinInterval params) in
    (bool_decide (sleepTime < 0), sleepTime * -1).

(** The two halves of Trigger. *)
Definition set_flag t : trigger_state :=
  {| trigger := true; lastTrigger := lastTrigger t; wakeupChan := wakeupChan t;
     closeChan := closeChan t; numFolds := wrap64 (numFolds t + 1); pc := pc t;
     inflight := S (inflight t); now := now t; runs := runs t; shutdowns := shutdowns t |}.
Definition wake_up t : trigger_state :=
  {| trigger := trigger t; lastTrigger := lastTrigger t; wakeupChan := true;
     closeChan := closeChan t; numFolds := numFolds t; pc := pc t;
     inflight := pred (inflight t); now := now t; runs := runs t; shutdowns := shutdowns t |}.

(** [close(t.closeChan)]; a second call panics. *)
Definition Shutdown t : outcome trigger_state :=
  if closeChan t then Panic CloseOfClosed
  else Ret {| trigger := trigger t; lastTrigger := lastTrigger t; wakeupChan := wakeupChan t;
              closeChan := true; numFolds := numFolds t; pc := pc t; inflight := inflight t;
              now := now t; runs := runs t; shutdowns := shutdowns t |}.

Definition at_pc (p : waiter) t : trigger_state :=
  {| trigger := trigger t; lastTrigger := lastTrigger t; wakeupChan := wakeupChan t;
     closeChan := closeChan t; numFolds := numFolds t; pc := p; inflight := inflight t;
     now := now t; runs := runs t; shutdowns := shutdowns t |}.

(** The critical sections of waiter. *)
Definition take_flag t : trigger_state :=
  {| trigger := false; lastTrigger := lastTrigger t; wakeupChan := wakeupChan t;
     closeChan := closeChan t; numFolds := numFolds t;
     pc := if trigger t then WDelay else WSelect; inflight := inflight t; now := now t;
     runs := runs t; shutdowns := shutdowns t |}.
Definition note_start t : trigger_state :=
  {| trigger := trigger t; lastTrigger := now t; wakeupChan := wakeupChan t;
     closeChan := closeChan t; numFolds := 0; pc := WCall; inflight := inflight t; now := now t;
     runs := runs t; shutdowns := shutdowns t |}.

(** The call of TriggerFunc. *)
Definition call_func t : trigger_state :=
  {| trigger := trigger t; lastTrigger := lastTrigger t; wakeupChan := wakeupChan t;
     closeChan := closeChan t; numFolds := numFolds t; pc := WRun; inflight := inflight t;
     now := now t; runs := (lastTrigger t, now t) :: runs t; shutdowns := shutdowns t |}.

Definition receive t : trigger_state :=
  {| trigger := trigger t; lastTrigger := lastTrigger t; wakeupChan := false;
     closeChan := closeChan t; numFolds := numFolds t; pc := WTest; inflight := inflight t;
     now := now t; runs := runs t; shutdowns := shutdowns t |}.

(** The call of ShutdownFunc, unless it is nil, and the return. *)
Definition finish t : trigger_state :=
  {| trigger := trigger t; lastTrigger := lastTrigger t; wakeupChan := wakeupChan t;
     closeChan := closeChan t; numFolds := numFolds t; pc := WExit; inflight := inflight t;
     now := now t; runs := runs t;
     shutdowns := if ShutdownFunc params then S (shutdowns t) else shutdowns t |}.

Definition tick (d : Z) t : trigger_state :=
  {| trigger := trigger t; lastTrigger := lastTrigger t; wakeupChan := wakeupChan t;
     closeChan := closeChan t; numFolds := numFolds t; pc := pc t; inflight := inflight t;
     now := now t + d; runs := runs t; shutdowns := shutdowns t |}.

Inductive step : trigger_state → trigger_state → Prop :=
  | call_trigger t : step t (set_flag t)
  | call_wakes t : (0 < inflight t)%nat → step t (wake_up t)
  | call_shutdown t t' : Shutdown t = Ret t' → step t t'
  | clock t d : 0 ≤ d → step t (tick d t)
  | waiter_test t : pc t = WTest → step t (take_flag t)
  | waiter_delay t : pc t = WDelay →
      step t (at_pc (let '(needed, d) := needsDelay t in
                     if needed then WSleep (now t + d) else WStart) t)
  | waiter_sleep t u : pc t = WSleep u → u ≤ now t → step t (at_pc WStart t)
  | waiter_start t : pc t = WStart → step t (note_start t)
  | waiter_call t : pc t = WCall → step t (call_func t)
  | waiter_run t : pc t = WRun → step t (at_pc WSelect t)
  | waiter_wakes t : pc t = WSelect → wakeupChan t = true → step t (receive t)
  | waiter_exit t : pc t = WSelect → closeChan t = true → step t (at_pc WShutdown t)
  | waiter_shutdown t : pc t = WShutdown → step t (finish t).

(** ** The invariant *)

(** Of the calls [l], the last one first: each is made after its time was
    noted, and that is at least [MinInterval] after the time that was noted
    for the call before, and not before that call. *)
Fixpoint spaced (l : list (Z * Z)) : Prop :=
  match l with
  | [] => True
  | (a, i) :: l =>
      a ≤ i ∧ match l with [] => True | (b, j) :: _ => b + MinInterval params ≤ a ∧ j ≤ a end ∧
      spaced l
  end.

(** The goroutine has taken a flag and not noted the start yet. *)
Definition committed (p : waiter) : Prop :=
  match p with WDelay | WSleep _ | WStart => True | _ => False end.

(** The interval has passed when the start is noted, and will have after the
    sleep; nothing was called since it was noted. *)
Definition due t : Prop :=
  match pc t with
  | WSleep u => u = lastTrigger t + MinInterval params
  | WStart => MinInterval params ≠ 0 → lastTrigger t + MinInterval params ≤ now t
  | _ => True
  end.

Record invariant t : Prop := {
  inv_flag : trigger t = true →
    wakeupChan t = true ∨ (0 < inflight t)%nat ∨ pc t = WTest ∨ pc t = WShutdown ∨ pc t = WExit;
  inv_folds : numFolds t ≠ 0 → trigger t = true ∨ committed (pc t);
  inv_noted : pc t = WCall → lastTrigger t ≤ now t ∧
    match runs t with
    | [] => True
    | (b, j) :: _ => b + MinInterval params ≤ lastTrigger t ∧ j ≤ lastTrigger t
    end;
  inv_last : pc t ≠ WCall → ∀ b j l, runs t = (b, j) :: l → b = lastTrigger t;
  inv_past : ∀ b j l, runs t = (b, j) :: l → b ≤ now t ∧ j ≤ now t;
  inv_due : due t;
  inv_spaced : spaced (runs t);
  inv_closed : pc t = WShutdown ∨ pc t = WExit → closeChan t = true;
  inv_shutdowns : shutdowns t =
    match pc t with WExit => if ShutdownFunc params then 1%nat else 0%nat | _ => 0%nat end
}.

Lemma trigger_new_invariant n z t : NewTrigger n z = inr t → invariant t.
Proof. unfold NewTrigger. destruct (TriggerFunc params); [|done]. intros [= <-]. split; naive_solver. Qed.

(** A goal of the invariant that the hypotheses give by cases. *)
Ltac by_cases := first [assumption | intros _; assumption | idtac]; intros; simplify_eq/=; try done; intuition (congruence || lia).

Lemma trigger_step_invariant t t' : step t t' → invariant t → invariant t'.
Proof.
  intros Hs [Hf Hn Hnt Hl Hpa Hd Hsp Hc Hsh].
  destruct Hs as
    [t|t Hi|t t' Hsd|t d Hd0|t Hp|t Hp|t u Hp Hu|t Hp|t Hp|t Hp|t Hp Hw|t Hp Hcl|t Hp].
  - split; simpl; auto with lia.
  - split; simpl; auto.
  - unfold Shutdown in Hsd. destruct (closeChan t); simplify_eq. by split.
  - split; simpl; try done.
    + intros [? Hr]%Hnt. split; [lia|done].
    + intros b j l Hr. destruct (Hpa b j l Hr). lia.
    + unfold due in *; simpl. destruct (pc t); try done. intros ?%Hd. lia.
  - assert (Hl' := Hl ltac:(congruence)). rewrite Hp in *. unfold committed.
    split; unfold due; simpl; try done; destruct (trigger t); by_cases.
  - assert (Hl' := Hl ltac:(congruence)). rewrite Hp in *. unfold needsDelay.
    destruct (decide (MinInterval params = 0)); [|case_bool_decide];
      split; unfold due, committed; simpl; by_cases.
  - unfold due in Hd. assert (Hl' := Hl ltac:(congruence)). rewrite Hp in *.
    split; unfold due, committed; simpl; by_cases.
  - unfold due in Hd. assert (Hl' := Hl ltac:(congruence)). rewrite Hp in *.
    split; unfold due, committed; simpl; try done; [by_cases| |by_cases].
    intros _. split; [lia|]. destruct (runs t) as [|[b j] l] eqn:Hr; [done|].
    pose proof (Hl' b j l eq_refl) as ->. destruct (Hpa _ j l eq_refl).
    destruct (decide (MinInterval params = 0)); [lia|]. specialize (Hd ltac:(done)). lia.
  - destruct (Hnt Hp) as [Hle Hr]. rewrite Hp in *.
    split; unfold due, committed; simpl; try done; by_cases.
  - assert (Hl' := Hl ltac:(congruence)). rewrite Hp in *.
    split; unfold due, committed; simpl; by_cases.
  - assert (Hl' := Hl ltac:(congruence)). rewrite Hp in *.
    split; unfold due, committed; simpl; by_cases.
  - assert (Hl' := Hl ltac:(congruence)). rewrite Hp in *.
    split; unfold due, committed; simpl; by_cases.
  - assert (Hl' := Hl ltac:(congruence)). rewrite Hp in *.
    split; unfold due, committed; simpl; try by_cases.
    rewrite Hsh. by destruct (ShutdownFunc params).
Qed.

Lemma trigger_reachable_invariant n z t0 t :
  NewTrigger n z = inr t0 → rtc step t0 t → invariant t.
Proof.
  intros Hnew. revert t. apply rtc_ind_r; [by eapply trigger_new_invariant|].
  intros t t' _ Hs IH. by eapply trigger_step_invariant.
Qed.

(** Once the goroutine has returned, nothing is called any more. *)
Lemma exited_stays t t' :
  rtc step t t' → pc t = WExit →
  pc t' = WExit ∧ runs t' = runs t ∧ shutdowns t' = shutdowns t.
Proof.
  induction 1 as [|t1 t2 t3 Hs _ IH]; intros Hp; [done|].
  assert (pc t2 = WExit ∧ runs t2 = runs t1 ∧ shutdowns t2 = shutdowns t1) as (Hp2 & Hr & Hc).
  { destruct Hs as [| |t t' Hsd| | | | | | | | | |]; simplify_eq/=; try congruence; try done.
    unfold Shutdown in Hsd. destruct (closeChan t); by simplify_eq. }
  destruct (IH Hp2) as (? & ? & ?). split_and!; congruence.
Qed.

(** Two calls at the same time: the first one is late by the whole interval
    after its time was noted. *)
Lemma calls_together n z t0 :
  NewTrigger n z = inr t0 → 0 < MinInterval params →
  ∃ t a b i, rtc step t0 t ∧ runs t = [(a, i); (b, i)].
Proof.
  intros Hnew Hm. unfold NewTrigger in Hnew. destruct (TriggerFunc params); simplify_eq.
  rewrite decide_True by done. eexists _, (n + MinInterval params), n, (n + MinInterval params).
  split.
  - eapply rtc_l; [apply call_trigger|]. eapply rtc_l; [apply call_wakes; simpl; lia|].
    eapply rtc_l; [by apply waiter_test|]. eapply rtc_l; [by apply waiter_delay|].
    unfold needsDelay; simpl. rewrite decide_False, bool_decide_false by lia.
    eapply rtc_l; [by apply waiter_start|].
    eapply rtc_l; [apply (clock _ (MinInterval params)); lia|].
    eapply rtc_l; [by apply waiter_call|]. eapply rtc_l; [by apply waiter_run|].
    eapply rtc_l; [apply call_trigger|]. eapply rtc_l; [by apply waiter_wakes|].
    eapply rtc_l; [by apply waiter_test|]. eapply rtc_l; [by apply waiter_delay|].
    unfold needsDelay; simpl. rewrite decide_False, bool_decide_false by lia.
    eapply rtc_l; [by apply waiter_start|]. eapply rtc_l; [by apply waiter_call|].
    apply rtc_refl.
  - done.
Qed.

(** C32. No trigger is lost: when the goroutine waits for a message, none is
    there and no call of Trigger is under way, the flag is down and no fold is
    counted, so TriggerFunc was called after the last Trigger.  The calls of
    TriggerFunc follow one another, each after its time was noted, and the
    times that are noted are at least [MinInterval] apart; the calls themselves
    are not: two can come together, however long the interval.  ShutdownFunc,
    if there is one, is called once, after Shutdown, and nothing is called
    after it. *)
Theorem trigger_served n z t0 t :
  NewTrigger n z = inr t0 → rtc step t0 t →
  (pc t = WSelect → wakeupChan t = false → inflight t = 0%nat →
   trigger t = false ∧ numFolds t = 0) ∧
  spaced (runs t) ∧
  (0 < MinInterval params → ∃ t' a b i, rtc step t0 t' ∧ runs t' = [(a, i); (b, i)]) ∧
  (pc t ≠ WExit → shutdowns t = 0%nat) ∧
  (pc t = WExit → closeChan t = true ∧ shutdowns t = (if ShutdownFunc params then 1 else 0)%nat ∧
     ∀ t', rtc step t t' → pc t' = WExit ∧ runs t' = runs t ∧ shutdowns t' = shutdowns t).
Proof.
  intros Hnew Ht. destruct (trigger_reachable_invariant n z t0 t Hnew Ht)
    as [Hf Hn _ _ _ _ Hsp Hc Hsh].
  split_and!; [|done|by eapply calls_together| |].
  - intros Hp Hw Hi. assert (trigger t = false) as Hfl.
    { apply not_true_is_false. intros [?|[?|[?|[?|?]]]]%Hf; [congruence|lia|congruence..]. }
    split; [done|]. destruct (decide (numFolds t = 0)); [done|].
    destruct Hn as [?|Hcm]; [done|congruence|]. by rewrite Hp in Hcm.
  - intros Hp. rewrite Hsh. by destruct (pc t).
  - intros Hp. split_and!; [by apply Hc; right|by rewrite Hsh, Hp|].
    intros t' Hr. by apply exited_stays.
Qed.
End trigger.
End Trigger.
