(* ===== verification/Allocate.v ===== *)
(** * Allocate: the identifiers of pkg/util/allocate.go

    [Get] holds the mutex for its whole body.  Keys are 64-bit unsigned,
    values 64-bit signed; the counter wraps. *)
From S2P Require Import Prelude.
Open Scope Z_scope.

Record Allocat := { vals : gmap Z Z; intv : Z }.

Definition NewAllocat : Allocat := {| vals := ∅; intv := 0 |}.

Definition uint64 (k : Z) : Prop := 0 ≤ k < 2 ^ 64.

Module Allocate.

Definition Get (k : Z) (a : Allocat) : Z * Allocat :=
  match vals a !! k with
  | Some v => (v, a)
  | None =>
      let n := wrap64 (intv a + 1) in (n, {| vals := <[k := n]> (vals a); intv := n |})
  end.

(** A sequence of calls. *)
Fixpoint Gets (ks : list Z) (a : Allocat) : list Z * Allocat :=
  match ks with
  | [] => ([], a)
  | k :: ks =>
      let '(v, a) := Get k a in let '(vs, a) := Gets ks a in (v :: vs, a)
  end.

(** ** Wrapping at 64 bits *)

Lemma wrap64_period z : wrap64 (z + 2 ^ 64) = wrap64 z.
Proof.
  unfold wrap64. f_equal. rewrite <- (Z_mod_plus_full (z + 2 ^ 63) 1). f_equal. lia.
Qed.

Lemma wrap64_inj a b : wrap64 a = wrap64 b → - 2 ^ 64 < a - b < 2 ^ 64 → a = b.
Proof.
  unfold wrap64. intros H Hab.
  pose proof (Z_div_mod_eq_full (a + 2 ^ 63) (2 ^ 64)) as Ha.
  pose proof (Z_div_mod_eq_full (b + 2 ^ 63) (2 ^ 64)) as Hb.
  set (qa := (a + 2 ^ 63) `div` 2 ^ 64) in *. set (qb := (b + 2 ^ 63) `div` 2 ^ 64) in *. lia.
Qed.

(** ** The invariant *)

Record invariant (a : Allocat) : Prop := {
  inv_keys : ∀ k v, vals a !! k = Some v → uint64 k;
  inv_intv : intv a = wrap64 (Z.of_nat (size (vals a)));
  inv_vals : ∀ k v, vals a !! k = Some v →
    ∃ j, 1 ≤ j ≤ Z.of_nat (size (vals a)) ∧ v = wrap64 j;
  inv_inj : ∀ k1 k2 v, vals a !! k1 = Some v → vals a !! k2 = Some v → k1 = k2
}.

Lemma allocat_new_invariant : invariant NewAllocat.
Proof. split; simpl; [intros ??; by rewrite lookup_empty|done|intros ??..]; by rewrite lookup_empty. Qed.

(** There are not more keys than 64-bit numbers. *)
Lemma few_keys (m : gmap Z Z) n :
  0 ≤ n → (∀ k v, m !! k = Some v → 0 ≤ k < n) → Z.of_nat (size m) ≤ n.
Proof.
  intros Hn Hm. rewrite <- (size_dom (D:=gset Z)).
  assert (dom m ⊆ (list_to_set (seqZ 0 n) : gset Z)) as Hsub.
  { intros k [v Hk]%elem_of_dom. apply elem_of_list_to_set, elem_of_seqZ. apply Hm in Hk. lia. }
  apply subseteq_size in Hsub.
  rewrite size_list_to_set, length_seqZ in Hsub by apply NoDup_seqZ. lia.
Qed.

Lemma few_new_keys a k :
  invariant a → uint64 k → vals a !! k = None → Z.of_nat (size (vals a)) + 1 ≤ 2 ^ 64.
Proof.
  intros [Hk _ _ _] Hu Hn.
  assert (Z.of_nat (size (<[k := 0]> (vals a))) ≤ 2 ^ 64) as Hs.
  { apply few_keys; [lia|]. intros k' v [[<- _]|[_ Hv]]%lookup_insert_Some; [done|].
    by eapply Hk. }
  rewrite map_size_insert_None in Hs by done. lia.
Qed.

Lemma Get_invariant k a :
  invariant a → uint64 k →
  invariant (Get k a).2 ∧ vals (Get k a).2 !! k = Some (Get k a).1 ∧ vals a ⊆ vals (Get k a).2.
Proof.
  intros Hinv Hu. unfold Get. destruct (vals a !! k) as [v|] eqn:Hk; [done|]. simpl.
  pose proof (few_new_keys a k Hinv Hu Hk) as Hsize. destruct Hinv as [Hkeys Hi Hv Hinj].
  rewrite Hi, wrap64_add_l. set (s := Z.of_nat (size (vals a))) in *.
  assert (∀ k' v, vals a !! k' = Some v → v ≠ wrap64 (s + 1)) as Hnew.
  { intros k' v (j & Hj & ->)%Hv Heq. apply wrap64_inj in Heq; lia. }
  split_and!; [split; simpl|by rewrite lookup_insert_eq|by apply insert_subseteq].
  - intros k' v [[<- _]|[_ H]]%lookup_insert_Some; [done|by eapply Hkeys].
  - rewrite map_size_insert_None by done. f_equal. lia.
  - rewrite map_size_insert_None by done. intros k' v [[<- <-]|[_ H]]%lookup_insert_Some.
    + exists (s + 1). split; [lia|done].
    + destruct (Hv _ _ H) as (j & ? & ->). exists j. split; [lia|done].
  - intros k1 k2 v. rewrite !lookup_insert_Some.
    intros [[<- <-]|[? H1]] [[<- Heq]|[? H2]]; [done| | |by eapply Hinj].
    + by apply Hnew in H2.
    + subst v. by apply Hnew in H1.
Qed.

Lemma Gets_run ks a :
  invariant a → Forall uint64 ks →
  invariant (Gets ks a).2 ∧ vals a ⊆ vals (Gets ks a).2 ∧
  ∀ i k v, ks !! i = Some k → (Gets ks a).1 !! i = Some v → vals (Gets ks a).2 !! k = Some v.
Proof.
  revert a. induction ks as [|k ks IH]; intros a Hinv Hks; [done|].
  apply Forall_cons in Hks as [Hk Hks]. simpl.
  destruct (Get_invariant k a Hinv Hk) as (H1 & H2 & H3).
  destruct (Get k a) as [v a1]. simpl in *. destruct (IH a1 H1 Hks) as (H4 & H5 & H6).
  destruct (Gets ks a1) as [vs a2]. simpl in *. split_and!; [done|by etrans|].
  intros [|i] k' v' Hk' Hv'; simplify_eq/=; [by eapply lookup_weaken|by eapply H6].
Qed.

(** C34. Identifiers name keys: in any sequence of calls equal keys get equal
    identifiers and different keys get different ones, even past the
    wrap-around of the counter, as there are not more keys than identifiers. *)
Theorem Get_identifies ks i j ki kj vi vj :
  Forall uint64 ks → ks !! i = Some ki → ks !! j = Some kj →
  (Gets ks NewAllocat).1 !! i = Some vi → (Gets ks NewAllocat).1 !! j = Some vj →
  int64_range vi ∧ (vi = vj ↔ ki = kj).
Proof.
  intros Hks Hi Hj Hvi Hvj. destruct (Gets_run ks _ allocat_new_invariant Hks) as ([_ _ Hv Hinj] & _ & Hget).
  pose proof (Hget _ _ _ Hi Hvi) as H1. pose proof (Hget _ _ _ Hj Hvj) as H2. split.
  - destruct (Hv _ _ H1) as (n & _ & ->). apply wrap64_range.
  - split; [intros ->; by eapply Hinj|intros ->; congruence].
Qed.
End Allocate.
