(* ===== verification/Lockfile.v ===== *)
(** * Lockfile: the file lock of pkg/lock/lockfile/lockfile_linux.go

    A [Lockfile] wraps an open file.  A call of [flock] with a context that can be cancelled runs the system
    call in a goroutine of its own, and leaves a second goroutine to drop the
    lock when the context ends first.  The calls on one [Lockfile] and the other
    users of the file are interleaved.  The kernel's per-descriptor locks, open and
    close are an interface with their documented behaviour. *)
From S2P Require Import Prelude.
Open Scope Z_scope.

(** The types of a lock: [syscall.F_RDLCK], [F_WRLCK] and [F_UNLCK]. *)
Inductive lock_type := F_RDLCK | F_WRLCK | F_UNLCK.

#[export] Instance lock_type_eq_dec : EqDecision lock_type.
Proof. solve_decision. Defined.

Definition SETLK : Z := 37.
Definition SETLKW : Z := 38.

(** [os.O_RDWR] and [os.O_CREATE], as Linux has them, and [0644]. *)
Definition O_RDWR : Z := 2.
Definition O_CREATE : Z := 64.
Definition perm_0644 : Z := 420.

(** The calls on descriptors: [fcntl] is [None] while it blocks, [open_file]
    answers the new descriptor, [opened] says which descriptors are open, and
    [Error] is the text of an error. *)
Class OfdLocks (K : Type) := {
  fcntl : Z → lock_type → Z → K → option (option error * K);
  open_file : string → Z → Z → K → (error + Z) * K;
  close_file : Z → K → option error * K;
  held : K → Z → lock_type;
  opened : K → Z → Prop;
  Error : error → string
}.

(** Another descriptor's lock that excludes the request. *)
Definition conflict `{!OfdLocks K} (k : K) (fd : Z) (ty : lock_type) : Prop :=
  ∃ fd', fd' ≠ fd ∧ (held k fd' = F_WRLCK ∨ (held k fd' = F_RDLCK ∧ ty = F_WRLCK)).

(** The other descriptors are as they were. *)
Definition others_kept `{!OfdLocks K} (fd : Z) (k k' : K) : Prop :=
  ∀ fd', fd' ≠ fd → held k' fd' = held k fd' ∧ (opened k' fd' ↔ opened k fd').

(** Open file description locks: a descriptor has one lock, which a request
    replaces; only other descriptors conflict; a descriptor is a small natural
    number; [open] gives a new one and [close] drops the lock, whatever error
    it answers. *)
Class OfdLaws (K : Type) `{!OfdLocks K} := {
  fcntl_unlock : ∀ fd cmd k, opened k fd → ∃ k', fcntl fd F_UNLCK cmd k = Some (None, k') ∧
    held k' fd = F_UNLCK ∧ others_kept fd k k';
  fcntl_granted : ∀ fd ty cmd k, opened k fd → ty ≠ F_UNLCK → ¬ conflict k fd ty →
    ∃ k', fcntl fd ty cmd k = Some (None, k') ∧ held k' fd = ty ∧ others_kept fd k k';
  fcntl_refused : ∀ fd ty k, opened k fd → ty ≠ F_UNLCK → conflict k fd ty →
    ∃ e, fcntl fd ty SETLK k = Some (Some e, k);
  fcntl_blocked : ∀ fd ty k, opened k fd → ty ≠ F_UNLCK → conflict k fd ty →
    fcntl fd ty SETLKW k = None;
  fcntl_bad : ∀ fd ty cmd k, ¬ opened k fd → ∃ e, fcntl fd ty cmd k = Some (Some e, k);
  fcntl_other : ∀ fd ty cmd k r k', fcntl fd ty cmd k = Some (r, k') →
    (r = None → held k' fd = ty) ∧ (r ≠ None → held k' fd = held k fd) ∧
    (opened k' fd ↔ opened k fd) ∧ others_kept fd k k';
  open_new : ∀ path flags perm k fd k', open_file path flags perm k = (inr fd, k') →
    ¬ opened k fd ∧ opened k' fd ∧ held k' fd = F_UNLCK ∧ others_kept fd k k';
  close_drops : ∀ fd k, opened k fd → let k' := (close_file fd k).2 in
    ¬ opened k' fd ∧ held k' fd = F_UNLCK ∧ others_kept fd k k';
  opened_small : ∀ k fd, opened k fd → 0 ≤ fd < 2 ^ 31
}.

(** A [Lockfile]: the descriptor of [l.fp], [None] for a nil file. *)
Record lockfile := { fp : option Z }.

(** The lock type and the command that [flock] uses. *)
Definition flock_request (unlock exclusive wait : bool) : lock_type * Z :=
  (if unlock then F_UNLCK else if exclusive then F_WRLCK else F_RDLCK,
   if negb unlock && wait then SETLKW else SETLK).

(** Where the three goroutines of a call are. *)
Inductive caller := InSyscall | InSelect | Returned (r : option error).
Inductive helper := NoHelper | HelperSyscall | Sent (r : option error) | Received.
Inductive cleaner := NoCleaner | AwaitLock | DropLock | CleanerDone.

Record flock_call := {
  request : lock_type * Z;
  call_main : caller;
  call_helper : helper;
  call_cleaner : cleaner
}.

Module Lockfile.

(** [l.fp.Fd()], which is [^uintptr(0)] for a nil file. *)
Definition Fd (l : lockfile) : Z := default (2 ^ 64 - 1) (fp l).

Definition NewLockfile `{!OfdLocks K} (path : string) (k : K) : (error + lockfile) * K :=
  match open_file path (Z.lor O_RDWR O_CREATE) perm_0644 k with
  | (inl err, k') => (inl (EMsg ("failed to create lockfile " +:+ path +:+ ": " +:+ Error err)), k')
  | (inr f, k') => (inr {| fp := Some f |}, k')
  end.

(** [os.ErrInvalid], which the Close of a nil file answers. *)
Definition ErrInvalid : error := EMsg "invalid argument".

Definition Close `{!OfdLocks K} (l : lockfile) (k : K) : option error * lockfile * K :=
  let f := fp l in
  let l' := {| fp := None |} in
  match f with
  | Some fd => let '(err, k') := close_file fd k in (err, l', k')
  | None => (Some ErrInvalid, l', k)
  end.

(** The call of [flock]; [done] says whether [ctx.Done()] is a channel. *)
Definition flock (done unlock exclusive wait : bool) : flock_call :=
  let rq := flock_request unlock exclusive wait in
  if done then
    {| request := rq; call_main := InSelect; call_helper := HelperSyscall;
       call_cleaner := NoCleaner |}
  else
    {| request := rq; call_main := InSyscall; call_helper := NoHelper;
       call_cleaner := NoCleaner |}.

Definition TryLock (exclusive : bool) : flock_call := flock false false exclusive false.
Definition Lock (done exclusive : bool) : flock_call := flock done false exclusive true.
Definition Unlock : flock_call := flock false true false false.

Section kernel.
Context {K : Type} `{!OfdLocks K}.
Variable fd : Z.

(** One step of the goroutines of a call. *)
Inductive call_step : K * flock_call → K * flock_call → Prop :=
  | direct_syscall k k' rq r :
      fcntl fd rq.1 rq.2 k = Some (r, k') →
      call_step
        (k, {| request := rq; call_main := InSyscall; call_helper := NoHelper;
               call_cleaner := NoCleaner |})
        (k', {| request := rq; call_main := Returned r; call_helper := NoHelper;
                call_cleaner := NoCleaner |})
  | helper_syscall k k' rq r m c :
      fcntl fd rq.1 rq.2 k = Some (r, k') →
      call_step
        (k, {| request := rq; call_main := m; call_helper := HelperSyscall; call_cleaner := c |})
        (k', {| request := rq; call_main := m; call_helper := Sent r; call_cleaner := c |})
  | select_result k rq r :
      call_step
        (k, {| request := rq; call_main := InSelect; call_helper := Sent r;
               call_cleaner := NoCleaner |})
        (k, {| request := rq; call_main := Returned r; call_helper := Received;
               call_cleaner := NoCleaner |})
  | select_cancelled k rq h ctx_err :  (* ctx.Err(): cancelled, or past its deadline *)
      call_step
        (k, {| request := rq; call_main := InSelect; call_helper := h;
               call_cleaner := NoCleaner |})
        (k, {| request := rq; call_main := Returned (Some ctx_err); call_helper := h;
               call_cleaner := AwaitLock |})
  | cleaner_receives k rq r m :
      call_step
        (k, {| request := rq; call_main := m; call_helper := Sent r;
               call_cleaner := AwaitLock |})
        (k, {| request := rq; call_main := m; call_helper := Received;
               call_cleaner := match r with None => DropLock | Some _ => CleanerDone end |})
  | cleaner_unlocks k k' rq m h r :
      fcntl fd F_UNLCK SETLK k = Some (r, k') →
      call_step
        (k, {| request := rq; call_main := m; call_helper := h; call_cleaner := DropLock |})
        (k', {| request := rq; call_main := m; call_helper := h; call_cleaner := CleanerDone |}).

(** The kernel with the calls made on the file so far; other descriptors lock
    and unlock on their own. *)
Inductive step : K * list flock_call → K * list flock_call → Prop :=
  | step_call k k' cs i c c' :
      cs !! i = Some c → call_step (k, c) (k', c') → step (k, cs) (k', <[i := c']> cs)
  | step_new k cs done unlock exclusive wait :
      step (k, cs) (k, cs ++ [flock done unlock exclusive wait])
  | step_other k k' cs fd' ty cmd r :
      fd' ≠ fd → fcntl fd' ty cmd k = Some (r, k') → step (k, cs) (k', cs).

(** ** One call at a time *)

(** What the descriptor holds while one call to lock is under way; [None] for
    what cannot be. *)
Definition expected (ty : lock_type) (c : flock_call) : option lock_type :=
  let of_result (r : option error) := Some (match r with None => ty | Some _ => F_UNLCK end) in
  match call_main c, call_helper c, call_cleaner c with
  | InSyscall, NoHelper, NoCleaner => Some F_UNLCK
  | InSelect, HelperSyscall, NoCleaner => Some F_UNLCK
  | InSelect, Sent r, NoCleaner => of_result r
  | Returned r, NoHelper, NoCleaner | Returned r, Received, NoCleaner => of_result r
  | Returned (Some _), HelperSyscall, AwaitLock => Some F_UNLCK
  | Returned (Some _), Sent r, AwaitLock => of_result r
  | Returned (Some _), Received, DropLock => Some ty
  | Returned (Some _), Received, CleanerDone => Some F_UNLCK
  | _, _, _ => None
  end.

(** The call, and the other users of the file. *)
Inductive alone_step : K * flock_call → K * flock_call → Prop :=
  | alone_call k c k' c' : call_step (k, c) (k', c') → alone_step (k, c) (k', c')
  | alone_other k k' c fd' ty cmd r :
      fd' ≠ fd → fcntl fd' ty cmd k = Some (r, k') → alone_step (k, c) (k', c).

Definition invariant (rq : lock_type * Z) (x : K * flock_call) : Prop :=
  opened x.1 fd ∧ request x.2 = rq ∧ expected rq.1 x.2 = Some (held x.1 fd).

(** No goroutine of the call has a granted request. *)
Definition all_failed (x : K * flock_call) : Prop :=
  ¬ opened x.1 fd ∧ call_main x.2 ≠ Returned None ∧ call_helper x.2 ≠ Sent None.

Context `{!OfdLaws K}.

(** The lock of a descriptor after its own [fcntl]. *)
Lemma fcntl_held ty cmd k r k' :
  fcntl fd ty cmd k = Some (r, k') →
  held k' fd = match r with None => ty | Some _ => held k fd end.
Proof. intros (H1 & H2 & _)%fcntl_other. destruct r; [by apply H2|by apply H1]. Qed.

Lemma fcntl_unlock_held k r k' :
  opened k fd → fcntl fd F_UNLCK SETLK k = Some (r, k') → held k' fd = F_UNLCK.
Proof.
  intros Ho. destruct (fcntl_unlock fd SETLK k Ho) as (k1 & -> & H & _). by intros [= <- <-].
Qed.

Lemma fcntl_opened fd1 ty cmd k r k' :
  fcntl fd1 ty cmd k = Some (r, k') → opened k' fd ↔ opened k fd.
Proof.
  intros (_ & _ & Ho & Hk)%fcntl_other. destruct (decide (fd = fd1)) as [->|]; [done|by apply Hk].
Qed.

Lemma alone_opened x x' : alone_step x x' → opened x'.1 fd ↔ opened x.1 fd.
Proof.
  destruct 1 as [k c k' c' Hs|k k' c fd' ty cmd r Hfd Hf]; simpl; [|by eapply fcntl_opened].
  inversion Hs; subst; try done; by eapply fcntl_opened.
Qed.

Lemma alone_invariant rq x x' : alone_step x x' → invariant rq x → invariant rq x'.
Proof.
  intros Hst (Ho & Hrq & He).
  split; [by apply (alone_opened _ _ Hst)|]. revert Ho Hrq He.
  destruct Hst as [k c k' c' Hs|k k' c fd' ty cmd r Hfd Hf]; simpl.
  - inversion Hs; subst; simpl; intros Ho -> He; (split; [done|]);
      repeat match goal with
      | H : fcntl fd F_UNLCK SETLK _ = Some _ |- _ => apply (fcntl_unlock_held _ _ _ Ho) in H as ->
      | H : fcntl fd _ _ _ = Some _ |- _ => apply fcntl_held in H as ->
      end; unfold expected in *; simpl in *; repeat case_match; simplify_eq; congruence.
  - intros _ -> He. split; [done|].
    destruct (fcntl_other fd' ty cmd k r k' Hf) as (_ & _ & _ & Hk). by destruct (Hk fd ltac:(done)) as [-> _].
Qed.

(** A request on a descriptor that is not open fails. *)
Lemma alone_all_failed x x' : alone_step x x' → all_failed x → all_failed x'.
Proof.
  intros Hst (Ho & Hm & Hh).
  split; [by rewrite (alone_opened _ _ Hst)|]. revert Ho Hm Hh.
  destruct Hst as [k c k' c' Hs|k k' c fd' ty cmd r Hfd Hf]; simpl; [|done].
  inversion Hs; subst; simpl; intros Ho Hm Hh; try naive_solver;
    match goal with
    | H : fcntl fd ?ty ?cmd _ = Some _ |- _ =>
        destruct (fcntl_bad fd ty cmd _ Ho) as [e He]; rewrite He in H; naive_solver
    end.
Qed.

(** The call has returned and its goroutines have ended. *)
Definition at_rest (c : flock_call) : Prop :=
  (call_helper c = NoHelper ∨ call_helper c = Received) ∧
  (call_cleaner c = NoCleaner ∨ call_cleaner c = CleanerDone).

Lemma call_settles done exclusive wait k0 k c r :
  opened k0 fd → held k0 fd = F_UNLCK →
  rtc alone_step (k0, flock done false exclusive wait) (k, c) →
  call_main c = Returned r → at_rest c →
  held k fd = match r with None => if exclusive then F_WRLCK else F_RDLCK | Some _ => F_UNLCK end.
Proof.
  intros Ho H0 Hs Hr [Hh Hc].
  set (rq := flock_request false exclusive wait).
  assert (invariant rq (k, c)) as (_ & _ & He).
  { assert (∀ x, rtc alone_step (k0, flock done false exclusive wait) x → invariant rq x) as Hinv;
      [|by apply Hinv].
    apply rtc_ind_r; [|intros ?? _ Hst; by apply alone_invariant].
    destruct done; split_and!; simpl; by rewrite ?H0. }
  unfold expected in He. simpl in He. rewrite Hr in He.
  destruct (call_helper c), (call_cleaner c), r; naive_solver.
Qed.

Lemma closed_fails done unlock exclusive wait k0 k c :
  ¬ opened k0 fd → rtc alone_step (k0, flock done unlock exclusive wait) (k, c) →
  call_main c ≠ Returned None.
Proof.
  intros Ho Hs.
  assert (∀ x, rtc alone_step (k0, flock done unlock exclusive wait) x → all_failed x) as H.
  { apply rtc_ind_r; [|intros ?? _ Hst; by apply alone_all_failed].
    destruct done; by split_and!. }
  by apply (H _ Hs).
Qed.

(** ** Two calls at a time *)

Lemma no_conflict k ty : (∀ fd', fd' ≠ fd → held k fd' = F_UNLCK) → ¬ conflict k fd ty.
Proof. intros H (fd' & Hne & Hc). rewrite (H fd' Hne) in Hc. naive_solver. Qed.

(** A cancelled Lock leaves a goroutine that drops the lock of a later one. *)
Lemma stolen_lock k0 ctx_err :
  opened k0 fd → (∀ fd', held k0 fd' = F_UNLCK) →
  ∃ k c1 c2, rtc step (k0, []) (k, [c1; c2]) ∧
    request c1 = (F_WRLCK, SETLKW) ∧ call_main c1 = Returned (Some ctx_err) ∧
    request c2 = (F_WRLCK, SETLKW) ∧ call_main c2 = Returned None ∧
    opened k fd ∧ held k fd = F_UNLCK.
Proof.
  intros Ho H0.
  destruct (fcntl_granted fd F_WRLCK SETLKW k0) as (k1 & E1 & _ & O1);
    [done|done|by apply no_conflict|].
  pose proof (fcntl_opened _ _ _ _ _ _ E1) as Ho1.
  destruct (fcntl_granted fd F_WRLCK SETLKW k1) as (k2 & E2 & _ & O2);
    [tauto|done|apply no_conflict; intros; by rewrite (proj1 (O1 _ ltac:(done)))|].
  pose proof (fcntl_opened _ _ _ _ _ _ E2) as Ho2.
  destruct (fcntl_unlock fd SETLK k2) as (k3 & E3 & H3 & _); [tauto|].
  pose proof (fcntl_opened _ _ _ _ _ _ E3) as Ho3.
  eexists k3, _, _. split_and!; cycle -2; [tauto|done|..].
  { eapply rtc_l; [apply (step_new k0 [] true false true true)|].
    eapply rtc_l; [eapply (step_call _ _ _ 0%nat); [done|apply select_cancelled]|].
    eapply rtc_l; [apply (step_new _ _ false false true true)|]. simpl.
    eapply rtc_l; [eapply (step_call _ _ _ 1%nat); [done|by apply direct_syscall]|]. simpl.
    eapply rtc_l; [eapply (step_call _ _ _ 0%nat); [done|by apply helper_syscall]|]. simpl.
    eapply rtc_l; [eapply (step_call _ _ _ 0%nat); [done|apply cleaner_receives]|]. simpl.
    eapply rtc_l; [eapply (step_call _ _ _ 0%nat); [done|by eapply cleaner_unlocks]|]. simpl.
    apply rtc_refl. }
  all: done.
Qed.

End kernel.

(** ** The life of a lock file *)

Section life.
Context {K : Type} `{!OfdLocks K} `{!OfdLaws K}.

Lemma NewLockfile_opens path k l k0 :
  NewLockfile path k = (inr l, k0) →
  ¬ opened k (Fd l) ∧ opened k0 (Fd l) ∧ held k0 (Fd l) = F_UNLCK ∧ others_kept (Fd l) k k0.
Proof.
  unfold NewLockfile. destruct (open_file _ _ _ k) as [[e|f] k'] eqn:E; [done|].
  intros [= <- <-]. by apply open_new in E.
Qed.

Lemma nil_not_opened k : ¬ opened k (Fd {| fp := None |}).
Proof. intros H%opened_small. unfold Fd in H. simpl in H. lia. Qed.

(** Close of an open file drops the lock, and leaves a file that answers
    errors. *)
Lemma Close_spec l k :
  opened k (Fd l) →
  ∃ err k', Close l k = (err, {| fp := None |}, k') ∧
    ¬ opened k' (Fd l) ∧ held k' (Fd l) = F_UNLCK ∧ others_kept (Fd l) k k'.
Proof.
  destruct l as [[f|]]; unfold Close; simpl; [|by intros ?%nil_not_opened].
  intros Ho. pose proof (close_drops f k Ho) as H. destruct (close_file f k) as [err k']. eauto.
Qed.

(** C33. A new Lockfile holds no lock.  A call to lock used alone settles: once it
    has returned and its goroutines have ended, the descriptor holds the lock
    that was asked for if the call succeeded and none if it failed or was
    cancelled.  But two calls on one Lockfile interfere: after a cancelled Lock,
    a second Lock can return successfully and lose its lock to the first one's
    clean-up.  Close drops the lock, whatever error it answers, and touches no
    other descriptor; from then on every call, Unlock and Close too, fails. *)
Theorem flock_cancellation path k l k0 :
  NewLockfile path k = (inr l, k0) →
  let fd := Fd l in
  held k0 fd = F_UNLCK ∧
  (∀ done exclusive wait k1 c r,
     rtc (alone_step fd) (k0, flock done false exclusive wait) (k1, c) →
     call_main c = Returned r → at_rest c →
     held k1 fd =
       match r with None => if exclusive then F_WRLCK else F_RDLCK | Some _ => F_UNLCK end) ∧
  ((∀ fd', held k fd' = F_UNLCK) →
   ∀ ctx_err, ∃ k1 c1 c2, rtc (step fd) (k0, []) (k1, [c1; c2]) ∧
     request c1 = (F_WRLCK, SETLKW) ∧ call_main c1 = Returned (Some ctx_err) ∧
     request c2 = (F_WRLCK, SETLKW) ∧ call_main c2 = Returned None ∧ held k1 fd = F_UNLCK) ∧
  (∀ k1, opened k1 fd →
   ∃ err l' k2, Close l k1 = (err, l', k2) ∧ held k2 fd = F_UNLCK ∧ others_kept fd k1 k2 ∧
     Close l' k2 = (Some ErrInvalid, l', k2) ∧
     ∀ done unlock exclusive wait k3 c r,
       rtc (alone_step (Fd l')) (k2, flock done unlock exclusive wait) (k3, c) →
       call_main c = Returned r → r ≠ None).
Proof.
  intros (Hn & Ho & Hh & Hk)%NewLockfile_opens. simpl. split_and!; [done|..].
  - intros. by eapply call_settles.
  - intros H0 ctx_err. destruct (stolen_lock (Fd l) k0 ctx_err) as (k1 & c1 & c2 & H); [done| |].
    + intros fd'. destruct (decide (fd' = Fd l)) as [->|]; [done|].
      by rewrite (proj1 (Hk _ ltac:(done))).
    + exists k1, c1, c2. naive_solver.
  - intros k1 Ho1. destruct (Close_spec l k1 Ho1) as (err & k2 & -> & _ & H2 & H3).
    exists err, {| fp := None |}, k2. split_and!; [done..|].
    intros done unlock exclusive wait k3 c r Hs Hr ->.
    by eapply (closed_fails _ _ _ _ _ _ _ _ (nil_not_opened k2) Hs).
Qed.
End life.
End Lockfile.
