(* ===== verification/LockDebug.v ===== *)
(** * LockDebug: mutexes that report long critical sections

    Models pkg/lock/lock_debug.go, the wrappers that are built with the tag
    lockdebug (the others only forward): a lock remembers when it was taken,
    and releasing it after a tenth of a second or more prints the stack of the
    goroutine with its number before every line.  The wrapped mutexes of
    go-deadlock and [debug.Stack] are an interface. *)
From S2P Require Import Prelude.

Module LockDebug.
Notation bytes := (list Byte.byte).

#[local] Instance byte_eq_decision : EqDecision Byte.byte := Byte.byte_eq_dec.

Definition newline : Byte.byte := Byte.x0a.
Definition bracket : Byte.byte := Byte.x5b.  (* [ *)

(** The bytes of "goroutine", and of "0". *)
Definition goroutine : bytes :=
  [Byte.x67; Byte.x6f; Byte.x72; Byte.x6f; Byte.x75; Byte.x74; Byte.x69; Byte.x6e; Byte.x65].
Definition zero_digit : bytes := [Byte.x30].

(** A slice of bytes: its elements, and what its array holds up to its
    capacity. *)
Record slice := { elems : bytes; spare : bytes }.

(** [s[low:high]]: the bounds are those of the capacity. *)
Definition reslice (s : slice) (low high : Z) : outcome slice :=
  let all := elems s ++ spare s in
  if decide (0 ≤ low ≤ high ∧ high ≤ Z.of_nat (length all))%Z then
    Ret {| elems := take (Z.to_nat (high - low)) (drop (Z.to_nat low) all);
           spare := drop (Z.to_nat high) all |}
  else Panic IndexOutOfRange.

(** [bytes.Count] of a single byte, [bytes.IndexRune] of an ASCII rune, and
    [bytes.Replace] of a single byte: a negative [n] replaces all. *)
Definition count (b : Byte.byte) (s : bytes) : Z := Z.of_nat (length (filter (λ x, x = b) s)).

Fixpoint index_from (b : Byte.byte) (s : bytes) (i : Z) : Z :=
  match s with
  | [] => -1
  | x :: s => if decide (x = b) then i else index_from b s (i + 1)
  end.
Definition IndexRune (s : bytes) (b : Byte.byte) : Z := index_from b s 0.

Fixpoint Replace (s : bytes) (old : Byte.byte) (new : bytes) (n : Z) : bytes :=
  match s with
  | [] => []
  | x :: s => if decide (x = old ∧ n ≠ 0%Z) then new ++ Replace s old new (n - 1)
              else x :: Replace s old new n
  end.

(** The goroutine field of the log line, and what is written. *)
Definition printStackTo (stack : slice) : outcome (bytes * bytes) :=
  out_bind (reslice stack 0 (Z.of_nat (length goroutine))) (λ head,
  out_bind
    (if decide (goroutine = elems head) then
       let newLines := count newline (elems stack) in
       let goroutineLine := IndexRune (elems stack) bracket in
       out_bind (reslice stack 0 goroutineLine) (λ number, Ret (number, newLines))
     else Ret ({| elems := zero_digit; spare := [] |}, 0%Z)) (λ nl,
  let '(goRoutineNumber, newLines) := nl in
  out_bind (reslice goRoutineNumber (Z.of_nat (length goroutine))
              (Z.of_nat (length (elems goRoutineNumber)) - 1)) (λ field,
  Ret (elems field,
       Replace (elems stack) newline (newline :: elems goRoutineNumber) (newLines - 1))))).

(** ** The wrappers

    The wrapped mutex; the time of [Lock]; the clock, in nanoseconds; the
    stack of the goroutine; the log of the stacks that were printed. *)
Record debug_state := { taken : Z; log : list bytes; stderr : list bytes }.

Class Environment (S : Type) := {
  wrapped_lock : go S unit;
  wrapped_unlock : go S unit;
  wrapped_rlock : go S unit;
  wrapped_runlock : go S unit;
  now : go S Z;
  debug_stack : go S slice
}.

(** [selfishThresholdSec] is 0.1; [Seconds()] of a duration of [n]
    nanoseconds is at least that float exactly when [n] is at least 10^8. *)
Definition selfishThreshold : Z := 100000000.

Section mutex.
Context {S : Type} `{!Environment S, !Lens S debug_state}.

Definition Lock : go S unit :=
  wrapped_lock ;;;
  let* t := now in
  let* d := load in
  store {| taken := t; log := log d; stderr := stderr d |}.

Definition Unlock : go S unit :=
  let* t := now in
  let* d := load in
  (if decide (selfishThreshold ≤ t - taken d)%Z then
     let* stack := debug_stack in
     let* '(field, out) := go_lift (printStackTo stack) in
     let* d := load in
     store {| taken := taken d; log := log d ++ [field]; stderr := stderr d ++ [out] |}
   else go_ret tt) ;;;
  wrapped_unlock.

Definition UnlockIgnoreTime : go S unit := wrapped_unlock.
Definition RLock : go S unit := wrapped_rlock.
Definition RUnlock : go S unit := wrapped_runlock.

(** [internalMutex], the mutex without readers, keeps the time in the same way;
    without the tag lockdebug the one method that is not that of sync forwards. *)
Definition Mutex_Lock : go S unit :=
  wrapped_lock ;;;
  let* t := now in
  let* d := load in
  store {| taken := t; log := log d; stderr := stderr d |}.

Definition Mutex_Unlock : go S unit :=
  let* t := now in
  let* d := load in
  (if decide (selfishThreshold ≤ t - taken d)%Z then
     let* stack := debug_stack in
     let* '(field, out) := go_lift (printStackTo stack) in
     let* d := load in
     store {| taken := taken d; log := log d ++ [field]; stderr := stderr d ++ [out] |}
   else go_ret tt) ;;;
  wrapped_unlock.

Definition Mutex_UnlockIgnoreTime : go S unit := wrapped_unlock.
Definition fast_UnlockIgnoreTime : go S unit := wrapped_unlock.

Lemma Mutex_methods : Mutex_Lock = Lock ∧ Mutex_Unlock = Unlock.
Proof. done. Qed.
End mutex.

(** ** What is printed *)

(** The lines [ls], each ended by a newline, with [p] before each. *)
Fixpoint lines (p : bytes) (ls : list bytes) : bytes :=
  match ls with [] => [] | l :: ls => p ++ l ++ [newline] ++ lines p ls end.

Definition one_line (l : bytes) : Prop := newline ∉ l.

(** A trace as the runtime prints it: "goroutine 18 [running]:" and the lines
    of the frames. *)
Definition trace (number rest : bytes) (frames : list bytes) : bytes :=
  lines [] ((goroutine ++ number ++ [bracket] ++ rest) :: frames).

Lemma count_app b s t : count b (s ++ t) = (count b s + count b t)%Z.
Proof. unfold count. rewrite filter_app, length_app. lia. Qed.

Lemma count_none b s : b ∉ s → count b s = 0%Z.
Proof.
  intros Hb. unfold count. rewrite filter_none; [done|]. apply Forall_forall. by intros x Hx ->.
Qed.

Lemma index_from_app b s t i :
  b ∉ s → index_from b (s ++ b :: t) i = (i + Z.of_nat (length s))%Z.
Proof.
  revert i. induction s as [|x s IH]; intros i Hb; simpl.
  - rewrite decide_True by done. lia.
  - apply not_elem_of_cons in Hb as [Hx Hb]. rewrite decide_False by congruence.
    rewrite IH by done. lia.
Qed.

Lemma Replace_line l s old new n :
  old ∉ l → Replace (l ++ s) old new n = l ++ Replace s old new n.
Proof.
  induction l as [|x l IH]; intros Hl; simpl; [done|]. apply not_elem_of_cons in Hl as [Hx Hl].
  rewrite decide_False by naive_solver. by rewrite IH.
Qed.

Lemma Replace_zero s old new : Replace s old new 0 = s.
Proof. induction s as [|x s IH]; simpl; [done|]. rewrite decide_False by naive_solver. by rewrite IH. Qed.

Lemma Replace_newline s new n :
  (0 < n)%Z → Replace ([newline] ++ s) newline new n = new ++ Replace s newline new (n - 1).
Proof. intros Hn. simpl. by rewrite decide_True by (split; [done|lia]). Qed.

(** All newlines but the last one are replaced. *)
Lemma Replace_lines p l ls :
  one_line l → Forall one_line ls →
  Replace (lines [] (l :: ls)) newline (newline :: p) (Z.of_nat (length ls)) =
  l ++ [newline] ++ lines p ls.
Proof.
  intros Hl Hls. revert l Hl. induction Hls as [|l' ls Hl' Hls IH]; intros l Hl.
  - simpl. rewrite Replace_line by done. by rewrite Replace_zero.
  - change (lines [] (l :: l' :: ls)) with (l ++ [newline] ++ lines [] (l' :: ls)).
    rewrite Replace_line, Replace_newline by (done || simpl; lia). f_equal.
    replace (Z.of_nat (length (l' :: ls)) - 1)%Z with (Z.of_nat (length ls)) by (simpl; lia).
    by rewrite IH.
Qed.

Lemma count_lines l ls :
  one_line l → Forall one_line ls → count newline (lines [] (l :: ls)) = Z.of_nat (Datatypes.S (length ls)).
Proof.
  intros Hl Hls. revert l Hl. induction Hls as [|l' ls Hl' Hls IH]; intros l Hl.
  - simpl. by rewrite count_app, count_none.
  - change (lines [] (l :: l' :: ls)) with (l ++ [newline] ++ lines [] (l' :: ls)).
    rewrite !count_app, IH, (count_none _ l) by done. unfold count at 1. simpl length. lia.
Qed.

Lemma reslice_prefix s a b sp :
  s = a ++ b →
  reslice {| elems := s; spare := sp |} 0 (Z.of_nat (length a)) =
  Ret {| elems := a; spare := b ++ sp |}.
Proof.
  intros ->. unfold reslice; simpl. rewrite decide_True by (rewrite !length_app; lia).
  rewrite Z.sub_0_r, Nat2Z.id, drop_0, <-app_assoc, take_app_length. by rewrite drop_app_length.
Qed.

(** On a trace, every line but the first gets the goroutine with its number
    in front, as the comment says; the number goes to the log. *)
Lemma printStackTo_trace number d rest frames sp :
  newline ∉ number ++ [d] ++ rest → bracket ∉ number ++ [d] → Forall one_line frames →
  printStackTo {| elems := trace (number ++ [d]) rest frames; spare := sp |} =
  Ret (number, (goroutine ++ (number ++ [d]) ++ [bracket] ++ rest) ++ [newline] ++
               lines (goroutine ++ number ++ [d]) frames).
Proof.
  intros Hn Hb Hf. unfold trace, printStackTo.
  set (num := number ++ [d]) in *. set (l := goroutine ++ num ++ [bracket] ++ rest).
  assert (Hl : one_line l).
  { unfold l, one_line. rewrite !not_elem_of_app. rewrite app_assoc, not_elem_of_app in Hn.
    split_and!; [by compute_done|apply Hn|by compute_done|apply Hn]. }
  cbn [elems spare].
  set (tail := rest ++ [newline] ++ lines [] frames).
  assert (Hs : lines [] (l :: frames) = (goroutine ++ num) ++ bracket :: tail).
  { simpl. unfold l, tail. by rewrite <-!app_assoc. }
  rewrite (reslice_prefix _ goroutine (num ++ bracket :: tail)) by by rewrite app_assoc.
  cbn [out_bind elems]. rewrite decide_True, count_lines by done.
  assert (Hidx : IndexRune (lines [] (l :: frames)) bracket = Z.of_nat (length (goroutine ++ num))).
  { unfold IndexRune. rewrite Hs, index_from_app; [lia|].
    rewrite not_elem_of_app. split; [by compute_done|done]. }
  rewrite Hidx, (reslice_prefix _ (goroutine ++ num) (bracket :: tail)) by done.
  cbn [out_bind elems].
  assert (Hfield : reslice {| elems := goroutine ++ num; spare := (bracket :: tail) ++ sp |}
    (Z.of_nat (length goroutine)) (Z.of_nat (length (goroutine ++ num)) - 1) =
    Ret {| elems := number; spare := [d] ++ (bracket :: tail) ++ sp |}).
  { unfold reslice, num; cbn [elems spare]. rewrite !length_app. change (length [d]) with 1%nat.
    rewrite decide_True by lia.
    replace (Z.to_nat _) with (length number) at 1 by lia.
    replace (Z.to_nat (_ - 1)) with (length (goroutine ++ number)) by (rewrite length_app; lia).
    rewrite Nat2Z.id, <-!app_assoc, drop_app_length, take_app_length.
    by rewrite (app_assoc goroutine number), drop_app_length. }
  rewrite Hfield. cbn [out_bind elems].
  replace (Z.of_nat (Datatypes.S (length frames)) - 1)%Z with (Z.of_nat (length frames)) by lia.
  by rewrite Replace_lines.
Qed.

(** Anything else panics: the number "0" that stands for an unknown goroutine
    is shorter than the word that is cut off it. *)
Lemma printStackTo_other stack :
  take (length goroutine) (elems stack ++ spare stack) ≠ goroutine →
  printStackTo stack = Panic IndexOutOfRange.
Proof.
  intros Hne. unfold printStackTo, reslice at 1. cbn [out_bind].
  case_decide as Hlen; [|done]. rewrite Z.sub_0_r, Nat2Z.id. change (Z.to_nat 0) with 0%nat.
  rewrite drop_0. cbn [out_bind elems]. rewrite decide_False by congruence. done.
Qed.

Section unlock.
Context {S : Type} `{!Environment S, !Lens S debug_state}.
Implicit Types s : S.

Definition reported (d : debug_state) (field out : bytes) : debug_state :=
  {| taken := taken d; log := log d ++ [field]; stderr := stderr d ++ [out] |}.

Lemma Unlock_run s t s1 :
  now s = (Ret t, s1) →
  Unlock s = (if decide (selfishThreshold ≤ t - taken (view s1))%Z then
    (let* stack := debug_stack in
     let* '(field, out) := go_lift (printStackTo stack) in
     let* d := load in store (reported d field out)) ;;; wrapped_unlock
   else wrapped_unlock) s1.
Proof. intros Hnow. unfold Unlock, go_bind at 1. rewrite Hnow. by case_decide as Ht;
  unfold load, go_bind at 1 2, go_gets; [rewrite decide_True|rewrite decide_False]. Qed.

(** C40. Unlock releases the mutex; when it was held for a tenth of a second or
    more it first prints the stack, every line after the first with the
    goroutine and its number in front.  On a stack that does not start with
    "goroutine" it panics before the mutex is released. *)
Theorem Unlock_reports s t s1 d :
  now s = (Ret t, s1) → view s1 = d →
  ((t - taken d < selfishThreshold)%Z → Unlock s = wrapped_unlock s1) ∧
  ((selfishThreshold ≤ t - taken d)%Z → ∀ stack s2, debug_stack s1 = (Ret stack, s2) →
   (∀ number c rest frames, elems stack = trace (number ++ [c]) rest frames →
      newline ∉ number ++ [c] ++ rest → bracket ∉ number ++ [c] → Forall one_line frames →
      Unlock s = wrapped_unlock (put (reported (view s2) number
        ((goroutine ++ (number ++ [c]) ++ [bracket] ++ rest) ++ [newline] ++
         lines (goroutine ++ number ++ [c]) frames)) s2)) ∧
   (take (length goroutine) (elems stack ++ spare stack) ≠ goroutine →
    Unlock s = (Panic IndexOutOfRange, s2))).
Proof.
  intros Hnow <-. rewrite (Unlock_run s t s1 Hnow). split.
  - intros Ht. by rewrite decide_False by lia.
  - intros Ht stack s2 Hst. rewrite decide_True by done. unfold go_bind. rewrite Hst. unfold go_lift.
    split.
    + intros number c rest frames Hel Hn Hb Hf. destruct stack as [el sp]; simpl in Hel; subst el.
      by rewrite printStackTo_trace.
    + intros Hne. by rewrite printStackTo_other.
Qed.
End unlock.
End LockDebug.
