(* ===== verification/Objects.v ===== *)
(** * Objects: Kubernetes objects and the client interface

    The object metadata that the controllers read and write, the finalizer
    helpers of
    vendor/sigs.k8s.io/controller-runtime/pkg/controller/controllerutil, the
    constants of pkg/const.go, and the client interface [KubeClient]: the API
    server is a service outside the repository, so its operations are a
    parameter, over the state of the whole system. *)
From S2P Require Import Prelude.

(** [metav1.ObjectMeta], the fields the program uses.  [DeletionTimestamp]
    is [None] when [IsZero()] holds. *)
Record ObjectMeta := {
  Name : string;
  Annotations : gmap string string;
  Finalizers : list string;
  DeletionTimestamp : option Z
}.

Definition IsZero (t : option Z) : bool := bool_decide (t = None).

(** pkg/const.go *)
Definition InstanceAnnotationKey : string := "node.eni.io/instance".
Definition FinializerController : string := "controller.eni.io".

(** ** Finalizers *)
Section finalizers.
Implicit Types (o : ObjectMeta) (finalizer : string).

Definition set_finalizers o (f : list string) : ObjectMeta :=
  {| Name := Name o; Annotations := Annotations o; Finalizers := f;
     DeletionTimestamp := DeletionTimestamp o |}.

Fixpoint has_finalizer (f : list string) finalizer : bool :=
  match f with
  | [] => false
  | e :: f => if decide (e = finalizer) then true else has_finalizer f finalizer
  end.

Definition ContainsFinalizer o finalizer : bool := has_finalizer (Finalizers o) finalizer.

Definition AddFinalizer o finalizer : ObjectMeta * bool :=
  if has_finalizer (Finalizers o) finalizer then (o, false)
  else (set_finalizers o (Finalizers o ++ [finalizer]), true).

(** The in-place compaction loop: [kept] is [f[:index]]. *)
Fixpoint compact (f kept : list string) finalizer : list string :=
  match f with
  | [] => kept
  | x :: f => if decide (x = finalizer) then compact f kept finalizer
              else compact f (kept ++ [x]) finalizer
  end.

Definition RemoveFinalizer o finalizer : ObjectMeta * bool :=
  let kept := compact (Finalizers o) [] finalizer in
  (set_finalizers o kept, negb (bool_decide (length (Finalizers o) = length kept))).

Lemma has_finalizer_elem (f : list string) finalizer :
  has_finalizer f finalizer = true ↔ finalizer ∈ f.
Proof.
  induction f as [|e f IH]; simpl; [set_solver|].
  rewrite elem_of_cons. case_decide; naive_solver.
Qed.

Lemma compact_filter (f kept : list string) finalizer :
  compact f kept finalizer = kept ++ filter (λ x, x ≠ finalizer) f.
Proof.
  revert kept. induction f as [|x f IH]; intros kept; simpl; [by rewrite app_nil_r|].
  rewrite filter_cons. case_decide as H.
  - rewrite IH. by rewrite decide_False by naive_solver.
  - rewrite IH, decide_True by done. by rewrite <-app_assoc.
Qed.

Lemma RemoveFinalizer_spec o finalizer :
  Finalizers (fst (RemoveFinalizer o finalizer)) = filter (λ x, x ≠ finalizer) (Finalizers o).
Proof. simpl. by rewrite compact_filter. Qed.

(** Adding makes it contained, removing makes it absent, and removing what
    was added to an object without it restores the object. *)
Lemma Add_Contains o finalizer : ContainsFinalizer (fst (AddFinalizer o finalizer)) finalizer.
Proof.
  unfold AddFinalizer. destruct (has_finalizer (Finalizers o) finalizer) eqn:Hf; simpl;
    unfold ContainsFinalizer; simpl; [by rewrite Hf|].
  assert (H : has_finalizer (Finalizers o ++ [finalizer]) finalizer = true)
    by (apply has_finalizer_elem; set_solver).
  by rewrite H.
Qed.

Lemma Remove_not_Contains o finalizer :
  ContainsFinalizer (fst (RemoveFinalizer o finalizer)) finalizer = false.
Proof.
  apply not_true_is_false. intros H%has_finalizer_elem.
  rewrite RemoveFinalizer_spec, list_elem_of_filter in H. naive_solver.
Qed.

Lemma Remove_Add o finalizer :
  ContainsFinalizer o finalizer = false →
  fst (RemoveFinalizer (fst (AddFinalizer o finalizer)) finalizer) = o.
Proof.
  unfold ContainsFinalizer, AddFinalizer, RemoveFinalizer. intros H. rewrite H; simpl.
  rewrite compact_filter. destruct o as [n a f d]; simpl in *. unfold set_finalizers; simpl.
  f_equal. rewrite filter_app, filter_cons_False, filter_nil, app_nil_r
    by naive_solver.
  apply filter_all, Forall_forall. intros x Hx ->.
  apply has_finalizer_elem in Hx. by rewrite H in Hx.
Qed.
End finalizers.

(** ** The client of one kind of object

    [kget n] is [client.Get], [kcreate]/[kpatch]/[kdelete] the writes;
    [kpatch new base] is [Patch(ctx, new, client.MergeFrom(base))].  Each may
    return anything the service returns, and may change the state of the
    outside world. *)
Class KubeClient (S O : Type) := {
  kget : string → S → (error + O) * S;
  kcreate : O → S → option error * S;
  kpatch : O → O → S → option error * S;
  kdelete : string → S → option error * S
}.

(** Calls to the API server leave the memory of a component alone. *)
Class KubeFrame (S O C : Type) `{!KubeClient S O, !Lens S C} := {
  kget_view : ∀ n s, view (snd (kget n s)) = view s;
  kcreate_view : ∀ o s, view (snd (kcreate o s)) = view s;
  kpatch_view : ∀ o b s, view (snd (kpatch o b s)) = view s;
  kdelete_view : ∀ n s, view (snd (kdelete n s)) = view s
}.

Definition IsNotFound (e : error) : bool := bool_decide (e = ENotFound).

(** The result of a Reconcile: an error to be retried, or nil. *)
Definition Result : Type := option error.

(** ** What the API server documents

    Kinds with metadata, and the laws of a server that stores one object per
    name.  A write that reports an error may or may not have happened. *)
Class KubeObject (O : Type) := {
  obj_meta : O → ObjectMeta;
  with_meta : ObjectMeta → O → O;
  meta_with_meta : ∀ m o, obj_meta (with_meta m o) = m;
  with_meta_meta : ∀ o, with_meta (obj_meta o) o = o
}.

Definition obj_name {O} `{!KubeObject O} (o : O) : string := Name (obj_meta o).
Definition deleting {O} `{!KubeObject O} (o : O) : bool :=
  negb (IsZero (DeletionTimestamp (obj_meta o))).

(** Storing a new version of an object: an object that is being deleted and
    has no finalizer left goes away. *)
Definition persist {O} `{!KubeObject O} (o : O) (m : gmap string O) : gmap string O :=
  if deleting o && bool_decide (Finalizers (obj_meta o) = [])
  then delete (obj_name o) m else <[obj_name o := o]> m.

(** Marking an object deleted at time [t], unless it already is. *)
Definition mark_deleted {O} `{!KubeObject O} (t : Z) (o : O) : O :=
  if deleting o then o
  else with_meta {| Name := Name (obj_meta o); Annotations := Annotations (obj_meta o);
                    Finalizers := Finalizers (obj_meta o); DeletionTimestamp := Some t |} o.

Class KubeServer (S O : Type) `{!KubeClient S O, !KubeObject O} := {
  kstore : S → gmap string O;
  kstore_name : ∀ s n o, kstore s !! n = Some o → obj_name o = n;
  kget_store : ∀ n s, kstore (snd (kget n s)) = kstore s;
  kcreate_ok : ∀ o s, fst (kcreate o s) = None →
    kstore s !! obj_name o = None ∧ kstore (snd (kcreate o s)) = <[obj_name o := o]> (kstore s);
  kcreate_err : ∀ o s e, fst (kcreate o s) = Some e →
    kstore (snd (kcreate o s)) = kstore s ∨
    kstore s !! obj_name o = None ∧ kstore (snd (kcreate o s)) = <[obj_name o := o]> (kstore s);
  kpatch_ok : ∀ new base s, fst (kpatch new base s) = None →
    kstore s !! obj_name new = Some base ∨ kstore s !! obj_name new = Some new →
    kstore (snd (kpatch new base s)) = persist new (kstore s);
  kpatch_err : ∀ new base s e, fst (kpatch new base s) = Some e →
    kstore s !! obj_name new = Some base ∨ kstore s !! obj_name new = Some new →
    kstore (snd (kpatch new base s)) = kstore s ∨
    kstore (snd (kpatch new base s)) = persist new (kstore s);
  kpatch_absent : ∀ new base s, kstore s !! obj_name new = None →
    is_Some (fst (kpatch new base s)) ∧ kstore (snd (kpatch new base s)) = kstore s;
  kdelete_ok : ∀ n s, fst (kdelete n s) = None →
    ∃ o t, kstore s !! n = Some o ∧
           kstore (snd (kdelete n s)) = persist (mark_deleted t o) (kstore s);
  kdelete_err : ∀ n s e, fst (kdelete n s) = Some e →
    kstore (snd (kdelete n s)) = kstore s ∨
    ∃ o t, kstore s !! n = Some o ∧
           kstore (snd (kdelete n s)) = persist (mark_deleted t o) (kstore s)
}.

(** A client whose reads, when they succeed or find nothing, tell what is
    stored.  A client that reads from a cache promises it only once the
    cache has caught up; see [caught_up]. *)
Class KubeCurrent (S O : Type) `{!KubeClient S O, !KubeObject O, !KubeServer S O} := {
  kget_found : ∀ n (s : S) (o : O), fst (kget n s) = inr o → kstore s !! n = Some o;
  kget_not_found : ∀ n (s : S), fst (kget (O:=O) n s) = inl ENotFound → kstore (O:=O) s !! n = None
}.

(** What a read answers that neither fails nor is out of date. *)
Definition answer {O : Type} (o : option O) : error + O :=
  match o with Some o => inr o | None => inl ENotFound end.

(** In this state a read of [n] answers what is stored: the cache that the
    client reads has caught up with the writes to [n]. *)
Definition caught_up {S O} `{!KubeClient S O, !KubeObject O, !KubeServer S O} (n : string) (s : S)
    : Prop :=
  fst (kget (O:=O) n s) = answer (kstore s !! n).

Section store.
Context {O : Type} `{!KubeObject O}.
Implicit Types (o : O) (m : gmap string O).

Lemma mark_deleted_name t o : obj_name (mark_deleted t o) = obj_name o.
Proof. unfold mark_deleted, obj_name. destruct (deleting o); [done|]. by rewrite meta_with_meta. Qed.

Lemma mark_deleted_finalizers t o :
  Finalizers (obj_meta (mark_deleted t o)) = Finalizers (obj_meta o).
Proof. unfold mark_deleted. destruct (deleting o); [done|]. by rewrite meta_with_meta. Qed.

Lemma persist_lookup_ne o m n : obj_name o ≠ n → persist o m !! n = m !! n.
Proof.
  intros Hn. unfold persist. case_match; [by apply lookup_delete_ne|by apply lookup_insert_ne].
Qed.

Lemma persist_lookup o m :
  persist o m !! obj_name o =
  if deleting o && bool_decide (Finalizers (obj_meta o) = []) then None else Some o.
Proof. unfold persist. case_match; [apply lookup_delete_eq|apply lookup_insert_eq]. Qed.

(** An object that carries a finalizer survives a write. *)
Lemma persist_finalizer o m f :
  f ∈ Finalizers (obj_meta o) → persist o m = <[obj_name o := o]> m.
Proof.
  intros Hf. unfold persist.
  rewrite (bool_decide_false (Finalizers (obj_meta o) = [])), andb_false_r; [done|].
  intros E. rewrite E in Hf. set_solver.
Qed.
End store.

(** ** The writes of a server, successful or not *)
Section server.
Context {S O : Type} `{!KubeClient S O, !KubeObject O, !KubeServer S O}.
Implicit Types (s : S) (o new base : O) (m : gmap string O).

Lemma persist_idem o m : persist o (persist o m) = persist o m.
Proof.
  unfold persist. case_match; [by rewrite delete_delete_eq|by rewrite insert_insert_eq].
Qed.

(** The store is [m], or [m] after the write of [new]. *)
Definition at_most new m s : Prop := kstore s = m ∨ kstore s = persist new m.

Lemma kpatch_cases new base s :
  kstore s !! obj_name new = Some base ∨ kstore s !! obj_name new = Some new →
  (is_Some (fst (kpatch new base s)) ∧ kstore (snd (kpatch new base s)) = kstore s) ∨
  kstore (snd (kpatch new base s)) = persist new (kstore s).
Proof.
  intros Hs. destruct (fst (kpatch new base s)) as [e|] eqn:Hr.
  - destruct (kpatch_err new base s e Hr Hs); eauto.
  - right. by apply kpatch_ok.
Qed.

(** One attempt of a retried patch of the object [base] of the store [m]. *)
Lemma kpatch_attempt new base m s :
  m !! obj_name new = Some base → at_most new m s →
  at_most new m (snd (kpatch new base s)) ∧
  (fst (kpatch new base s) = None → kstore (snd (kpatch new base s)) = persist new m).
Proof.
  intros Hm Hat. unfold at_most in *.
  assert (Hp : persist new (kstore s) = persist new m)
    by (destruct Hat as [->| ->]; [done|apply persist_idem]).
  assert (Hcase : (kstore s !! obj_name new = Some base ∨ kstore s !! obj_name new = Some new) ∨
                  kstore s !! obj_name new = None).
  { destruct Hat as [->| ->]; [by left; left|]. rewrite persist_lookup. case_match; auto. }
  destruct Hcase as [Hs|Hs].
  - destruct (kpatch_cases new base s Hs) as [[[e He] H]|H]; rewrite H, ?Hp; [|by auto].
    split; [done|]. by rewrite He.
  - destruct (kpatch_absent new base s Hs) as [[e He] ->]. by rewrite He.
Qed.

Lemma kcreate_cases o s :
  (is_Some (fst (kcreate o s)) ∧ kstore (snd (kcreate o s)) = kstore s) ∨
  kstore s !! obj_name o = None ∧ kstore (snd (kcreate o s)) = <[obj_name o := o]> (kstore s).
Proof.
  destruct (fst (kcreate o s)) as [e|] eqn:Hr; [|right; by apply kcreate_ok].
  destruct (kcreate_err o s e Hr); eauto.
Qed.

Lemma kdelete_cases n s :
  (is_Some (fst (kdelete n s)) ∧ kstore (snd (kdelete n s)) = kstore s) ∨
  ∃ o t, kstore s !! n = Some o ∧
         kstore (snd (kdelete n s)) = persist (mark_deleted t o) (kstore s).
Proof.
  destruct (fst (kdelete n s)) as [e|] eqn:Hr; [|right; by apply kdelete_ok].
  destruct (kdelete_err n s e Hr); eauto.
Qed.

(** A delete keeps an object that has a finalizer, with all its data but
    the deletion mark. *)
Lemma kdelete_finalizer n s o f :
  kstore s !! n = Some o → f ∈ Finalizers (obj_meta o) →
  ∃ o', kstore (snd (kdelete n s)) = <[n := o']> (kstore s) ∧
        (o' = o ∨ ∃ t, o' = mark_deleted t o).
Proof.
  intros Ho Hf. destruct (kdelete_cases n s) as [[_ ->]|(o1 & t & Ho1 & ->)].
  - exists o. split; [by rewrite insert_id|by left].
  - rewrite Ho in Ho1. simplify_eq. exists (mark_deleted t o1). split; [|by eauto].
    rewrite (persist_finalizer _ _ f) by (by rewrite mark_deleted_finalizers).
    by rewrite mark_deleted_name, (kstore_name s n o1).
Qed.
End server.

(** The memory [C] of a component is apart from the stored objects. *)
Class StoreFrame (S O C : Type) `{!KubeClient S O, !KubeObject O, !KubeServer S O, !Lens S C} :=
  put_store : ∀ (c : C) s, kstore (put c s) = kstore s.

(** The object [n] is stored and carries the finalizer [f]. *)
Definition keeps {S O} `{!KubeClient S O, !KubeObject O, !KubeServer S O} (n f : string) (s : S)
    : Prop :=
  ∃ o, kstore s !! n = Some o ∧ f ∈ Finalizers (obj_meta o).

Lemma patch_keeps {S O} `{!KubeClient S O, !KubeObject O, !KubeServer S O} (new base : O) n f
    (s : S) r s' :
  kstore s !! obj_name new = Some base ∨ kstore s !! obj_name new = Some new →
  (n = obj_name new → f ∈ Finalizers (obj_meta new)) →
  keeps (O:=O) n f s → go_call (kpatch new base) s = (Ret r, s') → keeps (O:=O) n f s'.
Proof.
  intros Hb Hf (o & Ho & Hof) Hr. unfold go_call in Hr.
  pose proof (kpatch_cases new base s Hb) as Hc.
  destruct (kpatch new base s) as [r1 s1]. simplify_eq/=.
  destruct Hc as [[_ Hs]|Hs]; [exists o; by rewrite Hs|].
  unfold keeps. rewrite Hs. destruct (decide (n = obj_name new)) as [Hn|Hn].
  - specialize (Hf Hn). rewrite (persist_finalizer _ _ f) by exact Hf.
    exists new. by rewrite Hn, lookup_insert_eq.
  - rewrite persist_lookup_ne by done. by exists o.
Qed.

(** A server whose writes do not fail. *)
Class KubeReliable (S O : Type) `{!KubeClient S O, !KubeObject O, !KubeServer S O} := {
  kcreate_succeeds : ∀ o s, kstore s !! obj_name o = None → fst (kcreate o s) = None;
  kpatch_succeeds : ∀ new base s,
    kstore s !! obj_name new = Some base → fst (kpatch new base s) = None;
  kdelete_succeeds : ∀ n s, is_Some (kstore s !! n) → fst (kdelete n s) = None
}.

(** A client whose reads never fail and are never out of date. *)
Class KubeExact (S O : Type) `{!KubeClient S O, !KubeObject O, !KubeServer S O} :=
  kget_exact : ∀ n (s : S), caught_up (O:=O) n s.
