(* ===== verification/IPPool.v ===== *)
(** * IPPool: pools and the pool manager interface

    Models pkg/ippool/config.go: the [Pool] struct, [PartEqual], [DeepCopy]
    and the [Manager] interface as the class [PoolManager], with the events of
    pkg/util/event.go.  The node and vpc controllers are verified against the
    class; SpiderPool.v implements it. *)
From S2P Require Import Prelude.
From S2P Require Import HashSet.
From S2P Require Import Objects.

(** pkg/util/event.go: an [Event] is an int; three values are named. *)
Inductive Event := UpdateE | DeleteE | CreateE | OtherE (n : Z).

#[export] Instance Event_eq_dec : EqDecision Event.
Proof. solve_decision. Defined.

(** pkg/ippool/config.go *)
Definition SubnatAnnotationsKey : string := "pool.eni.io/subnatname".

Record Pool := {
  NodeName : string;
  MainId : string;
  Subnat : string;
  Namespace : hset;
  CapIp : hset;
  UsedIp : hset
}.

#[export] Instance Pool_eq_dec : EqDecision Pool.
Proof. solve_decision. Defined.

(** [&Pool{}]: every set pointer is nil. *)
Definition zero_pool : Pool :=
  {| NodeName := ""; MainId := ""; Subnat := ""; Namespace := None; CapIp := None;
     UsedIp := None |}.

Section pool.
Context `{!RangeOrder}.
Implicit Types (p dst : Pool).

Definition PartEqual p (dst : option Pool) : outcome bool :=
  match dst with
  | None => Ret false
  | Some dst =>
      if decide (MainId dst ≠ MainId p) then Ret false
      else if decide (NodeName dst ≠ NodeName p) then Ret false
      else if decide (Subnat dst ≠ Subnat p) then Ret false
      else
        out_bind (HashSet.Difference (Namespace p) (Namespace dst)) (λ diffset,
        HashSet.Empty diffset)
  end.

(** [hashset.New(s.Values()...)] *)
Definition copy_set (s : hset) : outcome hset :=
  out_bind (HashSet.Values s) (λ ks, HashSet.New (VKey <$> ks)).

Definition DeepCopy p : outcome Pool :=
  out_bind (copy_set (CapIp p)) (λ c,
  out_bind (copy_set (UsedIp p)) (λ u,
  out_bind (copy_set (Namespace p)) (λ n,
  Ret {| NodeName := NodeName p; MainId := MainId p; Subnat := Subnat p;
         Namespace := n; CapIp := c; UsedIp := u |}))).

(** A pool whose three sets are allocated. *)
Definition allocated p : Prop :=
  is_Some (Namespace p) ∧ is_Some (CapIp p) ∧ is_Some (UsedIp p).

#[export] Instance allocated_dec p : Decision (allocated p).
Proof. unfold allocated. apply _. Defined.

Lemma copy_set_Some i : copy_set (Some i) = Ret (Some i).
Proof. apply HashSet.New_Values. Qed.

Lemma DeepCopy_allocated p : allocated p → DeepCopy p = Ret p.
Proof.
  intros ([n Hn] & [c Hc] & [u Hu]). unfold DeepCopy.
  rewrite Hn, Hc, Hu, !copy_set_Some; simpl. by destruct p; simpl in *; subst.
Qed.

Lemma DeepCopy_not_allocated p : ¬ allocated p → DeepCopy p = Panic NilDeref.
Proof.
  unfold allocated, DeepCopy. intros Hp.
  destruct (CapIp p) as [c|] eqn:Hc; [rewrite copy_set_Some; simpl|done].
  destruct (UsedIp p) as [u|] eqn:Hu; [rewrite copy_set_Some; simpl|done].
  destruct (Namespace p) as [n|] eqn:Hn; [|done]. exfalso. naive_solver.
Qed.

Lemma PartEqual_spec p dst n m :
  Namespace p = Some n → Namespace dst = Some m →
  PartEqual p (Some dst) =
  Ret (bool_decide (MainId dst = MainId p ∧ NodeName dst = NodeName p ∧
                    Subnat dst = Subnat p ∧ n ⊆ m)).
Proof.
  intros Hn Hm. unfold PartEqual.
  assert (Hfalse : ∀ P `{Decision P}, ¬ P → Ret false = Ret (bool_decide P))
    by (intros P ? HP; by rewrite bool_decide_false).
  case_decide; [apply Hfalse; naive_solver|].
  case_decide; [apply Hfalse; naive_solver|].
  case_decide; [apply Hfalse; naive_solver|].
  rewrite Hn, Hm, HashSet.Difference_spec; simpl. unfold HashSet.Empty; simpl.
  f_equal. apply bool_decide_ext.
  split.
  - intros Hs. split_and!; [done..|].
    assert (size (n ∖ m) = 0%nat) as He%size_empty_inv by lia. set_solver.
  - intros (_ & _ & _ & Hsub).
    replace (n ∖ m) with (∅ : gset key) by set_solver. by rewrite size_empty.
Qed.
End pool.

(** ** The interface [ippool.Manager]

    [S] is the state of the whole system.  The callback of [EachPool] is a
    closure; the variables it captures are its accumulator [B]. *)
Class PoolManager (S : Type) := {
  UpdatePool : option Pool → Event → go S (option error);
  EachPool : ∀ {B : Type}, (B → Pool → go S (B * option error)) → B → go S B
}.

(** What a manager promises: [EachPool] runs the callback on a deep copy of
    every pool it caches, in some order, until the callback returns an error. *)
Class PoolManagerLaws (S : Type) `{!RangeOrder, !PoolManager S} := {
  cached_pools : S → list Pool;
  EachPool_spec : ∀ B (fn : B → Pool → go S (B * option error)) b s,
    EachPool fn b s =
    for_until (cached_pools s) (λ b v, let* p := go_lift (DeepCopy v) in fn b p) b s
}.
