(* ===== verification/MemServer.v ===== *)
(** * MemServer: an in-memory API server

    A concrete, failure-free server that keeps one map per kind of object,
    anywhere inside a state.  It satisfies every law that the theorems assume of
    a server and of a client that reads from it directly, and instantiates them
    in the witnesses. *)
From S2P Require Import Prelude.
From S2P Require Import Objects.

Section mem.
Context {S O : Type} `{!KubeObject O, !Lens S (gmap string O)}.
Implicit Types (s : S) (o : O) (m : gmap string O).

(** The objects filed under their own name. *)
Definition named (m : gmap string O) : gmap string O :=
  filter (λ no : string * O, obj_name no.2 = no.1) m.
Definition objects s : gmap string O := named (view s).

#[local] Instance mem_client : KubeClient S O := {|
  kget n s := (match objects s !! n with Some o => inr o | None => inl ENotFound end, s);
  kcreate o s :=
    match objects s !! obj_name o with
    | Some _ => (Some (EApi 409), s)
    | None => (None, put (<[obj_name o := o]> (objects s)) s)
    end;
  kpatch o _ s :=
    match objects s !! obj_name o with
    | None => (Some ENotFound, s)
    | Some _ => (None, put (persist o (objects s)) s)
    end;
  kdelete n s :=
    match objects s !! n with
    | None => (Some ENotFound, s)
    | Some o => (None, put (persist (mark_deleted 1 o) (objects s)) s)
    end
|}.

Lemma named_lookup m n o : named m !! n = Some o ↔ m !! n = Some o ∧ obj_name o = n.
Proof. apply map_lookup_filter_Some. Qed.

Lemma named_insert o m : named (<[obj_name o := o]> (named m)) = <[obj_name o := o]> (named m).
Proof.
  apply map_eq. intros n. apply option_eq. intros o'. rewrite named_lookup.
  split; [by intros []|]. intros Hn. split; [done|].
  apply lookup_insert_Some in Hn as [[<- <-]|[_ Hn]]; [done|]. by apply named_lookup in Hn as [].
Qed.

Lemma named_persist o m : named (persist o (named m)) = persist o (named m).
Proof.
  unfold persist. case_match; [|apply named_insert].
  apply map_eq. intros n. apply option_eq. intros o'. rewrite named_lookup.
  split; [by intros []|]. intros Hn. split; [done|].
  apply lookup_delete_Some in Hn as [_ Hn]. by apply named_lookup in Hn as [].
Qed.

#[local] Instance mem_server : KubeServer S O.
Proof.
  refine {| kstore := objects |}; simpl.
  - intros s n o Ho. by apply named_lookup in Ho as [].
  - done.
  - intros o s. destruct (objects s !! obj_name o); [done|]. intros _. simpl.
    split; [done|]. unfold objects. rewrite view_put. apply named_insert.
  - intros o s e. destruct (objects s !! obj_name o); [by left|done].
  - intros o b s. destruct (objects s !! obj_name o); [|done]. intros _ _. simpl.
    unfold objects. rewrite view_put. apply named_persist.
  - intros o b s e. destruct (objects s !! obj_name o); [done|by left].
  - intros o b s ->. done.
  - intros n s. destruct (objects s !! n) as [o|]; [|done]. intros _. exists o, 1%Z.
    split; [done|]. simpl. unfold objects. rewrite view_put. apply named_persist.
  - intros n s e. destruct (objects s !! n); [done|by left].
Defined.

#[local] Instance mem_reliable : KubeReliable S O.
Proof.
  split; simpl.
  - intros o s ->. done.
  - intros o b s ->. done.
  - intros n s [o ->]. done.
Qed.

#[local] Instance mem_exact : KubeExact S O.
Proof. done. Qed.

#[local] Instance mem_current : KubeCurrent S O.
Proof. split; simpl; intros n s; [intros o|]; case_match; naive_solver. Qed.

(** Components whose memory is elsewhere in the state are not touched. *)
#[local] Instance mem_frame {C} `{!Lens S C} :
  (∀ m s, view (C:=C) (put m s) = view s) → KubeFrame S O C.
Proof. intros Hput. split; simpl; intros; repeat case_match; done || apply Hput. Qed.
End mem.

(** Pairs of a component's memory and the rest. *)
Section pair.
Context {A B : Type}.
Definition lens_fst : Lens (A * B) A.
Proof. by refine {| view := fst; put := λ a s, (a, s.2) |}; intros; destruct s. Defined.
Definition lens_snd : Lens (A * B) B.
Proof. by refine {| view := snd; put := λ b s, (s.1, b) |}; intros; destruct s. Defined.
End pair.
