(* ===== verification/PoolFacts.v ===== *)
(** * PoolFacts: client-side facts of the pool manager interface

    The loop that deletes the cached pools of a node or of a subnet, shared by
    the node and vpc controllers, and the frame conditions that say what a
    pool manager leaves alone. *)
From S2P Require Import Prelude.
From S2P Require Import HashSet.
From S2P Require Import Objects.
From S2P Require Import IPPool.

Module PoolFacts.

(** A pool manager leaves the memory [C] of another component alone. *)
Class PoolFrame (S C : Type) `{!PoolManager S, !Lens S C} :=
  update_view : ∀ pl ev, preserves (view (C:=C)) (UpdatePool pl ev).

(** A pool manager leaves the stored objects of another kind alone. *)
Class PoolStoreFrame (S O : Type) `{!PoolManager S, !KubeClient S O, !KubeObject O,
    !KubeServer S O} :=
  update_store : ∀ pl ev, preserves (kstore (O:=O)) (UpdatePool pl ev).

Section delete.
Context {S : Type} `{!RangeOrder, !PoolManager S, !PoolManagerLaws S}.
Implicit Types (s : S).

(** The reference: one DeleteE for each pool, no pool skipped. *)
Fixpoint delete_all (l : list Pool) : go S (list (option error)) :=
  match l with
  | [] => go_ret []
  | p :: l =>
      let* e := UpdatePool (Some p) DeleteE in
      let* es := delete_all l in
      go_ret (e :: es)
  end.

Definition all_nil (es : list (option error)) : bool := bool_decide (Forall (λ e, e = None) es).

Lemma joined_nil es err :
  foldl (λ err e, match e with Some _ => join err e | None => err end) err es = None ↔
  err = None ∧ Forall (λ e, e = None) es.
Proof.
  revert err. induction es as [|e es IH]; intros err; simpl; [naive_solver|].
  rewrite IH, Forall_cons. destruct e, err; naive_solver.
Qed.

Section where_.
Context (P : Pool → Prop) `{!∀ p, Decision (P p)}.

(** The accumulated error is nil exactly when it was and every call's is. *)
Lemma join_loop (l : list Pool) err s :
  Forall allocated l →
  for_until l (λ err v, let* p := go_lift (DeepCopy v) in
      if decide (P p) then
        let* err1 := UpdatePool (Some p) DeleteE in
        go_ret (match err1 with Some _ => join err err1 | None => err end, None)
      else go_ret (err, None)) err s =
  go_bind (delete_all (filter P l))
    (λ es, go_ret (foldl (λ err e, match e with Some _ => join err e | None => err end) err es)) s.
Proof.
  intros Hl. rewrite (for_until_no_error _ (λ err p,
    if decide (P p) then
      let* err1 := UpdatePool (Some p) DeleteE in
      go_ret (match err1 with Some _ => join err err1 | None => err end)
    else go_ret err)).
  - clear Hl. revert err s. induction l as [|p l IH]; intros err s; [done|].
    simpl for_acc. rewrite filter_cons. case_decide; [|apply IH].
    simpl. rewrite !go_bind_assoc. apply go_bind_ext; [done|]. intros e s1 _.
    rewrite go_bind_ret_l, IH, go_bind_assoc. by apply go_bind_ext.
  - intros err1 p s1 Hp. rewrite Forall_forall in Hl.
    unfold go_bind, go_lift. rewrite DeepCopy_allocated by auto.
    case_decide; [|done]. by destruct (UpdatePool _ _ _) as [[]].
Qed.

(** The whole loop of a [CouldRemove], over the cached pools. *)
Lemma delete_matching s :
  Forall allocated (cached_pools s) →
  (let* err := EachPool (λ err p,
     if decide (P p) then
       let* err1 := UpdatePool (Some p) DeleteE in
       go_ret (match err1 with Some _ => join err err1 | None => err end, None)
     else go_ret (err, None)) None in
   go_ret (bool_decide (err = None))) s =
  (let* es := delete_all (filter P (cached_pools s)) in go_ret (all_nil es)) s.
Proof.
  intros Hall. unfold go_bind at 1. rewrite EachPool_spec.
  rewrite (join_loop _ None s Hall). unfold go_bind.
  destruct (delete_all _ s) as [[es|p|] s1]; [|done..]. simpl. do 2 f_equal.
  unfold all_nil. apply bool_decide_ext. rewrite joined_nil. naive_solver.
Qed.

(** A loop that returns has copied every pool, so all were allocated. *)
Lemma loop_allocated (l : list Pool) err s r s' :
  for_until l (λ err v, let* p := go_lift (DeepCopy v) in
      if decide (P p) then
        let* err1 := UpdatePool (Some p) DeleteE in
        go_ret (match err1 with Some _ => join err err1 | None => err end, None)
      else go_ret (err, None)) err s = (Ret r, s') → Forall allocated l.
Proof.
  unfold for_until. revert err s. induction l as [|p l IH]; intros err s Hr; [done|].
  simpl in Hr. apply go_bind_inv in Hr as ([e1 stop] & s2 & H1 & Hr).
  apply go_bind_inv in H1 as ([e2 e3] & s3 & H1 & H2).
  apply go_bind_inv in H1 as (p' & s4 & Hc & H1). unfold go_lift in Hc.
  assert (e3 = None) as ->.
  { case_decide; [apply go_bind_inv in H1 as (e4 & s5 & _ & H1)|]; by injection H1 as _ <- _. }
  injection H2 as <- <- <-. constructor; [|by eapply IH].
  destruct (decide (allocated p)) as [|Hn]; [done|].
  rewrite DeepCopy_not_allocated in Hc by done. done.
Qed.

Lemma delete_matching_allocated s b s' :
  (let* err := EachPool (λ err p,
     if decide (P p) then
       let* err1 := UpdatePool (Some p) DeleteE in
       go_ret (match err1 with Some _ => join err err1 | None => err end, None)
     else go_ret (err, None)) None in
   go_ret (bool_decide (err = None))) s = (Ret b, s') →
  Forall allocated (cached_pools s).
Proof.
  intros Hr. apply go_bind_inv in Hr as (err & s1 & Hr & _). rewrite EachPool_spec in Hr.
  by eapply loop_allocated.
Qed.

(** Every cached pool that satisfies [P] is deleted without an error. *)
Definition deletes_all s : Prop :=
  ∃ es s', delete_all (filter P (cached_pools s)) s = (Ret es, s') ∧ Forall (λ e, e = None) es.
End where_.

(** What an update preserves, deleting a list of pools preserves. *)
Lemma delete_all_preserves {X} (p : S → X) l :
  (∀ pl ev, preserves p (UpdatePool pl ev)) → preserves p (delete_all l).
Proof. intros Hp. induction l as [|pl l IH]; simpl; frame. Qed.

(** EachPool preserves what its callback preserves. *)
Lemma EachPool_preserves {X B} (p : S → X) (fn : B → Pool → go S (B * option error)) b :
  (∀ b pl, preserves p (fn b pl)) → preserves p (EachPool fn b).
Proof.
  intros Hf s. rewrite EachPool_spec. apply preserves_until. frame.
Qed.
End delete.
End PoolFacts.
