(* ===== verification/SpiderPool.v ===== *)
(** * SpiderPool: the spiderpool implementation of the pool manager

    Models pkg/ippool/spiderpool/controller.go on the objects of
    vendor/github.com/spidernet-io/spiderpool.  The handlers run atomically:
    each one holds [n.mu] while it touches the cache. *)
From S2P Require Import Prelude.
From S2P Require Import HashSet.
From S2P Require Import Backoff.
From S2P Require Import Objects.
From S2P Require Import IPPool.

(** ** The custom resource

    The fields of [IPPoolSpec] and [IPPoolStatus] that the program reads or
    writes; the others (gateway, vlan, routes, affinities, ...) are copied by
    every operation and left out.  A slice may be nil ([None]), which
    [reflect.DeepEqual] tells from an empty one. *)
Record IPPoolSpec := {
  IPVersion : option Z;
  SpecSubnet : string;
  IPs : option (list string);
  ExcludeIPs : option (list string);
  SpecNamespaceName : option (list string);
  SpecNodeName : option (list string)
}.

Record IPPoolStatus := { AllocatedIPs : option string; AllocatedIPCount : option Z }.

Record SpiderIPPool := { Meta : ObjectMeta; Spec : IPPoolSpec; Status : IPPoolStatus }.

Definition set_meta (m : ObjectMeta) (o : SpiderIPPool) : SpiderIPPool :=
  {| Meta := m; Spec := Spec o; Status := Status o |}.
Definition set_spec (sp : IPPoolSpec) (o : SpiderIPPool) : SpiderIPPool :=
  {| Meta := Meta o; Spec := sp; Status := Status o |}.

#[export] Instance SpiderIPPool_object : KubeObject SpiderIPPool.
Proof. refine {| obj_meta := Meta; with_meta := set_meta |}; [done|by intros []]. Defined.

(** [util.Ipv4Family()] *)
Definition Ipv4Family : option Z := Some 4%Z.

(** encoding/json: the keys of a JSON object, or the decoding error. *)
Class JsonObject := { json_keys : string → error + list string }.

(** ** The controller *)
Record controller := {
  pools : gmap string Pool;
  postfns : list nat  (* the registered callbacks, by number *)
}.

Definition empty_controller : controller := {| pools := ∅; postfns := [] |}.

Definition set_pools (p : gmap string Pool) (c : controller) : controller :=
  {| pools := p; postfns := postfns c |}.

Module SpiderPool.
Section controller.
Context {S : Type} `{!RangeOrder, !JsonObject, !Lens S controller,
  !KubeClient S SpiderIPPool}.
Implicit Types (s : S) (p pl : Pool) (o : SpiderIPPool).

(** [append] on a possibly nil slice. *)
Definition append (l : option (list string)) (x : string) : option (list string) :=
  Some (default [] l ++ [x]).

(** An access to the cached pool [name] through its pointer. *)
Definition with_pool (name : string) (f : Pool → outcome Pool) : go S unit :=
  let* c := load in
  match pools c !! name with
  | None => go_panic NilDeref
  | Some p => let* p := go_lift (f p) in store (set_pools (<[name := p]> (pools c)) c)
  end.

Definition add_namespace (v : value) p : outcome Pool :=
  out_bind (HashSet.Add (Namespace p) [v]) (λ n,
  Ret {| NodeName := NodeName p; MainId := MainId p; Subnat := Subnat p;
         Namespace := n; CapIp := CapIp p; UsedIp := UsedIp p |}).
Definition add_cap (v : value) p : outcome Pool :=
  out_bind (HashSet.Add (CapIp p) [v]) (λ n,
  Ret {| NodeName := NodeName p; MainId := MainId p; Subnat := Subnat p;
         Namespace := Namespace p; CapIp := n; UsedIp := UsedIp p |}).
Definition add_used (v : value) p : outcome Pool :=
  out_bind (HashSet.Add (UsedIp p) [v]) (λ n,
  Ret {| NodeName := NodeName p; MainId := MainId p; Subnat := Subnat p;
         Namespace := Namespace p; CapIp := CapIp p; UsedIp := n |}).

(** [range] over a slice with one variable yields the indices. *)
Definition indices (l : option (list string)) : list Z :=
  Z.of_nat <$> seq 0 (length (default [] l)).

(** The finalizer step at the end of Reconcile. *)
Definition ensure_finalizer (inn : SpiderIPPool) : go S Result :=
  if ContainsFinalizer (Meta inn) FinializerController then go_ret None
  else
    let inCopy := set_meta (fst (AddFinalizer (Meta inn) FinializerController)) inn in
    go_call (kpatch inCopy inn).

(** The part of Reconcile after the object was read and has the subnat
    annotation, with [n.mu] held. *)
Definition reconcile_cached (inn : SpiderIPPool) (subnat : string) : go S Result :=
  let mainip := Name (Meta inn) in
  let* c := load in
  (match pools c !! mainip with
   | Some _ => go_ret tt
   | None =>
       match default [] (SpecNodeName (Spec inn)) with
       | [] => go_panic IndexOutOfRange
       | node :: _ =>
           store (set_pools (<[mainip :=
             {| NodeName := node; MainId := ""; Subnat := subnat; Namespace := Some ∅;
                CapIp := Some ∅; UsedIp := Some ∅ |}]> (pools c)) c)
       end
   end) ;;;
  for_acc (indices (SpecNamespaceName (Spec inn)))
    (λ _ ns, with_pool mainip (add_namespace (VKey (KInt ns)))) tt ;;;
  with_pool mainip (add_cap (VStrings (default [] (IPs (Spec inn))))) ;;;
  let* decoded :=
    match AllocatedIPs (Status inn) with
    | None => go_ret true
    | Some text =>
        match json_keys text with
        | inl _ => go_ret false
        | inr ips =>
            for_acc (range_order ips)
              (λ _ ip, with_pool mainip (add_used (VKey (KString ip)))) tt ;;;
            go_ret true
        end
    end in
  if negb decoded then go_ret None
  else if negb (IsZero (DeletionTimestamp (Meta inn))) then go_ret None
  else ensure_finalizer inn.

Definition Reconcile (name : string) : go S Result :=
  let* r := go_call (kget name) in
  match r with
  | inl err =>
      if IsNotFound err then
        let* c := load in
        store (set_pools (delete name (pools c)) c) ;;; go_ret None
      else go_ret (Some err)
  | inr inn =>
      match Annotations (Meta inn) !! SubnatAnnotationsKey with
      | None => go_ret None
      | Some subnat => reconcile_cached inn subnat
      end
  end.

(** The event filter of [probe]: only objects with the annotation. *)
Definition event_filter o : bool :=
  bool_decide (is_Some (Annotations (Meta o) !! SubnatAnnotationsKey)).

Definition cache_values (c : controller) : list Pool :=
  range_order (snd <$> map_to_list (pools c)).

Definition EachPool {B} (fn : B → Pool → go S (B * option error)) (b : B) : go S B :=
  let* c := load in
  for_until (cache_values c) (λ b v, let* p := go_lift (DeepCopy v) in fn b p) b.

Definition GetPoolByIp (mainip : string) : go S (option Pool) :=
  let* c := load in
  match pools c !! mainip with
  | None => go_ret None
  | Some v => let* p := go_lift (DeepCopy v) in go_ret (Some p)
  end.

Definition GetPoolBySubnat (name : string) : go S (list Pool) :=
  let* c := load in
  for_acc (cache_values c)
    (λ acc pool, if decide (Subnat pool = name)
                 then let* p := go_lift (DeepCopy pool) in go_ret (acc ++ [p])
                 else go_ret acc) [].

(** One message of [handlerCallback]; [run] calls a registered function. *)
Definition handle_event (run : nat → option Pool → go S unit) (name : string) : go S unit :=
  let* ori := GetPoolByIp name in
  let* c := load in
  for_acc (postfns c) (λ _ fn, run fn ori) tt.

Definition RegistCallback (fn : nat) : go S unit :=
  let* c := load in store {| pools := pools c; postfns := postfns c ++ [fn] |}.
(** ** Updates of the custom resource *)

Definition with_exclude (l : option (list string)) o : SpiderIPPool :=
  set_spec {| IPVersion := IPVersion (Spec o); SpecSubnet := SpecSubnet (Spec o);
              IPs := IPs (Spec o); ExcludeIPs := l;
              SpecNamespaceName := SpecNamespaceName (Spec o);
              SpecNodeName := SpecNodeName (Spec o) |} o.

(** [defer]: the body, then the deferred retried Delete, whose result is
    dropped. *)
Definition always_delete (name : string) (body : go S (option error)) : go S (option error) :=
  let* err := body in
  let* _ := Backoff.Backoff (go_call (kdelete name)) in
  go_ret err.

Definition deletePool (pl : option Pool) : go S (option error) :=
  match pl with
  | None => go_ret (Some (EMsg "could not delete pool, id is null"))
  | Some pl =>
      if decide (MainId pl = "") then
        go_ret (Some (EMsg "could not delete pool, id is null"))
      else
        let* r := go_call (kget (MainId pl)) in
        match r with
        | inl err => if IsNotFound err then go_ret None else go_ret (Some err)
        | inr pool =>
            always_delete (obj_name pool)
              (if decide (IPs (Spec pool) ≠ ExcludeIPs (Spec pool)) then
                 let poolCopy := with_exclude (IPs (Spec pool)) pool in
                 let* _ := Backoff.Backoff (go_call (kpatch poolCopy pool)) in
                 go_ret (Some (EMsg "capacityIP is not equal exlucdeIP, can not remove now"))
               else if decide (AllocatedIPCount (Status pool) ≠ None ∧
                               AllocatedIPCount (Status pool) ≠ Some 0%Z) then
                 go_ret (Some (EMsg "some ip allocated, can not remove now"))
               else
                 let poolCopy :=
                   set_meta (fst (RemoveFinalizer (Meta pool) FinializerController)) pool in
                 let* _ := Backoff.Backoff (go_call (kpatch poolCopy pool)) in
                 go_ret (Some (EMsg "pool resource existed")))
        end
  end.

(** The spec that [updatePool] computes from the pool and the stored one. *)
Definition updated_spec pl o : outcome IPPoolSpec :=
  out_bind (HashSet.Values (Namespace pl)) (λ nsv,
  out_bind (out_fold nsv (λ ns v,
    out_bind (assert_string v) (λ x, Ret (append ns x))) None) (λ ns,
  out_bind (HashSet.Values (CapIp pl)) (λ ipv,
  out_bind (out_fold ipv (λ ips v,
    out_bind (assert_string v) (λ x, Ret (append ips x))) None) (λ ips,
  out_bind (out_fold (default [] (IPs (Spec o))) (λ ex ip,
    out_bind (HashSet.Contains (CapIp pl) [VKey (KString ip)]) (λ b,
    Ret (if b then ex else append ex ip))) None) (λ excludips,
  Ret {| IPVersion := IPVersion (Spec o); SpecSubnet := SpecSubnet (Spec o);
         IPs := ips; ExcludeIPs := excludips; SpecNamespaceName := ns;
         SpecNodeName := SpecNodeName (Spec o) |}))))).

Definition updatePool pl : go S (option error) :=
  if decide (Subnat pl = "") then
    go_ret (Some (EMsg "could not update pool, subnat is null"))
  else
    let* r := go_call (kget (MainId pl)) in
    match r with
    | inl err => go_ret (Some err)
    | inr pool =>
        if negb (IsZero (DeletionTimestamp (Meta pool))) then
          go_ret (Some (EMsg "pool had been deleted"))
        else
          let* spec := go_lift (updated_spec pl pool) in
          Backoff.Backoff (go_call (kpatch (set_spec spec pool) pool))
    end.

(** The object that the create branch builds. *)
Definition new_object pl : outcome SpiderIPPool :=
  out_bind (HashSet.Size (CapIp pl)) (λ _,
  out_bind (HashSet.Values (CapIp pl)) (λ ipv,
  out_bind (assert_strings ipv) (λ ips,
  out_bind (HashSet.Size (Namespace pl)) (λ _,
  out_bind (HashSet.Values (Namespace pl)) (λ nsv,
  out_bind (assert_strings nsv) (λ nss,
  Ret {| Meta := {| Name := MainId pl;
                    Annotations := {[ SubnatAnnotationsKey := Subnat pl ]};
                    Finalizers := []; DeletionTimestamp := None |};
         Spec := {| IPVersion := Ipv4Family; SpecSubnet := ""; IPs := Some ips;
                    ExcludeIPs := None; SpecNamespaceName := Some nss;
                    SpecNodeName := Some [IPPool.NodeName pl] |};
         Status := {| AllocatedIPs := None; AllocatedIPCount := None |} |})))))).

Definition UpdatePool (pl : option Pool) (ev : Event) : go S (option error) :=
  match pl with
  | None => go_ret (Some (EMsg "could not update pool, id is null"))
  | Some pl =>
      if decide (MainId pl = "") then
        go_ret (Some (EMsg "could not update pool, id is null"))
      else
        match ev with
        | DeleteE => go_call (kdelete (MainId pl))
        | UpdateE => updatePool pl
        | CreateE =>
            let* r := go_call (kget (MainId pl)) in
            match r with
            | inl err =>
                if IsNotFound err then
                  let* pool := go_lift (new_object pl) in
                  Backoff.Backoff (go_call (kcreate pool))
                else go_ret (Some err)
            | inr _ => go_ret None
            end
        | OtherE _ => go_ret None
        end
  end.
End controller.
End SpiderPool.
