(* ===== verification/SpiderPoolFacts.v ===== *)
(** * SpiderPoolFacts: what the spiderpool controller guarantees

    The cache: a reconcile of an annotated pool always panics, so no run of
    the controller ever caches a pool.  The custom resource: what each update
    writes, when an object may disappear, and that repeated deletions end, with
    a client whose reads may be behind its writes. *)
From S2P Require Import Prelude.
From S2P Require Import HashSet.
From S2P Require Import Backoff.
From S2P Require Import Objects.
From S2P Require Import IPPool.
From S2P Require Import SpiderPool.

Module SpiderPoolFacts.
Import SpiderPool.

Section cache.
Context {S : Type} `{!RangeOrder, !JsonObject, !Lens S controller,
  !KubeClient S SpiderIPPool}.
Implicit Types (s : S) (p pl : Pool) (o : SpiderIPPool).

(** Every cached pool has its three sets. *)
Definition cache_wf (c : controller) : Prop := map_Forall (λ _ p, allocated p) (pools c).

Lemma load_run s : load (S:=S) (C:=controller) s = (Ret (view s), s).
Proof. done. Qed.

Lemma with_pool_run name f s p p' :
  pools (view s) !! name = Some p → f p = Ret p' →
  with_pool name f s = (Ret tt, put (set_pools (<[name := p']> (pools (view s))) (view s)) s).
Proof.
  intros Hp Hf. unfold with_pool. rewrite (go_bind_run _ _ _ _ _ (load_run s)), Hp.
  unfold go_bind, go_lift. by rewrite Hf.
Qed.

Lemma with_pool_panic name f s p e :
  pools (view s) !! name = Some p → f p = Panic e → with_pool name f s = (Panic e, s).
Proof.
  intros Hp Hf. unfold with_pool. rewrite (go_bind_run _ _ _ _ _ (load_run s)), Hp.
  unfold go_bind, go_lift. by rewrite Hf.
Qed.

Lemma add_namespace_run k p :
  allocated p → ∃ p', add_namespace (VKey k) p = Ret p' ∧ allocated p'.
Proof.
  intros ([n Hn] & Hc & Hu). unfold add_namespace. rewrite Hn. simpl.
  eexists. split; [done|]. by repeat split; simpl.
Qed.

(** The namespace loop keeps the pool cached and allocated, and touches only
    the cache. *)
Lemma namespace_loop name l s p :
  pools (view s) !! name = Some p → allocated p →
  ∃ c p', for_acc l (λ _ ns, with_pool name (add_namespace (VKey (KInt ns)))) tt s =
             (Ret tt, put c s) ∧ pools c !! name = Some p' ∧ allocated p'.
Proof.
  intros Hp Ha.
  destruct (for_acc_inv
    (λ (_ : unit) s', ∃ c p, s' = put c s ∧ pools c !! name = Some p ∧ allocated p)
    (λ _ ns, with_pool name (add_namespace (VKey (KInt ns)))) l tt s)
    as ([] & s' & Hs & c & p' & -> & Hp' & Ha').
  - intros [] ns s1 _ (c1 & p1 & -> & Hp1 & Ha1).
    destruct (add_namespace_run (KInt ns) p1 Ha1) as (p2 & Hadd & Ha2).
    exists tt. eexists. split; [apply (with_pool_run _ _ _ p1 p2); [by rewrite view_put|done]|].
    rewrite view_put, put_put. eexists _, p2. split; [done|]. split; [apply lookup_insert_eq|done].
  - exists (view s), p. by rewrite put_view.
  - exists c, p'. done.
Qed.

(** Once the pool is cached, the capacity step always panics: the whole
    [Spec.IPs] slice is one element of a hash set.  Nothing but the cache was
    touched by then. *)
Lemma reconcile_cached_panics inn subnat s :
  cache_wf (view s) →
  ∃ c, reconcile_cached inn subnat s =
    (Panic (if decide (pools (view s) !! Name (Meta inn) = None ∧
                       default [] (SpecNodeName (Spec inn)) = [])
            then IndexOutOfRange else UnhashableKey), put c s).
Proof.
  intros Hwf. unfold reconcile_cached. rewrite (go_bind_run _ _ _ _ _ (load_run s)).
  set (name := Name (Meta inn)).
  assert (Htail : ∀ c1 p1 (rest : go S Result),
    pools c1 !! name = Some p1 → allocated p1 →
    ∃ c, go_bind (for_acc (indices (SpecNamespaceName (Spec inn)))
            (λ _ ns, with_pool name (add_namespace (VKey (KInt ns)))) tt)
          (λ _, go_bind (with_pool name (add_cap (VStrings (default [] (IPs (Spec inn))))))
          (λ _, rest)) (put c1 s) = (Panic UnhashableKey, put c s)).
  { intros c1 p1 rest Hp1 Ha1.
    destruct (namespace_loop name (indices (SpecNamespaceName (Spec inn))) (put c1 s) p1)
      as (c & p2 & Hs2 & Hp2 & (? & [cap Hc] & ?)); [by rewrite view_put|done|].
    rewrite put_put in Hs2. exists c. rewrite (go_bind_run _ _ _ _ _ Hs2).
    apply go_bind_panic, (with_pool_panic _ _ _ p2); [by rewrite view_put|].
    unfold add_cap. by rewrite Hc. }
  destruct (pools (view s) !! name) as [p|] eqn:Hp.
  - rewrite decide_False by naive_solver. rewrite go_bind_ret_l.
    edestruct (Htail (view s) p) as [c Hc]; [done|by apply (Hwf name)|].
    rewrite put_view in Hc. exists c. exact Hc.
  - destruct (default [] (SpecNodeName (Spec inn))) as [|node nodes].
    + rewrite decide_True by done. exists (view s). by rewrite put_view.
    + rewrite decide_False by naive_solver. erewrite go_bind_run by done.
      eapply Htail; [apply lookup_insert_eq|by repeat split; simpl].
Qed.
Context `{!KubeFrame S SpiderIPPool controller}.

(** C16. A reconcile of a pool with the subnet annotation always panics: on the
    node index for a new pool without a node, otherwise on the hash of the
    slice of addresses, which is added as one element. *)
Theorem Reconcile_annotated_panics name inn subnat s :
  cache_wf (view s) →
  fst (kget name s) = inr inn →
  Annotations (Meta inn) !! SubnatAnnotationsKey = Some subnat →
  ∃ s', Reconcile name s =
    (Panic (if decide (pools (view s) !! Name (Meta inn) = None ∧
                       default [] (SpecNodeName (Spec inn)) = [])
            then IndexOutOfRange else UnhashableKey), s').
Proof.
  intros Hwf Hget Hann. unfold Reconcile.
  pose proof (kget_view (C:=controller) name s) as Hview.
  destruct (kget name s) as [r s1] eqn:Hk; simpl in *; subst r.
  erewrite go_bind_run by (unfold go_call; by rewrite Hk).
  cbv beta iota. rewrite Hann, <-Hview.
  destruct (reconcile_cached_panics inn subnat s1) as [c Hc]; [by rewrite Hview|].
  eauto.
Qed.
End cache.

(** ** Slices built from key sets *)
Section keys.
Context `{!RangeOrder}.

(** Appending to a possibly nil slice. *)
Definition extend (l : option (list string)) (xs : list string) : option (list string) :=
  match xs with [] => l | _ => Some (default [] l ++ xs) end.

Lemma extend_cons l x xs : extend (append l x) xs = extend l (x :: xs).
Proof. destruct xs; simpl; [done|]. by rewrite <-app_assoc. Qed.

Lemma append_all l xs :
  out_fold (KString <$> xs) (λ acc v, out_bind (assert_string v) (λ x, Ret (append acc x))) l =
  Ret (extend l xs).
Proof. revert l. induction xs as [|x xs IH]; intros l; csimpl; [done|]. by rewrite IH, extend_cons. Qed.

Lemma exclude_all X l xs :
  out_fold xs (λ ex ip,
    out_bind (HashSet.Contains (Some (keys X)) [VKey (KString ip)]) (λ b,
    Ret (if b then ex else append ex ip))) l =
  Ret (extend l (filter (λ x, x ∉ X) xs)).
Proof.
  revert l. induction xs as [|x xs IH]; intros l; [done|].
  rewrite out_fold_cons, Contains_keys; unfold out_bind at 1 2. rewrite IH, filter_cons. f_equal.
  case_bool_decide; case_decide; try done. by rewrite extend_cons.
Qed.
End keys.

(** The relation between the stored object and the one [updatePool] writes:
    the usable addresses are the capacity set, the excluded ones the old
    addresses outside it, and nothing else changes but the namespaces. *)
Definition slice_of (l : option (list string)) : list string := default [] l.

Definition updates_to (cap ns : gset string) (o o' : SpiderIPPool) : Prop :=
  Meta o' = Meta o ∧ Status o' = Status o ∧
  IPVersion (Spec o') = IPVersion (Spec o) ∧ SpecSubnet (Spec o') = SpecSubnet (Spec o) ∧
  SpecNodeName (Spec o') = SpecNodeName (Spec o) ∧
  slice_of (IPs (Spec o')) ≡ₚ elements cap ∧
  slice_of (SpecNamespaceName (Spec o')) ≡ₚ elements ns ∧
  slice_of (ExcludeIPs (Spec o')) = filter (λ x, x ∉ cap) (slice_of (IPs (Spec o))).

Lemma slice_of_extend l : slice_of (extend None l) = l.
Proof. by destruct l. Qed.

Lemma updated_spec_run `{!RangeOrder} (pl : Pool) o cap ns :
  CapIp pl = Some (keys cap) → Namespace pl = Some (keys ns) →
  ∃ sp, updated_spec pl o = Ret sp ∧ updates_to cap ns o (set_spec sp o).
Proof.
  intros Hc Hn. unfold updated_spec. rewrite Hc, Hn.
  destruct (Values_keys ns) as (lns & -> & Hlns). destruct (Values_keys cap) as (lc & -> & Hlc).
  rewrite !out_bind_ret, append_all, !out_bind_ret, append_all, out_bind_ret, exclude_all,
    out_bind_ret.
  eexists. split; [done|]. unfold updates_to; simpl. by rewrite !slice_of_extend.
Qed.

(** ** The stored object, through calls that may fail *)
Section server.
Context {S : Type} `{!RangeOrder, !JsonObject, !Lens S controller,
  !KubeClient S SpiderIPPool, !KubeServer S SpiderIPPool}.
Implicit Types (s : S) (pl : Pool) (o : SpiderIPPool).

(** A retried patch of the object that was read: it returns, the store is
    unchanged or has the new object, and success means the latter. *)
Lemma patch_retried (new base : SpiderIPPool) s :
  kstore s !! obj_name new = Some base →
  ∃ r s', Backoff.Backoff (go_call (kpatch new base)) s = (Ret r, s') ∧
    at_most new (kstore s) s' ∧ (r = None → kstore s' = persist new (kstore s)).
Proof.
  intros Hbase. apply Backoff.Backoff_post; [apply total_call| |by left].
  intros s1 r s2 Hat Hp. unfold go_call in Hp.
  pose proof (kpatch_attempt new base (kstore s) s1 Hbase Hat) as Hk.
  destruct (kpatch new base s1); by simplify_eq/=.
Qed.

(** A retried delete of an object with a finalizer only marks it. *)
Definition marked (o o' : SpiderIPPool) : Prop := o' = o ∨ ∃ t, o' = mark_deleted t o.

Lemma marked_trans o1 o2 o3 : marked o1 o2 → marked o2 o3 → marked o1 o3.
Proof.
  unfold marked, mark_deleted.
  intros [->|[t ->]] [->|[t' ->]]; eauto. right.
  destruct (deleting o1) eqn:Hd; [exists t'; simpl; by rewrite Hd|by exists t].
Qed.

Lemma marked_finalizers o o' : marked o o' → Finalizers (Meta o') = Finalizers (Meta o).
Proof. intros [->|[t ->]]; [done|]. exact (mark_deleted_finalizers (O:=SpiderIPPool) t o). Qed.

Lemma delete_retried n o f s :
  kstore s !! n = Some o → f ∈ Finalizers (Meta o) →
  ∃ r s' o', Backoff.Backoff (go_call (kdelete n)) s = (Ret r, s') ∧
    kstore s' = <[n := o']> (kstore s) ∧ marked o o'.
Proof.
  intros Ho Hf.
  destruct (Backoff.Backoff_post
    (λ s', ∃ o', kstore s' = <[n := o']> (kstore s) ∧ marked o o') (λ _, True)
    (go_call (kdelete n)) s (total_call _)) as (r & s' & Hrun & (o' & Hs' & Hm) & _).
  - intros s1 r s2 (o1 & Hs1 & Hm1) Hd. split; [|done].
    unfold go_call in Hd.
    destruct (kdelete_finalizer n s1 o1 f) as (o2 & Ho2 & Hm2).
    + rewrite Hs1. apply lookup_insert_eq.
    + change (obj_meta o1) with (Meta o1). by rewrite (marked_finalizers _ _ Hm1).
    + destruct (kdelete n s1); simplify_eq/=. exists o2.
      rewrite Ho2, Hs1, insert_insert_eq. split; [done|]. by eapply marked_trans.
  - exists o. split; [by rewrite insert_id|by left].
  - exists r, s', o'. done.
Qed.
Lemma kget_run n s :
  ∃ s', go_call (kget n) s = (Ret (fst (kget n s)), s') ∧ kstore s' = kstore s.
Proof.
  pose proof (kget_store n s). unfold go_call. destruct (kget n s) as [r s']. by exists s'.
Qed.

(** From here on the reads are current. *)
Context `{!KubeCurrent S SpiderIPPool}.

(** C10. updatePool on a stored pool that is not being deleted. *)
Theorem updatePool_updates pl cap ns o s :
  CapIp pl = Some (keys cap) → Namespace pl = Some (keys ns) → Subnat pl ≠ "" →
  fst (kget (MainId pl) s) = inr o → DeletionTimestamp (Meta o) = None →
  ∃ r s' o', updatePool pl s = (Ret r, s') ∧ updates_to cap ns o o' ∧
    (kstore s' = kstore s ∨ kstore s' = <[MainId pl := o']> (kstore s)) ∧
    (r = None → kstore s' !! MainId pl = Some o').
Proof.
  intros Hcap Hns Hsub Hget Hdel. unfold updatePool. rewrite decide_False by done.
  destruct (kget_run (MainId pl) s) as (s1 & Hg & Hs1).
  rewrite (go_bind_run _ _ _ _ _ Hg), Hget. unfold IsZero. rewrite bool_decide_true by done.
  destruct (updated_spec_run pl o cap ns Hcap Hns) as (sp & Hsp & Hup).
  simpl negb. cbv iota. rewrite Hsp.
  pose proof (kget_found _ _ _ Hget) as Hst. rewrite <-Hs1 in Hst.
  assert (Hname : obj_name (set_spec sp o) = MainId pl)
    by exact (kstore_name s1 _ o Hst).
  destruct (patch_retried (set_spec sp o) o s1) as (r & s' & Hrun & Hat & Hok);
    [by rewrite Hname|].
  assert (Hpers : persist (set_spec sp o) (kstore s1) = <[MainId pl := set_spec sp o]> (kstore s)).
  { unfold persist, deleting, IsZero. simpl. rewrite Hdel. by rewrite Hname, Hs1. }
  exists r, s', (set_spec sp o). split; [done|]. split; [done|]. split.
  - rewrite <-Hpers. destruct Hat as [->| ->]; [by left|by right].
  - intros Hr. rewrite (Hok Hr), Hpers. apply lookup_insert_eq.
Qed.

(** C3. deletePool never lets a pool disappear that still hands out addresses:
    as long as some address is not excluded, or some is allocated, the
    object and its finalizer stay, whatever calls fail. *)
Theorem deletePool_safe pl o s :
  MainId pl ≠ "" → kstore s !! MainId pl = Some o →
  FinializerController ∈ Finalizers (Meta o) →
  IPs (Spec o) ≠ ExcludeIPs (Spec o) ∨
    (AllocatedIPCount (Status o) ≠ None ∧ AllocatedIPCount (Status o) ≠ Some 0%Z) →
  ∃ e s' o', deletePool (Some pl) s = (Ret (Some e), s') ∧
    kstore s' !! MainId pl = Some o' ∧ FinializerController ∈ Finalizers (Meta o').
Proof.
  intros Hid Ho Hfin Hbusy. unfold deletePool. rewrite decide_False by done.
  destruct (kget_run (MainId pl) s) as (s1 & Hg & Hs1).
  rewrite (go_bind_run _ _ _ _ _ Hg). destruct (fst (kget (MainId pl) s)) as [e|o1] eqn:Hget.
  { assert (Hnf : IsNotFound e = false).
    { unfold IsNotFound. apply bool_decide_eq_false. intros ->.
      apply kget_not_found in Hget. congruence. }
    rewrite Hnf. exists e, s1, o. by rewrite Hs1. }
  apply kget_found in Hget as Ho1. assert (o1 = o) as -> by congruence. clear Ho1.
  assert (Hname : obj_name o = MainId pl) by exact (kstore_name s _ o Ho).
  rewrite Hname. unfold always_delete.
  (* the patch, if any, leaves an object with the finalizer *)
  assert (Hend : ∀ (m : go S (option error)) e s2 o2, m s1 = (Ret (Some e), s2) →
    kstore s2 !! MainId pl = Some o2 → FinializerController ∈ Finalizers (Meta o2) →
    ∃ e s' o', go_bind m (λ err, let* _ := Backoff.Backoff (go_call (kdelete (MainId pl))) in
                                 go_ret err) s1 = (Ret (Some e), s') ∧
      kstore s' !! MainId pl = Some o' ∧ FinializerController ∈ Finalizers (Meta o')).
  { intros m e s2 o2 Hm Ho2 Hf2. rewrite (go_bind_run _ _ _ _ _ Hm).
    destruct (delete_retried (MainId pl) o2 FinializerController s2 Ho2 Hf2)
      as (r & s3 & o3 & Hrun & Hs3 & Hmark).
    rewrite (go_bind_run _ _ _ _ _ Hrun). exists e, s3, o3. split; [done|].
    rewrite Hs3, lookup_insert_eq. split; [done|]. by rewrite (marked_finalizers _ _ Hmark). }
  case_decide as Hex.
  - destruct (patch_retried (with_exclude (IPs (Spec o)) o) o s1)
      as (r & s2 & Hrun & Hat & _); [by rewrite Hs1, <-Ho, <-Hname|].
    destruct Hat as [Hs2|Hs2].
    + eapply (Hend _ _ s2 o); [by rewrite (go_bind_run _ _ _ _ _ Hrun)|by rewrite Hs2, Hs1|done].
    + eapply (Hend _ _ s2); [by rewrite (go_bind_run _ _ _ _ _ Hrun)| |].
      * rewrite Hs2, (persist_finalizer _ _ FinializerController) by done.
        rewrite <-Hname. apply lookup_insert_eq.
      * done.
  - destruct Hbusy as [Hbusy|Hbusy]; [done|]. rewrite decide_True by done.
    by eapply (Hend _ _ s1 o); [|by rewrite Hs1|].
Qed.
(** UpdatePool with DeleteE on a pool with the finalizer: whatever it
    reports, the object is still there, with its data. *)
Lemma UpdatePool_delete_keeps pl o f s :
  MainId pl ≠ "" → kstore s !! MainId pl = Some o → f ∈ Finalizers (Meta o) →
  ∃ r s' o', UpdatePool (Some pl) DeleteE s = (Ret r, s') ∧
    kstore s' = <[MainId pl := o']> (kstore s) ∧ marked o o'.
Proof.
  intros Hid Ho Hf. unfold UpdatePool. rewrite decide_False by done. unfold go_call.
  destruct (kdelete_finalizer (MainId pl) s o f Ho Hf) as (o' & Hs' & Hm).
  destruct (kdelete (MainId pl) s) as [r s']. by exists r, s', o'.
Qed.

(** A retried create writes the new object or nothing. *)
Lemma create_retried (new : SpiderIPPool) s :
  ∃ r s', Backoff.Backoff (go_call (kcreate new)) s = (Ret r, s') ∧
    (kstore s' = kstore s ∨
     kstore s !! obj_name new = None ∧ kstore s' = <[obj_name new := new]> (kstore s)) ∧
    (r = None → kstore s' !! obj_name new = Some new).
Proof.
  apply Backoff.Backoff_post; [apply total_call| |by left].
  intros s1 r s2 Hat Hc. unfold go_call in Hc.
  pose proof (kcreate_cases new s1) as Hcase.
  destruct (kcreate new s1) as [r1 s2'] eqn:Hk; simplify_eq/=.
  destruct Hcase as [[[e ->] ->]|[Hn ->]]; [done|].
  destruct Hat as [Hs1|[_ Hs1]]; [|by rewrite Hs1, lookup_insert_eq in Hn].
  rewrite Hs1 in *. rewrite lookup_insert_eq. auto.
Qed.

(** The object that CreateE builds from string sets. *)
Definition creates (pl : Pool) (cap ns : gset string) (o : SpiderIPPool) : Prop :=
  Meta o = {| Name := MainId pl; Annotations := {[ SubnatAnnotationsKey := Subnat pl ]};
              Finalizers := []; DeletionTimestamp := None |} ∧
  SpecNodeName (Spec o) = Some [IPPool.NodeName pl] ∧ IPVersion (Spec o) = Some 4%Z ∧
  ExcludeIPs (Spec o) = None ∧ AllocatedIPs (Status o) = None ∧
  slice_of (IPs (Spec o)) ≡ₚ elements cap ∧
  slice_of (SpecNamespaceName (Spec o)) ≡ₚ elements ns.

Lemma new_object_run pl cap ns :
  CapIp pl = Some (keys cap) → Namespace pl = Some (keys ns) →
  ∃ o, new_object pl = Ret o ∧ creates pl cap ns o.
Proof.
  intros Hc Hn. unfold new_object. rewrite Hc, Hn, !HashSet.Size_Some, !out_bind_ret.
  destruct (Values_keys cap) as (lc & -> & Hlc). destruct (Values_keys ns) as (ln & -> & Hln).
  rewrite !out_bind_ret, !assert_strings_keys, !out_bind_ret, assert_strings_keys, out_bind_ret.
  eexists. split; [done|]. by repeat split.
Qed.

(** C19. UpdatePool with CreateE: a pool that exists is left alone; otherwise
    success means that the object is stored as built, and every other
    object is as before. *)
Theorem UpdatePool_create pl cap ns s :
  MainId pl ≠ "" → CapIp pl = Some (keys cap) → Namespace pl = Some (keys ns) →
  ∃ r s', UpdatePool (Some pl) CreateE s = (Ret r, s') ∧
    (is_Some (kstore s !! MainId pl) → kstore s' = kstore s) ∧
    (r = None → ∃ o, kstore s' !! MainId pl = Some o ∧
                     (kstore s !! MainId pl = Some o ∨ creates pl cap ns o)) ∧
    (∀ n, n ≠ MainId pl → kstore s' !! n = kstore s !! n).
Proof.
  intros Hid Hcap Hns. unfold UpdatePool. rewrite decide_False by done.
  destruct (kget_run (MainId pl) s) as (s1 & Hg & Hs1).
  rewrite (go_bind_run _ _ _ _ _ Hg). destruct (fst (kget (MainId pl) s)) as [e|o] eqn:Hget.
  - unfold IsNotFound. case_bool_decide as He;
      [|by exists (Some e), s1; rewrite Hs1].
    destruct (new_object_run pl cap ns Hcap Hns) as (o & Ho & Hcr). rewrite Ho.
    assert (Hname : obj_name o = MainId pl) by (unfold obj_name; simpl; by destruct Hcr as [-> _]).
    destruct (create_retried o s1) as (r & s' & Hrun & Hst & Hok).
    rewrite Hname, Hs1 in *. subst e. apply kget_not_found in Hget.
    exists r, s'. split; [done|]. split; [|split].
    + by rewrite Hget; intros [].
    + intros Hr. exists o. auto.
    + intros n Hn. destruct Hst as [->|[_ ->]]; [done|]. by rewrite lookup_insert_ne.
  - apply kget_found in Hget. exists None, s1. rewrite Hs1. eauto 10.
Qed.
End server.

(** ** Deletion ends *)
Section reliable.
Context {S : Type} `{!RangeOrder, !JsonObject, !Lens S controller,
  !KubeClient S SpiderIPPool, !KubeServer S SpiderIPPool, !KubeReliable S SpiderIPPool}.
Implicit Types (s : S) (pl : Pool) (o : SpiderIPPool).

(** No address is handed out, and the program's finalizer is the only one. *)
Definition releasable o : Prop :=
  (AllocatedIPCount (Status o) = None ∨ AllocatedIPCount (Status o) = Some 0%Z) ∧
  Finalizers (Meta o) = [FinializerController].

Lemma caught_up_run n s :
  caught_up (O:=SpiderIPPool) n s →
  ∃ s', kstore s' = kstore s ∧ go_call (kget n) s = (Ret (answer (kstore s !! n)), s').
Proof. intros Hf. destruct (kget_run n s) as (s' & Hg & Hs'). rewrite Hf in Hg. eauto. Qed.

Lemma patch_reliable (new base : SpiderIPPool) s :
  kstore s !! obj_name new = Some base →
  ∃ s', Backoff.Backoff (go_call (kpatch new base)) s = (Ret None, s') ∧
        kstore s' = persist new (kstore s).
Proof.
  intros Hb. exists (snd (kpatch new base s)). split;
    [|apply (kpatch_ok new base); [by apply kpatch_succeeds|by left]].
  apply Backoff.Backoff_ok. unfold go_call. pose proof (kpatch_succeeds new base s Hb).
  destruct (kpatch new base s); by simplify_eq/=.
Qed.

(** A retried delete of an object without finalizers, or of none. *)
Lemma delete_gone n s :
  (∀ o, kstore s !! n = Some o → Finalizers (Meta o) = []) →
  ∃ r s', Backoff.Backoff (go_call (kdelete n)) s = (Ret r, s') ∧ kstore s' !! n = None.
Proof.
  intros Hf. destruct (kstore s !! n) as [o|] eqn:Ho.
  - pose proof (kdelete_succeeds n s) as Hd. rewrite Ho in Hd. specialize (Hd ltac:(by eexists)).
    destruct (kdelete_ok n s Hd) as (o1 & t & Ho1 & Hs').
    exists None, (snd (kdelete n s)). split.
    + apply Backoff.Backoff_ok. unfold go_call. destruct (kdelete n s); by simplify_eq/=.
    + rewrite Hs'. assert (o1 = o) as -> by congruence.
      rewrite <-(kstore_name s n o Ho), <-(mark_deleted_name t o) at 1. rewrite persist_lookup.
      rewrite mark_deleted_finalizers. change (obj_meta o) with (Meta o).
      rewrite (Hf o eq_refl), bool_decide_true, andb_true_r by done.
      unfold mark_deleted. by destruct (deleting o) eqn:Hdel; [rewrite Hdel|].
  - destruct (Backoff.Backoff_post (λ s, kstore s !! n = None) (λ _, True)
      (go_call (kdelete n)) s (total_call _)) as (r & s' & Hrun & Hs' & _);
      [|done|by exists r, s'].
    intros s1 r s2 Hs1 Hd. split; [|done]. unfold go_call in Hd.
    destruct (kdelete_cases n s1) as [[_ Hk]|(o & t & Ho1 & _)]; [|congruence].
    destruct (kdelete n s1); simplify_eq/=. by rewrite Hk.
Qed.

(** From the state that an earlier call prepared, one call removes it. *)
Lemma deletePool_last pl o s :
  MainId pl ≠ "" → kstore s !! MainId pl = Some o → releasable o → caught_up (O:=SpiderIPPool) (MainId pl) s →
  IPs (Spec o) = ExcludeIPs (Spec o) →
  ∃ e s', deletePool (Some pl) s = (Ret (Some e), s') ∧ kstore s' !! MainId pl = None.
Proof.
  intros Hid Ho [Hcount Hfin] Hfr Hex. unfold deletePool. rewrite decide_False by done.
  destruct (caught_up_run _ s Hfr) as (s1 & Hs1 & Hg). rewrite Ho in Hg; cbn [answer] in Hg.
  rewrite (go_bind_run _ _ _ _ _ Hg).
  pose proof (kstore_name s _ o Ho) as Hname. rewrite Hname.
  rewrite decide_False by auto. rewrite decide_False by naive_solver.
  unfold always_delete. set (new := set_meta _ _).
  assert (Hn : obj_name new = MainId pl) by done.
  assert (Hf : Finalizers (Meta new) = []).
  { unfold new. simpl. by rewrite compact_filter, Hfin. }
  destruct (patch_reliable new o s1) as (s2 & Hrun & Hs2); [by rewrite Hn, Hs1|].
  rewrite go_bind_assoc, (go_bind_run _ _ _ _ _ Hrun), go_bind_ret_l.
  destruct (delete_gone (MainId pl) s2) as (r & s3 & Hd & Hs3).
  - intros o2. rewrite Hs2, <-Hn, persist_lookup. case_match; [done|]. by intros [= <-].
  - rewrite (go_bind_run _ _ _ _ _ Hd). by eexists _, s3.
Qed.

(** The first call on a pool whose addresses are not excluded. *)
Lemma deletePool_first pl o s :
  MainId pl ≠ "" → kstore s !! MainId pl = Some o → releasable o → caught_up (O:=SpiderIPPool) (MainId pl) s →
  IPs (Spec o) ≠ ExcludeIPs (Spec o) →
  ∃ e s' o', deletePool (Some pl) s = (Ret (Some e), s') ∧
    kstore s' !! MainId pl = Some o' ∧ releasable o' ∧ IPs (Spec o') = ExcludeIPs (Spec o').
Proof.
  intros Hid Ho [Hcount Hfin] Hfr Hex. unfold deletePool. rewrite decide_False by done.
  destruct (caught_up_run _ s Hfr) as (s1 & Hs1 & Hg). rewrite Ho in Hg; cbn [answer] in Hg.
  rewrite (go_bind_run _ _ _ _ _ Hg).
  pose proof (kstore_name s _ o Ho) as Hname. rewrite Hname, decide_True by done.
  unfold always_delete. set (new := with_exclude _ _).
  assert (Hn : obj_name new = MainId pl) by done.
  assert (Hf : FinializerController ∈ Finalizers (Meta new)) by (simpl; rewrite Hfin; set_solver).
  destruct (patch_reliable new o s1) as (s2 & Hrun & Hs2); [by rewrite Hn, Hs1|].
  rewrite go_bind_assoc, (go_bind_run _ _ _ _ _ Hrun), go_bind_ret_l.
  rewrite (persist_finalizer _ _ FinializerController) in Hs2 by done.
  destruct (delete_retried (MainId pl) new FinializerController s2) as (r & s3 & o3 & Hd & Hs3 & Hm);
    [by rewrite Hs2, Hn, lookup_insert_eq|done|].
  rewrite (go_bind_run _ _ _ _ _ Hd). eexists _, s3, o3. split; [done|].
  rewrite Hs3, lookup_insert_eq. split; [done|].
  destruct Hm as [->|[t ->]]; [done|]. unfold mark_deleted. by destruct (deleting new).
Qed.

(** Once the pool is gone, a call says so. *)
Lemma deletePool_gone pl s :
  MainId pl ≠ "" → kstore (O:=SpiderIPPool) s !! MainId pl = None →
  caught_up (O:=SpiderIPPool) (MainId pl) s →
  ∃ s', deletePool (Some pl) s = (Ret None, s') ∧ kstore (O:=SpiderIPPool) s' !! MainId pl = None.
Proof.
  intros Hid Hs Hfr. unfold deletePool. rewrite decide_False by done.
  destruct (caught_up_run _ s Hfr) as (s1 & Hs1 & Hg). rewrite Hs in Hg; cbn [answer] in Hg.
  rewrite (go_bind_run _ _ _ _ _ Hg). exists s1. by rewrite Hs1.
Qed.

(** What happens between two calls: nobody writes the object [n], and the
    client's cache catches up with the writes to it. *)
Definition catches_up n s s' : Prop :=
  kstore (O:=SpiderIPPool) s' !! n = kstore (O:=SpiderIPPool) s !! n ∧
  caught_up (O:=SpiderIPPool) n s'.

(** C12. When no write fails, two calls release a pool without allocated
    addresses whose only finalizer is the program's, and the third reports
    that it is gone, provided that nobody else writes the pool meanwhile and
    that each call starts once the cache it reads shows the last write. *)
Theorem deletePool_converges pl o s :
  MainId pl ≠ "" → kstore s !! MainId pl = Some o → releasable o →
  caught_up (O:=SpiderIPPool) (MainId pl) s →
  ∃ e1 s1, deletePool (Some pl) s = (Ret (Some e1), s1) ∧
  ∀ s1', catches_up (MainId pl) s1 s1' →
  ∃ r2 s2, deletePool (Some pl) s1' = (Ret r2, s2) ∧
    kstore (O:=SpiderIPPool) s2 !! MainId pl = None ∧
  ∀ s2', catches_up (MainId pl) s2 s2' →
  ∃ s3, deletePool (Some pl) s2' = (Ret None, s3) ∧
    kstore (O:=SpiderIPPool) s3 !! MainId pl = None.
Proof.
  intros Hid Ho Hrel Hfr.
  assert (Hthird : ∀ s2 s2', kstore (O:=SpiderIPPool) s2 !! MainId pl = None →
    catches_up (MainId pl) s2 s2' →
    ∃ s3, deletePool (Some pl) s2' = (Ret None, s3) ∧
      kstore (O:=SpiderIPPool) s3 !! MainId pl = None).
  { intros s2 s2' Hs2 [Hst Hfr2]. apply deletePool_gone; [done|by rewrite Hst|done]. }
  destruct (decide (IPs (Spec o) = ExcludeIPs (Spec o))) as [Hex|Hex].
  - destruct (deletePool_last pl o s) as (e & s1 & Hr1 & Hs1); [done..|].
    exists e, s1. split; [done|]. intros s1' Hc.
    destruct (Hthird s1 s1' Hs1 Hc) as (s2 & Hr2 & Hs2). exists None, s2. eauto.
  - destruct (deletePool_first pl o s) as (e & s1 & o1 & Hr1 & Hs1 & Hrel1 & Hex1); [done..|].
    exists e, s1. split; [done|]. intros s1' [Hst Hfr1].
    destruct (deletePool_last pl o1 s1') as (e2 & s2 & Hr2 & Hs2); [done|by rewrite Hst|done..|].
    exists (Some e2), s2. eauto.
Qed.
End reliable.

(** ** The implementation of the interface *)
Section manager.
Context {S : Type} `{!RangeOrder, !JsonObject, !Lens S controller,
  !KubeClient S SpiderIPPool}.

#[local] Instance spider_manager : PoolManager S :=
  {| IPPool.UpdatePool := UpdatePool; IPPool.EachPool := @EachPool S _ _ |}.

#[local] Instance spider_manager_laws : PoolManagerLaws S.
Proof. by refine {| cached_pools := λ s, cache_values (view s) |}. Defined.

(** The manager changes only what the API server's calls change. *)
Lemma UpdatePool_preserves {X} (p : S → X) pl ev :
  (∀ n s, p (snd (kget n s)) = p s) → (∀ o s, p (snd (kcreate o s)) = p s) →
  (∀ o b s, p (snd (kpatch o b s)) = p s) → (∀ n s, p (snd (kdelete n s)) = p s) →
  preserves p (UpdatePool (S:=S) pl ev).
Proof.
  intros Hg Hc Hp Hd. unfold UpdatePool. destruct pl as [pl|]; [|done].
  case_decide; [done|].
  assert (Hget : ∀ n, preserves p (go_call (kget n))) by (intros; by apply preserves_call).
  destruct ev as [| | |z]; [|by apply preserves_call| |done].
  - unfold updatePool. case_decide; [done|]. apply preserves_bind; [apply Hget|].
    intros [e|o]; [done|]. case_match; [done|]. apply preserves_bind; [done|]. intros sp.
    apply Backoff.Backoff_preserves. by apply preserves_call.
  - apply preserves_bind; [apply Hget|]. intros [e|o]; [|done].
    case_match; [|done]. apply preserves_bind; [done|]. intros o.
    apply Backoff.Backoff_preserves. by apply preserves_call.
Qed.

(** The lookups return copies of what is cached. *)
Lemma GetPoolByIp_run mainip s :
  cache_wf (view s) → GetPoolByIp mainip s = (Ret (pools (view s) !! mainip), s).
Proof.
  intros Hwf. unfold GetPoolByIp. rewrite (go_bind_run _ _ _ _ _ (load_run s)).
  destruct (pools (view s) !! mainip) as [p|] eqn:Hp; [|done].
  unfold go_bind, go_lift. by rewrite DeepCopy_allocated by by eapply Hwf.
Qed.

Lemma GetPoolBySubnat_run name s :
  cache_wf (view s) →
  GetPoolBySubnat name s = (Ret (filter (λ p, Subnat p = name) (cache_values (view s))), s).
Proof.
  intros Hwf. unfold GetPoolBySubnat. rewrite (go_bind_run _ _ _ _ _ (load_run s)).
  assert (Hall : Forall allocated (cache_values (view s))).
  { apply Forall_forall. intros p Hp. unfold cache_values in Hp.
    rewrite range_order_perm, list_elem_of_fmap in Hp. destruct Hp as ([n p'] & -> & Hp).
    apply elem_of_map_to_list in Hp. by eapply Hwf. }
  set (body := λ (acc : list Pool) pool, if decide (Subnat pool = name) then _ else _).
  enough (Hloop : ∀ acc, for_acc (cache_values (view s)) body acc s =
    (Ret (acc ++ filter (λ p, Subnat p = name) (cache_values (view s))), s)) by apply Hloop.
  induction Hall as [|p l Hp Hl IH]; intros acc; [simpl; by rewrite app_nil_r|].
  simpl for_acc. rewrite filter_cons. unfold body at 1. case_decide.
  - rewrite (go_bind_run _ _ s (acc ++ [p]) s)
      by (unfold go_bind, go_lift; by rewrite DeepCopy_allocated).
    rewrite IH. by rewrite <-app_assoc.
  - apply IH.
Qed.
End manager.

End SpiderPoolFacts.
