(* ===== verification/Node.v ===== *)
(** * Node: the node controller

    Models pkg/node/node.go and pkg/node/config.go: the cache of nodes, its
    Reconcile, [CouldRemove] over the pool manager interface, the lookups and
    the callback loop, and the interface [node.Manager] as a class. *)
From S2P Require Import Prelude.
From S2P Require Import HashSet.
From S2P Require Import Objects.
From S2P Require Import IPPool.

(** [corev1.Node]: its metadata and [Status.Addresses]. *)
Inductive AddressType := NodeInternalIP | OtherAddress (t : string).
#[export] Instance AddressType_eq_dec : EqDecision AddressType.
Proof. solve_decision. Defined.

Record NodeObject := { NodeMeta : ObjectMeta; Addresses : list (AddressType * string) }.

#[export] Instance NodeObject_object : KubeObject NodeObject.
Proof.
  refine {| obj_meta := NodeMeta;
            with_meta := λ m o, {| NodeMeta := m; Addresses := Addresses o |} |};
    [done|by intros []].
Defined.

(** pkg/node/config.go *)
Record NodeInfo := {
  InfoName : string;
  NodeId : string;
  NodeIp : string;
  deleted : bool
}.

#[export] Instance NodeInfo_eq_dec : EqDecision NodeInfo.
Proof. solve_decision. Defined.

Definition zero_info : NodeInfo :=
  {| InfoName := ""; NodeId := ""; NodeIp := ""; deleted := false |}.

(** Only id, ip and name are copied. *)
Definition info_copy (ni : NodeInfo) : NodeInfo :=
  {| InfoName := InfoName ni; NodeId := NodeId ni; NodeIp := NodeIp ni; deleted := false |}.

Definition IsDeleted (ni : NodeInfo) : bool := deleted ni.

(** [MapDeepCopy]: [dest] gains a copy of every set of [src]. *)
Definition MapDeepCopy `{!RangeOrder} (src dest : option (gmap string hset))
    : outcome (option (gmap string hset)) :=
  match src, dest with
  | Some src, Some dest =>
      out_bind (out_fold (range_order (map_to_list src)) (λ d kv,
        out_bind (copy_set kv.2) (λ c, Ret (<[kv.1 := c]> d))) dest) (λ d, Ret (Some d))
  | _, _ => Ret dest
  end.

(** ** The interface [node.Manager] *)
Class NodeManager (S : Type) := {
  EachNode : ∀ {B : Type}, (B → NodeInfo → go S (B * option error)) → B → go S B;
  CouldRemove : string → go S bool
}.

Class NodeManagerLaws (S : Type) `{!NodeManager S} := {
  cached_nodes : S → list NodeInfo;
  EachNode_spec : ∀ B (fn : B → NodeInfo → go S (B * option error)) b s,
    EachNode fn b s = for_until (cached_nodes s) fn b s
}.

(** ** The controller *)
Record node_controller := {
  nodes : gmap string NodeInfo;
  chan : list string;       (* the buffered channel [ch] *)
  node_postfns : list nat
}.

Definition empty_nodes : node_controller :=
  {| nodes := ∅; chan := []; node_postfns := [] |}.

Definition chan_cap : nat := 16.

Module Node.
Section controller.
Context {S : Type} `{!RangeOrder, !Lens S node_controller, !PoolManager S,
  !KubeClient S NodeObject}.
Implicit Types (s : S) (o : NodeObject) (ni : NodeInfo).

Definition set_node (name : string) ni (c : node_controller) : node_controller :=
  {| nodes := <[name := ni]> (nodes c); chan := chan c; node_postfns := node_postfns c |}.

(** Writes through the pointer [info] of the cached node [name]. *)
Definition update_info (name : string) (f : NodeInfo → NodeInfo) : go S unit :=
  let* c := load in
  match nodes c !! name with
  | None => go_panic NilDeref
  | Some ni => store (set_node name (f ni) c)
  end.

Definition with_name (n : string) ni : NodeInfo :=
  {| InfoName := n; NodeId := NodeId ni; NodeIp := NodeIp ni; deleted := deleted ni |}.
Definition with_id (i : string) ni : NodeInfo :=
  {| InfoName := InfoName ni; NodeId := i; NodeIp := NodeIp ni; deleted := deleted ni |}.
Definition with_ip (i : string) ni : NodeInfo :=
  {| InfoName := InfoName ni; NodeId := NodeId ni; NodeIp := i; deleted := deleted ni |}.
Definition with_deleted ni : NodeInfo :=
  {| InfoName := InfoName ni; NodeId := NodeId ni; NodeIp := NodeIp ni; deleted := true |}.

(** [n.ch <- name]: blocks while the buffer is full. *)
Definition send (name : string) : go S unit :=
  let* c := load in
  if decide (length (chan c) < chan_cap)%nat then
    store {| nodes := nodes c; chan := chan c ++ [name]; node_postfns := node_postfns c |}
  else go_hang.

(** The first internal address of the node. *)
Fixpoint internal_ip (l : list (AddressType * string)) : option string :=
  match l with
  | [] => None
  | (t, a) :: l => if decide (t = NodeInternalIP) then Some a else internal_ip l
  end.

Definition CouldRemove (no : string) : go S bool :=
  let* err := EachPool (λ err p,
    if decide (IPPool.NodeName p = no) then
      let* err1 := UpdatePool (Some p) DeleteE in
      go_ret (match err1 with Some _ => join err err1 | None => err end, None)
    else go_ret (err, None)) None in
  go_ret (bool_decide (err = None)).

(** The part of Reconcile after the cached entry [info] was found or made
    and named; [info] is the value behind the pointer at that moment. *)
Definition reconcile_info (inn : NodeObject) (info : NodeInfo) : go S Result :=
  let key := Name (NodeMeta inn) in
  if deleted info then
    let* ok := CouldRemove key in
    if ok : bool then
      go_call (kpatch (with_meta (fst (RemoveFinalizer (NodeMeta inn) FinializerController)) inn)
                      inn)
    else go_ret None
  else
    (if decide (NodeId info = "") then
       update_info key (with_id (default "" (Annotations (NodeMeta inn) !! InstanceAnnotationKey)))
     else go_ret tt) ;;;
    (match internal_ip (Addresses inn) with
     | Some ip => update_info key (with_ip ip)
     | None => go_ret tt
     end) ;;;
    if negb (IsZero (DeletionTimestamp (NodeMeta inn))) then
      update_info key with_deleted ;;; go_ret None
    else
      send key ;;;
      if ContainsFinalizer (NodeMeta inn) FinializerController then go_ret None
      else
        go_call (kpatch (with_meta (fst (AddFinalizer (NodeMeta inn) FinializerController)) inn)
                        inn).

Definition Reconcile (name : string) : go S Result :=
  let* r := go_call (kget name) in
  match r with
  | inl err => if IsNotFound err then go_ret None else go_ret (Some err)
  | inr inn =>
      let key := Name (NodeMeta inn) in
      let* c := load in
      (match nodes c !! key with
       | Some _ => go_ret tt
       | None => store (set_node key zero_info c)
       end) ;;;
      update_info key (with_name key) ;;;
      let* c := load in
      reconcile_info inn (default zero_info (nodes c !! key))
  end.

(** The event filter of [probe]: nodes with the instance annotation. *)
Definition event_filter o : bool :=
  bool_decide (is_Some (Annotations (NodeMeta o) !! InstanceAnnotationKey)).

Definition cache_nodes (c : node_controller) : list NodeInfo :=
  range_order (snd <$> map_to_list (nodes c)).

(** GetNode completes the fields of [no] from the first cached node that
    has its ip, id or name. *)
Fixpoint find_node (l : list NodeInfo) (no : NodeInfo) : NodeInfo :=
  match l with
  | [] => no
  | info :: l =>
      if decide (NodeIp info = NodeIp no) then
        {| InfoName := InfoName info; NodeId := NodeId info; NodeIp := NodeIp no;
           deleted := deleted no |}
      else if decide (NodeId info = NodeId no) then
        {| InfoName := InfoName info; NodeId := NodeId no; NodeIp := NodeIp info;
           deleted := deleted no |}
      else if decide (InfoName info = InfoName no) then
        {| InfoName := InfoName no; NodeId := NodeId info; NodeIp := NodeIp info;
           deleted := deleted no |}
      else find_node l no
  end.

Definition GetNode (no : option NodeInfo) : go S (option NodeInfo) :=
  match no with
  | None => go_ret None
  | Some no => let* c := load in go_ret (Some (find_node (cache_nodes c) no))
  end.

Definition EachNode {B} (fn : B → NodeInfo → go S (B * option error)) (b : B) : go S B :=
  let* c := load in for_until (cache_nodes c) fn b.

Definition RegistCallback (fn : nat) : go S unit :=
  let* c := load in
  store {| nodes := nodes c; chan := chan c; node_postfns := node_postfns c ++ [fn] |}.

(** One turn of [handlerCallback]: a message is received, the node copied,
    and every registered function called with the copy (or nil). *)
Definition handle_event (run : nat → option NodeInfo → go S unit) : go S unit :=
  let* c := load in
  match chan c with
  | [] => go_hang
  | name :: rest =>
      store {| nodes := nodes c; chan := rest; node_postfns := node_postfns c |} ;;;
      for_acc (node_postfns c) (λ _ fn, run fn (info_copy <$> nodes c !! name)) tt
  end.
End controller.
End Node.
