(* ===== verification/NodeFacts.v ===== *)
(** * NodeFacts: what the node controller guarantees

    [CouldRemove] against the pool manager's interface; the exact effect of
    Reconcile on the cache, the channel and the stored node; the monotone
    life cycle of a cached node. *)
From S2P Require Import Prelude.
From S2P Require Import HashSet.
From S2P Require Import Objects.
From S2P Require Import IPPool.
From S2P Require Import PoolFacts.
From S2P Require Import Node.

(** The interface of a node manager: EachNode preserves what its callback
    preserves, and CouldRemove leaves the memory of others alone. *)
Class NodeFrame (S C : Type) `{!NodeManager S, !Lens S C} :=
  CouldRemove_frame : ∀ no, preserves (view (C:=C)) (CouldRemove no).

Lemma EachNode_preserves {S X B} `{!NodeManager S, !NodeManagerLaws S} (p : S → X)
    (fn : B → NodeInfo → go S (B * option error)) b :
  (∀ b ni, preserves p (fn b ni)) → preserves p (EachNode fn b).
Proof. intros Hf s. rewrite EachNode_spec. by apply preserves_until. Qed.

Module NodeFacts.
Import Node PoolFacts.

Section could_remove.
Context {S : Type} `{!RangeOrder, !PoolManager S, !PoolManagerLaws S}.

Lemma CouldRemove_run no s :
  Forall allocated (cached_pools s) →
  CouldRemove no s =
  (let* es := delete_all (filter (λ p, IPPool.NodeName p = no) (cached_pools s)) in
   go_ret (all_nil es)) s.
Proof. apply (delete_matching (λ p, IPPool.NodeName p = no)). Qed.

(** Without a pool on the node, the answer is yes and nothing is called. *)
Lemma CouldRemove_no_pools no s :
  Forall allocated (cached_pools s) →
  Forall (λ p, IPPool.NodeName p ≠ no) (cached_pools s) →
  CouldRemove no s = (Ret true, s).
Proof.
  intros Hall Hno. rewrite CouldRemove_run by done. by rewrite filter_none.
Qed.
End could_remove.

(** ** Reconcile *)
Section reconcile.
Context {S : Type} `{!RangeOrder, !Lens S node_controller, !PoolManager S,
  !KubeClient S NodeObject, !KubeFrame S NodeObject node_controller}.
Implicit Types (s : S) (inn o : NodeObject) (i : NodeInfo).

(** What one look at the object makes of the cached entry. *)
Definition observe inn i : NodeInfo :=
  let i := with_name (Name (NodeMeta inn)) i in
  let i := if decide (NodeId i = "")
           then with_id (default "" (Annotations (NodeMeta inn) !! InstanceAnnotationKey)) i
           else i in
  match internal_ip (Addresses inn) with Some ip => with_ip ip i | None => i end.

Definition entry (c : node_controller) (n : string) : NodeInfo :=
  default zero_info (nodes c !! n).

(** [c] with the entry [n] replaced. *)
Lemma set_node_twice n i i' c : set_node n i (set_node n i' c) = set_node n i c.
Proof. unfold set_node; simpl. by rewrite insert_insert_eq. Qed.

Lemma update_info_run n f s c i :
  view s = set_node n i c → update_info n f s = (Ret tt, put (set_node n (f i) c) s).
Proof.
  intros Hs. unfold update_info, load, go_bind, go_gets. rewrite Hs. simpl.
  rewrite lookup_insert_eq. unfold store, go_modify. by rewrite set_node_twice.
Qed.

Lemma ensure_entry n s :
  (let* c := load in
   match nodes c !! n with
   | Some _ => go_ret tt
   | None => store (set_node n zero_info c)
   end) s = (Ret tt, put (set_node n (entry (view s) n) (view s)) s).
Proof.
  unfold load, go_bind, go_gets, entry. destruct (nodes (view s) !! n) as [i|] eqn:Hn; [|done].
  simpl. f_equal. replace (set_node n i (view s)) with (view s); [by rewrite put_view|].
  unfold set_node. rewrite insert_id by done. by destruct (view s).
Qed.

(** The first half of Reconcile: the entry exists and has its name. *)
Lemma Reconcile_prefix name inn s s1 (rest : NodeInfo → go S Result) :
  kget name s = (inr inn, s1) →
  let n := Name (NodeMeta inn) in
  let i := with_name n (entry (view s) n) in
  (let* c := load in
   (match nodes c !! n with
    | Some _ => go_ret tt
    | None => store (set_node n zero_info c)
    end) ;;;
   update_info n (with_name n) ;;;
   let* c := load in rest (default zero_info (nodes c !! n))) s1 =
  rest i (put (set_node n i (view s)) s1).
Proof.
  intros Hget n i.
  pose proof (kget_view (C:=node_controller) name s) as Hv. rewrite Hget in Hv; simpl in Hv.
  transitivity (go_bind (let* c := load in
     match nodes c !! n with
     | Some _ => go_ret tt
     | None => store (set_node n zero_info c)
     end) (λ _, update_info n (with_name n) ;;;
       let* c := load in rest (default zero_info (nodes c !! n))) s1).
  { by rewrite go_bind_assoc. }
  rewrite (go_bind_run _ _ _ _ _ (ensure_entry n s1)). rewrite Hv.
  rewrite (go_bind_run _ _ _ _ _
    (update_info_run n (with_name n) _ (view s) (entry (view s) n) (view_put _ _))).
  rewrite put_put. unfold load, go_bind, go_gets. rewrite view_put. simpl.
  by rewrite lookup_insert_eq.
Qed.
(** Writing the memory of the controller: the last write counts. *)
Definition put_nodes (c : node_controller) : go S unit := store c.

Definition sent n (c : node_controller) : node_controller :=
  {| nodes := nodes c; chan := chan c ++ [n]; node_postfns := node_postfns c |}.

Definition strip_finalizer inn : NodeObject :=
  with_meta (fst (RemoveFinalizer (NodeMeta inn) FinializerController)) inn.
Definition with_finalizer inn : NodeObject :=
  with_meta (fst (AddFinalizer (NodeMeta inn) FinializerController)) inn.

(** The branches of Reconcile on an object that was read, over the memory
    [c] at its start. *)
Definition reconcile_read inn (c : node_controller) : go S Result :=
  let n := Name (NodeMeta inn) in
  let i := entry c n in
  if deleted i then
    put_nodes (set_node n (with_name n i) c) ;;;
    let* ok := CouldRemove n in
    if ok : bool then go_call (kpatch (strip_finalizer inn) inn) else go_ret None
  else if negb (IsZero (DeletionTimestamp (NodeMeta inn))) then
    put_nodes (set_node n (with_deleted (observe inn i)) c) ;;; go_ret None
  else if decide (length (chan c) < chan_cap)%nat then
    put_nodes (sent n (set_node n (observe inn i) c)) ;;;
    if ContainsFinalizer (NodeMeta inn) FinializerController then go_ret None
    else go_call (kpatch (with_finalizer inn) inn)
  else put_nodes (set_node n (observe inn i) c) ;;; go_hang.

Lemma send_run n c s :
  view s = c →
  send n s = if decide (length (chan c) < chan_cap)%nat
             then (Ret tt, put (sent n c) s) else (Hang, s).
Proof. intros <-. unfold send, load, go_bind, go_gets. by case_decide. Qed.

Lemma put_nodes_put (c c' : node_controller) s : put_nodes c (put c' s) = (Ret tt, put c s).
Proof. unfold put_nodes, store, go_modify. by rewrite put_put. Qed.

(** The writes of id and address, after the name. *)
Lemma observe_run inn i n c s (rest : go S Result) :
  n = Name (NodeMeta inn) →
  ((if decide (NodeId (with_name n i) = "") then
      update_info n (with_id (default "" (Annotations (NodeMeta inn) !! InstanceAnnotationKey)))
    else go_ret tt) ;;;
   (match internal_ip (Addresses inn) with
    | Some ip => update_info n (with_ip ip)
    | None => go_ret tt
    end) ;;; rest) (put (set_node n (with_name n i) c) s) =
  rest (put (set_node n (observe inn i) c) s).
Proof.
  intros ->. set (n := Name (NodeMeta inn)).
  assert (Hrun : ∀ f i, update_info n f (put (set_node n i c) s) =
                        (Ret tt, put (set_node n (f i) c) s)).
  { intros f i1. by rewrite (update_info_run n f _ c i1 (view_put _ _)), put_put. }
  unfold observe, go_bind. fold n.
  case_decide; rewrite ?Hrun; simpl; destruct (internal_ip (Addresses inn)); by rewrite ?Hrun.
Qed.

Lemma node_Reconcile_read name inn s s1 :
  kget name s = (inr inn, s1) → Reconcile name s = reconcile_read inn (view s) s1.
Proof.
  intros Hget. unfold Reconcile. rewrite (go_bind_run _ _ s (inr inn) s1)
    by (unfold go_call; by rewrite Hget).
  cbv beta iota zeta.
  rewrite (Reconcile_prefix name inn s s1 (reconcile_info inn) Hget). unfold reconcile_info.
  set (n := Name (NodeMeta inn)). set (c := view s). unfold reconcile_read. fold n.
  change (deleted (with_name n (entry c n))) with (deleted (entry c n)).
  destruct (deleted (entry c n)) eqn:Hd.
  - unfold put_nodes, store, go_bind at 1, go_modify. done.
  - rewrite (observe_run inn (entry c n) n c s1) by done.
    destruct (negb _).
    + unfold go_bind at 1. rewrite (update_info_run n with_deleted _ c _ (view_put _ _)), put_put.
      done.
    + pose proof (send_run n _ (put (set_node n (observe inn (entry c n)) c) s1)
        (view_put _ _)) as Hsend. simpl chan in Hsend.
      case_decide as Hlen; [|by rewrite (go_bind_hang _ _ _ _ Hsend)].
      rewrite (go_bind_run _ _ _ _ _ Hsend), put_put. done.
Qed.

(** *** The life cycle of a cached node *)

(** Once cached, a node stays; its id, once known, and its deletion mark
    never change; a marked node is frozen. *)
Definition advances (i i' : NodeInfo) : Prop :=
  (NodeId i ≠ "" → NodeId i' = NodeId i) ∧
  (deleted i = true → deleted i' = true ∧ NodeId i' = NodeId i ∧ NodeIp i' = NodeIp i).

Definition cache_advances (c c' : node_controller) : Prop :=
  ∀ n i, nodes c !! n = Some i → ∃ i', nodes c' !! n = Some i' ∧ advances i i'.

(** Every cached node is filed under its name. *)
Definition named_cache (c : node_controller) : Prop :=
  ∀ n i, nodes c !! n = Some i → InfoName i = n.

Lemma node_advances_refl i : advances i i.
Proof. by repeat split. Qed.

Lemma node_cache_refl c : cache_advances c c.
Proof. intros n i Hi. exists i. auto using node_advances_refl. Qed.

Lemma node_observe_advances inn i : deleted i = false → advances i (observe inn i).
Proof.
  intros Hd. unfold observe, advances. rewrite Hd. split; [|done].
  intros Hid. simpl. rewrite decide_False by done. by destruct (internal_ip _).
Qed.

Lemma set_node_advances n i' c :
  advances (entry c n) i' → cache_advances c (set_node n i' c).
Proof.
  intros Ha m i Hi. simpl. destruct (decide (n = m)) as [->|Hne].
  - rewrite lookup_insert_eq. exists i'. split; [done|]. unfold entry in Ha. by rewrite Hi in Ha.
  - rewrite lookup_insert_ne by done. exists i. auto using node_advances_refl.
Qed.

Lemma set_node_named n i' c :
  named_cache c → InfoName i' = n → named_cache (set_node n i' c).
Proof.
  intros Hc Hi m i Hm. simpl in Hm. apply lookup_insert_Some in Hm as [[<- <-]|[_ Hm]]; eauto.
Qed.

Lemma observe_name inn i : InfoName (observe inn i) = Name (NodeMeta inn).
Proof. unfold observe. case_decide; by destruct (internal_ip _). Qed.
End reconcile.

Section lifecycle.
Context {S : Type} `{!RangeOrder, !Lens S node_controller, !PoolManager S,
  !PoolManagerLaws S, !KubeClient S NodeObject, !KubeFrame S NodeObject node_controller}.
Implicit Types (s : S) (inn o : NodeObject) (i : NodeInfo).

Context `{!PoolFrame S node_controller}.

Lemma CouldRemove_view no s b s' :
  CouldRemove no s = (Ret b, s') → view s' = view (C:=node_controller) s.
Proof.
  apply (preserves_end view). unfold CouldRemove. apply preserves_bind; [|done].
  apply EachPool_preserves. intros err p. pose proof update_view. case_decide; frame.
Qed.

Lemma go_call_patch_view (new base : NodeObject) s r s' :
  go_call (kpatch new base) s = (Ret r, s') → view s' = view (C:=node_controller) s.
Proof.
  unfold go_call. pose proof (kpatch_view (C:=node_controller) new base s) as Hv.
  destruct (kpatch new base s); intros; by simplify_eq/=.
Qed.

(** C14. A reconcile that returns keeps every cached node filed under its name;
    no node is dropped, a known id never changes, and a node that is marked
    deleted stays as it is. *)
Theorem Node_lifecycle name s r s' :
  named_cache (view s) → Reconcile name s = (Ret r, s') →
  named_cache (view s') ∧ cache_advances (view s) (view s').
Proof.
  intros Hnamed Hr. pose proof (kget_view (C:=node_controller) name s) as Hv.
  destruct (kget name s) as [[e|inn] s1] eqn:Hget; simpl in Hv.
  { unfold Reconcile in Hr. rewrite (go_bind_run _ _ s (inl e) s1) in Hr
      by (unfold go_call; by rewrite Hget).
    destruct (IsNotFound e); simplify_eq/=; rewrite Hv; auto using node_cache_refl. }
  rewrite (node_Reconcile_read name inn s s1 Hget) in Hr. unfold reconcile_read in Hr.
  set (c := view s) in *. set (n := Name (NodeMeta inn)) in *.
  assert (Hset : ∀ i', InfoName i' = n → advances (entry c n) i' →
    named_cache (set_node n i' c) ∧ cache_advances c (set_node n i' c))
    by (split; [by apply set_node_named|by apply set_node_advances]).
  pose proof (observe_name inn (entry c n)) as Hon.
  destruct (deleted (entry c n)) eqn:Hd; [|destruct (negb _); [|case_decide]];
    apply go_bind_inv in Hr as ([] & s2 & Hp & Hr); unfold put_nodes, store, go_modify in Hp;
    injection Hp as <-.
  - assert (Hgoal : view s' = set_node n (with_name n (entry c n)) c).
    { apply go_bind_inv in Hr as (ok & s3 & Hcr & Hr). apply CouldRemove_view in Hcr.
      destruct ok; [apply go_call_patch_view in Hr|injection Hr as _ <-];
        by rewrite ?Hr, Hcr, view_put. }
    rewrite Hgoal. by apply Hset.
  - injection Hr as <- <-. rewrite view_put. apply Hset; [done|].
    destruct (node_observe_advances inn (entry c n) Hd) as [Hid _]. split; [done|by rewrite Hd].
  - assert (Hgoal : view s' = sent n (set_node n (observe inn (entry c n)) c)).
    { destruct (ContainsFinalizer _ _); [injection Hr as _ <-|apply go_call_patch_view in Hr];
        by rewrite ?Hr, view_put. }
    rewrite Hgoal. destruct (Hset (observe inn (entry c n))) as [H1 H2];
      [done|by apply node_observe_advances|]. done.
  - done.
Qed.
End lifecycle.

(** ** The stored node *)
Section finalizer.
Context {S : Type} `{!RangeOrder, !Lens S node_controller, !PoolManager S,
  !PoolManagerLaws S, !KubeClient S NodeObject, !KubeFrame S NodeObject node_controller,
  !KubeServer S NodeObject, !KubeCurrent S NodeObject}.
Implicit Types (s : S) (inn o : NodeObject) (i : NodeInfo).

(** The memory of the controller and the pool manager are apart from the
    stored nodes. *)
Context `{!StoreFrame S NodeObject node_controller, !PoolStoreFrame S NodeObject}.

(** The memory with the entry of [inn] renamed, as CouldRemove finds it. *)
Definition named_state name inn s : S :=
  let n := Name (NodeMeta inn) in
  put (set_node n (with_name n (entry (view s) n)) (view s)) (snd (kget name s)).

(** Every cached pool of the node [n] was deleted without an error. *)
Definition all_deleted n s : Prop := deletes_all (λ p, IPPool.NodeName p = n) s.

(** C5. A stored node keeps its finalizer, and so stays, through a reconcile,
    whatever calls fail, unless it was marked deleted by an earlier one and
    all the cached pools of the node were deleted without an error. *)
Theorem Node_finalizer_safe name n s r s' :
  keeps (O:=NodeObject) n FinializerController s → Reconcile name s = (Ret r, s') →
  keeps (O:=NodeObject) n FinializerController s' ∨
  ∃ o, n = name ∧ fst (kget name s) = inr o ∧
       deleted (entry (view s) n) = true ∧ all_deleted n (named_state name o s).
Proof.
  intros Hk Hr. pose proof (kget_store name s) as Hst.
  destruct (kget name s) as [[e|inn] s1] eqn:Hget; simpl in Hst.
  { left. unfold Reconcile in Hr. rewrite (go_bind_run _ _ s (inl e) s1) in Hr
      by (unfold go_call; by rewrite Hget).
    unfold keeps. destruct (IsNotFound e); simplify_eq/=; by rewrite Hst. }
  assert (Hfound : kstore s !! name = Some inn) by (apply kget_found; by rewrite Hget).
  assert (Hname : Name (NodeMeta inn) = name) by exact (kstore_name s _ inn Hfound).
  rewrite (node_Reconcile_read name inn s s1 Hget) in Hr. unfold reconcile_read in Hr.
  rewrite Hname in Hr. unfold keeps in Hk. rewrite <-Hst in Hk, Hfound.
  assert (Hput : ∀ c (m : go S Result), go_bind (put_nodes c) (λ _, m) s1 = m (put c s1)) by done.
  destruct (deleted (entry (view s) name)) eqn:Hd; [|destruct (negb _); [|case_decide]];
    rewrite Hput in Hr.
  - apply go_bind_inv in Hr as (ok & s2 & Hcr & Hr).
    rewrite CouldRemove_run in Hcr
      by by eapply (delete_matching_allocated (λ p, IPPool.NodeName p = name)).
    apply go_bind_inv in Hcr as (es & s3 & Hda & Hes).
    injection Hes as <- <-.
    pose proof (preserves_end kstore _ _ _ _ (delete_all_preserves _ _ update_store) Hda) as Hs3. rewrite put_store in Hs3.
    assert (Hk2 : keeps (O:=NodeObject) n FinializerController s3) by (unfold keeps; by rewrite Hs3).
    unfold all_nil in Hr. case_bool_decide as Hnil; [|by injection Hr as _ <-; left].
    destruct (decide (n = name)) as [Hn|Hn].
    + subst n. right. exists inn. split_and!; [done..|].
      exists es, s3. split; [|done]. unfold named_state. by rewrite Hname, Hget.
    + left. eapply (patch_keeps (strip_finalizer inn)); [| |done|done].
      * left. change (obj_name (strip_finalizer inn)) with (Name (NodeMeta inn)).
        by rewrite Hname, Hs3.
      * intros ->. by destruct Hn.
  - injection Hr as _ <-. left. unfold keeps. by rewrite put_store.
  - left. destruct (ContainsFinalizer _ _).
    + injection Hr as _ <-. unfold keeps. by rewrite put_store.
    + eapply (patch_keeps (with_finalizer inn)); [| | |done].
      * left. rewrite put_store. unfold with_finalizer, obj_name. rewrite meta_with_meta.
        unfold AddFinalizer. case_match; by rewrite <-Hfound, <-Hname.
      * intros _. unfold with_finalizer. apply has_finalizer_elem.
        pose proof (Add_Contains (NodeMeta inn) FinializerController) as Hc.
        unfold ContainsFinalizer in Hc. simpl. destruct (has_finalizer _ _); done.
      * unfold keeps. by rewrite put_store.
  - done.
Qed.
End finalizer.

(** ** The implementation of the interface *)
Section manager.
Context {S : Type} `{!RangeOrder, !Lens S node_controller, !PoolManager S, !PoolManagerLaws S,
  !KubeClient S NodeObject}.

#[local] Instance node_manager : NodeManager S :=
  Build_NodeManager S (@EachNode S _ _) CouldRemove.

#[local] Instance node_manager_laws : NodeManagerLaws S.
Proof. by refine {| cached_nodes := λ s, cache_nodes (view s) |}. Defined.

Lemma CouldRemove_preserves {X} (p : S → X) no :
  (∀ pl ev, preserves p (UpdatePool pl ev)) → preserves p (CouldRemove (S:=S) no).
Proof.
  intros Hp. unfold CouldRemove. apply preserves_bind; [|done]. apply EachPool_preserves.
  intros err pl. case_decide; frame.
Qed.
End manager.
End NodeFacts.
