(* ===== verification/NodeLocks.v ===== *)
(** * NodeLocks: the lock and the channel of the node controller

    Node.v runs each handler to its end.  Here the worker that reconciles
    nodes and the goroutine of [handlerCallback] (pkg/node/node.go) are
    interleaved at their accesses to the mutex [n.mu] and the channel [n.ch];
    the registered callback is the one of pkg/vpc/vpc.go, which visits the
    nodes with [EachNode] any number of times, and may block for ever between
    two visits: on the lock [vpc.mu], or in a send on the channel [vpc.ch],
    which is nil (VpcFacts.callback_stuck).  The data that the two
    goroutines exchange does not matter here and is left out. *)
From S2P Require Import Prelude.
From S2P Require Import Objects.
From S2P Require Import IPPool.
From S2P Require Import Node.

(** The worker, in Reconcile. *)
Inductive worker :=
  | WGet      (* reads the object, no lock *)
  | WLock     (* n.mu.Lock() *)
  | WBody     (* holds the lock: CouldRemove, patches, fields *)
  | WSend     (* n.ch <- info.Name *)
  | WUnlock.  (* the deferred n.mu.Unlock() *)

(** The goroutine of handlerCallback. *)
Inductive handler :=
  | HRecv     (* <-n.ch *)
  | HLookup   (* n.mu.RLock() for the copy *)
  | HCopy     (* holds the read lock *)
  | HCall     (* in a callback, without the lock *)
  | HEach     (* n.mu.RLock() in EachNode *)
  | HVisit    (* holds the read lock *)
  | HStuck.   (* blocked for ever in the callback, on vpc.mu or vpc.ch *)

#[export] Instance worker_eq_dec : EqDecision worker.
Proof. solve_decision. Defined.
#[export] Instance handler_eq_dec : EqDecision handler.
Proof. solve_decision. Defined.

Record locks := { work : worker; handle : handler; buffered : nat }.

Definition holds_write (w : worker) : bool :=
  match w with WBody | WSend | WUnlock => true | _ => false end.
Definition holds_read (h : handler) : bool :=
  match h with HCopy | HVisit => true | _ => false end.

Module NodeLocks.

(** One access; the choices of a goroutine are separate rules. *)
Inductive step : locks → locks → Prop :=
  | w_found h n : step {| work := WGet; handle := h; buffered := n |}
                       {| work := WLock; handle := h; buffered := n |}
  | w_lock h n : holds_read h = false →
      step {| work := WLock; handle := h; buffered := n |}
           {| work := WBody; handle := h; buffered := n |}
  | w_early h n :  (* a deleted node: no message *)
      step {| work := WBody; handle := h; buffered := n |}
           {| work := WUnlock; handle := h; buffered := n |}
  | w_live h n : step {| work := WBody; handle := h; buffered := n |}
                      {| work := WSend; handle := h; buffered := n |}
  | w_send h n : (n < chan_cap)%nat →
      step {| work := WSend; handle := h; buffered := n |}
           {| work := WUnlock; handle := h; buffered := S n |}
  | w_unlock h n : step {| work := WUnlock; handle := h; buffered := n |}
                        {| work := WGet; handle := h; buffered := n |}
  | h_recv w n : step {| work := w; handle := HRecv; buffered := S n |}
                      {| work := w; handle := HLookup; buffered := n |}
  | h_rlock w n : holds_write w = false →
      step {| work := w; handle := HLookup; buffered := n |}
           {| work := w; handle := HCopy; buffered := n |}
  | h_copied w n : step {| work := w; handle := HCopy; buffered := n |}
                        {| work := w; handle := HCall; buffered := n |}
  | h_visit w n : step {| work := w; handle := HCall; buffered := n |}
                       {| work := w; handle := HEach; buffered := n |}
  | h_each w n : holds_write w = false →
      step {| work := w; handle := HEach; buffered := n |}
           {| work := w; handle := HVisit; buffered := n |}
  | h_visited w n : step {| work := w; handle := HVisit; buffered := n |}
                         {| work := w; handle := HCall; buffered := n |}
  | h_return w n : step {| work := w; handle := HCall; buffered := n |}
                        {| work := w; handle := HRecv; buffered := n |}
  | h_block w n : step {| work := w; handle := HCall; buffered := n |}
                       {| work := w; handle := HStuck; buffered := n |}.

Definition start : locks := {| work := WGet; handle := HRecv; buffered := 0 |}.

(** The lock admits no reader beside the writer, and the buffer is bounded. *)
Definition consistent (c : locks) : Prop :=
  (holds_write (work c) = true → holds_read (handle c) = false) ∧ (buffered c ≤ chan_cap)%nat.

Lemma step_consistent c c' : step c c' → consistent c → consistent c'.
Proof. unfold consistent. destruct 1; simpl in *; intros [? ?]; split; auto; try lia; congruence. Qed.

Lemma reachable_consistent c : rtc step start c → consistent c.
Proof.
  revert c. apply rtc_ind_r; [split; [done|apply Nat.le_0_l]|].
  intros ?? _ Hs IH. by eapply step_consistent.
Qed.

(** The state of the deadlock: the worker holds the lock and waits for room in
    the channel, the only receiver waits for the lock. *)
Definition deadlocked (c : locks) : Prop :=
  work c = WSend ∧ (handle c = HLookup ∨ handle c = HEach) ∧ buffered c = chan_cap.

(** The worker holds the lock and waits for room in the channel, whose only
    receiver is blocked in the callback. *)
Definition starved (c : locks) : Prop :=
  work c = WSend ∧ handle c = HStuck ∧ buffered c = chan_cap.

#[export] Instance deadlocked_dec c : Decision (deadlocked c).
Proof. unfold deadlocked. apply _. Defined.
#[export] Instance starved_dec c : Decision (starved c).
Proof. unfold starved. apply _. Defined.

(** Nobody moves from a full channel whose receiver is blocked. *)
Lemma blocked_stays c : deadlocked c ∨ starved c → ∀ c', ¬ step c c'.
Proof.
  destruct c as [w h n]. unfold deadlocked, starved; simpl.
  intros [(-> & [-> | ->] & ->)|(-> & -> & ->)] c' Hs; inversion Hs; subst; done || lia.
Qed.

Lemma moves_unless_blocked c : consistent c → ¬ deadlocked c → ¬ starved c → ∃ c', step c c'.
Proof.
  destruct c as [w h n]. unfold consistent, deadlocked, starved; simpl. intros [Hl Hn] Hd Hs.
  destruct (decide (work {| work := w; handle := h; buffered := n |} = WSend ∧ (n < chan_cap)%nat))
    as [[Hw Hroom]|Hw]; simpl in *; [subst; eauto using step|].
  destruct h; [|destruct w|eauto using step|eauto using step|destruct w|eauto using step|destruct w];
    simpl in *; try by eauto using step.
  - destruct n as [|n]; [|eauto using step].
    destruct w; eauto using step. exfalso. apply Hw. split; [done|]. vm_compute. lia.
  - exfalso. apply Hd. split_and!; auto. destruct (decide (n < chan_cap)%nat); [naive_solver|lia].
  - exfalso. apply Hd. split_and!; auto. destruct (decide (n < chan_cap)%nat); [naive_solver|lia].
  - exfalso. apply Hs. split_and!; auto. destruct (decide (n < chan_cap)%nat); [naive_solver|lia].
Qed.

(** A blocked handler never receives again, so the channel only fills. *)
Lemma stuck_stays c c' :
  rtc step c c' → handle c = HStuck → handle c' = HStuck ∧ (buffered c ≤ buffered c')%nat.
Proof.
  induction 1 as [|c1 c2 c3 Hs _ IH]; intros Hh; [done|].
  assert (handle c2 = HStuck ∧ (buffered c1 ≤ buffered c2)%nat) as [H2 Hb]
    by (inversion Hs; subst; simplify_eq/=; split; done || lia).
  destruct (IH H2). split; [done|lia].
Qed.

(** A reconcile of a live node while the handler is in its callback. *)
Definition in_callback (h : handler) : Prop := h = HCall ∨ h = HStuck.

Lemma send_turn h n :
  in_callback h → (n < chan_cap)%nat →
  rtc step {| work := WGet; handle := h; buffered := n |}
           {| work := WGet; handle := h; buffered := S n |}.
Proof.
  intros Hh Hn. eapply rtc_l; [apply w_found|].
  eapply rtc_l; [apply w_lock; by destruct Hh as [-> | ->]|].
  eapply rtc_l; [apply w_live|]. eapply rtc_l; [by apply w_send|].
  eapply rtc_l; [apply w_unlock|]. apply rtc_refl.
Qed.

Lemma fill_buffer h k n :
  in_callback h → (n + k ≤ chan_cap)%nat →
  rtc step {| work := WGet; handle := h; buffered := n |}
           {| work := WGet; handle := h; buffered := n + k |}.
Proof.
  intros Hh. induction k as [|k IH]; intros Hn; [rewrite Nat.add_0_r; apply rtc_refl|].
  etrans; [apply IH; lia|]. rewrite Nat.add_succ_r. apply send_turn; [done|lia].
Qed.

Lemma starve_from_get n :
  (n ≤ chan_cap)%nat →
  rtc step {| work := WGet; handle := HStuck; buffered := n |}
           {| work := WSend; handle := HStuck; buffered := chan_cap |}.
Proof.
  intros Hn. etrans; [apply (fill_buffer _ (chan_cap - n)); [by right|lia]|].
  replace (n + (chan_cap - n))%nat with chan_cap by lia.
  eapply rtc_l; [apply w_found|]. eapply rtc_l; [by apply w_lock|].
  eapply rtc_l; [apply w_live|]. apply rtc_refl.
Qed.

(** From every state with a blocked handler the worker can end up starved. *)
Lemma starves c :
  consistent c → handle c = HStuck → ∃ c', rtc step c c' ∧ starved c'.
Proof.
  destruct c as [w h n]. intros [_ Hn] Hh. simpl in *. subst h.
  exists {| work := WSend; handle := HStuck; buffered := chan_cap |}. split; [|done].
  assert (Hbody : rtc step {| work := WUnlock; handle := HStuck; buffered := n |}
      {| work := WSend; handle := HStuck; buffered := chan_cap |})
    by (eapply rtc_l; [apply w_unlock|]; by apply starve_from_get).
  destruct w.
  - by apply starve_from_get.
  - eapply rtc_l; [by apply w_lock|]. eapply rtc_l; [apply w_early|]. done.
  - eapply rtc_l; [apply w_early|]. done.
  - destruct (decide (n = chan_cap)) as [->|Hne]; [apply rtc_refl|].
    eapply rtc_l; [apply w_send; lia|]. eapply rtc_l; [apply w_unlock|]. apply starve_from_get. lia.
  - done.
Qed.

(** The first message takes the handler into its callback. *)
Lemma first_message : rtc step start {| work := WGet; handle := HCall; buffered := 0 |}.
Proof.
  unfold start. eapply rtc_l; [apply w_found|]. eapply rtc_l; [by apply w_lock|].
  eapply rtc_l; [apply w_live|]. eapply rtc_l; [apply w_send; vm_compute; lia|].
  eapply rtc_l; [apply w_unlock|]. eapply rtc_l; [apply h_recv|].
  eapply rtc_l; [by apply h_rlock|]. eapply rtc_l; [apply h_copied|]. apply rtc_refl.
Qed.

(** The handler is in a callback and the channel is full. *)
Lemma full_channel : rtc step start {| work := WGet; handle := HCall; buffered := chan_cap |}.
Proof.
  etrans; [apply first_message|]. apply (fill_buffer HCall chan_cap 0); [by left|done].
Qed.

(** C29. The two goroutines can be blocked for ever in two ways, and in no
    other.  Deadlock: while a callback runs, the worker fills the channel and
    blocks in the next send with the write lock held, which the callback's
    next visit of the nodes (or the handler's next lookup) waits for.
    Starvation: the callback itself blocks for ever, and the worker blocks in
    the send into the full channel.  A callback that blocks stays blocked and
    the channel only fills, so the worker can end up so from every such state.
    In every other reachable state some goroutine can move. *)
Theorem node_deadlock :
  (∃ c, rtc step start c ∧ deadlocked c) ∧
  (∃ c, rtc step start c ∧ handle c = HStuck) ∧
  (∀ c, rtc step start c → ((∀ c', ¬ step c c') ↔ deadlocked c ∨ starved c)) ∧
  (∀ c, rtc step start c → handle c = HStuck →
     (∃ c', rtc step c c' ∧ starved c') ∧
     ∀ c', rtc step c c' → handle c' = HStuck ∧ (buffered c ≤ buffered c')%nat).
Proof.
  split_and!.
  - exists {| work := WSend; handle := HEach; buffered := chan_cap |}. split; [|by split_and!; auto].
    etrans; [apply full_channel|].
    eapply rtc_l; [apply w_found|]. eapply rtc_l; [by apply w_lock|].
    eapply rtc_l; [apply w_live|]. eapply rtc_l; [apply h_visit|]. apply rtc_refl.
  - eexists. split; [etrans; [apply first_message|]; eapply rtc_l; [apply h_block|]; apply rtc_refl|done].
  - intros c Hc%reachable_consistent. split; [|apply blocked_stays]. intros Hno.
    destruct (decide (deadlocked c)) as [|Hd]; [by left|].
    destruct (decide (starved c)) as [|Hs]; [by right|].
    destruct (moves_unless_blocked c Hc Hd Hs) as [c' Hc']. by destruct (Hno c').
  - intros c Hc Hh. split; [|intros c' Hc'; by apply stuck_stays].
    apply starves; [by apply reachable_consistent|done].
Qed.
End NodeLocks.
