(* ===== verification/Namespace.v ===== *)
(** * Namespace: the namespace controller

    Models pkg/namespace/ns.go and pkg/namespace/config.go: a controller that
    only passes the namespaces it reconciles to the registered functions. *)
From S2P Require Import Prelude.
From S2P Require Import Objects.

(** [corev1.Namespace]: its metadata. *)
Record NamespaceObject := { NsMeta : ObjectMeta }.

#[export] Instance NamespaceObject_object : KubeObject NamespaceObject.
Proof.
  refine {| obj_meta := NsMeta; with_meta := λ m _, {| NsMeta := m |} |}; [done|by intros []].
Defined.

Record ns_controller := { ns_postfns : list nat }.

Definition empty_namespaces : ns_controller := {| ns_postfns := [] |}.

Module Namespace.
Section controller.
Context {S : Type} `{!Lens S ns_controller, !KubeClient S NamespaceObject}.

Definition RegistCallback (fn : nat) : go S unit :=
  let* n := load in store {| ns_postfns := ns_postfns n ++ [fn] |}.

(** [run] calls a registered function with the namespace. *)
Definition Reconcile (run : nat → NamespaceObject → go S unit) (name : string) : go S Result :=
  let* r := go_call (kget name) in
  match r with
  | inl err => if IsNotFound err then go_ret None else go_ret (Some err)
  | inr inn =>
      let* n := load in
      for_acc (ns_postfns n) (λ _ fn, run fn inn) tt ;;; go_ret None
  end.
End controller.
End Namespace.
