(* ===== verification/Infra.v ===== *)
(** * Infra: the interface of the IaaS

    Models pkg/infra/interface.go, controller.go and config.go: the data that
    crosses the interface, the copies the program makes of it, the names of
    the ports it creates, and [infra.Client] as the class [InfraClient]. *)
From S2P Require Import Prelude.
From S2P Require Import HashSet.
From S2P Require Import Objects.
From S2P Require Import IPPool.

(** ** pkg/infra/interface.go *)
Record AddressPair := { PairIp : string; PairMac : string }.

(** [Second] is a map from an ip to an interface; a nil map reads as empty. *)
Inductive Interface := mkInterface {
  IfName : string;
  IfId : string;
  IfIp : string;
  SubnatId : string;
  IfMac : string;
  Second : gmap string Interface
}.

Definition Interface_DeepCopy (i : Interface) : Interface :=
  {| IfName := ""; IfId := IfId i; IfIp := IfIp i; SubnatId := SubnatId i; IfMac := IfMac i;
     Second := ∅ |}.

(** [Interface] may be a nil map, which a write panics on. *)
Record Instance_ := {
  InstId : string;
  DefaultIp : string;
  InstNodeName : string;
  InstInterface : option (gmap string Interface)
}.

Definition interfaces (i : Instance_) : gmap string Interface := default ∅ (InstInterface i).

Definition Instance_DeepCopy (i : Instance_) : Instance_ :=
  {| InstId := InstId i; DefaultIp := DefaultIp i; InstNodeName := InstNodeName i;
     InstInterface := Some (Interface_DeepCopy <$> interfaces i) |}.

Record SubnatInfo := {
  Cidr : string;
  GwIp : string;
  SnId : string;
  SnName : string;
  SnVpcId : string
}.

Record Opt := {
  OptSubnet : string;
  OptVpc : string;
  OptProject : string;
  OptPort : string;
  OptInstance : string;
  OptPortName : string;
  OptInstanceName : string;
  OptIp : string
}.

Definition zero_opt : Opt :=
  {| OptSubnet := ""; OptVpc := ""; OptProject := ""; OptPort := ""; OptInstance := "";
     OptPortName := ""; OptInstanceName := ""; OptIp := "" |}.

(** ** pkg/infra/controller.go and config.go *)
Definition VMInterfaceName : string := "cilium-vm-port-".
Definition PodInterfaceName : string := "cilium-pod-port-".

Definition GetInstancePortName (o : Opt) : string :=
  if decide (OptInstanceName o ≠ "") then VMInterfaceName +:+ OptInstanceName o
  else VMInterfaceName +:+ OptInstance o.

Definition GetInterfacePortName (o : Opt) : string :=
  if decide (OptPortName o ≠ "") then PodInterfaceName +:+ OptPortName o
  else PodInterfaceName +:+ OptPort o.

Record OpenstackCfg := { CfgAuthUrl : string; CfgCredentialId : string; CfgCredentialSecret : string }.

Record InfraCfg := {
  InfraType : string;
  InfraTimeout : Z;
  CfgMutexOnCreate : bool;
  CfgOpenstack : OpenstackCfg
}.

Definition OpenstackType : string := "openstack".

(** [NewInfra]: the constructor of the Openstack client is I/O, a parameter. *)
Definition NewInfra {C} (NewOpenstackClient : InfraCfg → error + C) (cfg : option InfraCfg)
    : error + C :=
  match cfg with
  | None => inl (EMsg "not found infra config")
  | Some cfg =>
      if decide (InfraType cfg = OpenstackType) then NewOpenstackClient cfg
      else inl (EMsg ("not support infra type " +:+ InfraType cfg))
  end.

(** ** The interface [infra.Client]

    [S] is the state of the whole system.  The function of [EachInterface] is
    a closure whose captured variables are its accumulator; the [postfn] of an
    update is called later, from another goroutine, so it is a number that
    names the closure. *)
Class InfraClient (S : Type) := {
  GetInterface : Opt → go S (option Interface);
  GetInstance : Opt → go S (option Instance_);
  GetSubnat : Opt → go S (option SubnatInfo);
  UpdatePort : Opt → Z → Event → bool → option nat → go S (option error);
  EachInterface : ∀ {B : Type}, Opt →
    (B → Interface → go S (B * (bool * option error))) → B → go S (B * option error);
  UpdateInstancePort : Opt → Event → bool → option nat → go S (option error);
  UpdateInterfacePort : string → option (list AddressPair) → Event → bool → option nat →
    go S (option error)
}.

(** The interface the program relies on: lookups leave a component's memory
    alone. *)
Class InfraFrame (S C : Type) `{!InfraClient S, !Lens S C} := {
  GetInterface_view : ∀ o, preserves (view (C:=C)) (GetInterface o);
  GetInstance_view : ∀ o, preserves (view (C:=C)) (GetInstance o)
}.

(** ** Facts *)

(** What the interface controller reads back from a port's name is what the
    port was created for: the instance's name, or its id without a name. *)
Definition port_owner (o : Opt) : string :=
  if decide (OptInstanceName o ≠ "") then OptInstanceName o else OptInstance o.
Definition pod_owner (o : Opt) : string :=
  if decide (OptPortName o ≠ "") then OptPortName o else OptPort o.

Lemma TrimPrefix_app p s : TrimPrefix (p +:+ s) p = s.
Proof. unfold TrimPrefix. by rewrite strip_prefix_app. Qed.

Lemma HasPrefix_app p s : HasPrefix (p +:+ s) p = true.
Proof. unfold HasPrefix. rewrite strip_prefix_app. by rewrite bool_decide_true. Qed.

(** The two kinds of ports are told apart by their names. *)
Lemma prefixes_disjoint s :
  HasPrefix s VMInterfaceName = true → HasPrefix s PodInterfaceName = true → False.
Proof.
  unfold HasPrefix. rewrite !bool_decide_eq_true. intros [r Hr] [r' Hr'].
  apply strip_prefix_Some in Hr, Hr'. rewrite Hr in Hr'. discriminate.
Qed.

Lemma GetInstancePortName_owner o : GetInstancePortName o = VMInterfaceName +:+ port_owner o.
Proof. unfold GetInstancePortName, port_owner. by case_decide. Qed.

Lemma GetInterfacePortName_owner o : GetInterfacePortName o = PodInterfaceName +:+ pod_owner o.
Proof. unfold GetInterfacePortName, pod_owner. by case_decide. Qed.

(** C24. The name of a created port identifies its kind and its owner: no
    two owners, of either kind, share a port name. *)
Theorem port_names_roundtrip o o' :
  HasPrefix (GetInstancePortName o) VMInterfaceName = true ∧
  HasPrefix (GetInstancePortName o) PodInterfaceName = false ∧
  TrimPrefix (GetInstancePortName o) VMInterfaceName = port_owner o ∧
  HasPrefix (GetInterfacePortName o') PodInterfaceName = true ∧
  HasPrefix (GetInterfacePortName o') VMInterfaceName = false ∧
  TrimPrefix (GetInterfacePortName o') PodInterfaceName = pod_owner o'.
Proof.
  rewrite GetInstancePortName_owner, GetInterfacePortName_owner, !TrimPrefix_app, !HasPrefix_app.
  split_and!; try done; apply not_true_is_false; intros Hp;
    eapply prefixes_disjoint; (apply HasPrefix_app || exact Hp).
Qed.
