(* ===== verification/Config.v ===== *)
(** * Config: the configuration read from the environment

    Models cmd/eni-controller/cmd/config.go: the table [envInfo] and
    [ParseConfiguration], with the functions of Go's packages strings and
    strconv that it calls.  The environment is a function from names to
    values.  The flags and the YAML file that follow are in Startup.v. *)
From S2P Require Import Prelude.
From S2P Require Import Infra.
From Stdlib Require Import Ascii.
Open Scope Z_scope.

(** ** The fields of [Config] and of the structs inlined in it *)
Inductive str_field :=
  | CommitVersion | CommitTime | AppVersion | LogLevel | GopsListenPort | PyroscopeAddress
  | InfraTypeField | AuthUrl | CredentialId | CredentialSecret | DefaultSubnatIdField
  | DefaultProjectIdField | ConfigPath.
Inductive bool_field := EnableMetric | EnableLease | InfraMutexOnCreate.
Inductive int_field :=
  | GoMaxProcs | InfraTimeoutField | PreAllocatedField | MinAvaliableField | WorkerNumberField.

(** The pointer of an entry; an entry may have none. *)
Inductive target :=
  | StrKey (f : str_field) | BoolKey (f : bool_field) | IntKey (f : int_field) | NoKey.

#[export] Instance str_field_eq_dec : EqDecision str_field.
Proof. solve_decision. Defined.
#[export] Instance bool_field_eq_dec : EqDecision bool_field.
Proof. solve_decision. Defined.
#[export] Instance int_field_eq_dec : EqDecision int_field.
Proof. solve_decision. Defined.
#[export] Instance target_eq_dec : EqDecision target.
Proof. solve_decision. Defined.

Record Config_ := {
  strs : str_field → string;
  bools : bool_field → bool;
  ints : int_field → Z
}.

Record envConf := {
  envName : string;
  defaultValue : string;
  required : bool;
  associate : target
}.

Definition envInfo : list envConf :=
  [ {| envName := "GIT_COMMIT_VERSION"; defaultValue := ""; required := false; associate := StrKey CommitVersion |};
    {| envName := "GIT_COMMIT_TIME"; defaultValue := ""; required := false; associate := StrKey CommitTime |};
    {| envName := "VERSION"; defaultValue := ""; required := false; associate := StrKey AppVersion |};
    {| envName := "GOLANG_ENV_MAXPROCS"; defaultValue := "8"; required := false; associate := IntKey GoMaxProcs |};
    {| envName := "ENI_LOG_LEVEL"; defaultValue := "info"; required := true; associate := StrKey LogLevel |};
    {| envName := "ENI_GOPS_LISTEN_PORT"; defaultValue := "5724"; required := false; associate := StrKey GopsListenPort |};
    {| envName := "ENI_PYROSCOPE_SERVER_ADDRESS"; defaultValue := ""; required := false; associate := StrKey PyroscopeAddress |};
    {| envName := "ENI_ENABLED_METRIC"; defaultValue := "false"; required := false; associate := BoolKey EnableMetric |};
    {| envName := "ENI_LEADER"; defaultValue := "false"; required := false; associate := BoolKey EnableLease |};
    {| envName := "ENI_TYPE"; defaultValue := OpenstackType; required := true; associate := StrKey InfraTypeField |};
    {| envName := "ENI_INFRA_TIMEOUT"; defaultValue := "60"; required := false; associate := IntKey InfraTimeoutField |};
    {| envName := "ENI_INFRAMUTEX"; defaultValue := "true"; required := false; associate := BoolKey InfraMutexOnCreate |};
    {| envName := "ENI_OPENSTACK_AUTH_URL"; defaultValue := ""; required := false; associate := StrKey AuthUrl |};
    {| envName := "ENI_OPENSTACK_APPLICATION_CREDENTIAL_ID"; defaultValue := ""; required := false; associate := StrKey CredentialId |};
    {| envName := "ENI_OPENSTACK_APPLICATION_CREDENTIAL_SECRET"; defaultValue := ""; required := false; associate := StrKey CredentialSecret |};
    {| envName := "ENI_OPENSTACK_DEFAULT_SUBNAT_ID"; defaultValue := ""; required := true; associate := StrKey DefaultSubnatIdField |};
    {| envName := "ENI_OPENSTACK_DEFAULT_PROJECT_ID"; defaultValue := ""; required := true; associate := StrKey DefaultProjectIdField |} ].

(** ** strings.TrimSpace on UTF-8 *)

Definition bytes (l : list nat) : string :=
  foldr (λ n s, String (Ascii.ascii_of_nat n) s) "" l.

(** The encodings of the characters with the property White_Space. *)
Definition white_spaces : list string :=
  bytes <$> ([[9]; [10]; [11]; [12]; [13]; [32]; [194; 133]; [194; 160]; [225; 154; 128]] ++
    ((λ n, [226; 128; n]) <$> (seq 128 11 ++ [168; 169; 175])) ++
    [[226; 129; 159]; [227; 128; 128]])%nat.

Definition strip_any (ps : list string) (s : string) : option string :=
  foldr (λ p r, match strip_prefix p s with Some s' => Some s' | None => r end) None ps.

(** Every strip removes a character, so the length is fuel enough. *)
Fixpoint trim_left (fuel : nat) (ps : list string) (s : string) : string :=
  match fuel with
  | O => s
  | S fuel => match strip_any ps s with Some s' => trim_left fuel ps s' | None => s end
  end.

Definition TrimSpace (s : string) : string :=
  let l := trim_left (String.length s) white_spaces s in
  String.rev (trim_left (String.length l) (String.rev <$> white_spaces) (String.rev l)).

(** ** strconv *)
Definition ParseBool (s : string) : option bool :=
  if decide (s ∈ ["1"; "t"; "T"; "TRUE"; "true"; "True"]) then Some true
  else if decide (s ∈ ["0"; "f"; "F"; "FALSE"; "false"; "False"]) then Some false
  else None.

Fixpoint digits (acc : Z) (s : string) : option Z :=
  match s with
  | "" => Some acc
  | String c s =>
      let n := Z.of_nat (Ascii.nat_of_ascii c) - 48 in
      if decide (0 ≤ n ≤ 9) then digits (10 * acc + n) s else None
  end.

Definition Atoi (s : string) : option Z :=
  let '(sign, body) :=
    match s with
    | String "-"%char s => (-1, s)
    | String "+"%char s => (1, s)
    | _ => (1, s)
    end in
  match body with
  | "" => None
  | _ => z ← digits 0 body; if decide (int64_range (sign * z)) then Some (sign * z) else None
  end.

(** ** ParseConfiguration *)

(** It returns, returns an error for an entry, or leaves the process. *)
Inductive parsed := Parsed (c : Config_) | Failed (name : string) | Exited (name : string).

Module Config.

Definition fupd {F} `{EqDecision F} {V} (f : F) (v : V) (g : F → V) : F → V :=
  λ x, if decide (x = f) then v else g x.

Definition set_str (f : str_field) (v : string) (c : Config_) : Config_ :=
  {| strs := fupd f v (strs c); bools := bools c; ints := ints c |}.
Definition set_bool (f : bool_field) (v : bool) (c : Config_) : Config_ :=
  {| strs := strs c; bools := fupd f v (bools c); ints := ints c |}.
Definition set_int (f : int_field) (v : Z) (c : Config_) : Config_ :=
  {| strs := strs c; bools := bools c; ints := fupd f v (ints c) |}.

(** The text that an entry uses. *)
Definition env_value (env : string → option string) (e : envConf) : string :=
  match env (envName e) with Some v => TrimSpace v | None => defaultValue e end.

(** The body of the loop for one entry. *)
Definition parse_entry (env : string → option string) (c : Config_) (e : envConf) : parsed :=
  let result := env_value env e in
  if decide (result = "") then
    if required e then Exited (envName e) else Parsed c
  else
    match associate e with
    | StrKey f => Parsed (set_str f result c)
    | BoolKey f =>
        match ParseBool result with
        | Some b => Parsed (set_bool f b c)
        | None => Failed (envName e)
        end
    | IntKey f =>
        match Atoi result with
        | Some n => Parsed (set_int f n c)
        | None => Failed (envName e)
        end
    | NoKey => Failed (envName e)
    end.

Fixpoint parse_entries (env : string → option string) (es : list envConf) (c : Config_) : parsed :=
  match es with
  | [] => Parsed c
  | e :: es =>
      match parse_entry env c e with
      | Parsed c => parse_entries env es c
      | r => r
      end
  end.

Definition ParseConfiguration (env : string → option string) (c : Config_) : parsed :=
  parse_entries env envInfo c.

(** ** The reference: each entry on its own *)

Inductive datum := DStr (s : string) | DBool (b : bool) | DInt (n : Z).

Definition read (c : Config_) (t : target) : option datum :=
  match t with
  | StrKey f => Some (DStr (strs c f))
  | BoolKey f => Some (DBool (bools c f))
  | IntKey f => Some (DInt (ints c f))
  | NoKey => None
  end.

Definition decode (t : target) (s : string) : option datum :=
  match t with
  | StrKey _ => Some (DStr s)
  | BoolKey _ => DBool <$> ParseBool s
  | IntKey _ => DInt <$> Atoi s
  | NoKey => None
  end.

(** What an entry does by itself. *)
Inductive verdict := Keeps | Sets (d : datum) | Wrong | Missing.

Definition judge (env : string → option string) (e : envConf) : verdict :=
  let v := env_value env e in
  if decide (v = "") then if required e then Missing else Keeps
  else match decode (associate e) v with Some d => Sets d | None => Wrong end.

Lemma parse_entry_judge env c e :
  match judge env e with
  | Keeps => parse_entry env c e = Parsed c
  | Sets d => ∃ c', parse_entry env c e = Parsed c' ∧ read c' (associate e) = Some d ∧
      ∀ t, t ≠ associate e → read c' t = read c t
  | Wrong => parse_entry env c e = Failed (envName e)
  | Missing => parse_entry env c e = Exited (envName e)
  end.
Proof.
  unfold judge, parse_entry. destruct (decide (env_value env e = "")); [by destruct (required e)|].
  destruct (associate e) as [f|f|f|]; simpl; [|destruct (ParseBool _)|destruct (Atoi _)|]; simpl;
    try done; eexists; (split; [done|]); simpl; unfold fupd; rewrite decide_True by done;
    (split; [done|]); intros [f'|f'|f'|] Hf; try done; simpl; unfold fupd;
    rewrite decide_False by congruence; done.
Qed.

(** The first entry that is wrong or missing. *)
Fixpoint first_bad (env : string → option string) (es : list envConf) : option parsed :=
  match es with
  | [] => None
  | e :: es =>
      match judge env e with
      | Missing => Some (Exited (envName e))
      | Wrong => Some (Failed (envName e))
      | _ => first_bad env es
      end
  end.

(** The value of a field after the entries. *)
Definition outcome_of env c (e : envConf) : option datum :=
  match judge env e with Sets d => Some d | _ => read c (associate e) end.

Lemma parse_entries_spec env es c :
  NoDup (associate <$> es) →
  match first_bad env es with
  | Some r => parse_entries env es c = r
  | None => ∃ c', parse_entries env es c = Parsed c' ∧
      (∀ e, e ∈ es → read c' (associate e) = outcome_of env c e) ∧
      (∀ t, t ∉ associate <$> es → read c' t = read c t)
  end.
Proof.
  revert c. induction es as [|e es IH]; intros c Hnd; simpl.
  { exists c. split_and!; [done|set_solver|done]. }
  apply NoDup_cons in Hnd as [He Hnd]. pose proof (parse_entry_judge env c e) as Hj.
  destruct (judge env e) as [|d| |] eqn:Hv; [| |by rewrite Hj|by rewrite Hj].
  - rewrite Hj. specialize (IH c Hnd). destruct (first_bad env es); [done|].
    destruct IH as (c' & E & H1 & H2). exists c'. split_and!; [done| |].
    + intros e' [->|He']%elem_of_cons; [|by apply H1]. unfold outcome_of. rewrite Hv. by apply H2.
    + intros t Ht. apply H2. set_solver.
  - destruct Hj as (c1 & -> & Hd & Hother). specialize (IH c1 Hnd).
    destruct (first_bad env es); [done|]. destruct IH as (c' & E & H1 & H2).
    exists c'. split_and!; [done| |].
    + intros e' [->|He']%elem_of_cons; [unfold outcome_of; rewrite Hv; by rewrite H2|].
      rewrite H1 by done. unfold outcome_of. destruct (judge env e'); try done;
        apply Hother; intros Heq; apply He; rewrite <- Heq; by apply list_elem_of_fmap_2.
    + intros t Ht. rewrite H2 by set_solver. apply Hother. set_solver.
Qed.

(** ParseConfiguration treats every variable on its own: the first variable
    that is required and empty ends the process, the first one that does not
    decode is the error; if there is none, every field has the decoded value of
    its variable, or of its default when the variable is not set, and keeps what
    it had when that text is empty.  Without any variable the process ends: the
    default subnet has no default. *)
Lemma ParseConfiguration_spec env c :
  (match first_bad env envInfo with
   | Some r => ParseConfiguration env c = r
   | None => ∃ c', ParseConfiguration env c = Parsed c' ∧
       ∀ e, e ∈ envInfo → read c' (associate e) = outcome_of env c e
   end) ∧
  ParseConfiguration (λ _, None) c = Exited "ENI_OPENSTACK_DEFAULT_SUBNAT_ID".
Proof.
  assert (NoDup (associate <$> envInfo)) as Hnd by (apply (bool_decide_unpack _); by vm_compute).
  split.
  - pose proof (parse_entries_spec env envInfo c Hnd) as H. unfold ParseConfiguration.
    destruct (first_bad env envInfo); [done|]. destruct H as (c' & ? & ? & _). by exists c'.
  - pose proof (parse_entries_spec (λ _, None) envInfo c Hnd) as H.
    assert (first_bad (λ _, None) envInfo = Some (Exited "ENI_OPENSTACK_DEFAULT_SUBNAT_ID")) as Hb
      by (by vm_compute). by rewrite Hb in H.
Qed.

(** The functions of the standard library on some inputs. *)
Example TrimSpace_both : TrimSpace ("  a b" +:+ bytes [194; 160; 10]%nat) = "a b".
Proof. by vm_compute. Qed.
Example Atoi_values :
  (Atoi <$> ["60"; "-7"; "+9223372036854775807"; "9223372036854775808"; ""; "-"; "1_0"]) =
  [Some 60; Some (-7); Some (2 ^ 63 - 1); None; None; None; None].
Proof. by vm_compute. Qed.
End Config.
