(* ===== verification/Openstack.v ===== *)
(** * Openstack: the Openstack implementation of the IaaS interface

    Models pkg/infra/openstack.go.  The requests to neutron and nova are a
    parameter, [Neutron]: gophercloud turns each into one HTTP call of a
    remote service.  The two goroutine pools (ants, nonblocking, 50 workers)
    are kept as the lists of the tasks that are running; a submitted task is
    dropped when the pool is full.  A task runs atomically here, so
    singleflight calls its function directly; Flight.v models the calls that
    overlap.  A listing answers all its pages at once; gophercloud fetches each
    page after the calls on the one before. *)
From S2P Require Import Prelude.
From S2P Require Import HashSet.
From S2P Require Import Objects.
From S2P Require Import IPPool.
From S2P Require Import Infra.
From stdpp Require Import pretty.

(** ** The remote service *)

(** [ports.IP], [ports.Port], [ports.CreateOpts], [ports.ListOpts] *)
Record FixedIP := { SubnetID : string; IPAddress : string }.

Record Port := {
  PortName : string;
  PortID : string;
  FixedIPs : list FixedIP;
  MACAddress : string
}.

Definition zero_port : Port := {| PortName := ""; PortID := ""; FixedIPs := []; MACAddress := "" |}.

Record CreateOpts := {
  NetworkID : string;
  CreateSubnet : string;
  DeviceID : string;
  CreateName : string;
  DeviceOwner : string
}.

Record ListOpts := {
  ListSubnet : string;
  ListProject : string;
  ListNetwork : string;
  ListDevice : string
}.

(** A listing answers with pages; fetching or decoding one may fail.  An
    attached interface of nova has the fields of a port but the name. *)
Definition page (A : Type) : Type := error + list A.

Class Neutron (S : Type) := {
  ports_get : string → S → (error + Port) * S;
  ports_create : CreateOpts → S → (error + Port) * S;
  ports_delete : string → S → option error * S;
  ports_list : ListOpts → S → list (page Port) * S;
  attach_create : string → string → S → (error + Port) * S;
  attach_delete : string → string → S → option error * S;
  attach_list : string → S → list (page Port) * S;
  pairs_add : string → list AddressPair → S → option error * Port * S;
  pairs_remove : string → list AddressPair → S → option error * S;
  subnets_get : string → S → (error + SubnatInfo) * S;
  zones_list : S → (error + list string) * S
}.

(** vendor/github.com/gophercloud/gophercloud/pagination/pager.go [EachPage] *)
Fixpoint EachPage {S A B} (handler : B → page A → go S (B * bool * option error))
    (pages : list (page A)) (b : B) : go S (B * option error) :=
  match pages with
  | [] => go_ret (b, None)
  | inr [] :: _ => go_ret (b, None)
  | p :: pages =>
      let* '(b, ok, err) := handler b p in
      match err with
      | Some _ => go_ret (b, err)
      | None => if ok : bool then EachPage handler pages b else go_ret (b, None)
      end
  end.

(** ** The goroutine pools *)
Inductive task :=
  | CreateTask (o : Opt) (number : Z)
  | DeleteTask (id : string)
  | AttachTask (instanceid mainid : string) (fn : option nat)
  | DetachTask (instanceid mainid : string)
  | AssignTask (id : string) (ps : list AddressPair) (postfn : option nat)
  | UssignTask (id : string) (ps : list AddressPair).

Record openstack := { createPool : list task; attPool : list task }.

Definition empty_openstack : openstack := {| createPool := []; attPool := [] |}.

Definition pool_cap : nat := 50.

(** [NewOpenstackClient]: the client timeout, in seconds. *)
Definition OpenstackClientTimeout (cfg : InfraCfg) : Z :=
  if decide (InfraTimeout cfg < 10)%Z then 10 else InfraTimeout cfg.

Definition VMDeviceOwner : string := "compute:".
Definition PodDeviceOwner : string := "network:secondary".

(** [fromPorts]: the first address is read before its existence is tested. *)
Definition fromPorts (p : Port) : outcome Interface :=
  match FixedIPs p with
  | [] => Panic IndexOutOfRange
  | ip :: _ =>
      Ret {| IfName := PortName p; IfId := PortID p; IfIp := IPAddress ip;
             SubnatId := SubnetID ip; IfMac := MACAddress p; Second := ∅ |}
  end.

Definition createOpts (o : Opt) : CreateOpts :=
  if decide (OptInstance o ≠ "") then
    {| NetworkID := OptVpc o; CreateSubnet := OptSubnet o; DeviceID := OptInstance o;
       CreateName := GetInstancePortName o; DeviceOwner := VMDeviceOwner +:+ OptInstance o |}
  else
    {| NetworkID := OptVpc o; CreateSubnet := OptSubnet o; DeviceID := OptPort o;
       CreateName := GetInterfacePortName o; DeviceOwner := PodDeviceOwner +:+ OptPort o |}.

(** The singleflight key of the [n]-th port. *)
Definition createKey (o : Opt) (n : Z) : string := CreateName (createOpts o) +:+ pretty n.

Definition listOpts (o : Opt) : ListOpts :=
  {| ListSubnet := OptSubnet o; ListProject := OptProject o; ListNetwork := OptVpc o;
     ListDevice := if decide (OptPort o ≠ "") then OptPort o else OptInstance o |}.

Definition not_support : option error := Some (EMsg "not support event").

Module Openstack.
Section client.
Context {S : Type} `{!RangeOrder, !Neutron S, !Lens S openstack}.
(** The closures that [postfn] numbers name. *)
Context (run_cb : nat → Interface → go S unit).
Implicit Types (o : Opt) (s : S).

Definition submit_create (t : task) : go S unit :=
  let* c := load in
  if decide (length (createPool c) < pool_cap)%nat then
    store {| createPool := createPool c ++ [t]; attPool := attPool c |}
  else go_ret tt.

Definition submit_att (t : task) : go S unit :=
  let* c := load in
  if decide (length (attPool c) < pool_cap)%nat then
    store {| createPool := createPool c; attPool := attPool c ++ [t] |}
  else go_ret tt.

Definition createPort o (n : Z) : go S (error + Port) := go_call (ports_create (createOpts o)).
Definition deletePort (id : string) : go S (option error) := go_call (ports_delete id).

(** The result of nova's call is asserted to be one of neutron's. *)
Definition attachPort (instanceid mainid networkid : string) (postfn : option nat)
    : go S (option error) :=
  if decide (mainid ≠ "" ∧ networkid ≠ "") then
    go_ret (Some (EMsg "only one of mainid or networkid can be set"))
  else
    let id := if decide (mainid ≠ "") then mainid else networkid in
    let* _ := go_call (attach_create instanceid id) in
    go_panic BadTypeAssertion.

Definition detachPort (instanceid mainid : string) : go S (option error) :=
  go_call (attach_delete instanceid mainid).

Definition call_back (postfn : option nat) (p : Port) : go S unit :=
  match postfn with
  | None => go_ret tt
  | Some f => let* i := go_lift (fromPorts p) in run_cb f i
  end.

Definition assignPort (mainid : string) (ps : list AddressPair) (postfn : option nat)
    : go S (option error) :=
  let* '(err, ret) := go_call (pairs_add mainid ps) in
  call_back postfn ret ;;;
  go_ret err.

Definition ussignPort (mainid : string) (ps : list AddressPair) : go S (option error) :=
  go_call (pairs_remove mainid ps).

(** The waiting branch of UpdatePort: the wait group is a zero value, whose
    counter is a nil pointer and whose channel is nil. *)
Definition wait_created (number : Z) : go S (option error) :=
  if decide (0 < number)%Z then go_panic NilDeref else go_hang.

(** [number] tasks submitted one after the other. *)
Definition submit_creates o (number : Z) : go S unit :=
  for_acc (seq 0 (Z.to_nat number)) (λ _ _, submit_create (CreateTask o number)) tt.

Definition UpdatePort o (number : Z) (ev : Event) (wait : bool) (postfn : option nat)
    : go S (option error) :=
  match ev with
  | CreateE | UpdateE =>
      if decide (OptVpc o = "" ∨ OptSubnet o = "") then
        go_ret (Some (EMsg "must set vpc and subnet id"))
      else if decide (OptInstance o = "" ∧ OptPort o = "") then
        go_ret (Some (EMsg "must set one of instance or port id"))
      else if wait then wait_created number
      else submit_creates o number ;;; go_ret None
  | DeleteE =>
      if wait then deletePort (OptPort o)
      else submit_create (DeleteTask (OptPort o)) ;;; go_ret None
  | OtherE _ => go_ret not_support
  end.

(** The first port of a page with exactly one address: the loop returns
    from inside its first eligible iteration. *)
Fixpoint page_handler {B} (fn : B → Interface → go S (B * (bool * option error)))
    (l : list Port) (b : B) : go S (B * bool * option error) :=
  match l with
  | [] => go_ret (b, true, None)
  | p :: l =>
      match FixedIPs p with
      | [ip] =>
          let* '(b, (ok, err)) := fn b
            {| IfName := PortName p; IfId := PortID p; IfIp := IPAddress ip;
               SubnatId := SubnetID ip; IfMac := MACAddress p; Second := ∅ |} in
          go_ret (b, ok, err)
      | _ => page_handler fn l b
      end
  end.

Definition EachInterface {B} o (fn : B → Interface → go S (B * (bool * option error))) (b : B)
    : go S (B * option error) :=
  if decide (OptSubnet o = "") then go_ret (b, Some (EMsg "must set subnat id"))
  else
    let* pages := go_call (ports_list (listOpts o)) in
    EachPage (λ b p, match p with
                     | inl err => go_ret (b, false, Some err)
                     | inr l => page_handler fn l b
                     end) pages b.

Definition UpdateInstancePort o (ev : Event) (wait : bool) (fn : option nat)
    : go S (option error) :=
  if decide (OptInstance o = "" ∨ OptPort o = "") then
    go_ret (Some (EMsg "update instance port must set instance and port"))
  else
    match ev with
    | CreateE | UpdateE =>
        if wait then attachPort (OptInstance o) (OptPort o) "" fn
        else submit_att (AttachTask (OptInstance o) (OptPort o) fn) ;;; go_ret None
    | DeleteE =>
        if wait then detachPort (OptInstance o) (OptPort o)
        else submit_att (DetachTask (OptInstance o) (OptPort o)) ;;; go_ret None
    | OtherE _ => go_ret not_support
    end.

Definition UpdateInterfacePort (id : string) (pairs : option (list AddressPair)) (ev : Event)
    (wait : bool) (postfn : option nat) : go S (option error) :=
  match pairs with
  | None => go_ret (Some (EMsg "update interface port must set id and pair"))
  | Some ps =>
      if decide (id = "") then
        go_ret (Some (EMsg "update interface port must set id and pair"))
      else
        match ev with
        | CreateE | UpdateE =>
            if wait then assignPort id ps postfn
            else submit_att (AssignTask id ps postfn) ;;; go_ret None
        | DeleteE =>
            if wait then ussignPort id ps
            else submit_att (UssignTask id ps) ;;; go_ret None
        | OtherE _ => go_ret not_support
        end
  end.

Definition GetInterface o : go S (option Interface) :=
  if decide (OptPort o = "") then go_ret None
  else
    let* r := go_call (ports_get (OptPort o)) in
    match r with
    | inl _ => go_ret None
    | inr po => let* i := go_lift (fromPorts po) in go_ret (Some i)
    end.

(** One interface of a page: its address is filed in [inst.Interface],
    which [GetInstance] never makes. *)
Definition add_interface (inst : Instance_) (main : Port) : go S Instance_ :=
  match FixedIPs main with
  | [] => go_ret inst
  | ip :: _ =>
      if decide (IPAddress ip = DefaultIp inst) then go_ret inst
      else
        match InstInterface inst with
        | None => go_panic NilMapWrite
        | Some m =>
            go_ret {| InstId := InstId inst; DefaultIp := DefaultIp inst;
                      InstNodeName := InstNodeName inst;
                      InstInterface := Some (<[IPAddress ip :=
                        {| IfName := ""; IfId := PortID main; IfIp := IPAddress ip;
                           SubnatId := SubnetID ip; IfMac := MACAddress main;
                           Second := ∅ |}]> m) |}
        end
  end.

Definition GetInstance o : go S (option Instance_) :=
  if decide (OptInstance o = "" ∧ OptIp o = "") then go_ret None
  else
    let* pages := go_call (attach_list (OptInstance o)) in
    let* '(inst, err) :=
      EachPage (λ inst p, match p with
                          | inl err => go_ret (inst, false, Some err)
                          | inr l => let* inst := for_acc l add_interface inst in
                                     go_ret (inst, true, None)
                          end) pages
        {| InstId := OptInstance o; DefaultIp := OptIp o; InstNodeName := OptInstanceName o;
           InstInterface := None |} in
    go_ret (match err with Some _ => None | None => Some inst end).

Definition GetSubnat o : go S (option SubnatInfo) :=
  if decide (OptSubnet o = "") then go_ret None
  else
    let* r := go_call (subnets_get (OptSubnet o)) in
    go_ret (match r with inl _ => None | inr sn => Some sn end).

(** The first zone that is not the internal one. *)
Definition getDefaultAz : go S (error + string) :=
  let* r := go_call zones_list in
  go_ret (match r with
          | inl err => inl err
          | inr zones =>
              match filter (λ z, z ≠ "internal") zones with
              | z :: _ => inr z
              | [] => inl (EMsg "not found non-internal az")
              end
          end).

(** ** The tasks *)

(** The body of a task; [i] is the value of the loop variable that the
    closure of UpdatePort shares with the loop.  The results are dropped. *)
Definition task_body (i : Z) (t : task) : go S unit :=
  match t with
  | CreateTask o _ => createPort o i ;;; go_ret tt
  | DeleteTask id => deletePort id ;;; go_ret tt
  | AttachTask inst main fn => attachPort inst main "" fn ;;; go_ret tt
  | DetachTask inst main => detachPort inst main ;;; go_ret tt
  | AssignTask id ps fn => assignPort id ps fn ;;; go_ret tt
  | UssignTask id ps => ussignPort id ps ;;; go_ret tt
  end.

(** A worker of the pool recovers the panic of its task, and a task that
    blocks keeps its worker. *)
Definition recovered (m : go S unit) : go S unit :=
  λ s, match m s with
       | (Panic _, s') => (Ret tt, s')
       | r => r
       end.

(** The task at position [k] of a pool ends, in any order. *)
Definition run_att_task (k : nat) : go S unit :=
  let* c := load in
  match attPool c !! k with
  | None => go_hang
  | Some t =>
      recovered (task_body 0 t) ;;;
      let* c := load in
      store {| createPool := createPool c; attPool := delete k (attPool c) |}
  end.

Definition run_create_task (k : nat) (i : Z) : go S unit :=
  let* c := load in
  match createPool c !! k with
  | None => go_hang
  | Some t =>
      recovered (task_body i t) ;;;
      let* c := load in
      store {| createPool := delete k (createPool c); attPool := attPool c |}
  end.

(** The value of the loop variable once the loop of UpdatePort is over. *)
Definition loop_end (t : task) : Z :=
  match t with CreateTask _ number => Z.max 0 number | _ => 0 end.

(** All running tasks end, in some order, and no other is submitted. *)
Definition settle_tasks : go S unit :=
  let* c := load in
  for_acc (range_order (createPool c ++ attPool c))
    (λ _ t, recovered (task_body (loop_end t) t)) tt ;;;
  store empty_openstack.
End client.
End Openstack.
