(* ===== verification/Connect.v ===== *)
(** * Connect: the construction of the Openstack client

    Models [NewOpenstackClient] of pkg/infra/openstack.go and the functions it
    calls to authenticate.  Gophercloud, the process environment and the
    worker pools of ants are an interface whose calls may fail. *)
From S2P Require Import Prelude.
From S2P Require Import HashSet.
From S2P Require Import Objects.
From S2P Require Import Infra.
From S2P Require Import Openstack.
Open Scope Z_scope.

(** [gophercloud.AuthOptions]: the scope, and everything else as the library
    read it from the environment. *)
Record AuthOptions := {
  TenantName : string;
  ScopeDomain : option string;
  Credentials : string
}.

(** A [ProviderClient]: its token, the timeout of its HTTP client in
    nanoseconds, and the options that its [ReauthFunc] keeps. *)
Record Provider := { Token : string; HttpTimeout : Z; ReauthOptions : AuthOptions }.

(** A [ServiceClient]: the provider and the endpoint found for it. *)
Record ServiceClient := { ProviderClient : Provider; Endpoint : string }.

Inductive endpoint := NetworkV2 | ComputeV2 | IdentityV3.

Class Gophercloud (S : Type) := {
  auth_options_from_env : S → (error + AuthOptions) * S;
  authenticated_client : AuthOptions → S → (error + string) * S;
  new_endpoint : endpoint → Provider → S → (error + string) * S;
  new_pool : Z → S → option error * S;
  getenv : string → S → string * S
}.

(** The struct that is returned. *)
Record Connected := {
  neutronV2 : ServiceClient; novaV2 : ServiceClient; keystoneV3 : ServiceClient;
  connected_cfg : InfraCfg; worker_pools : openstack
}.

Module Connect.
Section connect.
Context {S : Type} `{!Gophercloud S}.
Implicit Types (s : S) (cfg : InfraCfg).

(** [if err != nil { return nil, err }] *)
Definition try_ {A B} (m : go S (error + A)) (k : A → go S (error + B)) : go S (error + B) :=
  let* r := m in match r with inl err => go_ret (inl err) | inr a => k a end.

Definition second : Z := 1000000000.

Definition newProviderClientOrDie (domainScope : bool) (timeout : Z) : go S (error + Provider) :=
  try_ (go_call auth_options_from_env) (λ opt,
  let* opt :=
    if domainScope then
      let* d := go_call (getenv "OS_DOMAIN_NAME") in
      go_ret {| TenantName := ""; ScopeDomain := Some d; Credentials := Credentials opt |}
    else go_ret opt in
  try_ (go_call (authenticated_client opt)) (λ p,
  go_ret (inr {| Token := p; HttpTimeout := wrap64 (second * timeout); ReauthOptions := opt |}))).

(** [ReauthFunc]: the provider with the token of a new one. *)
Definition ReauthFunc (p : Provider) : go S (error + Provider) :=
  try_ (go_call (authenticated_client (ReauthOptions p))) (λ newprov,
  go_ret (inr {| Token := newprov; HttpTimeout := HttpTimeout p;
                 ReauthOptions := ReauthOptions p |})).

Definition newNetworkV2ClientOrDie (p : Provider) : go S (error + ServiceClient) :=
  try_ (go_call (new_endpoint NetworkV2 p)) (λ e,
  go_ret (inr {| ProviderClient := p; Endpoint := e |})).
Definition newComputeV2ClientOrDie (p : Provider) : go S (error + ServiceClient) :=
  try_ (go_call (new_endpoint ComputeV2 p)) (λ e,
  go_ret (inr {| ProviderClient := p; Endpoint := e |})).
Definition newIdentityV3ClientOrDie (p : Provider) : go S (error + ServiceClient) :=
  try_ (go_call (new_endpoint IdentityV3 p)) (λ e,
  go_ret (inr {| ProviderClient := p; Endpoint := e |})).

Definition probe : go S (option error) := go_ret None.

Definition pool_of_workers : go S (error + unit) :=
  let* r := go_call (new_pool (Z.of_nat pool_cap)) in
  go_ret (match r with Some err => inl err | None => inr tt end).

(** The client, whose error is that of [probe]; or the first error. *)
Definition NewOpenstackClient cfg : go S (error + (Connected * option error)) :=
  let timeout := OpenstackClientTimeout cfg in
  try_ (newProviderClientOrDie false timeout) (λ provider,
  try_ (newProviderClientOrDie true timeout) (λ domainTokenProvider,
  try_ (newNetworkV2ClientOrDie provider) (λ netV2,
  try_ (newComputeV2ClientOrDie provider) (λ computeV2,
  try_ (newIdentityV3ClientOrDie domainTokenProvider) (λ idenV3,
  try_ pool_of_workers (λ _,
  try_ pool_of_workers (λ _,
  let* err := probe in
  go_ret (inr ({| neutronV2 := netV2; novaV2 := computeV2; keystoneV3 := idenV3;
                  connected_cfg := cfg; worker_pools := empty_openstack |}, err))))))))).

(** ** What the client is *)

Lemma try_inv {A B} (m : go S (error + A)) (k : A → go S (error + B)) s r s' :
  try_ m k s = (r, s') →
  (∃ a s1, m s = (Ret (inr a), s1) ∧ k a s1 = (r, s')) ∨
  (∃ e, m s = (Ret (inl e), s') ∧ r = Ret (inl e)) ∨
  (∃ p, m s = (Panic p, s') ∧ r = Panic p) ∨ (m s = (Hang, s') ∧ r = Hang).
Proof.
  unfold try_, go_bind. destruct (m s) as [[[e|a]|p|] s1]; intros Hr.
  - injection Hr as <- <-. right; left. by exists e.
  - left. by exists a, s1.
  - injection Hr as <- <-. right; right; left. by exists p.
  - injection Hr as <- <-. by do 3 right.
Qed.

(** A computation that always returns. *)
Definition returns {A} (m : go S A) : Prop := ∀ s, ∃ a s', m s = (Ret a, s').

Lemma returns_try {A B} (m : go S (error + A)) (k : A → go S (error + B)) :
  returns m → (∀ a, returns (k a)) → returns (try_ m k).
Proof.
  intros Hm Hk s. unfold try_, go_bind. destruct (Hm s) as ([e|a] & s1 & ->);
    [by do 2 eexists|apply Hk].
Qed.

Lemma returns_call {A} (f : S → A * S) : returns (go_call f).
Proof. intros s. unfold go_call. destruct (f s). by do 2 eexists. Qed.

Lemma returns_ret {A} (a : A) : returns (go_ret a).
Proof. intros s. by do 2 eexists. Qed.

Lemma returns_bind {A B} (m : go S A) (k : A → go S B) :
  returns m → (∀ a, returns (k a)) → returns (go_bind m k).
Proof. intros Hm Hk s. unfold go_bind. destruct (Hm s) as (a & s1 & ->). apply Hk. Qed.

Create HintDb returns_db.
#[local] Hint Resolve returns_call returns_ret : returns_db.

Ltac returning := repeat first
  [ progress intros
  | solve [auto with returns_db]
  | apply returns_try | apply returns_bind
  | match goal with
    | |- returns (if ?b then _ else _) => destruct b
    | |- returns (match ?x with _ => _ end) => destruct x
    end ].

(** The options of a provider are those of the environment, as they are or
    with the scope of the domain. *)
Definition scoped (domainScope : bool) (opt : AuthOptions) : Prop :=
  ∃ env s s', auth_options_from_env s = (inr env, s') ∧
  if domainScope then
    TenantName opt = "" ∧ Credentials opt = Credentials env ∧
    ∃ s1 d, (getenv "OS_DOMAIN_NAME" s1).1 = d ∧ ScopeDomain opt = Some d
  else opt = env.

Lemma newProvider_options b timeout s p s' :
  newProviderClientOrDie b timeout s = (Ret (inr p), s') →
  HttpTimeout p = wrap64 (second * timeout) ∧ scoped b (ReauthOptions p).
Proof.
  unfold newProviderClientOrDie. intros Hr.
  apply try_inv in Hr as [(opt & s1 & He & Hr)|[(?&_&[=])|[(?&_&[=])|[_ [=]]]]].
  apply go_bind_inv in Hr as (opt' & s2 & Hopt & Hr).
  apply try_inv in Hr as [(tok & s3 & _ & Hr)|[(?&_&[=])|[(?&_&[=])|[_ [=]]]]].
  injection Hr as <- _. simpl. split; [done|]. exists opt, s, s1.
  split; [unfold go_call in He; destruct (auth_options_from_env s); by simplify_eq|].
  destruct b; [|by injection Hopt as <- _].
  apply go_bind_inv in Hopt as (d & s4 & Hd & Hopt). injection Hopt as <- _. simpl.
  split_and!; [done..|]. exists s1, d. split; [|done].
  unfold go_call in Hd. destruct (getenv _ s1). by simplify_eq.
Qed.

Lemma new_client_provider e p s c s' :
  try_ (go_call (new_endpoint e p)) (λ u, go_ret (inr {| ProviderClient := p; Endpoint := u |})) s =
    (Ret (inr c), s') → ProviderClient c = p.
Proof.
  intros Hr. apply try_inv in Hr as [(u & s1 & _ & Hr)|[(?&_&[=])|[(?&_&[=])|[_ [=]]]]].
  by injection Hr as <- _.
Qed.

Lemma NewOpenstackClient_returns cfg : returns (NewOpenstackClient cfg).
Proof.
  unfold NewOpenstackClient, newProviderClientOrDie, newNetworkV2ClientOrDie,
    newComputeV2ClientOrDie, newIdentityV3ClientOrDie, pool_of_workers, probe. returning.
Qed.

(** What always answers without an error. *)
Definition succeeds {A} (m : go S (error + A)) : Prop := ∀ s, ∃ a s', m s = (Ret (inr a), s').

Lemma succeeds_try {A B} (m : go S (error + A)) (k : A → go S (error + B)) :
  succeeds m → (∀ a, succeeds (k a)) → succeeds (try_ m k).
Proof.
  intros Hm Hk s. unfold try_, go_bind. destruct (Hm s) as (a & s1 & ->). apply Hk.
Qed.

Lemma succeeds_call {A} (f : S → (error + A) * S) :
  (∀ s, ∃ a, (f s).1 = inr a) → succeeds (go_call f).
Proof.
  intros Hf s. destruct (Hf s) as [a Ha]. unfold go_call. destruct (f s) as [r s']. simpl in Ha.
  subst r. by do 2 eexists.
Qed.

Lemma succeeds_ret {A} (a : A) : succeeds (go_ret (inr a)).
Proof. intros s. by do 2 eexists. Qed.

Lemma NewOpenstackClient_succeeds cfg s :
  (∀ s, ∃ a, (auth_options_from_env s).1 = inr a) →
  (∀ o s, ∃ t, (authenticated_client o s).1 = inr t) →
  (∀ e p s, ∃ u, (new_endpoint e p s).1 = inr u) →
  (∀ n s, (new_pool n s).1 = None) →
  ∃ c s', NewOpenstackClient cfg s = (Ret (inr (c, None)), s').
Proof.
  intros Ha Hc He Hn.
  assert (Hprov : ∀ b t, succeeds (newProviderClientOrDie b t)).
  { intros b t. apply succeeds_try; [by apply succeeds_call|]. intros opt s1.
    unfold go_bind at 1. destruct b; simpl.
    - unfold go_bind at 1, go_call at 1. destruct (getenv _ s1) as [d s2]. simpl.
      apply succeeds_try; [by apply succeeds_call|]. intros. apply succeeds_ret.
    - apply succeeds_try; [by apply succeeds_call|]. intros. apply succeeds_ret. }
  assert (Hend : ∀ e p, succeeds (try_ (go_call (new_endpoint e p)) (λ u,
    go_ret (inr {| ProviderClient := p; Endpoint := u |})))).
  { intros e p. apply succeeds_try; [by apply succeeds_call|]. intros. apply succeeds_ret. }
  assert (Hpool : succeeds pool_of_workers).
  { intros s1. unfold pool_of_workers, go_bind, go_call. specialize (Hn (Z.of_nat pool_cap) s1).
    destruct (new_pool _ s1) as [r s2]. simpl in Hn. subst r. by do 2 eexists. }
  unfold NewOpenstackClient, newNetworkV2ClientOrDie, newComputeV2ClientOrDie,
    newIdentityV3ClientOrDie.
  destruct (Hprov false (OpenstackClientTimeout cfg) s) as (p & s1 & E1).
  destruct (Hprov true (OpenstackClientTimeout cfg) s1) as (d & s2 & E2).
  destruct (Hend NetworkV2 p s2) as (n & s3 & E3). destruct (Hend ComputeV2 p s3) as (v & s4 & E4).
  destruct (Hend IdentityV3 d s4) as (k & s5 & E5).
  destruct (Hpool s5) as (u1 & s6 & E6). destruct (Hpool s6) as (u2 & s7 & E7).
  do 7 (unfold try_ at 1, go_bind at 1;
    first [rewrite E1|rewrite E2|rewrite E3|rewrite E4|rewrite E5|rewrite E6|rewrite E7]).
  by do 2 eexists.
Qed.

Lemma OpenstackClientTimeout_max cfg : OpenstackClientTimeout cfg = Z.max 10 (InfraTimeout cfg).
Proof. unfold OpenstackClientTimeout. case_decide; lia. Qed.

(** The timeout of the HTTP clients, in nanoseconds. *)
Definition http_timeout cfg : Z := wrap64 (second * Z.max 10 (InfraTimeout cfg)).

(** A client that is built. *)
Lemma NewOpenstackClient_built cfg s c err s' :
  NewOpenstackClient cfg s = (Ret (inr (c, err)), s') →
  err = None ∧ connected_cfg c = cfg ∧ worker_pools c = empty_openstack ∧
  ProviderClient (novaV2 c) = ProviderClient (neutronV2 c) ∧
  HttpTimeout (ProviderClient (neutronV2 c)) = http_timeout cfg ∧
  HttpTimeout (ProviderClient (keystoneV3 c)) = http_timeout cfg ∧
  scoped false (ReauthOptions (ProviderClient (neutronV2 c))) ∧
  scoped true (ReauthOptions (ProviderClient (keystoneV3 c))).
Proof.
  unfold NewOpenstackClient, http_timeout. rewrite OpenstackClientTimeout_max. intros Hr.
  apply try_inv in Hr as [(p & s1 & Hp & Hr)|[(?&_&[=])|[(?&_&[=])|[_ [=]]]]].
  apply newProvider_options in Hp as [Hp Hsc].
  apply try_inv in Hr as [(d & s2 & Hd & Hr)|[(?&_&[=])|[(?&_&[=])|[_ [=]]]]].
  apply newProvider_options in Hd as [Hd Hdom].
  apply try_inv in Hr as [(n & s3 & Hn & Hr)|[(?&_&[=])|[(?&_&[=])|[_ [=]]]]].
  apply new_client_provider in Hn.
  apply try_inv in Hr as [(v & s4 & Hv & Hr)|[(?&_&[=])|[(?&_&[=])|[_ [=]]]]].
  apply new_client_provider in Hv.
  apply try_inv in Hr as [(k & s5 & Hk & Hr)|[(?&_&[=])|[(?&_&[=])|[_ [=]]]]].
  apply new_client_provider in Hk.
  apply try_inv in Hr as [(u1 & s6 & _ & Hr)|[(?&_&[=])|[(?&_&[=])|[_ [=]]]]].
  apply try_inv in Hr as [(u2 & s7 & _ & Hr)|[(?&_&[=])|[(?&_&[=])|[_ [=]]]]].
  injection Hr as <- <- _. simpl. rewrite Hn, Hv, Hk. by split_and!.
Qed.

(** The same answer with another configuration in the client. *)
Definition with_cfg cfg' (r : outcome (error + (Connected * option error))) :
    outcome (error + (Connected * option error)) :=
  match r with
  | Ret (inr (c, e)) =>
      Ret (inr ({| neutronV2 := neutronV2 c; novaV2 := novaV2 c; keystoneV3 := keystoneV3 c;
                   connected_cfg := cfg'; worker_pools := worker_pools c |}, e))
  | r => r
  end.

Lemma NewOpenstackClient_cfg cfg cfg' s :
  InfraTimeout cfg' = InfraTimeout cfg →
  NewOpenstackClient cfg' s = prod_map (with_cfg cfg') id (NewOpenstackClient cfg s).
Proof.
  intros Heq. unfold NewOpenstackClient. rewrite !OpenstackClientTimeout_max, Heq.
  unfold try_, go_bind. repeat (case_match; simplify_eq/=); done.
Qed.

Lemma ReauthFunc_keeps p s p' s' :
  ReauthFunc p s = (Ret (inr p'), s') →
  HttpTimeout p' = HttpTimeout p ∧ ReauthOptions p' = ReauthOptions p.
Proof.
  intros Hr. apply try_inv in Hr as [(t & s1 & _ & Hr)|[(?&_&[=])|[(?&_&[=])|[_ [=]]]]].
  by injection Hr as <- _.
Qed.

(** C22. Building the client always returns, an error or a client. A client
    has workers in neither pool and no error from its probe; its network and
    compute services share a provider, which authenticates with the options of
    the environment as they are, and only the identity service's provider
    drops the project and takes the scope of the domain. The timeout of the
    HTTP clients is the configured one, at least ten seconds, and exact up to
    9223372036 s; one second more is a negative duration, which HTTP takes as
    no timeout, and 18446744074 s are less than a third of a second. A new
    token keeps the timeout and the credentials; of the configuration only the
    timeout matters. *)
Theorem NewOpenstackClient_spec cfg s r s' :
  NewOpenstackClient cfg s = (r, s') →
  ((∃ e, r = Ret (inl e)) ∨
   (∃ c, r = Ret (inr (c, None)) ∧ connected_cfg c = cfg ∧ worker_pools c = empty_openstack ∧
      ProviderClient (novaV2 c) = ProviderClient (neutronV2 c) ∧
      scoped false (ReauthOptions (ProviderClient (neutronV2 c))) ∧
      scoped true (ReauthOptions (ProviderClient (keystoneV3 c))) ∧
      Forall (λ service, HttpTimeout (ProviderClient service) = http_timeout cfg ∧
          ∀ s1 p s2, ReauthFunc (ProviderClient service) s1 = (Ret (inr p), s2) →
            HttpTimeout p = http_timeout cfg ∧
            ReauthOptions p = ReauthOptions (ProviderClient service))
        [neutronV2 c; novaV2 c; keystoneV3 c])) ∧
  (InfraTimeout cfg ≤ 9223372036 →
   10 * second ≤ http_timeout cfg ∧ http_timeout cfg = second * Z.max 10 (InfraTimeout cfg)) ∧
  (InfraTimeout cfg = 9223372037 → http_timeout cfg < 0) ∧
  (InfraTimeout cfg = 18446744074 → 3 * http_timeout cfg < second) ∧
  (∀ cfg', InfraTimeout cfg' = InfraTimeout cfg →
     NewOpenstackClient cfg' s = (with_cfg cfg' r, s')).
Proof.
  intros E. split_and!.
  - destruct (NewOpenstackClient_returns cfg s) as ([e|[c e]] & s1 & E1);
      rewrite E in E1; injection E1 as -> ->; [left; by exists e|right].
    apply NewOpenstackClient_built in E as (-> & Hc & Hw & Hnv & Hn & Hk & Hsc & Hdom).
    exists c. split_and!; try done. rewrite !Forall_cons, Forall_nil, Hnv.
    split_and!; try done; intros s2 p s3 [-> ->]%ReauthFunc_keeps; done.
  - intros Hle. unfold http_timeout, second.
    rewrite wrap64_id; [lia|unfold int64_range; lia].
  - unfold http_timeout. intros ->. by vm_compute.
  - unfold http_timeout. intros ->. by vm_compute.
  - intros cfg' Heq. by rewrite (NewOpenstackClient_cfg cfg cfg' s Heq), E.
Qed.
End connect.
End Connect.
