(* ===== verification/Metadata.v ===== *)
(** * Metadata: the description of the node that the cloud serves

    Models pkg/infra/metadata/openstack.go.  HTTP is an interface, the reading
    of JSON text a parameter; how [json.Unmarshal] fills the struct is modelled:
    keys match a tag exactly or up to case folding, a null leaves a field, and
    a value of another type is an error that does not stop the others. *)
From Stdlib Require Import Ascii.
From S2P Require Import Prelude.

Inductive json :=
  | JNull | JBool (b : bool) | JNumber (text : string) | JString (s : string)
  | JArray (l : list json) | JObject (members : list (string * json)).

Record NodeInfo := {
  ID : string; Hostname : string; ProjectID : string; NodeInfoName : string;
  AvailabilityZone : string
}.

(** The fields of [NodeInfo], and their tags. *)
Inductive node_field := FID | FHostname | FProjectID | FName | FAvailabilityZone.

#[export] Instance node_field_eq_dec : EqDecision node_field.
Proof. solve_decision. Defined.

(** [http.Response]: a status, and a body that must be closed. *)
Record Response := { StatusCode : Z; Body : nat }.

Class Http (W : Type) := {
  http_get : string → W → (error + Response) * W;
  read_all : nat → W → (string * option error) * W;
  close_body : nat → W → W
}.

Module Metadata.

Definition metadataURL : string := "http://169.254.169.254/openstack/latest/meta_data.json".

Definition zero_node : NodeInfo :=
  {| ID := ""; Hostname := ""; ProjectID := ""; NodeInfoName := ""; AvailabilityZone := "" |}.

Definition tag (f : node_field) : string :=
  match f with
  | FID => "uuid" | FHostname => "hostname" | FProjectID => "project_id" | FName => "name"
  | FAvailabilityZone => "availability_zone"
  end.

Definition get_field (n : NodeInfo) (f : node_field) : string :=
  match f with
  | FID => ID n | FHostname => Hostname n | FProjectID => ProjectID n | FName => NodeInfoName n
  | FAvailabilityZone => AvailabilityZone n
  end.

Definition set_field (f : node_field) (v : string) (n : NodeInfo) : NodeInfo :=
  let g x := if decide (f = x) then v else get_field n x in
  {| ID := g FID; Hostname := g FHostname; ProjectID := g FProjectID;
     NodeInfoName := g FName; AvailabilityZone := g FAvailabilityZone |}.

(** The folding of a key: ASCII letters in upper case, and the two other runes
    that fold to one, the long s (C5 BF) and the sign of Kelvin (E2 84 AA). *)
Definition upper (c : Ascii.ascii) : Ascii.ascii :=
  let n := Ascii.N_of_ascii c in
  if decide (97 ≤ n ≤ 122)%N then Ascii.ascii_of_N (n - 32) else c.

Fixpoint fold_name (s : string) : string :=
  match s with
  | String "197"%char (String "191"%char s') => String "S"%char (fold_name s')
  | String "226"%char (String "132"%char (String "170"%char s')) => String "K"%char (fold_name s')
  | String c s' => String (upper c) (fold_name s')
  | EmptyString => EmptyString
  end.

(** The field of a key: one whose tag it is, or else folds to. *)
Definition field_of (key : string) : option node_field :=
  let fields := [FID; FHostname; FProjectID; FName; FAvailabilityZone] in
  match list_find (λ f, tag f = key) fields with
  | Some (_, f) => Some f
  | None => snd <$> list_find (λ f, fold_name (tag f) = fold_name key) fields
  end.

Definition type_error : error := EMsg "json: cannot unmarshal value into Go value".

(** One member of the object; the first type error is kept. *)
Definition assign (x : NodeInfo * option error) (m : string * json) : NodeInfo * option error :=
  match field_of m.1, m.2 with
  | None, _ | Some _, JNull => x
  | Some f, JString v => (set_field f v x.1, x.2)
  | Some _, _ => (x.1, match x.2 with None => Some type_error | Some e => Some e end)
  end.

Section metadata.
Context (parse : string → error + json).

(** [json.Unmarshal(body, node)]: a text that is no JSON assigns nothing. *)
Definition Unmarshal (body : string) (node : NodeInfo) : NodeInfo * option error :=
  match parse body with
  | inl err => (node, Some err)
  | inr JNull => (node, None)
  | inr (JObject ms) => foldl assign (node, None) ms
  | inr _ => (node, Some type_error)
  end.

Context {W : Type} `{!Http W}.

Definition GetMetadata : go W (error + NodeInfo) :=
  let* r := go_call (http_get metadataURL) in
  match r with
  | inl err => go_ret (inl err)
  | inr resp =>
      let* '(body, err) := go_call (read_all (Body resp)) in
      let* res :=
        match err with
        | Some err => go_ret (inl err)
        | None =>
            let '(node, err) := Unmarshal body zero_node in
            go_ret (match err with Some err => inl err | None => inr node end)
        end in
      go_call (λ w, (tt, close_body (Body resp) w)) ;;;
      go_ret res
  end.

(** ** What is decoded *)

(** The text that a member gives to a field, and the last one of many. *)
Definition text_of (f : node_field) (m : string * json) : option string :=
  match field_of m.1, m.2 with
  | Some g, JString v => if decide (g = f) then Some v else None
  | _, _ => None
  end.

Definition last_text (f : node_field) (ms : list (string * json)) : option string :=
  last (omap (text_of f) ms).

(** A member that fits: its key is no field's, or its value is a text or null. *)
Definition fits (m : string * json) : Prop :=
  field_of m.1 = None ∨ m.2 = JNull ∨ ∃ v, m.2 = JString v.

Lemma get_set f g v n : get_field (set_field f v n) g = if decide (f = g) then v else get_field n g.
Proof. by destruct f, g. Qed.

Lemma assign_one m x :
  (∀ f, get_field (assign x m).1 f = default (get_field x.1 f) (text_of f m)) ∧
  ((assign x m).2 = None ↔ x.2 = None ∧ fits m).
Proof.
  unfold assign, text_of, fits. destruct (field_of m.1) as [g|]; [|naive_solver].
  split; [intros f; destruct m.2; try done; simpl; rewrite get_set; by case_decide|].
  destruct m.2, x.2; naive_solver.
Qed.

Lemma assign_all ms x :
  (∀ f, get_field (foldl assign x ms).1 f = default (get_field x.1 f) (last_text f ms)) ∧
  ((foldl assign x ms).2 = None ↔ x.2 = None ∧ Forall fits ms).
Proof.
  induction ms as [|m ms [IH1 IH2]] using rev_ind; [split; [done|rewrite Forall_nil; naive_solver]|].
  rewrite foldl_app. simpl. destruct (assign_one m (foldl assign x ms)) as [H1 H2]. split.
  - intros f. rewrite H1, IH1. unfold last_text. rewrite omap_app, last_app. simpl.
    by destruct (text_of f m).
  - rewrite H2, IH2, Forall_app, Forall_singleton. naive_solver.
Qed.

(** What the answer is: the first error of the three stages, else the fields
    with their last texts, empty for what the document leaves out. *)
Lemma Unmarshal_spec body n err :
  Unmarshal body zero_node = (n, err) →
  (err = None ↔ parse body = inr JNull ∨ ∃ ms, parse body = inr (JObject ms) ∧ Forall fits ms) ∧
  ∀ f, get_field n f =
    match parse body with inr (JObject ms) => default "" (last_text f ms) | _ => "" end.
Proof.
  unfold Unmarshal. intros Hu.
  destruct (parse body) as [e|[| | | | |ms]]; try (injection Hu as <- <-; split;
    [naive_solver|by intros []]).
  destruct (assign_all ms (zero_node, None)) as [H1 H2]. rewrite Hu in H1, H2. simpl in *. split.
  - rewrite H2. naive_solver.
  - intros f. rewrite H1. by destruct f.
Qed.

(** Reading the metadata always returns, closes the body that it was given
    whatever happens, and does not look at the status: a page that describes an
    error of the service, as an object without the tags or as null, is
    a node whose fields are empty. *)
Lemma GetMetadata_spec w :
  match http_get metadataURL w with
  | (inl e, w1) => GetMetadata w = (Ret (inl e), w1)
  | (inr resp, w1) =>
      ∃ r w2, (read_all (Body resp) w1).2 = w2 ∧
        GetMetadata w = (Ret r, close_body (Body resp) w2) ∧
        ∀ body, (read_all (Body resp) w1).1 = (body, None) →
          match r with
          | inl e => (Unmarshal body zero_node).2 = Some e
          | inr n => Unmarshal body zero_node = (n, None)
          end
  end.
Proof.
  unfold GetMetadata, go_bind, go_call.
  destruct (http_get metadataURL w) as [[e|resp] w1]; [done|].
  destruct (read_all (Body resp) w1) as [[body [e|]] w2]; simpl;
    [by eexists _, w2; split_and!|].
  destruct (Unmarshal body zero_node) as [n [e|]] eqn:Hu; simpl;
    eexists _, w2; (split_and!; [done..|]); intros ? [= <-]; by rewrite Hu.
Qed.
End metadata.

(** A page of the service in place of the document. *)
Example error_page :
  Unmarshal (λ _, inr (JObject [("code", JNumber "503"); ("message", JString "no metadata")]))
    "" zero_node = (zero_node, None).
Proof. reflexivity. Qed.

Example folded_key :
  Unmarshal (λ _, inr (JObject [("UUID", JString "a"); ("Project_ID", JString "p");
                                ("uuid", JString "b"); ("hostname", JNumber "1")]))
    "" zero_node =
  ({| ID := "b"; Hostname := ""; ProjectID := "p"; NodeInfoName := ""; AvailabilityZone := "" |},
   Some type_error).
Proof. reflexivity. Qed.
End Metadata.
