(* ===== verification/OpenstackFacts.v ===== *)
(** * OpenstackFacts: what the Openstack client does

    Listings as a reference iteration, the lookup of an instance, what an asynchronous update submits, and which tasks ever
    call the function they were given. *)
From S2P Require Import Prelude.
From S2P Require Import HashSet.
From S2P Require Import Objects.
From S2P Require Import IPPool.
From S2P Require Import Infra.
From S2P Require Import Openstack.

Module OpenstackFacts.
Import Openstack.

Section listing.
Context {S : Type}.
Implicit Types (p : Port) (pages : list (page Port)).

(** The only address of a port with exactly one. *)
Definition single_ip p : option Interface :=
  match FixedIPs p with
  | [ip] => Some {| IfName := PortName p; IfId := PortID p; IfIp := IPAddress ip;
                    SubnatId := SubnetID ip; IfMac := MACAddress p; Second := ∅ |}
  | _ => None
  end.

(** What a listing hands to its callback: of each page before the first
    empty one, the first port with exactly one address, or the error. *)
Fixpoint visited pages : list (error + Interface) :=
  match pages with
  | [] => []
  | inl e :: _ => [inl e]
  | inr [] :: _ => []
  | inr l :: pages => option_list (inr <$> head (omap single_ip l)) ++ visited pages
  end.

Fixpoint each {B} (fn : B → Interface → go S (B * (bool * option error)))
    (l : list (error + Interface)) (b : B) : go S (B * option error) :=
  match l with
  | [] => go_ret (b, None)
  | inl e :: _ => go_ret (b, Some e)
  | inr i :: l =>
      let* '(b, (ok, err)) := fn b i in
      match err with
      | Some _ => go_ret (b, err)
      | None => if ok : bool then each fn l b else go_ret (b, None)
      end
  end.

Lemma page_handler_head {B} (fn : B → Interface → go S (B * (bool * option error))) l b s :
  page_handler fn l b s =
  match head (omap single_ip l) with
  | Some i => (let* '(b, (ok, err)) := fn b i in go_ret (b, ok, err)) s
  | None => go_ret (b, true, None) s
  end.
Proof.
  induction l as [|p l IH]; [done|]. simpl. unfold single_ip at 1.
  destruct (FixedIPs p) as [|ip [|]]; [apply IH|done|apply IH].
Qed.

Lemma visited_length pages : (length (visited pages) ≤ length pages)%nat.
Proof.
  induction pages as [|[e|[|p l]] pages IH]; simpl; try lia.
  rewrite length_app. destruct (head _); simpl; lia.
Qed.

Lemma EachPage_visited {B} (fn : B → Interface → go S (B * (bool * option error))) pages b s :
  EachPage (λ b pg, match pg with
                    | inl err => go_ret (b, false, Some err)
                    | inr l => page_handler fn l b
                    end) pages b s = each fn (visited pages) b s.
Proof.
  revert b s. induction pages as [|[e|[|p l]] pages IH]; intros b s; [done|done|done|].
  cbn [EachPage visited]. unfold go_bind at 1. rewrite page_handler_head.
  destruct (head (omap single_ip (p :: l))) as [i|]; cbn [fmap option_fmap option_map option_list app].
  - simpl each. unfold go_bind. destruct (fn b i s) as [[[b' [ok [e|]]]|pa|] s']; try done.
    simpl. destruct ok; [apply IH|done].
  - simpl. apply IH.
Qed.
End listing.

Lemma EachPage_preserves {S X A B} (p : S → X)
    (handler : B → page A → go S (B * bool * option error)) pages b :
  (∀ b pg, preserves p (handler b pg)) → preserves p (EachPage handler pages b).
Proof.
  intros Hh. revert b.
  induction pages as [|[e|[|x l]] pages IH]; intros b; try done;
    (apply preserves_bind; [apply Hh|]; intros [[b' ok] [e'|]]; [done|]; by destruct ok).
Qed.

Section client.
Context {S : Type} `{!RangeOrder, !Neutron S, !Lens S openstack}.
Context (run_cb : nat → Interface → go S unit).
Implicit Types (o : Opt) (s : S).

(** C20. EachInterface calls its function on at most one port of each page, in
    page order, until it answers false or an error; the other ports of a
    page are skipped. *)
Theorem EachInterface_visits {B} o (fn : B → Interface → go S (B * (bool * option error))) b s
    pages s' :
  OptSubnet o ≠ "" → ports_list (listOpts o) s = (pages, s') →
  EachInterface o fn b s = each fn (visited pages) b s' ∧
  (length (visited pages) ≤ length pages)%nat.
Proof.
  intros Ho Hp. split; [|apply visited_length]. unfold EachInterface.
  rewrite decide_False by done. rewrite (go_bind_run _ _ s pages s')
    by (unfold go_call; by rewrite Hp). apply EachPage_visited.
Qed.

(** *** GetInstance *)

(** The ports of the pages before the first empty or failing one. *)
Fixpoint reached (pages : list (page Port)) : list Port :=
  match pages with
  | inr (p :: l) :: pages => (p :: l) ++ reached pages
  | _ => []
  end.

Fixpoint listing_error (pages : list (page Port)) : bool :=
  match pages with
  | inl _ :: _ => true
  | inr (_ :: _) :: pages => listing_error pages
  | _ => false
  end.

(** A port with an address that is not the instance's own. *)
Definition extra o (p : Port) : Prop :=
  ∃ ip, head (FixedIPs p) = Some ip ∧ IPAddress ip ≠ OptIp o.

#[export] Instance extra_dec o p : Decision (extra o p).
Proof.
  destruct (head (FixedIPs p)) as [ip|] eqn:Hip.
  - destruct (decide (IPAddress ip = OptIp o)).
    + right. intros (ip' & Hip' & Hne). congruence.
    + left. by exists ip.
  - right. intros (ip' & Hip' & _). congruence.
Defined.

Definition bare_instance o : Instance_ :=
  {| InstId := OptInstance o; DefaultIp := OptIp o; InstNodeName := OptInstanceName o;
     InstInterface := None |}.

Lemma add_interface_bare o p s :
  add_interface (bare_instance o) p s =
  (if decide (extra o p) then Panic NilMapWrite else Ret (bare_instance o), s).
Proof.
  unfold add_interface. simpl. case_decide as Hx.
  - destruct Hx as (ip & Hip & Hne). destruct (FixedIPs p) as [|ip' l]; simplify_eq/=.
    by rewrite decide_False.
  - destruct (FixedIPs p) as [|ip' l] eqn:Hp; [done|]. rewrite decide_True; [done|].
    apply dec_stable. intros Hne. apply Hx. exists ip'. by rewrite Hp.
Qed.

Lemma add_interfaces_bare o l s :
  for_acc l add_interface (bare_instance o) s =
  (if decide (Exists (extra o) l) then Panic NilMapWrite else Ret (bare_instance o), s).
Proof.
  induction l as [|p l IH].
  - rewrite decide_False; [done|]. by inversion 1.
  - simpl. unfold go_bind. rewrite add_interface_bare. destruct (decide (extra o p)).
    + rewrite decide_True; [done|]. by left.
    + rewrite IH. destruct (decide (Exists (extra o) l));
        [rewrite decide_True by (by right); done|].
      rewrite decide_False; [done|]. rewrite Exists_cons. naive_solver.
Qed.

(** GetInstance panics on the first interface it should record; otherwise
    it answers an instance without any interface, or nil on an error. *)
Lemma GetInstance_run o s pages s' :
  (OptInstance o ≠ "" ∨ OptIp o ≠ "") → attach_list (OptInstance o) s = (pages, s') →
  GetInstance o s =
  (if decide (Exists (extra o) (reached pages)) then Panic NilMapWrite
   else Ret (if listing_error pages then None else Some (bare_instance o)), s').
Proof.
  intros Ho Hp. unfold GetInstance. rewrite decide_False by naive_solver.
  rewrite (go_bind_run _ _ s pages s') by (unfold go_call; by rewrite Hp).
  fold (bare_instance o). clear Hp.
  induction pages as [|[e|[|p l]] pages IH];
    try (rewrite decide_False by (by inversion 1); done).
  change (reached (inr (p :: l) :: pages)) with ((p :: l) ++ reached pages).
  change (listing_error (inr (p :: l) :: pages)) with (listing_error pages).
  cbn [EachPage]. unfold go_bind at 1 2 3. rewrite add_interfaces_bare.
  destruct (decide (Exists (extra o) (p :: l))) as [Hx|Hx].
  - rewrite decide_True by (by apply Exists_app; left). done.
  - etransitivity; [exact IH|].
    destruct (decide (Exists (extra o) (reached pages))) as [Hr|Hr].
    + rewrite decide_True by (by apply Exists_app; right). done.
    + rewrite decide_False; [done|]. rewrite Exists_app. naive_solver.
Qed.

(** *** UpdatePort *)
Definition valid_create o : Prop :=
  OptVpc o ≠ "" ∧ OptSubnet o ≠ "" ∧ (OptInstance o ≠ "" ∨ OptPort o ≠ "").

Definition pushed (l : list task) (c : openstack) : openstack :=
  {| createPool := createPool c ++ l; attPool := attPool c |}.

Lemma pushed_nil c : pushed [] c = c.
Proof. unfold pushed. rewrite app_nil_r. by destruct c. Qed.

Lemma submit_create_run t s c :
  view s = c →
  submit_create t s =
  (Ret tt, if decide (length (createPool c) < pool_cap)%nat then put (pushed [t] c) s else s).
Proof. intros <-. unfold submit_create, load, go_bind, go_gets. by case_decide. Qed.

Lemma submit_loop {A} (l : list A) t s :
  for_acc l (λ _ _, submit_create t) tt s =
  (Ret tt, put (pushed (replicate (length l `min` (pool_cap - length (createPool (view s)))) t)
                       (view s)) s).
Proof.
  revert s. induction l as [|a l IH]; intros s.
  - simpl. by rewrite pushed_nil, put_view.
  - simpl for_acc. unfold go_bind. rewrite (submit_create_run t s _ eq_refl).
    rewrite IH. f_equal. case_decide as Hc.
    + rewrite view_put, put_put. f_equal. unfold pushed; simpl. f_equal.
      rewrite <-app_assoc. f_equal. rewrite length_app; simpl.
      destruct (pool_cap - length (createPool (view s)))%nat as [|k] eqn:Hk;
        [unfold pool_cap in *; lia|].
      replace (pool_cap - (length (createPool (view s)) + 1))%nat with k by lia. done.
    + replace (pool_cap - length (createPool (view s)))%nat with 0%nat
        by (unfold pool_cap in *; lia).
      by rewrite !Nat.min_0_r.
Qed.

(** C21. A create: waiting for it never returns; without waiting, as many tasks
    are submitted as the pool has room for, the rest are dropped in
    silence, no request is made yet, and the function to call afterwards is
    forgotten. *)
Theorem UpdatePort_create o number ev postfn s :
  valid_create o → ev = CreateE ∨ ev = UpdateE →
  (∀ r s', UpdatePort o number ev true postfn s ≠ (Ret r, s')) ∧
  UpdatePort o number ev false postfn s =
    (Ret None, put (pushed (replicate (Z.to_nat number `min`
                                       (pool_cap - length (createPool (view s))))
                                      (CreateTask o number)) (view s)) s).
Proof.
  intros (Hv & Hs & Hi) Hev.
  assert (Hun : ∀ wait, UpdatePort o number ev wait postfn s =
    (if wait : bool then wait_created number else submit_creates o number ;;; go_ret None) s).
  { intros wait. unfold UpdatePort.
    destruct Hev as [-> | ->]; by rewrite decide_False, decide_False by naive_solver. }
  rewrite !Hun. split.
  - intros r s'. unfold wait_created. by case_decide.
  - unfold submit_creates. unfold go_bind. rewrite submit_loop, length_seq. done.
Qed.

(** *** Which tasks call back *)

(** A finished attach task made its request and nothing else: whatever the
    service answers, its function is never called. *)
Lemma attach_task_run inst main fn i s :
  main ≠ "" →
  recovered (task_body run_cb i (AttachTask inst main fn)) s =
  (Ret tt, snd (attach_create inst main s)).
Proof.
  intros Hm. unfold recovered, task_body, attachPort. rewrite decide_False by naive_solver.
  rewrite decide_True by done. unfold go_bind, go_call.
  by destruct (attach_create inst main s).
Qed.

(** An assign task whose answer carries no address (as a failed request's
    does) panics before the function is called. *)
Lemma assign_task_fails id ps fn i s err s' :
  pairs_add id ps s = (err, zero_port, s') →
  recovered (task_body run_cb i (AssignTask id ps fn)) s = (Ret tt, s').
Proof.
  intros Hp. unfold recovered, task_body, assignPort, go_call, go_bind. rewrite Hp.
  by destruct fn.
Qed.

Lemma assign_task_calls id ps f i s err p ip l s' :
  pairs_add id ps s = (err, p, s') → FixedIPs p = ip :: l →
  ∃ iface, fromPorts p = Ret iface ∧
  recovered (task_body run_cb i (AssignTask id ps (Some f))) s =
  (match run_cb f iface s' with (Panic _, s2) => (Ret tt, s2) | r => r end).
Proof.
  intros Hp Hip. unfold fromPorts. rewrite Hip. eexists. split; [done|].
  unfold recovered, task_body, assignPort, go_call, go_bind. rewrite Hp.
  unfold call_back, fromPorts. rewrite Hip. unfold go_lift, go_bind.
  destruct (run_cb _ _ _) as [[[]|?|] ?]; done.
Qed.
End client.

(** ** The implementation of the interface *)
Section instance.
Context {S : Type} `{!RangeOrder, !Neutron S, !Lens S openstack}.
Context (run_cb : nat → Interface → go S unit).

#[local] Instance openstack_client : InfraClient S := {|
  Infra.GetInterface := GetInterface;
  Infra.GetInstance := GetInstance;
  Infra.GetSubnat := GetSubnat;
  Infra.UpdatePort := UpdatePort;
  Infra.EachInterface := @EachInterface S _;
  Infra.UpdateInstancePort := UpdateInstancePort;
  Infra.UpdateInterfacePort := UpdateInterfacePort run_cb
|}.

(** The requests leave the memory of a component alone. *)
Class NeutronFrame (C : Type) `{!Lens S C} := {
  ports_get_view : ∀ n s, view (C:=C) (snd (ports_get n s)) = view s;
  ports_create_view : ∀ o s, view (C:=C) (snd (ports_create o s)) = view s;
  ports_delete_view : ∀ n s, view (C:=C) (snd (ports_delete n s)) = view s;
  ports_list_view : ∀ o s, view (C:=C) (snd (ports_list o s)) = view s;
  attach_create_view : ∀ i n s, view (C:=C) (snd (attach_create i n s)) = view s;
  attach_delete_view : ∀ i n s, view (C:=C) (snd (attach_delete i n s)) = view s;
  attach_list_view : ∀ n s, view (C:=C) (snd (attach_list n s)) = view s;
  pairs_add_view : ∀ n ps s, view (C:=C) (snd (pairs_add n ps s)) = view s;
  pairs_remove_view : ∀ n ps s, view (C:=C) (snd (pairs_remove n ps s)) = view s
}.

#[local] Instance openstack_frame (C : Type) `{!Lens S C, !NeutronFrame C} : InfraFrame S C.
Proof.
  split.
  - intros o. simpl. unfold GetInterface. case_decide; [done|].
    apply preserves_bind; [apply preserves_call; intros; apply ports_get_view|].
    intros [e|po]; frame.
  - intros o. simpl. unfold GetInstance. case_decide; [done|].
    apply preserves_bind; [apply preserves_call; intros; apply attach_list_view|].
    intros pages. apply preserves_bind; [|by intros []].
    apply EachPage_preserves. intros inst pg. destruct pg; [done|].
    apply preserves_bind; [|done]. apply preserves_acc. intros. unfold add_interface. frame.
Qed.
End instance.
End OpenstackFacts.
