(* ===== verification/Flight.v ===== *)
(** * Flight: the calls of the Openstack client that overlap

    Models [Group.Do] of vendor/golang.org/x/sync/singleflight and the keys
    under which pkg/infra/openstack.go passes its requests to it.  Openstack.v
    runs a request directly; here any number of goroutines are between the
    entry of [Do] and its return, and each critical section of the group's mutex
    is one step. *)
From S2P Require Import Prelude.
From S2P Require Import HashSet.
From S2P Require Import Objects.
From S2P Require Import IPPool.
From S2P Require Import Infra.
From S2P Require Import Openstack.
From stdpp Require Import pretty.

(** Where a goroutine is in [Do]; calls are numbered.  A result of [None] is
    the panic of the function, which every caller of the call raises. *)
Inductive phase (R : Type) :=
  | Enter                                     (* before g.mu.Lock() *)
  | Lead (c : nat)                            (* before fn() *)
  | Finish (c : nat)                          (* before the deferred function *)
  | Await (c : nat)                           (* in c.wg.Wait() *)
  | Answered (r : option R) (shared : bool).
Arguments Enter {R}.
Arguments Lead {R} _.
Arguments Finish {R} _.
Arguments Await {R} _.
Arguments Answered {R} _ _.

(** [call], with the key and the goroutine that made it; [released] says that
    the wait group is done. *)
Record call (R : Type) := {
  call_key : string;
  call_leader : nat;
  call_val : option (option R);
  released : bool;
  dups : nat
}.
Arguments call_key {R} _.
Arguments call_leader {R} _.
Arguments call_val {R} _.
Arguments released {R} _.
Arguments dups {R} _.

(** [Group], the goroutines with their requests, the service, and the requests
    that reached it with what it answered. *)
Record flights (Q R X : Type) := {
  by_key : gmap string nat;
  flown : list (call R);
  gos : list (Q * phase R);
  service : X;
  served : list (Q * option R)
}.
Arguments by_key {Q R X} _.
Arguments flown {Q R X} _.
Arguments gos {Q R X} _.
Arguments service {Q R X} _.
Arguments served {Q R X} _.

Module Flight.
Section group.
Context {Q R X : Type} (key : Q → string) (serve : Q → X → option R * X).
Implicit Types (s : flights Q R X) (q : Q) (t c : nat).

Definition new_call q t : call R :=
  {| call_key := key q; call_leader := t; call_val := None; released := false; dups := 0 |}.
Definition join (k : call R) : call R :=
  {| call_key := call_key k; call_leader := call_leader k; call_val := call_val k;
     released := released k; dups := S (dups k) |}.
Definition with_val (r : option R) (k : call R) : call R :=
  {| call_key := call_key k; call_leader := call_leader k; call_val := Some r;
     released := released k; dups := dups k |}.
Definition release (k : call R) : call R :=
  {| call_key := call_key k; call_leader := call_leader k; call_val := call_val k;
     released := true; dups := dups k |}.

(** A new goroutine calls [Do]. *)
Definition spawn q s : flights Q R X :=
  {| by_key := by_key s; flown := flown s; gos := gos s ++ [(q, Enter)]; service := service s;
     served := served s |}.

(** One critical section of goroutine [t]; [None] while it waits. *)
Definition advance t s : option (flights Q R X) :=
  g ← gos s !! t;
  let q := g.1 in
  match g.2 with
  | Enter =>
      match by_key s !! key q with
      | Some c =>
          Some {| by_key := by_key s; flown := alter join c (flown s);
                  gos := <[t := (q, Await c)]> (gos s); service := service s; served := served s |}
      | None =>
          let c := length (flown s) in
          Some {| by_key := <[key q := c]> (by_key s); flown := flown s ++ [new_call q t];
                  gos := <[t := (q, Lead c)]> (gos s); service := service s; served := served s |}
      end
  | Lead c =>
      let '(r, x) := serve q (service s) in
      Some {| by_key := by_key s; flown := alter (with_val r) c (flown s);
              gos := <[t := (q, Finish c)]> (gos s); service := x; served := served s ++ [(q, r)] |}
  | Finish c =>
      k ← flown s !! c; r ← call_val k;
      Some {| by_key := if decide (by_key s !! key q = Some c) then delete (key q) (by_key s)
                        else by_key s;
              flown := alter release c (flown s);
              gos := <[t := (q, Answered r (bool_decide (0 < dups k)%nat))]> (gos s);
              service := service s; served := served s |}
  | Await c =>
      k ← flown s !! c;
      if released k then
        r ← call_val k;
        Some {| by_key := by_key s; flown := flown s; gos := <[t := (q, Answered r true)]> (gos s);
                service := service s; served := served s |}
      else None
  | Answered _ _ => None
  end.

Inductive step : flights Q R X → flights Q R X → Prop :=
  | step_spawn q s : step s (spawn q s)
  | step_advance t s s' : advance t s = Some s' → step s s'.

Definition start (x : X) : flights Q R X :=
  {| by_key := ∅; flown := []; gos := []; service := x; served := [] |}.

(** ** The invariant *)

(** The result of a call comes from a request with its key. *)
Definition answered s (k : string) (r : option R) : Prop :=
  ∃ q, (q, r) ∈ served s ∧ key q = k.

(** A call is released with its result, or it is in the map and its leader is
    at work on it. *)
Definition call_ok s c (k : call R) : Prop :=
  if released k then ∃ r, call_val k = Some r ∧ answered s (call_key k) r
  else
    by_key s !! call_key k = Some c ∧
    ∃ q, key q = call_key k ∧
      match call_val k with
      | None => gos s !! call_leader k = Some (q, Lead c)
      | Some r => gos s !! call_leader k = Some (q, Finish c) ∧ (q, r) ∈ served s
      end.

Definition leads s t q c (done : bool) : Prop :=
  ∃ k, flown s !! c = Some k ∧ call_key k = key q ∧ call_leader k = t ∧ released k = false ∧
    (done = true ↔ is_Some (call_val k)).

Definition go_ok s t (g : Q * phase R) : Prop :=
  match g.2 with
  | Enter => True
  | Lead c => leads s t g.1 c false
  | Finish c => leads s t g.1 c true
  | Await c => ∃ k, flown s !! c = Some k ∧ call_key k = key g.1
  | Answered r shared =>
      answered s (key g.1) r ∧ (shared = false → (g.1, r) ∈ served s)
  end.

Record invariant s : Prop := {
  inv_map : ∀ k c, by_key s !! k = Some c →
    ∃ kc, flown s !! c = Some kc ∧ call_key kc = k ∧ released kc = false;
  inv_calls : ∀ c k, flown s !! c = Some k → call_ok s c k;
  inv_gos : ∀ t g, gos s !! t = Some g → go_ok s t g
}.

(** What a change leaves of a call and of a goroutine. *)
Definition same (k k' : call R) : Prop :=
  call_key k' = call_key k ∧ call_leader k' = call_leader k ∧ call_val k' = call_val k ∧
  released k' = released k.

Lemma answered_mono s s' k r : served s ⊆ served s' → answered s k r → answered s' k r.
Proof. intros Hs (q & ? & ?). exists q. auto. Qed.

Lemma call_ok_mono s s' c k k' :
  call_ok s c k → same k k' → served s ⊆ served s' →
  (released k = false →
   by_key s' !! call_key k = by_key s !! call_key k ∧
   gos s' !! call_leader k = gos s !! call_leader k) →
  call_ok s' c k'.
Proof.
  unfold call_ok. intros Hk (-> & -> & -> & ->) Hs Hsame. destruct (released k).
  - destruct Hk as (r & ? & ?). exists r. eauto using answered_mono.
  - destruct (Hsame eq_refl) as [-> ->], Hk as (? & q & ? & Hq). split; [done|]. exists q.
    split; [done|]. destruct (call_val k); naive_solver.
Qed.

Lemma go_ok_mono s s' t g :
  go_ok s t g → served s ⊆ served s' →
  (∀ c k, flown s !! c = Some k → ∃ k', flown s' !! c = Some k' ∧ call_key k' = call_key k ∧
     (call_leader k = t → same k k')) →
  go_ok s' t g.
Proof.
  intros Hg Hs Hf. destruct g as [q [|c|c|c|r b]]; unfold go_ok in *; simpl in *; [done|..].
  1,2: destruct Hg as (k & Hk & Hkey & Hl & Hr & Hv); destruct (Hf _ _ Hk) as (k' & ? & _ & H);
    destruct (H Hl) as (E1 & E2 & E3 & E4); exists k'; rewrite E1, E2, E3, E4; done.
  - destruct Hg as (k & Hk & Hkey). destruct (Hf _ _ Hk) as (k' & ? & E & _).
    exists k'. by rewrite E.
  - destruct Hg as [Ha Hb]. split; [by eapply answered_mono|]. auto.
Qed.

Lemma flown_alter (f : call R → call R) c0 (l : list (call R)) c k t :
  (∀ k, call_key (f k) = call_key k) → (∀ k, l !! c0 = Some k → call_leader k = t → same k (f k)) →
  l !! c = Some k →
  ∃ k', alter f c0 l !! c = Some k' ∧ call_key k' = call_key k ∧ (call_leader k = t → same k k').
Proof.
  intros Hkey Hsame Hk. destruct (decide (c = c0)) as [->|Hc].
  - exists (f k). rewrite list_lookup_alter_eq, Hk. eauto.
  - exists k. rewrite list_lookup_alter_ne by done. split_and!; done.
Qed.

Lemma spawn_invariant q s : invariant s → invariant (spawn q s).
Proof.
  intros [Hm Hc Hg]. split; simpl; [done|..].
  - intros c k Hk. eapply call_ok_mono; [by apply Hc|done|done|]. intros Hr. split; [done|]. simpl.
    specialize (Hc _ _ Hk). unfold call_ok in Hc. rewrite Hr in Hc.
    destruct Hc as (_ & q' & _ & Hl). apply lookup_app_l. apply lookup_lt_is_Some.
    destruct (call_val k) as [r|]; [destruct Hl as [Hl _]|]; rewrite Hl; done.
  - intros t g [Ht|[_ Ht]]%lookup_app_Some.
    + eapply go_ok_mono; [by apply Hg|done|]. intros c k ?. by exists k.
    + apply list_lookup_singleton_Some in Ht as [_ <-]. done.
Qed.

(** The leader of an unreleased call is at work on it. *)
Lemma leader_at s c k :
  invariant s → flown s !! c = Some k → released k = false →
  by_key s !! call_key k = Some c ∧
  ∃ q, key q = call_key k ∧
    gos s !! call_leader k = Some (q, match call_val k with None => Lead c | Some _ => Finish c end).
Proof.
  intros [_ Hc _] Hk Hr. specialize (Hc _ _ Hk). unfold call_ok in Hc. rewrite Hr in Hc.
  destruct Hc as (? & q & ? & Hl). split; [done|]. exists q. split; [done|].
  by destruct (call_val k) as [r|]; [destruct Hl|].
Qed.

Lemma not_leader s t q p c k :
  invariant s → gos s !! t = Some (q, p) → flown s !! c = Some k → released k = false →
  p ≠ Lead c → p ≠ Finish c → call_leader k ≠ t.
Proof.
  intros Hs Ht Hk Hr H1 H2 <-. destruct (leader_at s c k Hs Hk Hr) as (_ & q' & _ & Hl).
  rewrite Ht in Hl. destruct (call_val k); simplify_eq.
Qed.

(** A step of goroutine [t] that leaves the map, the results and every call
    but for its callers alone. *)
Lemma move_invariant s t q p p' f c x :
  invariant s → gos s !! t = Some (q, p) → (∀ k, same k (f k)) →
  (∀ c, p ≠ Lead c) → (∀ c, p ≠ Finish c) →
  let s' := {| by_key := by_key s; flown := alter f c (flown s);
               gos := <[t := (q, p')]> (gos s); service := x; served := served s |} in
  go_ok s' t (q, p') → invariant s'.
Proof.
  intros Hs Ht Hf H1 H2 s' Hgo. pose proof Hs as [Hm Hc Hg].
  split.
  - intros k0 c0 Hk. destruct (Hm _ _ Hk) as (kc & Hkc & E1 & E2). simpl.
    destruct (decide (c0 = c)) as [->|?]; [|rewrite list_lookup_alter_ne by done; eauto].
    rewrite list_lookup_alter_eq, Hkc. exists (f kc). destruct (Hf kc) as (-> & _ & _ & ->). done.
  - intros c0 k'. simpl. intros Hk'. assert (∃ k, flown s !! c0 = Some k ∧ same k k') as (k & Hk & Hsame).
    { destruct (decide (c0 = c)) as [->|?];
        [|rewrite list_lookup_alter_ne in Hk' by done; exists k'; by split].
      rewrite list_lookup_alter_eq in Hk'. apply fmap_Some in Hk' as (k & ? & ->). eauto. }
    eapply call_ok_mono; [by apply Hc|done|done|]. intros Hr. split; [done|]. simpl.
    apply list_lookup_insert_ne. apply not_eq_sym. eapply not_leader; eauto.
  - intros t' g. simpl. intros [(<- & <- & _)|[Hne Ht']]%list_lookup_insert_Some; [exact Hgo|].
    eapply go_ok_mono; [by apply Hg|done|]. intros c' k Hk.
    apply flown_alter; [intros; apply Hf|auto|done].
Qed.

(** A goroutine makes a new call. *)
Lemma lead_invariant s t q :
  invariant s → gos s !! t = Some (q, Enter) → by_key s !! key q = None →
  invariant {| by_key := <[key q := length (flown s)]> (by_key s); flown := flown s ++ [new_call q t];
               gos := <[t := (q, Lead (length (flown s)))]> (gos s); service := service s;
               served := served s |}.
Proof.
  intros Hs Ht Hq. pose proof Hs as [Hm Hc Hg].
  assert (∀ c k, flown s !! c = Some k → (flown s ++ [new_call q t]) !! c = Some k) as Hold.
  { intros c k Hk. by apply lookup_app_l_Some. }
  assert ((flown s ++ [new_call q t]) !! length (flown s) = Some (new_call q t)) as Hnew
    by (by apply list_lookup_middle).
  split; simpl.
  - intros k c [[<- <-]|[? Hk]]%lookup_insert_Some; [by exists (new_call q t)|].
    destruct (Hm _ _ Hk) as (kc & Hkc & ?). eauto.
  - intros c k [Hk|[Hle Hk]]%lookup_app_Some.
    + eapply call_ok_mono; [by apply Hc|done|done|]. intros Hr. simpl.
      destruct (leader_at s c k Hs Hk Hr) as [Hb _]. split.
      * apply lookup_insert_ne. congruence.
      * apply list_lookup_insert_ne. apply not_eq_sym. eapply not_leader; eauto; done.
    + apply list_lookup_singleton_Some in Hk as [Hn <-].
      assert (c = length (flown s)) as -> by lia. unfold call_ok. simpl.
      rewrite lookup_insert_eq. split; [done|]. exists q.
      by rewrite list_lookup_insert_eq by (by eapply lookup_lt_Some).
  - intros t' g [(<- & <- & _)|[Hne Ht']]%list_lookup_insert_Some.
    + exists (new_call q t). simpl. by split_and!.
    + eapply go_ok_mono; [by apply Hg|done|]. intros c k Hk. exists k. by split_and!; [apply Hold| |].
Qed.

(** The function of the call [c] runs. *)
Lemma run_invariant s t q c r x :
  invariant s → gos s !! t = Some (q, Lead c) →
  invariant {| by_key := by_key s; flown := alter (with_val r) c (flown s);
               gos := <[t := (q, Finish c)]> (gos s); service := x; served := served s ++ [(q, r)] |}.
Proof.
  intros Hs Ht. pose proof Hs as [Hm Hc Hg].
  destruct (Hg _ _ Ht) as (k & Hk & Hkey & Hl & Hr & Hv). simpl in *.
  assert (served s ⊆ served s ++ [(q, r)]) as Hserved by set_solver.
  split; simpl.
  - intros k0 c0 H0. destruct (Hm _ _ H0) as (kc & Hkc & E1 & E2).
    destruct (decide (c0 = c)) as [->|?]; [|rewrite list_lookup_alter_ne by done; eauto].
    rewrite list_lookup_alter_eq, Hkc. exists (with_val r kc). done.
  - intros c0 k' Hk'. destruct (decide (c0 = c)) as [->|Hne].
    + rewrite list_lookup_alter_eq, Hk in Hk'. injection Hk' as <-.
      unfold call_ok. simpl. rewrite Hr.
      destruct (leader_at s c k Hs Hk Hr) as [Hb _]. split; [done|]. exists q. rewrite Hl.
      rewrite list_lookup_insert_eq by (by eapply lookup_lt_Some). split_and!; [done..|set_solver].
    + rewrite list_lookup_alter_ne in Hk' by done.
      eapply call_ok_mono; [by apply Hc|done|done|]. intros Hr'. split; [done|]. simpl.
      apply list_lookup_insert_ne. intros Heq.
      destruct (leader_at s c0 k' Hs Hk' Hr') as (_ & q' & _ & Hl').
      rewrite <- Heq, Ht in Hl'. destruct (call_val k'); simplify_eq.
  - intros t' g [(<- & <- & _)|[Hne Ht']]%list_lookup_insert_Some.
    + exists (with_val r k). simpl. rewrite list_lookup_alter_eq, Hk. by split_and!.
    + eapply go_ok_mono; [by apply Hg|done|]. intros c' k' Hk'.
      apply flown_alter; [done| |done]. intros k2 Hk2 Hl2. congruence.
Qed.

(** The deferred function of the call [c]. *)
Lemma finish_invariant s t q c k r :
  invariant s → gos s !! t = Some (q, Finish c) → flown s !! c = Some k → call_val k = Some r →
  invariant {| by_key := if decide (by_key s !! key q = Some c) then delete (key q) (by_key s)
                         else by_key s;
               flown := alter release c (flown s);
               gos := <[t := (q, Answered r (bool_decide (0 < dups k)%nat))]> (gos s);
               service := service s; served := served s |}.
Proof.
  intros Hs Ht Hk Hv. pose proof Hs as [Hm Hc Hg].
  destruct (Hg _ _ Ht) as (k' & Hk' & Hkey & Hl & Hr & _). simpl in *. simplify_eq.
  destruct (leader_at s c k Hs Hk Hr) as [Hb _]. rewrite Hkey in Hb.
  rewrite decide_True by done.
  assert (answered s (key q) r ∧ (q, r) ∈ served s) as [Hans Hin].
  { pose proof (Hc _ _ Hk) as H. unfold call_ok in H. rewrite Hr, Hv, Ht in H.
    destruct H as (_ & q' & _ & H & ?). injection H as <-. split; [by exists q|done]. }
  split; simpl.
  - intros k0 c0 [Hne H0]%lookup_delete_Some. destruct (Hm _ _ H0) as (kc & Hkc & E1 & E2).
    rewrite list_lookup_alter_ne; [by exists kc|]. intros ->. congruence.
  - intros c0 k0 H0. destruct (decide (c0 = c)) as [->|Hne].
    + rewrite list_lookup_alter_eq, Hk in H0. injection H0 as <-. unfold call_ok. simpl.
      exists r. by rewrite Hkey.
    + rewrite list_lookup_alter_ne in H0 by done.
      eapply call_ok_mono; [by apply Hc|done|done|]. intros Hr'. simpl.
      destruct (leader_at s c0 k0 Hs H0 Hr') as (Hb' & q' & _ & Hl'). split.
      * apply lookup_delete_ne. congruence.
      * apply list_lookup_insert_ne. intros Heq. rewrite <- Heq, Ht in Hl'. destruct (call_val k0); simplify_eq.
  - intros t' g [(<- & <- & _)|[Hne Ht']]%list_lookup_insert_Some; [by split|].
    eapply go_ok_mono; [by apply Hg|done|]. intros c2 k2 Hk2.
    apply flown_alter; [done| |done]. intros k3 Hk3 Hl3. congruence.
Qed.

Lemma advance_invariant s t s' : invariant s → advance t s = Some s' → invariant s'.
Proof.
  intros Hs Ha. unfold advance in Ha.
  destruct (gos s !! t) as [[q p]|] eqn:Ht; [|done]. simpl in Ha.
  pose proof (inv_gos s Hs t _ Ht) as Hgo. destruct p as [|c|c|c|r b]; simpl in *; [..|done].
  - destruct (by_key s !! key q) as [c|] eqn:Hq; simplify_eq; [|by apply lead_invariant].
    apply (move_invariant s t q Enter); try done.
    destruct (inv_map s Hs _ _ Hq) as (k & Hk & Hkey & _).
    exists (join k). simpl. by rewrite list_lookup_alter_eq, Hk.
  - destruct (serve q (service s)) as [r x]. simplify_eq. by apply run_invariant.
  - destruct (flown s !! c) as [k|] eqn:Hk; [|done]. simpl in Ha.
    destruct (call_val k) as [r|] eqn:Hv; [|done]. simplify_eq/=. by eapply finish_invariant.
  - destruct Hgo as (k & Hk & Hkey). rewrite Hk in Ha. simpl in Ha.
    destruct (released k) eqn:Hr; [|done].
    pose proof (inv_calls s Hs _ _ Hk) as Hok. unfold call_ok in Hok. rewrite Hr in Hok.
    destruct Hok as (r & Hv & Hans). rewrite Hv in Ha. simpl in Ha. injection Ha as <-.
    rewrite <- (list_alter_id id (flown s) c) by done.
    apply (move_invariant s t q (Await c)); try done. split; [|done].
    simpl in *. rewrite <- Hkey. exact Hans.
Qed.

Lemma reachable_flights x s : rtc step (start x) s → invariant s.
Proof.
  revert s. apply rtc_ind_r.
  - split; simpl; [intros *; by rewrite lookup_empty|done|done].
  - intros s s' _ [q|t ?? Ha] IH; [by apply spawn_invariant|by eapply advance_invariant].
Qed.

(** Whoever has not returned, somebody can go on. *)
Lemma flights_move s t g :
  invariant s → gos s !! t = Some g → (∀ r b, g.2 ≠ Answered r b) → ∃ t' s', advance t' s = Some s'.
Proof.
  intros Hs Ht Hg. assert (∀ t q c, gos s !! t = Some (q, Lead c) → is_Some (advance t s)) as Hlead.
  { intros t' q c Ht'. unfold advance. rewrite Ht'. simpl. by destruct (serve q (service s)). }
  assert (∀ t q c, gos s !! t = Some (q, Finish c) → is_Some (advance t s)) as Hfin.
  { intros t' q c Ht'. unfold advance. rewrite Ht'. simpl.
    destruct (inv_gos s Hs _ _ Ht') as (k & -> & _ & _ & _ & [Hv _]).
    simpl. destruct (Hv eq_refl) as [r ->]. by eexists. }
  destruct g as [q [|c|c|c|r b]]; simpl in *; [|by exists t; eapply Hlead|by exists t; eapply Hfin| |].
  - exists t. unfold advance. rewrite Ht. simpl. destruct (by_key s !! key q); by eexists.
  - destruct (inv_gos s Hs _ _ Ht) as (k & Hk & _). destruct (released k) eqn:Hr.
    + exists t. unfold advance. rewrite Ht. simpl. rewrite Hk. simpl. rewrite Hr.
      pose proof (inv_calls s Hs _ _ Hk) as Hok. unfold call_ok in Hok. rewrite Hr in Hok.
      destruct Hok as (r & -> & _). by eexists.
    + destruct (leader_at s c k Hs Hk Hr) as (_ & q' & _ & Hl). exists (call_leader k).
      destruct (call_val k); [by eapply Hfin|by eapply Hlead].
  - by destruct (Hg r b).
Qed.

(** Between the entry in the map and the removal from it. *)
Definition at_work (p : phase R) c : Prop := p = Lead c ∨ p = Finish c.

Lemma at_work_leads s t g c :
  invariant s → gos s !! t = Some g → at_work g.2 c →
  ∃ k, flown s !! c = Some k ∧ call_key k = key g.1 ∧ call_leader k = t ∧ released k = false.
Proof.
  intros Hs Ht Hw. pose proof (inv_gos s Hs _ _ Ht) as Hg. unfold go_ok in Hg.
  destruct Hw as [E|E]; rewrite E in Hg; destruct Hg as (k & ? & ? & ? & ? & _); eauto.
Qed.

(** Two requests of one key that overlap: the second is never sent. *)
Lemma coalesce q q' x :
  key q' = key q →
  ∃ s, rtc step (start x) s ∧ service s = (serve q x).2 ∧ served s = [(q, (serve q x).1)] ∧
    gos s = [(q, Answered (serve q x).1 true); (q', Answered (serve q x).1 true)].
Proof.
  intros Hkey. destruct (serve q x) as [r x'] eqn:Hserve. eexists. split.
  { eapply rtc_l; [apply (step_spawn q)|]. eapply rtc_l; [apply (step_spawn q')|].
    eapply rtc_l; [apply (step_advance 0); unfold advance; simpl; rewrite lookup_empty; reflexivity|].
    eapply rtc_l; [apply (step_advance 1); unfold advance; simpl;
      rewrite Hkey, lookup_insert_eq; reflexivity|].
    eapply rtc_l; [apply (step_advance 0); unfold advance; simpl; rewrite Hserve; reflexivity|].
    eapply rtc_l; [apply (step_advance 0); unfold advance; simpl; reflexivity|].
    eapply rtc_l; [apply (step_advance 1); unfold advance; simpl; reflexivity|]. apply rtc_refl. }
  done.
Qed.

(** Any number of equal requests that overlap: one is sent. *)
Section crowd.
Context (q : Q) (x : X).

Definition gathered j : flights Q R X :=
  {| by_key := <[key q := 0%nat]> ∅;
     flown := [{| call_key := key q; call_leader := 0; call_val := None; released := false;
                  dups := j |}];
     gos := (q, Lead 0) :: replicate j (q, Await 0); service := x; served := [] |}.

Definition answering n i j r x' : flights Q R X :=
  {| by_key := delete (key q) (<[key q := 0%nat]> ∅);
     flown := [{| call_key := key q; call_leader := 0; call_val := Some r; released := true;
                  dups := n |}];
     gos := ((q, Answered r (bool_decide (0 < n)%nat)) :: replicate i (q, Answered r true)) ++
            replicate j (q, Await 0);
     service := x'; served := [(q, r)] |}.

Lemma gather j : rtc step (start x) (gathered j).
Proof.
  induction j as [|j IH].
  - eapply rtc_l; [apply (step_spawn q)|]. eapply rtc_l; [|apply rtc_refl].
    apply (step_advance 0). unfold advance. simpl. by rewrite lookup_empty.
  - eapply rtc_r; [eapply rtc_r; [exact IH|apply (step_spawn q)]|].
    apply (step_advance (Datatypes.S j)). unfold advance. simpl.
    rewrite lookup_app_r, length_replicate, Nat.sub_diag by (by rewrite length_replicate). simpl.
    rewrite lookup_insert_eq. unfold gathered. do 2 f_equal.
    rewrite insert_app_r_alt, length_replicate, Nat.sub_diag by (by rewrite length_replicate). simpl.
    by rewrite <- replicate_cons_app.
Qed.

Lemma answer n i j r x' : rtc step (answering n i j r x') (answering n (i + j) 0 r x').
Proof.
  revert i. induction j as [|j IH]; intros i; [rewrite Nat.add_0_r; apply rtc_refl|].
  eapply rtc_l; [|replace (i + Datatypes.S j)%nat with (Datatypes.S i + j)%nat by lia; apply IH].
  apply (step_advance (Datatypes.S i)). unfold advance, answering.
  simpl. rewrite lookup_app_r, length_replicate, Nat.sub_diag by (by rewrite length_replicate).
  simpl. do 3 f_equal.
  rewrite insert_app_r_alt, length_replicate, Nat.sub_diag by (by rewrite length_replicate). simpl.
  by rewrite cons_middle, app_assoc, <- replicate_cons_app.
Qed.
End crowd.

Lemma crowd q n x :
  ∃ s, rtc step (start x) s ∧ served s = [(q, (serve q x).1)] ∧
    gos s = (q, Answered (serve q x).1 (bool_decide (0 < n)%nat)) ::
            replicate n (q, Answered (serve q x).1 true).
Proof.
  destruct (serve q x) as [r x'] eqn:Hserve. exists (answering q n n 0 r x'). split.
  - etransitivity; [apply (gather q x n)|].
    eapply rtc_l; [apply (step_advance 0); unfold advance; simpl; rewrite Hserve; reflexivity|].
    eapply rtc_l; [apply (step_advance 0); unfold advance; simpl; rewrite decide_True
      by (apply lookup_insert_eq); reflexivity|].
    apply (answer q n 0 n).
  - split; [done|]. simpl. by rewrite app_nil_r.
Qed.

(** C26. The group keeps its promise: every result was computed by the service for a
    request with the caller's key, for the caller's own request if it is not
    shared; no two goroutines execute requests of one key at a time; and while a
    caller has not returned, some goroutine can move. *)
Theorem do_promise x s :
  rtc step (start x) s →
  (∀ t q r shared, gos s !! t = Some (q, Answered r shared) →
     ∃ q', (q', r) ∈ served s ∧ key q' = key q ∧ (shared = false → (q, r) ∈ served s)) ∧
  (∀ t t' g g' c c', gos s !! t = Some g → gos s !! t' = Some g' → at_work g.2 c →
     at_work g'.2 c' → key g.1 = key g'.1 → t = t') ∧
  (∀ t g, gos s !! t = Some g → (∀ r b, g.2 ≠ Answered r b) → ∃ t' s', advance t' s = Some s').
Proof.
  intros Hs%reachable_flights. split_and!; [..|intros; by eapply flights_move].
  - intros t q r shared Ht. destruct (inv_gos s Hs _ _ Ht) as [(q' & Hq & Hkey) Hown].
    exists q'. auto.
  - intros t t' g g' c c' Ht Ht' Hw Hw' Hkey.
    destruct (at_work_leads s t g c Hs Ht Hw) as (k & Hk & E & Hl & Hr).
    destruct (at_work_leads s t' g' c' Hs Ht' Hw') as (k' & Hk' & E' & Hl' & Hr').
    destruct (leader_at s c k Hs Hk Hr) as [Hb _], (leader_at s c' k' Hs Hk' Hr') as [Hb' _].
    assert (c = c') as -> by congruence. congruence.
Qed.
End group.

(** ** The requests of the client *)
Inductive request :=
  | RCreate (o : Opt) (n : Z)
  | RDelete (id : string)
  | RAttach (instanceid id : string)
  | RDetach (instanceid mainid : string)
  | RAssign (mainid : string) (ps : list AddressPair)
  | RUssign (mainid : string) (ps : list AddressPair).

Definition request_key (q : request) : string :=
  match q with
  | RCreate o n => createKey o n
  | RDelete id => "dp-" +:+ id
  | RAttach _ id => "ap-" +:+ id
  | RDetach instanceid mainid => "dp-" +:+ instanceid +:+ mainid
  | RAssign mainid _ => "asp-" +:+ mainid
  | RUssign mainid _ => "usp-" +:+ mainid
  end.

(** What the closures return. *)
Inductive reply :=
  | GotPort (r : error + Port)
  | GotError (r : option error)
  | GotPair (r : option error * Port).

Section client.
Context {S : Type} `{!Neutron S}.

Definition perform (q : request) (s : S) : option reply * S :=
  match q with
  | RCreate o _ => let '(r, s) := ports_create (createOpts o) s in (Some (GotPort r), s)
  | RDelete id => let '(r, s) := ports_delete id s in (Some (GotError r), s)
  | RAttach i id => let '(r, s) := attach_create i id s in (Some (GotPort r), s)
  | RDetach i id => let '(r, s) := attach_delete i id s in (Some (GotError r), s)
  | RAssign id ps => let '(r, p, s) := pairs_add id ps s in (Some (GotPair (r, p)), s)
  | RUssign id ps => let '(r, s) := pairs_remove id ps s in (Some (GotError r), s)
  end.

(** Requests that may share a result as far as their kind and target go. *)
Definition same_target (q q' : request) : Prop :=
  match q, q' with
  | RCreate o _, RCreate o' _ => (OptInstance o = "") ↔ (OptInstance o' = "")
  | RDelete id, RDelete id' => id = id'
  | RAttach _ id, RAttach _ id' => id = id'
  | RDetach i id, RDetach i' id' => i = i' ∧ id = id'
  | RAssign id _, RAssign id' _ => id = id'
  | RUssign id _, RUssign id' _ => id = id'
  | _, _ => False
  end.

(** The ids of a deletion and of a detachment are UUIDs. *)
Definition with_uuids (q : request) : Prop :=
  match q with
  | RDelete id => String.length id = 36
  | RDetach i id => String.length i = 36 ∧ String.length id = 36
  | _ => True
  end.

Lemma string_app_assoc (a b c : string) : (a +:+ b) +:+ c = a +:+ b +:+ c.
Proof. induction a as [|x a IH]; [done|]. exact (f_equal (String x) IH). Qed.

Lemma key_of_create o n : ∃ r, createKey o n =
  (if decide (OptInstance o = "") then PodInterfaceName else VMInterfaceName) +:+ r.
Proof.
  unfold createKey, createOpts. case_decide as H; case_decide as H'; try done; simpl.
  - rewrite GetInstancePortName_owner. exists (port_owner o +:+ pretty n). apply string_app_assoc.
  - rewrite GetInterfacePortName_owner. exists (pod_owner o +:+ pretty n). apply string_app_assoc.
Qed.

Lemma length_append (a b : string) : String.length (a +:+ b) = String.length a + String.length b.
Proof. induction a as [|c a IH]; [done|]. exact (f_equal Datatypes.S IH). Qed.

Lemma append_inj (a b c d : string) :
  String.length a = String.length c → a +:+ b = c +:+ d → a = c ∧ b = d.
Proof.
  revert c. induction a as [|x a IH]; intros [|y c] Hl H; simplify_eq/=; [done|].
  destruct (IH c) as [-> ->]; [lia|done|done].
Qed.

Lemma request_key_target q q' :
  with_uuids q → with_uuids q' → request_key q = request_key q' → same_target q q'.
Proof.
  destruct q as [o n|d|i d|i d|d ps|d ps], q' as [o' n'|d'|i' d'|i' d'|d' ps'|d' ps'];
    unfold request_key; simpl; intros Hq Hq' H;
    try (destruct (key_of_create o n) as [r Hr]; rewrite Hr in H; case_decide);
    try (destruct (key_of_create o' n') as [r' Hr']; rewrite Hr' in H; case_decide);
    try done; simplify_eq/=; try done.
  - rewrite length_append in Hq. lia.
  - rewrite length_append in Hq'. lia.
  - apply append_inj in H as [-> ->]; [done|lia].
Qed.

(** C25. The keys of the client's requests tell their kinds and targets apart, as
    far as these are UUIDs, but not what is asked of the target: of two
    overlapping assignments of addresses to one port only the first reaches the
    service, and both report its success.  The tasks of an UpdatePort that run
    after its loop all have one key, so that a single port may be created for
    any number of them.  And as the number follows the name without a separator,
    creations for different instances can have one key too, and one is
    answered with the port of the other. *)
Theorem client_flights (x : S) :
  (∀ q q', with_uuids q → with_uuids q' → request_key q = request_key q' → same_target q q') ∧
  (∀ id ps ps', ∃ s r, rtc (step request_key perform) (start x) s ∧
     gos s = [(RAssign id ps, Answered (Some r) true); (RAssign id ps', Answered (Some r) true)] ∧
     served s = [(RAssign id ps, Some r)]) ∧
  (∀ o n, let q := RCreate o (Openstack.loop_end (CreateTask o (Z.of_nat (Datatypes.S n)))) in
     ∃ s r, rtc (step request_key perform) (start x) s ∧
     gos s = (q, Answered (Some r) (bool_decide (0 < n))) ::
             replicate n (q, Answered (Some r) true) ∧
     served s = [(q, Some r)]) ∧
  (∃ o o' s r, OptInstance o ≠ OptInstance o' ∧
     rtc (step request_key perform) (start x) s ∧
     gos s = [(RCreate o 11, Answered (Some r) true); (RCreate o' 1, Answered (Some r) true)] ∧
     served s = [(RCreate o 11, Some r)]).
Proof.
  split; [apply request_key_target|]. split_and!.
  - intros id ps ps'.
    destruct (coalesce request_key perform (RAssign id ps) (RAssign id ps') x) as (s & Hs & _ & H1 & H2);
      [done|]. simpl in *. destruct (pairs_add id ps x) as [[e p] x']. eauto.
  - intros o n q. destruct (crowd request_key perform q n x) as (s & Hs & H1 & H2).
    subst q. simpl in *. destruct (ports_create _ x) as [e x']. eauto.
  - set (named := λ i n, {| OptSubnet := "net"; OptVpc := "vpc"; OptProject := ""; OptPort := "";
      OptInstance := i; OptPortName := ""; OptInstanceName := n; OptIp := "" |}).
    exists (named "i-1" "node-1"), (named "i-2" "node-11").
    destruct (coalesce request_key perform (RCreate (named "i-1" "node-1") 11)
      (RCreate (named "i-2" "node-11") 1) x) as (s & Hs & _ & H1 & H2); [by vm_compute|].
    simpl in *. destruct (ports_create _ x) as [e x']. eexists s, _. split_and!; done.
Qed.
End client.
End Flight.
