(* ===== verification/Vpc.v ===== *)
(** * Vpc: the subnet controller

    Models pkg/vpc/vpc.go and pkg/vpc/config.go on the objects of
    pkg/k8s/apis/eni.io/v1alpha1/subnat_types.go.  The infrastructure, the
    pools and the nodes are reached through their interfaces.  The lock of the
    manager is part of its state, as a handler that blocks may keep it. *)
From S2P Require Import Prelude.
From S2P Require Import HashSet.
From S2P Require Import Backoff.
From S2P Require Import Objects.
From S2P Require Import IPPool.
From S2P Require Import Node.
From S2P Require Import Infra.

(** ** The custom resource

    [SubnetSpec], [SubnetStatus] (the two lists that the program reads) and
    [Subnet].  A list may be nil ([None]). *)
Record SubnetSpec := {
  SpecIPVersion : option Z;
  SpecSubnetId : string;
  SpecVpc : string;
  SpecProject : string;
  SpecPreAllocated : option Z;
  SpecMinAvaliable : option Z;
  SpecNamespaces : option (list string);
  SpecNodes : option (list string)
}.

#[export] Instance SubnetSpec_eq_dec : EqDecision SubnetSpec.
Proof. solve_decision. Defined.

Record SubnetStatus := {
  StatusNamespaces : option (list string);
  StatusNodes : option (list string)
}.

Record Subnet_ := { SubnetMeta : ObjectMeta; SnSpec : SubnetSpec; SnStatus : SubnetStatus }.

#[export] Instance Subnet_object : KubeObject Subnet_.
Proof.
  refine {| obj_meta := SubnetMeta;
            with_meta := λ m o, {| SubnetMeta := m; SnSpec := SnSpec o; SnStatus := SnStatus o |} |};
    [done|by intros []].
Defined.

(** ** pkg/vpc/config.go *)
Definition defaultSubnat : string := "default".

Record Sninfo := {
  SnInfoName : string;
  SnNamespace : hset;
  SnNode : hset;
  allnode : bool;
  allnamespace : bool;
  Deleted : bool;
  SninfoId : string;
  projectId : string;
  vpcId : string;
  PreAllocated : Z;
  MinAvaliab : Z
}.

(** [Sninfo.DeepCopy]: five fields are copied. *)
Definition Sninfo_DeepCopy `{!RangeOrder} (sn : Sninfo) : outcome Sninfo :=
  out_bind (copy_set (SnNamespace sn)) (λ ns,
  out_bind (copy_set (SnNode sn)) (λ no,
  Ret {| SnInfoName := SnInfoName sn; SnNamespace := ns; SnNode := no; allnode := false;
         allnamespace := false; Deleted := Deleted sn; SninfoId := SninfoId sn;
         projectId := ""; vpcId := ""; PreAllocated := 0; MinAvaliab := 0 |})).

Record VpcCfg := {
  CfgPreAllocated : Z;
  CfgMinAvaliable : Z;
  WorkerNumber : Z;
  DefaultSubnatId : string;
  DefaultProjectId : string
}.

Record poolEvent := { PoMainId : string; PoAdd : Z; PoRemove : hset }.

Record nodeEvent := {
  NoName : string;
  NoId : string;
  NoIp : string;
  NoAdd : Z;
  NoRemove : hset;
  NoPools : list poolEvent
}.

Record subnatEvent := {
  EvVpcId : string;
  EvProjectId : string;
  EvSubnatId : string;
  EvSubnatName : string;
  EvNodes : list nodeEvent
}.

(** The dynamic type of a callback's argument. *)
Inductive cb_value :=
  | CbPool (p : option Pool)
  | CbNode (ni : option NodeInfo)
  | CbNamespace (name : string)
  | CbOther.

(** ** The manager

    [ch] is the channel of events, [None] when it is nil.  [readers] and
    [writer] are the lock [mu], a [sync.RWMutex]: [readers] counts the holders
    of the read lock, [writer] says whether a goroutine holds the write lock
    or waits for it.  A handler runs to its end before the next one starts, so
    what is still counted when a handler starts belongs to a goroutine that is
    blocked or has died inside its critical section, or waits behind one. *)
Record manager := {
  subnats : gmap string Sninfo;
  readers : nat;
  writer : bool;
  ch : option (list subnatEvent)
}.

(** [NewManager]: no channel is made. *)
Definition NewManager (cfg : VpcCfg) : error + manager :=
  if decide (DefaultProjectId cfg = "" ∨ DefaultSubnatId cfg = "") then
    inl (EMsg "must set default projectid and subnatid")
  else inr {| subnats := ∅; readers := 0; writer := false; ch := None |}.

(** [client.List] of the namespaces: their names. *)
Class NamespaceLister (S : Type) := { ns_list : S → (error + list string) * S }.

Module Vpc.
Section manager.
Context {S : Type} `{!RangeOrder, !Lens S manager, !KubeClient S Subnet_,
  !NamespaceLister S, !PoolManager S, !NodeManager S, !InfraClient S}.
Context (cfg : VpcCfg).
Implicit Types (s : S) (sn : Sninfo) (inn : Subnet_) (m : manager).

Definition set_subnats (x : gmap string Sninfo) m : manager :=
  {| subnats := x; readers := readers m; writer := writer m; ch := ch m |}.
Definition set_readers (n : nat) m : manager :=
  {| subnats := subnats m; readers := n; writer := writer m; ch := ch m |}.
Definition set_writer (b : bool) m : manager :=
  {| subnats := subnats m; readers := readers m; writer := b; ch := ch m |}.
Definition set_ch (c : option (list subnatEvent)) m : manager :=
  {| subnats := subnats m; readers := readers m; writer := writer m; ch := c |}.

(** [v.mu.Lock()]: a writer waits for the writer before it; then it is
    announced, and waits for the readers. *)
Definition Lock : go S unit :=
  let* m := load in
  if writer m then go_hang
  else
    store (set_writer true m) ;;;
    if decide (readers m = 0%nat) then go_ret tt else go_hang.

Definition Unlock : go S unit :=
  let* m := load in store (set_writer false m).

(** [vpc.mu.RLock()]: a reader waits while a writer holds the lock or has been
    announced. *)
Definition RLock : go S unit :=
  let* m := load in
  if writer m then go_hang else store (set_readers (Datatypes.S (readers m)) m).

Definition RUnlock : go S unit :=
  let* m := load in store (set_readers (pred (readers m)) m).

(** A write through the pointer [sn] of the cached subnet [name]. *)
Definition update_sn (name : string) (f : Sninfo → outcome Sninfo) : go S unit :=
  let* m := load in
  match subnats m !! name with
  | None => go_panic NilDeref
  | Some sn => let* sn := go_lift (f sn) in store (set_subnats (<[name := sn]> (subnats m)) m)
  end.

Definition new_sninfo inn : Sninfo :=
  {| SnInfoName := ""; SnNamespace := Some ∅; SnNode := Some ∅; allnode := false;
     allnamespace := false; Deleted := false; SninfoId := SpecSubnetId (SnSpec inn);
     projectId := ""; vpcId := ""; PreAllocated := 0; MinAvaliab := 0 |}.

(** The assignments from the spec, lines 176 to 189. *)
Definition with_spec inn sn : Sninfo :=
  {| SnInfoName := SnInfoName sn; SnNamespace := SnNamespace sn; SnNode := SnNode sn;
     allnode := allnode sn; allnamespace := allnamespace sn; Deleted := Deleted sn;
     SninfoId := SpecSubnetId (SnSpec inn); projectId := SpecProject (SnSpec inn);
     vpcId := SpecVpc (SnSpec inn);
     PreAllocated := default (CfgPreAllocated cfg) (SpecPreAllocated (SnSpec inn));
     MinAvaliab := default (CfgMinAvaliable cfg) (SpecMinAvaliable (SnSpec inn)) |}.

Definition with_deleted sn : Sninfo :=
  {| SnInfoName := SnInfoName sn; SnNamespace := SnNamespace sn; SnNode := SnNode sn;
     allnode := allnode sn; allnamespace := allnamespace sn; Deleted := true;
     SninfoId := SninfoId sn; projectId := projectId sn; vpcId := vpcId sn;
     PreAllocated := PreAllocated sn; MinAvaliab := MinAvaliab sn |}.

Definition with_allnamespace sn : Sninfo :=
  {| SnInfoName := SnInfoName sn; SnNamespace := SnNamespace sn; SnNode := SnNode sn;
     allnode := allnode sn; allnamespace := true; Deleted := Deleted sn;
     SninfoId := SninfoId sn; projectId := projectId sn; vpcId := vpcId sn;
     PreAllocated := PreAllocated sn; MinAvaliab := MinAvaliab sn |}.

Definition with_allnode sn : Sninfo :=
  {| SnInfoName := SnInfoName sn; SnNamespace := SnNamespace sn; SnNode := SnNode sn;
     allnode := true; allnamespace := allnamespace sn; Deleted := Deleted sn;
     SninfoId := SninfoId sn; projectId := projectId sn; vpcId := vpcId sn;
     PreAllocated := PreAllocated sn; MinAvaliab := MinAvaliab sn |}.

Definition add_namespace (ns : string) sn : outcome Sninfo :=
  out_bind (HashSet.Add (SnNamespace sn) [VKey (KString ns)]) (λ x,
  Ret {| SnInfoName := SnInfoName sn; SnNamespace := x; SnNode := SnNode sn;
         allnode := allnode sn; allnamespace := allnamespace sn; Deleted := Deleted sn;
         SninfoId := SninfoId sn; projectId := projectId sn; vpcId := vpcId sn;
         PreAllocated := PreAllocated sn; MinAvaliab := MinAvaliab sn |}).

Definition add_node (no : string) sn : outcome Sninfo :=
  out_bind (HashSet.Add (SnNode sn) [VKey (KString no)]) (λ x,
  Ret {| SnInfoName := SnInfoName sn; SnNamespace := SnNamespace sn; SnNode := x;
         allnode := allnode sn; allnamespace := allnamespace sn; Deleted := Deleted sn;
         SninfoId := SninfoId sn; projectId := projectId sn; vpcId := vpcId sn;
         PreAllocated := PreAllocated sn; MinAvaliab := MinAvaliab sn |}).

Definition couldRemove (name : string) : go S bool :=
  let* err := EachPool (λ err p,
    if decide (Subnat p = name) then
      let* err1 := UpdatePool (Some p) DeleteE in
      go_ret (match err1 with Some _ => join err err1 | None => err end, None)
    else go_ret (err, None)) None in
  go_ret (bool_decide (err = None)).

(** The end of Reconcile: the namespaces and nodes of the object. *)
Definition reconcile_sets inn : go S Result :=
  let name := Name (SubnetMeta inn) in
  (match SpecNamespaces (SnSpec inn) with
   | Some nslist => for_acc nslist (λ _ ns, update_sn name (add_namespace ns)) tt
   | None =>
       update_sn name (λ sn, Ret (with_allnamespace sn)) ;;;
       for_acc (default [] (StatusNamespaces (SnStatus inn)))
         (λ _ ns, update_sn name (add_namespace ns)) tt
   end) ;;;
  (match SpecNodes (SnSpec inn) with
   | Some nolist => for_acc nolist (λ _ no, update_sn name (add_node no)) tt
   | None =>
       update_sn name (λ sn, Ret (with_allnode sn)) ;;;
       for_acc (default [] (StatusNodes (SnStatus inn)))
         (λ _ no, update_sn name (add_node no)) tt
   end) ;;;
  go_ret None.

(** The part of Reconcile that holds the lock. *)
Definition reconcile_locked inn : go S Result :=
  let name := Name (SubnetMeta inn) in
  let* m := load in
  let sn := default (new_sninfo inn) (subnats m !! name) in
  store (set_subnats (<[name := sn]> (subnats m)) m) ;;;
  if Deleted sn then
    let* ok := couldRemove name in
    if ok : bool then
      go_call (kpatch (with_meta (fst (RemoveFinalizer (SubnetMeta inn)
                                         FinializerController)) inn) inn)
    else go_ret None
  else
    update_sn name (λ sn, Ret (with_spec inn sn)) ;;;
    if negb (IsZero (DeletionTimestamp (SubnetMeta inn))) then
      update_sn name (λ sn, Ret (with_deleted sn)) ;;; go_ret None
    else reconcile_sets inn.

Definition Reconcile (name : string) : go S Result :=
  let* r := go_call (kget name) in
  match r with
  | inl _ => go_ret None
  | inr inn =>
      if decide (SpecProject (SnSpec inn) = "" ∨ SpecVpc (SnSpec inn) = "" ∨
                 SpecSubnetId (SnSpec inn) = "") then go_ret None
      else
        Lock ;;; go_defer Unlock (reconcile_locked inn)
  end.

Definition getPolicy (name : string) : go S (Z * Z) :=
  RLock ;;;
  go_defer RUnlock (
    let* m := load in
    go_ret (match subnats m !! name with
            | None => (CfgPreAllocated cfg, CfgMinAvaliable cfg)
            | Some sn => (PreAllocated sn, MinAvaliab sn)
            end)).

Definition getNamespace : go S (list string) :=
  let* r := go_call ns_list in
  go_ret (match r with inl _ => [] | inr ns => ns end).

Definition defaultEniSubnat : error + Subnet_ :=
  inr {| SubnetMeta := {| Name := defaultSubnat; Annotations := ∅; Finalizers := [];
                          DeletionTimestamp := None |};
         SnSpec := {| SpecIPVersion := Some 4%Z; SpecSubnetId := DefaultSubnatId cfg;
                      SpecVpc := ""; SpecProject := DefaultProjectId cfg;
                      SpecPreAllocated := Some (CfgPreAllocated cfg);
                      SpecMinAvaliable := Some (CfgMinAvaliable cfg);
                      SpecNamespaces := None; SpecNodes := None |};
         SnStatus := {| StatusNamespaces := None; StatusNodes := None |} |}.

(** [Start], without the goroutine of [processWork]: the default subnet is
    created when it is missing. *)
Definition Start : go S (option error) :=
  match defaultEniSubnat with
  | inl err => go_ret (Some err)
  | inr defaultsubnat =>
      Backoff.Backoff (
        let* r := go_call (kget defaultSubnat) in
        match r with
        | inl err => if IsNotFound err then go_call (kcreate defaultsubnat)
                     else go_ret (Some err)
        | inr _ => go_ret None
        end)
  end.

(** ** Events *)

(** Interface ids of the node; nil when its instance is not found. *)
Definition getNodeInterface (info : NodeInfo) : go S hset :=
  let* inst := GetInstance {| OptSubnet := ""; OptVpc := ""; OptProject := ""; OptPort := "";
                              OptInstance := NodeId info; OptPortName := "";
                              OptInstanceName := ""; OptIp := "" |} in
  match inst with
  | None => go_ret None
  | Some inst =>
      go_lift (out_fold (range_order (snd <$> map_to_list (interfaces inst)))
        (λ noports port,
           if decide (IfIp port = NodeIp info) then Ret noports
           else HashSet.Add noports [VKey (KString (IfId port))]) (Some ∅))
  end.

(** The loop over the addresses that may be released: at most [delnum] are
    looked at, [i] counts them. *)
Fixpoint release (second : gmap string Interface) (vals : list key) (i delnum : Z)
    (remove cap : hset) : outcome (hset * hset) :=
  match vals with
  | [] => Ret (remove, cap)
  | ip :: vals =>
      if decide (delnum ≤ i)%Z then Ret (remove, cap)
      else
        out_bind (assert_string ip) (λ x,
        match second !! x with
        | None => release second vals (i + 1) delnum remove cap
        | Some info =>
            out_bind (HashSet.Add remove [VKey (KPair (IfIp info) (IfMac info))]) (λ remove,
            out_bind (HashSet.Remove cap [VKey (KString (IfIp info))]) (λ cap,
            release second vals (i + 1) delnum remove cap))
        end)
  end.

(** The capacity after the addresses of the interface are added. *)
Definition add_second (cap : hset) (second : gmap string Interface) : outcome hset :=
  out_fold (range_order (fst <$> map_to_list second))
    (λ cap sip, HashSet.Add cap [VKey (KString sip)]) cap.

Definition with_cap (cap : hset) (po : Pool) : Pool :=
  {| NodeName := NodeName po; MainId := MainId po; Subnat := Subnat po;
     Namespace := Namespace po; CapIp := cap; UsedIp := UsedIp po |}.

(** The arithmetic of [calPoolEvent] between the lookup and the update:
    the pool and the event it leaves. *)
Definition pool_event sn (po : Pool) (plev : poolEvent) (second : gmap string Interface)
    : outcome (Pool * poolEvent) :=
  out_bind (add_second (CapIp po) second) (λ cap,
  out_bind (HashSet.Size (UsedIp po)) (λ used,
  out_bind (HashSet.Size cap) (λ capn,
  let addnum := wrap64 (used + MinAvaliab sn - capn) in
  let add := if decide (0 < addnum)%Z then addnum else PoAdd plev in
  let delnum := wrap64 (capn - PreAllocated sn - used) in
  if decide (0 < delnum)%Z then
    out_bind (HashSet.Difference cap (UsedIp po)) (λ delset,
    out_bind (HashSet.Values delset) (λ vals,
    out_bind (release second vals 0 delnum (PoRemove plev) cap) (λ rc,
    Ret (with_cap rc.2 po,
         {| PoMainId := PoMainId plev; PoAdd := add; PoRemove := rc.1 |}))))
  else
    Ret (with_cap cap po,
         {| PoMainId := PoMainId plev; PoAdd := add; PoRemove := PoRemove plev |})))).

(** The event is returned as it was left; a nil argument is [None]. *)
Definition calPoolEvent (sn : option Sninfo) (po : option Pool) (plev : option poolEvent)
    : go S (option error * option poolEvent) :=
  match sn, po, plev with
  | Some sn, Some po, Some plev =>
      let* ifinfo := GetInterface {| OptSubnet := ""; OptVpc := ""; OptProject := "";
        OptPort := ""; OptInstance := ""; OptPortName := ""; OptInstanceName := "";
        OptIp := MainId po |} in
      match ifinfo with
      | None =>
          go_ret (Some (EMsg ("not found interface by id " +:+ MainId po)), Some plev)
      | Some ifinfo =>
          let* '(po, plev) := go_lift (pool_event sn po plev (Second ifinfo)) in
          let* err := Backoff.Backoff (UpdatePool (Some po) UpdateE) in
          go_ret (err, Some plev)
      end
  | _, _, _ => go_ret (Some (EMsg "update pool event, but params is null"), plev)
  end.

(** The body of the inner loop of [getSubnatEvent], for one pool. *)
Definition add_pool sn (ni : NodeInfo) (noev : nodeEvent) (p : Pool)
    : go S (nodeEvent * option error) :=
  if decide (NodeName p ≠ NoName noev ∨ Subnat p ≠ SnInfoName sn) then go_ret (noev, None)
  else
    let poev := {| PoMainId := MainId p; PoAdd := 0; PoRemove := None |} in
    let finish remove poev := go_ret
      ({| NoName := NoName noev; NoId := NoId noev; NoIp := NoIp noev; NoAdd := NoAdd noev;
          NoRemove := remove; NoPools := NoPools noev ++ [poev] |}, None) in
    let add_remove := go_lift (HashSet.Add (NoRemove noev) [VKey (KString (NodeId ni))]) in
    let* removed := if IsDeleted ni then CouldRemove (InfoName ni) else go_ret false in
    if removed : bool then
      let* remove := add_remove in finish remove poev
    else if Deleted sn then
      let* err := UpdatePool (Some p) DeleteE in
      match err with
      | None => let* remove := add_remove in finish remove poev
      | Some _ => finish (NoRemove noev) poev
      end
    else
      let* '(_, poev') := calPoolEvent (Some sn) (Some p) (Some poev) in
      finish (NoRemove noev) (default poev poev').

(** The creation of the pools of one node; [poinfo] is the pool object that
    all iterations share. *)
Definition create_pools sn (ni : NodeInfo) (noev : nodeEvent) (nset noifs : hset) (poinfo : Pool)
    : go S Pool :=
  let* infos := go_lift (HashSet.Values noifs) in
  for_acc infos (λ poinfo info,
    let* mainid := go_lift (assert_string info) in
    let poinfo := {| NodeName := NodeName poinfo; MainId := mainid; Subnat := Subnat poinfo;
                     Namespace := Namespace poinfo; CapIp := CapIp poinfo;
                     UsedIp := UsedIp poinfo |} in
    let* skip := go_lift (HashSet.Contains (NoRemove noev) [VKey (KString mainid)]) in
    if skip : bool then go_ret poinfo
    else
      let poinfo := {| NodeName := InfoName ni; MainId := mainid; Subnat := SnInfoName sn;
                       Namespace := nset; CapIp := CapIp poinfo; UsedIp := UsedIp poinfo |} in
      UpdatePool (Some poinfo) CreateE ;;; go_ret poinfo) poinfo.

(** The body of the outer loop, for one node. *)
Definition add_node_event sn (acc : list nodeEvent * Pool) (ni : NodeInfo)
    : go S (list nodeEvent * Pool * option error) :=
  let '(evs, poinfo) := acc in
  let* found := go_lift (HashSet.Contains (SnNode sn) [VKey (KString (InfoName ni))]) in
  if negb found then go_ret (evs, poinfo, None)
  else
    let* noifs := getNodeInterface ni in
    let* noev := EachPool (add_pool sn ni)
      {| NoName := InfoName ni; NoId := NodeId ni; NoIp := NodeIp ni; NoAdd := 1;
         NoRemove := Some ∅; NoPools := [] |} in
    let noev := {| NoName := NoName noev; NoId := NoId noev; NoIp := NoIp noev;
                   NoAdd := wrap64 (NoAdd noev - Z.of_nat (length (NoPools noev)));
                   NoRemove := NoRemove noev; NoPools := NoPools noev |} in
    let* namespaces := getNamespace in
    let* nset := go_lift (HashSet.New [VStrings namespaces]) in
    let* poinfo := create_pools sn ni noev nset noifs poinfo in
    go_ret (evs ++ [noev], poinfo, None).

Definition getSubnatEvent sn : go S subnatEvent :=
  let* '(evs, _) := EachNode (add_node_event sn) ([], zero_pool) in
  go_ret {| EvVpcId := vpcId sn; EvProjectId := projectId sn; EvSubnatId := SninfoId sn;
            EvSubnatName := SnInfoName sn; EvNodes := evs |}.

(** [vpc.ch <- ev]: a send on a nil channel blocks for ever. *)
Definition send_event (ev : subnatEvent) : go S unit :=
  let* m := load in
  match ch m with
  | None => go_hang
  | Some buf => store (set_ch (Some (buf ++ [ev])) m)
  end.

(** Whether the value concerns the subnet. *)
Definition concerns (v : cb_value) sn : outcome bool :=
  match v with
  | CbPool None => Panic NilDeref
  | CbNode None => if allnode sn then Ret true else Panic NilDeref
  | CbPool (Some p) => Ret (bool_decide (SnInfoName sn = Subnat p))
  | CbNode (Some ni) =>
      if allnode sn then Ret true
      else HashSet.Contains (SnNode sn) [VKey (KString (InfoName ni))]
  | CbNamespace name =>
      if allnamespace sn then Ret true
      else HashSet.Contains (SnNamespace sn) [VKey (KString name)]
  | CbOther => Ret false
  end.

Definition callback (v : cb_value) : go S unit :=
  match v with
  | CbOther => go_ret tt
  | _ =>
      RLock ;;;
      let* m := load in
      for_acc (range_order (snd <$> map_to_list (subnats m))) (λ _ sn,
        let* c := go_lift (concerns v sn) in
        if c : bool then let* ev := getSubnatEvent sn in send_event ev
        else go_ret tt) tt ;;;
      RUnlock
  end.
End manager.

End Vpc.
