(* ===== verification/VpcFacts.v ===== *)
(** * VpcFacts: what the subnet controller guarantees

    The watermarks of [calPoolEvent]; what a reconcile makes of a subnet, its
    finalizer and its life cycle; the default subnet; the fate of every
    callback that concerns a subnet, and of the lock afterwards. *)
From S2P Require Import Prelude.
From S2P Require Import HashSet.
From S2P Require Import Backoff.
From S2P Require Import Objects.
From S2P Require Import IPPool.
From S2P Require Import PoolFacts.
From S2P Require Import Node.
From S2P Require Import NodeFacts.
From S2P Require Import Infra.
From S2P Require Import Vpc.

Module VpcFacts.
Import Vpc PoolFacts.

(** ** The watermarks *)
Section watermark.
Context `{!RangeOrder}.
Implicit Types (sn : Sninfo) (po : Pool) (plev : poolEvent) (cap used : gset string)
  (second : gmap string Interface).

(** [Second] maps an ip to the interface of that ip. *)
Definition keyed second : Prop := map_Forall (λ ip i, IfIp i = ip) second.

Definition addresses second : gset string := dom second.

(** The pairs to release for the addresses [l]. *)
Definition pair_of second (x : string) : option key :=
  (λ i, KPair (IfIp i) (IfMac i)) <$> second !! x.
Definition pairs_of second (X : gset string) : gset key :=
  list_to_set (omap (pair_of second) (elements X)).

Lemma add_second_run cap second :
  add_second (Some (keys cap)) second = Ret (Some (keys (cap ∪ addresses second))).
Proof.
  assert (Hf : ∀ (l : list string) cap, out_fold l (λ (c : hset) sip, HashSet.Add c [VKey (KString sip)])
            (Some (keys cap)) = Ret (Some (keys (list_to_set l ∪ cap)))).
  { clear cap. induction l as [|x l IH]; intros cap.
    - simpl. do 3 f_equal. set_solver.
    - rewrite out_fold_cons, HashSet.Add_key, out_bind_ret, <-keys_singleton, <-keys_union, IH.
      do 3 f_equal. set_solver. }
  unfold add_second. rewrite Hf. do 3 f_equal. unfold addresses.
  apply set_eq. intros x. rewrite !elem_of_union, elem_of_list_to_set, range_order_perm.
  rewrite elem_of_dom, list_elem_of_fmap. split; [|].
  - intros [([y i] & -> & Hy%elem_of_map_to_list)|Hx]; [right; by exists i|by left].
  - intros [Hx|[i Hi]]; [by right|]. left. exists (x, i). split; [done|].
    by apply elem_of_map_to_list.
Qed.

Lemma release_cons second x vals i d remove c :
  release second (KString x :: vals) i d remove c =
  if decide (d ≤ i)%Z then Ret (remove, c)
  else match second !! x with
       | None => release second vals (i + 1) d remove c
       | Some info =>
           out_bind (HashSet.Add remove [VKey (KPair (IfIp info) (IfMac info))]) (λ remove,
           out_bind (HashSet.Remove c [VKey (KString (IfIp info))]) (λ c,
           release second vals (i + 1) d remove c))
       end.
Proof. done. Qed.

Lemma Remove_key (k : key) (X : gset key) :
  HashSet.Remove (Some X) [VKey k] = Ret (Some (X ∖ {[k]})).
Proof. done. Qed.

Lemma release_run second (l : list string) i d r cap :
  keyed second → (0 ≤ i)%Z →
  release second (KString <$> l) i d (Some r) (Some (keys cap)) =
  let taken := filter (λ x, x ∈ addresses second) (take (Z.to_nat (d - i)) l) in
  Ret (Some (list_to_set (omap (pair_of second) taken) ∪ r),
       Some (keys (cap ∖ list_to_set taken))).
Proof.
  intros Hk. revert i r cap. induction l as [|x l IH]; intros i r cap Hi.
  - simpl. rewrite take_nil. simpl. rewrite difference_empty_L, (left_id_L ∅ (∪)). done.
  - rewrite fmap_cons, release_cons. case_decide as Hd.
    + replace (Z.to_nat (d - i)) with 0%nat by lia. simpl.
      by rewrite difference_empty_L, (left_id_L ∅ (∪)).
    + replace (Z.to_nat (d - i)) with (Datatypes.S (Z.to_nat (d - (i + 1)))) by lia.
      simpl take. rewrite filter_cons.
      destruct (second !! x) as [info|] eqn:Hx.
      * rewrite decide_True by (unfold addresses; by apply elem_of_dom_2 in Hx).
        rewrite HashSet.Add_key, out_bind_ret, Remove_key, out_bind_ret.
        rewrite (Hk x info Hx), <-keys_singleton, <-keys_difference.
        rewrite IH by lia. cbv zeta. do 3 f_equal.
        -- csimpl. unfold pair_of at 2. rewrite Hx. csimpl. rewrite (Hk x info Hx).
           set_solver.
        -- csimpl. f_equal. set_solver.
      * rewrite decide_False by (unfold addresses; by rewrite not_elem_of_dom).
        rewrite IH by lia. done.
Qed.

(** What the program intends with [rel], the addresses to release, for a
    pool with the addresses [cap], [used] of them in use. *)
Definition releases sn second cap used (rel : gset string) : Prop :=
  let spare := (Z.of_nat (size cap) - PreAllocated sn - Z.of_nat (size used))%Z in
  rel ⊆ (cap ∖ used) ∩ addresses second ∧
  (Z.of_nat (size rel) ≤ Z.max 0 spare)%Z ∧
  (cap ∖ used ⊆ addresses second →
   Z.of_nat (size rel) = Z.max 0 (Z.min spare (Z.of_nat (size (cap ∖ used))))).

Lemma release_some sn second cap used r :
  keyed second →
  let spare := (Z.of_nat (size cap) - PreAllocated sn - Z.of_nat (size used))%Z in
  (0 < spare)%Z →
  ∃ rel, out_bind (HashSet.Difference (Some (keys cap)) (Some (keys used))) (λ delset,
         out_bind (HashSet.Values delset) (λ vals,
         release second vals 0 spare (Some r) (Some (keys cap)))) =
    Ret (Some (pairs_of second rel ∪ r), Some (keys (cap ∖ rel))) ∧
    releases sn second cap used rel.
Proof.
  intros Hk spare Hpos. rewrite HashSet.Difference_spec, out_bind_ret, <-keys_difference.
  destruct (Values_keys (cap ∖ used)) as (l & -> & Hl). rewrite out_bind_ret.
  rewrite release_run by (done || lia). cbv zeta. rewrite Z.sub_0_r.
  set (taken := filter _ _). exists (list_to_set taken).
  assert (Hnd : NoDup l) by (rewrite Hl; apply NoDup_elements).
  assert (Hnt : NoDup taken).
  { apply NoDup_filter. eapply sublist_NoDup; [done|]. apply sublist_take. }
  assert (Hsz : size (list_to_set (C:=gset string) taken) = length taken)
    by by apply size_list_to_set.
  assert (Hlen : length l = size (cap ∖ used)) by (by rewrite Hl).
  split.
  - replace (pairs_of second (list_to_set taken))
      with (list_to_set (C:=gset key) (omap (pair_of second) taken)); [done|].
    unfold pairs_of. apply set_eq. intros k.
    rewrite !elem_of_list_to_set, !list_elem_of_omap.
    by setoid_rewrite elem_of_elements; setoid_rewrite elem_of_list_to_set.
  - split_and!; fold spare.
    + intros x Hx%elem_of_list_to_set. unfold taken in Hx.
      apply list_elem_of_filter in Hx as [Hx1 Hx2].
      apply elem_of_take in Hx2 as (j & Hj & _). apply list_elem_of_lookup_2 in Hj.
      rewrite Hl, elem_of_elements in Hj. set_solver.
    + rewrite Hsz. unfold taken. pose proof (length_filter (λ x, x ∈ addresses second)
        (take (Z.to_nat spare) l)) as Hle.
      rewrite length_take in Hle. lia.
    + intros Hsub. rewrite Hsz. unfold taken. rewrite filter_all.
      * rewrite length_take. lia.
      * apply Forall_forall. intros x Hx. apply elem_of_take in Hx as (j & Hj & _).
        apply list_elem_of_lookup_2 in Hj. rewrite Hl, elem_of_elements in Hj. set_solver.
Qed.

(** The addresses of the pool after those of the interface are added. *)
Definition capacity (cap0 : gset string) second : gset string := cap0 ∪ addresses second.

(** The addresses to create: the low watermark over the unused ones. *)
Definition wanted sn cap used : Z :=
  (Z.of_nat (size used) + MinAvaliab sn - Z.of_nat (size cap))%Z.

Definition no_overflow sn cap used : Prop :=
  int64_range (wanted sn cap used) ∧
  int64_range (Z.of_nat (size cap) - PreAllocated sn - Z.of_nat (size used)).

Definition event_of sn second cap used plev (r : gset key) (rel : gset string) : poolEvent :=
  {| PoMainId := PoMainId plev;
     PoAdd := if decide (0 < wanted sn cap used)%Z then wanted sn cap used else PoAdd plev;
     PoRemove := Some (pairs_of second rel ∪ r) |}.

Lemma pairs_of_empty second : pairs_of second ∅ = ∅.
Proof. unfold pairs_of. by rewrite elements_empty. Qed.

(** The prefix of [pool_event] for a pool with string sets. *)
Lemma pool_event_unfold sn po plev second cap0 used :
  CapIp po = Some (keys cap0) → UsedIp po = Some (keys used) →
  let cap := capacity cap0 second in
  no_overflow sn cap used →
  let spare := (Z.of_nat (size cap) - PreAllocated sn - Z.of_nat (size used))%Z in
  pool_event sn po plev second =
  let add := if decide (0 < wanted sn cap used)%Z then wanted sn cap used else PoAdd plev in
  if decide (0 < spare)%Z then
    out_bind (out_bind (HashSet.Difference (Some (keys cap)) (Some (keys used))) (λ delset,
      out_bind (HashSet.Values delset) (λ vals,
      release second vals 0 spare (PoRemove plev) (Some (keys cap))))) (λ rc,
    Ret (with_cap rc.2 po, {| PoMainId := PoMainId plev; PoAdd := add; PoRemove := rc.1 |}))
  else Ret (with_cap (Some (keys cap)) po,
            {| PoMainId := PoMainId plev; PoAdd := add; PoRemove := PoRemove plev |}).
Proof.
  intros Hcap Hused cap [Hw Hs] spare. unfold pool_event.
  rewrite Hcap, Hused, add_second_run, out_bind_ret, !HashSet.Size_Some, !out_bind_ret, !size_keys.
  fold (capacity cap0 second). fold cap. cbv zeta.
  fold (wanted sn cap used). rewrite (wrap64_id _ Hw), (wrap64_id _ Hs). fold spare.
  destruct (decide (0 < spare)%Z); [|done].
  destruct (HashSet.Difference _ _) as [d|p|]; [|done..]. simpl.
  by destruct (HashSet.Values d).
Qed.

Lemma pool_event_run sn po plev second cap0 used r :
  keyed second → CapIp po = Some (keys cap0) → UsedIp po = Some (keys used) →
  PoRemove plev = Some r → no_overflow sn (capacity cap0 second) used →
  ∃ rel, releases sn second (capacity cap0 second) used rel ∧
    pool_event sn po plev second =
    Ret (with_cap (Some (keys (capacity cap0 second ∖ rel))) po,
         event_of sn second (capacity cap0 second) used plev r rel).
Proof.
  intros Hk Hcap Hused Hr Hno. rewrite (pool_event_unfold sn po plev second cap0 used) by done.
  cbv zeta. set (cap := capacity cap0 second) in *. rewrite Hr.
  case_decide as Hpos.
  - destruct (release_some sn second cap used r Hk Hpos) as (rel & Hrel & Hok).
    exists rel. split; [done|]. by rewrite Hrel.
  - exists ∅. split.
    + unfold releases. rewrite size_empty. split_and!; [set_solver|lia|]. intros _. lia.
    + unfold event_of. by rewrite pairs_of_empty, difference_empty_L, (left_id_L ∅ (∪)).
Qed.

(** The event of [getSubnatEvent] has no set to fill. *)
Lemma pool_event_nil sn po plev second cap0 used :
  CapIp po = Some (keys cap0) → UsedIp po = Some (keys used) →
  PoRemove plev = None → no_overflow sn (capacity cap0 second) used →
  (PreAllocated sn + Z.of_nat (size used) < Z.of_nat (size (capacity cap0 second)))%Z →
  capacity cap0 second ∖ used ⊆ addresses second → capacity cap0 second ∖ used ≠ ∅ →
  pool_event sn po plev second = Panic NilDeref.
Proof.
  intros Hcap Hused Hr Hno Hpos Hsub Hne.
  rewrite (pool_event_unfold sn po plev second cap0 used) by done.
  cbv zeta. set (cap := capacity cap0 second) in *. rewrite Hr, decide_True by lia.
  rewrite HashSet.Difference_spec, out_bind_ret, <-keys_difference.
  destruct (Values_keys (cap ∖ used)) as (l & -> & Hl). rewrite out_bind_ret.
  destruct l as [|x l].
  { exfalso. apply Hne. apply leibniz_equiv, elements_empty_inv.
    by apply Permutation_nil_l in Hl. }
  rewrite fmap_cons, release_cons, decide_False by lia.
  assert (Hx : x ∈ addresses second).
  { apply Hsub. rewrite <-elem_of_elements, <-Hl. set_solver. }
  unfold addresses in Hx. apply elem_of_dom in Hx as [i Hi]. by rewrite Hi.
Qed.
End watermark.

Section cal.
Context {S : Type} `{!RangeOrder, !PoolManager S, !InfraClient S}.
Implicit Types (s : S) (sn : Sninfo).

Definition interface_opt (po : Pool) : Opt :=
  {| OptSubnet := ""; OptVpc := ""; OptProject := ""; OptPort := ""; OptInstance := "";
     OptPortName := ""; OptInstanceName := ""; OptIp := MainId po |}.

(** C1. With an event whose set is made, calPoolEvent keeps the watermarks: it
    asks for what the low watermark lacks, releases unused addresses of the
    interface only, never below the high watermark and all the way down to
    it when it can, and stores the pool that is left. *)
Theorem calPoolEvent_watermarks sn po plev ifinfo cap0 used r s s1 :
  GetInterface (interface_opt po) s = (Ret (Some ifinfo), s1) →
  keyed (Second ifinfo) → CapIp po = Some (keys cap0) → UsedIp po = Some (keys used) →
  PoRemove plev = Some r → no_overflow sn (capacity cap0 (Second ifinfo)) used →
  let cap := capacity cap0 (Second ifinfo) in
  ∃ rel, releases sn (Second ifinfo) cap used rel ∧
    calPoolEvent (Some sn) (Some po) (Some plev) s =
    (let* err := Backoff.Backoff (UpdatePool (Some (with_cap (Some (keys (cap ∖ rel))) po))
                                             UpdateE) in
     go_ret (err, Some (event_of sn (Second ifinfo) cap used plev r rel))) s1.
Proof.
  intros Hif Hk Hcap Hused Hr Hno cap.
  destruct (pool_event_run sn po plev (Second ifinfo) cap0 used r) as (rel & Hrel & Hev); try done.
  exists rel. split; [done|]. unfold calPoolEvent. fold (interface_opt po).
  rewrite (go_bind_run _ _ _ _ _ Hif). unfold go_bind at 1, go_lift. by rewrite Hev.
Qed.

(** With the event that getSubnatEvent makes, whose set is nil, a pool
    above the high watermark makes calPoolEvent panic. *)
Lemma calPoolEvent_release_panics sn po ifinfo cap0 used s s1 :
  GetInterface (interface_opt po) s = (Ret (Some ifinfo), s1) →
  CapIp po = Some (keys cap0) → UsedIp po = Some (keys used) →
  no_overflow sn (capacity cap0 (Second ifinfo)) used →
  (PreAllocated sn + Z.of_nat (size used) < Z.of_nat (size (capacity cap0 (Second ifinfo))))%Z →
  capacity cap0 (Second ifinfo) ∖ used ⊆ addresses (Second ifinfo) →
  capacity cap0 (Second ifinfo) ∖ used ≠ ∅ →
  calPoolEvent (Some sn) (Some po) (Some {| PoMainId := MainId po; PoAdd := 0; PoRemove := None |}) s =
  (Panic NilDeref, s1).
Proof.
  intros Hif Hcap Hused Hno Hpos Hsub Hne. unfold calPoolEvent. fold (interface_opt po).
  rewrite (go_bind_run _ _ _ _ _ Hif). unfold go_bind at 1, go_lift.
  by rewrite (pool_event_nil sn po _ (Second ifinfo) cap0 used).
Qed.
End cal.

(** ** Reconcile *)
Section reconcile.
Context {S : Type} `{!RangeOrder, !Lens S manager, !KubeClient S Subnet_, !PoolManager S,
  !KubeFrame S Subnet_ manager}.
Context (cfg : VpcCfg).
Implicit Types (s : S) (sn : Sninfo) (inn o : Subnet_) (m : manager).

Definition entry inn m : Sninfo :=
  default (new_sninfo inn) (subnats m !! Name (SubnetMeta inn)).

Definition cached name sn m : manager := set_subnats (<[name := sn]> (subnats m)) m.

Lemma cached_twice name sn sn' m : cached name sn (cached name sn' m) = cached name sn m.
Proof. unfold cached, set_subnats; simpl. by rewrite insert_insert_eq. Qed.

Lemma update_sn_run name f sn sn' m s :
  f sn = Ret sn' →
  update_sn name f (put (cached name sn m) s) = (Ret tt, put (cached name sn' m) s).
Proof.
  intros Hf. unfold update_sn, load, go_bind, go_gets, go_lift, store, go_modify.
  rewrite view_put. simpl. rewrite lookup_insert_eq, Hf. simpl. rewrite put_put.
  by rewrite <-(cached_twice name sn' sn m).
Qed.

Definition with_namespaces (X : hset) sn : Sninfo :=
  {| SnInfoName := SnInfoName sn; SnNamespace := X; SnNode := SnNode sn;
     allnode := allnode sn; allnamespace := allnamespace sn; Deleted := Deleted sn;
     SninfoId := SninfoId sn; projectId := projectId sn; vpcId := vpcId sn;
     PreAllocated := PreAllocated sn; MinAvaliab := MinAvaliab sn |}.
Definition with_nodes (X : hset) sn : Sninfo :=
  {| SnInfoName := SnInfoName sn; SnNamespace := SnNamespace sn; SnNode := X;
     allnode := allnode sn; allnamespace := allnamespace sn; Deleted := Deleted sn;
     SninfoId := SninfoId sn; projectId := projectId sn; vpcId := vpcId sn;
     PreAllocated := PreAllocated sn; MinAvaliab := MinAvaliab sn |}.

(** Adding a list of names to a possibly nil set. *)
Definition grow (X : hset) (l : list string) : hset :=
  (λ i, keys (list_to_set l) ∪ i) <$> X.

Lemma namespaces_loop name l sn m s :
  is_Some (SnNamespace sn) →
  for_acc l (λ _ ns, update_sn name (add_namespace ns)) tt (put (cached name sn m) s) =
  (Ret tt, put (cached name (with_namespaces (grow (SnNamespace sn) l) sn) m) s).
Proof.
  revert sn. induction l as [|x l IH]; intros sn [X HX].
  - simpl. unfold grow. rewrite HX. csimpl. unfold keys. rewrite set_map_empty, (left_id_L ∅ (∪)).
    rewrite <-HX. by destruct sn.
  - simpl for_acc. erewrite go_bind_run; [|apply update_sn_run; unfold add_namespace; rewrite HX; done].
    rewrite IH by done. do 3 f_equal. unfold with_namespaces; simpl. f_equal. rewrite HX.
    unfold grow; simpl. f_equal. unfold keys. set_solver.
Qed.

Lemma nodes_loop name l sn m s :
  is_Some (SnNode sn) →
  for_acc l (λ _ no, update_sn name (add_node no)) tt (put (cached name sn m) s) =
  (Ret tt, put (cached name (with_nodes (grow (SnNode sn) l) sn) m) s).
Proof.
  revert sn. induction l as [|x l IH]; intros sn [X HX].
  - simpl. unfold grow. rewrite HX. csimpl. unfold keys. rewrite set_map_empty, (left_id_L ∅ (∪)).
    rewrite <-HX. by destruct sn.
  - simpl for_acc. erewrite go_bind_run; [|apply update_sn_run; unfold add_node; rewrite HX; done].
    rewrite IH by done. do 3 f_equal. unfold with_nodes; simpl. f_equal. rewrite HX.
    unfold grow; simpl. f_equal. unfold keys. set_solver.
Qed.

(** The namespaces and nodes that the object names: of its status when its
    spec has none. *)
Definition namespaces_of inn : list string :=
  match SpecNamespaces (SnSpec inn) with
  | Some l => l | None => default [] (StatusNamespaces (SnStatus inn)) end.
Definition nodes_of inn : list string :=
  match SpecNodes (SnSpec inn) with
  | Some l => l | None => default [] (StatusNodes (SnStatus inn)) end.

(** What a reconcile of a live subnet makes of its entry. *)
Definition observe inn sn : Sninfo :=
  {| SnInfoName := SnInfoName sn;
     SnNamespace := grow (SnNamespace sn) (namespaces_of inn);
     SnNode := grow (SnNode sn) (nodes_of inn);
     allnode := bool_decide (SpecNodes (SnSpec inn) = None) || allnode sn;
     allnamespace := bool_decide (SpecNamespaces (SnSpec inn) = None) || allnamespace sn;
     Deleted := Deleted sn;
     SninfoId := SpecSubnetId (SnSpec inn); projectId := SpecProject (SnSpec inn);
     vpcId := SpecVpc (SnSpec inn);
     PreAllocated := default (CfgPreAllocated cfg) (SpecPreAllocated (SnSpec inn));
     MinAvaliab := default (CfgMinAvaliable cfg) (SpecMinAvaliable (SnSpec inn)) |}.

Definition sets_made sn : Prop := is_Some (SnNamespace sn) ∧ is_Some (SnNode sn).

Lemma reconcile_sets_run inn sn m s :
  sets_made sn →
  reconcile_sets inn (put (cached (Name (SubnetMeta inn)) (with_spec cfg inn sn) m) s) =
  (Ret None, put (cached (Name (SubnetMeta inn)) (observe inn sn) m) s).
Proof.
  intros [Hns Hno]. unfold reconcile_sets. set (n := Name (SubnetMeta inn)).
  assert (H1 : (match SpecNamespaces (SnSpec inn) with
     | Some nslist => for_acc nslist (λ _ ns, update_sn n (add_namespace ns)) tt
     | None => update_sn n (λ sn, Ret (with_allnamespace sn)) ;;;
         for_acc (default [] (StatusNamespaces (SnStatus inn)))
           (λ _ ns, update_sn n (add_namespace ns)) tt
     end) (put (cached n (with_spec cfg inn sn) m) s) =
    (Ret tt, put (cached n (with_namespaces (grow (SnNamespace sn) (namespaces_of inn))
       (if SpecNamespaces (SnSpec inn) then with_spec cfg inn sn
        else with_allnamespace (with_spec cfg inn sn))) m) s)).
  { unfold namespaces_of. destruct (SpecNamespaces (SnSpec inn)) as [l|].
    - by rewrite namespaces_loop.
    - erewrite go_bind_run; [|by apply update_sn_run]. by rewrite namespaces_loop. }
  rewrite (go_bind_run _ _ _ _ _ H1). clear H1. unfold observe, nodes_of.
  destruct (SpecNodes (SnSpec inn)) as [l|], (SpecNamespaces (SnSpec inn)) as [l'|];
    (erewrite go_bind_run; [|first [rewrite nodes_loop by done; reflexivity
      |erewrite go_bind_run; [|by apply update_sn_run]; rewrite nodes_loop by done; reflexivity]]);
    reflexivity.
Qed.

(** *** Reconcile on an object that was read *)
Definition incomplete inn : Prop :=
  SpecProject (SnSpec inn) = "" ∨ SpecVpc (SnSpec inn) = "" ∨ SpecSubnetId (SnSpec inn) = "".

Definition strip_finalizer inn : Subnet_ :=
  with_meta (fst (RemoveFinalizer (SubnetMeta inn) FinializerController)) inn.

(** Nobody holds the lock, and nobody waits for it. *)
Definition unlocked m : Prop := readers m = 0%nat ∧ writer m = false.

#[export] Instance unlocked_dec m : Decision (unlocked m).
Proof. unfold unlocked. apply _. Defined.

(** The critical section, with the lock taken and given back. *)
Definition reconcile_read inn m : go S Result :=
  let n := Name (SubnetMeta inn) in
  let sn := entry inn m in
  if decide (SpecProject (SnSpec inn) = "" ∨ SpecVpc (SnSpec inn) = "" ∨
             SpecSubnetId (SnSpec inn) = "") then go_ret None
  else if writer m then go_hang
  else if decide (readers m = 0%nat) then
    if Deleted sn then
      store (cached n sn (set_writer true m)) ;;;
      go_defer Unlock (
        let* ok := couldRemove n in
        if ok : bool then go_call (kpatch (strip_finalizer inn) inn) else go_ret None)
    else if negb (IsZero (DeletionTimestamp (SubnetMeta inn))) then
      store (cached n (with_deleted (with_spec cfg inn sn)) m) ;;; go_ret None
    else store (cached n (observe inn sn) m) ;;; go_ret None
  else store (set_writer true m) ;;; go_hang.

Lemma vpc_Unlock_run s : Unlock s = (Ret tt, put (set_writer false (view s)) s).
Proof. done. Qed.

Lemma set_writer_id m : writer m = false → set_writer false m = m.
Proof. intros Hw. unfold set_writer. rewrite <-Hw. by destruct m. Qed.

(** Giving the lock back after a change of the cache. *)
Lemma unlock_cached n sn m s :
  writer m = false →
  Unlock (put (cached n sn (set_writer true m)) s) = (Ret tt, put (cached n sn m) s).
Proof.
  intros Hw. rewrite vpc_Unlock_run, view_put, put_put. do 2 f_equal.
  unfold cached, set_subnats, set_writer; simpl. by rewrite Hw.
Qed.

Lemma Reconcile_read name inn s s1 :
  kget name s = (inr inn, s1) → sets_made (entry inn (view s)) →
  Reconcile cfg name s = reconcile_read inn (view s) s1.
Proof.
  intros Hget Hsets. pose proof (kget_view (C:=manager) name s) as Hv.
  rewrite Hget in Hv; simpl in Hv.
  unfold Reconcile. rewrite (go_bind_run _ _ s (inr inn) s1) by (unfold go_call; by rewrite Hget).
  unfold reconcile_read. case_decide; [done|].
  unfold Lock, load, store, go_bind at 1 2 3, go_gets, go_modify. rewrite Hv.
  destruct (writer (view s)) eqn:Hw; [done|].
  cbv zeta. set (n := Name (SubnetMeta inn)). set (m := view s) in *.
  unfold go_bind at 1. destruct (decide (readers m = 0%nat)); [|done].
  unfold go_ret at 1. set (sn := entry inn m) in *.
  set (s2 := put (cached n sn (set_writer true m)) s1).
  assert (Hin : reconcile_locked cfg inn (put (set_writer true m) s1) =
    (if Deleted sn then
       let* ok := couldRemove n in
       if ok : bool then go_call (kpatch (strip_finalizer inn) inn) else go_ret None
     else
       update_sn n (λ sn, Ret (with_spec cfg inn sn)) ;;;
       if negb (IsZero (DeletionTimestamp (SubnetMeta inn))) then
         update_sn n (λ sn, Ret (with_deleted sn)) ;;; go_ret None
       else reconcile_sets inn) s2).
  { unfold reconcile_locked, load, store, go_bind at 1 2, go_gets, go_modify.
    rewrite view_put, put_put. done. }
  destruct (Deleted sn).
  - unfold go_defer at 1. rewrite Hin. unfold s2, n. done.
  - assert (Hret : ∀ sn', reconcile_locked cfg inn (put (set_writer true m) s1) =
      (Ret None, put (cached n sn' (set_writer true m)) s1) →
      go_defer Unlock (reconcile_locked cfg inn) (put (set_writer true m) s1) =
      (Ret None, put (cached n sn' m) s1))
      by (intros sn' Hl; eapply go_defer_ret; [exact Hl|by apply unlock_cached]).
    assert (Hup : update_sn n (λ sn, Ret (with_spec cfg inn sn)) s2 =
      (Ret tt, put (cached n (with_spec cfg inn sn) (set_writer true m)) s1))
      by by apply update_sn_run.
    rewrite (go_bind_run _ _ _ _ _ Hup) in Hin. destruct (negb _).
    + apply Hret. rewrite Hin. erewrite go_bind_run; [|by apply update_sn_run]. done.
    + apply Hret. rewrite Hin. by apply reconcile_sets_run.
Qed.

(** *** The life cycle of a cached subnet *)

(** The shape of the cache: the sets are made, and the name, which
    Reconcile never writes, is empty. *)
Definition cache_wf m : Prop :=
  map_Forall (λ _ sn, sets_made sn ∧ SnInfoName sn = "") (subnats m).

Lemma entry_wf inn m : cache_wf m → sets_made (entry inn m) ∧ SnInfoName (entry inn m) = "".
Proof.
  intros Hwf. unfold entry. destruct (subnats m !! _) as [sn|] eqn:Hsn; [by eapply Hwf|].
  by repeat split; simpl.
Qed.

(** C11. A reconcile of a live subnet with the lock free, written out: the ids and the policy are
    those of the object (the configured policy when it has none), the sets
    grow by the names it lists, and nothing else is touched; a second one
    changes nothing. *)
Theorem Reconcile_observes name inn s s1 :
  kget name s = (inr inn, s1) → cache_wf (view s) → unlocked (view s) →
  ¬ incomplete inn → DeletionTimestamp (SubnetMeta inn) = None →
  Deleted (entry inn (view s)) = false →
  Reconcile cfg name s =
    (Ret None, put (cached (Name (SubnetMeta inn)) (observe inn (entry inn (view s))) (view s)) s1) ∧
  ∀ sn, observe inn (observe inn sn) = observe inn sn.
Proof.
  intros Hget Hwf [Hrd Hw] Hinc Hdel Hd. split.
  - rewrite (Reconcile_read name inn s s1 Hget) by by apply entry_wf.
    unfold reconcile_read. rewrite decide_False, Hw, decide_True by done.
    by rewrite Hd, Hdel.
  - intros sn. unfold observe; simpl. f_equal.
    + destruct (SnNamespace sn); simpl; [|done]. f_equal. set_solver.
    + destruct (SnNode sn); simpl; [|done]. f_equal. set_solver.
    + by destruct (bool_decide _), (allnode sn).
    + by destruct (bool_decide _), (allnamespace sn).
Qed.

Definition grows (X Y : hset) : Prop :=
  ∀ i, X = Some i → ∃ j, Y = Some j ∧ i ⊆ j.

(** Sets and flags only grow, and a subnet marked deleted is frozen. *)
Definition advances sn sn' : Prop :=
  grows (SnNamespace sn) (SnNamespace sn') ∧ grows (SnNode sn) (SnNode sn') ∧
  (allnode sn = true → allnode sn' = true) ∧
  (allnamespace sn = true → allnamespace sn' = true) ∧
  (Deleted sn = true → sn' = sn).

Definition cache_advances m m' : Prop :=
  ∀ n sn, subnats m !! n = Some sn → ∃ sn', subnats m' !! n = Some sn' ∧ advances sn sn'.

Lemma grows_refl X : grows X X.
Proof. intros i ->. by exists i. Qed.

Lemma grows_grow X l : grows X (grow X l).
Proof. intros i ->. eexists. split; [done|]. set_solver. Qed.

Lemma advances_refl sn : advances sn sn.
Proof. split_and!; try done; apply grows_refl. Qed.

Lemma cache_advances_refl m : cache_advances m m.
Proof. intros n sn Hsn. exists sn. auto using advances_refl. Qed.

Lemma cached_advances inn sn' m :
  advances (entry inn m) sn' → cache_advances m (cached (Name (SubnetMeta inn)) sn' m).
Proof.
  intros Ha n sn Hsn. simpl. destruct (decide (Name (SubnetMeta inn) = n)) as [<-|Hne].
  - rewrite lookup_insert_eq. exists sn'. split; [done|]. unfold entry in Ha. by rewrite Hsn in Ha.
  - rewrite lookup_insert_ne by done. exists sn. auto using advances_refl.
Qed.

Lemma cached_wf name sn m :
  cache_wf m → sets_made sn ∧ SnInfoName sn = "" → cache_wf (cached name sn m).
Proof. intros Hm Hsn. by apply map_Forall_insert_2. Qed.

Lemma observe_wf inn sn :
  sets_made sn ∧ SnInfoName sn = "" → sets_made (observe inn sn) ∧ SnInfoName (observe inn sn) = "".
Proof. intros [[[i Hi] [j Hj]] Hn]. unfold sets_made; simpl. rewrite Hi, Hj. by repeat split; simpl. Qed.

Lemma observe_advances inn sn : Deleted sn = false → advances sn (observe inn sn).
Proof.
  intros Hd. split_and!; simpl; try apply grows_grow; try (intros ->; apply orb_true_r).
  by rewrite Hd.
Qed.

Lemma mark_advances inn sn : Deleted sn = false → advances sn (with_deleted (with_spec cfg inn sn)).
Proof. intros Hd. split_and!; simpl; try apply grows_refl; try done. by rewrite Hd. Qed.
End reconcile.

Section lifecycle.
Context {S : Type} `{!RangeOrder, !Lens S manager, !KubeClient S Subnet_, !PoolManager S,
  !PoolManagerLaws S, !KubeFrame S Subnet_ manager, !PoolFrame S manager}.
Context (cfg : VpcCfg).
Implicit Types (s : S) (sn : Sninfo) (inn o : Subnet_) (m : manager).

Lemma couldRemove_run name s :
  Forall allocated (cached_pools s) →
  couldRemove name s =
  (let* es := delete_all (filter (λ p, Subnat p = name) (cached_pools s)) in
   go_ret (all_nil es)) s.
Proof. apply (delete_matching (λ p, Subnat p = name)). Qed.

Lemma couldRemove_view name : preserves (view (C:=manager)) (couldRemove (S:=S) name).
Proof.
  unfold couldRemove. apply preserves_bind; [|done]. apply EachPool_preserves.
  intros err p. pose proof update_view. case_decide; frame.
Qed.

Lemma kpatch_preserves (new base : Subnet_) :
  preserves (view (C:=manager)) (go_call (S:=S) (kpatch new base)).
Proof. apply preserves_call. intros. apply kpatch_view. Qed.

(** A critical section that leaves the memory alone: what is left of the lock. *)
Lemma locked_section_view {A} (body : go S A) s out s' :
  preserves (view (C:=manager)) body → go_defer Unlock body s = (out, s') →
  ∃ b, view s' = set_writer b (view s) ∧
       (b = false ∨ out = Hang ∧ set_writer b (view s) = view s).
Proof.
  intros Hb Hr. apply (go_defer_inv _ _ _ _ _ _ vpc_Unlock_run) in Hr as (s1 & H1 & ->).
  pose proof (preserves_end _ _ _ _ _ Hb H1) as Hv. destruct out.
  - exists false. split; [by rewrite view_put, Hv|by left].
  - exists false. split; [by rewrite view_put, Hv|by left].
  - exists (writer (view s)). rewrite Hv. assert (Hi : set_writer (writer (view s)) (view s) = view s)
      by by destruct (view s). rewrite Hi. auto.
Qed.

Lemma couldRemove_patch_view n inn :
  preserves (view (C:=manager)) (let* ok := couldRemove n in
    if ok : bool then go_call (kpatch (S:=S) (strip_finalizer inn) inn) else go_ret None).
Proof. apply preserves_bind; [apply couldRemove_view|]. intros []; [apply kpatch_preserves|done]. Qed.

(** C13. Whatever a reconcile does and however it ends, the cached subnets keep
    their shape, none is dropped, their sets only grow, and one that was
    marked deleted stays exactly as it is. *)
Theorem Subnet_lifecycle name s r s' :
  cache_wf (view s) → Reconcile cfg name s = (r, s') →
  cache_wf (view s') ∧ cache_advances (view s) (view s') ∧ readers (view s') = readers (view s).
Proof.
  intros Hwf Hr. pose proof (kget_view (C:=manager) name s) as Hv.
  destruct (kget name s) as [[e|inn] s1] eqn:Hget; simpl in Hv.
  { unfold Reconcile in Hr. rewrite (go_bind_run _ _ s (inl e) s1) in Hr
      by (unfold go_call; by rewrite Hget).
    injection Hr as <- <-. rewrite Hv. auto using cache_advances_refl. }
  destruct (entry_wf inn (view s) Hwf) as [Hsets Hname].
  rewrite (Reconcile_read cfg name inn s s1 Hget Hsets) in Hr. unfold reconcile_read in Hr.
  case_decide; [injection Hr as <- <-; rewrite Hv; auto using cache_advances_refl|].
  set (n := Name (SubnetMeta inn)) in *. set (m := view s) in *.
  destruct (writer m) eqn:Hw; [injection Hr as <- <-; rewrite Hv; auto using cache_advances_refl|].
  case_decide as Hrd.
  2:{ injection Hr as <- <-. rewrite view_put. split_and!; [done|exact (cache_advances_refl m)|done]. }
  assert (Hset : ∀ b sn', view s' = set_writer b (cached n sn' m) →
    (sets_made sn' ∧ SnInfoName sn' = "") → advances (entry inn m) sn' →
    cache_wf (view s') ∧ cache_advances m (view s') ∧ readers (view s') = readers m).
  { intros b sn' -> Hsn' Ha.
    split_and!; [by apply (cached_wf n)|by apply (cached_advances inn)|done]. }
  assert (Hid : ∀ sn', cached n sn' m = set_writer false (cached n sn' m))
    by (intros; by rewrite set_writer_id).
  destruct (Deleted (entry inn m)) eqn:Hd; [|destruct (negb _)];
    unfold store, go_modify, go_bind at 1 in Hr.
  - destruct (locked_section_view _ _ _ _ (couldRemove_patch_view n inn) Hr) as (b & Hb & _).
    rewrite view_put in Hb. apply (Hset b (entry inn m)); [exact Hb|done|apply advances_refl].
  - injection Hr as <- <-. eapply Hset; [rewrite view_put; apply Hid|by split|by apply mark_advances].
  - injection Hr as <- <-.
    eapply Hset; [rewrite view_put; apply Hid|by apply observe_wf|by apply observe_advances].
Qed.
End lifecycle.

(** ** The stored subnet *)
Section stored.
Context {S : Type} `{!RangeOrder, !Lens S manager, !KubeClient S Subnet_, !PoolManager S,
  !PoolManagerLaws S, !KubeFrame S Subnet_ manager, !KubeServer S Subnet_, !KubeCurrent S Subnet_,
  !StoreFrame S Subnet_ manager, !PoolStoreFrame S Subnet_}.
Context (cfg : VpcCfg).
Implicit Types (s : S) (sn : Sninfo) (inn o : Subnet_) (m : manager).

Lemma Unlock_store : preserves (kstore (O:=Subnet_)) (Unlock (S:=S)).
Proof. intros s. apply put_store. Qed.

Lemma couldRemove_store name : preserves (kstore (O:=Subnet_)) (couldRemove (S:=S) name).
Proof.
  unfold couldRemove. apply preserves_bind; [|done]. apply EachPool_preserves.
  intros err p. pose proof update_store. case_decide; frame.
Qed.

(** The state in which couldRemove runs. *)
Definition entered name inn s : S :=
  put (cached (Name (SubnetMeta inn)) (entry inn (view s)) (set_writer true (view s)))
      (snd (kget name s)).

(** The only patch of a reconcile: the finalizer of a subnet that was
    marked deleted, once its cached pools were deleted without an error. *)
Lemma Reconcile_patch name s r s' :
  cache_wf (view s) →
  Reconcile cfg name s = (Ret r, s') →
  kstore s' = kstore s ∨
  ∃ o s2, fst (kget name s) = inr o ∧ Deleted (entry o (view s)) = true ∧
    deletes_all (λ p, Subnat p = name) (entered name o s) ∧
    kstore s2 = kstore s ∧ kstore s !! name = Some o ∧
    ∃ s3, go_call (kpatch (strip_finalizer o) o) s2 = (Ret r, s3) ∧
          kstore (O:=Subnet_) s' = kstore s3.
Proof.
  intros Hwf Hr. pose proof (kget_store name s) as Hst.
  destruct (kget name s) as [[e|inn] s1] eqn:Hget; simpl in Hst.
  { left. unfold Reconcile in Hr. rewrite (go_bind_run _ _ s (inl e) s1) in Hr
      by (unfold go_call; by rewrite Hget). by injection Hr as <- <-. }
  assert (Hfound : kstore s !! name = Some inn) by (apply kget_found; by rewrite Hget).
  assert (Hname : Name (SubnetMeta inn) = name) by exact (kstore_name s _ inn Hfound).
  destruct (entry_wf inn (view s) Hwf) as [Hsets _].
  rewrite (Reconcile_read cfg name inn s s1 Hget Hsets) in Hr. unfold reconcile_read in Hr.
  case_decide; [injection Hr as <- <-; by left|].
  destruct (writer (view s)); [done|]. case_decide as Hrd; [|done]. rewrite Hname in Hr.
  destruct (Deleted (entry inn (view s))) eqn:Hd; [|destruct (negb _)];
    unfold store, go_modify, go_bind at 1 in Hr;
    [|injection Hr as <- <-; left; by rewrite put_store..].
  apply (go_defer_inv _ _ _ _ _ _ vpc_Unlock_run) in Hr as (s4 & Hr & Hend).
  assert (Hs4 : kstore (O:=Subnet_) s' = kstore s4) by (rewrite Hend; apply put_store).
  rewrite !Hs4. clear Hs4 Hend. apply go_bind_inv in Hr as (ok & s2 & Hcr & Hr). rewrite couldRemove_run in Hcr
    by by eapply (delete_matching_allocated (λ p, Subnat p = name)).
  apply go_bind_inv in Hcr as (es & s3 & Hda & Hes). injection Hes as <- <-.
  pose proof (preserves_end kstore _ _ _ _ (delete_all_preserves _ _ update_store) Hda) as Hs3.
  rewrite put_store in Hs3. unfold all_nil in Hr.
  case_bool_decide as Hnil; [|injection Hr as <- <-; left; by rewrite Hs3].
  right. exists inn, s3. split_and!; try done; [|by rewrite Hs3|by exists s4].
  exists es, s3. split; [|done]. unfold entered. by rewrite Hname, Hget.
Qed.

(** C4. A stored subnet keeps its finalizer, and so stays, through a reconcile,
    whatever calls fail, unless an earlier one marked it deleted and all
    its cached pools were deleted without an error. *)
Theorem Subnet_finalizer_safe name n s r s' :
  cache_wf (view s) →
  keeps (O:=Subnet_) n FinializerController s → Reconcile cfg name s = (Ret r, s') →
  keeps (O:=Subnet_) n FinializerController s' ∨
  ∃ o, n = name ∧ fst (kget name s) = inr o ∧ Deleted (entry o (view s)) = true ∧
       deletes_all (λ p, Subnat p = n) (entered name o s).
Proof.
  intros Hwf Hk Hr.
  apply Reconcile_patch in Hr as [Hs|(o & s2 & Ho & Hd & Hda & Hs2 & Hf & s3 & Hp & Hs3)];
    [left; unfold keeps; by rewrite Hs| |done].
  destruct (decide (n = name)) as [->|Hn]; [right; by exists o|left].
  assert (Hname : obj_name (strip_finalizer o) = name)
    by exact (kstore_name s _ o Hf).
  assert (keeps (O:=Subnet_) n FinializerController s3) as Hk3; [|unfold keeps; by rewrite Hs3].
  eapply (patch_keeps (strip_finalizer o)); [| | |exact Hp].
  - left. by rewrite Hname, Hs2.
  - by rewrite Hname.
  - unfold keeps. by rewrite Hs2.
Qed.

(** No stored subnet has a finalizer. *)
Definition unprotected s : Prop :=
  ∀ n o, kstore s !! n = Some o → Finalizers (SubnetMeta o) = [].

(** C17. No reconcile ever adds the finalizer: a store without it stays without
    it, so a deleted subnet disappears at once, and the reconcile that
    follows only reads: the cached entry and the pools of the subnet are
    left behind. *)
Theorem deletion_unprotected name n s r s' :
  cache_wf (view s) → unprotected s →
  Reconcile cfg name s = (Ret r, s') →
  unprotected s' ∧
  (fst (kdelete n s') = None →
   kstore (snd (kdelete n s')) !! n = None ∧
   Reconcile cfg n (snd (kdelete n s')) = (Ret None, snd (kget n (snd (kdelete n s'))))).
Proof.
  intros Hwf Hun Hr. assert (Hun' : unprotected s').
  { apply Reconcile_patch in Hr as [Hs|(o & s2 & Ho & Hd & Hda & Hs2 & Hf & s4 & Hp & Hs4)];
      [unfold unprotected; by rewrite Hs| |done].
    assert (Hname : obj_name (strip_finalizer o) = name) by exact (kstore_name s _ o Hf).
    unfold go_call in Hp.
    pose proof (kpatch_cases (strip_finalizer o) o s2) as Hc.
    destruct (kpatch (strip_finalizer o) o s2) as [r1 s3]. injection Hp as -> ->. unfold unprotected. rewrite Hs4.
    destruct Hc as [[_ Hs]|Hs]; [left; by rewrite Hname, Hs2| |];
      simpl in Hs; intros n1 o1 Ho1; rewrite Hs, Hs2 in Ho1; [by apply (Hun n1)|].
    destruct (decide (n1 = obj_name (strip_finalizer o))) as [->|Hne].
    - rewrite persist_lookup in Ho1. case_match; simplify_eq.
      simpl. by rewrite compact_filter, (Hun _ _ Hf).
    - rewrite persist_lookup_ne in Ho1 by done. by apply (Hun n1). }
  split; [done|]. intros Hdel. destruct (kdelete_ok n s' Hdel) as (o & t & Ho & Hs2).
  assert (Hgone : kstore (snd (kdelete n s')) !! n = None).
  { rewrite Hs2, <-(kstore_name s' n o Ho), <-(mark_deleted_name t o) at 1.
    rewrite persist_lookup, mark_deleted_finalizers.
    change (obj_meta o) with (SubnetMeta o). rewrite (Hun' n o Ho).
    rewrite bool_decide_true, andb_true_r by done.
    unfold mark_deleted. by destruct (deleting o) eqn:Hdg; [rewrite Hdg|]. }
  split; [done|]. set (s2 := snd (kdelete n s')) in *.
  destruct (kget n s2) as [[e|inn] s3] eqn:Hget.
  - unfold Reconcile. by rewrite (go_bind_run _ _ s2 (inl e) s3) by (unfold go_call; by rewrite Hget).
  - pose proof (kget_found n s2 inn) as Hf. rewrite Hget in Hf. by rewrite Hf in Hgone.
Qed.

(** An object without a project, a vpc or a subnet id is never cached. *)
Lemma incomplete_ignored name s inn s1 :
  kget name s = (inr inn, s1) → incomplete inn → Reconcile cfg name s = (Ret None, s1).
Proof.
  intros Hget Hinc. unfold Reconcile.
  rewrite (go_bind_run _ _ s (inr inn) s1) by (unfold go_call; by rewrite Hget).
  by rewrite decide_True.
Qed.

(** C18. The subnet that Start creates has no vpc, so its reconcile does
    nothing: the default subnet is stored and never cached. *)
Theorem default_subnet_ignored `{!KubeReliable S Subnet_, !KubeExact S Subnet_} s :
  kstore s !! defaultSubnat = None →
  ∃ d s', defaultEniSubnat cfg = inr d ∧
    (let* err := Start cfg in
     let* r := Reconcile cfg defaultSubnat in go_ret (err, r)) s = (Ret (None, None), s') ∧
    kstore s' !! defaultSubnat = Some d ∧ view s' = view (C:=manager) s.
Proof.
  intros Hnone. eexists. unfold Start. destruct (defaultEniSubnat cfg) as [?|d] eqn:Hd; [done|].
  injection Hd as <-. set (d := {| SubnetMeta := _ |}).
  assert (Hget := kget_exact defaultSubnat s). unfold caught_up in Hget. rewrite Hnone in Hget; cbn [answer] in Hget.
  pose proof (kget_store defaultSubnat s) as Hs1. pose proof (kget_view (C:=manager) defaultSubnat s) as Hv1.
  destruct (kget defaultSubnat s) as [r1 s1] eqn:Hg; simpl in *. subst r1.
  assert (Hc : fst (kcreate d s1) = None) by (apply kcreate_succeeds; by rewrite Hs1).
  destruct (kcreate_ok d s1 Hc) as [_ Hs2]. pose proof (kcreate_view (C:=manager) d s1) as Hv2.
  destruct (kcreate d s1) as [r2 s2] eqn:Hk; simpl in *. subst r2.
  assert (Hfound : kstore s2 !! defaultSubnat = Some d) by (rewrite Hs2; apply lookup_insert_eq).
  assert (Hget2 := kget_exact defaultSubnat s2). unfold caught_up in Hget2. rewrite Hfound in Hget2; cbn [answer] in Hget2.
  pose proof (kget_store defaultSubnat s2) as Hs3. pose proof (kget_view (C:=manager) defaultSubnat s2) as Hv3.
  destruct (kget defaultSubnat s2) as [r3 s3] eqn:Hg2; simpl in *. subst r3.
  exists s3. split; [done|]. split; [|split; [by rewrite Hs3|congruence]].
  erewrite go_bind_run.
  2:{ apply Backoff.Backoff_ok. unfold go_call, go_bind. rewrite Hg. simpl. by rewrite Hk. }
  erewrite go_bind_run; [done|]. apply (incomplete_ignored _ _ d); [done|].
  right; left; done.
Qed.
End stored.

(** ** Callbacks *)
Section events.
Context {S : Type} `{!RangeOrder, !Lens S manager, !KubeClient S Subnet_, !NamespaceLister S,
  !PoolManager S, !PoolManagerLaws S, !NodeManager S, !NodeManagerLaws S, !InfraClient S,
  !KubeFrame S Subnet_ manager, !PoolFrame S manager, !NodeFrame S manager,
  !InfraFrame S manager}.
Context (cfg : VpcCfg) (ns_list_view : ∀ s : S, view (C:=manager) (snd (ns_list s)) = view s).
Implicit Types (s : S) (sn : Sninfo) (ni : NodeInfo) (m : manager).

Definition bare_event sn : subnatEvent :=
  {| EvVpcId := vpcId sn; EvProjectId := projectId sn; EvSubnatId := SninfoId sn;
     EvSubnatName := SnInfoName sn; EvNodes := [] |}.

(** A node of the subnet never gets past the namespaces: the whole slice is
    one element of a hash set. *)
Lemma add_node_event_returns sn acc ni s r s' :
  add_node_event sn acc ni s = (Ret r, s') →
  HashSet.Contains (SnNode sn) [VKey (KString (InfoName ni))] = Ret false ∧
  r = (acc, None) ∧ s' = s.
Proof.
  unfold add_node_event. destruct acc as [evs poinfo]. unfold go_bind at 1, go_lift at 1.
  destruct (HashSet.Contains _ _) as [[]| |]; simpl; intros Hr; simplify_eq; [exfalso|done].
  apply go_bind_inv in Hr as (noifs & s1 & _ & Hr). apply go_bind_inv in Hr as (noev & s2 & _ & Hr).
  apply go_bind_inv in Hr as (nss & s3 & _ & Hr). apply go_bind_inv in Hr as (nset & s4 & Hr & _).
  discriminate.
Qed.

Lemma add_node_event_skip sn acc ni s :
  HashSet.Contains (SnNode sn) [VKey (KString (InfoName ni))] = Ret false →
  add_node_event sn acc ni s = (Ret (acc, None), s).
Proof. intros Hc. unfold add_node_event. destruct acc. unfold go_bind, go_lift. by rewrite Hc. Qed.

Lemma node_loop_returns sn l acc s r s' :
  for_until l (add_node_event sn) acc s = (Ret r, s') →
  Forall (λ ni, HashSet.Contains (SnNode sn) [VKey (KString (InfoName ni))] = Ret false) l.
Proof.
  revert acc s. unfold for_until. induction l as [|ni l IH]; intros acc s Hr; [done|].
  simpl in Hr. apply go_bind_inv in Hr as ([b st] & s1 & H1 & Hr).
  apply go_bind_inv in H1 as ([b1 e1] & s2 & H1 & H2).
  apply add_node_event_returns in H1 as (Hc & [= -> ->] & ->). injection H2 as <- <- <-.
  constructor; [done|]. by eapply IH.
Qed.

Lemma node_loop_skip sn l acc s :
  Forall (λ ni, HashSet.Contains (SnNode sn) [VKey (KString (InfoName ni))] = Ret false) l →
  for_until l (add_node_event sn) acc s = (Ret acc, s).
Proof.
  unfold for_until. induction 1 as [|ni l Hc Hl IH]; [done|]. simpl.
  unfold go_bind at 1 2. rewrite (add_node_event_skip sn acc ni s Hc). simpl.
  apply IH.
Qed.

(** C15. The event of a subnet is computed only when no cached node belongs to
    it, and then it has no node; with such a node, the computation never
    returns. *)
Theorem getSubnatEvent_returns sn X s :
  SnNode sn = Some X →
  (Forall (λ ni, KString (InfoName ni) ∉ X) (cached_nodes s) →
   getSubnatEvent sn s = (Ret (bare_event sn), s)) ∧
  (Exists (λ ni, KString (InfoName ni) ∈ X) (cached_nodes s) →
   ∀ ev s', getSubnatEvent sn s ≠ (Ret ev, s')).
Proof.
  intros HX. split.
  - intros Hno. unfold getSubnatEvent.
    rewrite (go_bind_run _ _ s ([], zero_pool) s); [done|].
    rewrite EachNode_spec. apply node_loop_skip. eapply Forall_impl; [exact Hno|].
    intros ni Hni. simpl in Hni. by rewrite HX, HashSet.Contains_key, bool_decide_false.
  - intros Hyes ev s' Hr. apply go_bind_inv in Hr as (r & s1 & Hr & _).
    rewrite EachNode_spec in Hr. apply node_loop_returns in Hr.
    apply Exists_exists in Hyes as (ni & Hin & Hni). rewrite Forall_forall in Hr.
    specialize (Hr ni Hin). by rewrite HX, HashSet.Contains_key, bool_decide_true in Hr.
Qed.

Lemma calPoolEvent_frame (sn : option Sninfo) po plev :
  preserves (view (C:=manager)) (calPoolEvent (S:=S) sn po plev).
Proof.
  unfold calPoolEvent. destruct sn, po, plev; try done.
  apply preserves_bind; [apply GetInterface_view|]. intros [i|]; [|done].
  apply preserves_bind; [done|]. intros [po' plev'].
  apply preserves_bind; [|done]. apply Backoff.Backoff_preserves, update_view.
Qed.

Lemma getSubnatEvent_frame sn : preserves (view (C:=manager)) (getSubnatEvent (S:=S) sn).
Proof.
  unfold getSubnatEvent. apply preserves_bind; [|by intros []].
  apply EachNode_preserves. intros [evs poinfo] ni. unfold add_node_event.
  apply preserves_bind; [done|]. intros found. destruct (negb found); [done|].
  apply preserves_bind; [|intros noifs; apply preserves_bind; [|intros noev;
    apply preserves_bind; [|intros nss; by intros s1]]].
  - unfold getNodeInterface. apply preserves_bind; [apply GetInstance_view|]. intros []; frame.
  - apply EachPool_preserves. intros noev p. unfold add_pool. case_decide; [done|].
    cbv zeta. apply preserves_bind.
    { destruct (IsDeleted ni); [apply CouldRemove_frame|done]. }
    intros []; [frame|]. destruct (Deleted sn).
    + apply preserves_bind; [apply update_view|]. intros []; frame.
    + apply preserves_bind; [apply calPoolEvent_frame|]. intros []; frame.
  - unfold getNamespace. apply preserves_bind; [by apply preserves_call|]. done.
Qed.

(** What the callback does for one subnet when the channel is nil. *)
Lemma concerned_body v sn s o s' :
  ch (view s) = None →
  (let* c := go_lift (concerns v sn) in
   if c : bool then let* ev := getSubnatEvent sn in send_event ev else go_ret tt) s = (o, s') →
  view s' = view s ∧ (concerns v sn = Ret true → ∀ u, o ≠ Ret u) ∧
  (concerns v sn = Ret false → (o, s') = (Ret tt, s)).
Proof.
  intros Hch Hr. unfold go_bind at 1, go_lift in Hr.
  destruct (concerns v sn) as [[]| |]; [|injection Hr as <- <-; naive_solver..].
  unfold go_bind in Hr. pose proof (getSubnatEvent_frame sn s) as Hv.
  destruct (getSubnatEvent sn s) as [[ev| |] s1]; simpl in Hv;
    [|injection Hr as <- <-; naive_solver..].
  unfold send_event, load, go_bind, go_gets in Hr. rewrite Hv, Hch in Hr.
  injection Hr as <- <-. naive_solver.
Qed.

Lemma callback_loop v l s o s' :
  ch (view s) = None →
  for_acc l (λ _ sn, let* c := go_lift (concerns v sn) in
    if c : bool then let* ev := getSubnatEvent sn in send_event ev else go_ret tt) tt s = (o, s') →
  view s' = view s ∧
  (Exists (λ sn, concerns v sn = Ret true) l → ∀ u, o ≠ Ret u) ∧
  (Forall (λ sn, concerns v sn = Ret false) l → (o, s') = (Ret tt, s)).
Proof.
  revert s. induction l as [|sn l IH]; intros s Hch Hr.
  { injection Hr as <- <-. split_and!; [done|by inversion 1|done]. }
  simpl in Hr. unfold go_bind at 1 in Hr.
  destruct (go_bind _ _ s) as [o1 s1] eqn:Hb.
  destruct (concerned_body v sn s o1 s1 Hch Hb) as (Hv & Hyes & Hno).
  destruct o1 as [[]| |].
  - destruct (IH s1) as (Hv' & Hyes' & Hno'); [by rewrite Hv|done|].
    split_and!; [congruence| |].
    + intros [Hc|Hc]%Exists_cons; [by destruct (Hyes Hc tt)|by apply Hyes'].
    + intros [Hc Hl]%Forall_cons. specialize (Hno Hc). specialize (Hno' Hl). congruence.
  - injection Hr as <- <-. split_and!; [done|done|]. intros [Hc Hl]%Forall_cons.
    by specialize (Hno Hc).
  - injection Hr as <- <-. split_and!; [done|done|]. intros [Hc Hl]%Forall_cons.
    by specialize (Hno Hc).
Qed.

(** The callback, once it has the read lock. *)
Lemma callback_locked v s o s' :
  v ≠ CbOther → ch (view s) = None → writer (view s) = false → callback v s = (o, s') →
  (∃ k, (readers (view s) ≤ k)%nat ∧ view s' = set_readers k (view s)) ∧
  ((∃ n sn, subnats (view s) !! n = Some sn ∧ concerns v sn = Ret true) →
   (∀ u, o ≠ Ret u) ∧ readers (view s') ≠ 0%nat) ∧
  (map_Forall (λ _ sn, concerns v sn = Ret false) (subnats (view s)) → (o, s') = (Ret tt, s)).
Proof.
  intros Hv Hch Hw Hr. set (m := view s) in *.
  set (s0 := put (set_readers (Datatypes.S (readers m)) m) s).
  set (l := range_order (snd <$> map_to_list (subnats m))).
  assert (Hcb : callback v s = (for_acc l (λ _ sn, let* c := go_lift (concerns v sn) in
    if c : bool then let* ev := getSubnatEvent sn in send_event ev else go_ret tt) tt ;;;
    RUnlock) s0).
  { unfold callback. destruct v; try done;
      unfold RLock, load, store, go_bind at 1 2 3, go_gets, go_modify;
      fold m; rewrite Hw; by rewrite view_put. }
  assert (Hel : ∀ sn, sn ∈ l ↔ ∃ n, subnats m !! n = Some sn).
  { intros sn. unfold l. rewrite range_order_perm, list_elem_of_fmap. split.
    - intros ([n x] & -> & Hx%elem_of_map_to_list). by exists n.
    - intros [n Hn]. exists (n, sn). split; [done|]. by apply elem_of_map_to_list. }
  rewrite Hcb in Hr. unfold go_bind at 1 in Hr. destruct (for_acc _ _ _ _) as [o1 s1] eqn:Hloop.
  destruct (callback_loop v l s0 o1 s1) as (Hv1 & Hyes & Hno);
    [by unfold s0; rewrite view_put|done|].
  unfold s0 in Hv1. rewrite view_put in Hv1.
  assert (Hend : match o1 with
    | Ret _ => o = Ret tt ∧ s' = put m s1
    | _ => (∀ u, o ≠ Ret u) ∧ s' = s1 end).
  { destruct o1 as [[]|p|]; [|by simplify_eq/=..].
    unfold RUnlock, load, store, go_bind, go_gets, go_modify in Hr. rewrite Hv1 in Hr.
    injection Hr as <- <-. split; [done|]. f_equal. by destruct m. }
  split_and!.
  - destruct o1 as [u|p|]; destruct Hend as [_ ->].
    + exists (readers m). split; [done|]. rewrite view_put. by destruct m.
    + exists (Datatypes.S (readers m)). split; [lia|done].
    + exists (Datatypes.S (readers m)). split; [lia|done].
  - intros (n & sn & Hsn & Hc).
    assert (Ho : ∀ u, o1 ≠ Ret u).
    { apply Hyes, Exists_exists. exists sn. split; [|done]. apply Hel. by exists n. }
    destruct o1 as [u|p|]; [by destruct (Ho u)|..]; destruct Hend as [Hnr ->];
      (split; [done|]; by rewrite Hv1).
  - intros Hall. assert (Hl : Forall (λ sn, concerns v sn = Ret false) l).
    { apply Forall_forall. intros sn Hin. apply Hel in Hin as [n Hn]. by eapply Hall. }
    specialize (Hno Hl). injection Hno as -> ->. destruct Hend as [-> ->]. f_equal.
    unfold s0. rewrite put_put. apply put_view.
Qed.

(** While a writer holds the lock or waits for it, readers wait. *)
Lemma callback_waits v s :
  v ≠ CbOther → writer (view s) = true → callback v s = (Hang, s).
Proof.
  intros Hv Hw. unfold callback. destruct v; [..|done];
    unfold RLock, load, go_bind, go_gets; by rewrite Hw.
Qed.

(** *** A lock that is never free again *)
Definition stuck m : Prop := ch m = None ∧ (readers m ≠ 0%nat ∨ writer m = true).

(** A reconcile that finds the lock taken: it waits for it, announced as a
    writer, unless it ends before. *)
Lemma Reconcile_blocked name s o s' :
  stuck (view s) → Reconcile cfg name s = (o, s') →
  (view s' = view (C:=manager) s ∨ view s' = set_writer true (view s)) ∧
  (∀ inn s1, kget name s = (inr inn, s1) → ¬ incomplete inn →
   o = Hang ∧ writer (view s') = true).
Proof.
  intros [_ Hst] Hr. pose proof (kget_view (C:=manager) name s) as Hv. unfold Reconcile in Hr.
  destruct (kget name s) as [r s1] eqn:Hget. simpl in Hv.
  rewrite (go_bind_run _ _ s r s1) in Hr by (unfold go_call; by rewrite Hget).
  destruct r as [e|inn]; [injection Hr as <- <-; rewrite Hv; split; [by left|done]|].
  case_decide as Hinc.
  { injection Hr as <- <-. rewrite Hv. split; [by left|]. intros ?? [= <- <-]. by intros []. }
  assert (Hr' : (o, s') = if writer (view s) then (Hang, s1)
                          else (Hang, put (set_writer true (view s)) s1)).
  { rewrite <-Hr. unfold Lock, load, store, go_bind, go_gets, go_modify. rewrite Hv.
    destruct (writer (view s)) eqn:Hw; [done|].
    destruct Hst as [Hst|Hst]; [by rewrite decide_False|done]. }
  destruct (writer (view s)) eqn:Hw; injection Hr' as -> ->.
  - rewrite Hv. split; [by left|]. done.
  - rewrite view_put. split; [by right|]. done.
Qed.

(** What can happen afterwards: reconciles and callbacks of the manager,
    however they end, and anything that leaves its memory alone. *)
Inductive later : S → S → Prop :=
  | later_reconcile name s o s' : Reconcile cfg name s = (o, s') → later s s'
  | later_callback v s o s' : callback v s = (o, s') → later s s'
  | later_outside s s' : view s' = view (C:=manager) s → later s s'.

Lemma later_stuck s s' :
  later s s' → stuck (view s) →
  stuck (view s') ∧ (writer (view s) = true → writer (view s') = true).
Proof.
  intros [name s1 o s2 Hr|v s1 o s2 Hr|s1 s2 ->] Hst; [| |done].
  - destruct (Reconcile_blocked _ _ _ _ Hst Hr) as [[->| ->] _]; [done|].
    destruct Hst as [Hch _]. split; [|done]. split; [done|by right].
  - assert (Hv : v = CbOther ∨ v ≠ CbOther) by (destruct v; by auto).
    destruct Hv as [->|Hv]; [by injection Hr as _ <-|].
    destruct (writer (view s1)) eqn:Hw.
    { rewrite callback_waits in Hr by done. injection Hr as _ <-. by rewrite Hw. }
    destruct Hst as [Hch [Hrd|?]]; [|congruence].
    destruct (callback_locked v s1 o s2 Hv Hch Hw Hr) as ((k & Hk & ->) & _).
    split; [|done]. split; [done|]. left. simpl. lia.
Qed.

Lemma rtc_later_stuck s s' :
  rtc later s s' → stuck (view s) →
  stuck (view s') ∧ (writer (view s) = true → writer (view s') = true).
Proof.
  induction 1 as [|s1 s2 s3 H1 _ IH]; intros Hst; [done|].
  destruct (later_stuck _ _ H1 Hst) as [Hst2 Hw2]. destruct (IH Hst2). auto.
Qed.

(** C6. A callback that concerns some cached subnet never returns, as the
    channel is never made: it blocks, or panics on the way.  From then on the
    lock is never free: whatever the manager and the rest of the process do
    afterwards, every reconcile of a complete subnet blocks for ever (when the
    process survives), and once one of them waits for the lock, every later
    callback blocks too, whatever it concerns.  A callback that concerns no
    subnet leaves everything as it was, unless a reconcile waits before it. *)
Theorem callback_stuck v s o s' :
  v ≠ CbOther → ch (view s) = None → callback v s = (o, s') →
  ((∃ n sn, subnats (view s) !! n = Some sn ∧ concerns v sn = Ret true) →
   (∀ u, o ≠ Ret u) ∧
   ∀ s1, rtc later s' s1 →
     ∀ name inn s2, kget name s1 = (inr inn, s2) → ¬ incomplete inn →
     ∃ s3, Reconcile cfg name s1 = (Hang, s3) ∧
       ∀ s4 v', rtc later s3 s4 → v' ≠ CbOther → callback v' s4 = (Hang, s4)) ∧
  (map_Forall (λ _ sn, concerns v sn = Ret false) (subnats (view s)) →
   (o, s') = if writer (view s) then (Hang, s) else (Ret tt, s)).
Proof.
  intros Hv Hch Hr.
  assert (Hlock : stuck (view s') → ∀ s1, rtc later s' s1 →
    ∀ name inn s2, kget name s1 = (inr inn, s2) → ¬ incomplete inn →
    ∃ s3, Reconcile cfg name s1 = (Hang, s3) ∧
      ∀ s4 v', rtc later s3 s4 → v' ≠ CbOther → callback v' s4 = (Hang, s4)).
  { intros Hst s1 Hl name inn s2 Hget Hinc. destruct (rtc_later_stuck _ _ Hl Hst) as [Hst1 _].
    destruct (Reconcile cfg name s1) as [o1 s3] eqn:Hrec.
    destruct (Reconcile_blocked _ _ _ _ Hst1 Hrec) as [Hor Hw].
    destruct (Hw inn s2 Hget Hinc) as [-> Hw3]. exists s3. split; [done|].
    intros s4 v' Hl4 Hv'. apply callback_waits; [done|].
    apply (rtc_later_stuck _ _ Hl4); [|done]. split; [|by right].
    destruct Hst1 as [Hch1 _]. by destruct Hor as [->| ->]. }
  destruct (writer (view s)) eqn:Hw.
  - rewrite callback_waits in Hr by done. injection Hr as <- <-. split; [|done].
    intros _. split; [done|]. apply Hlock. split; [done|by right].
  - destruct (callback_locked v s o s' Hv Hch Hw Hr) as ((k & _ & Hk) & Hyes & Hno).
    split; [|done]. intros Hc. destruct (Hyes Hc) as [Ho Hrd]. split; [done|].
    apply Hlock. split; [by rewrite Hk|by left].
Qed.
End events.
End VpcFacts.
