(* ===== verification/Work.v ===== *)
(** * Work: the worker that collects the events of the subnets

    Models [processWork] of pkg/vpc/vpc.go in time.  Every turn of its loop
    makes a new ticker and waits for an event, for the first tick of that
    ticker or for the end of the context.  The other goroutines are steps of
    their own, on the state that the worker shares with them. *)
From S2P Require Import Prelude.
From S2P Require Import HashSet.
From S2P Require Import Objects.
From S2P Require Import IPPool.
From S2P Require Import Node.
From S2P Require Import Infra.
From S2P Require Import Vpc.

Module Work.
Section work.
Context {S : Type} `{!RangeOrder, !Lens S manager}.
(** [ops.processSubnatWork], and what the other goroutines may do. *)
Context (process : subnatEvent → go S unit) (others : S → S → Prop).
Implicit Types (s : S) (ev : subnatEvent) (t : Z).

(** The period of the ticker, in milliseconds. *)
Definition tick_period : Z := 200.

Inductive status := Running | Blocked | Exited | Crashed.

(** The worker waits in its select since [armed]; [tickers] counts the
    tickers it has made, none of which is stopped. *)
Record worker := {
  clock : Z;
  armed : Z;
  tickers : nat;
  evmap : gmap string subnatEvent;
  worker_status : status;
  shared : S
}.

(** The goroutine enters its first select. *)
Definition started t s : worker :=
  {| clock := t; armed := t; tickers := 1; evmap := ∅; worker_status := Running; shared := s |}.

(** The events to handle at a tick, in the order of the range. *)
Definition batch (m : gmap string subnatEvent) : list subnatEvent :=
  range_order (snd <$> map_to_list m).

Definition handle_batch (l : list subnatEvent) : go S unit :=
  for_acc l (λ _ ev, process ev) tt.

Definition after_batch (o : outcome unit) : status :=
  match o with Ret _ => Running | Hang => Blocked | Panic _ => Crashed end.

(** What one step shows: the event received at a time, or the events handed
    over at a tick. *)
Inductive label :=
  | Recv t ev
  | Tick t (l : list subnatEvent)
  | Quiet.

Inductive step : worker → label → worker → Prop :=
  | work_recv w t ev rest :
      worker_status w = Running → (clock w ≤ t)%Z → ch (view (shared w)) = Some (ev :: rest) →
      step w (Recv t ev)
        {| clock := t; armed := t; tickers := Datatypes.S (tickers w);
           evmap := <[EvSubnatName ev := ev]> (evmap w); worker_status := Running;
           shared := put (Vpc.set_ch (Some rest) (view (shared w))) (shared w) |}
  | work_tick w t t' o s' :
      worker_status w = Running → (clock w ≤ t)%Z → (armed w + tick_period ≤ t)%Z → (t ≤ t')%Z →
      handle_batch (batch (evmap w)) (shared w) = (o, s') →
      step w (Tick t (batch (evmap w)))
        {| clock := t'; armed := t'; tickers := Datatypes.S (tickers w);
           evmap := ∅; worker_status := after_batch o; shared := s' |}
  | work_done w t :
      worker_status w = Running → (clock w ≤ t)%Z →
      step w Quiet
        {| clock := t; armed := armed w; tickers := tickers w; evmap := evmap w;
           worker_status := Exited; shared := shared w |}
  | work_others w t s' :
      (clock w ≤ t)%Z → others (shared w) s' →
      step w Quiet
        {| clock := t; armed := armed w; tickers := tickers w; evmap := evmap w;
           worker_status := worker_status w; shared := s' |}.

(** A run from the start of the worker, with what its steps showed. *)
Definition run (t0 : Z) (s0 : S) := run_of step (started t0 s0).

(** ** What the worker holds and hands over *)

(** The events received since the last tick. *)
Definition collect (acc : list subnatEvent) (a : label) : list subnatEvent :=
  match a with Recv _ ev => acc ++ [ev] | Tick _ _ => [] | Quiet => acc end.
Definition pending (l : list label) : list subnatEvent := foldl collect [] l.

(** The last event of a name. *)
Definition latest (n : string) (l : list subnatEvent) : option subnatEvent :=
  last (filter (λ ev, EvSubnatName ev = n) l).

Definition turns (a : label) : bool := match a with Quiet => false | _ => true end.

Lemma pending_snoc l a : pending (l ++ [a]) = collect (pending l) a.
Proof. unfold pending. by rewrite foldl_app. Qed.

Lemma latest_snoc n l ev :
  latest n (l ++ [ev]) = if decide (EvSubnatName ev = n) then Some ev else latest n l.
Proof.
  unfold latest. rewrite filter_app, filter_cons. case_decide.
  - simpl. by rewrite filter_nil, last_snoc.
  - by rewrite filter_nil, app_nil_r.
Qed.

Lemma run_evmap t0 s0 l w :
  run t0 s0 l w → ∀ n, evmap w !! n = latest n (pending l).
Proof.
  induction 1 as [|l w a w' Hr IH Hs]; intros n; [done|].
  rewrite pending_snoc. destruct Hs; simpl.
  - rewrite latest_snoc. case_decide; simplify_map_eq; auto.
  - done.
  - apply IH.
  - apply IH.
Qed.

Lemma batch_elem m ev :
  (∀ n ev, m !! n = Some ev → EvSubnatName ev = n) →
  ev ∈ batch m ↔ m !! EvSubnatName ev = Some ev.
Proof.
  intros Hm. unfold batch. rewrite range_order_perm, list_elem_of_fmap. split.
  - intros ([n e] & -> & He%elem_of_map_to_list). simpl. by rewrite (Hm n e He).
  - intros He. exists (EvSubnatName ev, ev). by rewrite elem_of_map_to_list.
Qed.

Lemma batch_NoDup m :
  (∀ n ev, m !! n = Some ev → EvSubnatName ev = n) → NoDup (EvSubnatName <$> batch m).
Proof.
  intros Hm. unfold batch. rewrite range_order_perm, <-list_fmap_compose.
  rewrite (list_fmap_ext _ fst); [apply NoDup_fst_map_to_list|].
  intros i [n ev] Hi%list_elem_of_lookup_2%elem_of_map_to_list. simpl. by apply Hm.
Qed.

Lemma latest_name n l ev : latest n l = Some ev → EvSubnatName ev = n ∧ ev ∈ l.
Proof.
  unfold latest. intros Hl%last_Some_elem_of. by apply list_elem_of_filter in Hl.
Qed.

(** In every run, the worker holds of each name the last event received
    since the last tick, and a tick hands over exactly those, once each: an
    event is handled unless a later one of its name replaced it before. *)
Lemma worker_holds t0 s0 l w :
  run t0 s0 l w →
  (∀ n, evmap w !! n = latest n (pending l)) ∧
  ∀ l1 t b l2, l = l1 ++ Tick t b :: l2 →
    NoDup (EvSubnatName <$> b) ∧
    ∀ ev, ev ∈ b ↔ latest (EvSubnatName ev) (pending l1) = Some ev.
Proof.
  intros Hr. split; [by eapply run_evmap|]. intros l1 t b l2 ->.
  apply run_inv in Hr as (w1 & w2 & Hr & Hs). pose proof (run_evmap _ _ _ _ Hr) as Hm.
  assert (Hk : ∀ n ev, evmap w1 !! n = Some ev → EvSubnatName ev = n)
    by (intros n ev; rewrite Hm; by intros [? _]%latest_name).
  inversion Hs; subst. split; [by apply batch_NoDup|].
  intros ev. by rewrite batch_elem, Hm.
Qed.
(** ** When it hands over *)
Definition label_time (a : label) : option Z :=
  match a with Recv t _ | Tick t _ => Some t | Quiet => None end.

Lemma run_times t0 s0 l w :
  run t0 s0 l w →
  (armed w ≤ clock w)%Z ∧ tickers w = Datatypes.S (length (filter turns l)) ∧
  ∀ a t, a ∈ l → label_time a = Some t → (t ≤ armed w)%Z.
Proof.
  induction 1 as [|l w a w' Hr (IH1 & IH2 & IH3) Hs].
  { split_and!; [done..|]. intros a t Ha. by apply not_elem_of_nil in Ha. }
  assert (Hone : length (filter turns [a]) = if turns a then 1%nat else 0%nat) by by destruct a.
  rewrite filter_app, length_app, Hone. destruct Hs; simpl in *; split_and!; try lia;
    intros b u [Hb|Hb%list_elem_of_singleton]%elem_of_app Hu;
    try (specialize (IH3 b u Hb Hu); lia); simplify_eq/=; lia.
Qed.

(** A tick is handed over only when no event was received in the 200 ms
    before it; then, while the worker runs, it can be.  Every event received
    and every tick leave one more ticker behind. *)
Lemma worker_debounces t0 s0 l w :
  run t0 s0 l w →
  (∀ l1 t b l2, l = l1 ++ Tick t b :: l2 →
     ∀ t' ev, Recv t' ev ∈ l1 → (t' + tick_period ≤ t)%Z) ∧
  (worker_status w = Running → ∀ t, (clock w ≤ t)%Z → (armed w + tick_period ≤ t)%Z →
     ∃ w', step w (Tick t (batch (evmap w))) w') ∧
  tickers w = Datatypes.S (length (filter turns l)).
Proof.
  intros Hr. split_and!.
  - intros l1 t b l2 -> t' ev Hin. apply run_inv in Hr as (w1 & w2 & Hr & Hs).
    apply run_times in Hr as (_ & _ & Hle). specialize (Hle _ t' Hin eq_refl).
    inversion Hs; subst. lia.
  - intros Hst t Hc Ht. destruct (handle_batch (batch (evmap w)) (shared w)) as [o s'] eqn:Ho.
    eexists. by eapply (work_tick w t t o s').
  - by destruct (run_times _ _ _ _ Hr) as (_ & ? & _).
Qed.

(** Events received 199 ms apart. *)
Definition every_199ms (t0 : Z) (evs : list subnatEvent) : list label :=
  imap (λ i ev, Recv (t0 + 199 * Z.of_nat (Datatypes.S i)) ev) evs.

Lemma every_199ms_snoc t0 evs ev :
  every_199ms t0 (evs ++ [ev]) =
  every_199ms t0 evs ++ [Recv (t0 + 199 * Z.of_nat (Datatypes.S (length evs))) ev].
Proof. unfold every_199ms. rewrite imap_app. simpl. by rewrite Nat.add_0_r. Qed.

Lemma worker_starves t0 s0 evs rest :
  ch (view s0) = Some (evs ++ rest) →
  ∃ w, run t0 s0 (every_199ms t0 evs) w ∧ pending (every_199ms t0 evs) = evs ∧
    worker_status w = Running ∧ ch (view (shared w)) = Some rest ∧
    clock w = (t0 + 199 * Z.of_nat (length evs))%Z.
Proof.
  revert rest. induction evs as [|ev evs IH] using rev_ind; intros rest Hch.
  { exists (started t0 s0). split_and!; [constructor|done..|simpl; lia]. }
  destruct (IH (ev :: rest)) as (w & Hr & Hp & Hst & Hw & Hc); [by rewrite Hch, <-app_assoc|].
  rewrite every_199ms_snoc. eexists. split_and!.
  - eapply run_step; [done|]. apply work_recv; [done|lia|done].
  - by rewrite pending_snoc, Hp.
  - done.
  - simpl. by rewrite view_put.
  - simpl. rewrite length_app. simpl. lia.
Qed.

(** C37. A tick is handed over only when no event was received in the 200 ms
    before it; after such a pause it can be, while the worker runs.  Every
    event and every tick leave one more ticker behind.  Events that come 199 ms
    apart, before the ticker is due, starve the ticks: however many wait, the
    worker can receive them all, hand over none, and still run. *)
Theorem worker_timing t0 s0 :
  (∀ l w, run t0 s0 l w →
     (∀ l1 t b l2, l = l1 ++ Tick t b :: l2 →
        ∀ t' ev, Recv t' ev ∈ l1 → (t' + tick_period ≤ t)%Z) ∧
     (worker_status w = Running → ∀ t, (clock w ≤ t)%Z → (armed w + tick_period ≤ t)%Z →
        ∃ w', step w (Tick t (batch (evmap w))) w') ∧
     tickers w = Datatypes.S (length (filter turns l))) ∧
  (199 < tick_period)%Z ∧
  (∀ evs, ch (view s0) = Some evs →
     ∃ w, run t0 s0 (every_199ms t0 evs) w ∧ pending (every_199ms t0 evs) = evs ∧
       worker_status w = Running).
Proof.
  split_and!; [intros l w; apply worker_debounces|done|]. intros evs Hevs.
  destruct (worker_starves t0 s0 evs []) as (w & ? & ? & ? & _); [by rewrite app_nil_r|].
  by exists w.
Qed.

(** Without a channel, as NewManager leaves it, the worker only turns. *)
Definition idle_label (a : label) : Prop := a = Quiet ∨ ∃ t, a = Tick t [].

Lemma nil_channel_run t0 s0 l w :
  (∀ s s', others s s' → ch (view s) = None → ch (view s') = None) →
  ch (view s0) = None → run t0 s0 l w →
  Forall idle_label l ∧ evmap w = ∅ ∧
  (worker_status w = Running ∨ worker_status w = Exited) ∧ ch (view (shared w)) = None.
Proof.
  intros Ho Hch. induction 1 as [|l w a w' Hr (IH1 & IH2 & IH3 & IH4) Hs]; [by auto|].
  assert (Hb : batch ∅ = []).
  { unfold batch. rewrite map_to_list_empty. simpl.
    apply Permutation_nil_r. by rewrite range_order_perm. }
  rewrite Forall_app, Forall_singleton. unfold idle_label at 2.
  destruct Hs as [w t ev rest Hst Ht Hc|w t t' o s' Hst Ht1 Ht2 Ht3 Hbatch|w t Hst Ht|w t s' Ht Hs];
    simpl; [congruence| |by auto|split_and!; by eauto].
  rewrite IH2, Hb in *. injection Hbatch as <- <-. split_and!; by eauto.
Qed.
End work.

(** ** The events of the subnets *)
Section events.
Context {S : Type} `{!RangeOrder, !Lens S manager, !KubeClient S Subnet_, !NamespaceLister S,
  !PoolManager S, !NodeManager S, !InfraClient S}.
Context (process : subnatEvent → go S unit) (others : S → S → Prop).

(** An event of a cached subnet, whose name is never written. *)
Definition computed (ev : subnatEvent) : Prop :=
  ∃ sn (s s' : S), SnInfoName sn = "" ∧ Vpc.getSubnatEvent sn s = (Ret ev, s').

Lemma computed_name ev : computed ev → EvSubnatName ev = "".
Proof.
  intros (sn & s & s' & Hn & Hr). unfold Vpc.getSubnatEvent in Hr.
  apply go_bind_inv in Hr as ([evs po] & s1 & _ & Hr). injection Hr as <- _. done.
Qed.

(** The key of the pending events is the name of the subnet, which is empty
    in every cached subnet: of the events of all subnets, the worker holds at
    most the last one, and a tick hands over no other. *)
Lemma one_subnet_survives t0 (s0 : S) l w :
  run process others t0 s0 l w → Forall computed (pending l) →
  evmap w = match last (pending l) with Some ev => {["" := ev]} | None => ∅ end ∧
  batch (evmap w) = option_list (last (pending l)).
Proof.
  intros Hr Hall. assert (Hnames : Forall (λ ev, EvSubnatName ev = "") (pending l)).
  { eapply Forall_impl; [exact Hall|]. apply computed_name. }
  assert (Hm : evmap w = match last (pending l) with Some ev => {["" := ev]} | None => ∅ end).
  { apply map_eq. intros n. rewrite (run_evmap _ _ _ _ _ _ Hr). unfold latest.
    destruct (decide (n = "")) as [->|Hn].
    - rewrite filter_all by exact Hnames.
      destruct (last (pending l)); [by rewrite lookup_singleton_eq|done].
    - rewrite filter_none; [destruct (last (pending l)); simpl;
        [by rewrite lookup_singleton_ne|by rewrite lookup_empty]|].
      eapply Forall_impl; [exact Hnames|]. intros ev Hev. simpl in *. congruence. }
  split; [done|]. rewrite Hm. unfold batch. destruct (last (pending l)) as [ev|].
  - rewrite map_to_list_singleton. simpl. apply Permutation_singleton_r, range_order_perm.
  - rewrite map_to_list_empty. simpl. apply Permutation_nil_r. by rewrite range_order_perm.
Qed.

(** C36. In every run, the worker holds of each name the last event received since
    the last tick, and a tick hands over exactly those, once each: an event is
    handled unless a later one of its name replaced it before.  But the events
    computed for cached subnets all have the empty name, so of the events of
    all subnets the next tick hands over the last one only. *)
Theorem worker_coalesces t0 (s0 : S) l w :
  run process others t0 s0 l w →
  (∀ n, evmap w !! n = latest n (pending l)) ∧
  (∀ l1 t b l2, l = l1 ++ Tick t b :: l2 →
    NoDup (EvSubnatName <$> b) ∧
    ∀ ev, ev ∈ b ↔ latest (EvSubnatName ev) (pending l1) = Some ev) ∧
  (Forall computed (pending l) → batch (evmap w) = option_list (last (pending l))).
Proof.
  intros Hr. destruct (worker_holds process others t0 s0 l w Hr) as [Hm Hb].
  split_and!; [exact Hm|exact Hb|]. intros Hall. by apply (one_subnet_survives t0 s0).
Qed.
End events.
End Work.
