(* ===== verification/DeepCopy.v ===== *)
(** * DeepCopy: copies of subnets in memory

    The other files treat an API object as a value.  Here it is what Go has: a
    struct with pointers, slices and maps into a heap.  Models
    pkg/k8s/apis/eni.io/v1alpha1/zz_generated.deepcopy.go with the metadata
    copies it calls in apimachinery, and the in-place [RemoveFinalizer] of
    controllerutil: a deep copy has the value of the original and shares no
    memory with it, so that the controllers may edit it and compute a patch
    against the original. *)
From S2P Require Import Prelude.
From S2P Require Import Objects.
From S2P Require Import Vpc.

Module DeepCopy.

(** ** Pointers, slices and maps *)
Notation loc := nat.

(** A pointer to an [A]; a slice of an array of [A]s, up to whose end its
    capacity reaches; a map from strings to strings. *)
Inductive ptr (A : Type) := Nil | Ptr (l : loc).
Inductive slice (A : Type) := NilSlice | Slice (arr : loc) (off len : nat).
Inductive gomap := NilMap | Map (l : loc).
#[global] Arguments Nil {A}.
#[global] Arguments Ptr {A} l.
#[global] Arguments NilSlice {A}.
#[global] Arguments Slice {A} arr off len.

(** ** The structs *)
Record FieldsV1 := { Raw : slice Byte.byte }.

Record ManagedFieldsEntry := {
  EntryManager : string; Operation : string; EntryAPIVersion : string; EntryTime : ptr Z;
  FieldsType : string; EntryFieldsV1 : ptr FieldsV1; Subresource : string
}.

Record OwnerReference := {
  OwnerAPIVersion : string; OwnerKind : string; OwnerName : string; OwnerUID : string;
  OwnerController : ptr bool; BlockOwnerDeletion : ptr bool
}.

(** Instants are integers: a [Time] is a value that is never changed. *)
Record ObjectMeta := {
  MetaName : string; GenerateName : string; MetaNamespace : string; MetaSelfLink : string;
  UID : string; MetaResourceVersion : string; Generation : Z; CreationTimestamp : Z;
  MetaDeletionTimestamp : ptr Z; DeletionGracePeriodSeconds : ptr Z; Labels : gomap;
  MetaAnnotations : gomap; OwnerReferences : slice OwnerReference; MetaFinalizers : slice string;
  ManagedFields : slice ManagedFieldsEntry
}.

Record TypeMeta := { Kind : string; APIVersion : string }.

Record ListMeta := {
  ListSelfLink : string; ListResourceVersion : string; Continue : string;
  RemainingItemCount : ptr Z
}.

Record SubnetSpec := {
  IPVersion : ptr Z; SpecSubnet : string; Vpc_ : string; Project : string;
  SpecPreAllocated : ptr Z; SpecMinAvaliable : ptr Z;
  NamespaceName : slice string; NodeName : slice string
}.

Record SubnetStatus := {
  SubnatName : ptr string; VpcName : ptr string; Gateway : ptr string; Cidr : ptr string;
  StatusNamespaceName : slice string; StatusNodeName : slice string
}.

Record Subnet := {
  SubnetTypeMeta : TypeMeta; SubnetObjectMeta : ObjectMeta; Spec : SubnetSpec;
  Status : SubnetStatus
}.

Record SubnetList := { ListTypeMeta : TypeMeta; ListListMeta : ListMeta; Items : slice Subnet }.

(** ** The heap *)
Inductive cell :=
  | CInt (z : Z) | CBool (b : bool) | CString (s : string) | CFields (f : FieldsV1)
  | CMap (m : gmap string string) | CBytes (l : list Byte.byte) | CStrings (l : list string)
  | COwners (l : list OwnerReference) | CEntries (l : list ManagedFieldsEntry)
  | CSubnets (l : list Subnet).

Notation heap := (gmap loc cell).

(** What a cell can hold. *)
Class Cell (A : Type) := {
  inj : A → cell;
  prj : cell → option A;
  prj_inj a : prj (inj a) = Some a
}.

#[export] Instance cell_int : Cell Z.
Proof. refine {| inj := CInt; prj c := if c is CInt z then Some z else None |}; done. Defined.
#[export] Instance cell_bool : Cell bool.
Proof. refine {| inj := CBool; prj c := if c is CBool z then Some z else None |}; done. Defined.
#[export] Instance cell_string : Cell string.
Proof. refine {| inj := CString; prj c := if c is CString z then Some z else None |}; done. Defined.
#[export] Instance cell_fields : Cell FieldsV1.
Proof. refine {| inj := CFields; prj c := if c is CFields z then Some z else None |}; done. Defined.
#[export] Instance cell_map : Cell (gmap string string).
Proof. refine {| inj := CMap; prj c := if c is CMap z then Some z else None |}; done. Defined.
#[export] Instance cell_bytes : Cell (list Byte.byte).
Proof. refine {| inj := CBytes; prj c := if c is CBytes z then Some z else None |}; done. Defined.
#[export] Instance cell_strings : Cell (list string).
Proof. refine {| inj := CStrings; prj c := if c is CStrings z then Some z else None |}; done. Defined.
#[export] Instance cell_owners : Cell (list OwnerReference).
Proof. refine {| inj := COwners; prj c := if c is COwners z then Some z else None |}; done. Defined.
#[export] Instance cell_entries : Cell (list ManagedFieldsEntry).
Proof. refine {| inj := CEntries; prj c := if c is CEntries z then Some z else None |}; done. Defined.
#[export] Instance cell_subnets : Cell (list Subnet).
Proof. refine {| inj := CSubnets; prj c := if c is CSubnets z then Some z else None |}; done. Defined.

(** The zero values of new memory. *)
Class Zero (A : Type) := zero : A.
#[export] Instance zero_int : Zero Z := 0%Z.
#[export] Instance zero_bool : Zero bool := false.
#[export] Instance zero_string : Zero string := "".
#[export] Instance zero_byte : Zero Byte.byte := Byte.x00.
#[export] Instance zero_fields : Zero FieldsV1 := {| Raw := NilSlice |}.
#[export] Instance zero_owner : Zero OwnerReference :=
  {| OwnerAPIVersion := ""; OwnerKind := ""; OwnerName := ""; OwnerUID := "";
     OwnerController := Nil; BlockOwnerDeletion := Nil |}.
#[export] Instance zero_entry : Zero ManagedFieldsEntry :=
  {| EntryManager := ""; Operation := ""; EntryAPIVersion := ""; EntryTime := Nil;
     FieldsType := ""; EntryFieldsV1 := Nil; Subresource := "" |}.
#[export] Instance zero_meta : Zero ObjectMeta :=
  {| MetaName := ""; GenerateName := ""; MetaNamespace := ""; MetaSelfLink := ""; UID := "";
     MetaResourceVersion := ""; Generation := 0; CreationTimestamp := 0;
     MetaDeletionTimestamp := Nil; DeletionGracePeriodSeconds := Nil; Labels := NilMap;
     MetaAnnotations := NilMap; OwnerReferences := NilSlice; MetaFinalizers := NilSlice;
     ManagedFields := NilSlice |}.
#[export] Instance zero_spec : Zero SubnetSpec :=
  {| IPVersion := Nil; SpecSubnet := ""; Vpc_ := ""; Project := ""; SpecPreAllocated := Nil;
     SpecMinAvaliable := Nil; NamespaceName := NilSlice; NodeName := NilSlice |}.
#[export] Instance zero_status : Zero SubnetStatus :=
  {| SubnatName := Nil; VpcName := Nil; Gateway := Nil; Cidr := Nil;
     StatusNamespaceName := NilSlice; StatusNodeName := NilSlice |}.
#[export] Instance zero_subnet : Zero Subnet :=
  {| SubnetTypeMeta := {| Kind := ""; APIVersion := "" |}; SubnetObjectMeta := zero;
     Spec := zero; Status := zero |}.

Section memory.
Context {A : Type} `{!Cell A}.

Definition load_at (l : loc) : go heap A := λ h,
  match h !! l ≫= prj with Some a => (Ret a, h) | None => (Panic NilDeref, h) end.
Definition store_at (l : loc) (a : A) : go heap unit := go_modify (<[l := inj a]>).
Definition alloc (a : A) : go heap loc := λ h,
  let l := fresh (dom h) in (Ret l, <[l := inj a]> h).
End memory.

(** ** The copies *)

(** [*out = new(A); **out = **in] *)
Definition copy_ptr {A} `{!Cell A, !Zero A} (p : ptr A) : go heap (ptr A) :=
  match p with
  | Nil => go_ret Nil
  | Ptr l =>
      let* l' := alloc zero in
      let* a := load_at l in
      store_at l' a ;;; go_ret (Ptr l')
  end.

(** The same through the [DeepCopyInto] of the struct behind the pointer. *)
Definition copy_ptr_into {A} `{!Cell A, !Zero A} (into : A → go heap A) (p : ptr A)
    : go heap (ptr A) :=
  match p with
  | Nil => go_ret Nil
  | Ptr l =>
      let* l' := alloc zero in
      let* a := load_at l in
      let* a' := into a in
      store_at l' a' ;;; go_ret (Ptr l')
  end.

(** [for i := range *in], from index [i] on, [n] elements. *)
Fixpoint fill {A} `{!Cell (list A)} (into : A → go heap A) (arr off arr' n i : nat)
    : go heap unit :=
  match n with
  | O => go_ret tt
  | Datatypes.S n =>
      let* l := load_at arr in
      match l !! (off + i)%nat with
      | None => go_panic IndexOutOfRange
      | Some a =>
          let* a' := into a in
          let* l' := load_at arr' in
          store_at arr' (<[i := a']> l') ;;;
          fill into arr off arr' n (Datatypes.S i)
      end
  end.

(** [*out = make([]A, len( *in))] and the copy of each element. *)
Definition copy_slice {A} `{!Cell (list A), !Zero A} (into : A → go heap A) (s : slice A)
    : go heap (slice A) :=
  match s with
  | NilSlice => go_ret NilSlice
  | Slice arr off len =>
      let* arr' := alloc (replicate len zero) in
      fill into arr off arr' len 0 ;;; go_ret (Slice arr' 0 len)
  end.

(** The builtin [copy] of elements without pointers. *)
Definition copy_flat {A} `{!Cell (list A), !Zero A} (s : slice A) : go heap (slice A) :=
  match s with
  | NilSlice => go_ret NilSlice
  | Slice arr off len =>
      let* arr' := alloc (replicate len (zero : A)) in
      let* l := load_at arr in
      let* l' := load_at arr' in
      let n := (length l' `min` len)%nat in
      store_at arr' (take n (drop off l) ++ drop n l') ;;; go_ret (Slice arr' 0 len)
  end.

(** [make(map[string]string)] and a loop over the entries. *)
Definition copy_map `{!RangeOrder} (m : gomap) : go heap gomap :=
  match m with
  | NilMap => go_ret NilMap
  | Map l =>
      let* l' := alloc (∅ : gmap string string) in
      let* src := load_at l in
      for_acc (range_order (map_to_list (src : gmap string string))) (λ _ kv,
        let* dst := load_at l' in store_at l' (<[kv.1 := kv.2]> (dst : gmap string string))) tt ;;;
      go_ret (Map l')
  end.

(** ** The generated functions

    [DeepCopyInto] answers the struct that it leaves in [*out]: a shallow copy
    of the receiver whose pointers, slices and maps are replaced. *)
Section generated.
Context `{!RangeOrder}.

Definition FieldsV1_DeepCopyInto (inn : FieldsV1) : go heap FieldsV1 :=
  let* raw := copy_flat (Raw inn) in go_ret {| Raw := raw |}.

Definition ManagedFieldsEntry_DeepCopyInto (inn : ManagedFieldsEntry) : go heap ManagedFieldsEntry :=
  let* t := copy_ptr (EntryTime inn) in
  let* f := copy_ptr_into FieldsV1_DeepCopyInto (EntryFieldsV1 inn) in
  go_ret {| EntryManager := EntryManager inn; Operation := Operation inn;
            EntryAPIVersion := EntryAPIVersion inn; EntryTime := t;
            FieldsType := FieldsType inn; EntryFieldsV1 := f; Subresource := Subresource inn |}.

Definition OwnerReference_DeepCopyInto (inn : OwnerReference) : go heap OwnerReference :=
  let* c := copy_ptr (OwnerController inn) in
  let* b := copy_ptr (BlockOwnerDeletion inn) in
  go_ret {| OwnerAPIVersion := OwnerAPIVersion inn; OwnerKind := OwnerKind inn;
            OwnerName := OwnerName inn; OwnerUID := OwnerUID inn;
            OwnerController := c; BlockOwnerDeletion := b |}.

Definition ObjectMeta_DeepCopyInto (inn : ObjectMeta) : go heap ObjectMeta :=
  let* d := copy_ptr (MetaDeletionTimestamp inn) in
  let* g := copy_ptr (DeletionGracePeriodSeconds inn) in
  let* ls := copy_map (Labels inn) in
  let* anns := copy_map (MetaAnnotations inn) in
  let* os := copy_slice OwnerReference_DeepCopyInto (OwnerReferences inn) in
  let* fs := copy_flat (MetaFinalizers inn) in
  let* ms := copy_slice ManagedFieldsEntry_DeepCopyInto (ManagedFields inn) in
  go_ret {| MetaName := MetaName inn; GenerateName := GenerateName inn;
            MetaNamespace := MetaNamespace inn; MetaSelfLink := MetaSelfLink inn;
            UID := UID inn; MetaResourceVersion := MetaResourceVersion inn;
            Generation := Generation inn; CreationTimestamp := CreationTimestamp inn;
            MetaDeletionTimestamp := d; DeletionGracePeriodSeconds := g; Labels := ls;
            MetaAnnotations := anns; OwnerReferences := os; MetaFinalizers := fs;
            ManagedFields := ms |}.

Definition ListMeta_DeepCopyInto (inn : ListMeta) : go heap ListMeta :=
  let* r := copy_ptr (RemainingItemCount inn) in
  go_ret {| ListSelfLink := ListSelfLink inn; ListResourceVersion := ListResourceVersion inn;
            Continue := Continue inn; RemainingItemCount := r |}.

Definition SubnetSpec_DeepCopyInto (inn : SubnetSpec) : go heap SubnetSpec :=
  let* v := copy_ptr (IPVersion inn) in
  let* p := copy_ptr (SpecPreAllocated inn) in
  let* m := copy_ptr (SpecMinAvaliable inn) in
  let* nss := copy_flat (NamespaceName inn) in
  let* nos := copy_flat (NodeName inn) in
  go_ret {| IPVersion := v; SpecSubnet := SpecSubnet inn; Vpc_ := Vpc_ inn;
            Project := Project inn; SpecPreAllocated := p; SpecMinAvaliable := m;
            NamespaceName := nss; NodeName := nos |}.

Definition SubnetStatus_DeepCopyInto (inn : SubnetStatus) : go heap SubnetStatus :=
  let* sn := copy_ptr (SubnatName inn) in
  let* v := copy_ptr (VpcName inn) in
  let* g := copy_ptr (Gateway inn) in
  let* c := copy_ptr (Cidr inn) in
  let* nss := copy_flat (StatusNamespaceName inn) in
  let* nos := copy_flat (StatusNodeName inn) in
  go_ret {| SubnatName := sn; VpcName := v; Gateway := g; Cidr := c;
            StatusNamespaceName := nss; StatusNodeName := nos |}.

Definition Subnet_DeepCopyInto (inn : Subnet) : go heap Subnet :=
  let* m := ObjectMeta_DeepCopyInto (SubnetObjectMeta inn) in
  let* sp := SubnetSpec_DeepCopyInto (Spec inn) in
  let* st := SubnetStatus_DeepCopyInto (Status inn) in
  go_ret {| SubnetTypeMeta := SubnetTypeMeta inn; SubnetObjectMeta := m; Spec := sp;
            Status := st |}.

Definition SubnetList_DeepCopyInto (inn : SubnetList) : go heap SubnetList :=
  let* m := ListMeta_DeepCopyInto (ListListMeta inn) in
  let* items := copy_slice Subnet_DeepCopyInto (Items inn) in
  go_ret {| ListTypeMeta := ListTypeMeta inn; ListListMeta := m; Items := items |}.

(** [DeepCopy]: nil for a nil receiver, else [out := new(T)] and
    [in.DeepCopyInto(out)].  The struct itself is not a cell: the answer is
    the struct behind the pointer.  [DeepCopyObject] answers the same value
    as an interface, nil when it is nil. *)
Definition deep_copy {A} (into : A → go heap A) (inn : option A) : go heap (option A) :=
  match inn with
  | None => go_ret None
  | Some inn => let* out := into inn in go_ret (Some out)
  end.

Definition Subnet_DeepCopy := deep_copy Subnet_DeepCopyInto.
Definition SubnetList_DeepCopy := deep_copy SubnetList_DeepCopyInto.
Definition SubnetSpec_DeepCopy := deep_copy SubnetSpec_DeepCopyInto.
Definition SubnetStatus_DeepCopy := deep_copy SubnetStatus_DeepCopyInto.

Definition Subnet_DeepCopyObject (inn : option Subnet) : go heap (option Subnet) :=
  let* c := Subnet_DeepCopy inn in
  match c with Some c => go_ret (Some c) | None => go_ret None end.
Definition SubnetList_DeepCopyObject (inn : option SubnetList) : go heap (option SubnetList) :=
  let* c := SubnetList_DeepCopy inn in
  match c with Some c => go_ret (Some c) | None => go_ret None end.
End generated.

(** ** Finalizers in memory

    [RemoveFinalizer] of controllerutil compacts the slice in place: [index]
    elements are kept of the first [i]. *)
Fixpoint remove_loop (arr off n i index : nat) (finalizer : string) : go heap nat :=
  match n with
  | O => go_ret index
  | Datatypes.S n =>
      let* f := load_at arr in
      match (f : list string) !! (off + i)%nat with
      | None => go_panic IndexOutOfRange
      | Some x =>
          if decide (x = finalizer) then remove_loop arr off n (Datatypes.S i) index finalizer
          else
            store_at arr (<[(off + index)%nat := x]> f) ;;;
            remove_loop arr off n (Datatypes.S i) (Datatypes.S index) finalizer
      end
  end.

Definition set_finalizers (f : slice string) (m : ObjectMeta) : ObjectMeta :=
  {| MetaName := MetaName m; GenerateName := GenerateName m; MetaNamespace := MetaNamespace m;
     MetaSelfLink := MetaSelfLink m; UID := UID m; MetaResourceVersion := MetaResourceVersion m;
     Generation := Generation m; CreationTimestamp := CreationTimestamp m;
     MetaDeletionTimestamp := MetaDeletionTimestamp m;
     DeletionGracePeriodSeconds := DeletionGracePeriodSeconds m; Labels := Labels m;
     MetaAnnotations := MetaAnnotations m; OwnerReferences := OwnerReferences m;
     MetaFinalizers := f; ManagedFields := ManagedFields m |}.

Definition remove_finalizer (m : ObjectMeta) (finalizer : string) : go heap (ObjectMeta * bool) :=
  match MetaFinalizers m with
  | NilSlice => go_ret (m, false)
  | Slice arr off len =>
      let* index := remove_loop arr off len 0 0 finalizer in
      go_ret (set_finalizers (Slice arr off index) m, negb (bool_decide (len = index)))
  end.

Definition set_meta (m : ObjectMeta) (s : Subnet) : Subnet :=
  {| SubnetTypeMeta := SubnetTypeMeta s; SubnetObjectMeta := m; Spec := Spec s;
     Status := Status s |}.

(** What the subnet controller does before its patch (vpc.go, 169 and 170):
    [inCopy := in.DeepCopy(); controllerutil.RemoveFinalizer(inCopy, ...)]. *)
Definition copy_without_finalizer `{!RangeOrder} (inn : Subnet) (finalizer : string)
    : go heap Subnet :=
  let* c := Subnet_DeepCopy (Some inn) in
  match c with
  | None => go_panic NilDeref
  | Some c =>
      let* r := remove_finalizer (SubnetObjectMeta c) finalizer in
      go_ret (set_meta r.1 c)
  end.
End DeepCopy.
