(* ===== verification/DeepCopyFacts.v ===== *)
(** * DeepCopyFacts: a deep copy shares nothing

    What a piece of memory means, the contract of a copy, its proof for every
    pointer, slice, map and struct that the generated functions copy, and
    what follows for the controllers: the copy can be edited in place and the
    original is still the object that was read. *)
From S2P Require Import Prelude.
From S2P Require Import Objects.
From S2P Require Import Vpc.
From S2P Require Import DeepCopy.

Module DeepCopyFacts.
Import DeepCopy.

(** ** What memory means

    The value of a piece of memory, with the locations it is made of, when
    every location is there. *)
Notation viewer A D := (heap → A → option (D * list loc)).

Definition view_flat {A} : viewer A A := λ _ a, Some (a, []).

Definition view_pair {A B D E} (v : viewer A D) (w : viewer B E) : viewer (A * B) (D * E) :=
  λ h p, '(d, fp) ← v h p.1; '(e, fq) ← w h p.2; Some ((d, e), fp ++ fq).

Definition view_ptr {A D} `{!Cell A} (v : viewer A D) : viewer (ptr A) (option D) := λ h p,
  match p with
  | Nil => Some (None, [])
  | Ptr l => a ← h !! l ≫= prj; '(d, fp) ← v h a; Some (Some d, l :: fp)
  end.

Definition view_map : viewer gomap (option (gmap string string)) := λ h m,
  match m with
  | NilMap => Some (None, [])
  | Map l => m ← h !! l ≫= prj; Some (Some m, [l])
  end.

Fixpoint view_list {A D} (v : viewer A D) (h : heap) (l : list A) : option (list D * list loc) :=
  match l with
  | [] => Some ([], [])
  | a :: l => '(d, fp) ← v h a; '(ds, fq) ← view_list v h l; Some (d :: ds, fp ++ fq)
  end.

Definition view_slice {A D} `{!Cell (list A)} (v : viewer A D) : viewer (slice A) (option (list D)) :=
  λ h s,
  match s with
  | NilSlice => Some (None, [])
  | Slice arr off len =>
      l ← h !! arr ≫= prj;
      if decide (off + len ≤ length l)%nat then
        '(ds, fp) ← view_list v h (take len (drop off l)); Some (Some ds, arr :: fp)
      else None
  end.

(** The contract of a copy: the value is kept, nothing that was there
    changes, and the memory of the copy is new, each location used once. *)
Record copier {A D} (v : viewer A D) (into : A → go heap A) : Prop := {
  view_frame h h' a d fp :
    v h a = Some (d, fp) → (∀ l, l ∈ fp → h' !! l = h !! l) → v h' a = Some (d, fp);
  view_dom h a d fp l : v h a = Some (d, fp) → l ∈ fp → l ∈ dom h;
  into_copies h a d fp :
    v h a = Some (d, fp) →
    ∃ a' h' fp', into a h = (Ret a', h') ∧ h ⊆ h' ∧ v h' a' = Some (d, fp') ∧
      NoDup fp' ∧ ∀ l, l ∈ fp' → l ∉ dom h
}.

(** ** The copies keep the contract *)
Lemma lookup_new (h h' : heap) l : h ⊆ h' → l ∈ dom h → h' !! l = h !! l.
Proof.
  intros Hh [c Hc]%elem_of_dom. rewrite Hc. by eapply lookup_weaken.
Qed.

Lemma not_new (h h' : heap) l : h ⊆ h' → l ∉ dom h' → l ∉ dom h.
Proof. intros Hh%subseteq_dom. set_solver. Qed.

Lemma view_mono {A D} (v : viewer A D) into h h' a d fp :
  copier v into → h ⊆ h' → v h a = Some (d, fp) → v h' a = Some (d, fp).
Proof.
  intros Hc Hh Hv. eapply view_frame; [done..|]. intros l Hl.
  by eapply lookup_new, view_dom.
Qed.

Lemma view_pair_inv {A B D E} (v : viewer A D) (w : viewer B E) h a b x fp :
  view_pair v w h (a, b) = Some (x, fp) →
  ∃ d e fa fb, v h a = Some (d, fa) ∧ w h b = Some (e, fb) ∧ x = (d, e) ∧ fp = fa ++ fb.
Proof.
  unfold view_pair; simpl. intros Hv. apply bind_Some in Hv as ([d fa] & Ha & Hv).
  apply bind_Some in Hv as ([e fb] & Hb & [= <- <-]). by exists d, e, fa, fb.
Qed.

Lemma view_pair_intro {A B D E} (v : viewer A D) (w : viewer B E) h a b d e fa fb :
  v h a = Some (d, fa) → w h b = Some (e, fb) →
  view_pair v w h (a, b) = Some ((d, e), fa ++ fb).
Proof. intros Ha Hb. unfold view_pair; simpl. by rewrite Ha; simpl; rewrite Hb. Qed.

(** A value keeps when only the locations [ls] were written. *)
Lemma view_away {A D} (v : viewer A D) into h h' (ls : list loc) a d fp :
  copier v into → (∀ k, k ∉ ls → h' !! k = h !! k) → (∀ k, k ∈ fp → k ∉ ls) →
  v h a = Some (d, fp) → v h' a = Some (d, fp).
Proof. intros Hc Hh Hl Hv. eapply view_frame; [done..|]. intros k Hk. by apply Hh, Hl. Qed.

Lemma alloc_run {A} `{!Cell A} (a : A) h :
  ∃ l, alloc a h = (Ret l, <[l := inj a]> h) ∧ l ∉ dom h ∧ h ⊆ <[l := inj a]> h.
Proof.
  exists (fresh (dom h)). pose proof (is_fresh (dom h)) as Hf. split_and!; [done..|].
  by apply insert_subseteq, not_elem_of_dom.
Qed.

Lemma cell_load_run {A} `{!Cell A} l (a : A) h :
  h !! l = Some (inj a) → load_at l h = (Ret a, h).
Proof. intros Hl. unfold load_at. by rewrite Hl; simpl; rewrite prj_inj. Qed.

Lemma load_prj {A} `{!Cell A} l (a : A) h :
  h !! l ≫= prj = Some a → load_at l h = (Ret a, h).
Proof. intros Hl. unfold load_at. by rewrite Hl. Qed.

Lemma load_insert {A} `{!Cell A} l (a : A) (h : heap) :
  load_at l (<[l := inj a]> h) = (Ret a, <[l := inj a]> h).
Proof. apply cell_load_run, lookup_insert_eq. Qed.

Lemma flat_copier {A} : copier (@view_flat A) go_ret.
Proof.
  split.
  - done.
  - intros h a d fp l [= _ <-] Hl. by apply not_elem_of_nil in Hl.
  - intros h a d fp [= <- <-]. exists a, h, []. split_and!; try done; [constructor|].
    intros l Hl. by apply not_elem_of_nil in Hl.
Qed.

Lemma pair_copier {A B D E} (v : viewer A D) (w : viewer B E) i j :
  copier v i → copier w j →
  copier (view_pair v w) (λ p, let* a := i p.1 in let* b := j p.2 in go_ret (a, b)).
Proof.
  intros Hi Hj. unfold view_pair. split.
  - intros h h' [a b] de fp Hv Hh; simpl in *.
    apply bind_Some in Hv as ([d fa] & Ha & Hv). apply bind_Some in Hv as ([e fb] & Hb & [= <- <-]).
    rewrite (view_frame _ _ Hi h h' a d fa) by (set_solver || done). simpl.
    by rewrite (view_frame _ _ Hj h h' b e fb) by (set_solver || done).
  - intros h [a b] de fp l Hv Hl; simpl in *.
    apply bind_Some in Hv as ([d fa] & Ha & Hv). apply bind_Some in Hv as ([e fb] & Hb & [= <- <-]).
    apply elem_of_app in Hl as [Hl|Hl]; [by eapply (view_dom _ _ Hi)|by eapply (view_dom _ _ Hj)].
  - intros h [a b] de fp Hv; simpl in *.
    apply bind_Some in Hv as ([d fa] & Ha & Hv). apply bind_Some in Hv as ([e fb] & Hb & [= <- <-]).
    destruct (into_copies _ _ Hi h a d fa Ha) as (a' & h1 & fa' & Hra & Hh1 & Hva & Hna & Hfa).
    apply (view_mono w j h h1) in Hb; [|done..].
    destruct (into_copies _ _ Hj h1 b e fb Hb) as (b' & h2 & fb' & Hrb & Hh2 & Hvb & Hnb & Hfb).
    exists (a', b'), h2, (fa' ++ fb'). split_and!.
    + unfold go_bind. by rewrite Hra, Hrb.
    + by etransitivity.
    + simpl. rewrite (view_mono v i h1 h2 a' d fa' Hi Hh2 Hva). simpl. by rewrite Hvb.
    + apply NoDup_app. split_and!; [done| |done]. intros l Hl Hl'. apply (Hfb l Hl').
      by eapply (view_dom _ _ Hi).
    + intros l [Hl|Hl]%elem_of_app; [by apply Hfa|]. by eapply not_new; [|apply Hfb].
Qed.

(** A struct is copied as the tuple of its fields. *)
Lemma iso_copier {A B D} (to : A → B) (from : B → A) (v : viewer B D) i (into : A → go heap A) :
  copier v i → (∀ b, to (from b) = b) →
  (∀ a h, into a h = (let* b := i (to a) in go_ret (from b)) h) →
  copier (λ h a, v h (to a)) into.
Proof.
  intros Hi Hto Hinto. split.
  - intros h h' a. apply (view_frame _ _ Hi).
  - intros h a. apply (view_dom _ _ Hi).
  - intros h a d fp Hv.
    destruct (into_copies _ _ Hi h _ d fp Hv) as (b & h' & fp' & Hr & Hh & Hv' & ? & ?).
    exists (from b), h', fp'. split_and!; try done; [|by rewrite Hto].
    rewrite Hinto. unfold go_bind. by rewrite Hr.
Qed.

Lemma ptr_into_copier {A D} `{!Cell A, !Zero A} (v : viewer A D) into :
  copier v into → copier (view_ptr v) (copy_ptr_into into).
Proof.
  intros Hi. split.
  - intros h h' [|l] d fp Hv Hh; [done|]. simpl in *.
    apply bind_Some in Hv as (a & Ha & Hv). apply bind_Some in Hv as ([e fa] & Hva & [= <- <-]).
    rewrite (Hh l) by set_solver. rewrite Ha. simpl.
    by rewrite (view_frame _ _ Hi h h' a e fa) by (set_solver || done).
  - intros h [|l'] d fp l Hv Hl; simpl in *.
    { injection Hv as <- <-. by apply not_elem_of_nil in Hl. }
    apply bind_Some in Hv as (a & Ha & Hv). apply bind_Some in Hv as ([e fa] & Hva & [= <- <-]).
    apply elem_of_cons in Hl as [->|Hl]; [|by eapply (view_dom _ _ Hi)].
    apply bind_Some in Ha as (c & Hc & _). by apply elem_of_dom_2 in Hc.
  - intros h [|l] d fp Hv.
    { exists Nil, h, []. injection Hv as <- <-. split_and!; try done; [constructor|].
      intros l Hl. by apply not_elem_of_nil in Hl. }
    simpl in Hv. apply bind_Some in Hv as (a & Ha & Hv).
    apply bind_Some in Hv as ([e fa] & Hva & [= <- <-]).
    destruct (alloc_run (A:=A) zero h) as (l' & Hal & Hl' & Hh1).
    set (h1 := <[l' := _]> h) in *.
    assert (Hl1 : h1 !! l ≫= prj = Some a).
    { rewrite (lookup_new h h1); [done..|]. apply bind_Some in Ha as (c & Hc & _).
      by apply elem_of_dom_2 in Hc. }
    apply (view_mono v into h h1) in Hva; [|done..].
    destruct (into_copies _ _ Hi h1 a e fa Hva) as (a' & h2 & fa' & Hr & Hh2 & Hv2 & Hn & Hf).
    assert (Hl2 : l' ∉ fa').
    { intros Hin. apply (Hf l' Hin). apply elem_of_dom. eexists. apply lookup_insert_eq. }
    exists (Ptr l'), (<[l' := inj a']> h2), (l' :: fa'). split_and!.
    + unfold copy_ptr_into, go_bind. rewrite Hal. fold h1. by rewrite (load_prj l a h1 Hl1), Hr.
    + apply insert_subseteq_r; [by apply not_elem_of_dom|by etransitivity].
    + simpl. rewrite lookup_insert_eq. simpl. rewrite prj_inj. simpl.
      rewrite (view_frame _ _ Hi h2 _ a' e fa'); [done..|].
      intros k Hk. rewrite lookup_insert_ne; [done|]. by intros ->.
    + by constructor.
    + intros k [->|Hk]%elem_of_cons; [done|]. by eapply not_new, Hf.
Qed.

Lemma ptr_copier {A} `{!Cell A, !Zero A} : copier (view_ptr (@view_flat A)) copy_ptr.
Proof.
  pose proof (ptr_into_copier (@view_flat A) go_ret flat_copier) as [H1 H2 H3]. by split.
Qed.

(** *** Slices *)
Section lists.
Context {A D : Type} (v : viewer A D) (into : A → go heap A) (Hi : copier v into).

Lemma view_list_frame h h' l ds fp :
  view_list v h l = Some (ds, fp) → (∀ k, k ∈ fp → h' !! k = h !! k) →
  view_list v h' l = Some (ds, fp).
Proof.
  revert ds fp. induction l as [|a l IH]; intros ds fp Hv Hh; [done|]. simpl in *.
  apply bind_Some in Hv as ([d fa] & Ha & Hv). apply bind_Some in Hv as ([es fl] & Hl & [= <- <-]).
  rewrite (view_frame _ _ Hi h h' a d fa) by (set_solver || done). simpl.
  by rewrite (IH es fl) by (set_solver || done).
Qed.

Lemma view_list_dom h l ds fp k : view_list v h l = Some (ds, fp) → k ∈ fp → k ∈ dom h.
Proof.
  revert ds fp. induction l as [|a l IH]; intros ds fp Hv Hk; simpl in *.
  { injection Hv as <- <-. by apply not_elem_of_nil in Hk. }
  apply bind_Some in Hv as ([d fa] & Ha & Hv). apply bind_Some in Hv as ([es fl] & Hl & [= <- <-]).
  apply elem_of_app in Hk as [Hk|Hk]; [by eapply (view_dom _ _ Hi)|by eapply IH].
Qed.

Lemma view_list_mono h h' l ds fp :
  h ⊆ h' → view_list v h l = Some (ds, fp) → view_list v h' l = Some (ds, fp).
Proof.
  intros Hh Hv. eapply view_list_frame; [done|]. intros k Hk.
  by eapply lookup_new, view_list_dom.
Qed.

Lemma view_list_snoc h l a ds fp d fa :
  view_list v h l = Some (ds, fp) → v h a = Some (d, fa) →
  view_list v h (l ++ [a]) = Some (ds ++ [d], fp ++ fa).
Proof.
  revert ds fp. induction l as [|b l IH]; intros ds fp Hl Ha; simpl in *.
  { injection Hl as <- <-. rewrite Ha. simpl. by rewrite app_nil_r. }
  apply bind_Some in Hl as ([e fb] & Hb & Hl). apply bind_Some in Hl as ([es fl] & Hl & [= <- <-]).
  rewrite Hb. simpl. rewrite (IH es fl) by done. simpl. by rewrite <-app_assoc.
Qed.

Context `{!Cell (list A), !Zero A}.

(** One turn of the loop: the first elements are copied, [don] in the array
    [arr']. *)
Lemma copy_element (h0 h : heap) arr' i n don ds fp a e fa :
  h0 ⊆ h → arr' ∉ dom h0 →
  h !! arr' = Some (inj (don ++ replicate (Datatypes.S n) zero)) → length don = i →
  view_list v h don = Some (ds, fp) → NoDup (arr' :: fp) → (∀ k, k ∈ fp → k ∉ dom h0) →
  v h a = Some (e, fa) →
  ∃ a' h1 fa', into a h = (Ret a', h1) ∧
    h1 !! arr' = Some (inj (don ++ replicate (Datatypes.S n) zero)) ∧
    let h2 := <[arr' := inj (<[i := a']> (don ++ replicate (Datatypes.S n) zero))]> h1 in
    h0 ⊆ h2 ∧ h2 !! arr' = Some (inj ((don ++ [a']) ++ replicate n zero)) ∧
    view_list v h2 (don ++ [a']) = Some (ds ++ [e], fp ++ fa') ∧
    NoDup (arr' :: fp ++ fa') ∧ (∀ k, k ∈ fp ++ fa' → k ∉ dom h0).
Proof.
  intros Hh Hnew Harr' Hdon Hds Hnd Hf Hva.
  destruct (into_copies _ _ Hi h a e fa Hva) as (a' & h1 & fa' & Hr & Hh1 & Hv1 & Hn1 & Hf1).
  assert (Hin : arr' ∈ dom h) by by apply elem_of_dom_2 in Harr'.
  apply NoDup_cons in Hnd as [Hnot Hnd].
  exists a', h1, fa'. split; [done|]. split; [by rewrite (lookup_new h h1)|]. cbv zeta.
  split_and!.
  - apply insert_subseteq_r; [by apply not_elem_of_dom|by etransitivity].
  - rewrite lookup_insert_eq, insert_app_r_alt, Hdon, Nat.sub_diag by lia. simpl.
    by rewrite <-app_assoc.
  - apply view_list_snoc.
    + eapply view_list_frame; [exact Hds|]. intros k Hk.
      rewrite lookup_insert_ne by (by intros <-). apply lookup_new; [done|].
      by eapply view_list_dom.
    + eapply (view_frame _ _ Hi); [exact Hv1|]. intros k Hk.
      rewrite lookup_insert_ne; [done|]. intros <-. by apply (Hf1 arr').
  - apply NoDup_cons. split.
    + intros [Hk|Hk]%elem_of_app; [done|]. by apply (Hf1 arr').
    + apply NoDup_app. split_and!; [done| |done]. intros k Hk Hk'. apply (Hf1 k Hk').
      by eapply view_list_dom.
  - intros k [Hk|Hk]%elem_of_app; [by apply Hf|]. by eapply not_new, Hf1.
Qed.

(** A cell that is still what it was. *)
Lemma load_new {B} `{!Cell B} (h h' : heap) l (b : B) :
  h ⊆ h' → h !! l ≫= prj = Some b → load_at l h' = (Ret b, h').
Proof.
  intros Hh Hl. apply load_prj. rewrite (lookup_new h h'); [done..|].
  apply bind_Some in Hl as (c & Hc & _). by apply elem_of_dom_2 in Hc.
Qed.

Lemma copy_elements_run (h0 : heap) arr (l : list A) off arr' n : ∀ i h don ds fp es fq,
  h0 !! arr ≫= prj = Some l → (off + i + n ≤ length l)%nat →
  view_list v h0 (take n (drop (off + i) l)) = Some (es, fq) →
  h0 ⊆ h → arr' ∉ dom h0 →
  h !! arr' = Some (inj (don ++ replicate n zero)) → length don = i →
  view_list v h don = Some (ds, fp) → NoDup (arr' :: fp) → (∀ k, k ∈ fp → k ∉ dom h0) →
  ∃ h' don' fp', fill into arr off arr' n i h = (Ret tt, h') ∧ h0 ⊆ h' ∧
    h' !! arr' = Some (inj don') ∧ length don' = (i + n)%nat ∧
    view_list v h' don' = Some (ds ++ es, fp') ∧
    NoDup (arr' :: fp') ∧ (∀ k, k ∈ fp' → k ∉ dom h0).
Proof.
  induction n as [|n IH]; intros i h don ds fp es fq Harr Hlen Hes Hh Hnew Harr' Hdon Hds Hnd Hf.
  { rewrite take_0 in Hes. injection Hes as <- <-. exists h, don, fp. rewrite !app_nil_r in *.
    rewrite Nat.add_0_r. split_and!; done. }
  destruct (lookup_lt_is_Some_2 l (off + i)) as [a Ha]; [lia|].
  rewrite (drop_S _ a) in Hes by done. simpl in Hes.
  apply bind_Some in Hes as ([e fa] & Hva & Hes).
  apply bind_Some in Hes as ([es' fl] & Hes & [= <- <-]).
  apply (view_mono v into h0 h) in Hva; [|done..].
  destruct (copy_element h0 h arr' i n don ds fp a e fa)
    as (a' & h1 & fa' & Hr & Harr1 & Hh2 & Harr2 & Hv2 & Hn2 & Hf2); [done..|].
  set (h2 := <[arr' := inj (<[i := a']> _)]> h1) in *.
  destruct (IH (Datatypes.S i) h2 (don ++ [a']) (ds ++ [e]) (fp ++ fa') es' fl Harr)
    as (h' & don' & fp' & Hrun & ? & ? & ? & Hv' & ? & ?);
    [lia|by rewrite Nat.add_succ_r|done|done|exact Harr2|rewrite length_app; simpl; lia|done..|].
  exists h', don', fp'. split_and!; try done; [|lia|by rewrite <-app_assoc in Hv'].
  simpl. unfold go_bind at 1. rewrite (load_new h0 h arr l Hh Harr), Ha.
  unfold go_bind at 1. rewrite Hr. unfold go_bind at 1.
  rewrite (cell_load_run arr' _ h1 Harr1). exact Hrun.
Qed.

Lemma slice_copier : copier (view_slice v) (copy_slice into).
Proof.
  split.
  - intros h h' [|arr off len] d fp Hv Hh; [done|]. simpl in *.
    apply bind_Some in Hv as (l & Hl & Hv). case_decide as Hlen; [|done].
    apply bind_Some in Hv as ([ds fq] & Hds & [= <- <-]).
    rewrite (Hh arr) by set_solver. rewrite Hl. simpl. rewrite decide_True by done.
    by rewrite (view_list_frame h h' _ ds fq) by (set_solver || done).
  - intros h [|arr off len] d fp k Hv Hk; simpl in *.
    { injection Hv as <- <-. by apply not_elem_of_nil in Hk. }
    apply bind_Some in Hv as (l & Hl & Hv). case_decide as Hlen; [|done].
    apply bind_Some in Hv as ([ds fq] & Hds & [= <- <-]).
    apply elem_of_cons in Hk as [->|Hk]; [|by eapply view_list_dom].
    apply bind_Some in Hl as (c & Hc & _). by apply elem_of_dom_2 in Hc.
  - intros h [|arr off len] d fp Hv.
    { exists NilSlice, h, []. injection Hv as <- <-. split_and!; try done; [constructor|].
      intros l Hl. by apply not_elem_of_nil in Hl. }
    simpl in Hv. apply bind_Some in Hv as (l & Hl & Hv). case_decide as Hlen; [|done].
    apply bind_Some in Hv as ([ds fq] & Hds & [= <- <-]).
    destruct (alloc_run (A:=list A) (replicate len zero) h) as (l' & Hal & Hl' & Hh1).
    destruct (copy_elements_run h arr l off l' len 0 (<[l' := inj (replicate len zero)]> h) [] [] [] ds fq)
      as (h2 & don & fp' & Hrun & Hh2 & Hlk & Hld & Hv2 & Hnd & Hf); try done.
    + lia.
    + by rewrite Nat.add_0_r.
    + by rewrite lookup_insert_eq.
    + apply NoDup_singleton.
    + intros k Hk. by apply not_elem_of_nil in Hk.
    + exists (Slice l' 0 len), h2, (l' :: fp'). split_and!; try done.
      * unfold copy_slice, go_bind. by rewrite Hal, Hrun.
      * simpl. rewrite Hlk. simpl. rewrite prj_inj. simpl. rewrite decide_True by lia.
        rewrite drop_0, firstn_all2 by lia. by rewrite Hv2.
      * intros k [->|Hk]%elem_of_cons; [done|by apply Hf].
Qed.
End lists.

Lemma view_list_flat {A} h (l : list A) : view_list view_flat h l = Some (l, []).
Proof. induction l as [|a l IH]; [done|]. simpl. by rewrite IH. Qed.

Lemma flat_slice_copier {A} `{!Cell (list A), !Zero A} :
  copier (view_slice (@view_flat A)) copy_flat.
Proof.
  destruct (slice_copier (@view_flat A) go_ret flat_copier) as [H1 H2 _]. split; [done..|].
  intros h [|arr off len] d fp Hv.
  { exists NilSlice, h, []. injection Hv as <- <-. split_and!; try done; [constructor|].
    intros l Hl. by apply not_elem_of_nil in Hl. }
  simpl in Hv. apply bind_Some in Hv as (l & Hl & Hv). case_decide as Hlen; [|done].
  rewrite view_list_flat in Hv. injection Hv as <- <-.
  destruct (alloc_run (A:=list A) (replicate len zero) h) as (l' & Hal & Hl' & Hh1).
  exists (Slice l' 0 len), (<[l' := inj (take len (drop off l))]> h), [l']. split_and!.
  - unfold copy_flat, go_bind. rewrite Hal, (load_new h _ arr l Hh1 Hl), load_insert.
    unfold store_at, go_modify. simpl.
    rewrite length_replicate, Nat.min_id, (drop_ge (replicate len zero)), app_nil_r
      by (rewrite length_replicate; lia).
    by rewrite insert_insert_eq.
  - by apply insert_subseteq, not_elem_of_dom.
  - simpl. rewrite lookup_insert_eq. simpl. rewrite prj_inj. simpl.
    rewrite decide_True by (rewrite length_take, length_drop; lia).
    rewrite drop_0, take_take, Nat.min_id. by rewrite view_list_flat.
  - apply NoDup_singleton.
  - intros k ->%list_elem_of_singleton. done.
Qed.

(** *** Maps *)
Lemma foldl_insert (es : list (string * string)) (m : gmap string string) :
  NoDup (fst <$> es) → foldl (λ d kv, <[kv.1 := kv.2]> d) m es = list_to_map es ∪ m.
Proof.
  revert m. induction es as [|[k x] es IH]; intros m Hnd; simpl; [by rewrite (left_id_L ∅ (∪))|].
  apply NoDup_cons in Hnd as [Hk Hnd]. rewrite IH by done. simpl.
  rewrite <-insert_union_r by (by apply not_elem_of_list_to_map_1). by rewrite insert_union_l.
Qed.

Lemma range_order_map `{!RangeOrder} (m : gmap string string) :
  foldl (λ d kv, <[kv.1 := kv.2]> d) ∅ (range_order (map_to_list m)) = m.
Proof.
  assert (Hnd : NoDup (fst <$> range_order (map_to_list m))).
  { rewrite range_order_perm. apply NoDup_fst_map_to_list. }
  rewrite foldl_insert, (right_id_L ∅ (∪)) by done.
  rewrite (list_to_map_proper _ (map_to_list m)) by (done || apply range_order_perm).
  apply list_to_map_to_list.
Qed.

Lemma map_copier `{!RangeOrder} : copier view_map copy_map.
Proof.
  split.
  - intros h h' [|l] d fp Hv Hh; [done|]. simpl in *.
    apply bind_Some in Hv as (m & Hm & [= <- <-]). rewrite (Hh l) by set_solver. by rewrite Hm.
  - intros h [|l] d fp k Hv Hk; simpl in *.
    { injection Hv as <- <-. by apply not_elem_of_nil in Hk. }
    apply bind_Some in Hv as (m & Hm & [= <- <-]). apply list_elem_of_singleton in Hk as ->.
    apply bind_Some in Hm as (c & Hc & _). by apply elem_of_dom_2 in Hc.
  - intros h [|l] d fp Hv.
    { exists NilMap, h, []. injection Hv as <- <-. split_and!; try done; [constructor|].
      intros l Hl. by apply not_elem_of_nil in Hl. }
    unfold view_map in Hv. apply bind_Some in Hv as (m & Hm & [= <- <-]).
    destruct (alloc_run (A:=gmap string string) ∅ h) as (l' & Hal & Hl' & Hh1).
    assert (Hloop : ∀ (es : list (string * string)) (dst : gmap string string),
      for_acc es (λ _ kv, let* dst := load_at l' in
          store_at l' (<[kv.1 := kv.2]> (dst : gmap string string))) tt
        (<[l' := inj dst]> h) =
      (Ret tt, <[l' := inj (foldl (λ d kv, <[kv.1 := kv.2]> d) dst es)]> h)).
    { induction es as [|kv es IH]; intros dst; [done|].
      cbn [for_acc foldl]. unfold go_bind. rewrite load_insert. unfold store_at, go_modify.
      rewrite insert_insert_eq. apply IH. }
    exists (Map l'), (<[l' := inj m]> h), [l']. split_and!.
    + unfold copy_map, go_bind. rewrite Hal, (load_new h _ l m Hh1 Hm).
      by rewrite Hloop, range_order_map.
    + by apply insert_subseteq, not_elem_of_dom.
    + simpl. by rewrite lookup_insert_eq.
    + apply NoDup_singleton.
    + intros k ->%list_elem_of_singleton. done.
Qed.

(** *** The structs, as the tuples of their fields *)
Ltac by_fields :=
  intros; unfold go_bind, go_ret; simpl; repeat (case_match; simplify_eq/=); done.

#[local] Notation vp := (view_ptr view_flat).
#[local] Notation vs := (view_slice view_flat).

Definition view_fields : viewer FieldsV1 _ := λ h f, vs h (Raw f).
Definition view_entry : viewer ManagedFieldsEntry _ := λ h e,
  view_pair view_flat (view_pair vp (view_ptr view_fields)) h
    ((EntryManager e, Operation e, EntryAPIVersion e, FieldsType e, Subresource e),
     (EntryTime e, EntryFieldsV1 e)).
Definition view_owner : viewer OwnerReference _ := λ h o,
  view_pair view_flat (view_pair vp vp) h
    ((OwnerAPIVersion o, OwnerKind o, OwnerName o, OwnerUID o),
     (OwnerController o, BlockOwnerDeletion o)).
Definition view_meta : viewer ObjectMeta _ := λ h m,
  view_pair view_flat (view_pair vp (view_pair vp (view_pair view_map (view_pair view_map
    (view_pair (view_slice view_owner) (view_pair vs (view_slice view_entry))))))) h
    ((MetaName m, GenerateName m, MetaNamespace m, MetaSelfLink m, UID m, MetaResourceVersion m,
      Generation m, CreationTimestamp m),
     (MetaDeletionTimestamp m, (DeletionGracePeriodSeconds m, (Labels m, (MetaAnnotations m,
       (OwnerReferences m, (MetaFinalizers m, ManagedFields m))))))).
Definition view_spec : viewer SubnetSpec _ := λ h sp,
  view_pair view_flat (view_pair vp (view_pair vp (view_pair vp (view_pair vs vs)))) h
    ((SpecSubnet sp, Vpc_ sp, Project sp),
     (IPVersion sp, (SpecPreAllocated sp, (SpecMinAvaliable sp, (NamespaceName sp, NodeName sp))))).
Definition view_status : viewer SubnetStatus _ := λ h st,
  view_pair vp (view_pair vp (view_pair vp (view_pair vp (view_pair vs vs)))) h
    (SubnatName st, (VpcName st, (Gateway st, (Cidr st, (StatusNamespaceName st,
      StatusNodeName st))))).
Definition view_subnet : viewer Subnet _ := λ h s,
  view_pair view_flat (view_pair view_meta (view_pair view_spec view_status)) h
    (SubnetTypeMeta s, (SubnetObjectMeta s, (Spec s, Status s))).
Definition view_list_meta : viewer ListMeta _ := λ h m,
  view_pair view_flat vp h
    ((ListSelfLink m, ListResourceVersion m, Continue m), RemainingItemCount m).
Definition view_subnets : viewer SubnetList _ := λ h l,
  view_pair view_flat (view_pair view_list_meta (view_slice view_subnet)) h
    (ListTypeMeta l, (ListListMeta l, Items l)).

Create HintDb copier_db.
#[export] Hint Resolve flat_copier ptr_copier flat_slice_copier map_copier pair_copier
  ptr_into_copier slice_copier : copier_db.

Section structs.
Context `{!RangeOrder}.

Lemma fields_copier : copier view_fields FieldsV1_DeepCopyInto.
Proof.
  apply (iso_copier (λ f, Raw f) (λ r, {| Raw := r |}) _ copy_flat);
    [auto with copier_db|done|unfold FieldsV1_DeepCopyInto; by_fields].
Qed.
#[local] Hint Resolve fields_copier : copier_db.

Lemma entry_copier : copier view_entry ManagedFieldsEntry_DeepCopyInto.
Proof.
  eapply (iso_copier (λ e, ((EntryManager e, Operation e, EntryAPIVersion e, FieldsType e,
    Subresource e), (EntryTime e, EntryFieldsV1 e)))
    (λ '((m, o, a, f, s), (t, r)), {| EntryManager := m; Operation := o; EntryAPIVersion := a;
       EntryTime := t; FieldsType := f; EntryFieldsV1 := r; Subresource := s |}));
    [eauto 10 with copier_db|by intros [[[[[]]]] []]
    |unfold ManagedFieldsEntry_DeepCopyInto; by_fields].
Qed.

Lemma owner_copier : copier view_owner OwnerReference_DeepCopyInto.
Proof.
  eapply (iso_copier (λ o, ((OwnerAPIVersion o, OwnerKind o, OwnerName o, OwnerUID o),
     (OwnerController o, BlockOwnerDeletion o)))
    (λ '((a, k, n, u), (c, b)), {| OwnerAPIVersion := a; OwnerKind := k; OwnerName := n;
       OwnerUID := u; OwnerController := c; BlockOwnerDeletion := b |}));
    [eauto 10 with copier_db|by intros [[[[]]] []]|unfold OwnerReference_DeepCopyInto; by_fields].
Qed.
#[local] Hint Resolve entry_copier owner_copier : copier_db.

Lemma meta_copier : copier view_meta ObjectMeta_DeepCopyInto.
Proof.
  eapply (iso_copier (λ m,
    ((MetaName m, GenerateName m, MetaNamespace m, MetaSelfLink m, UID m, MetaResourceVersion m,
      Generation m, CreationTimestamp m),
     (MetaDeletionTimestamp m, (DeletionGracePeriodSeconds m, (Labels m, (MetaAnnotations m,
       (OwnerReferences m, (MetaFinalizers m, ManagedFields m))))))))
    (λ '((n, gn, ns, sl, u, rv, g, c), (d, (p, (ls, (anns, (os, (fs, ms))))))),
      {| MetaName := n; GenerateName := gn; MetaNamespace := ns; MetaSelfLink := sl; UID := u;
         MetaResourceVersion := rv; Generation := g; CreationTimestamp := c;
         MetaDeletionTimestamp := d; DeletionGracePeriodSeconds := p; Labels := ls;
         MetaAnnotations := anns; OwnerReferences := os; MetaFinalizers := fs;
         ManagedFields := ms |}));
    [eauto 12 with copier_db|by intros [[[[[[[[]]]]]]] [? [? [? [? [? []]]]]]]
    |unfold ObjectMeta_DeepCopyInto; by_fields].
Qed.

Lemma spec_copier : copier view_spec SubnetSpec_DeepCopyInto.
Proof.
  eapply (iso_copier (λ sp, ((SpecSubnet sp, Vpc_ sp, Project sp),
     (IPVersion sp, (SpecPreAllocated sp, (SpecMinAvaliable sp, (NamespaceName sp, NodeName sp))))))
    (λ '((s, v, p), (i, (pr, (mi, (nss, nos))))),
      {| IPVersion := i; SpecSubnet := s; Vpc_ := v; Project := p; SpecPreAllocated := pr;
         SpecMinAvaliable := mi; NamespaceName := nss; NodeName := nos |}));
    [eauto 12 with copier_db|by intros [[[]] [? [? [? []]]]]
    |unfold SubnetSpec_DeepCopyInto; by_fields].
Qed.

Lemma status_copier : copier view_status SubnetStatus_DeepCopyInto.
Proof.
  eapply (iso_copier (λ st, (SubnatName st, (VpcName st, (Gateway st, (Cidr st,
      (StatusNamespaceName st, StatusNodeName st))))))
    (λ '(s, (v, (g, (c, (nss, nos))))),
      {| SubnatName := s; VpcName := v; Gateway := g; Cidr := c; StatusNamespaceName := nss;
         StatusNodeName := nos |}));
    [eauto 12 with copier_db|by intros [? [? [? [? []]]]]
    |unfold SubnetStatus_DeepCopyInto; by_fields].
Qed.
#[local] Hint Resolve meta_copier spec_copier status_copier : copier_db.

Lemma subnet_copier : copier view_subnet Subnet_DeepCopyInto.
Proof.
  eapply (iso_copier (λ s, (SubnetTypeMeta s, (SubnetObjectMeta s, (Spec s, Status s))))
    (λ '(t, (m, (sp, st))), {| SubnetTypeMeta := t; SubnetObjectMeta := m; Spec := sp;
       Status := st |}));
    [eauto 12 with copier_db|by intros [? [? []]]|unfold Subnet_DeepCopyInto; by_fields].
Qed.

Lemma list_meta_copier : copier view_list_meta ListMeta_DeepCopyInto.
Proof.
  eapply (iso_copier (λ m, ((ListSelfLink m, ListResourceVersion m, Continue m),
      RemainingItemCount m))
    (λ '((s, v, c), r), {| ListSelfLink := s; ListResourceVersion := v; Continue := c;
       RemainingItemCount := r |}));
    [eauto 12 with copier_db|by intros [[[]]]|unfold ListMeta_DeepCopyInto; by_fields].
Qed.
#[local] Hint Resolve subnet_copier list_meta_copier : copier_db.

Lemma subnets_copier : copier view_subnets SubnetList_DeepCopyInto.
Proof.
  eapply (iso_copier (λ l, (ListTypeMeta l, (ListListMeta l, Items l)))
    (λ '(t, (m, is_)), {| ListTypeMeta := t; ListListMeta := m; Items := is_ |}));
    [eauto 12 with copier_db|by intros [? []]|unfold SubnetList_DeepCopyInto; by_fields].
Qed.
End structs.

(** ** The theorems *)
Section separate.
Context `{!RangeOrder}.
#[local] Hint Resolve owner_copier entry_copier : copier_db.

(** [h'] agrees with [h] on the locations [fp]. *)
Definition untouched (fp : list loc) (h h' : heap) : Prop := ∀ l, l ∈ fp → h' !! l = h !! l.

Lemma deep_copy_run {A D} (v : viewer A D) into h a d fp :
  copier v into → v h a = Some (d, fp) →
  ∃ c h' fc, deep_copy into (Some a) h = (Ret (Some c), h') ∧
    v h' c = Some (d, fc) ∧ v h' a = Some (d, fp) ∧ NoDup fc ∧ h ⊆ h' ∧ ∀ l, l ∈ fc → l ∉ dom h.
Proof.
  intros Hc Hv. destruct (into_copies _ _ Hc h a d fp Hv) as (c & h' & fc & Hr & Hh & Hvc & Hn & Hf).
  exists c, h', fc. split_and!; try done.
  - unfold deep_copy, go_bind. by rewrite Hr.
  - by apply (view_mono v into h h').
Qed.

Definition separates {A D} (v : viewer A D) (copy : option A → go heap (option A)) : Prop :=
  (∀ h, copy None h = (Ret None, h)) ∧
  ∀ h s d fp, v h s = Some (d, fp) →
  ∃ c h' fc, copy (Some s) h = (Ret (Some c), h') ∧
    v h' c = Some (d, fc) ∧ v h' s = Some (d, fp) ∧ h ⊆ h' ∧ (∀ l, l ∈ fc → l ∉ dom h) ∧
    fc ## fp ∧
    (∀ h2, untouched fp h' h2 → v h2 s = Some (d, fp)) ∧
    (∀ h2, untouched fc h' h2 → v h2 c = Some (d, fc)).

Lemma copy_separates {A D} (v : viewer A D) into (copy : option A → go heap (option A)) :
  copier v into → (∀ s h, copy s h = deep_copy into s h) → separates v copy.
Proof.
  intros Hc Hcopy. split; [intros h; by rewrite Hcopy|]. intros h s d fp Hv. rewrite Hcopy.
  destruct (deep_copy_run v into h s d fp Hc Hv) as (c & h' & fc & Hr & Hvc & Hvs & Hn & Hh & Hf).
  exists c, h', fc. split_and!; try done.
  - intros l Hl Hl'. apply (Hf l Hl). by eapply (view_dom _ _ Hc).
  - intros h2 H2. by eapply (view_frame _ _ Hc).
  - intros h2 H2. by eapply (view_frame _ _ Hc).
Qed.

Lemma DeepCopy_separates :
  separates view_subnet Subnet_DeepCopyObject ∧
  separates view_subnets SubnetList_DeepCopyObject ∧
  separates view_spec SubnetSpec_DeepCopy ∧ separates view_status SubnetStatus_DeepCopy.
Proof.
  split_and!; (eapply copy_separates; [|try done]).
  - apply subnet_copier.
  - intros s h. unfold Subnet_DeepCopyObject, Subnet_DeepCopy, go_bind.
    by destruct (deep_copy _ s h) as [[[]| |]].
  - apply subnets_copier.
  - intros s h. unfold SubnetList_DeepCopyObject, SubnetList_DeepCopy, go_bind.
    by destruct (deep_copy _ s h) as [[[]| |]].
  - apply spec_copier.
  - apply status_copier.
Qed.

(** *** The value that the other files compute with *)
Definition read_subnet (h : heap) (s : Subnet) : option Subnet_ :=
  '(_, ((n, _, _, _, _, _, _, _, (del, (_, (_, (anns, (_, (fs, _))))))),
        ((sub, v, p, (i, (pr, (mi, (nss, nos))))), (_, (_, (_, (_, (stns, stnos)))))))) ←
    fst <$> view_subnet h s;
  Some {| SubnetMeta := {| Objects.Name := n; Objects.Annotations := default ∅ anns;
                           Objects.Finalizers := default [] fs;
                           Objects.DeletionTimestamp := del |};
          SnSpec := {| SpecIPVersion := i; SpecSubnetId := sub; SpecVpc := v; SpecProject := p;
                       Vpc.SpecPreAllocated := pr; Vpc.SpecMinAvaliable := mi;
                       SpecNamespaces := nss; SpecNodes := nos |};
          SnStatus := {| StatusNamespaces := stns; StatusNodes := stnos |} |}.

Lemma remove_loop_run arr off finalizer n : ∀ i index h (l kept : list string),
  h !! arr = Some (CStrings l) → (off + i + n ≤ length l)%nat → (index ≤ i)%nat →
  take index (drop off l) = kept → length kept = index →
  let k := compact (take n (drop (off + i) l)) kept finalizer in
  ∃ l', remove_loop arr off n i index finalizer h =
      (Ret (length k), <[arr := CStrings l']> h) ∧
    length l' = length l ∧ take (length k) (drop off l') = k.
Proof.
  induction n as [|n IH]; intros i index h l kept Hl Hlen Hidx Hk Hkl; cbv zeta.
  { exists l. rewrite take_0. simpl. rewrite insert_id by done. by rewrite Hkl, Hk. }
  destruct (lookup_lt_is_Some_2 l (off + i)) as [x Hx]; [lia|].
  assert (Hld : load_at arr h = (Ret l, h)) by by apply cell_load_run.
  rewrite (drop_S _ x) by done. simpl. unfold go_bind at 1.
  rewrite Hld, Hx. case_decide as Hfin.
  - rewrite <-Nat.add_succ_r. apply IH; [done|lia|lia|done|done].
  - set (l1 := <[(off + index)%nat := x]> l).
    assert (Hl1 : length l1 = length l) by apply length_insert.
    destruct (IH (Datatypes.S i) (Datatypes.S index) (<[arr := CStrings l1]> h) l1 (kept ++ [x]))
      as (l' & Hr & Hll & Ht).
    + apply lookup_insert_eq.
    + lia.
    + lia.
    + unfold l1. rewrite drop_insert_ge, Nat.add_sub_swap, Nat.sub_diag by lia. simpl.
      rewrite (take_S_r _ _ x), take_insert_ge, Hk; [done|lia|].
      apply list_lookup_insert_eq. rewrite length_drop. lia.
    + rewrite length_app. simpl. lia.
    + assert (Hdrop : drop (off + Datatypes.S i) l1 = drop (Datatypes.S (off + i)) l).
      { unfold l1. rewrite Nat.add_succ_r. apply drop_insert_lt. lia. }
      rewrite Hdrop in Hr, Ht. exists l'. split_and!; [|congruence|done].
      unfold store_at, go_bind, go_modify. fold l1. etransitivity; [exact Hr|].
      by rewrite insert_insert_eq.
Qed.

(** In-place removal from a readable slice whose array is at [arr]. *)
Lemma remove_slice_run h arr off len finalizer ds fp :
  view_slice (@view_flat string) h (Slice arr off len) = Some (ds, fp) →
  fp = [arr] ∧ ∃ fs index h', ds = Some fs ∧ remove_loop arr off len 0 0 finalizer h = (Ret index, h') ∧
    view_slice (@view_flat string) h' (Slice arr off index) =
      Some (Some (compact fs [] finalizer), [arr]) ∧
    ∀ l, l ≠ arr → h' !! l = h !! l.
Proof.
  simpl. intros Hv. apply bind_Some in Hv as (l & Hl & Hv). case_decide as Hlen; [|done].
  rewrite view_list_flat in Hv. injection Hv as <- <-. split; [done|].
  assert (Hcell : h !! arr = Some (CStrings l)).
  { apply bind_Some in Hl as (c & -> & Hc). destruct c; simplify_eq/=; done. }
  destruct (remove_loop_run arr off finalizer len 0 0 h l []) as (l' & Hr & Hll & Ht);
    [done|lia|lia|apply take_0|done|].
  rewrite Nat.add_0_r in Hr, Ht. set (k := compact _ _ _) in *.
  exists (take len (drop off l)), (length k), (<[arr := CStrings l']> h).
  split_and!; [done|done| |].
  - rewrite lookup_insert_eq. simpl.
    assert (length k ≤ length l' - off)%nat.
    { rewrite <-Ht at 1. rewrite length_take, length_drop. lia. }
    rewrite decide_True by lia. by rewrite view_list_flat, Ht.
  - intros j Hj. by apply lookup_insert_ne.
Qed.

(** *** A readable object around its finalizers *)

(** The finalizers can be replaced, in their own memory, and nothing else of
    the metadata changes. *)
Lemma view_meta_finalizers h m d fp :
  view_meta h m = Some (d, fp) → NoDup fp →
  let '(flat, (del, (g, (ls, (anns, (os, (ds, ms))))))) := d in
  ∃ ff, view_slice view_flat h (MetaFinalizers m) = Some (ds, ff) ∧ (∀ k, k ∈ ff → k ∈ fp) ∧
    ∀ h' fs' ds', (∀ k, k ∉ ff → h' !! k = h !! k) →
    view_slice view_flat h' fs' = Some (ds', ff) →
    view_meta h' (set_finalizers fs' m) =
      Some ((flat, (del, (g, (ls, (anns, (os, (ds', ms))))))), fp).
Proof.
  intros Hm Hn. unfold view_meta in Hm.
  apply view_pair_inv in Hm as (flat & d1 & f0 & f1 & H0 & Hm & -> & ->).
  apply view_pair_inv in Hm as (del & d2 & f2 & f3 & H2 & Hm & -> & ->).
  apply view_pair_inv in Hm as (g & d3 & f4 & f5 & H4 & Hm & -> & ->).
  apply view_pair_inv in Hm as (ls & d4 & f6 & f7 & H6 & Hm & -> & ->).
  apply view_pair_inv in Hm as (anns & d5 & f8 & f9 & H8 & Hm & -> & ->).
  apply view_pair_inv in Hm as (os & d6 & f10 & f11 & H10 & Hm & -> & ->).
  apply view_pair_inv in Hm as (ds & ms & ff & f13 & H12 & H13 & -> & ->).
  exists ff. split; [done|]. split; [set_solver|]. intros h' fs' ds' Hh Hds'.
  rewrite !NoDup_app in Hn.
  unfold view_meta. repeat apply view_pair_intro; try done;
    (eapply view_away; [eauto with copier_db|exact Hh|set_solver|done]).
Qed.

(** The same for a subnet, read as a value. *)
Lemma read_subnet_finalizers h s d fp o :
  view_subnet h s = Some (d, fp) → NoDup fp → read_subnet h s = Some o →
  ∃ ds ff, view_slice view_flat h (MetaFinalizers (SubnetObjectMeta s)) = Some (ds, ff) ∧
    Finalizers (SubnetMeta o) = default [] ds ∧ (∀ k, k ∈ ff → k ∈ fp) ∧
    ∀ h' fs' ds', (∀ k, k ∉ ff → h' !! k = h !! k) →
    view_slice view_flat h' fs' = Some (ds', ff) →
    read_subnet h' (set_meta (set_finalizers fs' (SubnetObjectMeta s)) s) =
      Some (with_meta (Objects.set_finalizers (SubnetMeta o) (default [] ds')) o).
Proof.
  intros Hs Hn Ho. unfold read_subnet in Ho. rewrite Hs in Ho. unfold view_subnet in Hs.
  apply view_pair_inv in Hs as (t & d1 & f0 & f1 & H0 & Hs & -> & ->).
  apply view_pair_inv in Hs as (m & d2 & fm & f3 & Hm & Hs & -> & ->).
  apply view_pair_inv in Hs as (sp & st & f4 & f5 & Hsp & Hst & -> & ->).
  rewrite !NoDup_app in Hn. pose proof (view_meta_finalizers h _ m fm Hm ltac:(tauto)) as Hfin.
  destruct m as ([[[[[[[n gn] ns] sl] u] rv] g] c] & del & p & ls & anns & os & ds & ms).
  destruct sp as ([[sub v] pr] & i & pa & mi & nss & nos).
  destruct st as (s1 & s2 & s3 & s4 & stns & stnos). injection Ho as <-.
  destruct Hfin as (ff & Hds & Hff & Hnew). exists ds, ff.
  split; [done|]. split; [done|]. split; [set_solver|]. intros h' fs' ds' Hh Hds'.
  eapply (view_away view_spec _ h h' ff) in Hsp; [|apply spec_copier|exact Hh|set_solver].
  eapply (view_away view_status _ h h' ff) in Hst; [|apply status_copier|exact Hh|set_solver].
  pose proof (view_pair_intro view_flat _ h' (SubnetTypeMeta s) _ _ _ _ _ H0
    (view_pair_intro _ _ _ _ _ _ _ _ _ (Hnew h' fs' ds' Hh Hds')
      (view_pair_intro _ _ _ _ _ _ _ _ _ Hsp Hst))) as Hv.
  unfold read_subnet, view_subnet. cbn [set_meta SubnetTypeMeta SubnetObjectMeta Spec Status].
  by rewrite Hv.
Qed.

Lemma read_same h s h' s' d fp fp' :
  view_subnet h s = Some (d, fp) → view_subnet h' s' = Some (d, fp') →
  read_subnet h' s' = read_subnet h s.
Proof. intros Hs Hs'. unfold read_subnet. by rewrite Hs, Hs'. Qed.

(** The controllers edit a copy and compute a patch against the original.
    The in-place edit of the copy does what [RemoveFinalizer] does to a value
    in the other files, and the original is still the object that was read. *)
Lemma copy_without_finalizer_refines h s o finalizer :
  read_subnet h s = Some o →
  ∃ c h', copy_without_finalizer s finalizer h = (Ret c, h') ∧
    h ⊆ h' ∧ read_subnet h' s = Some o ∧
    read_subnet h' c = Some (with_meta (fst (RemoveFinalizer (SubnetMeta o) finalizer)) o).
Proof.
  intros Ho. pose proof Ho as Hs. unfold read_subnet in Hs.
  apply bind_Some in Hs as (d & Hd & _). apply fmap_Some in Hd as ([d' fp] & Hv & ->). simpl.
  destruct (deep_copy_run view_subnet _ h s d' fp subnet_copier Hv)
    as (c & h1 & fc & Hr & Hvc & Hvs & Hn & Hh & Hf).
  assert (Hc : read_subnet h1 c = Some o) by by rewrite (read_same h s h1 c d' fp fc).
  assert (Hkeep : ∀ h2, (∀ k, k ∉ fc → h2 !! k = h1 !! k) → read_subnet h2 s = Some o).
  { intros h2 H2. rewrite (read_same h s h2 s d' fp fp); [done..|].
    eapply (view_away view_subnet _ h1 h2 fc); [apply subnet_copier|done| |done].
    intros k Hk Hk'. apply (Hf k Hk'). by eapply (view_dom _ _ subnet_copier). }
  destruct (read_subnet_finalizers h1 c d' fc o Hvc Hn Hc) as (ds & ff & Hds & Hod & Hff & Hnew).
  unfold copy_without_finalizer, Subnet_DeepCopy, go_bind at 1. rewrite Hr.
  unfold remove_finalizer. destruct (MetaFinalizers (SubnetObjectMeta c)) as [|arr off len] eqn:Hm.
  - injection Hds as <- <-. eexists _, h1. split; [done|]. split; [done|]. split; [by apply Hkeep|].
    specialize (Hnew h1 NilSlice None (λ _ _, eq_refl) eq_refl). unfold RemoveFinalizer, fst.
    rewrite Hod. etransitivity; [|exact Hnew]. f_equal. destruct c as [? []]; simpl in *; by subst.
  - destruct (remove_slice_run h1 arr off len finalizer ds ff Hds)
      as (-> & fs & index & h2 & -> & Hl & Hv2 & Hh2).
    assert (Hh2' : ∀ k, k ∉ [arr] → h2 !! k = h1 !! k) by (intros k Hk; apply Hh2; set_solver).
    unfold go_bind. rewrite Hl. eexists _, h2. split; [done|]. split; [|split].
    + apply map_subseteq_spec. intros k x Hk. rewrite Hh2'; [by eapply lookup_weaken|].
      rewrite list_elem_of_singleton. intros ->. apply (Hf arr); [|by eapply elem_of_dom_2].
      set_solver.
    + apply Hkeep. intros k Hk. apply Hh2'. set_solver.
    + unfold RemoveFinalizer, fst. rewrite Hod. exact (Hnew h2 _ _ Hh2' Hv2).
Qed.

(** C39. The deep copies of subnets, of lists of subnets, of specs and of statuses
    have the value of the original and are made of new locations only: nothing
    that is in memory is written or shared.  Whatever is written in the memory of one afterwards leaves the value of the other; a
    nil receiver is copied to nil.  So the in-place removal of a finalizer
    from a copied subnet does what it does to a value in the other files, and
    leaves all older memory alone, with the original, against which the patch is
    computed. *)
Theorem deep_copy_promise :
  separates view_subnet Subnet_DeepCopyObject ∧
  separates view_subnets SubnetList_DeepCopyObject ∧
  separates view_spec SubnetSpec_DeepCopy ∧ separates view_status SubnetStatus_DeepCopy ∧
  ∀ h s o finalizer, read_subnet h s = Some o →
  ∃ c h', copy_without_finalizer s finalizer h = (Ret c, h') ∧
    h ⊆ h' ∧ read_subnet h' s = Some o ∧
    read_subnet h' c = Some (with_meta (fst (RemoveFinalizer (SubnetMeta o) finalizer)) o).
Proof.
  destruct DeepCopy_separates as (H1 & H2 & H3 & H4). split_and!; [done..|].
  apply copy_without_finalizer_refines.
Qed.
End separate.
End DeepCopyFacts.
