(* ===== verification/Startup.v ===== *)
(** * Startup: where a setting comes from

    Models the order in which the configuration is put together:
    [BindControllerDaemonFlags] and the [init] of command_daemon.go, the
    command line, and [LoadConfigmap] at the start of [DaemonMain]
    (cmd/eni-controller/cmd/config.go).  The file and the YAML decoder are
    parameters: a decoded document is the list of the keys that it sets. *)
From S2P Require Import Prelude.
From S2P Require Import HashSet.
From S2P Require Import Objects.
From S2P Require Import Infra.
From S2P Require Import Vpc.
From S2P Require Import Config.
Open Scope Z_scope.

Module Startup.
Import Config.

(** A value for a field; one of another type is not assigned. *)
Definition set_datum (t : target) (d : datum) (c : Config_) : Config_ :=
  match t, d with
  | StrKey f, DStr s => set_str f s c
  | BoolKey f, DBool b => set_bool f b c
  | IntKey f, DInt n => set_int f n c
  | _, _ => c
  end.

(** [new(ControllerContext)] *)
Definition zero_config : Config_ :=
  {| strs := λ _, ""; bools := λ _, false; ints := λ _, 0 |}.

(** ** Flags *)
Inductive flag := config_path | gops_port | pyroscope_address.

Definition flag_field (f : flag) : str_field :=
  match f with
  | config_path => ConfigPath | gops_port => GopsListenPort | pyroscope_address => PyroscopeAddress
  end.

(** [StringVar] assigns the default of the flag at once. *)
Definition BindControllerDaemonFlags (c : Config_) : Config_ :=
  set_str PyroscopeAddress "" (set_str GopsListenPort "5724" (set_str ConfigPath "" c)).

(** The flags that are given, in order. *)
Definition parse_flags (args : list (flag * string)) (c : Config_) : Config_ :=
  foldl (λ c a, set_str (flag_field a.1) a.2 c) c args.

(** ** The YAML file *)

(** The field of a key: the name of a tag, or for a field without one its own
    name in small letters; the fields of [openstack] are nested. *)
Definition yaml_field (key : string) : option target :=
  (list_to_map (M:=gmap string target)
    [("commitversion", StrKey CommitVersion); ("committime", StrKey CommitTime);
     ("appversion", StrKey AppVersion); ("gomaxprocs", IntKey GoMaxProcs);
     ("configpath", StrKey ConfigPath); ("gopslistenport", StrKey GopsListenPort);
     ("pyroscopeaddress", StrKey PyroscopeAddress); ("logLevel", StrKey LogLevel);
     ("enableMetric", BoolKey EnableMetric); ("enableLease", BoolKey EnableLease);
     ("preAllocated", IntKey PreAllocatedField); ("minAvaliabled", IntKey MinAvaliableField);
     ("workerNumber", IntKey WorkerNumberField); ("subneteId", StrKey DefaultSubnatIdField);
     ("projectId", StrKey DefaultProjectIdField); ("eniType", StrKey InfraTypeField);
     ("timeout", IntKey InfraTimeoutField); ("mutex", BoolKey InfraMutexOnCreate);
     ("openstack.authUrl", StrKey AuthUrl); ("openstack.credentialId", StrKey CredentialId);
     ("openstack.credentialSecret", StrKey CredentialSecret)]) !! key.

Section startup.
(** [os.ReadFile], and [yaml.Unmarshal]: the keys it assigned, also when it
    reports an error. *)
Context (ReadFile : string → error + string)
        (Unmarshal : string → list (string * datum) * option error).

Definition assignments (doc : list (string * datum)) : list (target * datum) :=
  omap (λ kv, (λ t, (t, kv.2)) <$> yaml_field kv.1) doc.

Definition assign (l : list (target * datum)) (c : Config_) : Config_ :=
  foldl (λ c a, set_datum a.1 a.2 c) c l.

(** The configuration it leaves, and its error. *)
Definition LoadConfigmap (c : Config_) : Config_ * option error :=
  match ReadFile (strs c ConfigPath) with
  | inl _ => (c, Some (EMsg "failed to read config file"))
  | inr text =>
      let '(doc, err) := Unmarshal text in
      (assign (assignments doc) c,
       match err with Some _ => Some (EMsg "failed to parse configmap") | None => None end)
  end.

(** The configuration of [DaemonMain] before and after its [LoadConfigmap],
    whose error is only logged; or the process ended in [init]. *)
Inductive startup_result := Started (cfg loaded : Config_) | Ended.

Definition startup (env : string → option string) (args : list (flag * string)) : startup_result :=
  match ParseConfiguration env (BindControllerDaemonFlags zero_config) with
  | Parsed c => let cfg := parse_flags args c in Started cfg (LoadConfigmap cfg).1
  | Failed _ | Exited _ => Ended
  end.

(** The part that vpc.NewManager gets. *)
Definition vpc_config (c : Config_) : VpcCfg :=
  {| CfgPreAllocated := ints c PreAllocatedField; CfgMinAvaliable := ints c MinAvaliableField;
     WorkerNumber := ints c WorkerNumberField; DefaultSubnatId := strs c DefaultSubnatIdField;
     DefaultProjectId := strs c DefaultProjectIdField |}.

(** ** Which source wins *)

(** Whether the value has the type of the field. *)
Definition fits (t : target) (d : datum) : bool :=
  match t, d with
  | StrKey _, DStr _ | BoolKey _, DBool _ | IntKey _, DInt _ => true
  | _, _ => false
  end.

(** The last value that a list of assignments gives to a field. *)
Definition last_value (l : list (target * datum)) (t : target) : option datum :=
  snd <$> last (filter (λ a, a.1 = t ∧ fits a.1 a.2) l).

Definition flag_values (args : list (flag * string)) : list (target * datum) :=
  (λ a, (StrKey (flag_field a.1), DStr a.2)) <$> args.

Definition file_values (cfg : Config_) : list (target * datum) :=
  match ReadFile (strs cfg ConfigPath) with
  | inl _ => []
  | inr text => assignments (Unmarshal text).1
  end.

Lemma read_set_datum t d c u :
  read (set_datum t d c) u = if decide (t = u ∧ fits t d) then Some d else read c u.
Proof.
  destruct t as [f|f|f|], d as [s|b|n]; simpl;
    try (rewrite decide_False by naive_solver; done);
    destruct u as [g|g|g|]; simpl; unfold fupd;
    repeat case_decide; naive_solver.
Qed.

Lemma read_assign l c t :
  read (assign l c) t = match last_value l t with Some d => Some d | None => read c t end.
Proof.
  unfold assign, last_value. induction l as [|[u d] l IH] using rev_ind; [done|].
  rewrite foldl_snoc, read_set_datum, filter_app, filter_cons. cbn [fst snd].
  case_decide as Hd; [by rewrite filter_nil, last_snoc|].
  rewrite filter_nil, app_nil_r. exact IH.
Qed.

Lemma parse_flags_assign args c : parse_flags args c = assign (flag_values args) c.
Proof.
  unfold parse_flags, assign, flag_values. revert c.
  induction args as [|a args IH]; intros c; [done|]. simpl. apply IH.
Qed.

Lemma LoadConfigmap_assign cfg : (LoadConfigmap cfg).1 = assign (file_values cfg) cfg.
Proof.
  unfold LoadConfigmap, file_values. destruct (ReadFile _) as [e|text]; [done|].
  by destruct (Unmarshal text).
Qed.

(** What the environment assigns. *)
Definition env_assign (env : string → option string) (e : envConf) : list (target * datum) :=
  match judge env e with Sets d => [(associate e, d)] | _ => [] end.
Definition env_values (env : string → option string) : list (target * datum) :=
  envInfo ≫= env_assign env.

Lemma parse_entry_assign env c e c' :
  parse_entry env c e = Parsed c' →
  c' = assign (env_assign env e) c ∧ judge env e ≠ Missing ∧ judge env e ≠ Wrong.
Proof.
  unfold parse_entry, env_assign, judge. case_decide; [by destruct (required e); intros [= <-]|].
  destruct (associate e) as [f|f|f|]; simpl; [by intros [= <-]| | |done].
  - by destruct (ParseBool _); intros [= <-].
  - by destruct (Atoi _); intros [= <-].
Qed.

Lemma parse_entries_assign env es c c' :
  parse_entries env es c = Parsed c' →
  c' = assign (es ≫= env_assign env) c ∧
  Forall (λ e, judge env e ≠ Missing ∧ judge env e ≠ Wrong) es.
Proof.
  revert c. induction es as [|e es IH]; intros c Hp; [by injection Hp as <-|].
  simpl in Hp. destruct (parse_entry env c e) as [c1| |] eqn:He; [|done..].
  apply parse_entry_assign in He as [-> Hj]. apply IH in Hp as [-> Hf].
  split; [|by constructor]. simpl. unfold assign. by rewrite foldl_app.
Qed.

Lemma last_value_app l k t :
  last_value (l ++ k) t = match last_value k t with Some d => Some d | None => last_value l t end.
Proof.
  unfold last_value. rewrite filter_app, last_app. by destruct (last (filter _ k)).
Qed.

(** A text field whose variable is required, or which had a text before, has
    a text that is not empty. *)
Lemma text_value env c c' e f :
  ParseConfiguration env c = Parsed c' → e ∈ envInfo → associate e = StrKey f →
  required e = true ∨ strs c f ≠ "" → strs c' f ≠ "".
Proof.
  intros Hp He Hf Hreq. pose proof (parse_entries_assign _ _ _ _ Hp) as [_ Hj].
  rewrite Forall_forall in Hj. destruct (Hj e He) as [Hm _].
  assert (NoDup (associate <$> envInfo)) as Hnd by (apply (bool_decide_unpack _); by vm_compute).
  pose proof (parse_entries_spec env envInfo c Hnd) as Hs. unfold ParseConfiguration in Hp.
  destruct (first_bad env envInfo) as [r|] eqn:Hb.
  { exfalso. rewrite Hs in Hp. subst r. clear -Hb.
    induction envInfo as [|e es IH]; [done|]. simpl in Hb. destruct (judge env e); by auto. }
  destruct Hs as (c1 & Hp1 & Hread & _). rewrite Hp in Hp1. injection Hp1 as <-.
  specialize (Hread e He). rewrite Hf in Hread. unfold outcome_of, judge in Hread, Hm.
  rewrite Hf in *. case_decide as Hv.
  - destruct (required e); [done|]. injection Hread as ->. destruct Hreq; done.
  - injection Hread as Hr. by rewrite Hr.
Qed.

Lemma flag_values_other args f :
  (∀ g, flag_field g ≠ f) → last_value (flag_values args) (StrKey f) = None.
Proof.
  intros Hf. unfold last_value. rewrite filter_none; [done|].
  apply Forall_fmap, Forall_forall. intros [g v] _. simpl. intros [[= Hg] _]. by apply (Hf g).
Qed.

(** The two settings that NewManager requires are there, unless the file
    removes them. *)
Lemma startup_manager env args cfg loaded :
  startup env args = Started cfg loaded →
  last_value (file_values cfg) (StrKey DefaultSubnatIdField) = None →
  last_value (file_values cfg) (StrKey DefaultProjectIdField) = None →
  ∃ m, NewManager (vpc_config loaded) = inr m.
Proof.
  unfold startup. destruct (ParseConfiguration env _) as [c| |] eqn:Hp; [|done..].
  intros [= <- <-]. rewrite LoadConfigmap_assign. set (cfg := parse_flags args c).
  assert (Hcfg : ∀ f, (∀ g, flag_field g ≠ f) → strs cfg f = strs c f).
  { intros f Hf. pose proof (read_assign (flag_values args) c (StrKey f)) as Hr.
    rewrite <-parse_flags_assign, flag_values_other in Hr by done. by injection Hr. }
  assert (Hload : ∀ f, last_value (file_values cfg) (StrKey f) = None →
    strs (assign (file_values cfg) cfg) f = strs cfg f).
  { intros f Hf. pose proof (read_assign (file_values cfg) cfg (StrKey f)) as Hr.
    rewrite Hf in Hr. by injection Hr. }
  intros Hs Hpr. unfold NewManager. rewrite decide_False; [by eexists|]. simpl.
  rewrite !Hload, !Hcfg by (done || by intros []).
  intros [Hpj|Hsn]; revert select (strs c _ = "").
  + apply (text_value env _ c _ _ Hp (list_elem_of_lookup_2 envInfo 16 _ eq_refl)); by auto.
  + apply (text_value env _ c _ _ Hp (list_elem_of_lookup_2 envInfo 15 _ eq_refl)); by auto.
Qed.

(** C35. When the process starts, every field has the last value of the YAML file
    when that sets it, else the last value of its flag, else what its
    environment variable decodes to, else the default of its flag or zero.
    The two defaults that NewManager requires are there unless the file
    removes them; and gops is only switched off by a flag or the file: an
    empty variable keeps the default port. *)
Theorem startup_precedence env args cfg loaded :
  startup env args = Started cfg loaded →
  (∀ t, read loaded t =
    match last_value (file_values cfg) t with
    | Some d => Some d
    | None =>
        match last_value (flag_values args) t with
        | Some d => Some d
        | None =>
            match last_value (env_values env) t with
            | Some d => Some d
            | None => read (BindControllerDaemonFlags zero_config) t
            end
        end
    end) ∧
  (last_value (file_values cfg) (StrKey DefaultSubnatIdField) = None →
   last_value (file_values cfg) (StrKey DefaultProjectIdField) = None →
   ∃ m, NewManager (vpc_config loaded) = inr m) ∧
  (strs loaded GopsListenPort = "" →
   last_value (file_values cfg) (StrKey GopsListenPort) = Some (DStr "") ∨
   last_value (flag_values args) (StrKey GopsListenPort) = Some (DStr "")).
Proof.
  intros Hst. pose proof (startup_manager env args cfg loaded Hst) as Hmanager. revert Hst.
  unfold startup. destruct (ParseConfiguration env _) as [c| |] eqn:Hp; [|done..].
  intros [= <- <-]. rewrite LoadConfigmap_assign in *. set (cfg := parse_flags args c) in *.
  assert (Hread : ∀ t, read cfg t = match last_value (flag_values args) t with
    | Some d => Some d | None => read c t end).
  { intros t. unfold cfg. rewrite parse_flags_assign. apply read_assign. }
  pose proof (parse_entries_assign _ _ _ _ Hp) as [Hc _]. split_and!; [|exact Hmanager|].
  - intros t. rewrite read_assign, Hread. by rewrite Hc, read_assign.
  - intros Hg. pose proof (read_assign (file_values cfg) cfg (StrKey GopsListenPort)) as Hr.
    destruct (last_value (file_values cfg) (StrKey GopsListenPort)) as [d|];
      [left; rewrite <-Hr; simpl; by rewrite Hg|right].
    rewrite Hread in Hr. destruct (last_value (flag_values args) (StrKey GopsListenPort)) as [d|];
      [rewrite <-Hr; simpl; by rewrite Hg|exfalso].
    injection Hr as Hr. rewrite Hg in Hr. symmetry in Hr. revert Hr.
    by apply (text_value env _ c _ _ Hp (list_elem_of_lookup_2 envInfo 5 _ eq_refl)); [|right].
Qed.
End startup.
End Startup.
