(* ===== verification/Runtime.v ===== *)
(** * Runtime: what the components register with controller-runtime

    Models the constructors of the four managers (spiderpool, namespace, node
    and vpc) with their [probe], and cmd/eni-controller/cmd/crd_manager.go,
    which makes the manager of controller-runtime.  That manager, the
    configuration of the cluster and the schemes are an interface whose calls
    may fail; what the program hands to it is recorded in a [registry]. *)
From S2P Require Import Prelude.
From S2P Require Import HashSet.
From S2P Require Import Objects.
From S2P Require Import IPPool.
From S2P Require Import SpiderPool.
From S2P Require Import Node.
From S2P Require Import Infra.
From S2P Require Import Vpc.
From S2P Require Import Namespace.
From S2P Require Import Config.

(** ** What is handed over *)
Inductive kind := KSpiderIPPool | KNamespace | KNode | KSubnet.

#[export] Instance kind_eq_dec : EqDecision kind.
Proof. solve_decision. Defined.

(** [For(..)] and the predicate of [WithEventFilter]. *)
Record registration := { For : kind; EventFilter : ObjectMeta → bool }.

(** The goroutines that the start of the process makes: [handlerCallback] of
    the pools and of the nodes, [run] of the subnet events, and the start of
    controller-runtime. *)
Inductive routine := PoolCallbacks | NodeCallbacks | SubnetEvents | StartRuntime.

(** The controllers, in order; the number of runnables (the subnet manager
    adds itself); the goroutines. *)
Record registry := {
  controllers : list registration;
  runnables : nat;
  routines : list routine
}.

Definition empty_registry : registry := {| controllers := []; runnables := 0; routines := [] |}.

(** [TransNode] keeps the metadata, the spec (not modelled) and the addresses
    of a node; anything else is an error. *)
Inductive any_object := ANode (n : NodeObject) | AOther.

Definition TransNode (v : any_object) : error + NodeObject :=
  match v with
  | ANode v => inr {| NodeMeta := NodeMeta v; Addresses := Addresses v |}
  | AOther => inl (EMsg "it is not node type")
  end.

(** [rest.Config], the two limits that are set and all the rest; and the
    options of [ctrl.NewManager]. *)
Record RestConfig := { Cluster : string; Burst : Z; QPS : Z }.

Record ManagerOptions := {
  ByObject : list (kind * option (any_object → error + NodeObject));
  MetricsBindAddress : string;
  LeaderElection : bool;
  LeaderElectionID : string;
  HealthProbeBindAddress : string;
  WebhookPort : Z
}.

Inductive check := Healthz | Readyz.
Inductive group := ClientGo | SpiderPoolV2 | CiliumV2 | EniV1.

(** [GetConfigOrDie] answers [None] when it ends the process. *)
Class CtrlRuntime (S : Type) := {
  AddToScheme : group → S → option error * S;
  GetConfig : S → option RestConfig * S;
  NewCtrlManager : RestConfig → ManagerOptions → S → option error * S;
  AddCheck : check → S → option error * S;
  AddRunnable : S → option error * S;
  Complete : registration → S → option error * S;
  NewClientSet : RestConfig → S → option error * S;
  NewDynamicClient : RestConfig → S → option error * S
}.

(** The process ends with an error. *)
Inductive ended := Fatal (what : string).

Module Runtime.
Section runtime.
Context {S : Type} `{!CtrlRuntime S, !Lens S registry}.

Definition spawn (r : routine) : go S unit :=
  let* x := load in
  store {| controllers := controllers x; runnables := runnables x;
           routines := routines x ++ [r] |}.

(** [mgr.Add] and [Complete]: what succeeds is recorded. *)
Definition mgr_add : go S (option error) :=
  let* err := go_call AddRunnable in
  match err with
  | Some e => go_ret (Some e)
  | None =>
      let* x := load in
      store {| controllers := controllers x; runnables := Datatypes.S (runnables x);
               routines := routines x |} ;;;
      go_ret None
  end.

Definition complete (r : registration) : go S (option error) :=
  let* err := go_call (Complete r) in
  match err with
  | Some e => go_ret (Some e)
  | None =>
      let* x := load in
      store {| controllers := controllers x ++ [r]; runnables := runnables x;
               routines := routines x |} ;;;
      go_ret None
  end.

(** ** The constructors

    Each answers its error; the manager is made before [probe], and the one of
    the pools is returned even with an error. *)
Definition has_annotation (key : string) (m : ObjectMeta) : bool :=
  bool_decide (is_Some (Annotations m !! key)).

Definition spiderpool_probe : go S (option error) :=
  spawn PoolCallbacks ;;;
  complete {| For := KSpiderIPPool; EventFilter := has_annotation SubnatAnnotationsKey |}.

Definition spiderpool_NewControllerManager `{!Lens S controller} : go S (option error) :=
  store empty_controller ;;; spiderpool_probe.

Definition namespace_probe : go S (option error) :=
  complete {| For := KNamespace; EventFilter := λ _, true |}.

Definition namespace_NewControllerManager `{!Lens S ns_controller} : go S (option error) :=
  store empty_namespaces ;;; namespace_probe.

Definition node_probe : go S (option error) :=
  spawn NodeCallbacks ;;;
  complete {| For := KNode; EventFilter := has_annotation InstanceAnnotationKey |}.

Definition node_NewControllerManager `{!Lens S node_controller} : go S (option error) :=
  store empty_nodes ;;; node_probe.

Definition vpc_probe : go S (option error) :=
  let* err := mgr_add in
  match err with
  | Some e => go_ret (Some e)
  | None => complete {| For := KSubnet; EventFilter := λ _, true |}
  end.

(** [NewInfra] starts the goroutines of the workers. *)
Definition vpc_NewManager `{!Lens S manager} (cfg : VpcCfg) : go S (option error) :=
  match NewManager cfg with
  | inl e => go_ret (Some e)
  | inr m =>
      store m ;;;
      for_acc (replicate (Z.to_nat (WorkerNumber cfg)) SubnetEvents) (λ _ r, spawn r) tt ;;;
      vpc_probe
  end.

(** ** crd_manager.go and the clients of daemon.go *)

(** [utilruntime.Must(AddToScheme(scheme))], four times, when the package is
    initialised. *)
Definition init : go S unit :=
  for_acc [ClientGo; SpiderPoolV2; CiliumV2; EniV1] (λ _ g,
    let* err := go_call (AddToScheme g) in
    match err with Some _ => go_panic MustFailed | None => go_ret tt end) tt.

(** [GetConfigOrDie] *)
Definition GetConfigOrDie {A} (k : RestConfig → go S (ended + A)) : go S (ended + A) :=
  let* c := go_call GetConfig in
  match c with None => go_ret (inl (Fatal "kubernetes configuration")) | Some c => k c end.

Definition manager_options (cfg : Config_) : ManagerOptions :=
  {| ByObject := [(KNode, Some TransNode); (KNamespace, None)]; MetricsBindAddress := "0";
     LeaderElection := bools cfg EnableLease; LeaderElectionID := "df5bc7af.eni.io";
     HealthProbeBindAddress := "0"; WebhookPort := 0 |}.

(** The error of the readiness check is only logged. *)
Definition newCRDManager (cfg : Config_) : go S (ended + option error) :=
  GetConfigOrDie (λ config,
  let config := {| Cluster := Cluster config; Burst := 200; QPS := 100 |} in
  let* err := go_call (NewCtrlManager config (manager_options cfg)) in
  match err with
  | Some e => go_ret (inr (Some e))
  | None =>
      let* err := go_call (AddCheck Healthz) in
      match err with
      | Some _ => go_ret (inl (Fatal "health check"))
      | None =>
          let* _ := go_call (AddCheck Readyz) in
          go_ret (inr None)
      end
  end).

Definition initK8sClientSet : go S (ended + option error) :=
  GetConfigOrDie (λ c,
    let* err := go_call (NewClientSet c) in
    go_ret (inr (match err with
                 | Some _ => Some (EMsg "failed to init K8s clientset")
                 | None => None
                 end))).

Definition initDynamicClient : go S (ended + option error) :=
  GetConfigOrDie (λ c,
    let* err := go_call (NewDynamicClient c) in
    go_ret (inr (match err with
                 | Some _ => Some (EMsg "failed to init Kubernetes dynamic client")
                 | None => None
                 end))).
End runtime.

(** ** The filters *)

(** The registered filters are the ones of the controllers' files. *)
Lemma event_filters :
  (∀ o, has_annotation SubnatAnnotationsKey (Meta o) = SpiderPool.event_filter o) ∧
  (∀ o, has_annotation InstanceAnnotationKey (NodeMeta o) = Node.event_filter o).
Proof. done. Qed.
End Runtime.
