(* ===== verification/InfraOps.v ===== *)
(** * InfraOps: the worker that applies subnet events

    Models pkg/vpc/infraops.go: the bounded queue of events and the handler
    [processSubnatWork], over the infrastructure interface.  The wait group of
    a call is [sync.WaitGroup] of the standard library; the functions that the
    handler passes to asynchronous updates all call its [Done], so each is
    named by the number of its wait group.  The goroutines that take the events
    from the queue are in InfraQueue.v. *)
From S2P Require Import Prelude.
From S2P Require Import HashSet.
From S2P Require Import Objects.
From S2P Require Import IPPool.
From S2P Require Import Node.
From S2P Require Import Infra.
From S2P Require Import Vpc.

(** ** Wait groups *)
Notation waitgroups := (gmap nat Z).

Definition counter (w : nat) (g : waitgroups) : Z := default 0%Z (g !! w).

(** The end of the asynchronous operations that are outstanding: what other
    goroutines do while one is blocked in [Wait]. *)
Class Settle (S : Type) := { settle : go S unit }.

(** The queue [snevch]. *)
Definition event_queue : Type := list (option subnatEvent).

Definition queue_cap : nat := 128.

Module InfraOps.
Section ops.
Context {S : Type} `{!RangeOrder, !Lens S waitgroups, !InfraClient S, !Settle S}.
Implicit Types (s : S) (ev : subnatEvent) (no : nodeEvent) (po : poolEvent).

Definition wg_add (w : nat) (n : Z) : go S unit :=
  let* g := load in
  let c := (counter w g + n)%Z in
  store (<[w := c]> g) ;;;
  if decide (c < 0)%Z then go_panic NegativeWaitGroup else go_ret tt.

Definition wg_done (w : nat) : go S unit := wg_add w (-1).

Definition wg_wait (w : nat) : go S unit :=
  let* g := load in
  if decide (counter w g = 0%Z) then go_ret tt
  else
    settle ;;;
    let* g := load in
    if decide (counter w g = 0%Z) then go_ret tt else go_hang.

(** The creation of ports for one pool, and for one node. *)
Definition create_pool (w : nat) ev (ifs : gmap string Interface) no po
    : go S (gmap string Interface) :=
  (if decide (PoAdd po ≠ 0%Z) then
     wg_add w 1 ;;;
     UpdatePort {| OptSubnet := EvSubnatId ev; OptVpc := EvVpcId ev;
                   OptProject := EvProjectId ev; OptPort := PoMainId po; OptInstance := "";
                   OptPortName := ""; OptInstanceName := ""; OptIp := "" |}
       (PoAdd po) CreateE false (Some w) ;;; go_ret tt
   else go_ret tt) ;;;
  go_ret (<[PoMainId po := {| IfName := ""; IfId := PoMainId po; IfIp := NoIp no;
                              SubnatId := EvSubnatId ev; IfMac := ""; Second := ∅ |}]> ifs).

Definition create_node (w : nat) ev (acc : gmap string Instance_ * gmap string Interface) no
    : go S (gmap string Instance_ * gmap string Interface) :=
  let '(nodes, ifs) := acc in
  let nodes := <[NoName no := {| InstId := NoId no; DefaultIp := NoIp no;
                                 InstNodeName := NoName no; InstInterface := Some ∅ |}]> nodes in
  (if decide (NoAdd no ≠ 0%Z) then
     wg_add w 1 ;;;
     UpdatePort {| OptSubnet := EvSubnatId ev; OptVpc := EvVpcId ev;
                   OptProject := EvProjectId ev; OptPort := ""; OptInstance := NoId no;
                   OptPortName := ""; OptInstanceName := NoName no; OptIp := "" |}
       (NoAdd no) CreateE false (Some w) ;;; go_ret tt
   else go_ret tt) ;;;
  let* ifs := for_acc (NoPools no) (λ ifs po, create_pool w ev ifs no po) ifs in
  go_ret (nodes, ifs).

Definition attach_opt (inst port : string) : Opt :=
  {| OptSubnet := ""; OptVpc := ""; OptProject := ""; OptPort := port; OptInstance := inst;
     OptPortName := ""; OptInstanceName := ""; OptIp := "" |}.

Definition pairs_map : Type := gmap string (list AddressPair).

Definition add_pair (k : string) (p : AddressPair) (pairs : pairs_map) : pairs_map :=
  <[k := default [] (pairs !! k) ++ [p]]> pairs.

(** The function that the listing calls on each interface. *)
Definition visit (w : nat) (nodes : gmap string Instance_) (ifs : gmap string Interface)
    (pairs : pairs_map) (ifinfo : Interface) : go S (pairs_map * (bool * option error)) :=
  if decide (IfIp ifinfo = "") then go_ret (pairs, (true, None))
  else
    let pod :=
      if HasPrefix (IfName ifinfo) PodInterfaceName then
        let mainid := TrimPrefix (IfName ifinfo) PodInterfaceName in
        match ifs !! mainid with
        | None => go_ret (pairs, (true, None))
        | Some _ =>
            go_ret (add_pair mainid {| PairIp := IfIp ifinfo; PairMac := IfMac ifinfo |} pairs,
                    (true, None))
        end
      else go_ret (pairs, (true, None)) in
    if HasPrefix (IfName ifinfo) VMInterfaceName then
      let name := TrimPrefix (IfName ifinfo) VMInterfaceName in
      match nodes !! name with
      | None => go_ret (pairs, (true, None))
      | Some no =>
          match interfaces no !! IfId ifinfo with
          | Some _ => go_ret (pairs, (true, None))
          | None =>
              wg_add w 1 ;;;
              UpdateInstancePort (attach_opt (InstId no) (IfId ifinfo)) CreateE false (Some w) ;;;
              pod
          end
      end
    else pod.

(** [for id, ps := range pairs]: one update of an interface per key. *)
Definition update_pairs (w : nat) (e : Event) (pairs : pairs_map) : go S unit :=
  for_acc (range_order (map_to_list pairs)) (λ _ kv,
    wg_add w 1 ;;; UpdateInterfacePort kv.1 (Some kv.2) e false (Some w) ;;; go_ret tt) tt.

Definition remove_main (w : nat) no (mid : key) : go S unit :=
  let* id := go_lift (assert_string mid) in
  wg_add w 1 ;;;
  UpdateInstancePort (attach_opt (NoId no) id) DeleteE false (Some w) ;;; go_ret tt.

Definition remove_pair (w : nat) no (pairs : pairs_map) (im : key) : go S pairs_map :=
  let* '(ip, mac) := go_lift (assert_pair im) in
  wg_add w 1 ;;;
  go_ret (add_pair (NoId no) {| PairIp := ip; PairMac := mac |} pairs).

Definition remove_node (w : nat) (pairs : pairs_map) no : go S pairs_map :=
  let* mids := go_lift (HashSet.Values (NoRemove no)) in
  for_acc mids (λ _ mid, remove_main w no mid) tt ;;;
  for_acc (NoPools no) (λ pairs po,
    let* ims := go_lift (HashSet.Values (PoRemove po)) in
    for_acc ims (remove_pair w no) pairs) pairs.

Definition processSubnatWork (w : nat) (ev : option subnatEvent) : go S unit :=
  match ev with
  | None => go_ret tt
  | Some ev =>
      let* '(nodes, ifs) := for_acc (EvNodes ev) (create_node w ev) (∅, ∅) in
      wg_wait w ;;;
      let* '(pairs, err) := EachInterface
        {| OptSubnet := EvSubnatId ev; OptVpc := EvVpcId ev; OptProject := EvProjectId ev;
           OptPort := ""; OptInstance := ""; OptPortName := ""; OptInstanceName := "";
           OptIp := "" |} (visit w nodes ifs) ∅ in
      match err with
      | Some _ => go_ret tt
      | None =>
          update_pairs w CreateE pairs ;;;
          let* pairs := for_acc (EvNodes ev) (remove_node w) ∅ in
          update_pairs w DeleteE pairs ;;;
          wg_wait w
      end
  end.
End ops.

(** ** The queue *)
Section queue.
Context {S : Type} `{!Lens S event_queue}.

(** A send that does not block: a full queue drops the event. *)
Definition HandleSubnatEvent (ev : option subnatEvent) : go S unit :=
  let* q := load in
  if decide (length q < queue_cap)%nat then store (q ++ [ev]) else go_ret tt.
End queue.
End InfraOps.
