(* ===== verification/InfraQueue.v ===== *)
(** * InfraQueue: the workers of the subnet events

    Models the goroutines that [NewInfra] of pkg/vpc/infraops.go starts, all
    in [run], and the callers of [HandleSubnatEvent], interleaved on the
    bounded channel [snevch]: one receive, one handler or one send per step. *)
From S2P Require Import Prelude.
From S2P Require Import Objects.
From S2P Require Import IPPool.
From S2P Require Import Node.
From S2P Require Import Infra.
From S2P Require Import Vpc.
From S2P Require Import InfraOps.

Module InfraQueue.
Section queue.
Context {S : Type}.
(** [processSubnatWork] on the state that the process shares, and what other
    goroutines do to that state. *)
Context (process : option subnatEvent → go S unit) (others : S → S → Prop).

(** A goroutine in [run]: in its select; with an event; never to return from
    one; or returned. *)
Inductive goroutine :=
  | Waiting
  | Handling (ev : option subnatEvent)
  | Stuck (ev : option subnatEvent)
  | Gone.

Record workers := {
  snevch : event_queue;
  gos : list goroutine;
  cancelled : bool;
  crashed : bool;
  shared : S
}.

(** [for i := 0; i < number; i++ { go ops.run() }] *)
Definition NewInfra (number : Z) (s : S) : workers :=
  {| snevch := []; gos := replicate (Z.to_nat number) Waiting; cancelled := false;
     crashed := false; shared := s |}.

(** After the handler: a panic, which nobody recovers, ends the process. *)
Definition after ev (o : outcome unit) : goroutine :=
  match o with Ret _ => Waiting | Hang | Panic _ => Stuck ev end.
Definition panics (o : outcome unit) : bool := if o is Panic _ then true else false.

Inductive label :=
  | Sent (ev : option subnatEvent) (kept : bool)
  | Take (ev : option subnatEvent)
  | End_ (ev : option subnatEvent) (o : outcome unit)
  | Quiet.

Inductive step : workers → label → workers → Prop :=
  | queue_send w ev q :
      crashed w = false → InfraOps.HandleSubnatEvent ev (snevch w) = (Ret tt, q) →
      step w (Sent ev (bool_decide (length (snevch w) < queue_cap)%nat))
        {| snevch := q; gos := gos w; cancelled := cancelled w; crashed := false;
           shared := shared w |}
  | queue_take w i ev q :
      crashed w = false → gos w !! i = Some Waiting → snevch w = ev :: q →
      step w (Take ev)
        {| snevch := q; gos := <[i := Handling ev]> (gos w); cancelled := cancelled w;
           crashed := false; shared := shared w |}
  | queue_handle w i ev o s' :
      crashed w = false → gos w !! i = Some (Handling ev) → process ev (shared w) = (o, s') →
      step w (End_ ev o)
        {| snevch := snevch w; gos := <[i := after ev o]> (gos w); cancelled := cancelled w;
           crashed := panics o; shared := s' |}
  | queue_leave w i :
      crashed w = false → gos w !! i = Some Waiting → cancelled w = true →
      step w Quiet
        {| snevch := snevch w; gos := <[i := Gone]> (gos w); cancelled := true;
           crashed := false; shared := shared w |}
  | queue_cancel w :
      step w Quiet
        {| snevch := snevch w; gos := gos w; cancelled := true; crashed := crashed w;
           shared := shared w |}
  | queue_others w s' :
      others (shared w) s' →
      step w Quiet
        {| snevch := snevch w; gos := gos w; cancelled := cancelled w; crashed := crashed w;
           shared := s' |}.

Definition run (number : Z) (s0 : S) := run_of step (NewInfra number s0).

(** ** What a run shows *)
Definition kept_of (a : label) := if a is Sent ev true then Some ev else None.
Definition taken_of (a : label) := if a is Take ev then Some ev else None.
Definition done_of (a : label) := if a is End_ ev (Ret _) then Some ev else None.
Definition kept : list label → event_queue := omap kept_of.
Definition taken : list label → event_queue := omap taken_of.
Definition finished : list label → event_queue := omap done_of.

Definition held_by (g : goroutine) : option (option subnatEvent) :=
  match g with Handling ev | Stuck ev => Some ev | Waiting | Gone => None end.
(** The events that a goroutine has taken and not finished. *)
Definition in_hand : list goroutine → event_queue := omap held_by.

Lemma in_hand_insert gs i g g' :
  gs !! i = Some g →
  option_list (held_by g) ++ in_hand (<[i := g']> gs) ≡ₚ option_list (held_by g') ++ in_hand gs.
Proof.
  intros Hi. assert (Hlt : (i < length gs)%nat) by by eapply lookup_lt_Some.
  rewrite insert_take_drop by done. rewrite <-(take_drop_middle gs i g Hi) at 3.
  unfold in_hand. rewrite !omap_app. csimpl.
  destruct (held_by g), (held_by g'); simpl; solve_Permutation.
Qed.

Lemma in_hand_length gs : (length (in_hand gs) ≤ length gs)%nat.
Proof. induction gs as [|g gs IH]; [done|]. csimpl. destruct (held_by g); simpl; lia. Qed.

(** Some goroutine holds nothing, unless all do. *)
Lemma in_hand_free gs :
  (length (in_hand gs) < length gs)%nat → ∃ i g, gs !! i = Some g ∧ held_by g = None.
Proof.
  induction gs as [|g gs IH]; simpl; [lia|]. csimpl. destruct (held_by g) as [ev|] eqn:Hg.
  - intros Hlt%Nat.succ_lt_mono. destruct (IH Hlt) as (i & g' & Hi & Hg').
    by exists (Datatypes.S i), g'.
  - intros _. by exists O, g.
Qed.

Lemma in_hand_full gs i g :
  length (in_hand gs) = length gs → gs !! i = Some g → held_by g ≠ None.
Proof.
  revert i. induction gs as [|g' gs IH]; intros i Hlen Hi; [done|]. csimpl in Hlen.
  pose proof (in_hand_length gs) as Hle. unfold in_hand in *.
  destruct (held_by g') eqn:Hg; simpl in Hlen; [|lia].
  destruct i as [|i]; [injection Hi as <-; by rewrite Hg|]. apply (IH i); [lia|done].
Qed.

Lemma not_gone_insert (gs : list goroutine) (i : nat) g : Gone ∉ gs → g ≠ Gone → Gone ∉ <[i := g]> gs.
Proof.
  intros Hg Hne [j Hj]%list_elem_of_lookup. apply list_lookup_insert_Some in Hj as [(_ & Hj & _)|[_ Hj]].
  - by subst.
  - by apply list_elem_of_lookup_2 in Hj.
Qed.

Record consistent (number : Z) (l : list label) (w : workers) : Prop := {
  fifo : kept l = taken l ++ snevch w;
  bounded : (length (snevch w) ≤ queue_cap)%nat;
  holding : taken l ≡ₚ finished l ++ in_hand (gos w);
  all_there : length (gos w) = Z.to_nat number;
  none_gone : cancelled w = false → Gone ∉ gos w
}.

Ltac labels := unfold kept, taken, finished; rewrite ?omap_app; simpl; rewrite ?app_nil_r.

Lemma run_consistent number s0 l w : run number s0 l w → consistent number l w.
Proof.
  induction 1 as [|l w a w' Hr [Hf Hb Hh Ha Hg] Hs].
  { split; simpl; try done; [lia| |by rewrite length_replicate|].
    - unfold in_hand. induction (Z.to_nat number); done.
    - by intros _ [? _]%elem_of_replicate. }
  destruct Hs as [w ev q Hc Hq|w i ev q Hc Hi Hq|w i ev o s' Hc Hi Hp|w i Hc Hi Hx|w|w s' Ho].
  - unfold InfraOps.HandleSubnatEvent, load, go_bind, go_gets in Hq.
    change (view (snevch w)) with (snevch w) in Hq. case_bool_decide as Hlt.
    + rewrite decide_True in Hq by done. injection Hq as <-. change (put ?q _) with q.
      split; simpl; [labels|rewrite length_app; simpl; lia|labels|..]; try done.
      fold (kept l). fold (taken l). by rewrite Hf, app_assoc.
    + rewrite decide_False in Hq by done. injection Hq as <-. split; simpl; labels; try done.
  - pose proof (in_hand_insert _ _ _ (Handling ev) Hi) as Hp. simpl in Hp. rewrite Hq in *. split; simpl.
    + labels. fold (kept l). fold (taken l). by rewrite Hf, <-app_assoc.
    + simpl in Hb. lia.
    + labels. fold (finished l). fold (taken l). rewrite Hp, Hh. solve_Permutation.
    + by rewrite length_insert.
    + intros Hx. apply not_gone_insert; [by apply Hg|done].
  - pose proof (in_hand_insert _ _ _ (after ev o) Hi) as Hins. split; simpl.
    + labels. done.
    + done.
    + labels. destruct o; simpl in *; labels; fold (finished l); fold (taken l); rewrite Hh.
      * rewrite <-Hins. solve_Permutation.
      * by apply Permutation_app_head, (Permutation_cons_inv (a:=ev)).
      * by apply Permutation_app_head, (Permutation_cons_inv (a:=ev)).
    + by rewrite length_insert.
    + intros Hx. apply not_gone_insert; [by apply Hg|by destruct o].
  - pose proof (in_hand_insert _ _ _ Gone Hi) as Hins. simpl in Hins. split; simpl; labels; try done.
    + by rewrite Hins.
    + by rewrite length_insert.
  - split; simpl; labels; done.
  - split; simpl; labels; done.
Qed.

(** C38. The goroutines take the events that were kept in their order, each once;
    an event is dropped only when 128 are waiting.  Of the events taken, at
    most as many as there are goroutines are not finished.  While fewer are
    not, nothing is cancelled and an event waits, one can be taken; once as
    many are not, because their handlers do not return, none ever is. *)
Theorem events_served number s0 l w :
  run number s0 l w →
  kept l = taken l ++ snevch w ∧
  (∀ l1 ev l2, l = l1 ++ Sent ev false :: l2 →
     length (kept l1) = (length (taken l1) + queue_cap)%nat) ∧
  taken l ≡ₚ finished l ++ in_hand (gos w) ∧
  (length (taken l) ≤ length (finished l) + Z.to_nat number)%nat ∧
  ((length (taken l) < length (finished l) + Z.to_nat number)%nat →
     crashed w = false → cancelled w = false → snevch w ≠ [] → ∃ ev w', step w (Take ev) w') ∧
  (length (taken l) = (length (finished l) + Z.to_nat number)%nat →
     ∀ ev w', ¬ step w (Take ev) w').
Proof.
  intros Hr. pose proof (run_consistent _ _ _ _ Hr) as [Hf Hb Hh Ha Hg].
  assert (Hlen : length (taken l) = (length (finished l) + length (in_hand (gos w)))%nat)
    by by rewrite Hh, length_app.
  pose proof (in_hand_length (gos w)) as Hle. rewrite Ha in Hle. split_and!; [done| |done|lia|..].
  - intros l1 ev l2 ->. apply run_inv in Hr as (w1 & w2 & Hr & Hs).
    pose proof (run_consistent _ _ _ _ Hr) as [Hf1 Hb1 _ _ _].
    remember (Sent ev false) as a eqn:Hd. destruct Hs; try done. injection Hd as -> Hd.
    apply bool_decide_eq_false in Hd. rewrite Hf1, length_app. lia.
  - intros Hlt Hc Hx Hq. destruct (in_hand_free (gos w)) as (i & g & Hi & Hgi); [lia|].
    destruct (snevch w) as [|ev q] eqn:Hw; [done|]. destruct g; try done.
    + exists ev. eexists. by eapply queue_take.
    + exfalso. apply (Hg Hx). by eapply list_elem_of_lookup_2.
  - intros Heq ev w' Hs. inversion Hs as [|? i ? ? ? Hi| | | |]; subst.
    by apply (in_hand_full (gos w) i Waiting) in Hi; [|lia].
Qed.
End queue.
End InfraQueue.
