(* ===== verification/InfraOpsFacts.v ===== *)
(** * InfraOpsFacts: when a subnet event is ever finished

    The handler of subnet events, run on the Openstack client: a potential
    argument on the counter of its wait group shows that it returns only for
    events that ask for nothing but assignments. *)
From S2P Require Import Prelude.
From S2P Require Import HashSet.
From S2P Require Import Objects.
From S2P Require Import IPPool.
From S2P Require Import Node.
From S2P Require Import Infra.
From S2P Require Import Openstack.
From S2P Require Import OpenstackFacts.
From S2P Require Import Vpc.
From S2P Require Import InfraOps.
Open Scope Z_scope.

Module InfraOpsFacts.
Import InfraOps.

Section openstack.
Context {S : Type} `{!RangeOrder, !Neutron S, !Lens S openstack, !Lens S waitgroups,
  !Disjoint S openstack waitgroups}.
Implicit Types (s : S) (ev : subnatEvent) (no : nodeEvent) (po : poolEvent) (w : nat).

(** The function of an asynchronous update: [Done] on its wait group. *)
Definition run_done (w : nat) (_ : Interface) : go S unit := wg_done w.

#[local] Instance client : InfraClient S := OpenstackFacts.openstack_client run_done.
#[local] Instance settle_all : Settle S := {| settle := Openstack.settle_tasks run_done |}.

Context {NFo : OpenstackFacts.NeutronFrame openstack} {NFw : OpenstackFacts.NeutronFrame waitgroups}.

Definition count w s : Z := counter w (view s).

(** The tasks that will call [Done] on [w] when they succeed. *)
Definition calls w (t : task) : Z :=
  match t with AssignTask _ _ (Some f) => if decide (f = w) then 1 else 0 | _ => 0 end.

Definition pending w s : Z := total_of (calls w) (createPool (view s) ++ attPool (view s)).

(** The wait group's counter, less the calls of [Done] that may come. *)
Definition φ w s : Z := count w s - pending w s.

Lemma calls_nonneg w t : 0 ≤ calls w t.
Proof. destruct t as [| | | | ? ? []|]; simpl; try lia. case_decide; lia. Qed.

Lemma total_of_app {A} (n : A → Z) l l' : total_of n (l ++ l') = total_of n l + total_of n l'.
Proof. induction l as [|a l IH]; simpl; lia. Qed.

Lemma total_of_perm {A} (n : A → Z) l l' : l ≡ₚ l' → total_of n l = total_of n l'.
Proof. induction 1; simpl; lia. Qed.

(** *** One operation at a time *)
Lemma wg_add_run w n s :
  wg_add w n s =
  (if decide (count w s + n < 0) then Panic NegativeWaitGroup else Ret tt,
   put (<[w := count w s + n]> (view s)) s).
Proof.
  unfold wg_add, load, store, go_bind, go_gets, go_modify, count. by case_decide.
Qed.

Lemma count_put w w' z s :
  count w (put (<[w' := z]> (view s)) s) = if decide (w = w') then z else count w s.
Proof.
  unfold count, counter. rewrite view_put. case_decide as Hw.
  - subst. by rewrite lookup_insert_eq.
  - by rewrite lookup_insert_ne.
Qed.

Lemma pending_put w (g : waitgroups) s : pending w (put g s) = pending w s.
Proof. unfold pending. by rewrite disjoint_r. Qed.

Lemma wg_add_grows w : grows (φ w) 1 (wg_add w 1).
Proof.
  intros s r s' Hr. rewrite wg_add_run in Hr. injection Hr as _ <-.
  unfold φ. rewrite pending_put, count_put, decide_True by done. lia.
Qed.

Lemma φ_put_count w (c : openstack) s : count w (put c s) = count w s.
Proof. unfold count. by rewrite disjoint_l. Qed.

Lemma neutron_φ w {A} (f : S → A * S) :
  (∀ s, view (C:=openstack) (snd (f s)) = view s) →
  (∀ s, view (C:=waitgroups) (snd (f s)) = view s) → preserves (φ w) (go_call f).
Proof.
  intros Ho Hw. apply preserves_call. intros s. unfold φ, count, pending. by rewrite Ho, Hw.
Qed.

Lemma submit_create_grows w t : grows (φ w) (- calls w t) (Openstack.submit_create (S:=S) t).
Proof.
  intros s r s' Hr. rewrite (OpenstackFacts.submit_create_run t s _ eq_refl) in Hr.
  injection Hr as _ <-. pose proof (calls_nonneg w t). case_decide; [|lia].
  unfold φ, pending. rewrite φ_put_count, view_put. simpl.
  rewrite !total_of_app. simpl. lia.
Qed.

Lemma submit_att_run t s :
  Openstack.submit_att (S:=S) t s =
  (Ret tt, if decide (length (attPool (view s)) < pool_cap)%nat then
             put {| createPool := createPool (view s); attPool := attPool (view s) ++ [t] |} s
           else s).
Proof. unfold Openstack.submit_att, load, go_bind, go_gets. by case_decide. Qed.

Lemma submit_att_grows w t : grows (φ w) (- calls w t) (Openstack.submit_att (S:=S) t).
Proof.
  intros s r s' Hr. rewrite submit_att_run in Hr. injection Hr as _ <-.
  pose proof (calls_nonneg w t). case_decide; [|lia].
  unfold φ, pending. rewrite φ_put_count, view_put. simpl. rewrite !total_of_app. simpl. lia.
Qed.

Lemma UpdatePort_grows w o n fn : grows (φ w) 0 (UpdatePort (S:=S) o n CreateE false fn).
Proof.
  simpl. unfold Openstack.UpdatePort. case_decide; [apply grows_ret|].
  case_decide; [apply grows_ret|].
  eapply grows_weaken; [|apply grows_bind; [apply (grows_acc _ (λ _, 0))|intros; apply grows_ret]].
  - rewrite Z.add_0_r. by apply total_of_nonneg.
  - intros _ i _. apply (submit_create_grows w (CreateTask o n)).
Qed.

Lemma UpdateInstancePort_grows w o (e : Event) fn :
  e = CreateE ∨ e = DeleteE → grows (φ w) 0 (UpdateInstancePort (S:=S) o e false fn).
Proof.
  intros Hev. simpl. unfold Openstack.UpdateInstancePort. case_decide; [apply grows_ret|].
  destruct Hev as [-> | ->];
    (eapply grows_weaken; [|apply grows_bind; [apply (submit_att_grows w)|intros; apply grows_ret]]);
    simpl; lia.
Qed.

Lemma UpdateInterfacePort_create w id ps :
  grows (φ w) (-1) (UpdateInterfacePort (S:=S) id (Some ps) CreateE false (Some w)).
Proof.
  simpl. case_decide; [eapply grows_weaken; [|apply grows_ret]; lia|].
  eapply grows_weaken; [|apply grows_bind; [apply (submit_att_grows w)|intros; apply grows_ret]].
  simpl. case_decide; lia.
Qed.

Lemma UpdateInterfacePort_delete w id ps fn :
  grows (φ w) 0 (UpdateInterfacePort (S:=S) id (Some ps) DeleteE false fn).
Proof.
  simpl. case_decide; [apply grows_ret|].
  eapply grows_weaken; [|apply grows_bind; [apply (submit_att_grows w)|intros; apply grows_ret]].
  simpl. lia.
Qed.

(** *** The end of the tasks *)

(** A finished task gives back at most the [Done] that it was counted for. *)
Lemma task_count w i t s s' :
  Openstack.recovered (Openstack.task_body run_done i t) s = (Ret tt, s') →
  count w s - calls w t ≤ count w s'.
Proof.
  assert (Hcall : ∀ {A} (f : S → A * S) s, (∀ s, view (C:=waitgroups) (snd (f s)) = view s) →
    count w (snd (f s)) = count w s) by (intros A f s1 Hf; unfold count; by rewrite Hf).
  assert (Hdone : ∀ {A} (f : S → A * S) s s', (∀ s, view (C:=waitgroups) (snd (f s)) = view s) →
    Openstack.recovered (go_call f ;;; go_ret tt) s = (Ret tt, s') → count w s' = count w s).
  { intros A f s1 s2 Hf Hr. unfold Openstack.recovered, go_bind, go_call in Hr.
    rewrite <-(Hcall A f s1 Hf). destruct (f s1). by simplify_eq/=. }
  pose proof (calls_nonneg w t) as Hnn. destruct t as [o n|id|inst main fn|inst main|id ps fn|id ps];
    simpl; intros Hr.
  - apply Hdone in Hr; [lia|intros; apply OpenstackFacts.ports_create_view].
  - apply Hdone in Hr; [lia|intros; apply OpenstackFacts.ports_delete_view].
  - unfold Openstack.recovered, Openstack.attachPort in Hr. rewrite decide_False in Hr by naive_solver.
    unfold go_bind, go_call in Hr.
    rewrite <-(Hcall _ (attach_create inst (if decide (main ≠ "") then main else "")) s)
      by (intros; apply OpenstackFacts.attach_create_view).
    destruct (attach_create _ _ s). simplify_eq/=. lia.
  - apply Hdone in Hr; [lia|intros; apply OpenstackFacts.attach_delete_view].
  - unfold Openstack.recovered, Openstack.assignPort, go_bind, go_call in Hr.
    rewrite <-(Hcall _ (pairs_add id ps) s) by (intros; apply OpenstackFacts.pairs_add_view).
    destruct (pairs_add id ps s) as [[err p] s1]. simpl.
    unfold Openstack.call_back, go_bind, go_lift in Hr.
    destruct fn as [f|]; [|simplify_eq/=; lia]. destruct (fromPorts p); [|simplify_eq/=..]; cycle 1.
    { simpl in Hnn. lia. }
    unfold run_done, wg_done in Hr. rewrite wg_add_run in Hr.
    set (s2 := put _ s1) in *.
    assert (s' = s2) as -> by (case_decide; by simplify_eq/=).
    unfold s2. rewrite count_put. repeat case_decide; simplify_eq; lia.
  - apply Hdone in Hr; [lia|intros; apply OpenstackFacts.pairs_remove_view].
Qed.

Lemma tasks_count w l s s' :
  for_acc l (λ _ t, Openstack.recovered (Openstack.task_body run_done (Openstack.loop_end t) t)) tt s =
    (Ret tt, s') → count w s - total_of (calls w) l ≤ count w s'.
Proof.
  revert s. induction l as [|t l IH]; intros s Hr; simpl in *; [simplify_eq; lia|].
  apply go_bind_inv in Hr as ([] & s1 & H1 & Hr). apply (task_count w) in H1. apply IH in Hr. lia.
Qed.

Lemma settle_grows w s s' :
  settle s = (Ret tt, s') → φ w s ≤ φ w s' ∧ pending w s' = 0.
Proof.
  simpl. unfold Openstack.settle_tasks, load, go_bind at 1, go_gets. intros Hr.
  apply go_bind_inv in Hr as ([] & s1 & Hl & Hr). apply (tasks_count w) in Hl.
  injection Hr as <-. rewrite (total_of_perm _ _ _ (range_order_perm _)), total_of_app in Hl.
  assert (Hp : pending w (put empty_openstack s1) = 0) by (unfold pending; by rewrite view_put).
  split; [|done]. unfold φ. rewrite Hp, φ_put_count. unfold pending. rewrite total_of_app. lia.
Qed.

(** A wait that returns found the counter at zero, and so the potential. *)
Lemma wg_wait_grows w s r s' : wg_wait w s = (Ret r, s') → φ w s ≤ 0 ∧ φ w s ≤ φ w s'.
Proof.
  unfold wg_wait, load, go_bind at 1, go_gets. intros Hr.
  assert (Hpend : ∀ s, 0 ≤ pending w s) by (intros; apply total_of_nonneg, calls_nonneg).
  case_decide as Hz.
  - injection Hr as _ <-. unfold φ, count. rewrite Hz. specialize (Hpend s). lia.
  - apply go_bind_inv in Hr as ([] & s1 & Hs & Hr). apply (settle_grows w) in Hs as [Hs Hp].
    unfold go_bind in Hr. case_decide as Hz1; [|done]. injection Hr as _ <-.
    change (count w s1 = 0) in Hz1. unfold φ in *. lia.
Qed.

(** *** The handler *)
Definition one (P : Prop) `{Decision P} : Z := if decide P then 1 else 0.

Lemma one_nonneg P `{Decision P} : 0 ≤ one P.
Proof. unfold one. case_decide; lia. Qed.

Lemma one_zero P `{Decision P} : one P = 0 → ¬ P.
Proof. unfold one. by case_decide. Qed.

Lemma grows_eq {A} n n' (m : go S A) (f : S → Z) : n = n' → grows f n m → grows f n' m.
Proof. by intros ->. Qed.

Lemma create_pool_grows w ev ifs no po :
  grows (φ w) (one (PoAdd po ≠ 0)) (create_pool w ev ifs no po).
Proof.
  unfold create_pool, one. apply (grows_eq ((if decide (PoAdd po ≠ 0) then 1 else 0) + 0)); [lia|].
  apply grows_bind; [|intros; apply grows_ret]. case_decide; [|apply grows_ret].
  apply (grows_eq (1 + (0 + 0))); [lia|]. apply grows_bind; [apply wg_add_grows|]. intros [].
  apply grows_bind; [apply UpdatePort_grows|intros; apply grows_ret].
Qed.

Definition node_creates no : Z :=
  one (NoAdd no ≠ 0) + total_of (λ po, one (PoAdd po ≠ 0)) (NoPools no).

Lemma create_node_grows w ev acc no : grows (φ w) (node_creates no) (create_node w ev acc no).
Proof.
  unfold create_node, node_creates. destruct acc as [nodes ifs]. cbv zeta.
  apply grows_bind; [|intros []].
  - unfold one. case_decide; [|apply grows_ret].
    apply (grows_eq (1 + (0 + 0))); [lia|]. apply grows_bind; [apply wg_add_grows|]. intros [].
    apply grows_bind; [apply UpdatePort_grows|intros; apply grows_ret].
  - apply (grows_eq (total_of (λ po, one (PoAdd po ≠ 0)) (NoPools no) + 0)); [lia|].
    apply grows_bind; [|intros; apply grows_ret].
    apply grows_acc. intros; apply create_pool_grows.
Qed.

(** The nodes that the listing is matched with: those of the event. *)
Definition knows (nodes : gmap string Instance_) (names : list string) : Prop :=
  (∀ n, n ∈ names → is_Some (nodes !! n)) ∧ map_Forall (λ _ i, interfaces i = ∅) nodes.

Lemma create_nodes_known w ev l nodes ifs names s r s' :
  knows nodes names → for_acc l (create_node w ev) (nodes, ifs) s = (Ret r, s') →
  knows r.1 (names ++ (NoName <$> l)).
Proof.
  revert nodes ifs names s. induction l as [|no l IH]; intros nodes ifs names s Hk Hr.
  - injection Hr as <- <-. by rewrite app_nil_r.
  - simpl in Hr. apply go_bind_inv in Hr as ([nodes1 ifs1] & s1 & Hn & Hr).
    rewrite fmap_cons, cons_middle, app_assoc. eapply IH; [|exact Hr].
    unfold create_node in Hn. apply go_bind_inv in Hn as ([] & s2 & _ & Hn).
    apply go_bind_inv in Hn as (ifs2 & s3 & _ & Hn). injection Hn as <- <- <-.
    destruct Hk as [Hk1 Hk2]. split.
    + intros n. rewrite elem_of_app, list_elem_of_singleton. intros Hn.
      destruct (decide (NoName no = n)) as [<-|Hne]; [by rewrite lookup_insert_eq|].
      rewrite lookup_insert_ne by done. apply Hk1. naive_solver.
    + by apply map_Forall_insert_2.
Qed.

(** The interface belongs to a virtual machine of the event. *)
Definition attaches (names : list string) (i : Interface) : Prop :=
  IfIp i ≠ "" ∧ HasPrefix (IfName i) VMInterfaceName = true ∧
  TrimPrefix (IfName i) VMInterfaceName ∈ names.

#[local] Instance attaches_dec names i : Decision (attaches names i).
Proof. unfold attaches. apply _. Defined.

(** The listing goes on after every interface. *)
Lemma visit_goes_on w nodes ifs pairs i s r s' :
  visit w nodes ifs pairs i s = (Ret r, s') → r.2 = (true, None).
Proof.
  unfold visit. intros Hr. repeat case_match; simplify_eq/=; try done;
    repeat match goal with
           | H : go_bind _ _ _ = (Ret _, _) |- _ => apply go_bind_inv in H as (? & ? & _ & H)
           end; simplify_eq/=; done.
Qed.

Lemma visit_grows w nodes names ifs pairs i :
  knows nodes names → grows (φ w) (one (attaches names i)) (visit w nodes ifs pairs i).
Proof.
  intros [Hk1 Hk2]. unfold visit.
  assert (Hskip : ∀ r, ¬ attaches names i → grows (φ w) (one (attaches names i)) (go_ret (S:=S) (A:=pairs_map * (bool * option error)) r)).
  { intros r Hn. unfold one. rewrite decide_False by done. apply grows_ret. }
  case_decide; [apply Hskip; by intros []|]. cbv zeta.
  set (pod := if HasPrefix (IfName i) PodInterfaceName then _ else _).
  assert (Hpod : grows (φ w) 0 pod) by (unfold pod; repeat case_match; apply grows_ret).
  destruct (HasPrefix (IfName i) VMInterfaceName) eqn:Hvm.
  - destruct (nodes !! _) as [no|] eqn:Hno.
    + rewrite (Hk2 _ _ Hno), lookup_empty.
      eapply grows_weaken; [|apply grows_bind; [apply wg_add_grows|intros []; apply grows_bind;
        [by apply UpdateInstancePort_grows; left|intros; apply Hpod]]].
      unfold one. case_decide; lia.
    + apply Hskip. intros (_ & _ & Hin). apply Hk1 in Hin as [x Hx]. congruence.
  - unfold one. rewrite decide_False; [done|]. intros (_ & Hp & _). congruence.
Qed.

Definition listed (l : list (error + Interface)) : list Interface :=
  omap (λ x, match x with inl _ => None | inr i => Some i end) l.

(** A listing without an error visits every interface. *)
Lemma each_grows w nodes names ifs l pairs s r s' :
  knows nodes names →
  OpenstackFacts.each (visit w nodes ifs) l pairs s = (Ret r, s') →
  φ w s ≤ φ w s' ∧
  (r.2 = None → φ w s + total_of (λ i, one (attaches names i)) (listed l) ≤ φ w s' ∧
                Forall (λ x, ∃ i, x = inr i) l).
Proof.
  intros Hk. revert pairs s. induction l as [|[e|i] l IH]; intros pairs s Hr; simpl in Hr.
  - injection Hr as <- <-. simpl. split; [lia|]. intros _. split; [lia|done].
  - injection Hr as <- <-. split; [lia|done].
  - apply go_bind_inv in Hr as ([pairs1 [ok err]] & s1 & Hv & Hr).
    pose proof (visit_goes_on _ _ _ _ _ _ _ _ Hv) as [= -> ->].
    pose proof (visit_grows w nodes names ifs pairs i Hk _ _ _ Hv) as Hg.
    pose proof (one_nonneg (attaches names i)).
    destruct (IH _ _ Hr) as [H1' H2']. split; [lia|]. intros Hnone.
    destruct (H2' Hnone) as [Hsum Hall]. split; [|constructor; [by exists i|done]].
    change (listed (inr i :: l)) with (i :: listed l). simpl. lia.
Qed.

Lemma update_pairs_create w pairs : grows (φ w) 0 (update_pairs w CreateE pairs).
Proof.
  unfold update_pairs. eapply grows_weaken; [|apply (grows_acc _ (λ _, 0))].
  - by apply total_of_nonneg.
  - intros _ kv _. apply (grows_eq (1 + (-1 + 0))); [lia|].
    apply grows_bind; [apply wg_add_grows|]. intros [].
    apply grows_bind; [apply UpdateInterfacePort_create|intros; apply grows_ret].
Qed.

Lemma update_pairs_delete w pairs : grows (φ w) 0 (update_pairs w DeleteE pairs).
Proof.
  unfold update_pairs. eapply grows_weaken; [|apply (grows_acc _ (λ _, 1))].
  - by apply total_of_nonneg.
  - intros _ kv _. apply (grows_eq (1 + (0 + 0))); [lia|].
    apply grows_bind; [apply wg_add_grows|]. intros [].
    apply grows_bind; [apply UpdateInterfacePort_delete|intros; apply grows_ret].
Qed.

(** The size of a set, nil or not. *)
Definition members (X : hset) : Z := Z.of_nat (size (default ∅ X)).

Lemma Values_members (X : hset) l : HashSet.Values X = Ret l → is_Some X ∧ members X = Z.of_nat (length l).
Proof.
  destruct X as [i|]; [|done]. intros [= <-]. split; [done|]. unfold members; simpl.
  by rewrite range_order_perm.
Qed.

Lemma remove_main_grows w no mid : grows (φ w) 1 (remove_main w no mid).
Proof.
  unfold remove_main. apply (grows_eq (0 + (1 + (0 + 0)))); [lia|].
  apply grows_bind; [apply grows_lift|]. intros id. apply grows_bind; [apply wg_add_grows|].
  intros []. apply grows_bind; [by apply UpdateInstancePort_grows; right|intros; apply grows_ret].
Qed.

Lemma remove_pair_grows w no pairs im : grows (φ w) 1 (remove_pair w no pairs im).
Proof.
  unfold remove_pair. apply (grows_eq (0 + (1 + 0))); [lia|].
  apply grows_bind; [apply grows_lift|]. intros [ip mac].
  apply grows_bind; [apply wg_add_grows|intros; apply grows_ret].
Qed.

(** A loop over the values of a set grows by the size of the set. *)
Lemma over_values {B} w (X : hset) (f : B → key → go S B) b :
  (∀ b k, grows (φ w) 1 (f b k)) →
  ∀ s r s', (let* l := go_lift (HashSet.Values X) in for_acc l f b) s = (Ret r, s') →
  is_Some X ∧ φ w s + members X ≤ φ w s'.
Proof.
  intros Hf s r s' Hr. apply go_bind_inv in Hr as (l & s1 & Hl & Hr).
  unfold go_lift in Hl. injection Hl as Hl <-. apply Values_members in Hl as [HX ->].
  split; [done|]. rewrite <-total_of_length.
  eapply (grows_acc _ (λ _, 1)); [|exact Hr]. auto.
Qed.

Definition node_removes no : Z :=
  members (NoRemove no) + total_of (λ po, members (PoRemove po)) (NoPools no).

Definition sets_made no : Prop :=
  is_Some (NoRemove no) ∧ ∀ po, po ∈ NoPools no → is_Some (PoRemove po).

Lemma remove_node_grows w pairs no s r s' :
  remove_node w pairs no s = (Ret r, s') → sets_made no ∧ φ w s + node_removes no ≤ φ w s'.
Proof.
  unfold remove_node. intros Hr.
  assert (Hsplit : ∃ s1 r1, (let* l := go_lift (HashSet.Values (NoRemove no)) in
      for_acc l (λ _ mid, remove_main w no mid) tt) s = (Ret r1, s1) ∧
    for_acc (NoPools no) (λ pairs po,
      let* ims := go_lift (HashSet.Values (PoRemove po)) in
      for_acc ims (remove_pair w no) pairs) pairs s1 = (Ret r, s')).
  { apply go_bind_inv in Hr as (l & s0 & Hl & Hr). apply go_bind_inv in Hr as (u & s1 & Hm & Hr).
    exists s1, u. split; [|done]. by rewrite (go_bind_run _ _ _ _ _ Hl). }
  destruct Hsplit as (s1 & u & Hm & Hp). apply (over_values w) in Hm as [Hn Hm];
    [|intros; apply remove_main_grows].
  split.
  - split; [done|]. intros po Hpo.
    destruct (for_acc_ran _ _ _ _ _ _ Hp po Hpo) as (b1 & s2 & b2 & s3 & Hb).
    eapply over_values in Hb as [? _]; [done|]. intros; apply remove_pair_grows.
  - eapply (grows_acc (φ w) (λ po, members (PoRemove po))) in Hp; [unfold node_removes; lia|].
    intros b po _ s2 r2 s3 Hb. eapply (over_values w) in Hb as [_ ?]; [done|].
    intros; apply remove_pair_grows.
Qed.

(** What an event asks for besides assignments. *)
Definition creates_nothing ev : Prop :=
  ∀ no, no ∈ EvNodes ev → NoAdd no = 0 ∧ ∀ po, po ∈ NoPools no → PoAdd po = 0.

Definition removes_nothing ev : Prop :=
  ∀ no, no ∈ EvNodes ev →
    NoRemove no = Some ∅ ∧ ∀ po, po ∈ NoPools no → PoRemove po = Some ∅.

Lemma members_nonneg X : 0 ≤ members X.
Proof. unfold members. lia. Qed.

Lemma members_zero X : is_Some X → members X = 0 → X = Some ∅.
Proof.
  intros [i ->] Hz. unfold members in Hz; simpl in Hz. f_equal.
  apply leibniz_equiv, size_empty_inv. lia.
Qed.

Lemma no_creates ev :
  total_of node_creates (EvNodes ev) ≤ 0 → creates_nothing ev.
Proof.
  assert (Hp : ∀ no, 0 ≤ total_of (λ po, one (PoAdd po ≠ 0)) (NoPools no))
    by (intros; apply total_of_nonneg; intros; apply one_nonneg).
  assert (Hn : ∀ no, 0 ≤ node_creates no).
  { intros no. unfold node_creates. pose proof (one_nonneg (NoAdd no ≠ 0)). specialize (Hp no). lia. }
  intros Hz no Hno. pose proof (total_of_zero _ _ Hn Hz no Hno) as H0.
  unfold node_creates in H0. pose proof (one_nonneg (NoAdd no ≠ 0)). specialize (Hp no).
  assert (Hadd : one (NoAdd no ≠ 0) = 0) by lia. apply one_zero in Hadd. split; [lia|].
  intros po Hpo. assert (Hz' : total_of (λ po, one (PoAdd po ≠ 0)) (NoPools no) ≤ 0) by lia.
  pose proof (total_of_zero _ _ (λ po, one_nonneg (PoAdd po ≠ 0)) Hz' po Hpo) as Hpo0.
  apply one_zero in Hpo0. lia.
Qed.

Lemma no_removes ev :
  (∀ no, no ∈ EvNodes ev → sets_made no) →
  total_of node_removes (EvNodes ev) ≤ 0 → removes_nothing ev.
Proof.
  assert (Hp : ∀ no, 0 ≤ total_of (λ po, members (PoRemove po)) (NoPools no))
    by (intros; apply total_of_nonneg; intros; apply members_nonneg).
  assert (Hn : ∀ no, 0 ≤ node_removes no).
  { intros no. unfold node_removes. pose proof (members_nonneg (NoRemove no)). specialize (Hp no). lia. }
  intros Hmade Hz no Hno. pose proof (total_of_zero _ _ Hn Hz no Hno) as H0.
  destruct (Hmade no Hno) as [HX HP]. unfold node_removes in H0.
  pose proof (members_nonneg (NoRemove no)). specialize (Hp no). split.
  - apply members_zero; [done|lia].
  - intros po Hpo. apply members_zero; [by apply HP|].
    apply (total_of_zero (λ po, members (PoRemove po)) (NoPools no)); [|lia|done].
    intros; apply members_nonneg.
Qed.

Lemma remove_nodes_grow w l pairs s r s' :
  for_acc l (remove_node w) pairs s = (Ret r, s') →
  (∀ no, no ∈ l → sets_made no) ∧ φ w s + total_of node_removes l ≤ φ w s'.
Proof.
  intros Hr. split.
  - intros no Hno. destruct (for_acc_ran _ _ _ _ _ _ Hr no Hno) as (b1 & s1 & b2 & s2 & Hb).
    by apply remove_node_grows in Hb as [? _].
  - eapply (grows_acc (φ w) node_removes) in Hr; [done|].
    intros b no _ s1 r1 s2 Hb. by apply remove_node_grows in Hb as [_ ?].
Qed.

(** The listing of an event's subnet. *)
Definition event_opt ev : Opt :=
  {| OptSubnet := EvSubnatId ev; OptVpc := EvVpcId ev; OptProject := EvProjectId ev;
     OptPort := ""; OptInstance := ""; OptPortName := ""; OptInstanceName := ""; OptIp := "" |}.

(** A listing that fails, or that is never asked for. *)
Definition listing_fails ev (pages : list (page Port)) : Prop :=
  EvSubnatId ev = "" ∨ ∃ e, inl e ∈ OpenstackFacts.visited pages.

(** What the service answers when the ports of an event's subnet are listed
    in a state. *)
Definition listing ev s : list (page Port) := fst (ports_list (listOpts (event_opt ev)) s).

Lemma listing_grows w ev nodes names ifs s r s' :
  knows nodes names →
  EachInterface (event_opt ev) (visit w nodes ifs) ∅ s = (Ret r, s') →
  φ w s ≤ φ w s' ∧
  ((is_Some r.2 ∧ listing_fails ev (listing ev s)) ∨
   (r.2 = None ∧ φ w s + total_of (λ i, one (attaches names i))
                           (listed (OpenstackFacts.visited (listing ev s))) ≤ φ w s')).
Proof.
  intros Hk Hr. simpl in Hr. unfold Openstack.EachInterface in Hr.
  case_decide as Hsub.
  { injection Hr as <- <-. split; [lia|]. left. split; [done|]. by left. }
  apply go_bind_inv in Hr as (pages' & s1 & Hp & Hr).
  assert (Hphi : φ w s1 = φ w s).
  { eapply (preserves_end (φ w)); [|exact Hp].
    apply neutron_φ; intros; apply OpenstackFacts.ports_list_view. }
  assert (pages' = listing ev s) as ->.
  { unfold go_call in Hp. unfold listing. destruct (ports_list _ s). by simplify_eq/=. }
  rewrite OpenstackFacts.EachPage_visited in Hr. rewrite <-Hphi.
  destruct (each_grows w nodes names ifs _ _ _ _ _ Hk Hr) as [Hle Hall]. split; [done|].
  destruct (r.2) as [e|] eqn:He; [left|by right; split; [|apply Hall]].
  split; [done|]. right. clear -Hr He.
  revert Hr. generalize (∅ : pairs_map). revert s1.
  induction (OpenstackFacts.visited (listing ev s)) as [|[e1|i] l IH]; intros s1 pairs Hr; simpl in Hr.
  - injection Hr as <- <-. done.
  - exists e1. set_solver.
  - apply go_bind_inv in Hr as ([pairs1 [ok err]] & s2 & Hv & Hr).
    pose proof (visit_goes_on _ _ _ _ _ _ _ _ Hv) as [= -> ->].
    destruct (IH _ _ Hr) as [e2 He2]. exists e2. set_solver.
Qed.

(** *** The state at the listing *)

Lemma create_pool_nothing w ev ifs no po s :
  PoAdd po = 0 → ∃ ifs', create_pool w ev ifs no po s = (Ret ifs', s).
Proof. intros Hpo. unfold create_pool. rewrite decide_False by lia. by eexists. Qed.

Lemma create_node_nothing w ev acc no s :
  NoAdd no = 0 → (∀ po, po ∈ NoPools no → PoAdd po = 0) →
  ∃ acc', create_node w ev acc no s = (Ret acc', s).
Proof.
  intros Hno Hpo. destruct acc as [nodes ifs]. unfold create_node. rewrite decide_False by lia.
  edestruct (for_acc_still (NoPools no) (λ ifs po, create_pool w ev ifs no po) ifs s) as [r Hr].
  - intros b po Hin. by apply create_pool_nothing, Hpo.
  - eexists. unfold go_bind, go_ret. by rewrite Hr.
Qed.

(** An event that creates nothing is listed in the state it was found in: no
    port was asked for, so the first wait does not block. *)
Lemma creates_nothing_still w ev acc s r s1 u s2 :
  creates_nothing ev → count w s = 0 →
  for_acc (EvNodes ev) (create_node w ev) acc s = (Ret r, s1) →
  wg_wait w s1 = (Ret u, s2) → s2 = s.
Proof.
  intros Hev Hc Hn Hw. edestruct (for_acc_still (EvNodes ev) (create_node w ev) acc s) as [r' Hr'].
  - intros b no Hno. destruct (Hev no Hno). by apply create_node_nothing.
  - rewrite Hr' in Hn. injection Hn as _ <-.
    unfold wg_wait, load, go_bind, go_gets in Hw. rewrite decide_True in Hw by done.
    by injection Hw.
Qed.

(** C2. On Openstack the handler of an event finishes only when the event
    creates nothing, and then either the listing of its ports, as the service
    answers it to a handler that has changed nothing yet, fails or is not
    asked for, or the event also releases nothing and the listing shows no
    port of a virtual machine of the event: every other event blocks its
    worker for ever, or makes it panic. *)
Theorem processSubnatWork_finishes w ev s s' :
  count w s = 0 → pending w s = 0 →
  processSubnatWork w (Some ev) s = (Ret tt, s') →
  creates_nothing ev ∧
  (listing_fails ev (listing ev s) ∨
   removes_nothing ev ∧
   ∀ i, i ∈ listed (OpenstackFacts.visited (listing ev s)) →
        ¬ attaches (NoName <$> EvNodes ev) i).
Proof.
  intros Hc Hp Hr. assert (Hφ : φ w s = 0) by (unfold φ; lia).
  unfold processSubnatWork in Hr. fold (event_opt ev) in Hr.
  apply go_bind_inv in Hr as ([nodes ifs] & s1 & Hn & Hr).
  assert (Hk : knows nodes (NoName <$> EvNodes ev)).
  { change nodes with (nodes, ifs).1. change (NoName <$> EvNodes ev) with ([] ++ (NoName <$> EvNodes ev)).
    eapply create_nodes_known; [|exact Hn]. split; [set_solver|apply map_Forall_empty]. }
  pose proof Hn as Hrun. eapply (grows_acc (φ w) node_creates) in Hn; [|intros; apply create_node_grows].
  apply go_bind_inv in Hr as (u & s2 & Hw & Hr). pose proof (wg_wait_grows w _ _ _ Hw) as [Hw1 Hw2].
  assert (Hno : creates_nothing ev) by (apply no_creates; lia). split; [done|].
  pose proof (creates_nothing_still _ _ _ _ _ _ _ _ Hno Hc Hrun Hw) as ->.
  assert (Hcr : 0 ≤ total_of node_creates (EvNodes ev)).
  { apply total_of_nonneg. intros no. unfold node_creates. pose proof (one_nonneg (NoAdd no ≠ 0)).
    pose proof (total_of_nonneg (λ po, one (PoAdd po ≠ 0)) (NoPools no)
      (λ po, one_nonneg (PoAdd po ≠ 0))). lia. }
  apply go_bind_inv in Hr as ([pairs err] & s3 & Hl & Hr).
  destruct (listing_grows w ev _ _ _ _ _ _ Hk Hl) as [Hl1 [[_ Hf]|[Herr Hl2]]];
    [by left|right]. simpl in Herr. subst err.
  apply go_bind_inv in Hr as (u1 & s4 & Ha & Hr). apply (update_pairs_create w) in Ha.
  apply go_bind_inv in Hr as (pairs2 & s5 & Hrm & Hr).
  apply (remove_nodes_grow w) in Hrm as [Hmade Hrm].
  apply go_bind_inv in Hr as (u2 & s6 & Hd & Hr). apply (update_pairs_delete w) in Hd.
  apply wg_wait_grows in Hr as [Hw3 _].
  assert (Hat : 0 ≤ total_of (λ i, one (attaches (NoName <$> EvNodes ev) i))
                            (listed (OpenstackFacts.visited (listing ev s))))
    by (apply total_of_nonneg; intros; apply one_nonneg).
  assert (Hrn : 0 ≤ total_of node_removes (EvNodes ev)).
  { apply total_of_nonneg. intros no. unfold node_removes. pose proof (members_nonneg (NoRemove no)).
    pose proof (total_of_nonneg (λ po, members (PoRemove po)) (NoPools no) (λ po, members_nonneg _)). lia. }
  split; [apply no_removes; [done|lia]|].
  intros i Hi. set (names := NoName <$> EvNodes ev) in *.
  assert (Hz : total_of (λ i, one (attaches names i)) (listed (OpenstackFacts.visited (listing ev s))) ≤ 0)
    by lia.
  pose proof (total_of_zero _ _ (λ i, one_nonneg (attaches names i)) Hz i Hi) as Hone.
  by apply one_zero in Hone.
Qed.
End openstack.
End InfraOpsFacts.
