(* ===== verification/System.v ===== *)
(** * System: the components wired together

    The memory of every component beside the outside world, with the instances
    that connect the components as cmd/eni-controller/cmd/daemon.go does: the
    pool manager is the spiderpool controller, the node manager the node
    controller, the infrastructure the Openstack client.  The outside world is
    any type with any services: they answer as they like and may fail at every
    call.  The frame conditions that the components assume of each other are
    proved here, which shows that they can be met together. *)
From S2P Require Import Prelude.
From S2P Require Import HashSet.
From S2P Require Import Backoff.
From S2P Require Import Objects.
From S2P Require Import IPPool.
From S2P Require Import MemServer.
From S2P Require Import PoolFacts.
From S2P Require Import SpiderPool.
From S2P Require Import SpiderPoolFacts.
From S2P Require Import Node.
From S2P Require Import NodeFacts.
From S2P Require Import Infra.
From S2P Require Import Openstack.
From S2P Require Import OpenstackFacts.
From S2P Require Import Vpc.
From S2P Require Import VpcFacts.
From S2P Require Import InfraOps.
From S2P Require Import InfraOpsFacts.

(** A request that the process makes to write a pool. *)
Inductive pool_write :=
  | CreateRequest (o : SpiderIPPool)
  | PatchRequest (new base : SpiderIPPool)
  | DeleteRequest (n : string).

(** [sys_log] holds every request to write a pool that was made so far, the
    ones that failed included; no code reads it. *)
Record system (W : Type) := System {
  sys_pools : controller;
  sys_nodes : node_controller;
  sys_vpc : manager;
  sys_os : openstack;
  sys_wg : waitgroups;
  sys_log : list pool_write;
  sys_world : W
}.
Arguments System {W} _ _ _ _ _ _ _.
Arguments sys_pools {W} s.
Arguments sys_nodes {W} s.
Arguments sys_vpc {W} s.
Arguments sys_os {W} s.
Arguments sys_wg {W} s.
Arguments sys_log {W} s.
Arguments sys_world {W} s.

Section lenses.
Context {W : Type}.
Implicit Types (s : system W).

#[export] Instance pools_lens : Lens (system W) controller.
Proof.
  refine {| view := sys_pools; put := λ c s, System c (sys_nodes s) (sys_vpc s) (sys_os s)
    (sys_wg s) (sys_log s) (sys_world s) |}; by try intros [].
Defined.
#[export] Instance nodes_lens : Lens (system W) node_controller.
Proof.
  refine {| view := sys_nodes; put := λ c s, System (sys_pools s) c (sys_vpc s) (sys_os s)
    (sys_wg s) (sys_log s) (sys_world s) |}; by try intros [].
Defined.
#[export] Instance vpc_lens : Lens (system W) manager.
Proof.
  refine {| view := sys_vpc; put := λ c s, System (sys_pools s) (sys_nodes s) c (sys_os s)
    (sys_wg s) (sys_log s) (sys_world s) |}; by try intros [].
Defined.
#[export] Instance os_lens : Lens (system W) openstack.
Proof.
  refine {| view := sys_os; put := λ c s, System (sys_pools s) (sys_nodes s) (sys_vpc s) c
    (sys_wg s) (sys_log s) (sys_world s) |}; by try intros [].
Defined.
#[export] Instance wg_lens : Lens (system W) waitgroups.
Proof.
  refine {| view := sys_wg; put := λ c s, System (sys_pools s) (sys_nodes s) (sys_vpc s) (sys_os s)
    c (sys_log s) (sys_world s) |}; by try intros [].
Defined.
#[export] Instance log_lens : Lens (system W) (list pool_write).
Proof.
  refine {| view := sys_log; put := λ c s, System (sys_pools s) (sys_nodes s) (sys_vpc s) (sys_os s)
    (sys_wg s) c (sys_world s) |}; by try intros [].
Defined.

Definition set_world (w : W) s : system W :=
  System (sys_pools s) (sys_nodes s) (sys_vpc s) (sys_os s) (sys_wg s) (sys_log s) w.

(** A call of a service. *)
Definition on_world {A} (f : W → A * W) s : A * system W :=
  let '(a, w) := f (sys_world s) in (a, set_world w s).

(** A call of a service that is recorded. *)
Definition logged {A} (r : pool_write) (f : W → A * W) s : A * system W :=
  let '(a, s') := on_world f s in (a, put (sys_log s' ++ [r]) s').

(** The memory [C] is not part of the outside world. *)
Class Memory (C : Type) `{!Lens (system W) C} := view_set_world : ∀ w s, view (set_world w s) = view s.

#[export] Instance pools_memory : Memory controller.
Proof. done. Qed.
#[export] Instance nodes_memory : Memory node_controller.
Proof. done. Qed.
#[export] Instance vpc_memory : Memory manager.
Proof. done. Qed.
#[export] Instance os_memory : Memory openstack.
Proof. done. Qed.
#[export] Instance wg_memory : Memory waitgroups.
Proof. done. Qed.
#[export] Instance log_memory : Memory (list pool_write).
Proof. done. Qed.

#[export] Instance os_wg_disjoint : Disjoint (system W) openstack waitgroups.
Proof. by split. Qed.

Lemma on_world_eq {A} (f : W → A * W) s :
  on_world f s = (fst (f (sys_world s)), set_world (snd (f (sys_world s))) s).
Proof. unfold on_world. by destruct (f (sys_world s)). Qed.

Lemma on_world_view {C} `{!Lens (system W) C, !Memory C} {A} (f : W → A * W) s :
  view (snd (on_world f s)) = view s.
Proof. rewrite on_world_eq. apply view_set_world. Qed.

Lemma logged_eq {A} r (f : W → A * W) s :
  logged r f s = (fst (f (sys_world s)),
                  put (sys_log s ++ [r]) (set_world (snd (f (sys_world s))) s)).
Proof. unfold logged. by rewrite on_world_eq. Qed.

Lemma logged_view {C} `{!Lens (system W) C, !Memory C} {A} r (f : W → A * W) s :
  (∀ (l : list pool_write) s, view (C:=C) (put l s) = view s) →
  view (C:=C) (snd (logged r f s)) = view s.
Proof.
  intros Hl. pose proof (on_world_view (C:=C) f s) as Hv. unfold logged.
  destruct (on_world f s) as [a s']. change (view (C:=C) (put (sys_log s' ++ [r]) s') = view s).
  by rewrite Hl.
Qed.
End lenses.

(** ** The services *)
Section services.
Context {W : Type}.
Implicit Types (s : system W).

#[export] Instance pool_client `{!KubeClient W SpiderIPPool} : KubeClient (system W) SpiderIPPool := {|
  kget n := on_world (kget n);
  kcreate o := logged (CreateRequest o) (kcreate o);
  kpatch new base := logged (PatchRequest new base) (kpatch new base);
  kdelete n := logged (DeleteRequest n) (kdelete (O:=SpiderIPPool) n)
|}.

Definition plain_client {O} `{!KubeClient W O} : KubeClient (system W) O := {|
  kget n := on_world (kget n);
  kcreate o := on_world (kcreate o);
  kpatch new base := on_world (kpatch new base);
  kdelete n := on_world (kdelete (O:=O) n)
|}.

#[export] Instance node_client `{!KubeClient W NodeObject} : KubeClient (system W) NodeObject :=
  plain_client.
#[export] Instance subnet_client `{!KubeClient W Subnet_} : KubeClient (system W) Subnet_ :=
  plain_client.

#[export] Instance lister `{!NamespaceLister W} : NamespaceLister (system W) :=
  {| ns_list := on_world ns_list |}.

#[export] Instance neutron `{!Neutron W} : Neutron (system W) := {|
  ports_get id := on_world (ports_get id);
  ports_create o := on_world (ports_create o);
  ports_delete id := on_world (ports_delete id);
  ports_list o := on_world (ports_list o);
  attach_create i p := on_world (attach_create i p);
  attach_delete i p := on_world (attach_delete i p);
  attach_list i := on_world (attach_list i);
  pairs_add id ps := on_world (pairs_add id ps);
  pairs_remove id ps := on_world (pairs_remove id ps);
  subnets_get id := on_world (subnets_get id);
  zones_list := on_world zones_list
|}.

#[export] Instance pool_kube_frame `{!KubeClient W SpiderIPPool} : KubeFrame (system W) SpiderIPPool controller.
Proof. split; simpl; intros; rewrite ?logged_eq, ?on_world_eq; done. Qed.

Lemma plain_frame {O C} `{!KubeClient W O, !Lens (system W) C, !Memory C} :
  @KubeFrame (system W) O C plain_client _.
Proof. split; simpl; intros; apply on_world_view. Qed.

#[export] Instance node_kube_frame {C} `{!KubeClient W NodeObject, !Lens (system W) C, !Memory C} :
  KubeFrame (system W) NodeObject C := plain_frame.
#[export] Instance subnet_kube_frame {C} `{!KubeClient W Subnet_, !Lens (system W) C, !Memory C} :
  KubeFrame (system W) Subnet_ C := plain_frame.

#[export] Instance neutron_frame {C} `{!Neutron W, !Lens (system W) C, !Memory C} :
  OpenstackFacts.NeutronFrame C.
Proof. split; simpl; intros; apply on_world_view. Qed.
End services.

(** ** The components as the interfaces their clients see *)
Section components.
Context {W : Type} `{!RangeOrder, !JsonObject, !KubeClient W SpiderIPPool, !Neutron W}.

#[export] Instance system_pools : PoolManager (system W) := SpiderPoolFacts.spider_manager.
#[export] Instance system_pool_laws : PoolManagerLaws (system W) := SpiderPoolFacts.spider_manager_laws.

#[export] Instance system_nodes : NodeManager (system W) := NodeFacts.node_manager.
#[export] Instance system_node_laws : NodeManagerLaws (system W) := NodeFacts.node_manager_laws.

#[export] Instance system_infra : InfraClient (system W) := InfraOpsFacts.client.
#[export] Instance system_infra_frame {C} `{!Lens (system W) C, !Memory C} : InfraFrame (system W) C :=
  OpenstackFacts.openstack_frame _ _.
#[export] Instance system_settle : Settle (system W) := InfraOpsFacts.settle_all.

(** The pool manager touches no memory of the other components. *)
Lemma UpdatePool_frame {C} `{!Lens (system W) C, !Memory C} pl ev :
  (∀ (l : list pool_write) (s : system W), view (C:=C) (put l s) = view s) →
  preserves (view (C:=C)) (UpdatePool (S:=system W) pl ev).
Proof.
  intros Hl. apply SpiderPoolFacts.UpdatePool_preserves; intros;
    [apply on_world_view|by apply logged_view..].
Qed.

#[export] Instance nodes_pool_frame : PoolFacts.PoolFrame (system W) node_controller.
Proof. intros pl ev. by apply UpdatePool_frame. Qed.
#[export] Instance vpc_pool_frame : PoolFacts.PoolFrame (system W) manager.
Proof. intros pl ev. by apply UpdatePool_frame. Qed.

#[export] Instance vpc_node_frame : NodeFrame (system W) manager.
Proof. intros no. apply NodeFacts.CouldRemove_preserves. apply PoolFacts.update_view. Qed.
End components.

(** ** The laws of a server, seen from the system

    A client of the system answers as the client of the outside world does. *)
Class Lifts (W O : Type) `{!KubeClient W O, !KubeClient (system W) O} := {
  lift_get : ∀ n s, (fst (kget (O:=O) n s), sys_world (snd (kget (O:=O) n s))) = kget n (sys_world s);
  lift_create : ∀ (o : O) s, (fst (kcreate o s), sys_world (snd (kcreate o s))) = kcreate o (sys_world s);
  lift_patch : ∀ (o b : O) s,
    (fst (kpatch o b s), sys_world (snd (kpatch o b s))) = kpatch o b (sys_world s);
  lift_delete : ∀ n s,
    (fst (kdelete (O:=O) n s), sys_world (snd (kdelete (O:=O) n s))) = kdelete (O:=O) n (sys_world s)
}.

#[export] Instance pool_lifts {W} `{!KubeClient W SpiderIPPool} : Lifts W SpiderIPPool.
Proof. split; intros; simpl; rewrite ?logged_eq, ?on_world_eq; simpl; by rewrite <-surjective_pairing. Qed.
#[export] Instance node_lifts {W} `{!KubeClient W NodeObject} : Lifts W NodeObject.
Proof. split; intros; simpl; rewrite ?on_world_eq; simpl; by rewrite <-surjective_pairing. Qed.
#[export] Instance subnet_lifts {W} `{!KubeClient W Subnet_} : Lifts W Subnet_.
Proof. split; intros; simpl; rewrite ?on_world_eq; simpl; by rewrite <-surjective_pairing. Qed.

Section laws.
Context {W O : Type} `{!KubeObject O, !KubeClient W O, !KubeServer W O, !KubeClient (system W) O,
  !Lifts W O}.
Implicit Types (o : O) (s : system W).

Lemma lift_pair {A} (p : A * system W) (q : A * W) :
  (fst p, sys_world (snd p)) = q → fst p = fst q ∧ sys_world (snd p) = snd q.
Proof. by intros <-. Qed.

#[export] Instance lifted_server : KubeServer (system W) O.
Proof.
  refine {| kstore := λ s : system W, kstore (sys_world s) |}; intros.
  - by eapply kstore_name.
  - destruct (lift_pair _ _ (lift_get n s)) as [_ ->]. apply kget_store.
  - destruct (lift_pair _ _ (lift_create o s)) as [E ->]. apply kcreate_ok. congruence.
  - destruct (lift_pair _ _ (lift_create o s)) as [E ->]. eapply kcreate_err. by rewrite <-E.
  - destruct (lift_pair _ _ (lift_patch new base s)) as [E ->]. apply kpatch_ok; [congruence|done].
  - destruct (lift_pair _ _ (lift_patch new base s)) as [E ->].
    eapply kpatch_err; [by rewrite <-E|done].
  - destruct (lift_pair _ _ (lift_patch new base s)) as [-> ->]. by apply kpatch_absent.
  - destruct (lift_pair _ _ (lift_delete n s)) as [E ->]. apply kdelete_ok. congruence.
  - destruct (lift_pair _ _ (lift_delete n s)) as [E ->]. eapply kdelete_err. by rewrite <-E.
Defined.

#[export] Instance lifted_current `{!KubeCurrent W O} : KubeCurrent (system W) O.
Proof.
  split; intros n s; destruct (lift_pair _ _ (lift_get n s)) as [-> _];
    [intros o; apply (kget_found n (sys_world s))|apply (kget_not_found n (sys_world s))].
Qed.

#[export] Instance lifted_reliable `{!KubeReliable W O} : KubeReliable (system W) O.
Proof.
  split; intros.
  - destruct (lift_pair _ _ (lift_create o s)) as [-> _]. by apply (kcreate_succeeds o (sys_world s)).
  - destruct (lift_pair _ _ (lift_patch new base s)) as [-> _]. by apply (kpatch_succeeds new base (sys_world s)).
  - destruct (lift_pair _ _ (lift_delete n s)) as [-> _]. by apply (kdelete_succeeds n (sys_world s)).
Qed.

#[export] Instance lifted_exact `{!KubeExact W O} : KubeExact (system W) O.
Proof.
  intros n s. unfold caught_up. destruct (lift_pair _ _ (lift_get n s)) as [-> _]. apply (kget_exact n (sys_world s)).
Qed.

End laws.

#[export] Instance nodes_store_frame {W O} `{!KubeObject O, !KubeClient W O, !KubeServer W O,
  !KubeClient (system W) O, !Lifts W O} : StoreFrame (system W) O node_controller.
Proof. done. Qed.
#[export] Instance vpc_store_frame {W O} `{!KubeObject O, !KubeClient W O, !KubeServer W O,
  !KubeClient (system W) O, !Lifts W O} : StoreFrame (system W) O manager.
Proof. done. Qed.
