(* ===== verification/SystemFacts.v ===== *)
(** * SystemFacts: the components together

    Every handler of the wired system as one step, from the start of the
    process; what holds of the memory in every reachable state; and what no run
    of the steps can do: the program never asks to write a pool, as the cache
    of pools stays empty and every path that would create one panics first.
    The services are any: nothing is assumed of what they answer, and any of
    their calls may fail. *)
From S2P Require Import Prelude.
From S2P Require Import HashSet.
From S2P Require Import Backoff.
From S2P Require Import Objects.
From S2P Require Import IPPool.
From S2P Require Import PoolFacts.
From S2P Require Import SpiderPool.
From S2P Require Import SpiderPoolFacts.
From S2P Require Import Node.
From S2P Require Import NodeFacts.
From S2P Require Import Infra.
From S2P Require Import Openstack.
From S2P Require Import OpenstackFacts.
From S2P Require Import Vpc.
From S2P Require Import VpcFacts.
From S2P Require Import Work.
From S2P Require Import InfraOps.
From S2P Require Import InfraOpsFacts.
From S2P Require Import System.

Module SystemFacts.

Section system.
Context {W : Type} `{!RangeOrder, !JsonObject, !KubeClient W SpiderIPPool,
  !KubeClient W NodeObject, !KubeClient W Subnet_, !NamespaceLister W, !Neutron W}.
#[local] Notation system := (System.system W).
Context (cfg : VpcCfg).
Implicit Types (s : system) (log : list pool_write).

(** The node controller's callback: the vpc manager's. *)
Definition node_callback (_ : nat) (ni : option NodeInfo) : go system unit :=
  Vpc.callback (CbNode ni).

(** The handlers of the process. *)
Inductive handler : go system unit → Prop :=
  | pool_reconcile name : handler (SpiderPool.Reconcile name ;;; go_ret tt)
  | node_reconcile name : handler (Node.Reconcile name ;;; go_ret tt)
  | subnet_reconcile name : handler (Vpc.Reconcile cfg name ;;; go_ret tt)
  | subnet_start : handler (Vpc.Start cfg ;;; go_ret tt)
  | node_event : handler (Node.handle_event node_callback)
  | pool_event p : handler (Vpc.callback (CbPool p))
  | namespace_event n : handler (Vpc.callback (CbNamespace n))
  | event_work w ev : handler (InfraOps.processSubnatWork w ev)
  | task_end : handler settle.

(** A handler that returns, or blocks its goroutine; one that panics ends
    the process. *)
Inductive step : system → system → Prop :=
  | step_handler h s o s' :
      handler h → h s = (o, s') → (∀ p, o ≠ Panic p) → step s s'
  | step_outside s w : step s (set_world w s).

Inductive reachable : system → Prop :=
  | reach_init s :
      pools (sys_pools s) = ∅ → nodes (sys_nodes s) = ∅ → chan (sys_nodes s) = [] →
      NewManager cfg = inr (sys_vpc s) → reachable s
  | reach_step s s' : reachable s → step s s' → reachable s'.

(** The shape of the memory while the pools asked to be written are [log]: no
    pool is cached; the cached nodes are filed under their name and the channel
    of names is within its capacity; the cached subnets have sets and no name;
    the channel of events is nil, as NewManager leaves it. *)
Record sound log s : Prop := {
  sound_pools : pools (sys_pools s) = ∅;
  sound_log : sys_log s = log;
  sound_named : NodeFacts.named_cache (sys_nodes s);
  sound_chan : (length (chan (sys_nodes s)) ≤ chan_cap)%nat;
  sound_subnets : VpcFacts.cache_wf (sys_vpc s);
  sound_ch : ch (sys_vpc s) = None
}.

Section sound.
Context (log : list pool_write).
#[local] Notation P := (sound log).

(** Without a cached pool, EachPool calls nothing. *)
Lemma EachPool_quiet {B} (fn : B → Pool → go system (B * option error)) b s :
  P s → EachPool fn b s = (Ret b, s).
Proof.
  intros Hs. rewrite EachPool_spec. simpl. unfold SpiderPool.cache_values.
  rewrite (sound_pools _ _ Hs), map_to_list_empty. simpl.
  by rewrite (proj1 (Permutation_nil_r _) (range_order_perm [])).
Qed.

Lemma EachPool_stable {B} (fn : B → Pool → go system (B * option error)) b :
  stable P (EachPool fn b).
Proof. intros s Hq. by rewrite EachPool_quiet. Qed.

Lemma EachPool_bind_stable {A B} (fn : B → Pool → go system (B * option error)) b
    (k : B → go system A) :
  stable P (k b) → stable P (go_bind (EachPool fn b) k).
Proof. intros Hk s Hq. unfold go_bind. rewrite EachPool_quiet by done. by apply Hk. Qed.

(** Changes of the other parts of the state. *)
Lemma store_stable_os (c : openstack) : stable P (store c).
Proof. intros s []. by split. Qed.
Lemma store_stable_wg (c : waitgroups) : stable P (store c).
Proof. intros s []. by split. Qed.
Lemma load_stable {C} `{!Lens system C} : stable P load.
Proof. by intros s. Qed.

(** The services change the outside world only. *)
Lemma set_world_sound w s : P s → P (set_world w s).
Proof. intros []. by split. Qed.

Lemma service_stable {A} (f : W → A * W) : stable P (go_call (on_world f)).
Proof. apply stable_call. intros s Hs. rewrite on_world_eq. by apply set_world_sound. Qed.

(** A computation that leaves the three components and the log alone. *)
Lemma apart_stable {A} (m : go system A) :
  preserves (view (C:=controller)) m → preserves (view (C:=node_controller)) m →
  preserves (view (C:=manager)) m → preserves (view (C:=list pool_write)) m → stable P m.
Proof.
  intros Hp Hn Hv Hl s []. specialize (Hp s). specialize (Hn s). specialize (Hv s).
  specialize (Hl s). simpl in *. split; rewrite ?Hp, ?Hn, ?Hv, ?Hl; done.
Qed.

Lemma node_get_stable n : stable P (go_call (kget (O:=NodeObject) n)).
Proof. exact (service_stable (kget n)). Qed.
Lemma node_patch_stable (o b : NodeObject) : stable P (go_call (kpatch o b)).
Proof. exact (service_stable (kpatch o b)). Qed.
Lemma subnet_get_stable n : stable P (go_call (kget (O:=Subnet_) n)).
Proof. exact (service_stable (kget n)). Qed.
Lemma subnet_patch_stable (o b : Subnet_) : stable P (go_call (kpatch o b)).
Proof. exact (service_stable (kpatch o b)). Qed.
Lemma subnet_create_stable (o : Subnet_) : stable P (go_call (kcreate o)).
Proof. exact (service_stable (kcreate o)). Qed.

Lemma attempts_stable n (op : go system (option error)) :
  stable P op → stable P (Backoff.attempts n op).
Proof. intros Hop. induction n as [|n IH]; simpl; stab. Qed.

Lemma Backoff_stable (op : go system (option error)) :
  stable P op → stable P (Backoff.Backoff op).
Proof. intros Hop s Hq. rewrite Backoff.Backoff_attempts. by apply attempts_stable. Qed.

#[local] Hint Resolve store_stable_os store_stable_wg
  load_stable node_get_stable node_patch_stable subnet_get_stable subnet_patch_stable
  subnet_create_stable Backoff_stable EachPool_stable : stable_db.

(** *** The node controller *)
Lemma node_CouldRemove_stable no : stable P (Node.CouldRemove (S:=system) no).
Proof. unfold Node.CouldRemove. apply EachPool_bind_stable. stab. Qed.

Lemma store_nodes_stable (c : node_controller) s :
  NodeFacts.named_cache c → (length (chan c) ≤ chan_cap)%nat → P s → P (put c s).
Proof. intros Hn Hc []. by split. Qed.

#[local] Hint Resolve node_CouldRemove_stable : stable_db.

Lemma put_nodes_stable {A} (c : node_controller) (k : unit → go system A) :
  NodeFacts.named_cache c → (length (chan c) ≤ chan_cap)%nat →
  stable P (k tt) → stable P (go_bind (NodeFacts.put_nodes c) k).
Proof. intros Hn Hc Hk s Hs. apply Hk. by apply store_nodes_stable. Qed.

Lemma node_Reconcile_stable name : stable P (Node.Reconcile (S:=system) name).
Proof.
  intros s Hs. destruct (kget (O:=NodeObject) name s) as [r s1] eqn:Hget.
  assert (Hs1 : P s1).
  { simpl in Hget. rewrite on_world_eq in Hget. injection Hget as _ <-. by apply set_world_sound. }
  destruct r as [e|inn].
  - unfold Node.Reconcile. rewrite (go_bind_run _ _ s (inl e) s1) by (unfold go_call; by rewrite Hget).
    by destruct (IsNotFound e).
  - rewrite (NodeFacts.node_Reconcile_read name inn s s1 Hget).
    change (view s) with (sys_nodes s). pose proof (sound_chan _ _ Hs) as Hlen.
    assert (Hset : ∀ i (k : unit → go system Result),
      InfoName i = Name (NodeMeta inn) → stable P (k tt) →
      stable P (go_bind (NodeFacts.put_nodes
                  (Node.set_node (Name (NodeMeta inn)) i (sys_nodes s))) k)).
    { intros i k Hi Hk. apply put_nodes_stable; [|done..].
      exact (NodeFacts.set_node_named _ i _ (sound_named _ _ Hs) Hi). }
    pose proof (NodeFacts.observe_name inn
      (NodeFacts.entry (sys_nodes s) (Name (NodeMeta inn)))) as Hon.
    unfold NodeFacts.reconcile_read.
    destruct (deleted _); [|destruct (negb _); [|case_decide as Hroom]];
      try (apply Hset; [done|stab|done]).
    apply put_nodes_stable; [..|stab|done].
    + exact (NodeFacts.set_node_named _ _ _ (sound_named _ _ Hs) Hon).
    + simpl. rewrite length_app. simpl. lia.
Qed.

(** *** The subnet controller *)
Lemma couldRemove_stable name : stable P (Vpc.couldRemove (S:=system) name).
Proof. unfold Vpc.couldRemove. apply EachPool_bind_stable. stab. Qed.

Lemma put_vpc_stable {A} (m : manager) (k : unit → go system A) :
  VpcFacts.cache_wf m → ch m = None →
  stable P (k tt) → stable P (go_bind (store m) k).
Proof. intros Hm Hc Hk s []. apply Hk. by split. Qed.

#[local] Hint Resolve couldRemove_stable : stable_db.

Lemma put_vpc_sound (m : manager) s :
  VpcFacts.cache_wf m → ch m = None → P s → P (put m s).
Proof. intros Hm Hc []. by split. Qed.

Lemma Unlock_stable : stable P (Vpc.Unlock (S:=system)).
Proof. intros s []. by split. Qed.

#[local] Hint Resolve Unlock_stable : stable_db.

Lemma vpc_Reconcile_stable name : stable P (Vpc.Reconcile (S:=system) cfg name).
Proof.
  intros s Hs. destruct (kget (O:=Subnet_) name s) as [r s1] eqn:Hget.
  assert (Hs1 : P s1).
  { simpl in Hget. rewrite on_world_eq in Hget. injection Hget as _ <-. by apply set_world_sound. }
  destruct r as [e|inn].
  { unfold Vpc.Reconcile.
    by rewrite (go_bind_run _ _ s (inl e) s1) by (unfold go_call; by rewrite Hget). }
  destruct (VpcFacts.entry_wf inn (view (Lens:=vpc_lens) s) (sound_subnets _ _ Hs)) as [Hsets Hname].
  rewrite (VpcFacts.Reconcile_read cfg name inn s s1 Hget Hsets).
  change (view s) with (sys_vpc s) in *.
  assert (Hput : ∀ b sn, VpcFacts.sets_made sn → SnInfoName sn = "" →
    ∀ k : unit → go system Result, stable P (k tt) →
    P (snd (go_bind (store (VpcFacts.cached (Name (SubnetMeta inn)) sn
                              (Vpc.set_writer b (sys_vpc s)))) k s1))).
  { intros b sn Hsn1 Hsn2 k Hk. apply put_vpc_stable; [|exact (sound_ch _ _ Hs)|done|done].
    apply VpcFacts.cached_wf; [exact (sound_subnets _ _ Hs)|done]. }
  unfold VpcFacts.reconcile_read.
  set (sn := VpcFacts.entry inn (sys_vpc s)) in *. case_decide; [done|].
  destruct (writer (sys_vpc s)) eqn:Hw; [done|]. rewrite <-(VpcFacts.set_writer_id _ Hw) in Hput |- *.
  case_decide.
  2:{ apply put_vpc_sound; [exact (sound_subnets _ _ Hs)|exact (sound_ch _ _ Hs)|done]. }
  destruct (Deleted sn); [|destruct (negb _)].
  - apply (Hput true); [done..|stab].
  - apply (Hput false); [exact Hsets|exact Hname|stab].
  - destruct (VpcFacts.observe_wf cfg inn sn) as [Ho1 Ho2]; [done|]. apply (Hput false); [done..|stab].
Qed.

Lemma vpc_Start_stable : stable P (Vpc.Start (S:=system) cfg).
Proof. unfold Vpc.Start. destruct (Vpc.defaultEniSubnat cfg); stab. apply Backoff_stable. stab. Qed.

Lemma RLock_stable : stable P (Vpc.RLock (S:=system)).
Proof. intros s []. unfold Vpc.RLock, load, go_bind, go_gets. by destruct (writer _). Qed.
Lemma RUnlock_stable : stable P (Vpc.RUnlock (S:=system)).
Proof. intros s []. by split. Qed.
Lemma send_event_stable ev : stable P (Vpc.send_event (S:=system) ev).
Proof.
  intros s Hs. unfold Vpc.send_event, load, go_bind, go_gets. simpl.
  by rewrite (sound_ch _ _ Hs).
Qed.

#[local] Hint Resolve RLock_stable RUnlock_stable send_event_stable : stable_db.

(** The lookups of Openstack leave the memory. *)
Lemma GetInstance_stable o : stable P (GetInstance (S:=system) o).
Proof. apply apart_stable; apply GetInstance_view. Qed.

Lemma add_node_event_stable sn acc ni :
  stable P (Vpc.add_node_event (S:=system) sn acc ni).
Proof.
  unfold Vpc.add_node_event, Vpc.getNodeInterface, Vpc.getNamespace. destruct acc as [evs poinfo].
  apply stable_bind; [stab|]. intros found. destruct (negb found); [stab|].
  apply stable_bind; [apply stable_bind; [apply GetInstance_stable|stab]|]. intros noifs.
  apply EachPool_bind_stable. cbv zeta.
  apply stable_bind; [apply stable_bind; [exact (service_stable ns_list)|stab]|].
  intros nss s Hq. exact Hq.
Qed.

Lemma callback_stable v : stable P (Vpc.callback (S:=system) v).
Proof.
  assert (Hev : ∀ sn, stable P (Vpc.getSubnatEvent (S:=system) sn)).
  { intros sn. unfold Vpc.getSubnatEvent. apply stable_bind; [|by intros []; stab].
    intros s Hq. rewrite EachNode_spec. apply stable_until; [|done].
    intros; apply add_node_event_stable. }
  unfold Vpc.callback. destruct v; stab; apply Hev.
Qed.

#[local] Hint Resolve callback_stable : stable_db.

Lemma node_event_stable : stable P (Node.handle_event (S:=system) node_callback).
Proof.
  intros s Hs. pose proof (sound_chan _ _ Hs) as Hl.
  unfold Node.handle_event, load, go_bind at 1, go_gets. change (view s) with (sys_nodes s).
  cbv beta iota. destruct (chan (sys_nodes s)) as [|name rest] eqn:Hc; [exact Hs|].
  unfold go_bind, store, go_modify, node_callback. eapply (stable_acc P); [stab|].
  apply store_nodes_stable; [exact (sound_named _ _ Hs)|simpl in *; lia|done].
Qed.

(** *** The workers *)
Lemma wg_add_stable w n : stable P (InfraOps.wg_add (S:=system) w n).
Proof. unfold InfraOps.wg_add. cbv zeta. stab. Qed.

Lemma recovered_stable (m : go system unit) :
  stable P m → stable P (Openstack.recovered m).
Proof.
  intros Hm s Hq. specialize (Hm s Hq). unfold Openstack.recovered.
  by destruct (m s) as [[[]| |] s1].
Qed.

#[local] Hint Resolve wg_add_stable : stable_db.

Lemma task_stable i t :
  stable P (Openstack.recovered
    (Openstack.task_body (S:=system) InfraOpsFacts.run_done i t)).
Proof.
  apply recovered_stable. destruct t; simpl; (apply stable_bind; [|stab]).
  - apply service_stable.
  - apply service_stable.
  - unfold Openstack.attachPort. case_decide; [stab|]. apply stable_bind; [apply service_stable|stab].
  - apply service_stable.
  - unfold Openstack.assignPort. apply stable_bind; [apply service_stable|]. intros [err p].
    apply stable_bind; [|stab]. unfold Openstack.call_back. destruct postfn; [|stab].
    apply stable_bind; [stab|]. intros a. unfold InfraOpsFacts.run_done, InfraOps.wg_done. stab.
  - apply service_stable.
Qed.

#[local] Hint Resolve task_stable : stable_db.

Lemma settle_stable : stable P (settle (S:=system)).
Proof. simpl. unfold Openstack.settle_tasks. stab. Qed.

Lemma wg_wait_stable w : stable P (InfraOps.wg_wait (S:=system) w).
Proof. unfold InfraOps.wg_wait. pose proof settle_stable. stab. Qed.

Lemma UpdatePort_stable o n fn : stable P (UpdatePort (S:=system) o n CreateE false fn).
Proof.
  simpl. unfold Openstack.UpdatePort, Openstack.submit_creates, Openstack.submit_create. stab.
Qed.

Lemma UpdateInstancePort_stable o e fn :
  e = CreateE ∨ e = DeleteE → stable P (UpdateInstancePort (S:=system) o e false fn).
Proof.
  intros [-> | ->]; simpl; unfold Openstack.UpdateInstancePort, Openstack.submit_att; stab.
Qed.

Lemma UpdateInterfacePort_stable id ps e fn :
  e = CreateE ∨ e = DeleteE →
  stable P (UpdateInterfacePort (S:=system) id ps e false fn).
Proof.
  intros [-> | ->]; simpl; unfold Openstack.UpdateInterfacePort, Openstack.submit_att; stab.
Qed.

#[local] Hint Resolve wg_wait_stable UpdatePort_stable UpdateInstancePort_stable
  UpdateInterfacePort_stable : stable_db.

Lemma each_stable {B} (fn : B → Interface → go system (B * (bool * option error))) l b :
  (∀ b i, stable P (fn b i)) → stable P (OpenstackFacts.each fn l b).
Proof.
  intros Hf. revert b. induction l as [|[e|i] l IH]; intros b; simpl; [stab..|].
  apply stable_bind; [apply Hf|]. intros [b' [ok [e|]]]; stab.
Qed.

Lemma EachInterface_stable {B} o (fn : B → Interface → go system (B * (bool * option error))) b :
  (∀ b i, stable P (fn b i)) → stable P (EachInterface o fn b).
Proof.
  intros Hf. simpl. unfold Openstack.EachInterface. case_decide; [stab|].
  apply stable_bind; [apply service_stable|]. intros pages s Hq.
  rewrite OpenstackFacts.EachPage_visited. by apply each_stable.
Qed.

Lemma visit_stable w nodes ifs pairs i :
  stable P (InfraOps.visit (S:=system) w nodes ifs pairs i).
Proof. unfold InfraOps.visit. cbv zeta. stab. Qed.

Lemma work_stable w ev : stable P (InfraOps.processSubnatWork (S:=system) w ev).
Proof.
  unfold InfraOps.processSubnatWork. destruct ev as [ev|]; [|stab].
  apply stable_bind; [apply stable_acc; intros [nodes ifs] no;
    unfold InfraOps.create_node, InfraOps.create_pool; cbv zeta; stab|].
  intros [nodes ifs]. apply stable_bind; [stab|]. intros [].
  apply stable_bind; [apply EachInterface_stable; intros; apply visit_stable|].
  intros [pairs [e|]]; [stab|].
  unfold InfraOps.update_pairs, InfraOps.remove_node, InfraOps.remove_main, InfraOps.remove_pair.
  stab.
Qed.

(** *** The pool controller *)

(** A reconcile of a pool that gets past the annotation panics before it
    asks to write. *)
Lemma pool_Reconcile_sound name s o s' :
  P s → SpiderPool.Reconcile name s = (o, s') →
  sys_log s' = log ∧ ((∀ p, o ≠ Panic p) → P s').
Proof.
  intros Hs Hr. unfold SpiderPool.Reconcile in Hr.
  destruct (kget (O:=SpiderIPPool) name s) as [r s1] eqn:Hget.
  rewrite (go_bind_run _ _ s r s1) in Hr by (unfold go_call; by rewrite Hget).
  assert (Hs1 : P s1).
  { simpl in Hget. rewrite on_world_eq in Hget. injection Hget as _ <-. by apply set_world_sound. }
  pose proof (sound_pools _ _ Hs1) as Hp. pose proof (sound_log _ _ Hs1) as Hl.
  destruct r as [e|inn].
  - destruct (IsNotFound e); injection Hr as <- <-; [|done].
    split; [done|]. intros _. destruct Hs1. split; try done. simpl. by rewrite Hp, delete_empty.
  - destruct (Annotations (Meta inn) !! SubnatAnnotationsKey) as [subnat|];
      [|by injection Hr as <- <-].
    destruct (SpiderPoolFacts.reconcile_cached_panics inn subnat s1) as [c Hs2].
    { unfold SpiderPoolFacts.cache_wf. simpl. rewrite Hp. apply map_Forall_empty. }
    rewrite Hs2 in Hr. injection Hr as <- <-. split; [done|]. intros Hno. by edestruct Hno.
Qed.

Lemma handler_sound h s o s' :
  P s → handler h → h s = (o, s') → sys_log s' = log ∧ ((∀ p, o ≠ Panic p) → P s').
Proof.
  intros Hq Hh Hr. destruct Hh as [name| | | | | | | |].
  1:{ destruct (SpiderPool.Reconcile name s) as [o1 s1] eqn:Hr1.
      destruct (pool_Reconcile_sound name s o1 s1 Hq Hr1) as [Hl Hno].
      unfold go_bind in Hr. rewrite Hr1 in Hr.
      destruct o1; injection Hr as <- <-; (split; [done|]; intros Hn; apply Hno; intros p' [=]; subst; by edestruct Hn). }
  all: enough (Hs' : P s') by (split; [exact (sound_log _ _ Hs')|done]);
    eapply stable_end; [|exact Hr|exact Hq].
  - apply stable_bind; [apply node_Reconcile_stable|stab].
  - apply stable_bind; [apply vpc_Reconcile_stable|stab].
  - apply stable_bind; [apply vpc_Start_stable|stab].
  - apply node_event_stable.
  - apply callback_stable.
  - apply callback_stable.
  - apply work_stable.
  - apply settle_stable.
Qed.
End sound.

Lemma step_sound s s' : step s s' → sound (sys_log s) s → sound (sys_log s') s'.
Proof.
  destruct 1 as [h s o s' Hh Hr Hno|s w]; intros Hs.
  - destruct (handler_sound _ h s o s' Hs Hh Hr) as [Hl Hs']. specialize (Hs' Hno).
    by rewrite (sound_log _ _ Hs').
  - exact (set_world_sound _ w s Hs).
Qed.

Lemma reachable_sound s : reachable s → sound (sys_log s) s.
Proof.
  induction 1 as [s Hp Hn Hc Hv|s s' Hs IH Hstep]; [|by eapply step_sound].
  unfold NewManager in Hv. case_decide; [done|]. injection Hv as Hv.
  split; rewrite <-?Hv; try done.
  - unfold NodeFacts.named_cache. by rewrite Hn.
  - rewrite Hc. simpl. lia.
Qed.

(** C7. In every run of the whole process, whatever the services answer, however
    often they fail and however the outside world changes between the steps, no
    pool is ever cached, and no handler asks to create, update or delete a
    stored pool, not even one that panics. *)
Theorem pools_never_written s h o s' :
  reachable s → handler h → h s = (o, s') →
  sys_log s' = sys_log s ∧ ((∀ p, o ≠ Panic p) → pools (sys_pools s') = ∅).
Proof.
  intros Hs Hh Hr. apply reachable_sound in Hs.
  destruct (handler_sound _ h s o s' Hs Hh Hr) as [Hl Hno]. split; [done|].
  intros Hp. by destruct (Hno Hp).
Qed.

(** The worker of the subnet controller, beside any steps of the running
    process: it never receives an event and every tick hands over nothing,
    yet every tick leaves one more ticker behind. *)
Lemma worker_idle (process : subnatEvent → go system unit) t0 s0 l w :
  reachable s0 →
  Work.run process (λ s s', reachable s ∧ step s s') t0 s0 l w →
  Forall Work.idle_label l ∧ Work.evmap w = ∅ ∧
  Work.tickers w = Datatypes.S (length (filter Work.turns l)).
Proof.
  intros Hs Hr.
  assert (Ho : ∀ s s', reachable s ∧ step s s' →
    ch (view (C:=manager) s) = None → ch (view (C:=manager) s') = None).
  { intros s s' [Hreach Hstep] _.
    exact (sound_ch _ _ (step_sound s s' Hstep (reachable_sound s Hreach))). }
  assert (Hch : ch (view (C:=manager) s0) = None)
    by exact (sound_ch _ _ (reachable_sound s0 Hs)).
  destruct (Work.nil_channel_run process _ t0 s0 l w Ho Hch Hr) as (Hl & Hm & _).
  by destruct (Work.run_times process _ t0 s0 l w Hr) as (_ & Ht & _).
Qed.

(** C8. The memory of the running process keeps its shape, whatever the
    services answer and however often they fail: in every reachable state the
    cached nodes are filed under their name, at most sixteen names wait in the
    node channel, and every cached subnet has made its two sets and has no
    name. The channel of events is nil: a send blocks for ever, and the
    worker, beside any further steps of the process, never receives an event;
    all it does is to leave one more ticker behind at every tick. *)
Theorem memory_well_formed s :
  reachable s →
  (∀ n ni, nodes (sys_nodes s) !! n = Some ni → InfoName ni = n) ∧
  (length (chan (sys_nodes s)) ≤ chan_cap)%nat ∧
  map_Forall (λ _ sn, is_Some (SnNamespace sn) ∧ is_Some (SnNode sn) ∧ SnInfoName sn = "")
    (subnats (sys_vpc s)) ∧
  (∀ ev, (Vpc.send_event ev : go system unit) s = (Hang, s)) ∧
  (∀ process t0 l w,
     Work.run process (λ s s', reachable s ∧ step s s') t0 s l w →
     Forall Work.idle_label l ∧ Work.evmap w = ∅ ∧
     Work.tickers w = Datatypes.S (length (filter Work.turns l))).
Proof.
  intros Hs. destruct (reachable_sound s Hs) as [_ _ Hn Hl Hsn Hch]. split_and!; [done..| | |].
  - intros n sn Hsnn. by destruct (Hsn n sn Hsnn) as [[??] ?].
  - intros ev. unfold Vpc.send_event, load, go_bind, go_gets. simpl. by rewrite Hch.
  - intros process t0 l w. by apply worker_idle.
Qed.

(** On Openstack the pool event of every pool fails: the client looks an
    interface up by its port, and the manager asks with the port's id as the
    address. *)
Lemma calPoolEvent_openstack sn po plev (s : system) :
  Vpc.calPoolEvent (Some sn) (Some po) (Some plev) s =
  (Ret (Some (EMsg ("not found interface by id " +:+ MainId po)), Some plev), s).
Proof. done. Qed.
End system.
End SystemFacts.
