(* ===== verification/World.v ===== *)
(** * World: a concrete outside world

    In-memory servers for the three kinds of objects, that never fail, a list
    of namespaces, and an Openstack that answers from what it holds.  The
    witnesses run the system of System.v on it. *)
From S2P Require Import Prelude.
From S2P Require Import HashSet.
From S2P Require Import Objects.
From S2P Require Import IPPool.
From S2P Require Import MemServer.
From S2P Require Import PoolFacts.
From S2P Require Import SpiderPool.
From S2P Require Import SpiderPoolFacts.
From S2P Require Import Node.
From S2P Require Import Infra.
From S2P Require Import Openstack.
From S2P Require Import Vpc.
From S2P Require Import InfraOps.
From S2P Require Import System.

(** An Openstack that holds its ports and answers listings in one page. *)
Record cloud := {
  cloud_ports : list Port;        (* what a listing of a subnet answers *)
  cloud_attached : list Port;     (* what a listing of an instance answers *)
  cloud_fails : bool              (* whether writes are refused *)
}.

Record outside := {
  out_pools : gmap string SpiderIPPool;
  out_nodes : gmap string NodeObject;
  out_subnets : gmap string Subnet_;
  out_namespaces : list string;
  out_cloud : cloud
}.

Section lenses.
#[export] Instance out_pools_lens : Lens outside (gmap string SpiderIPPool).
Proof.
  refine {| view := out_pools; put := λ c w,
    Build_outside c (out_nodes w) (out_subnets w) (out_namespaces w) (out_cloud w) |}; by try intros [].
Defined.
#[export] Instance out_nodes_lens : Lens outside (gmap string NodeObject).
Proof.
  refine {| view := out_nodes; put := λ c w,
    Build_outside (out_pools w) c (out_subnets w) (out_namespaces w) (out_cloud w) |}; by try intros [].
Defined.
#[export] Instance out_subnets_lens : Lens outside (gmap string Subnet_).
Proof.
  refine {| view := out_subnets; put := λ c w,
    Build_outside (out_pools w) (out_nodes w) c (out_namespaces w) (out_cloud w) |}; by try intros [].
Defined.
End lenses.

#[export] Instance order : RangeOrder := natural_order.

(** The witnesses need no JSON text. *)
#[export] Instance json : JsonObject := {| json_keys := λ _, inl (EMsg "not JSON") |}.

#[export] Instance out_pool_client : KubeClient outside SpiderIPPool := mem_client.
#[export] Instance out_pool_server : KubeServer outside SpiderIPPool := mem_server.
#[export] Instance out_pool_reliable : KubeReliable outside SpiderIPPool := mem_reliable.
#[export] Instance out_pool_current : KubeCurrent outside SpiderIPPool := mem_current.
#[export] Instance out_pool_exact : KubeExact outside SpiderIPPool := mem_exact.
#[export] Instance out_node_client : KubeClient outside NodeObject := mem_client.
#[export] Instance out_node_server : KubeServer outside NodeObject := mem_server.
#[export] Instance out_node_reliable : KubeReliable outside NodeObject := mem_reliable.
#[export] Instance out_node_current : KubeCurrent outside NodeObject := mem_current.
#[export] Instance out_node_exact : KubeExact outside NodeObject := mem_exact.
#[export] Instance out_subnet_client : KubeClient outside Subnet_ := mem_client.
#[export] Instance out_subnet_server : KubeServer outside Subnet_ := mem_server.
#[export] Instance out_subnet_reliable : KubeReliable outside Subnet_ := mem_reliable.
#[export] Instance out_subnet_current : KubeCurrent outside Subnet_ := mem_current.
#[export] Instance out_subnet_exact : KubeExact outside Subnet_ := mem_exact.

#[export] Instance out_lister : NamespaceLister outside :=
  {| ns_list := λ w, (inr (out_namespaces w), w) |}.

Definition refused (c : cloud) : option error := if cloud_fails c then Some (EApi 500) else None.

#[export] Instance out_neutron : Neutron outside := {|
  ports_get id w := (match filter (λ p, PortID p = id) (cloud_ports (out_cloud w)) with
                     | p :: _ => inr p | [] => inl (EApi 404) end, w);
  ports_create o w := (if cloud_fails (out_cloud w) then inl (EApi 500)
                       else inr {| PortName := CreateName o; PortID := DeviceID o;
                                   FixedIPs := []; MACAddress := "" |}, w);
  ports_delete id w := (refused (out_cloud w), w);
  ports_list o w := ([inr (cloud_ports (out_cloud w))], w);
  attach_create i p w := (inl (EApi 500), w);
  attach_delete i p w := (refused (out_cloud w), w);
  attach_list i w := ([inr (cloud_attached (out_cloud w))], w);
  pairs_add id ps w := (refused (out_cloud w),
    if cloud_fails (out_cloud w) then zero_port
    else {| PortName := ""; PortID := id; FixedIPs := [{| SubnetID := ""; IPAddress := "" |}];
            MACAddress := "" |}, w);
  pairs_remove id ps w := (refused (out_cloud w), w);
  subnets_get id w := (inl (EApi 404), w);
  zones_list w := (inr ["internal"; "nova"], w)
|}.

(** The pool manager touches no stored node or subnet. *)
Lemma UpdatePool_outside pl ev :
  preserves (λ s : system outside, (out_nodes (sys_world s), out_subnets (sys_world s)))
    (UpdatePool pl ev).
Proof.
  apply SpiderPoolFacts.UpdatePool_preserves; intros; unfold kget, kcreate, kpatch, kdelete,
    pool_client; rewrite ?logged_eq, ?on_world_eq; simpl; by repeat case_match.
Qed.

#[export] Instance nodes_pool_store_frame : PoolFacts.PoolStoreFrame (system outside) NodeObject.
Proof. intros pl ev s. pose proof (UpdatePool_outside pl ev s) as [= Hn _]. simpl. by unfold objects; simpl; rewrite Hn. Qed.
#[export] Instance subnets_pool_store_frame : PoolFacts.PoolStoreFrame (system outside) Subnet_.
Proof. intros pl ev s. pose proof (UpdatePool_outside pl ev s) as [= _ Hn]. simpl. by unfold objects; simpl; rewrite Hn. Qed.
