(* ===== verification/Daemon.v ===== *)
(** * Daemon: the start of the process and its signal loop

    Models cmd/eni-controller/cmd/daemon.go, [DaemonMain],
    [initControllerServiceManagers] and [WatchSignal], and [main], which puts
    the initialisation of the package, the configuration of Startup.v and the
    command line (command_root.go, command_daemon.go, command_shutdown.go) in
    front; how cobra reads the arguments is a parameter.  The state is the memory of the process beside the outside world,
    which answers the calls of the libraries (gops, pyroscope, gophercloud,
    controller-runtime).  The goroutine that runs controller-runtime (lines 120
    to 125) is recorded, not followed: it ends the process only when that
    manager returns an error. *)
From S2P Require Import Prelude.
From S2P Require Import Objects.
From S2P Require Import IPPool.
From S2P Require Import SpiderPool.
From S2P Require Import Node.
From S2P Require Import Infra.
From S2P Require Import Openstack.
From S2P Require Import Connect.
From S2P Require Import Vpc.
From S2P Require Import Namespace.
From S2P Require Import Config.
From S2P Require Import Startup.
From S2P Require Import Runtime.
From S2P Require Import System.
From S2P Require Import SystemFacts.

(** The scheduler's processor limit and the calls of [InnerCancel]. *)
Record process := { maxprocs : Z; cancels : nat }.

(** The memory of the process: of the four managers, of what is registered, and
    of the runtime of Go. *)
Record go_memory := {
  mem_pools : controller;
  mem_nodes : node_controller;
  mem_spaces : ns_controller;
  mem_vpc : manager;
  mem_registry : registry;
  mem_process : process
}.

Record host (W : Type) := Host { mem : go_memory; world : W }.
Arguments Host {W} mem world.
Arguments mem {W} h.
Arguments world {W} h.

(** The other libraries: whether they start, the name of the node, and whether
    the caches are in sync. *)
Class Boot (W : Type) := {
  listen_gops : string → W → bool * W;
  listen_pyroscope : string → string → W → bool * W;
  hostname : W → option string * W;
  WaitForCacheSync : W → bool * W
}.

Section lenses.
Context {W : Type}.
#[export] Instance host_pools : Lens (host W) controller.
Proof.
  refine {| view s := mem_pools (mem s); put c s := let m := mem s in
    Host (Build_go_memory c (mem_nodes m) (mem_spaces m) (mem_vpc m) (mem_registry m) (mem_process m))
         (world s) |}; by try intros [[]].
Defined.
#[export] Instance host_nodes : Lens (host W) node_controller.
Proof.
  refine {| view s := mem_nodes (mem s); put c s := let m := mem s in
    Host (Build_go_memory (mem_pools m) c (mem_spaces m) (mem_vpc m) (mem_registry m) (mem_process m))
         (world s) |}; by try intros [[]].
Defined.
#[export] Instance host_spaces : Lens (host W) ns_controller.
Proof.
  refine {| view s := mem_spaces (mem s); put c s := let m := mem s in
    Host (Build_go_memory (mem_pools m) (mem_nodes m) c (mem_vpc m) (mem_registry m) (mem_process m))
         (world s) |}; by try intros [[]].
Defined.
#[export] Instance host_vpc : Lens (host W) manager.
Proof.
  refine {| view s := mem_vpc (mem s); put c s := let m := mem s in
    Host (Build_go_memory (mem_pools m) (mem_nodes m) (mem_spaces m) c (mem_registry m) (mem_process m))
         (world s) |}; by try intros [[]].
Defined.
#[export] Instance host_registry : Lens (host W) registry.
Proof.
  refine {| view s := mem_registry (mem s); put c s := let m := mem s in
    Host (Build_go_memory (mem_pools m) (mem_nodes m) (mem_spaces m) (mem_vpc m) c (mem_process m))
         (world s) |}; by try intros [[]].
Defined.
#[export] Instance host_process : Lens (host W) process.
Proof.
  refine {| view s := mem_process (mem s); put c s := let m := mem s in
    Host (Build_go_memory (mem_pools m) (mem_nodes m) (mem_spaces m) (mem_vpc m) (mem_registry m) c)
         (world s) |}; by try intros [[]].
Defined.

(** A call of a library, and a computation that makes only such calls. *)
Definition at_world {A} (f : W → A * W) (s : host W) : A * host W :=
  let '(a, w) := f (world s) in (a, Host (mem s) w).
Definition in_world {A} (m : go W A) : go (host W) A := λ s,
  let '(o, w) := m (world s) in (o, Host (mem s) w).

#[export] Instance host_runtime `{!CtrlRuntime W} : CtrlRuntime (host W) := {|
  AddToScheme g := at_world (AddToScheme g);
  GetConfig := at_world GetConfig;
  NewCtrlManager c o := at_world (NewCtrlManager c o);
  AddCheck c := at_world (AddCheck c);
  AddRunnable := at_world AddRunnable;
  Complete r := at_world (Complete r);
  NewClientSet c := at_world (NewClientSet c);
  NewDynamicClient c := at_world (NewDynamicClient c)
|}.
End lenses.

Module Daemon.
Import Config Startup Runtime.

Section daemon.
Context {W : Type} `{!Boot W, !CtrlRuntime W, !Gophercloud W}.
#[local] Notation S := (host W).

(** The number that stands for [vpcManager.GetCallback()]. *)
Definition vpc_callback : nat := 0.

(** [if err != nil { klog.Fatal(..) }], and the rest. *)
Definition must (what : string) (m : go S (option error)) (rest : go S ended) : go S ended :=
  let* err := m in match err with Some _ => go_ret (Fatal what) | None => rest end.

(** The same, where the call itself may end the process. *)
Definition must_not_exit (what : string) (m : go S (ended + option error)) (rest : go S ended) :
    go S ended :=
  let* r := m in
  match r with
  | inl e => go_ret e
  | inr (Some _) => go_ret (Fatal what)
  | inr None => rest
  end.

(** The part of the configuration that the client gets. *)
Definition infra_config (c : Config_) : InfraCfg :=
  {| InfraType := strs c InfraTypeField; InfraTimeout := ints c InfraTimeoutField;
     CfgMutexOnCreate := bools c InfraMutexOnCreate;
     CfgOpenstack := {| CfgAuthUrl := strs c AuthUrl; CfgCredentialId := strs c CredentialId;
                        CfgCredentialSecret := strs c CredentialSecret |} |}.

(** The error of the client, or of its probe. *)
Definition openstack_error (c : Config_) : go S (option error) :=
  let* r := in_world (Connect.NewOpenstackClient (infra_config c)) in
  go_ret (match r with inl e => Some e | inr (_, err) => err end).

(** The configuration before and after [LoadConfigmap], which decodes a YAML file
    into the same struct. *)
Context (cfg loaded : Config_).

Definition initControllerServiceManagers (rest : go S ended) : go S ended :=
  must "pool controller" spiderpool_NewControllerManager (
  must "openstack client" (openstack_error loaded) (
  must "namespace controller" namespace_NewControllerManager (
  must "node controller" node_NewControllerManager (
  must "subnet manager" (vpc_NewManager (vpc_config loaded)) (
  SpiderPool.RegistCallback vpc_callback ;;;
  Node.RegistCallback vpc_callback ;;;
  Namespace.RegistCallback vpc_callback ;;;
  rest))))).

(** [runtime.GOMAXPROCS(n)] changes the limit only for a positive [n]. *)
Definition limit_procs : go S unit :=
  let* p := load in
  let n := ints cfg GoMaxProcs in
  if decide (n < maxprocs p)%Z then
    store {| maxprocs := if decide (0 < n)%Z then n else maxprocs p; cancels := cancels p |}
  else go_ret tt.

Definition InnerCancel : go S unit :=
  let* p := load in store {| maxprocs := maxprocs p; cancels := Datatypes.S (cancels p) |}.

(** The loop over the channel of signals, which nobody closes: it handles the
    signals that arrive and waits for another one. *)
Definition WatchSignal (signals : list nat) : go S ended :=
  for_acc signals (λ _ _, InnerCancel) tt ;;; go_hang.

(** DaemonMain from the call of controller-runtime's manager on. *)
Definition start_runtime (signals : list nat) : go S ended :=
  must_not_exit "runtime manager" (newCRDManager loaded) (
  must_not_exit "kubernetes client" initK8sClientSet (
  must_not_exit "dynamic client" initDynamicClient (
  initControllerServiceManagers (
  spawn StartRuntime ;;;
  let* synced := go_call (at_world WaitForCacheSync) in
  if synced : bool then WatchSignal signals else go_ret (Fatal "cache"))))).

Definition start_pyroscope (rest : go S ended) : go S ended :=
  if decide (strs loaded PyroscopeAddress = "") then rest
  else
    let* node := go_call (at_world hostname) in
    match node with
    | None | Some "" => go_ret (Fatal "hostname")
    | Some node =>
        let* ok := go_call (at_world (listen_pyroscope (strs loaded PyroscopeAddress) node)) in
        if ok : bool then rest else go_ret (Fatal "pyroscope")
    end.

Definition start_gops (rest : go S ended) : go S ended :=
  if decide (strs loaded GopsListenPort = "") then rest
  else
    let* ok := go_call (at_world (listen_gops ("127.0.0.1:" +:+ strs loaded GopsListenPort))) in
    if ok : bool then rest else go_ret (Fatal "gops").

Definition DaemonMain (signals : list nat) : go S ended :=
  limit_procs ;;; start_gops (start_pyroscope (start_runtime signals)).

(** ** How the process ends

    [good] is a reason why no call of a library fails. *)
Context (good : Prop).

Definition no_error {A B} (f : A → W → option B * W) : Prop := ∀ a w, (f a w).1 = None.

Record obliging : Prop := {
  good_gops a w : (listen_gops a w).1 = true;
  good_pyroscope a n w : (listen_pyroscope a n w).1 = true;
  good_hostname w : ∃ a n, (hostname w).1 = Some (String a n);
  good_sync w : (WaitForCacheSync w).1 = true;
  good_scheme : no_error AddToScheme;
  good_config w : is_Some (GetConfig w).1;
  good_manager c : no_error (NewCtrlManager c);
  good_check : no_error AddCheck;
  good_runnable w : (AddRunnable w).1 = None;
  good_complete : no_error Complete;
  good_clientset : no_error NewClientSet;
  good_dynamic : no_error NewDynamicClient;
  good_auth w : ∃ a, (auth_options_from_env w).1 = inr a;
  good_provider o w : ∃ t, (authenticated_client o w).1 = inr t;
  good_endpoint e p w : ∃ u, (new_endpoint e p w).1 = inr u;
  good_pool n w : (new_pool n w).1 = None
}.

(** A computation that changes the memory by [f] when it reports no error, and
    reports none if [good]. *)
Definition does (m : go S (option error)) (f : go_memory → go_memory) : Prop :=
  ∀ s, ∃ err s', m s = (Ret err, s') ∧ (err = None → mem s' = f (mem s)) ∧ (good → err = None).

(** The same for one that may end the process. *)
Definition does_or_exits (m : go S (ended + option error)) (f : go_memory → go_memory) : Prop :=
  ∀ s, ∃ r s', m s = (Ret r, s') ∧ (r = inr None → mem s' = f (mem s)) ∧ (good → r = inr None).

(** A fatal error, which is not for [good], or [Q] of the outcome. *)
Definition ends_or (Q : outcome ended * S → Prop) (r : outcome ended * S) : Prop :=
  (¬ good ∧ ∃ what, r.1 = Ret (Fatal what)) ∨ Q r.

Lemma must_ends Q what m f rest s :
  does m f → (∀ w, ends_or Q (rest (Host (f (mem s)) w))) → ends_or Q (must what m rest s).
Proof.
  intros Hm Hrest. destruct (Hm s) as (err & s' & Hr & Hf & Hg). unfold must, go_bind. rewrite Hr.
  destruct err as [e|].
  - left. split; [|by exists what]. intros Hgood. by specialize (Hg Hgood).
  - destruct s' as [x w]. simpl in Hf. rewrite (Hf eq_refl). apply Hrest.
Qed.

Lemma must_not_exit_ends Q what m f rest s :
  does_or_exits m f → (∀ w, ends_or Q (rest (Host (f (mem s)) w))) →
  ends_or Q (must_not_exit what m rest s).
Proof.
  intros Hm Hrest. destruct (Hm s) as (r & s' & Hr & Hf & Hg). unfold must_not_exit, go_bind.
  rewrite Hr. destruct r as [[wh]|[e|]].
  - left. split; [|by exists wh]. intros Hgood. by specialize (Hg Hgood).
  - left. split; [|by exists what]. intros Hgood. by specialize (Hg Hgood).
  - destruct s' as [x w]. simpl in Hf. rewrite (Hf eq_refl). apply Hrest.
Qed.

Context (Hgood : good → obliging).

(** *** The registry *)
Definition on_registry (f : registry → registry) (x : go_memory) : go_memory :=
  {| mem_pools := mem_pools x; mem_nodes := mem_nodes x; mem_spaces := mem_spaces x;
     mem_vpc := mem_vpc x; mem_registry := f (mem_registry x); mem_process := mem_process x |}.

Definition add_routines (l : list routine) (x : registry) : registry :=
  {| controllers := controllers x; runnables := runnables x; routines := routines x ++ l |}.
Definition add_controller (r : registration) (x : registry) : registry :=
  {| controllers := controllers x ++ [r]; runnables := runnables x; routines := routines x |}.
Definition one_runnable (x : registry) : registry :=
  {| controllers := controllers x; runnables := Datatypes.S (runnables x);
     routines := routines x |}.

Lemma spawn_run r (s : S) :
  spawn r s = (Ret tt, Host (on_registry (add_routines [r]) (mem s)) (world s)).
Proof. done. Qed.

Lemma spawn_all l (s : S) :
  for_acc l (λ _ r, spawn r) tt s = (Ret tt, Host (on_registry (add_routines l) (mem s)) (world s)).
Proof.
  revert s. induction l as [|r l IH]; intros s; simpl.
  - destruct s as [[? ? ? ? [? ? ?] ?] ?]. unfold on_registry, add_routines. simpl.
    by rewrite app_nil_r.
  - unfold go_bind at 1. rewrite spawn_run, IH. unfold on_registry, add_routines. simpl.
    by rewrite <-app_assoc.
Qed.

Lemma complete_does r : does (complete r) (on_registry (add_controller r)).
Proof.
  intros s. unfold complete, go_call, go_bind. simpl. unfold at_world.
  pose proof (λ H, good_complete (Hgood H) r (world s)) as Hg.
  destruct (Complete r (world s)) as [[e|] w]; simpl in *; eexists _, _; split_and!; try done.
Qed.

Lemma mgr_add_does : does mgr_add (on_registry one_runnable).
Proof.
  intros s. unfold mgr_add, go_call, go_bind. simpl. unfold at_world.
  pose proof (λ H, good_runnable (Hgood H) (world s)) as Hg.
  destruct (AddRunnable (world s)) as [[e|] w]; simpl in *; eexists _, _; split_and!; try done.
Qed.

Lemma does_then (m : go S unit) k f g :
  (∀ s, ∃ w, m s = (Ret tt, Host (f (mem s)) w)) → does k g → does (m ;;; k) (g ∘ f).
Proof.
  intros Hm Hk s. destruct (Hm s) as [w Hr]. unfold go_bind. rewrite Hr. apply Hk.
Qed.

Lemma does_seq m k f g :
  does m f → does k g →
  does (let* err := m in match err with Some e => go_ret (Some e) | None => k end) (g ∘ f).
Proof.
  intros Hm Hk s. destruct (Hm s) as (err & s1 & Hr & Hf & Hg). unfold go_bind. rewrite Hr.
  destruct err as [e|].
  - exists (Some e), s1. split_and!; [done..|]. intros H. by specialize (Hg H).
  - destruct (Hk s1) as (err & s2 & Hr2 & Hf2 & Hg2). exists err, s2. split_and!; [done| |done].
    intros He. simpl. rewrite <-Hf by done. by apply Hf2.
Qed.

(** *** The constructors *)
Definition on_pools (c : controller) (x : go_memory) : go_memory :=
  {| mem_pools := c; mem_nodes := mem_nodes x; mem_spaces := mem_spaces x; mem_vpc := mem_vpc x;
     mem_registry := mem_registry x; mem_process := mem_process x |}.
Definition on_nodes (c : node_controller) (x : go_memory) : go_memory :=
  {| mem_pools := mem_pools x; mem_nodes := c; mem_spaces := mem_spaces x; mem_vpc := mem_vpc x;
     mem_registry := mem_registry x; mem_process := mem_process x |}.
Definition on_spaces (c : ns_controller) (x : go_memory) : go_memory :=
  {| mem_pools := mem_pools x; mem_nodes := mem_nodes x; mem_spaces := c; mem_vpc := mem_vpc x;
     mem_registry := mem_registry x; mem_process := mem_process x |}.
Definition on_vpc (c : manager) (x : go_memory) : go_memory :=
  {| mem_pools := mem_pools x; mem_nodes := mem_nodes x; mem_spaces := mem_spaces x; mem_vpc := c;
     mem_registry := mem_registry x; mem_process := mem_process x |}.

Definition pool_registration : registration :=
  {| For := KSpiderIPPool; EventFilter := has_annotation SubnatAnnotationsKey |}.
Definition namespace_registration : registration :=
  {| For := KNamespace; EventFilter := λ _, true |}.
Definition node_registration : registration :=
  {| For := KNode; EventFilter := has_annotation InstanceAnnotationKey |}.
Definition subnet_registration : registration :=
  {| For := KSubnet; EventFilter := λ _, true |}.

Lemma pools_do :
  does spiderpool_NewControllerManager
    (on_registry (add_controller pool_registration) ∘
     on_registry (add_routines [PoolCallbacks]) ∘ on_pools empty_controller).
Proof.
  apply (does_then _ _ (on_pools empty_controller)); [intros s; by exists (world s)|].
  apply (does_then _ _ (on_registry (add_routines [PoolCallbacks]))).
  - intros s. by exists (world s).
  - apply complete_does.
Qed.

Lemma namespaces_do :
  does namespace_NewControllerManager
    (on_registry (add_controller namespace_registration) ∘ on_spaces empty_namespaces).
Proof.
  apply (does_then _ _ (on_spaces empty_namespaces)); [intros s; by exists (world s)|].
  apply complete_does.
Qed.

Lemma nodes_do :
  does node_NewControllerManager
    (on_registry (add_controller node_registration) ∘
     on_registry (add_routines [NodeCallbacks]) ∘ on_nodes empty_nodes).
Proof.
  apply (does_then _ _ (on_nodes empty_nodes)); [intros s; by exists (world s)|].
  apply (does_then _ _ (on_registry (add_routines [NodeCallbacks]))).
  - intros s. by exists (world s).
  - apply complete_does.
Qed.

Lemma vpc_does c m :
  NewManager c = inr m →
  does (vpc_NewManager c)
    (on_registry (add_controller subnet_registration) ∘ on_registry one_runnable ∘
     on_registry (add_routines (replicate (Z.to_nat (WorkerNumber c)) SubnetEvents)) ∘ on_vpc m).
Proof.
  intros Hm. unfold vpc_NewManager. rewrite Hm.
  apply (does_then _ _ (on_vpc m)); [intros s; by exists (world s)|].
  apply (does_then _ _ (on_registry (add_routines (replicate (Z.to_nat (WorkerNumber c)) SubnetEvents)))).
  - intros s. exists (world s). apply spawn_all.
  - apply (does_seq _ _ (on_registry one_runnable)); [apply mgr_add_does|apply complete_does].
Qed.

Lemma openstack_does c : does (openstack_error c) id.
Proof.
  intros s. unfold openstack_error, in_world, go_bind.
  destruct (Connect.NewOpenstackClient_returns (infra_config c) (world s)) as (r & w & Hr).
  rewrite Hr. eexists _, _. split; [done|]. split; [done|]. intros H.
  destruct (Connect.NewOpenstackClient_succeeds (infra_config c) (world s)) as (cl & w' & Hr').
  - apply (Hgood H).
  - apply (Hgood H).
  - apply (Hgood H).
  - apply (Hgood H).
  - rewrite Hr' in Hr. by injection Hr as <- _.
Qed.

(** *** controller-runtime and the clients *)
Lemma config_does (k : RestConfig → go S (ended + option error)) :
  (∀ c, does_or_exits (k c) id) → does_or_exits (GetConfigOrDie k) id.
Proof.
  intros Hk s. unfold GetConfigOrDie, go_call, go_bind. simpl. unfold at_world.
  pose proof (λ H, good_config (Hgood H) (world s)) as Hg.
  destruct (GetConfig (world s)) as [[c|] w]; simpl in *; [apply Hk|].
  eexists _, _. split_and!; [done..|]. intros H. by destruct (Hg H).
Qed.

Lemma call_does {A} (f : A → W → option error * W) a (msg : error → error) (s : S) :
  (good → no_error f) →
  ∃ err s', (let* err := go_call (at_world (f a)) in
             go_ret (inr (match err with Some e => Some (msg e) | None => None end))) s =
    (Ret (inr err : ended + option error), s') ∧ mem s' = mem s ∧ (good → err = None).
Proof.
  intros Hf. unfold go_call, go_bind, at_world. pose proof (λ H, Hf H a (world s)) as Hg.
  destruct (f a (world s)) as [[e|] w]; simpl in *; eexists _, _; split_and!; try done.
  intros H. by specialize (Hg H).
Qed.

Lemma clients_do : does_or_exits initK8sClientSet id ∧ does_or_exits initDynamicClient id.
Proof.
  split; apply config_does; intros c s.
  - destruct (call_does NewClientSet c (λ _, EMsg "failed to init K8s clientset") s)
      as (err & s' & Hr & Hm & Hg); [intros H; apply (Hgood H)|].
    exists (inr err), s'. split_and!; [exact Hr|done|]. intros H. by rewrite (Hg H).
  - destruct (call_does NewDynamicClient c
      (λ _, EMsg "failed to init Kubernetes dynamic client") s)
      as (err & s' & Hr & Hm & Hg); [intros H; apply (Hgood H)|].
    exists (inr err), s'. split_and!; [exact Hr|done|]. intros H. by rewrite (Hg H).
Qed.

Lemma manager_does c : does_or_exits (newCRDManager c) id.
Proof.
  apply config_does. intros k s. unfold go_call, go_bind. simpl. unfold at_world.
  set (o := manager_options c). set (k' := {| Cluster := _ |}).
  pose proof (λ H, good_manager (Hgood H) k' o (world s)) as Hg.
  destruct (NewCtrlManager k' o (world s)) as [[e|] w]; simpl in *.
  { eexists _, _. split_and!; [done..|]. intros H. by specialize (Hg H). }
  pose proof (λ H, good_check (Hgood H) Healthz w) as Hz.
  destruct (AddCheck Healthz w) as [[e|] w1]; simpl in *.
  { eexists _, _. split_and!; [done..|]. intros H. by specialize (Hz H). }
  destruct (AddCheck Readyz w1) as [r w2]. simpl. by eexists _, _.
Qed.

(** *** The signals *)
Definition on_process (f : process → process) (x : go_memory) : go_memory :=
  {| mem_pools := mem_pools x; mem_nodes := mem_nodes x; mem_spaces := mem_spaces x;
     mem_vpc := mem_vpc x; mem_registry := mem_registry x; mem_process := f (mem_process x) |}.
Definition cancelled (n : nat) (p : process) : process :=
  {| maxprocs := maxprocs p; cancels := (cancels p + n)%nat |}.

Lemma WatchSignal_run signals (s : S) :
  WatchSignal signals s =
    (Hang, Host (on_process (cancelled (length signals)) (mem s)) (world s)).
Proof.
  unfold WatchSignal. revert s. induction signals as [|g gs IH]; intros s.
  - destruct s as [[? ? ? ? ? [? c]] ?]. unfold on_process, cancelled. go_run.
    by rewrite Nat.add_0_r.
  - simpl. rewrite go_bind_assoc.
    rewrite (go_bind_run _ _ s tt (Host (on_process (cancelled 1) (mem s)) (world s))).
    + rewrite IH. unfold on_process, cancelled. simpl. by rewrite <-Nat.add_assoc.
    + unfold on_process, cancelled. rewrite Nat.add_1_r. done.
Qed.

(** *** The whole start *)

(** The memory once all four managers are made and connected. *)
Definition wired_registry (n : nat) (x : registry) : registry :=
  {| controllers := controllers x ++
       [pool_registration; namespace_registration; node_registration; subnet_registration];
     runnables := Datatypes.S (runnables x);
     routines := routines x ++
       [PoolCallbacks; NodeCallbacks] ++ replicate n SubnetEvents ++ [StartRuntime] |}.

Definition wired (n : nat) (m : manager) (x : go_memory) : go_memory :=
  {| mem_pools := {| pools := ∅; postfns := [vpc_callback] |};
     mem_nodes := {| nodes := ∅; chan := []; node_postfns := [vpc_callback] |};
     mem_spaces := {| ns_postfns := [vpc_callback] |};
     mem_vpc := m; mem_registry := wired_registry n (mem_registry x);
     mem_process := mem_process x |}.


Lemma managers_end Q (rest : go S ended) (s : S) :
  (good → ∃ m, NewManager (vpc_config loaded) = inr m) →
  (∀ m w, NewManager (vpc_config loaded) = inr m →
     ends_or Q (rest (Host (wired (Z.to_nat (WorkerNumber (vpc_config loaded))) m (mem s)) w))) →
  ends_or Q (initControllerServiceManagers (spawn StartRuntime ;;; rest) s).
Proof.
  intros Hok Hrest. unfold initControllerServiceManagers.
  eapply must_ends; [apply pools_do|]. intros w1.
  eapply must_ends; [apply openstack_does|]. intros w2.
  eapply must_ends; [apply namespaces_do|]. intros w3.
  eapply must_ends; [apply nodes_do|]. intros w4.
  destruct (NewManager (vpc_config loaded)) as [e|m] eqn:Hm.
  { left. unfold must, vpc_NewManager. rewrite Hm. simpl. split; [|by eexists].
    intros H. by destruct (Hok H). }
  eapply must_ends; [by apply vpc_does|]. intros w5.
  specialize (Hrest m w5 eq_refl). revert Hrest.
  match goal with |- ends_or Q (rest ?s1) → ends_or Q ?r => assert (r = rest s1) as -> end; [|done].
  unfold SpiderPool.RegistCallback, Node.RegistCallback, Namespace.RegistCallback. go_run.
  f_equal. unfold wired, wired_registry. simpl. by rewrite <-!app_assoc.
Qed.

Definition limited (n : Z) (p : process) : process :=
  if decide (n < maxprocs p)%Z then
    {| maxprocs := if decide (0 < n)%Z then n else maxprocs p; cancels := cancels p |}
  else p.

Lemma limit_procs_run (s : S) :
  limit_procs s = (Ret tt, Host (on_process (limited (ints cfg GoMaxProcs)) (mem s)) (world s)).
Proof.
  destruct s as [[? ? ? ? ? [p c]] ?]. unfold limit_procs, limited, on_process, load, store. go_run.
  by case_decide.
Qed.

(** The memory of the process while it waits for signals. *)
Definition running (m : manager) (n : nat) (x : go_memory) : go_memory :=
  on_process (cancelled n)
    (wired (Z.to_nat (WorkerNumber (vpc_config loaded))) m
       (on_process (limited (ints cfg GoMaxProcs)) x)).

Definition blocked (signals : list nat) (x : go_memory) (r : outcome ended * S) : Prop :=
  ∃ m w, NewManager (vpc_config loaded) = inr m ∧
    r = (Hang, Host (running m (length signals) x) w).

Context (Hok : good → ∃ m, NewManager (vpc_config loaded) = inr m).

Lemma runtime_ends signals x w :
  ends_or (blocked signals x)
    (start_runtime signals (Host (on_process (limited (ints cfg GoMaxProcs)) x) w)).
Proof.
  unfold start_runtime.
  eapply must_not_exit_ends; [apply manager_does|]. intros w1.
  eapply must_not_exit_ends; [apply clients_do|]. intros w2.
  eapply must_not_exit_ends; [apply clients_do|]. intros w3.
  apply (managers_end _ (λ s, (let* synced := go_call (at_world WaitForCacheSync) in
    if synced : bool then WatchSignal signals else go_ret (Fatal "cache")) s)); [done|].
  intros m w4 Hm. unfold go_call, go_bind, at_world. simpl.
  pose proof (λ H, good_sync (Hgood H) w4) as Hg.
  destruct (WaitForCacheSync w4) as [[] w5]; simpl in *.
  - right. exists m, w5. split; [done|]. by rewrite WatchSignal_run.
  - left. split; [|by eexists]. intros H. by specialize (Hg H).
Qed.

Lemma DaemonMain_ends signals (s : S) : ends_or (blocked signals (mem s)) (DaemonMain signals s).
Proof.
  unfold DaemonMain. rewrite (go_bind_run _ _ _ _ _ (limit_procs_run s)).
  assert (Hpy : ∀ w, ends_or (blocked signals (mem s)) (start_pyroscope (start_runtime signals)
    (Host (on_process (limited (ints cfg GoMaxProcs)) (mem s)) w))).
  { intros w. unfold start_pyroscope. case_decide; [apply runtime_ends|].
    unfold go_call, go_bind, at_world. simpl. pose proof (λ H, good_hostname (Hgood H) w) as Hg.
    destruct (hostname w) as [[[|a n]|] w1]; simpl in *;
      [left; split; [naive_solver|by eexists]| |left; split; [naive_solver|by eexists]].
    pose proof (λ H, good_pyroscope (Hgood H) (strs loaded PyroscopeAddress) (String a n) w1) as Hp.
    destruct (listen_pyroscope _ _ w1) as [[] w2]; simpl in *; [apply runtime_ends|].
    left. split; [naive_solver|by eexists]. }
  unfold start_gops. case_decide; [apply Hpy|]. unfold go_call, go_bind, at_world. simpl.
  set (a := "127.0.0.1:" +:+ _). pose proof (λ H, good_gops (Hgood H) a (world s)) as Hg.
  destruct (listen_gops a (world s)) as [[] w2]; simpl in *; [apply Hpy|].
  left. split; [naive_solver|by eexists].
Qed.

Lemma init_ends (s : S) :
  (∃ w, init s = (Ret tt, Host (mem s) w)) ∨ (¬ good ∧ ∃ w, init s = (Panic MustFailed, Host (mem s) w)).
Proof.
  unfold init. generalize [ClientGo; SpiderPoolV2; CiliumV2; EniV1]. intros l. revert s.
  induction l as [|g l IH]; intros s; simpl.
  { left. exists (world s). by destruct s. }
  unfold go_bind, go_call, at_world. pose proof (λ H, good_scheme (Hgood H) g (world s)) as Hg.
  destruct (AddToScheme g (world s)) as [[e|] w]; simpl in *.
  - right. split; [|by exists w]. intros H. by specialize (Hg H).
  - apply (IH (Host (mem s) w)).
Qed.
End daemon.

(** ** The process from its configuration on *)
Section main.
Context {W : Type} `{!Boot W, !CtrlRuntime W, !Gophercloud W}.
Context (ReadFile : string → error + string)
        (Unmarshal : string → list (string * datum) * option error).

(** What cobra makes of the arguments: the flags of the daemon command, the
    shutdown command, or a text of help that it prints itself. *)
Inductive command := DaemonCmd (flags : list (flag * string)) | ShutdownCmd | Help.

Context (cobra : list string → error + command).

Definition flags_of (c : error + command) : list (flag * string) :=
  match c with inr (DaemonCmd flags) => flags | _ => [] end.

(** [daemonCmd], whose deferred function recovers from a panic and only logs
    it: then [main] returns ([None]). *)
Definition daemonCmd (cfg loaded : Config_) (signals : list nat) :
    go (host W) (option ended) := λ s,
  match DaemonMain cfg loaded signals s with
  | (Ret e, s') => (Ret (Some e), s')
  | (Panic _, s') => (Ret None, s')
  | (Hang, s') => (Hang, s')
  end.

(** [Execute] prints an error and returns, as [shutdownCmd] does with its
    line of the log. *)
Definition Execute (cfg loaded : Config_) (signals : list nat) (c : error + command) :
    go (host W) (option ended) :=
  match c with
  | inr (DaemonCmd _) => daemonCmd cfg loaded signals
  | inr ShutdownCmd | inr Help | inl _ => go_ret None
  end.

(** The [init] of command_daemon.go, the one of crd_manager.go, and [main]. *)
Definition main (env : string → option string) (args : list string) (signals : list nat) :
    go (host W) (option ended) :=
  match startup ReadFile Unmarshal env (flags_of (cobra args)) with
  | Ended => go_ret (Some (Fatal "configuration"))
  | Started cfg loaded => init ;;; Execute cfg loaded signals (cobra args)
  end.

(** The memory of a process on a machine with [cpus] processors. *)
Definition zero_memory (cpus : Z) : go_memory :=
  {| mem_pools := empty_controller; mem_nodes := empty_nodes; mem_spaces := empty_namespaces;
     mem_vpc := {| subnats := ∅; readers := 0; writer := false; ch := None |}; mem_registry := empty_registry;
     mem_process := {| maxprocs := cpus; cancels := 0 |} |}.

(** What a process that serves has in its memory. *)
Definition serving (cfg loaded : Config_) (m : manager) (signals : list nat) (cpus : Z) : go_memory :=
  {| mem_pools := {| pools := ∅; postfns := [vpc_callback] |};
     mem_nodes := {| nodes := ∅; chan := []; node_postfns := [vpc_callback] |};
     mem_spaces := {| ns_postfns := [vpc_callback] |};
     mem_vpc := m;
     mem_registry :=
       {| controllers := [pool_registration; namespace_registration;
                          node_registration; subnet_registration];
          runnables := 1;
          routines := [PoolCallbacks; NodeCallbacks] ++
            replicate (Z.to_nat (ints loaded WorkerNumberField)) SubnetEvents ++
            [StartRuntime] |};
     mem_process := cancelled (length signals)
       (limited (ints cfg GoMaxProcs) {| maxprocs := cpus; cancels := 0 |}) |}.

(** The file leaves the identifiers of the default subnet alone. *)
Definition leaves_identifiers (cfg : Config_) : Prop :=
  last_value (file_values ReadFile Unmarshal cfg) (StrKey DefaultSubnatIdField) = None ∧
  last_value (file_values ReadFile Unmarshal cfg) (StrKey DefaultProjectIdField) = None.

Lemma daemonCmd_ends env flags cfg loaded signals cpus w :
  startup ReadFile Unmarshal env flags = Started cfg loaded →
  let good := obliging (W:=W) ∧ leaves_identifiers cfg in
  ends_or good (λ r, ∃ m w', NewManager (vpc_config loaded) = inr m ∧
      r = (Hang, Host (serving cfg loaded m signals cpus) w'))
    (DaemonMain cfg loaded signals (Host (zero_memory cpus) w)).
Proof.
  intros Hs good.
  assert (Hok : good → ∃ m, NewManager (vpc_config loaded) = inr m)
    by (intros (_ & H1 & H2); by eapply startup_manager).
  exact (DaemonMain_ends cfg loaded good (λ H, proj1 H) Hok signals (Host (zero_memory cpus) w)).
Qed.

(** C9. The process returns from [main], with the status 0, only when the daemon
    command is not run, be it for a command line that is wrong; the memory
    is then as it was.  A daemon is ended by a start that fails; or it waits for
    signals for ever, each of which is one cancellation that does not end it:
    then exactly four controllers are registered (pools, with the annotation of
    a subnet; namespaces; nodes, with the annotation of an instance; subnets), the
    subnet manager is the one runnable and the one callback of the other three,
    it has as many workers as the file says, and the memory is a start of the
    system of SystemFacts, whatever its services are.  And a daemon does wait when no library fails and the
    file leaves the two identifiers alone. *)
Theorem main_outcome env args signals cpus (w : W) o s' :
  main env args signals (Host (zero_memory cpus) w) = (o, s') →
  ((∃ what, o = Ret (Some (Fatal what))) ∨ o = Panic MustFailed ∨
   (o = Ret None ∧ (∀ flags, cobra args ≠ inr (DaemonCmd flags)) ∧ mem s' = zero_memory cpus) ∨
   (o = Hang ∧ ∃ flags cfg loaded m, cobra args = inr (DaemonCmd flags) ∧
      startup ReadFile Unmarshal env flags = Started cfg loaded ∧
      NewManager (vpc_config loaded) = inr m ∧ mem s' = serving cfg loaded m signals cpus ∧
      ∀ (V : Type) `{!RangeOrder, !JsonObject, !KubeClient V SpiderIPPool, !KubeClient V NodeObject,
          !KubeClient V Subnet_, !NamespaceLister V, !Neutron V} (sys : system V),
        sys_pools sys = mem_pools (mem s') → sys_nodes sys = mem_nodes (mem s') →
        sys_vpc sys = mem_vpc (mem s') → SystemFacts.reachable (vpc_config loaded) sys)) ∧
  (obliging (W:=W) →
   ∀ cfg loaded, startup ReadFile Unmarshal env (flags_of (cobra args)) = Started cfg loaded →
   match cobra args with
   | inr (DaemonCmd _) => leaves_identifiers cfg → o = Hang
   | _ => o = Ret None
   end).
Proof.
  unfold main. destruct (startup ReadFile Unmarshal env _) as [cfg loaded|] eqn:Hs.
  2: { intros [= <- <-]. split; [left; by eexists|done]. }
  destruct (init_ends (obliging (W:=W)) id (Host (zero_memory cpus) w))
    as [[w1 Hi]|(Hng & w1 & Hi)].
  2: { unfold go_bind. rewrite Hi. intros [= <- <-]. split; [by right; left|]. by intros ?%Hng. }
  rewrite (go_bind_run _ _ _ _ _ Hi). simpl mem. unfold Execute.
  destruct (cobra args) as [e|[flags| |]] eqn:Hc;
    try (intros [= <- <-]; split; [right; right; left; done|done]).
  unfold daemonCmd.
  destruct (daemonCmd_ends env flags cfg loaded signals cpus w1 Hs)
    as [[Hng [what Hf]]|(m & w2 & Hm & ->)].
  - destruct (DaemonMain _ _ _ _) as [r s1]. simpl in Hf. subst r. intros [= <- <-].
    split; [left; by exists what|]. intros Ho c l [= <- <-] Hx. by destruct Hng.
  - intros [= <- <-]. split; [|done]. right; right; right. split; [done|].
    exists flags, cfg, loaded, m. split_and!; [done..|]. intros V ? ? ? ? ? ? ? sys Hp Hn Hv.
    apply SystemFacts.reach_init; [by rewrite Hp|by rewrite Hn|by rewrite Hn|]. by rewrite Hm, Hv.
Qed.
End main.
End Daemon.
