(* ===== verification/Witness.v ===== *)
(** * Witness: the theorems at concrete inputs

    For each theorem with hypotheses, a state of the wired system on the
    outside world of World.v (or of a small one) where they hold, and the theorem applied there. *)
From S2P Require Import Prelude.
From S2P Require Import HashSet.
From S2P Require Import Backoff.
From S2P Require Import TimeBackoff.
From S2P Require Import Objects.
From S2P Require Import IPPool.
From S2P Require Import MemServer.
From S2P Require Import PoolFacts.
From S2P Require Import SpiderPool.
From S2P Require Import SpiderPoolFacts.
From S2P Require Import Node.
From S2P Require Import NodeFacts.
From S2P Require Import Infra.
From S2P Require Import Openstack.
From S2P Require Import OpenstackFacts.
From S2P Require Import Vpc.
From S2P Require Import VpcFacts.
From S2P Require Import Work.
From S2P Require Import InfraOps.
From S2P Require Import InfraQueue.
From S2P Require Import InfraOpsFacts.
From S2P Require Import System.
From S2P Require Import SystemFacts.
From S2P Require Import World.

Module Witness.

#[local] Notation system := (System.system outside).

(** A closed decidable fact, by evaluation. *)
Ltac by_compute := match goal with |- ?P => apply (bool_decide_unpack P); vm_compute; exact I end.

(** ** Concrete states *)
Definition no_cloud : cloud := {| cloud_ports := []; cloud_attached := []; cloud_fails := false |}.

Definition idle : system :=
  {| sys_pools := empty_controller; sys_nodes := empty_nodes;
     sys_vpc := {| subnats := ∅; readers := 0; writer := false; ch := None |};
     sys_os := empty_openstack; sys_wg := ∅; sys_log := [];
     sys_world := {| out_pools := ∅; out_nodes := ∅; out_subnets := ∅;
                     out_namespaces := ["default"]; out_cloud := no_cloud |} |}.

Definition with_pool_objects (m : gmap string SpiderIPPool) (s : system) : system :=
  set_world (put m (sys_world s)) s.
Definition with_node_objects (m : gmap string NodeObject) (s : system) : system :=
  set_world (put m (sys_world s)) s.
Definition with_subnets (m : gmap string Subnet_) (s : system) : system :=
  set_world (put m (sys_world s)) s.

Definition plain_meta (n : string) (f : list string) : ObjectMeta :=
  {| Name := n; Annotations := {[ SubnatAnnotationsKey := "net"; InstanceAnnotationKey := "vm-1" ]};
     Finalizers := f; DeletionTimestamp := None |}.

(** A stored pool that hands out two addresses, one of them in use. *)
Definition busy_pool : SpiderIPPool :=
  {| Meta := plain_meta "eni-1" [FinializerController];
     Spec := {| IPVersion := Some 4%Z; SpecSubnet := "10.0.0.0/24";
                IPs := Some ["10.0.0.1"; "10.0.0.2"]; ExcludeIPs := None;
                SpecNamespaceName := Some ["default"]; SpecNodeName := Some ["node-1"] |};
     Status := {| AllocatedIPs := Some "{}"; AllocatedIPCount := Some 1%Z |} |}.

Definition free_pool : SpiderIPPool :=
  {| Meta := Meta busy_pool; Spec := Spec busy_pool;
     Status := {| AllocatedIPs := None; AllocatedIPCount := None |} |}.

Definition pool_of (cap ns : gset string) : Pool :=
  {| NodeName := "node-1"; MainId := "eni-1"; Subnat := "net"; Namespace := Some (keys ns);
     CapIp := Some (keys cap); UsedIp := Some (keys ∅) |}.

Definition stored (o : SpiderIPPool) : system := with_pool_objects {[ "eni-1" := o ]} idle.

Lemma Reconcile_annotated_panics_witness :
  ∃ s', SpiderPool.Reconcile "eni-1" (stored busy_pool) = (Panic UnhashableKey, s').
Proof.
  destruct (SpiderPoolFacts.Reconcile_annotated_panics "eni-1" busy_pool "net" (stored busy_pool))
    as [s' Hs']; [apply map_Forall_empty|vm_compute; reflexivity|vm_compute; reflexivity|].
  exists s'. rewrite Hs'. by rewrite decide_False by (intros [_ ?]; discriminate).
Defined.

#[local] Notation pstore := (kstore (O:=SpiderIPPool)).

Lemma updatePool_updates_witness :
  ∃ r s' o', SpiderPool.updatePool (pool_of {["10.0.0.2"; "10.0.0.3"]} {["default"]})
               (stored busy_pool) = (Ret r, s') ∧
    SpiderPoolFacts.updates_to {["10.0.0.2"; "10.0.0.3"]} {["default"]} busy_pool o' ∧
    (pstore s' = pstore (stored busy_pool) ∨
     pstore s' = <["eni-1" := o']> (pstore (stored busy_pool))) ∧
    (r = None → pstore s' !! "eni-1" = Some o').
Proof.
  apply (SpiderPoolFacts.updatePool_updates (pool_of {["10.0.0.2"; "10.0.0.3"]} {["default"]})
    {["10.0.0.2"; "10.0.0.3"]} {["default"]} busy_pool (stored busy_pool));
    [reflexivity|reflexivity|discriminate|vm_compute; reflexivity|reflexivity].
Defined.

Lemma deletePool_safe_witness :
  ∃ e s' o', SpiderPool.deletePool (Some (pool_of ∅ ∅)) (stored busy_pool) = (Ret (Some e), s') ∧
    pstore s' !! "eni-1" = Some o' ∧ FinializerController ∈ Finalizers (Meta o').
Proof.
  apply (SpiderPoolFacts.deletePool_safe (pool_of ∅ ∅) busy_pool (stored busy_pool));
    [discriminate|vm_compute; reflexivity|by left|left; discriminate].
Defined.

(** A server with a cache, which the reads of its client are answered from;
    [sync] is the cache catching up. *)
Definition lagging : Type := gmap string SpiderIPPool * gmap string SpiderIPPool.

#[local] Instance lag_lens : Lens lagging (gmap string SpiderIPPool) := lens_fst.
#[local] Instance lag_client : KubeClient lagging SpiderIPPool := {|
  kget n s := (answer (named s.2 !! n), s);
  kcreate := kcreate (KubeClient:=mem_client);
  kpatch := kpatch (KubeClient:=mem_client);
  kdelete := kdelete (KubeClient:=mem_client)
|}.
#[local] Instance lag_server : KubeServer lagging SpiderIPPool.
Proof.
  refine (@Build_KubeServer lagging SpiderIPPool lag_client _ objects
    (kstore_name (KubeServer:=mem_server)) _
    (kcreate_ok (KubeServer:=mem_server)) (kcreate_err (KubeServer:=mem_server))
    (kpatch_ok (KubeServer:=mem_server)) (kpatch_err (KubeServer:=mem_server))
    (kpatch_absent (KubeServer:=mem_server))
    (kdelete_ok (KubeServer:=mem_server)) (kdelete_err (KubeServer:=mem_server))). done.
Defined.
#[local] Instance lag_reliable : KubeReliable lagging SpiderIPPool.
Proof.
  exact (@Build_KubeReliable lagging SpiderIPPool lag_client _ lag_server
    (kcreate_succeeds (KubeReliable:=mem_reliable)) (kpatch_succeeds (KubeReliable:=mem_reliable))
    (kdelete_succeeds (KubeReliable:=mem_reliable))).
Defined.

Definition sync (s : lagging) : lagging := (s.1, s.1).

Lemma sync_catches_up n s : SpiderPoolFacts.catches_up (S:=lagging) n s (sync s).
Proof. by split. Qed.

Definition excluded (o : option SpiderIPPool) : option (option (list string)) :=
  ExcludeIPs ∘ Spec <$> o.

Lemma lag_caught_up (s : lagging) :
  caught_up (O:=SpiderIPPool) "eni-1" s →
  excluded (named s.2 !! "eni-1") = excluded (named s.1 !! "eni-1").
Proof.
  intros Hc. change (answer (named s.2 !! "eni-1") = answer (named s.1 !! "eni-1")) in Hc.
  destruct (named s.2 !! _), (named s.1 !! _); by simplify_eq/=.
Qed.

(** The cache is behind after the first call: a second call without [sync]
    would read the pool as it was. *)
Lemma deletePool_converges_witness :
  let delete := SpiderPool.deletePool (S:=lagging) (Some (pool_of ∅ ∅)) in
  let s := ({[ "eni-1" := free_pool ]}, {[ "eni-1" := free_pool ]}) : lagging in
  ∃ e1 s1 r2 s2 s3, delete s = (Ret (Some e1), s1) ∧ ¬ caught_up (O:=SpiderIPPool) "eni-1" s1 ∧
    delete (sync s1) = (Ret r2, s2) ∧ delete (sync s2) = (Ret None, s3) ∧
    kstore (O:=SpiderIPPool) s3 !! "eni-1" = None.
Proof.
  intros delete s.
  destruct (SpiderPoolFacts.deletePool_converges (pool_of ∅ ∅) free_pool s)
    as (e1 & s1 & H1 & Hrest); [discriminate|vm_compute; reflexivity|by split; [left|]
      |vm_compute; reflexivity|].
  destruct (Hrest (sync s1) (sync_catches_up _ _)) as (r2 & s2 & H2 & _ & Hlast).
  destruct (Hlast (sync s2) (sync_catches_up _ _)) as (s3 & H3 & Hgone).
  exists e1, s1, r2, s2, s3. split; [exact H1|].
  split; [|exact (conj H2 (conj H3 Hgone))]. intros Hc.
  assert (Hs1 : s1 = snd (delete s)) by exact (eq_sym (f_equal snd H1)).
  pose proof (lag_caught_up s1 Hc) as Hx. rewrite Hs1 in Hx. vm_compute in Hx. discriminate.
Defined.

Lemma UpdatePool_create_witness :
  let pl := pool_of {["10.0.0.9"]} {["default"]} in
  ∃ r s', SpiderPool.UpdatePool (Some pl) CreateE idle = (Ret r, s') ∧
    (is_Some (pstore idle !! "eni-1") → pstore s' = pstore idle) ∧
    (r = None → ∃ o, pstore s' !! "eni-1" = Some o ∧
       (pstore idle !! "eni-1" = Some o ∨
        SpiderPoolFacts.creates pl {["10.0.0.9"]} {["default"]} o)) ∧
    (∀ n, n ≠ "eni-1" → pstore s' !! n = pstore idle !! n).
Proof.
  apply (SpiderPoolFacts.UpdatePool_create (pool_of {["10.0.0.9"]} {["default"]})
    {["10.0.0.9"]} {["default"]} idle); [discriminate|reflexivity..].
Defined.

(** ** Retries *)

(** An operation that fails twice and takes a millisecond; a timer that is up to
    a microsecond late, and random numbers in the middle. *)
Record timed := { attempt : nat; time : Z }.
#[local] Instance timed_clock : Clock timed := {|
  now := time;
  sleep d s := {| attempt := attempt s; time := time s + d + 1000 |};
  random s := (2 ^ 52, s)%Z
|}.
#[local] Instance timed_laws : ClockLaws timed.
Proof.
  split.
  - intros d s Hd. unfold year. simpl. lia.
  - intros s. simpl. lia.
  - done.
Qed.

Definition flaky : go timed (option error) := λ s,
  (Ret (if decide (attempt s < 2)%nat then Some (EApi 503) else None),
   {| attempt := Datatypes.S (attempt s); time := time s + 1000000 |}).

Lemma retries_end_witness :
  ((∃ r s' k, Backoff.Backoff (Backoff.counted flaky) ({| attempt := 0; time := 0 |}, 0%nat) =
     (Ret r, (s', k)) ∧ (1 ≤ k ≤ 4)%nat ∧ (r = None ∨ k = 4%nat ∨
        ∃ s1 e, flaky s1 = (Ret (Some e), s') ∧ Backoff.as_permanent e = r)) ∧
  (∃ r s' k, TimeBackoff.TimeBackoff (Backoff.counted flaky)
     ({| attempt := 0; time := 0 |}, 0%nat) = (Ret r, (s', k)) ∧
     (1 ≤ k ≤ 9)%nat ∧ TimeBackoff.ends flaky 1000 (now {| attempt := 0; time := 0 |}) r s')) ∧
  TimeBackoff.TimeBackoff (Backoff.counted flaky) ({| attempt := 0; time := 0 |}, 0%nat) =
    (Ret None, ({| attempt := 3; time := 2503002000 |}, 3%nat)).
Proof.
  split; [|vm_compute; reflexivity].
  apply (TimeBackoff.retries_end flaky) with (late := 1000%Z) (s := {| attempt := 0; time := 0 |}).
  - intros s. eexists _, _. split; [reflexivity|]. unfold year. simpl. lia.
  - done.
  - intros d s Hd. simpl. lia.
Defined.

(** ** Nodes *)
Definition node_object (deleting : option Z) : NodeObject :=
  {| NodeMeta := {| Name := "node-1"; Annotations := {[ InstanceAnnotationKey := "vm-1" ]};
                    Finalizers := [FinializerController]; DeletionTimestamp := deleting |};
     Addresses := [(NodeInternalIP, "192.168.0.1")] |}.

Definition node_info (d : bool) : NodeInfo :=
  {| InfoName := "node-1"; NodeId := "vm-1"; NodeIp := "192.168.0.1"; deleted := d |}.

Definition node_cache (d : bool) : node_controller :=
  {| nodes := {[ "node-1" := node_info d ]}; chan := []; node_postfns := [0%nat] |}.

Definition pool_cache : controller :=
  {| pools := {[ "eni-1" := pool_of {["10.0.0.1"]} {["default"]} ]}; postfns := [] |}.

Definition with_nodes (d : bool) (s : system) : system :=
  with_node_objects {[ "node-1" := node_object (if d then Some 1%Z else None) ]}
    (put (node_cache d) s).

Lemma Node_lifecycle_witness :
  let s := with_nodes true idle in
  ∃ r s', Node.Reconcile "node-1" s = (Ret r, s') ∧
    NodeFacts.named_cache (view s') ∧ NodeFacts.cache_advances (view s) (view s').
Proof.
  set (s := with_nodes true idle). eexists _, _. split; [vm_compute; reflexivity|].
  apply (NodeFacts.Node_lifecycle "node-1" s None); [|vm_compute; reflexivity].
  intros n i Hi. change (nodes (node_cache true) !! n = Some i) in Hi. unfold node_cache in Hi.
  simpl in Hi. apply lookup_singleton_Some in Hi as [<- <-]. done.
Defined.

Lemma Node_finalizer_safe_witness :
  let s := with_nodes false (put pool_cache (stored busy_pool)) in
  ∃ r s', Node.Reconcile "node-1" s = (Ret r, s') ∧
  (keeps (O:=NodeObject) "node-1" FinializerController s' ∨
   ∃ o, "node-1" = "node-1" ∧ fst (kget "node-1" s) = inr o ∧
     deleted (NodeFacts.entry (view s) "node-1") = true ∧
     NodeFacts.all_deleted "node-1" (NodeFacts.named_state "node-1" o s)).
Proof.
  set (s := with_nodes false (put pool_cache (stored busy_pool))).
  eexists _, _. split; [vm_compute; reflexivity|].
  eapply (NodeFacts.Node_finalizer_safe "node-1" "node-1" s None); [|vm_compute; reflexivity].
  exists (node_object None). split; [vm_compute; reflexivity|by left].
Defined.

(** ** Openstack *)
Definition vm_port (name id ip : string) : Port :=
  {| PortName := name; PortID := id; FixedIPs := [{| SubnetID := "net"; IPAddress := ip |}];
     MACAddress := "aa" |}.

Definition with_cloud (c : cloud) (s : system) : system :=
  let w := sys_world s in
  set_world {| out_pools := out_pools w; out_nodes := out_nodes w; out_subnets := out_subnets w;
               out_namespaces := out_namespaces w; out_cloud := c |} s.

Definition two_ports : list Port := [vm_port "a" "p1" "10.0.0.1"; vm_port "b" "p2" "10.0.0.2"].

Definition busy_cloud : cloud :=
  {| cloud_ports := two_ports; cloud_attached := two_ports; cloud_fails := false |}.

Definition subnet_opt : Opt :=
  {| OptSubnet := "net"; OptVpc := "vpc"; OptProject := ""; OptPort := ""; OptInstance := "vm-1";
     OptPortName := ""; OptInstanceName := ""; OptIp := "" |}.

(** The function sees the first port of the page only. *)
Lemma EachInterface_visits_witness :
  let s := with_cloud busy_cloud idle in
  let fn := λ (l : list string) i, go_ret (l ++ [IfId i], (true, None)) in
  Openstack.EachInterface subnet_opt fn [] s =
    OpenstackFacts.each fn (OpenstackFacts.visited [inr two_ports]) [] s ∧
  (length (OpenstackFacts.visited [inr two_ports]) ≤ 1)%nat.
Proof.
  apply (OpenstackFacts.EachInterface_visits subnet_opt
    (λ (l : list string) i, go_ret (l ++ [IfId i], (true, None))) []
    (with_cloud busy_cloud idle) [inr two_ports]); [discriminate|reflexivity].
Defined.

Lemma UpdatePort_create_witness :
  (∀ r s', Openstack.UpdatePort subnet_opt 3 CreateE true None idle ≠ (Ret r, s')) ∧
  Openstack.UpdatePort subnet_opt 3 CreateE false None idle =
    (Ret None, put (OpenstackFacts.pushed (replicate 3 (CreateTask subnet_opt 3)) empty_openstack) idle).
Proof.
  destruct (OpenstackFacts.UpdatePort_create subnet_opt 3 CreateE None idle) as [Hwait Hasync];
    [split_and!; [discriminate..|left; discriminate]|by left|].
  split; [exact Hwait|]. rewrite Hasync. reflexivity.
Defined.

(** ** Watermarks

    A pool manager that records the updates, and an infrastructure that
    answers one interface with three addresses. *)
Definition log : Type := list (option Pool).

#[local] Instance log_pools : PoolManager log :=
  {| UpdatePool pl _ := λ s, (Ret None, s ++ [pl]);
     EachPool B fn b := go_ret b |}.

Definition second_if (ip : string) : Interface :=
  {| IfName := ""; IfId := ip; IfIp := ip; SubnatId := "net"; IfMac := "aa"; Second := ∅ |}.

Definition main_if : Interface :=
  {| IfName := ""; IfId := "eni-1"; IfIp := "10.0.0.1"; SubnatId := "net"; IfMac := "aa";
     Second := list_to_map ((λ ip, (ip, second_if ip)) <$> ["10.0.0.1"; "10.0.0.2"; "10.0.0.3"]) |}.

#[local] Instance log_infra : InfraClient log :=
  {| GetInterface o := go_ret (Some main_if);
     GetInstance o := go_ret None;
     GetSubnat o := go_ret None;
     UpdatePort o n ev wait fn := go_ret None;
     EachInterface B o fn b := go_ret (b, None);
     UpdateInstancePort o ev wait fn := go_ret None;
     UpdateInterfacePort id ps ev wait fn := go_ret None |}.

Definition subnet_info (node : string) : Sninfo :=
  {| SnInfoName := ""; SnNamespace := Some ∅; SnNode := Some (keys {[node]}); allnode := false;
     allnamespace := true; Deleted := false; SninfoId := "net"; projectId := "project";
     vpcId := "vpc"; PreAllocated := 1; MinAvaliab := 1 |}.

Definition main_pool : Pool :=
  {| NodeName := "node-1"; MainId := "eni-1"; Subnat := ""; Namespace := Some ∅;
     CapIp := Some (keys ∅); UsedIp := Some (keys {["10.0.0.1"]}) |}.

Definition made_event : poolEvent := {| PoMainId := "eni-1"; PoAdd := 0; PoRemove := Some ∅ |}.

Lemma main_keyed : VpcFacts.keyed (Second main_if).
Proof.
  intros ip i Hi. apply elem_of_list_to_map_2, list_elem_of_fmap in Hi as (x & [= -> ->] & _). done.
Qed.

Lemma main_no_overflow :
  VpcFacts.no_overflow (subnet_info "node-1") (VpcFacts.capacity ∅ (Second main_if)) {["10.0.0.1"]}.
Proof. split; vm_compute; split; congruence. Qed.

Lemma calPoolEvent_watermarks_witness :
  let cap := VpcFacts.capacity ∅ (Second main_if) in
  ∃ rel, VpcFacts.releases (subnet_info "node-1") (Second main_if) cap {["10.0.0.1"]} rel ∧
    Vpc.calPoolEvent (Some (subnet_info "node-1")) (Some main_pool) (Some made_event) ([] : log) =
    (let* err := Backoff.Backoff (UpdatePool
       (Some (Vpc.with_cap (Some (keys (cap ∖ rel))) main_pool)) UpdateE) in
     go_ret (err, Some (VpcFacts.event_of (subnet_info "node-1") (Second main_if) cap
                          {["10.0.0.1"]} made_event ∅ rel))) [].
Proof.
  apply (VpcFacts.calPoolEvent_watermarks (subnet_info "node-1") main_pool made_event main_if ∅
    {["10.0.0.1"]} ∅ [] []); try reflexivity; [apply main_keyed|apply main_no_overflow].
Defined.

(** ** Subnets *)
Definition the_cfg : VpcCfg :=
  {| CfgPreAllocated := 4; CfgMinAvaliable := 2; WorkerNumber := 1; DefaultSubnatId := "net-0";
     DefaultProjectId := "project" |}.

Definition subnet_object (fin : list string) (deleting : option Z) : Subnet_ :=
  {| SubnetMeta := {| Name := "net"; Annotations := ∅; Finalizers := fin;
                      DeletionTimestamp := deleting |};
     SnSpec := {| SpecIPVersion := Some 4%Z; SpecSubnetId := "net-id"; SpecVpc := "vpc";
                  SpecProject := "project"; SpecPreAllocated := Some 3%Z; SpecMinAvaliable := None;
                  SpecNamespaces := None; SpecNodes := Some ["node-1"] |};
     SnStatus := {| StatusNamespaces := Some ["default"]; StatusNodes := None |} |}.

Definition with_subnet (o : Subnet_) (s : system) : system := with_subnets {[ "net" := o ]} s.

Lemma empty_vpc_wf (s : system) : subnats (view s) = ∅ → VpcFacts.cache_wf (view s).
Proof. intros Hs. unfold VpcFacts.cache_wf. rewrite Hs. apply map_Forall_empty. Qed.

Lemma Reconcile_observes_witness :
  let o := subnet_object [] None in let s := with_subnet o idle in
  Vpc.Reconcile the_cfg "net" s =
    (Ret None, put (VpcFacts.cached "net"
       (VpcFacts.observe the_cfg o (VpcFacts.entry o (view s))) (view s)) s) ∧
  ∀ sn, VpcFacts.observe the_cfg o (VpcFacts.observe the_cfg o sn) = VpcFacts.observe the_cfg o sn.
Proof.
  apply (VpcFacts.Reconcile_observes the_cfg "net" (subnet_object [] None)
    (with_subnet (subnet_object [] None) idle) (with_subnet (subnet_object [] None) idle));
    [vm_compute; reflexivity|by apply empty_vpc_wf|by split| |reflexivity|reflexivity].
  intros [?|[?|?]]; discriminate.
Defined.

Lemma Subnet_lifecycle_witness :
  let s := with_subnet (subnet_object [] None) idle in
  let s' := snd (Vpc.Reconcile the_cfg "net" s) in
  VpcFacts.cache_wf (view s') ∧ VpcFacts.cache_advances (view s) (view s') ∧
  readers (view (C:=manager) s') = readers (view s).
Proof.
  set (s := with_subnet (subnet_object [] None) idle).
  apply (VpcFacts.Subnet_lifecycle the_cfg "net" s (fst (Vpc.Reconcile the_cfg "net" s)));
    [by apply empty_vpc_wf|by destruct (Vpc.Reconcile the_cfg "net" s)].
Defined.

Lemma Subnet_finalizer_safe_witness :
  let s := with_subnet (subnet_object [FinializerController] (Some 1%Z)) idle in
  ∃ r s', Vpc.Reconcile the_cfg "net" s = (Ret r, s') ∧
  (keeps (O:=Subnet_) "net" FinializerController s' ∨
   ∃ o, "net" = "net" ∧ fst (kget "net" s) = inr o ∧
        Deleted (VpcFacts.entry o (view s)) = true ∧
        PoolFacts.deletes_all (λ p, Subnat p = "net") (VpcFacts.entered "net" o s)).
Proof.
  set (s := with_subnet (subnet_object [FinializerController] (Some 1%Z)) idle).
  eexists _, _. split; [vm_compute; reflexivity|].
  eapply (VpcFacts.Subnet_finalizer_safe the_cfg "net" "net" s None);
    [by apply empty_vpc_wf| |vm_compute; reflexivity].
  exists (subnet_object [FinializerController] (Some 1%Z)). split; [vm_compute; reflexivity|by left].
Defined.

Lemma deletion_unprotected_witness :
  let s := with_subnet (subnet_object [] None) idle in
  ∃ r s', Vpc.Reconcile the_cfg "net" s = (Ret r, s') ∧ VpcFacts.unprotected s' ∧
  (fst (kdelete (O:=Subnet_) "net" s') = None →
   kstore (O:=Subnet_) (snd (kdelete (O:=Subnet_) "net" s')) !! "net" = None ∧
   Vpc.Reconcile the_cfg "net" (snd (kdelete (O:=Subnet_) "net" s')) =
     (Ret None, snd (kget (O:=Subnet_) "net" (snd (kdelete (O:=Subnet_) "net" s'))))).
Proof.
  set (s := with_subnet (subnet_object [] None) idle).
  eexists _, _. split; [vm_compute; reflexivity|].
  eapply (VpcFacts.deletion_unprotected the_cfg "net" "net" s None);
    [by apply empty_vpc_wf| |vm_compute; reflexivity].
  intros n o Ho. change (named {[ "net" := subnet_object [] None ]} !! n = Some o) in Ho.
  apply named_lookup in Ho as [Ho _]. by apply lookup_singleton_Some in Ho as [_ <-].
Defined.

Lemma default_subnet_ignored_witness :
  ∃ d s', Vpc.defaultEniSubnat the_cfg = inr d ∧
    (let* err := Vpc.Start the_cfg in
     let* r := Vpc.Reconcile the_cfg defaultSubnat in go_ret (err, r)) idle =
      (Ret (None, None), s') ∧
    kstore s' !! defaultSubnat = Some d ∧ view s' = view (C:=manager) idle.
Proof. apply (VpcFacts.default_subnet_ignored the_cfg idle). vm_compute. reflexivity. Defined.

(** ** Callbacks and events *)
Definition with_cached (sn : Sninfo) (s : system) : system :=
  put {| subnats := {[ "net" := sn ]}; readers := 0; writer := false; ch := None |} s.

Lemma getSubnatEvent_returns_witness :
  let s := put (node_cache false) idle in
  Vpc.getSubnatEvent (subnet_info "node-2") s =
    (Ret (VpcFacts.bare_event (subnet_info "node-2")), s) ∧
  ∀ ev s', Vpc.getSubnatEvent (subnet_info "node-1") s ≠ (Ret ev, s').
Proof.
  split.
  - apply (VpcFacts.getSubnatEvent_returns (subnet_info "node-2") (keys {["node-2"]})
      (put (node_cache false) idle)); [reflexivity|].
    by_compute.
  - apply (VpcFacts.getSubnatEvent_returns (subnet_info "node-1") (keys {["node-1"]})
      (put (node_cache false) idle)); [reflexivity|].
    by_compute.
Defined.

Lemma lister_view (s : system) : view (C:=manager) (snd (ns_list s)) = view s.
Proof. done. Qed.

Lemma callback_stuck_witness :
  let s := with_cached (subnet_info "node-2")
             (with_subnet (subnet_object [] None) (put (node_cache false) idle)) in
  let v := CbNamespace "default" in
  let s1 := snd (Vpc.callback v s) in
  (∀ u, fst (Vpc.callback v s) ≠ Ret u) ∧
  ∃ s3, Vpc.Reconcile the_cfg "net" s1 = (Hang, s3) ∧
    Vpc.callback (CbPool (Some main_pool)) s3 = (Hang, s3) ∧
    ∀ r s4, Node.Reconcile "node-1" s3 = (r, s4) → sys_vpc s4 = sys_vpc s3 →
      Vpc.callback (CbNode None) s4 = (Hang, s4).
Proof.
  set (s := with_cached _ _). set (v := CbNamespace "default").
  destruct (VpcFacts.callback_stuck the_cfg lister_view v s (fst (Vpc.callback v s))
    (snd (Vpc.callback v s))) as [Hstuck _]; [done|done|by destruct (Vpc.callback v s)|].
  destruct Hstuck as [Hret Hhang].
  { exists "net", (subnet_info "node-2"). by split. }
  split; [exact Hret|].
  destruct (Hhang (snd (Vpc.callback v s)) (rtc_refl _ _) "net" (subnet_object [] None)
    (snd (Vpc.callback v s))) as (s3 & H3 & Hlater);
    [vm_compute; reflexivity|intros [?|[?|?]]; discriminate|].
  exists s3. split; [exact H3|]. split; [by apply Hlater; [apply rtc_refl|]|].
  intros r s4 _ Hv. apply Hlater; [|done]. apply rtc_once. by apply VpcFacts.later_outside.
Defined.

(** ** Subnet events *)
Definition quiet_event : subnatEvent :=
  {| EvVpcId := "vpc"; EvProjectId := "project"; EvSubnatId := "net"; EvSubnatName := "net";
     EvNodes := [{| NoName := "node-1"; NoId := "vm-1"; NoIp := ""; NoAdd := 0;
                    NoRemove := Some ∅; NoPools := [] |}] |}.

(** The listing shows a port, which is not one of a virtual machine. *)
Lemma processSubnatWork_finishes_witness :
  let s := with_cloud busy_cloud idle in
  ∃ s', InfraOps.processSubnatWork 0 (Some quiet_event) s = (Ret tt, s') ∧
  InfraOpsFacts.creates_nothing quiet_event ∧
  (InfraOpsFacts.listing_fails quiet_event (InfraOpsFacts.listing quiet_event s) ∨
   InfraOpsFacts.removes_nothing quiet_event ∧
   ∀ i, i ∈ InfraOpsFacts.listed (OpenstackFacts.visited (InfraOpsFacts.listing quiet_event s)) →
        ¬ InfraOpsFacts.attaches ["node-1"] i).
Proof.
  eexists. split; [vm_compute; reflexivity|].
  eapply (InfraOpsFacts.processSubnatWork_finishes 0 quiet_event (with_cloud busy_cloud idle));
    [reflexivity|reflexivity|vm_compute; reflexivity].
Defined.

(** ** The whole process *)
Lemma pools_never_written_witness :
  let s := stored busy_pool in
  (∃ o s', Vpc.callback (CbNamespace "default") s = (o, s') ∧
     sys_log s' = [] ∧ pools (sys_pools s') = ∅) ∧
  ∃ p s', (SpiderPool.Reconcile "eni-1" ;;; go_ret tt) s = (Panic p, s') ∧ sys_log s' = [].
Proof.
  set (s := stored busy_pool). assert (Hs : SystemFacts.reachable the_cfg s) by by apply SystemFacts.reach_init.
  split.
  - destruct (Vpc.callback (CbNamespace "default") s) as [o s'] eqn:Hr. exists o, s'. split; [done|].
    destruct (SystemFacts.pools_never_written the_cfg s (Vpc.callback (CbNamespace "default")) o s'
      Hs (SystemFacts.namespace_event _ _) Hr) as [Hl Hp].
    split; [exact Hl|]. apply Hp. vm_compute in Hr. by injection Hr as <- _.
  - destruct ((SpiderPool.Reconcile "eni-1" ;;; go_ret tt) s) as [o s'] eqn:Hr.
    destruct (SystemFacts.pools_never_written the_cfg s _ o s' Hs (SystemFacts.pool_reconcile _ "eni-1") Hr)
      as [Hl _].
    assert (o = Panic UnhashableKey) as -> by (vm_compute in Hr; by injection Hr as <- _).
    exists UnhashableKey, s'. exact (conj eq_refl Hl).
Defined.

(** A node and a subnet are reconciled. *)
Definition with_both : system :=
  with_node_objects {[ "node-1" := node_object None ]}
    (with_subnet (subnet_object [] None) idle).
Definition both_cached : system :=
  snd ((Vpc.Reconcile the_cfg "net" ;;; go_ret tt)
    (snd ((Node.Reconcile "node-1" ;;; go_ret tt) with_both))).

Lemma both_cached_reachable : SystemFacts.reachable the_cfg both_cached.
Proof.
  unfold both_cached.
  eapply SystemFacts.reach_step; [eapply SystemFacts.reach_step;
    [apply (SystemFacts.reach_init _ with_both); vm_compute; reflexivity|]|].
  - eapply SystemFacts.step_handler; [apply (SystemFacts.node_reconcile _ "node-1")
      |vm_compute; reflexivity|discriminate].
  - eapply SystemFacts.step_handler; [apply (SystemFacts.subnet_reconcile _ "net")
      |vm_compute; reflexivity|discriminate].
Qed.

(** ** The worker of the events *)
Definition named_event (n id : string) : subnatEvent :=
  {| EvVpcId := "vpc"; EvProjectId := "project"; EvSubnatId := id; EvSubnatName := n;
     EvNodes := [] |}.

Definition with_events (l : list subnatEvent) (s : system) : system :=
  put {| subnats := subnats (sys_vpc s); readers := readers (sys_vpc s); writer := false; ch := Some l |} s.

Definition no_process : subnatEvent → go system unit := λ _, go_ret tt.
Definition nobody (_ _ : system) : Prop := False.

#[local] Notation run_worker := (Work.run no_process nobody).

(** A tick whose events are known. *)
Lemma tick_now process others (w : Work.worker (S:=system)) t t' b o s' :
  Work.batch (Work.evmap w) = b → Work.worker_status w = Work.Running →
  (Work.clock w ≤ t)%Z → (Work.armed w + Work.tick_period ≤ t)%Z → (t ≤ t')%Z →
  Work.handle_batch process b (Work.shared w) = (o, s') →
  Work.step process others w (Work.Tick t b)
    {| Work.clock := t'; Work.armed := t'; Work.tickers := Datatypes.S (Work.tickers w);
       Work.evmap := ∅; Work.worker_status := Work.after_batch o; Work.shared := s' |}.
Proof. intros <-. apply Work.work_tick. Qed.

(** Two events of one subnet and one of another, and a tick. *)
Definition seen : list Work.label :=
  [Work.Recv 10 (named_event "a" "1"); Work.Recv 20 (named_event "b" "2");
   Work.Recv 30 (named_event "a" "3");
   Work.Tick 240 [named_event "a" "3"; named_event "b" "2"]].

Definition three_events : system :=
  with_events [named_event "a" "1"; named_event "b" "2"; named_event "a" "3"] idle.

Lemma seen_run : ∃ w, run_worker 0 three_events seen w ∧ Work.worker_status w = Work.Running ∧
  Work.clock w = 250%Z.
Proof.
  eexists. split.
  - eapply (run_step _ _ [_; _; _]).
    + eapply (run_step _ _ [_; _]).
      * eapply (run_step _ _ [_]); [eapply (run_step _ _ []);
          [apply run_start|]|];
          (eapply Work.work_recv; [reflexivity|simpl; lia|reflexivity]).
      * eapply Work.work_recv; [reflexivity|simpl; lia|reflexivity].
    + eapply (tick_now _ _ _ 240 250 _ (Ret tt)); [vm_compute; reflexivity|reflexivity|
        vm_compute; discriminate..|reflexivity].
  - split; reflexivity.
Qed.

(** Events of two subnets. *)
Definition unnamed (id : string) : Sninfo :=
  {| SnInfoName := ""; SnNamespace := Some ∅; SnNode := Some ∅; allnode := true;
     allnamespace := true; Deleted := false; SninfoId := id; projectId := "project";
     vpcId := "vpc"; PreAllocated := 0; MinAvaliab := 0 |}.

Definition two_events : system := with_events [named_event "" "1"; named_event "" "2"] idle.

Lemma worker_coalesces_witness :
  (∃ w, run_worker 0 three_events seen w ∧
    NoDup (EvSubnatName <$> [named_event "a" "3"; named_event "b" "2"])) ∧
  ∃ w, run_worker 0 two_events [Work.Recv 1 (named_event "" "1"); Work.Recv 2 (named_event "" "2")] w
    ∧ Work.batch (Work.evmap w) = [named_event "" "2"].
Proof.
  split.
  { destruct seen_run as (w & Hr & _). exists w. split; [done|].
    destruct (Work.worker_coalesces _ _ _ _ _ _ Hr) as (_ & Hb & _).
    by apply (Hb (take 3 seen) 240 _ []). }
  eexists.
  match goal with |- ?P ∧ _ => assert (Hr : P) end.
  - eapply (run_step _ _ [_]); [eapply (run_step _ _ []); [apply run_start|]|];
      (eapply Work.work_recv; [reflexivity|simpl; lia|reflexivity]).
  - split; [exact Hr|]. apply (Work.worker_coalesces no_process nobody _ _ _ _ Hr).
    repeat constructor; [exists (unnamed "1"), idle, idle|exists (unnamed "2"), idle, idle];
      split; reflexivity.
Defined.

(** ** The workers of the events *)

(** An event that creates a main interface. *)
Definition adding_event : subnatEvent :=
  {| EvVpcId := "vpc"; EvProjectId := "project"; EvSubnatId := "net"; EvSubnatName := "";
     EvNodes := [{| NoName := "node-1"; NoId := "vm-1"; NoIp := ""; NoAdd := 1;
                    NoRemove := Some ∅; NoPools := [] |}] |}.

Definition subnet_work : option subnatEvent → go system unit :=
  InfraOps.processSubnatWork 0.

Lemma send_now w ev b q :
  InfraQueue.crashed w = false → bool_decide (length (InfraQueue.snevch w) < queue_cap)%nat = b →
  InfraOps.HandleSubnatEvent ev (InfraQueue.snevch w) = (Ret tt, q) →
  InfraQueue.step subnet_work nobody w (InfraQueue.Sent ev b)
    {| InfraQueue.snevch := q; InfraQueue.gos := InfraQueue.gos w;
       InfraQueue.cancelled := InfraQueue.cancelled w; InfraQueue.crashed := false;
       InfraQueue.shared := InfraQueue.shared w |}.
Proof. intros Hc <-. by apply InfraQueue.queue_send. Qed.

(** One worker: the first event blocks it, the second one waits for ever. *)
Lemma events_served_witness :
  ∃ w, InfraQueue.run subnet_work nobody 1 idle
         [InfraQueue.Sent (Some adding_event) true; InfraQueue.Take (Some adding_event);
          InfraQueue.End_ (Some adding_event) Hang; InfraQueue.Sent (Some quiet_event) true] w ∧
    InfraQueue.snevch w = [Some quiet_event] ∧
    ∀ ev w', ¬ InfraQueue.step subnet_work nobody w (InfraQueue.Take ev) w'.
Proof.
  eexists.
  match goal with |- ?P ∧ _ => assert (Hr : P) end.
  - eapply (run_step _ _ [_; _; _]); [eapply (run_step _ _ [_; _]);
      [eapply (run_step _ _ [_]); [eapply (run_step _ _ []); [apply run_start|]|]|]|].
    + by eapply send_now.
    + by eapply (InfraQueue.queue_take _ _ _ 0).
    + eapply (InfraQueue.queue_handle _ _ _ 0); [reflexivity|reflexivity|vm_compute; reflexivity].
    + by eapply send_now.
  - split; [exact Hr|]. split; [reflexivity|].
    by apply (InfraQueue.events_served subnet_work nobody _ _ _ _ Hr).
Defined.

(** The worker of the running process, for two ticks. *)
Lemma memory_well_formed_witness :
  nodes (sys_nodes both_cached) !! "node-1" = Some (node_info false) ∧
  chan (sys_nodes both_cached) = ["node-1"] ∧ is_Some (subnats (sys_vpc both_cached) !! "net") ∧
  (∀ n ni, nodes (sys_nodes both_cached) !! n = Some ni → InfoName ni = n) ∧
  ∃ w, Work.run no_process (λ s s', SystemFacts.reachable the_cfg s ∧ SystemFacts.step the_cfg s s')
         0 both_cached [Work.Tick 200 []; Work.Tick 400 []] w ∧ Work.tickers w = 3%nat.
Proof.
  destruct (SystemFacts.memory_well_formed the_cfg both_cached both_cached_reachable)
    as (Hn & _ & _ & _ & Hw).
  split; [vm_compute; reflexivity|]. split; [vm_compute; reflexivity|].
  split; [eexists; vm_compute; reflexivity|]. split; [exact Hn|]. eexists.
  match goal with |- ?P ∧ _ => assert (Hr : P) end.
  - eapply (run_step _ _ [_]); [eapply (run_step _ _ []); [apply run_start|]|].
    + eapply (tick_now _ _ _ 200 200 _ (Ret tt)); [reflexivity|reflexivity|vm_compute; discriminate..|reflexivity].
    + eapply (tick_now _ _ _ 400 400 _ (Ret tt)); [reflexivity|reflexivity|vm_compute; discriminate..|reflexivity].
  - split; [exact Hr|]. exact (proj2 (proj2 (Hw no_process 0%Z _ _ Hr))).
Defined.
End Witness.
