(* ===== verification/ToolWitness.v ===== *)
(** * ToolWitness: the theorems of the data structures, the locks and the start

    Concrete inputs for the theorems with hypotheses of LinkedListFacts.v,
    MultiQueue.v, WaitGroup.v, Semaphore.v, Trigger.v, Allocate.v, Lockfile.v,
    Flight.v, Startup.v, Connect.v, DeepCopyFacts.v, LockDebug.v and Daemon.v,
    among them a kernel with files and their locks, a subnet in memory and
    a machine that boots. *)
From S2P Require Import Prelude.
From S2P Require Import LinkedList.
From S2P Require Import LinkedListFacts.
From S2P Require Import MultiQueue.
From S2P Require Import WaitGroup.
From S2P Require Import Semaphore.
From S2P Require Import Trigger.
From S2P Require Import Allocate.
From S2P Require Import Lockfile.
From S2P Require Import Objects.
From S2P Require Import IPPool.
From S2P Require Import SpiderPool.
From S2P Require Import Node.
From S2P Require Import Infra.
From S2P Require Import Vpc.
From S2P Require Import Connect.
From S2P Require Import Runtime.
From S2P Require Import Namespace.
From S2P Require Import Config.
From S2P Require Import Daemon.
From S2P Require Import Startup.
From S2P Require Import Flight.
From S2P Require Import DeepCopy.
From S2P Require Import DeepCopyFacts.
From S2P Require Import LockDebug.
Open Scope Z_scope.

Module ToolWitness.

(** A closed decidable fact, by evaluation. *)
Ltac by_compute := match goal with |- ?P => apply (bool_decide_unpack P); vm_compute; exact I end.

(** ** Lists and queues *)
Definition no_memory : memory nat := {| cells := ∅; headers := ∅ |}.

Definition some_calls : list (LinkedListFacts.op (T:=nat)) :=
  [LinkedListFacts.OAdd [4; 5]%nat; LinkedListFacts.OInsert 1 [9]%nat; LinkedListFacts.OSwap 0 2;
   LinkedListFacts.ORemove 5; LinkedListFacts.OPop; LinkedListFacts.OGet 0].

Lemma list_refines_sequence_witness :
  (∃ m' l ls, LinkedListFacts.use 0%nat [1; 2]%nat some_calls no_memory =
      (Ret (l, (LinkedListFacts.model_all 0%nat some_calls [1; 2]%nat).1), m') ∧
    LinkedListFacts.rep m' l ls [9; 1; 4; 5]%nat) ∧
  ∃ m', LinkedListFacts.use 0%nat [1; 2]%nat (some_calls ++ [LinkedListFacts.OInsert 0 []]) no_memory =
    (Panic NilDeref, m').
Proof.
  destruct (LinkedListFacts.list_refines_sequence 0%nat no_memory [1; 2]%nat) as [Hrun Hpanic];
    [by_compute|].
  split.
  - destruct (Hrun some_calls) as (m' & l & ls & E & H & _); [vm_compute; intuition congruence|].
    exists m', l, ls. split; [exact E|exact H].
  - apply Hpanic; [vm_compute; intuition congruence|vm_compute; discriminate].
Defined.

Definition queue_calls : list (MultiQueue.call (T:=nat)) :=
  [MultiQueue.CPush "a" 1; MultiQueue.CPush "b" 2; MultiQueue.CPush "a" 3; MultiQueue.CPop "a";
   MultiQueue.CPop "c"]%nat.

Lemma multiqueue_refines_witness :
  ∃ s', MultiQueue.exec_all 0%nat queue_calls (MultiQueue.NewMultiQueue no_memory) =
    (Ret [None; None; None; Some (1, true); Some (0, false)]%nat, s').
Proof.
  destruct (MultiQueue.multiqueue_refines 0%nat no_memory queue_calls) as (s' & E & _); [by_compute|].
  exists s'. exact E.
Defined.

(** ** Locks *)

(** One goroutine stops a group of its own. *)
Definition stopping : list WaitGroup.label :=
  WaitGroup.Call 0 WaitGroup.CStop :: replicate 9 (WaitGroup.Run 0).

Definition stopped_group : wait_group :=
  {| noopDone := true; noopAdd := true; i := 0; doneOnce := true; stopOnce := Ran |}.

Lemma stopped_releases_witness :
  WaitGroup.exec stopping (WaitGroup.start 1) = Some (stopped_group, [WaitGroup.Idle]) ∧
  WaitGroup.advance stopped_group WaitGroup.WaitRecv = Some (stopped_group, WaitGroup.Idle).
Proof.
  assert (WaitGroup.exec stopping (WaitGroup.start 1) = Some (stopped_group, [WaitGroup.Idle]))
    as H by (vm_compute; reflexivity).
  split; [exact H|].
  destruct (WaitGroup.stopped_releases 1 stopping stopped_group [WaitGroup.Idle] H ltac:(by_compute))
    as (_ & Hr & _).
  destruct (Hr eq_refl ltac:(repeat constructor) ltac:(by_compute)) as [_ E]. exact E.
Defined.

Lemma alone_equivalence_witness :
  ∃ g, WaitGroup.run_alone
      [WaitGroup.CAdd; WaitGroup.CStop; WaitGroup.CAdd; WaitGroup.CDone; WaitGroup.CWait]
      NewStoppableWaitGroup = Some g ∧ noopDone g = true.
Proof.
  destruct (WaitGroup.alone_equivalence
    [WaitGroup.CAdd; WaitGroup.CStop; WaitGroup.CAdd; WaitGroup.CDone; WaitGroup.CWait]
    ltac:(by_compute)) as (g & E & H & _).
  exists g. split; [exact E|exact H].
Defined.

(** A reader has the mutex and a writer waits for it. *)
Definition reader_then_writer : Semaphore.config :=
  ({| size := maxReaders; cur := 1; waiters := [(1%nat, maxReaders)] |},
   [Semaphore.Holds 1; Semaphore.Waits maxReaders]).

Lemma mutex_safe_witness :
  rtc Semaphore.step (NewSemaphoredMutex, replicate 2 (Semaphore.Holds 0)) reader_then_writer ∧
  Acquire 0 maxReaders NewSemaphoredMutex ≠ Doomed ∧ is_Some (Release 1 reader_then_writer.1).
Proof.
  assert (rtc Semaphore.step (NewSemaphoredMutex, replicate 2 (Semaphore.Holds 0)) reader_then_writer)
    as H.
  { eapply rtc_l; [apply (Semaphore.step_granted _ _ 0%nat RLock 1); [done..|vm_compute; reflexivity]|].
    eapply rtc_l; [apply (Semaphore.step_queued _ _ 1%nat Lock maxReaders);
      [done..|vm_compute; reflexivity]|]. apply rtc_refl. }
  split; [exact H|]. split.
  - destruct (Semaphore.mutex_safe 2 _ _ (rtc_refl _ _)) as (_ & _ & Hd & _).
    by apply (Hd 0%nat Lock).
  - destruct (Semaphore.mutex_safe 2 _ _ H) as (_ & _ & _ & Hr).
    by apply (Hr 0%nat (Semaphore.Holds 1) RUnlock).
Defined.

(** ** Triggers and identifiers *)
Definition trigger_params : Parameters :=
  {| MinInterval := 5; TriggerFunc := true; ShutdownFunc := true |}.
Definition new_trigger : trigger_state :=
  {| trigger := false; lastTrigger := 95; wakeupChan := false; closeChan := false; numFolds := 0;
     pc := WTest; inflight := 0; now := 100; runs := []; shutdowns := 0 |}.

(** A run that calls the function once and is then shut down. *)
Definition shut_down : trigger_state :=
  {| trigger := false; lastTrigger := 100; wakeupChan := false; closeChan := true; numFolds := 0;
     pc := WExit; inflight := 1; now := 100; runs := [(100, 100)]; shutdowns := 1 |}.

Lemma trigger_served_witness :
  rtc (Trigger.step trigger_params) new_trigger shut_down ∧
  Trigger.spaced trigger_params (runs shut_down) ∧
  (∃ t' a b i, rtc (Trigger.step trigger_params) new_trigger t' ∧ runs t' = [(a, i); (b, i)]) ∧
  ∀ t', rtc (Trigger.step trigger_params) shut_down t' → runs t' = [(100, 100)].
Proof.
  assert (rtc (Trigger.step trigger_params) new_trigger shut_down) as H.
  { eapply rtc_l; [apply Trigger.call_trigger|].
    eapply rtc_l; [by apply Trigger.waiter_test|]. eapply rtc_l; [by apply Trigger.waiter_delay|].
    eapply rtc_l; [by apply Trigger.waiter_start|]. eapply rtc_l; [by apply Trigger.waiter_call|].
    eapply rtc_l; [by apply Trigger.waiter_run|]. eapply rtc_l; [by apply Trigger.call_shutdown|].
    eapply rtc_l; [by apply Trigger.waiter_exit|]. eapply rtc_l; [by apply Trigger.waiter_shutdown|].
    apply rtc_refl. }
  split; [exact H|].
  destruct (Trigger.trigger_served trigger_params 100 0 new_trigger shut_down)
    as (_ & Hsp & Htwo & _ & Hexit); [reflexivity|exact H|].
  split; [exact Hsp|]. split; [by apply Htwo|].
  intros t' Ht'. by apply (proj2 (proj2 (Hexit eq_refl))).
Defined.

Lemma Get_identifies_witness :
  (Allocate.Gets [7; 9; 7] NewAllocat).1 = [1; 2; 1] ∧ int64_range 1.
Proof.
  assert ((Allocate.Gets [7; 9; 7] NewAllocat).1 = [1; 2; 1]) as E by (vm_compute; reflexivity).
  split; [exact E|].
  destruct (Allocate.Get_identifies [7; 9; 7] 0 2 7 7 1 1) as [H _];
    [repeat constructor; unfold uint64; lia|done|done|by rewrite E|by rewrite E|exact H].
Defined.

(** ** File locks *)

(** The kernel keeps the lock of every open descriptor. *)
Notation kernel := (gmap Z lock_type).

Definition excludes (ty ty' : lock_type) : bool :=
  match ty' with F_WRLCK => true | F_RDLCK => bool_decide (ty = F_WRLCK) | F_UNLCK => false end.

Definition busy (k : kernel) (fd : Z) (ty : lock_type) : bool :=
  existsb (λ p, negb (bool_decide (p.1 = fd)) && excludes ty p.2) (map_to_list k).

Definition is_open (k : kernel) (fd : Z) : Prop := is_Some (k !! fd) ∧ 0 ≤ fd < 2 ^ 31.

#[export] Instance is_open_dec k fd : Decision (is_open k fd).
Proof. unfold is_open. apply _. Defined.

(** A descriptor above all others. *)
Definition next_fd (k : kernel) : Z := 1 + foldr Z.max 2 (map_to_list k).*1.

#[export] Instance kernel_locks : OfdLocks kernel := {|
  fcntl := λ fd ty cmd k,
    if decide (is_open k fd) then
      if bool_decide (ty ≠ F_UNLCK) && busy k fd ty then
        if bool_decide (cmd = SETLKW) then None else Some (Some (EMsg "EAGAIN"), k)
      else Some (None, <[fd := ty]> k)
    else Some (Some (EMsg "EBADF"), k);
  open_file := λ _ _ _ k,
    if next_fd k <? 2 ^ 31 then (inr (next_fd k), <[next_fd k := F_UNLCK]> k)
    else (inl (EMsg "EMFILE"), k);
  close_file := λ fd k,
    (if decide (is_open k fd) then None else Some (EMsg "EBADF"), delete fd k);
  held := λ k fd, default F_UNLCK (k !! fd);
  opened := is_open;
  Error := λ e, match e with EMsg m => m | _ => "" end
|}.

Lemma next_fd_fresh (k : kernel) : k !! next_fd k = None ∧ 0 ≤ next_fd k.
Proof.
  assert (∀ l, 2 ≤ foldr Z.max 2 l ∧ ∀ x, x ∈ l → x ≤ foldr Z.max 2 l) as H.
  { induction l as [|x l [IH1 IH2]]; simpl; [split; [done|set_solver]|].
    split; [lia|]. intros y [->|Hy]%elem_of_cons; [lia|]. specialize (IH2 y Hy). lia. }
  destruct (H (map_to_list k).*1) as [H1 H2]. unfold next_fd. split; [|lia].
  destruct (k !! _) as [ty|] eqn:E; [|done]. exfalso.
  apply elem_of_map_to_list, (list_elem_of_fmap_2 fst) in E. apply H2 in E. simpl in E. lia.
Qed.

Lemma insert_kept (k : kernel) fd ty : others_kept fd k (<[fd := ty]> k).
Proof. intros fd' ?. simpl. unfold is_open. by rewrite !lookup_insert_ne. Qed.

Lemma busy_conflict (k : kernel) fd ty : busy k fd ty = true ↔ conflict k fd ty.
Proof.
  unfold busy, conflict. rewrite existsb_exists. simpl. split.
  - intros ([fd' ty'] & Hin%list_elem_of_In%elem_of_map_to_list & [H1 H2]%andb_true_iff).
    simpl in *. exists fd'.
    rewrite Hin. simpl. split; [by case_bool_decide|].
    destruct ty'; simpl in H2; [right; by case_bool_decide|by left|done].
  - intros (fd' & Hne & H). destruct (k !! fd') as [ty'|] eqn:Hk; simpl in H; [|naive_solver].
    exists (fd', ty'). rewrite <- list_elem_of_In, elem_of_map_to_list. split; [done|]. simpl.
    rewrite bool_decide_false by done. simpl. by destruct H as [->|[-> ->]].
Qed.

#[export] Instance kernel_laws : OfdLaws kernel.
Proof.
  split; simpl; unfold held, fcntl, opened; simpl.
  - intros fd cmd k Ho. rewrite decide_True by done. eexists. split; [done|].
    rewrite lookup_insert_eq. split; [done|apply insert_kept].
  - intros fd ty cmd k Ho Hty Hc. rewrite decide_True by done.
    rewrite (bool_decide_true (ty ≠ F_UNLCK)) by done. simpl.
    rewrite <- busy_conflict in Hc. apply not_true_is_false in Hc. rewrite Hc.
    eexists. split; [done|]. rewrite lookup_insert_eq. split; [done|apply insert_kept].
  - intros fd ty k Ho Hty Hc. rewrite decide_True by done.
    rewrite (bool_decide_true (ty ≠ F_UNLCK)) by done. simpl.
    rewrite (proj2 (busy_conflict _ _ _) Hc). by eexists.
  - intros fd ty k Ho Hty Hc. rewrite decide_True by done.
    rewrite (bool_decide_true (ty ≠ F_UNLCK)) by done. simpl.
    by rewrite (proj2 (busy_conflict _ _ _) Hc).
  - intros fd ty cmd k Ho. rewrite decide_False by done. by eexists.
  - intros fd ty cmd k r k'. destruct (decide (is_open k fd)) as [Ho|]; [|by intros [= <- <-]].
    destruct (bool_decide (ty ≠ F_UNLCK) && busy k fd ty).
    + case_bool_decide; intros [= <- <-]. done.
    + intros [= <- <-]. rewrite lookup_insert_eq. refine (conj _ (conj _ (conj _ (insert_kept _ _ _)))); [done|done|].
      destruct Ho as [Hk Ho]. unfold is_open. rewrite lookup_insert_eq. by split; intros _; eauto.
  - intros _ _ _ k fd k'. destruct (next_fd_fresh k) as [Hn H0].
    destruct (Z.ltb_spec (next_fd k) (2 ^ 31)); [|done]. intros [= <- <-].
    unfold is_open. rewrite Hn, lookup_insert_eq. split_and!; [|done|done|lia|done|apply insert_kept].
    by intros [[??] _].
  - intros fd k Ho. unfold is_open. rewrite lookup_delete_eq. split_and!; [by intros [[??] _]|done|].
    intros fd' ?. simpl. unfold is_open. by rewrite !lookup_delete_ne.
  - intros k fd Ho. by destruct Ho.
Qed.

Lemma flock_cancellation_witness :
  ∃ (l : lockfile) (k0 : kernel),
    Lockfile.NewLockfile "/run/lock" (∅ : kernel) = (inr l, k0) ∧
    ∃ k c1 c2, rtc (Lockfile.step (Lockfile.Fd l)) (k0, []) (k, [c1; c2]) ∧
      call_main c2 = Returned None ∧ held k (Lockfile.Fd l) = F_UNLCK.
Proof.
  exists {| fp := Some 3 |}, (<[3 := F_UNLCK]> ∅).
  assert (Lockfile.NewLockfile "/run/lock" (∅ : kernel) =
          (inr {| fp := Some 3 |}, <[3 := F_UNLCK]> ∅)) as E by reflexivity.
  split; [exact E|].
  assert (∀ fd', held (∅ : kernel) fd' = F_UNLCK) as H by (intros fd'; reflexivity).
  destruct (Lockfile.flock_cancellation _ _ _ _ E) as (_ & _ & Hs & _).
  destruct (Hs H (EMsg "context deadline exceeded")) as (k & c1 & c2 & H1 & _ & _ & _ & H2 & H3).
  exists k, c1, c2. split_and!; [exact H1|exact H2|exact H3].
Defined.

(** ** Calls that overlap *)

(** A service that counts the requests that reach it. *)
Definition counting (q : string) (n : nat) : option nat * nat := (Some n, S n).

Lemma do_promise_witness :
  ∃ s, rtc (Flight.step id counting) (Flight.start 7%nat) s ∧
    gos s !! 1%nat = Some ("key", Answered (Some 7%nat) true) ∧
    ∃ q, (q, Some 7%nat) ∈ served s ∧ q = "key".
Proof.
  destruct (Flight.crowd id counting "key" 2 7%nat) as (s & Hs & _ & Hg).
  exists s. split; [exact Hs|].
  assert (gos s !! 1%nat = Some ("key", Answered (Some 7%nat) true)) as Ht by (rewrite Hg; reflexivity).
  split; [exact Ht|].
  destruct (Flight.do_promise id counting 7%nat s Hs) as [H _].
  destruct (H 1%nat "key" (Some 7%nat) true Ht) as (q & Hin & Hkey & _).
  exists q. split; [exact Hin|exact Hkey].
Defined.

(** ** The start of the process *)

(** A world in which everything starts. *)
#[local] Instance world_boot : Boot unit :=
  {| listen_gops _ w := (true, w); listen_pyroscope _ _ w := (true, w);
     hostname w := (Some "node-1", w); WaitForCacheSync w := (true, w) |}.
#[local] Instance world_runtime : CtrlRuntime unit :=
  {| AddToScheme _ w := (None, w);
     GetConfig w := (Some {| Cluster := "cluster"; Burst := 0; QPS := 0 |}, w);
     NewCtrlManager _ _ w := (None, w); AddCheck _ w := (None, w); AddRunnable w := (None, w);
     Complete _ w := (None, w); NewClientSet _ w := (None, w); NewDynamicClient _ w := (None, w) |}.
#[local] Instance world_cloud : Gophercloud unit :=
  {| auth_options_from_env w :=
       (inr {| TenantName := "p"; ScopeDomain := None; Credentials := "secret" |}, w);
     authenticated_client _ w := (inr "token", w); new_endpoint _ _ w := (inr "http://cloud", w);
     new_pool _ w := (None, w); getenv _ w := ("default", w) |}.

Lemma world_obliging : Daemon.obliging (W:=unit).
Proof. split; intros; simpl; by eauto. Qed.

(** A timeout below the least. *)
Definition cloud_cfg : InfraCfg :=
  {| InfraType := OpenstackType; InfraTimeout := 3; CfgMutexOnCreate := false;
     CfgOpenstack := {| CfgAuthUrl := ""; CfgCredentialId := ""; CfgCredentialSecret := "" |} |}.

Lemma NewOpenstackClient_spec_witness :
  ∃ c, Connect.NewOpenstackClient cloud_cfg tt = (Ret (inr (c, None)), tt) ∧
    Connect.scoped false (ReauthOptions (ProviderClient (neutronV2 c))) ∧
    Connect.scoped true (ReauthOptions (ProviderClient (keystoneV3 c))) ∧
    Connect.http_timeout cloud_cfg = 10000000000.
Proof.
  destruct (Connect.NewOpenstackClient cloud_cfg tt) as [r []] eqn:E.
  destruct (Connect.NewOpenstackClient_spec cloud_cfg tt r tt E) as (H & Ht & _).
  destruct H as [[e ->]|(c & -> & _ & _ & _ & Hn & Hk & _)]; [by vm_compute in E|].
  exists c. split; [reflexivity|]. split; [exact Hn|]. split; [exact Hk|].
  destruct Ht as [_ ->]; [vm_compute; discriminate|reflexivity].
Defined.

(** ** Subnets in memory *)

(** The two lists of the spec share one array. *)
Definition memory_of_subnet : gmap nat DeepCopy.cell :=
  {[ 0%nat := DeepCopy.CStrings ["controller.eni.io"; "other"];
     1%nat := DeepCopy.CStrings ["a"; "b"; "c"]; 2%nat := DeepCopy.CInt 4;
     3%nat := DeepCopy.CMap {[ "key" := "value" ]} ]}.

Definition subnet_in_memory : DeepCopy.Subnet :=
  {| DeepCopy.SubnetTypeMeta := {| DeepCopy.Kind := "Subnet"; DeepCopy.APIVersion := "v1alpha1" |};
     DeepCopy.SubnetObjectMeta :=
       {| DeepCopy.MetaName := "net"; DeepCopy.GenerateName := ""; DeepCopy.MetaNamespace := "";
          DeepCopy.MetaSelfLink := ""; DeepCopy.UID := ""; DeepCopy.MetaResourceVersion := "7";
          DeepCopy.Generation := 1; DeepCopy.CreationTimestamp := 0;
          DeepCopy.MetaDeletionTimestamp := DeepCopy.Nil;
          DeepCopy.DeletionGracePeriodSeconds := DeepCopy.Nil; DeepCopy.Labels := DeepCopy.NilMap;
          DeepCopy.MetaAnnotations := DeepCopy.Map 3; DeepCopy.OwnerReferences := DeepCopy.NilSlice;
          DeepCopy.MetaFinalizers := DeepCopy.Slice 0 0 2;
          DeepCopy.ManagedFields := DeepCopy.NilSlice |};
     DeepCopy.Spec :=
       {| DeepCopy.IPVersion := DeepCopy.Ptr 2; DeepCopy.SpecSubnet := "net-id";
          DeepCopy.Vpc_ := "vpc"; DeepCopy.Project := "project";
          DeepCopy.SpecPreAllocated := DeepCopy.Nil; DeepCopy.SpecMinAvaliable := DeepCopy.Nil;
          DeepCopy.NamespaceName := DeepCopy.Slice 1 0 2; DeepCopy.NodeName := DeepCopy.Slice 1 1 2 |};
     DeepCopy.Status :=
       {| DeepCopy.SubnatName := DeepCopy.Nil; DeepCopy.VpcName := DeepCopy.Nil;
          DeepCopy.Gateway := DeepCopy.Nil; DeepCopy.Cidr := DeepCopy.Nil;
          DeepCopy.StatusNamespaceName := DeepCopy.NilSlice;
          DeepCopy.StatusNodeName := DeepCopy.NilSlice |} |}.

Definition subnet_as_value : Subnet_ :=
  {| SubnetMeta := {| Name := "net"; Annotations := {[ "key" := "value" ]};
                      Finalizers := ["controller.eni.io"; "other"]; DeletionTimestamp := None |};
     SnSpec := {| SpecIPVersion := Some 4; SpecSubnetId := "net-id"; SpecVpc := "vpc";
                  SpecProject := "project"; SpecPreAllocated := None; SpecMinAvaliable := None;
                  SpecNamespaces := Some ["a"; "b"]; SpecNodes := Some ["b"; "c"] |};
     SnStatus := {| StatusNamespaces := None; StatusNodes := None |} |}.

Lemma deep_copy_promise_witness :
  ∃ c h', @DeepCopy.copy_without_finalizer natural_order subnet_in_memory "controller.eni.io"
            memory_of_subnet = (Ret c, h') ∧
    memory_of_subnet ⊆ h' ∧ DeepCopyFacts.read_subnet h' subnet_in_memory = Some subnet_as_value ∧
    DeepCopyFacts.read_subnet h' c =
      Some (with_meta (fst (RemoveFinalizer (SubnetMeta subnet_as_value) "controller.eni.io"))
                      subnet_as_value).
Proof.
  apply (@DeepCopyFacts.deep_copy_promise natural_order). vm_compute. reflexivity.
Defined.

(** ** A mutex that was held for 150 ms *)
Definition digits_18 : list Byte.byte := [Byte.x20; Byte.x31; Byte.x38].

Definition a_stack : LockDebug.slice :=
  {| LockDebug.elems := LockDebug.trace (digits_18 ++ [Byte.x20]) [Byte.x3a] [[Byte.x41]; [Byte.x42]];
     LockDebug.spare := [] |}.

#[local] Instance identity_lens : Lens LockDebug.debug_state LockDebug.debug_state.
Proof. by refine {| view := λ d, d; put := λ d _, d |}. Defined.

#[local] Instance lock_environment : LockDebug.Environment LockDebug.debug_state :=
  {| LockDebug.wrapped_lock := go_ret tt; LockDebug.wrapped_unlock := go_ret tt;
     LockDebug.wrapped_rlock := go_ret tt; LockDebug.wrapped_runlock := go_ret tt;
     LockDebug.now := go_ret 250000000; LockDebug.debug_stack := go_ret a_stack |}.

Definition held_since : LockDebug.debug_state :=
  {| LockDebug.taken := 100000000; LockDebug.log := []; LockDebug.stderr := [] |}.

Lemma Unlock_reports_witness :
  LockDebug.Unlock held_since =
  (Ret tt, {| LockDebug.taken := 100000000; LockDebug.log := [digits_18];
              LockDebug.stderr := [LockDebug.goroutine ++ digits_18 ++
                [Byte.x20; Byte.x5b; Byte.x3a; Byte.x0a] ++
                LockDebug.lines (LockDebug.goroutine ++ digits_18 ++ [Byte.x20])
                  [[Byte.x41]; [Byte.x42]]] |}).
Proof.
  assert (Hnow : LockDebug.now held_since = (Ret 250000000, held_since)) by reflexivity.
  destruct (@LockDebug.Unlock_reports _ lock_environment identity_lens held_since 250000000
    held_since held_since Hnow eq_refl) as [_ H].
  assert (Hst : LockDebug.debug_stack held_since = (Ret a_stack, held_since)) by reflexivity.
  destruct (H ltac:(vm_compute; discriminate) a_stack held_since Hst) as [Hr _].
  rewrite (Hr digits_18 Byte.x20 [Byte.x3a] [[Byte.x41]; [Byte.x42]] eq_refl);
    [vm_compute; reflexivity|set_solver|set_solver|].
  repeat constructor; unfold LockDebug.one_line, LockDebug.newline; set_solver.
Defined.

(** ** A start with an environment, a flag and a file *)
Definition some_env (n : string) : option string :=
  (list_to_map (M:=gmap string string)
    [("ENI_OPENSTACK_DEFAULT_SUBNAT_ID", " net-0 "); ("ENI_OPENSTACK_DEFAULT_PROJECT_ID", "p");
     ("ENI_GOPS_LISTEN_PORT", ""); ("ENI_INFRA_TIMEOUT", "30")]) !! n.

Definition some_file (path : string) : error + string :=
  if decide (path = "/etc/eni.yaml") then inr "preAllocated: 5" else inl (EMsg "no such file").
Definition some_yaml (text : string) : list (string * Config.datum) * option error :=
  ([("preAllocated", Config.DInt 5); ("timeout", Config.DInt 90)], None).

Definition with_file : Startup.startup_result :=
  Startup.startup some_file some_yaml some_env [(Startup.config_path, "/etc/eni.yaml")].

Definition config_of (r : Startup.startup_result) : Config_ * Config_ :=
  match r with
  | Startup.Started cfg loaded => (cfg, loaded)
  | Startup.Ended => (Startup.zero_config, Startup.zero_config)
  end.

Lemma startup_precedence_witness :
  let cfg := (config_of with_file).1 in let loaded := (config_of with_file).2 in
  with_file = Startup.Started cfg loaded ∧
  Config.read loaded (IntKey InfraTimeoutField) = Some (Config.DInt 90) ∧
  Config.read loaded (StrKey GopsListenPort) = Some (Config.DStr "5724") ∧
  ∃ m, NewManager (Startup.vpc_config loaded) = inr m.
Proof.
  assert (Hs : with_file = Startup.Started (config_of with_file).1 (config_of with_file).2)
    by reflexivity.
  destruct (Startup.startup_precedence some_file some_yaml some_env _ _ _ Hs) as (Hr & Hm & _).
  split; [exact Hs|]. split; [rewrite Hr; vm_compute; reflexivity|].
  split; [rewrite Hr; vm_compute; reflexivity|]. apply Hm; vm_compute; reflexivity.
Defined.

(** The command line [daemon --config-path=..], and nothing else. *)
Definition some_cobra (args : list string) : error + Daemon.command :=
  match args with
  | ["daemon"; path] => inr (Daemon.DaemonCmd [(Startup.config_path, path)])
  | _ => inl (EMsg "unknown command")
  end.

Lemma main_outcome_witness :
  let r := Daemon.main some_file some_yaml some_cobra some_env ["daemon"; "/etc/eni.yaml"]
             [15; 15]%nat (Host (Daemon.zero_memory 16) tt) in
  r.1 = Hang ∧ mem_process (mem r.2) = {| maxprocs := 8; cancels := 2 |} ∧
  For <$> controllers (mem_registry (mem r.2)) = [KSpiderIPPool; KNamespace; KNode; KSubnet] ∧
  (Daemon.main some_file some_yaml some_cobra some_env ["deamon"] []
     (Host (Daemon.zero_memory 16) tt)).1 = Ret None.
Proof.
  destruct (Daemon.main_outcome some_file some_yaml some_cobra some_env
    ["daemon"; "/etc/eni.yaml"] [15; 15]%nat 16 tt _ _ (surjective_pairing _)) as [Hends Hlive].
  assert (Hhang := Hlive world_obliging _ _ eq_refl ltac:(split; vm_compute; reflexivity)).
  split; [exact Hhang|].
  destruct Hends as [[what H]|[H|[(H & _)|(_ & flags & cfg & loaded & m & Hc & Hs & _ & -> & _)]]];
    [rewrite Hhang in H; discriminate H..|].
  injection Hc as <-. injection Hs as <- <-.
  split; [vm_compute; reflexivity|]. split; [reflexivity|].
  destruct (Daemon.main_outcome some_file some_yaml some_cobra some_env
    ["deamon"] [] 16 tt _ _ (surjective_pairing _)) as [_ Hlive2].
  exact (Hlive2 world_obliging _ _ eq_refl).
Defined.
End ToolWitness.
